(* ===== verification/_CoqProject ===== *)
-Q . S2P
Prelude.v
Crc.v
Strnum.v
Lzf.v
Dtoa.v
Glob.v
Atod.v
Parser.v
Errors.v
Reply.v
Notify.v
Stream.v
Config.v
Intset.v
Listpack.v
ListpackFacts.v
ListpackRefine.v
Skiplist.v
SkiplistOrder.v
SkiplistFacts.v
SkiplistReads.v
SkiplistRows.v
SkiplistWrites.v
SkiplistUnlink.v
SkiplistRefine.v
Quicklist.v
QuicklistFacts.v
QuicklistRefine.v
Rax.v
RaxFacts.v
RaxWalk.v
RaxInsert.v
RaxRemove.v
RaxListing.v
RaxCursor.v
RaxSeek.v
RaxRefine.v
Output.v
Object.v
Shard.v
Commands.v
Engine.v
Client.v
Registry.v
Ctx.v
StringCmd.v
Views.v
Dispatch.v
Expire.v
Evict.v
Generic.v
GenericFacts.v
Sort.v
Scan.v
ScanFacts.v
Dump.v
DumpFacts.v
ReadOnly.v
Server.v
Connection.v
Framing.v
Conn.v
ConnFacts.v
ConnectionFacts.v
