(* ===== verification/Prelude.v ===== *)
(** * rsdis: a verification library for a sharded Redis-compatible server

    rsdis is a Redis clone in Rust.  The loop of a connection reads what the
    socket has, takes it through the request parser, and each command through
    [dispatch], which checks its gates, locks the shards of its keys in order,
    runs the handler on a context over the locked shards, logs the command for
    the AOF and replicas, releases the locks and leaves the reply in the output
    buffer; the loop flushes once per batch.  In the background, one cycle
    reaps expired keys and another evicts keys above [maxmemory].  This library
    models those paths, the configuration they follow and the encodings below
    them, and proves them correct.

    ** Parts, and the code they model

    Foundations:
    - [Prelude] (this file): bytes, machine integers and their wrap-around,
      bit reasoning, slices, little-endian integers, the hint databases;
    - [Crc]: [src/util/crc16.rs], [src/util/crc64.rs];
    - [Strnum], [Dtoa], [Atod]: [src/util/strnum.rs], integers and doubles as
      text, and doubles read back from text;
    - [Lzf]: [src/util/lzf.rs];  [Glob]: [glob_match] of
      [src/command/generic.rs].

    The wire:
    - [Parser]: [src/resp/parser.rs], the resumable request parser;  [Stream]:
      what it does with pipelined requests cut anywhere;
    - [Errors], [Reply]: [src/error.rs], [src/reply.rs];
    - [Notify]: [src/notify.rs], keyspace notifications;
    - [Output]: [src/net/output.rs], the output buffer of a connection;
    - [Client]: the client's state ([src/ctx.rs]);  [Registry]:
      [src/net/registry.rs], the table of live connections;
    - [Conn]: [src/net/conn.rs], the connection loop, with its facts in
      [ConnFacts];  [Framing]: that a handler only appends to the output.

    Data:
    - [Intset]: [src/encoding/intset.rs], the serialized blob byte for byte;
    - [Listpack]: [src/encoding/listpack.rs], the blob byte for byte; its facts
      are in [ListpackFacts] (one entry) and [ListpackRefine] (the blob as a
      list of entries);
    - [Quicklist]: [src/encoding/quicklist.rs], the deque of listpack and plain
      nodes; [QuicklistFacts] has what a listpack of values promises, and
      [QuicklistRefine] the operations as those of the list;
    - [Rax]: [src/encoding/rax.rs], the radix tree in its arena; the tree an
      arena holds is in [RaxFacts], places in it and the walk of a key in
      [RaxWalk], insertion in [RaxInsert], pruning and merging in [RaxRemove],
      the pairs in order in [RaxListing], the cursor in [RaxCursor] and
      [RaxSeek], and the map it stands for in [RaxRefine];
    - [Skiplist]: [src/encoding/skiplist.rs], the arena index for index; the
      order of elements is in [SkiplistOrder], the invariant (a row of cells of
      given heights) in [SkiplistFacts], reading in [SkiplistReads], the change
      of a row in [SkiplistRows], the writes in [SkiplistWrites] and
      [SkiplistUnlink], and the operations as those of an ordered list in
      [SkiplistRefine];
    - [Object]: [src/object.rs] and [src/types]: values, entries, LRU words;
    - [Shard]: [src/shard/mod.rs]: databases, the expiry index, WATCH
      counters, shards, handles, shard sets and guards.

    Settings:
    - [Config]: [src/config.rs], the directives, the file and the command line.

    Execution:
    - [Commands]: [src/command/mod.rs]: specifications, key positions, lookup;
    - [Engine]: [shard_set_for] of [src/engine.rs] and the interleavings of
      threads that lock shards;
    - [Ctx]: [src/ctx.rs], the context every handler runs on; [Views] restates
      its methods for handlers that work on several keys and databases;
    - [StringCmd]: [src/command/string.rs];
    - [Generic], [Sort], [Scan], [Dump]: [src/command/generic.rs], with their facts in
      [GenericFacts], [ScanFacts] and [DumpFacts];  [ReadOnly]: what the
      READONLY flag promises, over the whole command table;
    - [Server]: [src/command/server.rs];  [Connection]:
      [src/command/connection.rs], with its facts in [ConnectionFacts];
    - [Dispatch]: [dispatch] of [src/engine.rs], the [DENYOOM] gate;
    - [Expire], [Evict]: [src/shard/expire.rs], [src/shard/evict.rs].

    ** How state corresponds

    A Rust integer is a [Z] (an index or a length a [nat]), with its
    wrap-around or saturation written where the code can reach it; counters
    that cannot overflow in the life of a server are unbounded, and the file
    that has one says so.  [HashMap] is [gmap]; a byte buffer, shared or not,
    is [list byte].  A mutex is the state behind it: a command owns the shards
    it locked ([ShardGuards]) until [release], so its body is one function of
    the state it starts from, and what is left to interleaving, the taking of
    several locks, is the step relation of [Engine].  A handler is a function
    from a context to a context and a result, in the small monad of
    [StringCmd].  A Rust panic is [None] where it can occur, and a theorem
    excludes it.  SCAN alone locks shards from inside
    its handler, one at a time: the keyspace it finds at each acquisition is
    an argument, so that other commands run in between.

    Third-party code is a parameter with the laws it documents: [memchr],
    [itoa], [ryu], [fastrand], [foldhash], the iteration order of [hashbrown]
    and the layout of Rust types; so is the value codec the server installs.  Each class has a model that satisfies its laws, and
    the witnesses are evaluated with it.

    ** What the theorems show

    - End to end: [set_then_get], [dispatch_gates], [failure_reply],
      [propagated_once]: what a client is answered, and what a command that is
      refused or fails cannot touch.
    - Locking: [deadlock_free], [lock_steps_terminate],
      [declared_keys_locked].
    - The context against its abstract view, the map from keys to live values:
      [lookup_read_spec], [ctx_insert_spec], [ctx_remove_spec],
      [ctx_set_expire_spec], [get_typed_spec], and [ctx_ops_db_ok] for the
      invariant.  The handlers of [StringCmd] are specified on the same view.
    - The generic commands on that view: [expire_generic_spec],
      [rename_generic_spec], [cmd_copy_spec], [cmd_move_spec],
      [cmd_keys_spec]; [scan_iteration], that an iteration ends and misses no
      key that stays; [dump_restore], [dump_footer_guards], [restore_replay];
      [readonly_dispatch] (nothing but lazy expiry reaches the counters and
      the logs); [sort_orders].
    - The background cycles: [cycle_invisible] refines an expiry sweep to
      doing nothing, whatever the clock says at each of its rounds,
      [evict_cycle_safe] bounds what eviction may remove, [pool_keeps_best]
      and [evict_batch_spec] what it chooses, and [cycle_terminates] needs no
      time budget.
    - The wire: [parse_total], [parse_resumes], [session_chunks] (the parser
      does not depend on how the stream is cut), [request_round_trip],
      [render_read] (replies are self-delimiting), [split_inline_round_trip].
    - Connections: [pipelined_requests] (the loop over bytes, wherever the
      stream is cut, is the loop that is handed whole commands: each is run
      once, in order, by the read that completes it), [connection_sends]
      (nothing lost, repeated or reordered on the way out, whatever the socket
      accepts), [reply_isolated], [output_flush], [output_limit].
    - Administration: [password_required] (behind [requirepass] nothing works
      without the password), [kill_reaches], [flush_dispatch],
      [config_set_dispatch], [config_get_set]; [config_safe] and
      [config_file_round_trip] for the settings themselves.
    - Encodings: [compress_round_trip], [decompress_spec], the operations of
      [Intset] as those of a set, [from_bytes_spec], the checksums against
      bit-serial registers, numbers against decimal spelling, [d2string_round_trip].
    - The listpack is the list of its entries: [listpack_ladder] for one
      entry, [from_bytes_accepts] for the blobs accepted, [listpack_reads],
      [listpack_inserts], [listpack_replace], [listpack_deletes] and
      [listpack_append_all] for the operations.
    - The quicklist is the list of its values, however they are spread over
      nodes: [quicklist_ends], [quicklist_inserts], [quicklist_deletes] (LREM
      included), [quicklist_set], [quicklist_reads].
    - The skip list is the ordered list of its elements, whatever the heights
      of its nodes: [skiplist_insert], [skiplist_delete],
      [skiplist_update_score], [skiplist_delete_ranges], [skiplist_reads],
      [skiplist_ranges].
    - The rax is a map: [rax_insert], [rax_remove], [rax_reads]; its cursors
      read the map in the order of the keys, from any seek ([rax_order]).
    - [expires_mirror_dict] and [watch_detects] for one database.

    Four theorems state defects of the code: [watch_aba] (a dropped WATCH
    registration hides a modification), [error_splits] (line breaks in an
    unknown command split its error reply), [evict_cycle_stalls] (a volatile
    policy gives up on the fattest shard) and [clear_stale_count] (an emptied
    listpack keeps its old length).

    ** Bounds and fuel

    [parse_fuel], [glob_fuel], the compressor's and the inline splitter's fuel
    are shown to be enough ([parse_total], [glob_match_decides],
    [compress_round_trip], [split_inline_round_trip]); the fuel of [cycle_db]
    stands for an unbounded loop, and [cycle_terminates] gives the number of
    rounds that always suffices.  [evict_rounds] has the loop bound of the
    source, and [scan_fuel], one visit per virtual bucket of every shard, is
    enough by [cmd_scan_spec].  The walks of a listpack have its length as fuel
    ([enough_fuel]); a backwards length has five bytes at most.  A walk along
    one level of a skip list has one step more than there are elements as fuel
    ([walk_spec]), a range deletion one round more ([delete_while_spec]).  The loops of a quicklist have a round
    per value, per node, or both ([rows_fuel], [delete_range_loop_rows]).  A
    walk down a rax consumes a byte of the key a step ([walk_loop_tree]); its
    other loops visit a node of the arena once ([try_merge_loop_spec],
    [step_forward_spec], [step_backward_loop_spec]).  A time budget is an arbitrary
    sequence of answers, and the clock of a sweep one of readings.

    ** Not modelled

    The accept loops and tokio tasks ([src/net/listener.rs], [main.rs]): the
    sockets and the [select!] of a connection are parameters of [Conn].  How
    large buffers have grown (capacities are the allocator's).  COMMAND and
    INFO, which format the command table and counters; [ld2string_human], the
    Rust float printer.
    MULTI, EXEC, SUBSCRIBE, CLIENT PAUSE, the aggregate types, RDB, AOF,
    streams and scripting are placeholders in the source, with no operation to
    model. *)

From stdpp Require Export base list list_numbers gmap numbers option sorting.
From Stdlib Require Export ZArith Lia Strings.Byte.
From Stdlib Require Export (notations) Strings.String.
From stdpp Require Import options.

(** ** Bytes

    A Rust [u8] is a [Byte.byte]; [&[u8]], [Vec<u8>], [Bytes] and [BytesMut]
    are all [bytes] (the sharing of buffers between them is not observable
    through the operations modelled here).  [b2z] is [u64::from] on a byte,
    [z2b] is the truncating cast [as u8]. *)

Abbreviation bytes := (list byte).

Definition b2z (b : byte) : Z := Z.of_N (Byte.to_N b).

Definition z2b (z : Z) : byte :=
  match Byte.of_N (Z.to_N (z mod 256)) with Some b => b | None => x00 end.

Lemma byte_to_N_inj (a b : byte) : Byte.to_N a = Byte.to_N b -> a = b.
Proof. intros H%(f_equal Byte.of_N). rewrite !Byte.of_to_N in H. congruence. Qed.

#[export] Instance byte_eq_decision : EqDecision byte.
Proof.
  refine (fun a b => cast_if (decide (Byte.to_N a = Byte.to_N b)));
    abstract (auto using byte_to_N_inj; congruence).
Defined.

#[export] Program Instance byte_countable : Countable byte :=
  inj_countable Byte.to_N Byte.of_N _.
Next Obligation. apply Byte.of_to_N. Qed.

#[export] Instance byte_inhabited : Inhabited byte := populate x00.

Lemma filter_none {A} (f : A -> Prop) `{!forall x, Decision (f x)} (xs : list A) : (forall x, x ∈ xs -> ~ f x) -> filter f xs = [].
Proof. induction xs as [|x xs IH]; intros Hf; [done|]. rewrite filter_cons_False by (apply Hf; left). apply IH. intros y Hy. apply Hf. by right. Qed.

Lemma filter_all {A} (f : A -> Prop) `{!forall x, Decision (f x)} (xs : list A) : (forall x, x ∈ xs -> f x) -> filter f xs = xs.
Proof. induction xs as [|x xs IH]; intros Hf; [done|]. rewrite filter_cons_True by (apply Hf; left). f_equal. apply IH. intros y Hy. apply Hf. by right. Qed.

(** The first element within, apart from the others. *)

Lemma b2z_range (b : byte) : (0 <= b2z b < 256)%Z.
Proof. unfold b2z. pose proof (Byte.to_N_bounded b). lia. Qed.

Lemma z2b_b2z (b : byte) : z2b (b2z b) = b.
Proof.
  unfold z2b. rewrite Z.mod_small by apply b2z_range.
  unfold b2z. by rewrite N2Z.id, Byte.of_to_N.
Qed.

Lemma b2z_z2b (z : Z) : b2z (z2b z) = (z mod 256)%Z.
Proof.
  pose proof (Z.mod_pos_bound z 256 ltac:(lia)) as Hb.
  unfold z2b. destruct (Byte.of_N _) as [b|] eqn:E.
  - unfold b2z. apply Byte.to_of_N in E. rewrite E. lia.
  - exfalso. apply Byte.of_N_None_iff in E. lia.
Qed.

Lemma b2z_z2b_small (z : Z) : (0 <= z < 256)%Z -> b2z (z2b z) = z.
Proof. intros. rewrite b2z_z2b. by apply Z.mod_small. Qed.

#[export] Instance b2z_inj : Inj (=) (=) b2z.
Proof. intros a b H. rewrite <-(z2b_b2z a), <-(z2b_b2z b). by rewrite H. Qed.

(** Byte literals: [bs "GET"] is [b"GET"]. *)
Definition bs (s : String.string) : bytes := String.list_byte_of_string s.
Arguments bs s%_string.

Definition CRLF : bytes := [x0d; x0a].

(** Length of a buffer as a [usize]; comparisons with the large limits of the
    source are made on this [Z] value. *)
Definition blen {A} (l : list A) : Z := Z.of_nat (length l).

(** [lia] with division and remainder by constants. *)
Ltac dlia := zify; Z.to_euclidean_division_equations; lia.

(** ** Machine words

    A [w]-bit unsigned integer is a [Z] in [[0, 2^w)]; [wrapu w] is the
    truncating cast into it and [wraps w] the two's-complement reading. *)

Definition wrapu (w z : Z) : Z := Z.land z (Z.ones w).

Definition wraps (w z : Z) : Z :=
  let u := wrapu w z in if decide (u < 2 ^ (w - 1))%Z then u else (u - 2 ^ w)%Z.

Definition in_unsigned (w z : Z) : Prop := (0 <= z < 2 ^ w)%Z.
Definition in_signed (w z : Z) : Prop := (- 2 ^ (w - 1) <= z < 2 ^ (w - 1))%Z.

Definition U64_MAX : Z := 18446744073709551615.
Definition I64_MAX : Z := 9223372036854775807.
Definition I64_MIN : Z := -9223372036854775808.

Lemma wrapu_mod (w z : Z) : (0 <= w)%Z -> wrapu w z = (z mod 2 ^ w)%Z.
Proof. intros. unfold wrapu. by apply Z.land_ones. Qed.

Lemma wrapu_small (w z : Z) : (0 <= w)%Z -> in_unsigned w z -> wrapu w z = z.
Proof. intros ? [??]. rewrite wrapu_mod by done. by apply Z.mod_small. Qed.

Lemma wrapu_range (w z : Z) : (0 <= w)%Z -> in_unsigned w (wrapu w z).
Proof. intros. rewrite wrapu_mod by done. apply Z.mod_pos_bound. lia. Qed.

Lemma wrapu_iff (w z : Z) : (0 <= w)%Z -> in_unsigned w z <-> wrapu w z = z.
Proof.
  intros. split; [by apply wrapu_small|]. intros <-. by apply wrapu_range.
Qed.

Lemma wraps_range (w z : Z) : (0 < w)%Z -> in_signed w (wraps w z).
Proof.
  intros Hw. pose proof (wrapu_range w z ltac:(lia)) as [Hl Hh].
  assert (2 ^ w = 2 * 2 ^ (w - 1))%Z as E.
  { rewrite <-(Z.pow_succ_r 2 (w - 1)) by lia. f_equal; lia. }
  unfold wraps, in_signed. case_decide; lia.
Qed.

Lemma wraps_small (w z : Z) : (0 < w)%Z -> in_signed w z -> wraps w z = z.
Proof.
  intros Hw [Hl Hh].
  assert (2 ^ w = 2 * 2 ^ (w - 1))%Z as E.
  { rewrite <-(Z.pow_succ_r 2 (w - 1)) by lia. f_equal; lia. }
  unfold wraps. rewrite wrapu_mod by lia.
  destruct (decide (0 <= z)%Z).
  - rewrite Z.mod_small by lia. rewrite decide_True by lia. done.
  - rewrite <-(Z_mod_plus_full z 1), Z.mod_small by lia.
    rewrite decide_False by lia. lia.
Qed.

(** [zbits] proves an equation between bit vectors bit by bit. *)
Ltac zbits :=
  unfold wrapu in *;
  apply Z.bits_inj'; intros ?n ?Hn;
  repeat first
    [ rewrite Z.lxor_spec | rewrite Z.land_spec | rewrite Z.lor_spec
    | rewrite Z.bits_0 | rewrite Z.shiftl_spec by lia
    | rewrite Z.shiftr_spec by lia ];
  repeat match goal with |- context [Z.testbit ?a ?m] => destruct (Z.testbit a m) end;
  try done.

Lemma lxor_land_distr (a b m : Z) :
  Z.land (Z.lxor a b) m = Z.lxor (Z.land a m) (Z.land b m).
Proof. zbits. Qed.

Lemma wrapu_lxor (w a b : Z) : wrapu w (Z.lxor a b) = Z.lxor (wrapu w a) (wrapu w b).
Proof. apply lxor_land_distr. Qed.

Lemma lxor_range (w a b : Z) :
  (0 <= w)%Z -> in_unsigned w a -> in_unsigned w b -> in_unsigned w (Z.lxor a b).
Proof. intros Hw. rewrite !wrapu_iff, wrapu_lxor by done. congruence. Qed.

Lemma lxor_swap (a b c d : Z) :
  Z.lxor (Z.lxor a b) (Z.lxor c d) = Z.lxor (Z.lxor a c) (Z.lxor b d).
Proof. zbits. Qed.

Lemma lxor_cancel_l (a b c : Z) : Z.lxor a b = Z.lxor a c -> b = c.
Proof.
  intros H%(f_equal (Z.lxor a)). by rewrite <-!Z.lxor_assoc, Z.lxor_nilpotent, !Z.lxor_0_l in H.
Qed.

Lemma in_unsigned_testbit (w x n : Z) :
  in_unsigned w x -> (0 <= w <= n)%Z -> Z.testbit x n = false.
Proof.
  intros [Hx1 Hx2] Hn. destruct (decide (x = 0)%Z) as [->|]; [apply Z.bits_0|].
  apply Z.bits_above_log2; [lia|]. enough (Z.log2 x < w)%Z by lia.
  by apply Z.log2_lt_pow2; lia.
Qed.

Lemma wrapu_testbit (w z n : Z) :
  (0 <= w)%Z -> (0 <= n)%Z -> Z.testbit (wrapu w z) n = (n <? w)%Z && Z.testbit z n.
Proof.
  intros. unfold wrapu. by rewrite Z.land_spec, Z.testbit_ones_nonneg, andb_comm.
Qed.

(** High part and low part of a word. *)
Lemma split_low (w z : Z) :
  (0 <= w)%Z -> z = Z.lxor (Z.shiftl (Z.shiftr z w) w) (wrapu w z).
Proof.
  intros Hw. apply Z.bits_inj'. intros n Hn.
  rewrite Z.lxor_spec, wrapu_testbit by done. destruct (Z.ltb_spec n w).
  - by rewrite Z.shiftl_spec_low, xorb_false_l.
  - rewrite Z.shiftl_spec_high, Z.shiftr_spec by lia. rewrite xorb_false_r. f_equal. lia.
Qed.

Lemma wrapu_shiftl (w z k : Z) :
  (0 <= k <= w)%Z -> wrapu w (Z.shiftl z k) = Z.shiftl (wrapu (w - k) z) k.
Proof.
  intros Hk. apply Z.bits_inj'. intros n Hn.
  rewrite wrapu_testbit by lia. destruct (Z.ltb_spec n k).
  - rewrite !Z.shiftl_spec_low by done. by rewrite andb_false_r.
  - rewrite !Z.shiftl_spec by lia. rewrite wrapu_testbit by lia. f_equal.
    destruct (Z.ltb_spec n w), (Z.ltb_spec (n - k) (w - k)); lia || done.
Qed.

Lemma shiftr_range (w k z : Z) :
  (0 <= k <= w)%Z -> in_unsigned w z -> in_unsigned (w - k) (Z.shiftr z k).
Proof.
  intros Hk [Hl Hh]. rewrite Z.shiftr_div_pow2 by lia. split.
  - apply Z.div_pos; lia.
  - apply Z.div_lt_upper_bound; [lia|]. rewrite <-Z.pow_add_r by lia.
    by replace (k + (w - k))%Z with w by lia.
Qed.

(** Packing a low field of [k] bits under a high field. *)
Lemma lor_shiftl_add (a b k : Z) :
  (0 <= k)%Z -> in_unsigned k b -> Z.lor (Z.shiftl a k) b = (a * 2 ^ k + b)%Z.
Proof.
  intros Hk Hb. assert (Z.land (Z.shiftl a k) b = 0)%Z as Hd.
  { apply Z.bits_inj'. intros n Hn. rewrite Z.land_spec, Z.bits_0. destruct (Z.ltb_spec n k).
    - by rewrite Z.shiftl_spec_low.
    - by rewrite (in_unsigned_testbit k b n Hb), andb_false_r by lia. }
  rewrite <-Z.lxor_lor by done. rewrite <-Z.add_nocarry_lxor by done.
  by rewrite Z.shiftl_mul_pow2.
Qed.

(** ** Third-party search primitive

    [memchr::memchr] is a library call: it is a parameter of every definition
    that uses it, with its documented contract as the law class.  The instance
    [memchr_find] shows the contract is satisfiable and lets the definitions
    run. *)
Class Memchr := memchr : byte -> bytes -> option nat.

Class MemchrLaws `{M : Memchr} : Prop := {
  memchr_found (c : byte) (l : bytes) (i : nat) :
    memchr c l = Some i -> l !! i = Some c /\ forall j, j < i -> l !! j <> Some c;
  memchr_absent (c : byte) (l : bytes) : memchr c l = None -> c ∉ l
}.

Definition memchr_find : Memchr := fun c l => fst <$> list_find (fun x => x = c) l.

Lemma memchr_find_laws : @MemchrLaws memchr_find.
Proof.
  split; unfold memchr, memchr_find.
  - intros c l i ([i' y] & (H & -> & Hlt)%list_find_Some & ->)%fmap_Some.
    split; [done|]. intros j Hj Hc. naive_solver.
  - intros c l H%fmap_None%list_find_None. rewrite Forall_forall in H. naive_solver.
Qed.

(** Any lawful [memchr] is the first-index search. *)
Lemma memchr_unique `{MemchrLaws} (c : byte) (l : bytes) :
  memchr c l = @memchr memchr_find c l.
Proof.
  pose proof memchr_find_laws as L.
  destruct (memchr c l) as [i|] eqn:E1, (@memchr memchr_find c l) as [j|] eqn:E2; [|exfalso..|done].
  - apply memchr_found in E1 as [H1 H1']. apply (@memchr_found _ L) in E2 as [H2 H2'].
    destruct (decide (i < j)); [naive_solver|]. destruct (decide (j < i)); [naive_solver|].
    f_equal; lia.
  - apply memchr_found in E1 as [H1 _]. apply (@memchr_absent _ L) in E2.
    by eapply E2, list_elem_of_lookup_2.
  - apply (@memchr_found _ L) in E2 as [H2 _]. apply memchr_absent in E1.
    by eapply E1, list_elem_of_lookup_2.
Qed.

Section memchr_facts.
#[local] Set Default Proof Using "Type*".
Context `{MemchrLaws}.

Lemma memchr_app (c : byte) (l k : bytes) : c ∉ l -> memchr c (l ++ c :: k) = Some (length l).
Proof.
  intros Hc. destruct (memchr c (l ++ c :: k)) as [i|] eqn:E.
  - apply memchr_found in E as [H1 H2]. f_equal. destruct (lt_eq_lt_dec i (length l)) as [[Hi|Hi]|Hi].
    + rewrite lookup_app_l in H1 by done. by apply list_elem_of_lookup_2 in H1.
    + done.
    + destruct (H2 _ Hi). by apply list_lookup_middle.
  - apply memchr_absent in E. set_solver.
Qed.

Lemma memchr_split (c : byte) (l : bytes) (i : nat) :
  memchr c l = Some i -> l = take i l ++ c :: drop (S i) l /\ c ∉ take i l /\ length (take i l) = i.
Proof.
  intros [H1 H2]%memchr_found. split_and!.
  - by rewrite take_drop_middle.
  - intros [j Hj]%list_elem_of_lookup. apply lookup_take_Some in Hj as [Hj ?]. by eapply H2.
  - apply length_take_le. apply lookup_lt_Some in H1. lia.
Qed.

Lemma memchr_none (c : byte) (l : bytes) : c ∉ l -> memchr c l = None.
Proof.
  intros Hc. destruct (memchr c l) as [i|] eqn:E; [|done].
  apply memchr_found in E as [E _]. exfalso. by eapply Hc, list_elem_of_lookup_2.
Qed.

(** More input does not change where the first occurrence is. *)
Lemma memchr_app_found (c : byte) (l k : bytes) (i : nat) :
  memchr c l = Some i -> memchr c (l ++ k) = Some i.
Proof.
  intros (E & Hi & Hl)%memchr_split. rewrite E, <-app_assoc. simpl.
  by rewrite memchr_app, Hl.
Qed.

Lemma memchr_app_absent (c : byte) (l k : bytes) :
  memchr c l = None -> memchr c (l ++ k) = (fun i => length l + i) <$> memchr c k.
Proof.
  intros Hl%memchr_absent. destruct (memchr c k) as [i|] eqn:E; simpl.
  - apply memchr_split in E as (E & Hi & Hn). rewrite E, app_assoc, memchr_app by set_solver.
    by rewrite length_app, Hn.
  - apply memchr_absent in E. apply memchr_none. set_solver.
Qed.
End memchr_facts.

(** ** Slices and literals *)

(** [buf.get(a..b)]: [None] when the range is out of bounds or reversed. *)
Definition slice (a b : nat) (l : bytes) : option bytes :=
  if decide (a <= b <= length l) then Some (take (b - a) (drop a l)) else None.

(** [buf.get(a..)] *)
Definition slice_from (a : nat) (l : bytes) : option bytes :=
  if decide (a <= length l) then Some (drop a l) else None.

(** ** Lists *)

Lemma Forall_seq_lookup (P : nat -> Prop) (n i : nat) :
  Forall P (seq 0 n) -> i < n -> P i.
Proof. rewrite Forall_seq. intros H Hi. apply H. lia. Qed.

Lemma take_add_app {A} (n m : nat) (l : list A) : take (n + m) l = take n l ++ take m (drop n l).
Proof. by rewrite <-(take_take_drop l n m). Qed.

(** [by_bytes] proves a closed, decidable statement about every byte by running it. *)
Ltac by_bytes b := destruct b; vm_compute; reflexivity.

Lemma b2z_in_unsigned (b : byte) : in_unsigned 8 (b2z b).
Proof. apply b2z_range. Qed.
#[export] Hint Resolve b2z_in_unsigned : core.

Lemma slice_app (a b : nat) (l k x : bytes) : slice a b l = Some x -> slice a b (l ++ k) = Some x.
Proof.
  unfold slice. repeat case_decide; try done; [|rewrite length_app in *; lia].
  rewrite drop_app_le by lia. rewrite take_app_le by (rewrite length_drop; lia). done.
Qed.

Lemma slice_Some (a b : nat) (l : bytes) : a <= b <= length l -> slice a b l = Some (take (b - a) (drop a l)).
Proof. intros. unfold slice. by rewrite decide_True. Qed.

Lemma slice_from_Some (a : nat) (l : bytes) : a <= length l -> slice_from a l = Some (drop a l).
Proof. intros. unfold slice_from. by rewrite decide_True. Qed.

Lemma lookup_app_Some_l {A} (l k : list A) (i : nat) (x : A) : l !! i = Some x -> (l ++ k) !! i = Some x.
Proof. intros H. rewrite lookup_app_l; [done|]. by eapply lookup_lt_Some. Qed.

Lemma mapM_app_Some {A B} (f : A -> option B) (l k : list A) (a b : list B) :
  mapM f l = Some a -> mapM f k = Some b -> mapM f (l ++ k) = Some (a ++ b).
Proof. rewrite !mapM_Some. apply Forall2_app. Qed.

(** ** Little-endian integers *)

(** [v.to_le_bytes()] of a [w]-byte integer, signed or not. *)
Fixpoint le_bytes (w : nat) (z : Z) : bytes :=
  match w with O => [] | S w => z2b z :: le_bytes w (Z.shiftr z 8) end.

(** [uN::from_le_bytes] *)
Fixpoint le_val (l : bytes) : Z :=
  match l with [] => 0%Z | b :: l => (b2z b + 256 * le_val l)%Z end.

(** [iN::from_le_bytes] *)
Definition le_signed (l : bytes) : Z := wraps (8 * Z.of_nat (length l)) (le_val l).

Lemma le_bytes_length (w : nat) (z : Z) : length (le_bytes w z) = w.
Proof. revert z. induction w as [|w IH]; intros z; simpl; [done|]. by rewrite IH. Qed.

Lemma le_val_range (l : bytes) : in_unsigned (8 * Z.of_nat (length l)) (le_val l).
Proof.
  unfold in_unsigned. induction l as [|b l IH]; simpl le_val; [done|].
  pose proof (b2z_range b). simpl length. rewrite Nat2Z.inj_succ.
  replace (8 * Z.succ (Z.of_nat (length l)))%Z with (8 + 8 * Z.of_nat (length l))%Z by lia.
  rewrite Z.pow_add_r by lia. lia.
Qed.

Lemma le_val_le_bytes (w : nat) (z : Z) : le_val (le_bytes w z) = wrapu (8 * Z.of_nat w) z.
Proof.
  revert z. induction w as [|w IH]; intros z; simpl.
  { unfold wrapu. by rewrite Z.land_0_r. }
  rewrite IH, b2z_z2b, !wrapu_mod, Z.shiftr_div_pow2 by lia. change (2 ^ 8)%Z with 256%Z.
  rewrite Nat2Z.inj_succ. replace (8 * Z.succ (Z.of_nat w))%Z with (8 + 8 * Z.of_nat w)%Z by lia.
  rewrite Z.pow_add_r by lia. change (2 ^ 8)%Z with 256%Z. rewrite Z.rem_mul_r by lia. lia.
Qed.

Lemma wraps_wrapu (w z : Z) : (0 <= w)%Z -> wraps w (wrapu w z) = wraps w z.
Proof.
  intros Hw. unfold wraps. rewrite (wrapu_small w (wrapu w z)); [done..|]. by apply wrapu_range.
Qed.

Lemma le_signed_le_bytes (w : nat) (z : Z) :
  0 < w -> in_signed (8 * Z.of_nat w) z -> le_signed (le_bytes w z) = z.
Proof.
  intros Hw Hz. unfold le_signed. rewrite le_bytes_length, le_val_le_bytes, wraps_wrapu by lia.
  apply wraps_small; [lia|done].
Qed.

Lemma le_unsigned_le_bytes (w : nat) (z : Z) :
  in_unsigned (8 * Z.of_nat w) z -> le_val (le_bytes w z) = z.
Proof. intros Hz. rewrite le_val_le_bytes. apply wrapu_small; [lia|done]. Qed.

Lemma le_bytes_le_val (l : bytes) : le_bytes (length l) (le_val l) = l.
Proof.
  induction l as [|b l IH]; simpl; [done|]. pose proof (b2z_range b).
  rewrite Z.shiftr_div_pow2 by lia. change (2 ^ 8)%Z with 256%Z.
  rewrite Z.mul_comm, Z.div_add, Z.div_small, Z.add_0_l, IH by lia. f_equal.
  unfold z2b. rewrite Z.mod_add by lia. apply z2b_b2z.
Qed.

Lemma le_bytes_wrapu (w : nat) (z : Z) : le_bytes w (wrapu (8 * Z.of_nat w) z) = le_bytes w z.
Proof. rewrite <-le_val_le_bytes. rewrite <-(le_bytes_length w z) at 1. apply le_bytes_le_val. Qed.

Lemma le_bytes_le_signed (l : bytes) : le_bytes (length l) (le_signed l) = l.
Proof.
  destruct l as [|b l]; [done|]. set (s := b :: l). rewrite <-(le_bytes_wrapu _ (le_signed s)).
  assert (wrapu (8 * Z.of_nat (length s)) (le_signed s) = le_val s) as ->; [|apply le_bytes_le_val].
  pose proof (le_val_range s) as Hr. unfold le_signed, wraps.
  rewrite (wrapu_small _ (le_val s)) by (lia || done). case_decide; [apply wrapu_small; [lia|done]|].
  rewrite wrapu_mod by lia. rewrite <-(Z_mod_plus_full _ 1), Z.mul_1_l, Z.sub_add. by apply Z.mod_small.
Qed.

Lemma le_signed_range (l : bytes) : l <> [] -> in_signed (8 * Z.of_nat (length l)) (le_signed l).
Proof. intros. apply wraps_range. destruct l; [done|simpl; lia]. Qed.

(** ** Runs of equal-width blocks *)

Abbreviation blocks_of w := (Forall (fun b : bytes => length b = w)).

Lemma drop_blocks (w i : nat) (bl : list bytes) :
  blocks_of w bl -> drop (i * w) (concat bl) = concat (drop i bl).
Proof.
  intros Hw. revert i. induction Hw as [|b l Hb _ IH]; intros i; [by simpl; rewrite !drop_nil|].
  destruct i as [|i]; [done|]. simpl. rewrite <-(IH i), <-Hb, <-drop_drop, drop_app_length. done.
Qed.

Lemma take_blocks (w i : nat) (bl : list bytes) :
  blocks_of w bl -> take (i * w) (concat bl) = concat (take i bl).
Proof.
  intros Hw. revert i. induction Hw as [|b l Hb _ IH]; intros i; [by simpl; rewrite !take_nil|].
  destruct i as [|i]; [done|]. simpl. rewrite <-(IH i). rewrite <-Hb.
  rewrite take_add_app, take_app_length, drop_app_length. done.
Qed.

Lemma length_blocks (w : nat) (bl : list bytes) : blocks_of w bl -> length (concat bl) = length bl * w.
Proof. induction 1 as [|b l Hb _ IH]; simpl; [done|]. rewrite length_app, Hb, IH. lia. Qed.

Lemma slice_block (w i : nat) (bl : list bytes) (pre post b : bytes) :
  blocks_of w bl -> bl !! i = Some b ->
  slice (length pre + i * w) (length pre + i * w + w) (pre ++ concat bl ++ post) = Some b.
Proof.
  intros Hw Hi. pose proof (lookup_lt_Some _ _ _ Hi) as Hlt. pose proof (length_blocks w bl Hw) as Hl.
  pose proof (proj1 (Forall_lookup _ _) Hw i b Hi) as Hb.
  assert (i * w + w <= length bl * w) by nia.
  rewrite slice_Some by (rewrite !length_app; lia). f_equal.
  rewrite <-drop_drop, drop_app_length, drop_app_le, (drop_blocks w) by (done || lia).
  rewrite (drop_S bl b i) by done. simpl. rewrite Nat.add_sub_swap, Nat.sub_diag by lia.
  rewrite <-app_assoc. by apply take_app_length'.
Qed.

(** [copy_within(lo..hi, dst)]: [None] where it panics. *)
Definition copy_within (lo hi dst : nat) (l : bytes) : option bytes :=
  if decide (lo <= hi /\ hi <= length l /\ dst + (hi - lo) <= length l) then
    Some (take dst l ++ take (hi - lo) (drop lo l) ++ drop (dst + (hi - lo)) l)
  else None.

Lemma copy_within_at (l a x c : bytes) (lo hi dst : nat) :
  l = a ++ x ++ c -> lo = length a -> hi = length a + length x -> dst + length x <= length l ->
  copy_within lo hi dst l = Some (take dst l ++ x ++ drop (dst + length x) l).
Proof.
  intros -> -> -> Hd. unfold copy_within. rewrite decide_True by (rewrite !length_app in *; lia).
  rewrite Nat.add_sub_swap, Nat.sub_diag by lia. cbn [Nat.add]. do 2 f_equal. f_equal.
  by rewrite drop_app_length, take_app_length.
Qed.

(** [buf.get_mut(at..)] followed by [copy_from_slice]: nothing happens out of range. *)
Definition patch (at_ : nat) (b l : bytes) : bytes :=
  if decide (at_ + length b <= length l) then take at_ l ++ b ++ drop (at_ + length b) l else l.

Lemma patch_app (a b x c : bytes) : length b = length x -> patch (length a) b (a ++ x ++ c) = a ++ b ++ c.
Proof.
  intros Hl. unfold patch. rewrite decide_True by (rewrite !length_app; lia).
  by rewrite take_app_length, Hl, <-drop_drop, !drop_app_length.
Qed.

Lemma patch_at (n : nat) (l a b x c : bytes) :
  l = a ++ x ++ c -> n = length a -> length b = length x -> patch n b l = a ++ b ++ c.
Proof. intros -> ->. apply patch_app. Qed.

Lemma elem_of_split_at {A} (n : nat) (l : list A) (x : A) : x ∈ l <-> x ∈ take n l \/ x ∈ drop n l.
Proof. by rewrite <-elem_of_app, take_drop. Qed.

Lemma slice_Some_inv (a b : nat) (l x : bytes) :
  slice a b l = Some x -> a <= b <= length l /\ x = take (b - a) (drop a l).
Proof. unfold slice. case_decide; naive_solver. Qed.
