(* ===== verification/Crc.v ===== *)
(** * CRC16 and CRC64 ([src/util/crc16.rs], [src/util/crc64.rs])

    The two table-driven checksums and the key-to-slot function.  Both tables
    are built by the source's [const fn]; the reference definitions are the
    bit-serial shift registers ([crc16_ref], [crc64_ref]). *)
From S2P Require Import Prelude.
Open Scope Z_scope.

(** ** CRC-16/XMODEM *)

Definition SLOT_COUNT : Z := 16384.

Definition crc16_shift (crc : Z) : Z :=
  if decide (Z.land crc 0x8000 <> 0) then Z.lxor (wrapu 16 (Z.shiftl crc 1)) 0x1021
  else wrapu 16 (Z.shiftl crc 1).

Definition crc16_entry (i : nat) : Z :=
  Nat.iter 8 crc16_shift (wrapu 16 (Z.shiftl (Z.of_nat i) 8)).

Definition crc16_build_table : list Z :=
  foldl (fun table i => <[i := crc16_entry i]> table) (replicate 256 0) (seq 0 256).

Definition CRC16_TABLE : list Z := Eval vm_compute in crc16_build_table.

Definition crc16_update (crc : Z) (b : byte) : Z :=
  let idx := Z.to_nat (Z.land (Z.lxor (Z.shiftr crc 8) (b2z b)) 0xff) in
  Z.lxor (wrapu 16 (Z.shiftl crc 8)) (CRC16_TABLE !!! idx).

Definition crc16 (buf : bytes) : Z := foldl crc16_update 0 buf.

(** ** CRC-64/JONES *)

Definition CRC64_POLY : Z := 0xad93d23594c935a9.

Definition reverse_u64 (v : Z) : Z :=
  fst (Nat.iter 64 (fun '(out, v) =>
    (Z.lor (wrapu 64 (Z.shiftl out 1)) (Z.land v 1), Z.shiftr v 1)) (0, v)).

Definition REFLECTED_POLY : Z := Eval vm_compute in reverse_u64 CRC64_POLY.

Definition crc64_shift (crc : Z) : Z :=
  if decide (Z.land crc 1 <> 0) then Z.lxor (Z.shiftr crc 1) REFLECTED_POLY
  else Z.shiftr crc 1.

Definition crc64_entry (i : nat) : Z := Nat.iter 8 crc64_shift (Z.of_nat i).

Definition crc64_build_table : list Z :=
  foldl (fun table i => <[i := crc64_entry i]> table) (replicate 256 0) (seq 0 256).

Definition CRC64_TABLE : list Z := Eval vm_compute in crc64_build_table.

Definition crc64_update (crc : Z) (b : byte) : Z :=
  let idx := Z.to_nat (Z.land (Z.lxor crc (b2z b)) 0xff) in
  Z.lxor (Z.shiftr crc 8) (CRC64_TABLE !!! idx).

Definition crc64 (crc : Z) (buf : bytes) : Z := foldl crc64_update crc buf.

Definition digest (buf : bytes) : Z := crc64 0 buf.

(** ** Hash slots *)

Section slots.
Context `{Memchr}.

Definition hash_whole (key : bytes) : Z := Z.land (crc16 key) (SLOT_COUNT - 1).

Definition key_hash_slot (key : bytes) : Z :=
  match memchr "{"%byte key with
  | None => hash_whole key
  | Some open =>
      match slice_from (open + 1) key with
      | None => hash_whole key
      | Some rest =>
          match memchr "}"%byte rest with
          | Some 0%nat | None => hash_whole key
          | Some rel =>
              let tag := default key (slice 0 rel rest) in
              Z.land (crc16 tag) (SLOT_COUNT - 1)
          end
      end
  end.
End slots.

(** ** Reference shift registers *)

(** The bits of a byte, most significant first. *)
Definition bits_msb (b : byte) : list bool :=
  (fun i => Z.testbit (b2z b) i) <$> [7; 6; 5; 4; 3; 2; 1; 0].

(** The bits of a byte, least significant first. *)
Definition bits_lsb (b : byte) : list bool :=
  (fun i => Z.testbit (b2z b) i) <$> [0; 1; 2; 3; 4; 5; 6; 7].

(** One clock of the 16-bit register: the incoming bit is added to the bit
    that leaves at the top; when the sum is 1 the polynomial is fed back. *)
Definition crc16_clock (r : Z) (bit : bool) : Z :=
  let s := wrapu 16 (Z.shiftl r 1) in
  if xorb (Z.testbit r 15) bit then Z.lxor s 0x1021 else s.

Definition crc16_ref (buf : bytes) : Z :=
  foldl crc16_clock 0 (buf ≫= bits_msb).

(** The reflected 64-bit register, shifting right. *)
Definition crc64_clock (r : Z) (bit : bool) : Z :=
  let s := Z.shiftr r 1 in
  if xorb (Z.testbit r 0) bit then Z.lxor s REFLECTED_POLY else s.

Definition crc64_ref (crc : Z) (buf : bytes) : Z :=
  foldl crc64_clock crc (buf ≫= bits_lsb).

(** ** Linear shift registers

    Both registers are linear over GF(2), which is why one table look-up can
    replace eight clocks. *)

Section register.
Context (clock : Z -> bool -> Z).
Context (clock_linear : forall a b x y,
  clock (Z.lxor a b) (xorb x y) = Z.lxor (clock a x) (clock b y)).

Lemma clocks_linear (a b : Z) (xs ys : list bool) :
  length xs = length ys ->
  foldl clock (Z.lxor a b) (zip_with xorb xs ys) = Z.lxor (foldl clock a xs) (foldl clock b ys).
Proof using clock_linear.
  revert a b ys. induction xs as [|x xs IH]; intros a b [|y ys] [=]; [done|].
  cbn. rewrite clock_linear. by apply IH.
Qed.

Lemma clocks_split (r : Z) (bits : list bool) :
  foldl clock r bits = Z.lxor (foldl clock r (replicate (length bits) false)) (foldl clock 0 bits).
Proof using clock_linear.
  rewrite <-clocks_linear by apply length_replicate.
  rewrite Z.lxor_0_r. f_equal. clear.
  induction bits as [|[] bits IH]; cbn; by f_equal.
Qed.

Lemma clocks_iter (r : Z) (n : nat) :
  foldl clock r (replicate n false) = Nat.iter n (fun r => clock r false) r.
Proof using Type.
  revert r. induction n as [|n IH]; intros r; [done|].
  cbn [replicate foldl]. by rewrite IH, Nat.iter_succ_r.
Qed.

Lemma iter_linear (n : nat) (a b : Z) :
  Nat.iter n (fun r => clock r false) (Z.lxor a b) =
  Z.lxor (Nat.iter n (fun r => clock r false) a) (Nat.iter n (fun r => clock r false) b).
Proof using clock_linear.
  induction n as [|n IH]; [done|].
  rewrite !Nat.iter_succ, IH. apply (clock_linear _ _ false false).
Qed.
End register.

Lemma land_bit_ne0 (a n : Z) : 0 <= n -> Z.land a (2 ^ n) <> 0 <-> Z.testbit a n = true.
Proof.
  intros Hn. split.
  - intros H. destruct (Z.testbit a n) eqn:E; [done|]. destruct H.
    apply Z.bits_inj'. intros m Hm. rewrite Z.land_spec, Z.bits_0, Z.pow2_bits_eqb by done.
    destruct (Z.eqb_spec n m); subst; by rewrite ?E, ?andb_false_r.
  - intros H Hz%(f_equal (fun x => Z.testbit x n)).
    by rewrite Z.land_spec, Z.pow2_bits_true, H, Z.bits_0 in Hz.
Qed.

Lemma crc16_shift_clock (r : Z) : crc16_shift r = crc16_clock r false.
Proof.
  unfold crc16_shift, crc16_clock. rewrite xorb_false_r.
  pose proof (land_bit_ne0 r 15 ltac:(lia)) as H. change (2 ^ 15) with 0x8000 in H.
  destruct (Z.testbit r 15), (decide (Z.land r _ <> 0)); naive_solver.
Qed.

Lemma crc64_shift_clock (r : Z) : crc64_shift r = crc64_clock r false.
Proof.
  unfold crc64_shift, crc64_clock. rewrite xorb_false_r.
  pose proof (land_bit_ne0 r 0 ltac:(lia)) as H. change (2 ^ 0) with 1 in H.
  destruct (Z.testbit r 0), (decide (Z.land r _ <> 0)); naive_solver.
Qed.

Lemma crc16_clock_linear a b x y :
  crc16_clock (Z.lxor a b) (xorb x y) = Z.lxor (crc16_clock a x) (crc16_clock b y).
Proof.
  unfold crc16_clock. rewrite Z.shiftl_lxor, wrapu_lxor, Z.lxor_spec.
  generalize (wrapu 16 (Z.shiftl a 1)), (wrapu 16 (Z.shiftl b 1)). intros s t.
  destruct (Z.testbit a 15), (Z.testbit b 15), x, y; cbn [xorb]; zbits.
Qed.

Lemma crc64_clock_linear a b x y :
  crc64_clock (Z.lxor a b) (xorb x y) = Z.lxor (crc64_clock a x) (crc64_clock b y).
Proof.
  unfold crc64_clock. rewrite Z.shiftr_lxor, Z.lxor_spec.
  generalize (Z.shiftr a 1), (Z.shiftr b 1). intros s t.
  destruct (Z.testbit a 0), (Z.testbit b 0), x, y; cbn [xorb]; zbits.
Qed.

(** *** Eight clocks as one table step *)

Definition crc16_clock8 (t : Z) : Z := Nat.iter 8 (fun r => crc16_clock r false) t.
Definition crc64_clock8 (t : Z) : Z := Nat.iter 8 (fun r => crc64_clock r false) t.

Lemma byte_of_small (z : Z) : 0 <= z < 256 -> exists b, z = b2z b.
Proof. intros. exists (z2b z). by rewrite b2z_z2b_small. Qed.

Lemma crc16_table_byte (b : byte) :
  crc16_clock8 (Z.shiftl (b2z b) 8) = CRC16_TABLE !!! Z.to_nat (b2z b).
Proof. by_bytes b. Qed.

Lemma crc16_low_byte (b : byte) : crc16_clock8 (b2z b) = Z.shiftl (b2z b) 8.
Proof. by_bytes b. Qed.

Lemma crc16_input_byte (b : byte) :
  foldl crc16_clock 0 (bits_msb b) = crc16_clock8 (Z.shiftl (b2z b) 8).
Proof. by_bytes b. Qed.

Lemma crc64_table_byte (b : byte) :
  crc64_clock8 (b2z b) = CRC64_TABLE !!! Z.to_nat (b2z b).
Proof. by_bytes b. Qed.

Lemma crc64_input_byte (b : byte) :
  foldl crc64_clock 0 (bits_lsb b) = crc64_clock8 (b2z b).
Proof. by_bytes b. Qed.

Lemma lxor_byte_range (z : Z) (b : byte) :
  in_unsigned 8 z -> exists b', Z.lxor z (b2z b) = b2z b' /\ Z.land (Z.lxor z (b2z b)) 0xff = b2z b'.
Proof.
  intros Hz. destruct (byte_of_small (Z.lxor z (b2z b))) as [b' E].
  { by apply (lxor_range 8); [lia|..]. }
  exists b'. split; [done|]. rewrite E. change 0xff with (Z.ones 8).
  by apply wrapu_small.
Qed.

Lemma crc16_update_clock8 (r : Z) (b : byte) :
  in_unsigned 16 r -> crc16_update r b = crc16_clock8 (Z.lxor r (Z.shiftl (b2z b) 8)).
Proof.
  intros Hr. unfold crc16_update.
  pose proof (shiftr_range 16 8 r ltac:(lia) Hr) as Hhi. change (16 - 8) with 8 in Hhi.
  destruct (lxor_byte_range _ b Hhi) as (b' & E & ->).
  rewrite <-crc16_table_byte, <-E.
  destruct (byte_of_small (wrapu 8 r)) as [lo Hlo]; [by apply wrapu_range|].
  rewrite wrapu_shiftl by lia. change (16 - 8) with 8. rewrite Hlo, <-crc16_low_byte.
  unfold crc16_clock8. rewrite <-iter_linear by apply crc16_clock_linear. f_equal.
  rewrite (split_low 8 r) at 2 by lia. rewrite Hlo, Z.shiftl_lxor. zbits.
Qed.

Lemma crc64_clock8_high (z : Z) : crc64_clock8 (Z.shiftl z 8) = z.
Proof.
  assert (forall k, 0 < k -> crc64_clock (Z.shiftl z k) false = Z.shiftl z (k - 1)) as H.
  { intros k Hk. unfold crc64_clock. rewrite Z.shiftl_spec_low by lia. cbn [xorb].
    by rewrite Z.shiftr_shiftl_l by lia. }
  unfold crc64_clock8. cbn [Nat.iter nat_rect].
  do 8 (rewrite H by lia). apply Z.shiftl_0_r.
Qed.

Lemma crc64_update_clock8 (r : Z) (b : byte) :
  crc64_update r b = crc64_clock8 (Z.lxor r (b2z b)).
Proof.
  unfold crc64_update. change 0xff with (Z.ones 8).
  change (Z.land (Z.lxor r (b2z b)) (Z.ones 8)) with (wrapu 8 (Z.lxor r (b2z b))).
  destruct (byte_of_small (wrapu 8 (Z.lxor r (b2z b)))) as [lo Hlo]; [by apply wrapu_range|].
  rewrite Hlo, <-crc64_table_byte.
  rewrite (split_low 8 (Z.lxor r (b2z b))) by lia. rewrite Hlo.
  unfold crc64_clock8. rewrite iter_linear by apply crc64_clock_linear.
  fold (crc64_clock8 (Z.shiftl (Z.shiftr (Z.lxor r (b2z b)) 8) 8)). rewrite crc64_clock8_high.
  f_equal. rewrite Z.shiftr_lxor.
  assert (Z.shiftr (b2z b) 8 = 0) as ->; [|by rewrite Z.lxor_0_r].
  apply Z.shiftr_eq_0; [apply b2z_range|]. by_bytes b.
Qed.

Lemma crc16_clock_range (r : Z) (bit : bool) : in_unsigned 16 (crc16_clock r bit).
Proof.
  unfold crc16_clock. destruct (xorb _ _); [apply lxor_range; [lia| |by split]|];
    by apply wrapu_range.
Qed.

Lemma crc16_update_range (r : Z) (b : byte) : in_unsigned 16 r -> in_unsigned 16 (crc16_update r b).
Proof. intros. rewrite crc16_update_clock8 by done. apply crc16_clock_range. Qed.

Lemma crc16_fold_ref (r : Z) (buf : bytes) :
  in_unsigned 16 r ->
  foldl crc16_update r buf = foldl crc16_clock r (buf ≫= bits_msb) /\
  in_unsigned 16 (foldl crc16_update r buf).
Proof.
  revert r. induction buf as [|b buf IH]; intros r Hr; [done|].
  cbn [foldl mbind list_bind]. rewrite foldl_app.
  rewrite (clocks_split _ crc16_clock_linear r (bits_msb b)), crc16_input_byte, clocks_iter.
  rewrite <-iter_linear by apply crc16_clock_linear.
  fold (crc16_clock8 (Z.lxor r (Z.shiftl (b2z b) 8))).
  rewrite <-crc16_update_clock8 by done. by apply IH, crc16_update_range.
Qed.

Lemma crc64_fold_ref (r : Z) (buf : bytes) :
  crc64 r buf = crc64_ref r buf.
Proof.
  unfold crc64, crc64_ref.
  revert r. induction buf as [|b buf IH]; intros r; [done|].
  cbn [foldl mbind list_bind]. rewrite foldl_app.
  rewrite (clocks_split _ crc64_clock_linear r (bits_lsb b)), crc64_input_byte, clocks_iter.
  rewrite <-iter_linear by apply crc64_clock_linear.
  fold (crc64_clock8 (Z.lxor r (b2z b))).
  rewrite <-crc64_update_clock8 by done. apply IH.
Qed.

(** ** The register after a burst *)

(** Value of a bit string, least significant bit first. *)
Fixpoint bits_val (bits : list bool) : Z :=
  match bits with [] => 0 | x :: xs => Z.lxor (Z.b2z x) (Z.shiftl (bits_val xs) 1) end.

Lemma bits_val_testbit (bits : list bool) (n : Z) :
  0 <= n -> Z.testbit (bits_val bits) n = default false (bits !! Z.to_nat n).
Proof.
  revert n. induction bits as [|x xs IH]; intros n Hn; cbn [bits_val].
  { by rewrite Z.bits_0. }
  rewrite Z.lxor_spec. destruct (decide (n = 0)) as [->|].
  - rewrite Z.shiftl_spec_low by lia. rewrite Z.b2z_bit0. by destruct x.
  - rewrite Z.shiftl_spec by lia. rewrite IH by lia.
    replace (Z.testbit (Z.b2z x) n) with false.
    { replace (Z.to_nat n) with (S (Z.to_nat (n - 1))) by lia. by rewrite xorb_false_l. }
    destruct x; [|by rewrite Z.bits_0]. symmetry. apply (in_unsigned_testbit 1); [by split|lia].
Qed.

Lemma bits_val_range (bits : list bool) (w : Z) :
  Z.of_nat (length bits) <= w -> in_unsigned w (bits_val bits).
Proof.
  intros Hw. apply wrapu_iff; [lia|]. apply Z.bits_inj'. intros n Hn.
  rewrite wrapu_testbit by lia. destruct (Z.ltb_spec n w); [done|].
  rewrite bits_val_testbit by done. by rewrite lookup_ge_None_2 by lia.
Qed.

Lemma bits_val_inj (xs ys : list bool) :
  length xs = length ys -> bits_val xs = bits_val ys -> xs = ys.
Proof.
  intros Hl H. apply list_eq_same_length with (length xs); [done|done|].
  intros i x y Hi Hx Hy. apply (f_equal (fun v => Z.testbit v (Z.of_nat i))) in H.
  rewrite !bits_val_testbit, !Nat2Z.id, Hx, Hy in H by lia. done.
Qed.

Lemma crc64_clocks_preload (r : Z) (bits : list bool) :
  foldl crc64_clock r bits =
  Nat.iter (length bits) (fun r => crc64_clock r false) (Z.lxor r (bits_val bits)).
Proof.
  revert r. induction bits as [|x xs IH]; intros r.
  { cbn. by rewrite Z.lxor_0_r. }
  cbn [foldl length bits_val]. rewrite IH, Nat.iter_succ_r. f_equal.
  rewrite <-Z.lxor_assoc, (crc64_clock_linear _ _ false false). f_equal.
  - rewrite <-(xorb_false_r x) at 1. rewrite <-(Z.lxor_0_r r) at 1.
    destruct x; cbn [Z.b2z]; [|by rewrite !Z.lxor_0_r].
    unfold crc64_clock. rewrite Z.lxor_0_r, Z.shiftr_lxor, Z.lxor_spec.
    cbn [xorb]. rewrite xorb_false_r. change (Z.testbit 1 0) with true.
    change (Z.shiftr 1 1) with 0. by rewrite Z.lxor_0_r.
  - unfold crc64_clock. rewrite Z.shiftl_spec_low by lia. cbn [xorb].
    rewrite Z.shiftr_shiftl_l by lia. by rewrite Z.shiftl_0_r.
Qed.

Lemma crc64_clock_range (r : Z) : in_unsigned 64 r -> in_unsigned 64 (crc64_clock r false).
Proof.
  intros Hr. pose proof (shiftr_range 64 1 r ltac:(lia) Hr) as [??].
  unfold crc64_clock. destruct (xorb _ _); [apply lxor_range; [lia| |by split]|]; split; lia.
Qed.

Lemma crc64_clock_inj (r s : Z) :
  in_unsigned 64 r -> in_unsigned 64 s -> crc64_clock r false = crc64_clock s false -> r = s.
Proof.
  intros Hr Hs H.
  assert (forall t, in_unsigned 64 t -> Z.testbit (crc64_clock t false) 63 = Z.testbit t 0) as Htop.
  { intros t Ht. unfold crc64_clock. rewrite xorb_false_r.
    pose proof (shiftr_range 64 1 t ltac:(lia) Ht) as Ht'.
    destruct (Z.testbit t 0); rewrite ?Z.lxor_spec, (in_unsigned_testbit 63 _ 63 Ht') by lia; done. }
  assert (Z.testbit r 0 = Z.testbit s 0) as Hb by (rewrite <-!Htop by done; by rewrite H).
  unfold crc64_clock in H. rewrite !xorb_false_r, Hb in H.
  assert (Z.shiftr r 1 = Z.shiftr s 1) as Hsh.
  { destruct (Z.testbit s 0); [|done].
    by rewrite !(Z.lxor_comm _ REFLECTED_POLY) in H; apply lxor_cancel_l in H. }
  apply Z.bits_inj'. intros n Hn. destruct (decide (n = 0)) as [->|]; [done|].
  apply (f_equal (fun v => Z.testbit v (n - 1))) in Hsh.
  rewrite !Z.shiftr_spec in Hsh by lia. by replace (n - 1 + 1) with n in Hsh by lia.
Qed.

Lemma crc64_iter_inj (n : nat) (r s : Z) :
  in_unsigned 64 r -> in_unsigned 64 s ->
  Nat.iter n (fun r => crc64_clock r false) r = Nat.iter n (fun r => crc64_clock r false) s -> r = s.
Proof.
  revert r s. induction n as [|n IH]; intros r s Hr Hs; [done|].
  rewrite !Nat.iter_succ_r. intros H%IH; [by apply crc64_clock_inj|by apply crc64_clock_range..].
Qed.

Lemma crc64_iter_range (n : nat) (r : Z) :
  in_unsigned 64 r -> in_unsigned 64 (Nat.iter n (fun r => crc64_clock r false) r).
Proof. intros. induction n; [done|]. rewrite Nat.iter_succ. by apply crc64_clock_range. Qed.

Lemma bits_lsb_inj (b c : byte) : bits_lsb b = bits_lsb c -> b = c.
Proof.
  assert (forall b, z2b (bits_val (bits_lsb b)) = b) as E by (intros x; by_bytes x).
  intros H. rewrite <-(E b), <-(E c). by rewrite H.
Qed.

Lemma bits_of_bytes_length (buf : bytes) : length (buf ≫= bits_lsb) = (8 * length buf)%nat.
Proof.
  induction buf as [|b buf IH]; [done|]. cbn [mbind list_bind length].
  rewrite length_app, IH. cbn. lia.
Qed.

Lemma bits_of_bytes_inj (u v : bytes) :
  length u = length v -> u ≫= bits_lsb = v ≫= bits_lsb -> u = v.
Proof.
  revert v. induction u as [|a u IH]; intros [|b v] [=]; [done|]. cbn [mbind list_bind].
  intros [Ha Hr]%app_inj_1; [|done]. f_equal; [by apply bits_lsb_inj|by apply IH].
Qed.

Lemma crc64_clocks_inj_state (r s : Z) (bits : list bool) :
  in_unsigned 64 r -> in_unsigned 64 s ->
  foldl crc64_clock r bits = foldl crc64_clock s bits -> r = s.
Proof.
  intros Hr Hs. rewrite (clocks_split _ crc64_clock_linear r), (clocks_split _ crc64_clock_linear s).
  rewrite !(Z.lxor_comm _ (foldl crc64_clock 0 bits)). intros H%lxor_cancel_l.
  rewrite !clocks_iter in H. by eapply crc64_iter_inj.
Qed.

Lemma crc64_clocks_range (r : Z) (bits : list bool) :
  in_unsigned 64 r -> in_unsigned 64 (foldl crc64_clock r bits).
Proof.
  revert r. induction bits as [|x xs IH]; intros r Hr; [done|]. apply IH.
  destruct Hr as [Hl Hh].
  pose proof (shiftr_range 64 1 r ltac:(lia) ltac:(by split)) as [??].
  unfold crc64_clock. destruct (xorb _ _); [apply lxor_range; [lia| |by split]|]; split; lia.
Qed.

Lemma crc64_range (crc : Z) (buf : bytes) : in_unsigned 64 crc -> in_unsigned 64 (crc64 crc buf).
Proof. rewrite crc64_fold_ref. apply crc64_clocks_range. Qed.

Lemma crc64_app (crc : Z) (a b : bytes) : crc64 crc (a ++ b) = crc64 (crc64 crc a) b.
Proof. apply foldl_app. Qed.

Lemma bits_val_le_val (w : bytes) : bits_val (w ≫= bits_lsb) = le_val w.
Proof.
  assert (forall b bits, bits_val (bits_lsb b ++ bits) = b2z b + 256 * bits_val bits) as Hb.
  { intros b bits. transitivity (Z.lxor (Z.shiftl (bits_val bits) 8) (b2z b)).
    - apply Z.bits_inj'. intros i Hi. pose proof (b2z_in_unsigned b) as Hr. rewrite Z.lxor_spec, Z.shiftl_spec, !bits_val_testbit by lia.
      destruct (decide (i < 8)) as [Hl|Hl].
      + rewrite lookup_app_l by (simpl; lia). rewrite (Z.testbit_neg_r _ (i - 8)) by lia. simpl xorb.
        assert (i = 0 \/ i = 1 \/ i = 2 \/ i = 3 \/ i = 4 \/ i = 5 \/ i = 6 \/ i = 7) as Hc by lia.
        destruct Hc as [->|[->|[->|[->|[->|[->|[->| ->]]]]]]]; by_bytes b.
      + rewrite lookup_app_r by (simpl; lia). rewrite (in_unsigned_testbit 8 (b2z b) i Hr) by lia. rewrite xorb_false_r.
        rewrite bits_val_testbit by lia. do 2 f_equal. simpl. lia.
    - rewrite Z.lxor_lor, lor_shiftl_add; [|done|apply b2z_in_unsigned|]; [change (2 ^ 8) with 256; lia|].
      apply Z.bits_inj'. intros i Hi. rewrite Z.land_spec, Z.bits_0. destruct (Z.ltb_spec i 8).
      + by rewrite Z.shiftl_spec_low.
      + by rewrite (in_unsigned_testbit 8 (b2z b) i (b2z_in_unsigned b)), andb_false_r by lia. }
  induction w as [|b w IH]; [done|]. cbn [mbind list_bind le_val]. by rewrite Hb, IH.
Qed.

(** Eight more bytes clear the register exactly when they spell it, so a
    buffer followed by its CRC64 is a code word. *)
Lemma crc64_residue (r : Z) (w : bytes) : in_unsigned 64 r -> length w = 8%nat -> crc64 r w = 0 <-> le_val w = r.
Proof.
  intros Hr Hw. pose proof (le_val_range w) as Hv. rewrite Hw in Hv. change (8 * Z.of_nat 8) with 64 in Hv.
  rewrite crc64_fold_ref. unfold crc64_ref. rewrite crc64_clocks_preload, bits_of_bytes_length, bits_val_le_val.
  assert (Nat.iter (8 * length w) (fun r => crc64_clock r false) 0 = 0) as H0 by (rewrite Hw; reflexivity). split.
  - intros Hi. rewrite <-H0 in Hi. apply crc64_iter_inj in Hi; [by apply Z.lxor_eq in Hi|by apply lxor_range|by split].
  - intros ->. by rewrite Z.lxor_nilpotent.
Qed.

(** ** Properties *)

(** The table-driven CRC16 computes the bit-serial CRC-16/XMODEM of every message. *)
Theorem crc16_bit_serial (buf : bytes) : crc16 buf = crc16_ref buf.
Proof. by apply crc16_fold_ref. Qed.

(** The table-driven CRC64 computes the bit-serial reflected CRC-64/JONES,
    from any running value. *)
Theorem crc64_bit_serial (crc : Z) (buf : bytes) : crc64 crc buf = crc64_ref crc buf.
Proof. apply crc64_fold_ref. Qed.

(** Two buffers that differ only inside one window of at most eight bytes
    never have the same running CRC64, whatever precedes and follows it. *)
Lemma crc64_burst (crc : Z) (pre u v post : bytes) :
  in_unsigned 64 crc -> length u = length v -> (length u <= 8)%nat -> u <> v ->
  crc64 crc (pre ++ u ++ post) <> crc64 crc (pre ++ v ++ post).
Proof.
  intros Hc Hl H8 Huv H. apply Huv. apply bits_of_bytes_inj; [done|].
  assert (forall w, length w = length u -> in_unsigned 64 (bits_val (w ≫= bits_lsb))) as Hval.
  { intros w Hw. apply bits_val_range. rewrite bits_of_bytes_length. lia. }
  pose proof (crc64_range crc pre Hc) as Hr. rewrite !crc64_app in H.
  revert H Hr. generalize (crc64 crc pre). intros r H Hr.
  rewrite !(crc64_fold_ref _ post) in H.
  apply crc64_clocks_inj_state in H; [|by apply crc64_range..].
  rewrite !crc64_fold_ref in H. unfold crc64_ref in H. rewrite !crc64_clocks_preload in H.
  rewrite !bits_of_bytes_length, Hl in H.
  apply crc64_iter_inj, lxor_cancel_l, bits_val_inj in H; [done|..].
  - by rewrite !bits_of_bytes_length, Hl.
  - apply lxor_range; [lia|done|by apply Hval].
  - apply lxor_range; [lia|done|by apply Hval].
Qed.


(** [tag] is the hash tag of [key]: the text between the first opening brace
    and the first closing brace after it, when that text is not empty. *)
Definition hash_tag (key tag : bytes) : Prop :=
  exists pre post, key = pre ++ "{"%byte :: tag ++ "}"%byte :: post /\
    "{"%byte ∉ pre /\ "}"%byte ∉ tag /\ tag <> [].

Section slot_facts.
Context `{MemchrLaws}.

Lemma land_slot_range (z : Z) : 0 <= Z.land z (SLOT_COUNT - 1) < SLOT_COUNT.
Proof.
  unfold SLOT_COUNT. change (16384 - 1) with (Z.ones 14). rewrite Z.land_ones by lia.
  apply Z.mod_pos_bound. lia.
Qed.

Lemma key_hash_slot_tagged (key tag : bytes) : hash_tag key tag -> key_hash_slot key = hash_whole tag.
Proof.
  intros (pre & post & -> & Hpre & Htag & Hne). unfold key_hash_slot.
  rewrite memchr_app by done. unfold slice_from.
  rewrite decide_True by (rewrite length_app; cbn; lia).
  rewrite drop_app_ge by lia. replace (length pre + 1 - length pre)%nat with 1%nat by lia.
  rewrite skipn_cons, drop_0, memchr_app by done.
  destruct tag as [|t0 tag']; [done|]. cbn [length].
  unfold slice. rewrite decide_True by (rewrite length_app; cbn; lia).
  rewrite drop_0, Nat.sub_0_r. cbn [default from_option].
  change (S (length tag')) with (length (t0 :: tag')).
  by rewrite take_app_length.
Qed.

Lemma key_hash_slot_untagged (key : bytes) :
  (forall tag, ~ hash_tag key tag) -> key_hash_slot key = hash_whole key.
Proof.
  intros Hno. unfold key_hash_slot.
  destruct (memchr "{"%byte key) as [i|] eqn:E; [|done].
  apply memchr_split in E as (E & Hi & Hl). unfold slice_from. case_decide; [|done].
  destruct (memchr "}"%byte (drop (i + 1) key)) as [[|r]|] eqn:E2; [done| |done].
  apply memchr_split in E2 as (E2 & Hr & Hlr).
  destruct (Hno (take (S r) (drop (i + 1) key))).
  exists (take i key), (drop (S (S r)) (drop (i + 1) key)). split_and!; [|done..|].
  - rewrite <-E2. rewrite E at 1. do 2 f_equal. f_equal. lia.
  - intros Hn. rewrite Hn in Hlr. done.
Qed.
End slot_facts.

(** A key is hashed by its hash tag when it has one and whole otherwise,
    and the slot is always one of the 16384. *)
Theorem key_hash_slot_spec `{MemchrLaws} (key : bytes) :
  (forall tag, hash_tag key tag -> key_hash_slot key = hash_whole tag) /\
  ((forall tag, ~ hash_tag key tag) -> key_hash_slot key = hash_whole key) /\
  0 <= key_hash_slot key < SLOT_COUNT.
Proof.
  split_and!; [apply key_hash_slot_tagged|apply key_hash_slot_untagged|..];
    unfold key_hash_slot, hash_whole; repeat case_match; apply land_slot_range.
Qed.

Lemma key_hash_slot_spec_witness :
  @key_hash_slot memchr_find ["u"; "{"; "a"; "}"; "x"]%byte = hash_whole ["a"]%byte /\
  @key_hash_slot memchr_find ["{"; "}"; "x"]%byte < SLOT_COUNT.
Proof.
  split.
  - apply (@key_hash_slot_spec memchr_find memchr_find_laws ["u"; "{"; "a"; "}"; "x"]%byte).
    exists ["u"%byte], ["x"%byte]. split_and!; [done|..|done]; apply not_elem_of_cons; split; [done|apply not_elem_of_nil|done|apply not_elem_of_nil].
  - apply (@key_hash_slot_spec memchr_find memchr_find_laws ["{"; "}"; "x"]%byte).
Defined.
