(* ===== verification/Strnum.v ===== *)
(** * Number parsing and formatting ([src/util/strnum.rs], [src/util/mod.rs])

    [string2ll] and [string2ull] accept exactly the canonical decimal
    spellings of the integers in range.  Integer formatting is the [itoa]
    crate's: a parameter with its contract. *)
From S2P Require Import Prelude.
Open Scope Z_scope.

(** ** Decimal text *)

Definition is_digit (c : byte) : bool := (48 <=? b2z c) && (b2z c <=? 57).

Definition digit_val (c : byte) : Z := b2z c - 48.

Definition digit_of (d : Z) : byte := z2b (48 + d).

(** Value of a digit string. *)
Definition dec_value (s : bytes) : Z := foldl (fun v c => v * 10 + digit_val c) 0 s.

Fixpoint dec_digits (fuel : nat) (n : Z) (acc : bytes) : bytes :=
  match fuel with
  | O => acc
  | S fuel =>
      let acc := digit_of (n mod 10) :: acc in
      if n <? 10 then acc else dec_digits fuel (n / 10) acc
  end.

(** The canonical decimal spelling: no leading zero, no plus sign. *)
Definition decimal (v : Z) : bytes :=
  let digits n := dec_digits (S (Z.to_nat (Z.log2 n))) n [] in
  if v <? 0 then "-"%byte :: digits (- v) else digits v.

(** The [itoa] crate: [Buffer::format] writes the canonical decimal spelling. *)
Class Itoa := itoa_format : Z -> bytes.
Class ItoaLaws `{I : Itoa} : Prop :=
  itoa_decimal : forall v, I64_MIN <= v <= U64_MAX -> itoa_format v = decimal v.

Definition itoa_model : Itoa := decimal.

Lemma itoa_model_laws : @ItoaLaws itoa_model.
Proof. by intros v _. Qed.

(** ** [string2ll], [string2ull], [ll2string] *)

Definition LL_STR_SIZE : nat := 21.

(** The digit loop: [v] is a [u64], both overflow guards are the source's. *)
Fixpoint string2ll_loop (v : Z) (s : bytes) : option Z :=
  match s with
  | [] => Some v
  | c :: s =>
      if is_digit c then
        if U64_MAX / 10 <? v then None
        else
          let v := wrapu 64 (v * 10) in
          let d := digit_val c in
          if U64_MAX - d <? v then None else string2ll_loop (wrapu 64 (v + d)) s
      else None
  end.

Definition is_digit_1_9 (c : byte) : bool := (49 <=? b2z c) && (b2z c <=? 57).

Definition string2ll (s : bytes) : option Z :=
  match s with
  | [] => None
  | _ =>
      if decide (length s = 1%nat /\ s !! 0%nat = Some "0"%byte) then Some 0
      else
        let negative := bool_decide (s !! 0%nat = Some "-"%byte) in
        let plen := if negative then 1%nat else 0%nat in
        if negative && bool_decide (plen = length s) then None
        else
          match s !! plen with
          | None => None
          | Some c =>
              if is_digit_1_9 c then
                v ← string2ll_loop (digit_val c) (drop (plen + 1) s);
                if negative then
                  if I64_MAX + 1 <? v then None else Some (wraps 64 (- wraps 64 v))
                else
                  if I64_MAX <? v then None else Some (wraps 64 v)
              else None
          end
  end.

(** [checked_mul(10)?.checked_add(d)?] on a [u64]. *)
Definition checked_u64 (z : Z) : option Z :=
  if decide (0 <= z <= U64_MAX) then Some z else None.

Fixpoint string2ull_loop (v : Z) (s : bytes) : option Z :=
  match s with
  | [] => Some v
  | c :: s =>
      if negb (is_digit c) then None
      else
        m ← checked_u64 (v * 10);
        v ← checked_u64 (m + digit_val c);
        string2ull_loop v s
  end.

Definition string2ull (s : bytes) : option Z :=
  match s with
  | [] => None
  | c :: rest =>
      if decide (length s = 1%nat /\ c = "0"%byte) then Some 0
      else if is_digit_1_9 c then string2ull_loop (digit_val c) rest
      else None
  end.

Section ll2string.
Context `{Itoa}.

(** The caller's buffer after the call, and the returned length. *)
Definition ll2string (buf : bytes) (v : Z) : bytes * nat :=
  let s := itoa_format v in
  let n := Nat.min (length s) (length buf) in
  (take n s ++ drop n buf, n).
End ll2string.

(** ** ASCII case folding *)

Definition to_ascii_lowercase (c : byte) : byte :=
  if (65 <=? b2z c) && (b2z c <=? 90) then z2b (b2z c + 32) else c.

Definition eq_ignore_ascii_case (a b : bytes) : bool :=
  bool_decide (length a = length b) &&
  forallb (fun '(x, y) => bool_decide (to_ascii_lowercase x = to_ascii_lowercase y)) (zip a b).

(** ** Digit strings *)

Abbreviation digits := (Forall (fun c => is_digit c = true)).

Definition dec_from (v : Z) (s : bytes) : Z := foldl (fun v c => v * 10 + digit_val c) v s.

Lemma is_digit_spec (c : byte) : is_digit c = true <-> 48 <= b2z c <= 57.
Proof. unfold is_digit. lia. Qed.

Lemma is_digit_1_9_spec (c : byte) : is_digit_1_9 c = true <-> is_digit c = true /\ c <> "0"%byte.
Proof.
  unfold is_digit_1_9, is_digit. split.
  - intros H. split; [lia|]. intros ->. done.
  - intros [H Hne]. assert (b2z c <> 48); [|lia].
    intros E. apply Hne, b2z_inj. by rewrite E.
Qed.

Lemma digit_val_range (c : byte) : is_digit c = true -> 0 <= digit_val c <= 9.
Proof. rewrite is_digit_spec. unfold digit_val. lia. Qed.

Lemma digit_of_spec (d : Z) :
  0 <= d <= 9 -> is_digit (digit_of d) = true /\ digit_val (digit_of d) = d.
Proof.
  intros. rewrite is_digit_spec. unfold digit_val, digit_of.
  rewrite b2z_z2b_small by lia. lia.
Qed.

Lemma digit_val_inj (c d : byte) : digit_val c = digit_val d -> c = d.
Proof. unfold digit_val. intros. apply b2z_inj. lia. Qed.

Lemma dec_from_app (v : Z) (s t : bytes) : dec_from v (s ++ t) = dec_from (dec_from v s) t.
Proof. apply foldl_app. Qed.

Lemma dec_from_ge (v : Z) (s : bytes) : 0 <= v -> digits s -> v <= dec_from v s.
Proof.
  revert v. induction s as [|c s IH]; intros v Hv Hs; [done|]. inv Hs.
  pose proof (digit_val_range c ltac:(done)).
  specialize (IH (v * 10 + digit_val c) ltac:(lia) ltac:(done)).
  change (dec_from v (c :: s)) with (dec_from (v * 10 + digit_val c) s). lia.
Qed.

(** A spelling of a positive number: digits, the first one not zero. *)
Definition pos_digits (s : bytes) : Prop :=
  exists c t, s = c :: t /\ c <> "0"%byte /\ digits s.

Lemma pos_digits_value (s : bytes) : pos_digits s -> 0 < dec_value s.
Proof.
  intros (c & t & -> & Hc & Hd). inv Hd. change (0 < dec_from (digit_val c) t).
  pose proof (digit_val_range c ltac:(done)).
  assert (digit_val c <> 0). { intros E. apply Hc, digit_val_inj. by rewrite E. }
  pose proof (dec_from_ge (digit_val c) t ltac:(lia) ltac:(done)). lia.
Qed.

Lemma pos_digits_prefix (s : bytes) (c : byte) :
  pos_digits (s ++ [c]) -> (s = [] \/ pos_digits s) /\ is_digit c = true.
Proof.
  intros (x & t & E & Hx & Hd). apply Forall_app in Hd as [Hs Hc]. inv Hc. split; [|done].
  destruct s as [|y s]; [by left|right]. injection E as <- <-. by exists y, s.
Qed.

Lemma pos_digits_unique (s t : bytes) :
  s = [] \/ pos_digits s -> t = [] \/ pos_digits t -> dec_value s = dec_value t -> s = t.
Proof.
  revert t. induction s as [|c s IH] using rev_ind; intros t Hs Ht E.
  - destruct Ht as [->|Ht]; [done|]. apply pos_digits_value in Ht. unfold dec_value in *. cbn in E. lia.
  - assert (pos_digits (s ++ [c])) as Hp by (destruct Hs; [by destruct s|done]).
    destruct t as [|d t _] using rev_ind.
    { apply pos_digits_value in Hp. rewrite E in Hp. by unfold dec_value in Hp. }
    assert (pos_digits (t ++ [d])) as Hp' by (destruct Ht; [by destruct t|done]).
    apply pos_digits_prefix in Hp as [Hs' Hc]. apply pos_digits_prefix in Hp' as [Ht' Hd].
    change (dec_from 0 (s ++ [c]) = dec_from 0 (t ++ [d])) in E.
    rewrite !dec_from_app in E. cbn in E.
    pose proof (digit_val_range _ Hc). pose proof (digit_val_range _ Hd).
    assert (c = d) as -> by (apply digit_val_inj; lia).
    f_equal. apply IH; [done..|]. change (dec_from 0 s = dec_from 0 t). lia.
Qed.

Lemma dec_digits_spec (fuel : nat) (n : Z) (acc : bytes) :
  0 <= n < 10 ^ Z.of_nat fuel -> fuel <> 0%nat ->
  exists ds, dec_digits fuel n acc = ds ++ acc /\ digits ds /\ dec_value ds = n /\
    (n = 0 -> ds = ["0"%byte]) /\ (0 < n -> pos_digits ds).
Proof.
  revert n acc. induction fuel as [|fuel IH]; intros n acc Hn Hf; [done|].
  pose proof (digit_of_spec (n mod 10)) as Hdig.
  pose proof (Z.mod_pos_bound n 10 ltac:(lia)) as Hm.
  destruct Hdig as [Hd1 Hd2]; [lia|].
  cbn [dec_digits]. destruct (Z.ltb_spec n 10).
  - assert (n mod 10 = n) as Hmod by (apply Z.mod_small; lia). rewrite Hmod in *.
    exists [digit_of n]. split_and!; [done|by constructor|unfold dec_value; cbn; lia|by intros ->|].
    intros Hpos. exists (digit_of n), []. split_and!; [done| |by constructor].
    intros E. rewrite E in Hd2. unfold digit_val in Hd2. cbn in Hd2. lia.
  - rewrite Nat2Z.inj_succ, Z.pow_succ_r in Hn by lia.
    pose proof (Z.div_mod n 10 ltac:(lia)) as Hdm.
    destruct (IH (n / 10) (digit_of (n mod 10) :: acc)) as (ds & E & Hds & Hv & _ & Hp).
    { split; [apply Z.div_pos; lia|]. apply Z.div_lt_upper_bound; lia. }
    { intros ->. cbn in Hn. lia. }
    assert (0 < n / 10) as Hq by (apply Z.div_str_pos; lia).
    exists (ds ++ [digit_of (n mod 10)]). split_and!.
    + by rewrite E, <-app_assoc.
    + apply Forall_app. by repeat constructor.
    + change (dec_from 0 (ds ++ [digit_of (n mod 10)]) = n). rewrite dec_from_app.
      change (dec_from 0 ds) with (dec_value ds). rewrite Hv. cbn. lia.
    + lia.
    + intros _. destruct (Hp Hq) as (c & t & -> & Hc & Hall).
      exists c, (t ++ [digit_of (n mod 10)]). split_and!; [done..|].
      change (digits ((c :: t) ++ [digit_of (n mod 10)])). apply Forall_app. split; [done|by repeat constructor].
Qed.

Lemma log2_fuel (n : Z) : 0 <= n -> n < 10 ^ Z.of_nat (S (Z.to_nat (Z.log2 n))).
Proof.
  intros Hn. rewrite Nat2Z.inj_succ, Z2Nat.id by apply Z.log2_nonneg.
  destruct (decide (n = 0)) as [->|]; [done|].
  pose proof (Z.log2_spec n ltac:(lia)). pose proof (Z.log2_nonneg n).
  apply Z.lt_le_trans with (2 ^ Z.succ (Z.log2 n)); [lia|].
  apply Z.pow_le_mono_l. lia.
Qed.

Lemma decimal_nonneg (v : Z) :
  0 <= v -> digits (decimal v) /\ dec_value (decimal v) = v /\
    (v = 0 -> decimal v = ["0"%byte]) /\ (0 < v -> pos_digits (decimal v)).
Proof.
  intros Hv. unfold decimal. destruct (Z.ltb_spec v 0); [lia|].
  destruct (dec_digits_spec (S (Z.to_nat (Z.log2 v))) v []) as (ds & -> & Hds);
    [by split; [|apply log2_fuel]|done|].
  by rewrite app_nil_r.
Qed.

Lemma decimal_neg (v : Z) : v < 0 -> decimal v = "-"%byte :: decimal (- v).
Proof.
  intros Hv. unfold decimal. destruct (Z.ltb_spec v 0); [|lia].
  by destruct (Z.ltb_spec (- v) 0); [lia|].
Qed.

Lemma pos_digits_decimal (s : bytes) : pos_digits s -> decimal (dec_value s) = s.
Proof.
  intros Hs. pose proof (pos_digits_value s Hs).
  destruct (decimal_nonneg (dec_value s)) as (_ & Hv & _ & Hp); [lia|].
  apply pos_digits_unique; auto.
Qed.

(** ** The digit loops *)

Lemma string2ll_loop_spec (v : Z) (s : bytes) :
  0 <= v <= U64_MAX ->
  string2ll_loop v s =
    if decide (digits s /\ dec_from v s <= U64_MAX) then Some (dec_from v s) else None.
Proof.
  revert v. induction s as [|c s IH]; intros v Hv; cbn [string2ll_loop].
  { by rewrite decide_True by (split; [done|cbn; lia]). }
  destruct (is_digit c) eqn:Ec; [|by rewrite decide_False by (intros [Hd _]; inv Hd; congruence)].
  pose proof (digit_val_range c Ec) as Hd.
  assert (forall w, digits (c :: s) /\ w = dec_from v (c :: s) -> v * 10 + digit_val c <= w) as Hge.
  { intros w [Hds ->]. inv Hds. apply (dec_from_ge (v * 10 + digit_val c)); [lia|done]. }
  change (dec_from v (c :: s)) with (dec_from (v * 10 + digit_val c) s) in *.
  unfold U64_MAX in *. change (18446744073709551615 / 10) with 1844674407370955161.
  destruct (Z.ltb_spec 1844674407370955161 v).
  { rewrite decide_False; [done|]. intros [Hds Hle]. specialize (Hge _ (conj Hds eq_refl)). lia. }
  rewrite (wrapu_small 64 (v * 10)) by (unfold in_unsigned; lia).
  destruct (Z.ltb_spec (18446744073709551615 - digit_val c) (v * 10)).
  { rewrite decide_False; [done|]. intros [Hds Hle]. specialize (Hge _ (conj Hds eq_refl)). lia. }
  rewrite wrapu_small by (unfold in_unsigned; lia). rewrite IH by lia.
  apply decide_ext. rewrite Forall_cons. naive_solver.
Qed.

Lemma string2ull_loop_spec (v : Z) (s : bytes) :
  0 <= v <= U64_MAX ->
  string2ull_loop v s =
    if decide (digits s /\ dec_from v s <= U64_MAX) then Some (dec_from v s) else None.
Proof.
  revert v. induction s as [|c s IH]; intros v Hv; cbn [string2ull_loop].
  { by rewrite decide_True by (split; [done|cbn; lia]). }
  destruct (is_digit c) eqn:Ec; cbn [negb];
    [|by rewrite decide_False by (intros [Hd _]; inv Hd; congruence)].
  pose proof (digit_val_range c Ec) as Hd.
  assert (forall w, digits (c :: s) /\ w = dec_from v (c :: s) -> v * 10 + digit_val c <= w) as Hge.
  { intros w [Hds ->]. inv Hds. apply (dec_from_ge (v * 10 + digit_val c)); [lia|done]. }
  change (dec_from v (c :: s)) with (dec_from (v * 10 + digit_val c) s) in *.
  unfold checked_u64. case_decide; cbn [mbind option_bind].
  2:{ rewrite decide_False; [done|]. intros [Hds Hle]. specialize (Hge _ (conj Hds eq_refl)). lia. }
  case_decide; cbn [mbind option_bind].
  2:{ rewrite decide_False; [done|]. intros [Hds Hle]. specialize (Hge _ (conj Hds eq_refl)). lia. }
  rewrite IH by lia. apply decide_ext. rewrite Forall_cons. naive_solver.
Qed.

Lemma string2ull_pos (c : byte) (t : bytes) (w : Z) :
  is_digit_1_9 c = true ->
  string2ll_loop (digit_val c) t = Some w <->
  pos_digits (c :: t) /\ dec_value (c :: t) = w /\ w <= U64_MAX.
Proof.
  intros [Hc Hc0]%is_digit_1_9_spec. pose proof (digit_val_range c Hc).
  rewrite string2ll_loop_spec by (unfold U64_MAX; lia).
  change (dec_value (c :: t)) with (dec_from (digit_val c) t). split.
  - case_decide as Hd; [|done]. intros [= <-]. destruct Hd as [Hd ?].
    split_and!; [|done..]. exists c, t. split_and!; [done..|]. by constructor.
  - intros ((c' & t' & [= <- <-] & _ & Hd) & <- & ?). inv Hd. by rewrite decide_True.
Qed.

Lemma wraps_neg_u64 (v : Z) : 0 <= v <= I64_MAX + 1 -> wraps 64 (- wraps 64 v) = - v.
Proof.
  unfold I64_MAX. intros Hv. destruct (decide (v = 9223372036854775808)) as [->|]; [done|].
  rewrite !wraps_small; unfold in_signed; try rewrite wraps_small; unfold in_signed; lia.
Qed.

Lemma decimal_head_digit (v : Z) : 0 <= v -> exists c t, decimal v = c :: t /\ is_digit c = true.
Proof.
  intros Hv. destruct (decimal_nonneg v Hv) as (Hd & _ & H0 & Hp).
  destruct (decide (v = 0)) as [E|]; [rewrite (H0 E); eauto|].
  destruct Hp as (c & t & E & _ & Hd'); [lia|]. rewrite E in *. inv Hd'. eauto.
Qed.

Lemma string2ll_neg_eq (t : bytes) :
  string2ll ("-"%byte :: t) =
    match t with
    | [] => None
    | c :: t =>
        if is_digit_1_9 c then
          w ← string2ll_loop (digit_val c) t;
          if I64_MAX + 1 <? w then None else Some (wraps 64 (- wraps 64 w))
        else None
    end.
Proof. destruct t; [done|]. unfold string2ll. by rewrite decide_False by naive_solver. Qed.

Lemma string2ll_pos_eq (c : byte) (t : bytes) :
  c <> "-"%byte -> c :: t <> ["0"%byte] ->
  string2ll (c :: t) =
    if is_digit_1_9 c then
      w ← string2ll_loop (digit_val c) t;
      if I64_MAX <? w then None else Some (wraps 64 w)
    else None.
Proof.
  intros Hc H0. unfold string2ll. rewrite decide_False.
  2:{ cbn. intros [Hl [= ->]]. destruct t; [|done]. by apply H0. }
  cbn [lookup list_lookup]. by rewrite bool_decide_false by congruence.
Qed.

Lemma string2ll_sound (s : bytes) (v : Z) :
  string2ll s = Some v -> I64_MIN <= v <= I64_MAX /\ s = decimal v.
Proof.
  unfold I64_MIN. destruct s as [|c t]; [done|].
  destruct (decide (c = "-"%byte)) as [->|Hc].
  - rewrite string2ll_neg_eq. destruct t as [|c t]; [done|].
    destruct (is_digit_1_9 c) eqn:Ec; [|done]. intros (w & Hw & Hv)%bind_Some.
    apply string2ull_pos in Hw as (Hp & Hval & _); [|done].
    pose proof (pos_digits_value _ Hp). destruct (Z.ltb_spec (I64_MAX + 1) w); [done|].
    injection Hv as <-. rewrite wraps_neg_u64 by lia. unfold I64_MAX in *. split; [lia|].
    rewrite decimal_neg by lia. by rewrite Z.opp_involutive, <-Hval, pos_digits_decimal.
  - destruct (decide (c :: t = ["0"%byte])) as [->|H0]; [by intros [= <-]|].
    rewrite string2ll_pos_eq by done.
    destruct (is_digit_1_9 c) eqn:Ec; [|done]. intros (w & Hw & Hv)%bind_Some.
    apply string2ull_pos in Hw as (Hp & Hval & _); [|done].
    pose proof (pos_digits_value _ Hp). destruct (Z.ltb_spec I64_MAX w); [done|].
    injection Hv as <-. unfold I64_MAX in *. rewrite wraps_small by (unfold in_signed; lia).
    split; [lia|]. by rewrite <-Hval, pos_digits_decimal.
Qed.

Lemma string2ll_complete (v : Z) :
  I64_MIN <= v <= I64_MAX -> string2ll (decimal v) = Some v.
Proof.
  unfold I64_MIN. intros Hv.
  assert (forall w, 0 < w <= I64_MAX + 1 -> exists c t, decimal w = c :: t /\ is_digit_1_9 c = true /\
    string2ll_loop (digit_val c) t = Some w) as Hpos.
  { intros w Hw. destruct (decimal_nonneg w) as (_ & Hval & _ & Hp); [lia|].
    destruct (Hp ltac:(lia)) as (c & t & E & Hc & Hd). exists c, t.
    assert (is_digit_1_9 c = true) as Hc' by (rewrite E in Hd; inv Hd; by apply is_digit_1_9_spec).
    split_and!; [done..|]. apply string2ull_pos; [done|]. rewrite <-E.
    unfold I64_MAX, U64_MAX in *. split_and!; [apply Hp; lia|done|lia]. }
  destruct (decide (v < 0)) as [Hn|Hn]; [|destruct (decide (v = 0)) as [->|]; [done|]].
  - rewrite decimal_neg, string2ll_neg_eq by done.
    destruct (Hpos (- v)) as (c & t & -> & -> & ->); [unfold I64_MAX; lia|]. cbn [mbind option_bind].
    unfold I64_MAX in *. destruct (Z.ltb_spec (9223372036854775807 + 1) (- v)); [lia|].
    by rewrite wraps_neg_u64, Z.opp_involutive by (unfold I64_MAX; lia).
  - destruct (Hpos v) as (c & t & -> & Hc & Hl); [unfold I64_MAX in *; lia|].
    rewrite string2ll_pos_eq; [|by (intros ->; vm_compute in Hc)|by (intros [= -> ->]; vm_compute in Hc)].
    rewrite Hc, Hl. cbn [mbind option_bind]. destruct (Z.ltb_spec I64_MAX v); [lia|].
    unfold I64_MAX in *. by rewrite wraps_small by (unfold in_signed; lia).
Qed.

Lemma string2ull_eq (c : byte) (t : bytes) :
  c :: t <> ["0"%byte] ->
  string2ull (c :: t) = if is_digit_1_9 c then string2ll_loop (digit_val c) t else None.
Proof.
  intros H0. unfold string2ull. rewrite decide_False.
  2:{ intros [Hl ->]. destruct t; [|done]. by apply H0. }
  destruct (is_digit_1_9 c) eqn:Ec; [|done].
  apply is_digit_1_9_spec in Ec as [Hd _]. apply digit_val_range in Hd.
  by rewrite string2ull_loop_spec, string2ll_loop_spec by (unfold U64_MAX; lia).
Qed.

Lemma dec_from_lower (v : Z) (s : bytes) :
  0 <= v -> digits s -> v * 10 ^ blen s <= dec_from v s.
Proof.
  unfold blen. revert v. induction s as [|c s IH]; intros v Hv Hs; [cbn; lia|]. inv Hs.
  pose proof (digit_val_range c ltac:(done)).
  specialize (IH (v * 10 + digit_val c) ltac:(lia) ltac:(done)).
  change (dec_from v (c :: s)) with (dec_from (v * 10 + digit_val c) s).
  cbn [length]. rewrite Nat2Z.inj_succ, Z.pow_succ_r by lia.
  assert (0 < 10 ^ Z.of_nat (length s)) by (apply Z.pow_pos_nonneg; lia). nia.
Qed.

Lemma pos_digits_length (s : bytes) (k : Z) :
  pos_digits s -> 0 <= k -> dec_value s < 10 ^ k -> blen s <= k.
Proof.
  intros (c & t & -> & Hc & Hd) Hk Hlt. inv Hd.
  pose proof (digit_val_range c ltac:(done)).
  assert (digit_val c <> 0). { intros E. apply Hc, digit_val_inj. by rewrite E. }
  pose proof (dec_from_lower (digit_val c) t ltac:(lia) ltac:(done)) as Hl.
  change (dec_value (c :: t)) with (dec_from (digit_val c) t) in Hlt.
  unfold blen in *. cbn [length].
  assert (10 ^ Z.of_nat (length t) < 10 ^ k) as Hp.
  { assert (0 < 10 ^ Z.of_nat (length t)) by (apply Z.pow_pos_nonneg; lia). nia. }
  apply Z.pow_lt_mono_r_iff in Hp; lia.
Qed.

Lemma decimal_nonneg_length (v k : Z) : 0 <= v < 10 ^ k -> 1 <= k -> blen (decimal v) <= k.
Proof.
  intros Hv Hk. destruct (decimal_nonneg v) as (_ & Hval & H0 & Hp); [lia|].
  destruct (decide (v = 0)) as [->|]; [rewrite H0 by done; unfold blen; cbn; lia|].
  apply pos_digits_length; [apply Hp; lia|lia|rewrite Hval; lia].
Qed.

Lemma decimal_length (v : Z) : I64_MIN <= v <= I64_MAX -> (length (decimal v) <= 20)%nat.
Proof.
  unfold I64_MIN, I64_MAX. intros Hv. destruct (decide (v < 0)).
  - rewrite decimal_neg by done. cbn [length].
    pose proof (decimal_nonneg_length (- v) 19 ltac:(lia) ltac:(lia)). unfold blen in *. lia.
  - pose proof (decimal_nonneg_length v 19 ltac:(lia) ltac:(lia)). unfold blen in *. lia.
Qed.

(** ** Properties *)

(** [string2ll] accepts exactly the canonical decimal spellings of the
    [i64] range, and returns the number spelled. *)
Theorem string2ll_decimal (s : bytes) (v : Z) :
  string2ll s = Some v <-> I64_MIN <= v <= I64_MAX /\ s = decimal v.
Proof. split; [apply string2ll_sound|]. intros [? ->]. by apply string2ll_complete. Qed.

(** [string2ull] accepts exactly the canonical decimal spellings of the
    [u64] range, and returns the number spelled. *)
Theorem string2ull_decimal (s : bytes) (v : Z) :
  string2ull s = Some v <-> 0 <= v <= U64_MAX /\ s = decimal v.
Proof.
  split.
  - destruct s as [|c t]; [done|].
    destruct (decide (c :: t = ["0"%byte])) as [->|H0]; [by intros [= <-]|].
    rewrite string2ull_eq by done. destruct (is_digit_1_9 c) eqn:Ec; [|done].
    intros (Hp & Hval & ?)%string2ull_pos; [|done]. pose proof (pos_digits_value _ Hp).
    split; [lia|]. by rewrite <-Hval, pos_digits_decimal.
  - intros [Hv ->]. destruct (decide (v = 0)) as [->|]; [done|].
    destruct (decimal_nonneg v) as (_ & Hval & _ & Hp); [lia|].
    destruct (Hp ltac:(lia)) as (c & t & E & Hc & Hd).
    assert (is_digit_1_9 c = true) as Hc' by (rewrite E in Hd; inv Hd; by apply is_digit_1_9_spec).
    rewrite E, string2ull_eq by (intros [= -> ->]; vm_compute in Hc'; done). rewrite Hc'.
    apply string2ull_pos; [done|]. rewrite <-E. split_and!; [apply Hp; lia|done|lia].
Qed.

(** [ll2string] into a buffer of [LL_STR_SIZE] bytes writes text that
    [string2ll] reads back as the same integer. *)
Theorem ll2string_round_trip `{ItoaLaws} (buf : bytes) (v : Z) :
  I64_MIN <= v <= I64_MAX -> length buf = LL_STR_SIZE ->
  let '(buf', n) := ll2string buf v in string2ll (take n buf') = Some v.
Proof.
  intros Hv Hl. pose proof (decimal_length v Hv) as Hd. unfold ll2string.
  rewrite itoa_decimal by (unfold I64_MAX, U64_MAX in *; lia).
  rewrite Nat.min_l by (unfold LL_STR_SIZE in *; lia).
  rewrite firstn_all, take_app_length. by apply string2ll_complete.
Qed.

Lemma ll2string_round_trip_witness :
  let '(buf', n) := @ll2string itoa_model (replicate 21 x00) (-12345) in
  string2ll (take n buf') = Some (-12345).
Proof.
  apply (@ll2string_round_trip itoa_model itoa_model_laws (replicate 21 x00) (-12345));
    [split; vm_compute; congruence|done].
Defined.
