(* ===== verification/Lzf.v ===== *)
(** * LZF compression ([src/util/lzf.rs])

    The compressor, its hash table and budget included, and the validating
    decompressor, against the record format as an inductive relation. *)
From S2P Require Import Prelude.
Open Scope nat_scope.

(** ** Constants *)

Definition HLOG : Z := 16.
Definition HSIZE : Z := 65536.
Definition MAX_LIT : nat := 32.
Definition MAX_OFF : nat := Z.to_nat 8192.
Definition MAX_REF : nat := 264.
Definition MIN_REF : nat := 3.

(** ** Hashing *)

Definition first_hash (p : bytes) : Z :=
  let a := b2z (default x00 (p !! 0)) in
  let b := b2z (default x00 (p !! 1)) in
  let c := b2z (default x00 (p !! 2)) in
  Z.lor (Z.lor (Z.shiftl a 16) (Z.shiftl b 8)) c.

Definition idx (h : Z) : Z :=
  Z.land (wrapu 32 (Z.shiftr h (3 * 8 - HLOG) - h)) (HSIZE - 1).

(** The table of candidate positions: absent entries are the zeros of the
    freshly allocated vector. *)
Abbreviation htab := (gmap Z Z).

Definition htab_get (t : htab) (h : Z) : Z := default 0%Z (t !! h).

(** ** Compression *)

Section compress.
Context (input : bytes).

Definition budget : nat := length input - 4.

(** [flush_literals!(end)] from [s]; [out] is what the call has appended so
    far, [None] is the early [return false]. *)
Fixpoint flush_literals (fuel : nat) (s end_ : nat) (out : bytes) : option bytes :=
  match fuel with
  | O => Some out
  | S fuel =>
      if decide (s < end_) then
        let run := Nat.min MAX_LIT (end_ - s) in
        if decide (budget < length out + 1 + run) then None
        else
          lit ← slice s (s + run) input;
          flush_literals fuel (s + run) end_ (out ++ z2b (Z.of_nat (run - 1)) :: lit)
      else Some out
  end.

(** Length of the common prefix of the two suffixes, from [l] on. *)
Fixpoint match_length (fuel : nat) (refpos ip maxlen l : nat) : nat :=
  match fuel with
  | O => l
  | S fuel =>
      if decide (l < maxlen) then
        match input !! (refpos + l), input !! (ip + l) with
        | Some a, Some b => if decide (a = b) then match_length fuel refpos ip maxlen (S l) else l
        | _, _ => l
        end
      else l
  end.

(** The match found at [ip] for a table candidate: [(matched, off)], with
    [matched = 0] for none. *)
Definition find_match (ip : nat) (candidate : Z) : nat * nat :=
  if decide (candidate = 0%Z) then (0, 0)
  else
    let refpos := Z.to_nat (candidate - 1) in
    if decide (refpos < ip /\ ip - refpos <= MAX_OFF) then
      let maxlen := Nat.min MAX_REF (length input - ip) in
      let l := match_length maxlen refpos ip maxlen 0 in
      if decide (MIN_REF <= l) then (l, ip - refpos - 1) else (0, 0)
    else (0, 0).

(** The two or three bytes of a back reference. *)
Definition ref_bytes (matched off : nat) : bytes :=
  let len_field := matched - 2 in
  let high := wrapu 8 (Z.shiftr (Z.of_nat off) 8) in
  let low := z2b (Z.land (Z.of_nat off) 0xff) in
  if decide (len_field < 7) then
    [z2b (Z.lor high (wrapu 8 (Z.shiftl (Z.of_nat len_field) 5))); low]
  else
    [z2b (Z.lor high (Z.shiftl 7 5)); z2b (Z.of_nat (len_field - 7)); low].

(** Index the positions a match skips over. *)
Fixpoint index_skipped (fuel p stop : nat) (t : htab) : htab :=
  match fuel with
  | O => t
  | S fuel =>
      if decide (p < stop) then
        index_skipped fuel (S p) stop
          (<[idx (first_hash (drop p input)) := wrapu 32 (Z.of_nat p + 1)]> t)
      else t
  end.

Fixpoint compress_loop (fuel ip lit_start : nat) (t : htab) (out : bytes) : option (nat * bytes) :=
  match fuel with
  | O => Some (lit_start, out)
  | S fuel =>
      if decide (ip + MIN_REF <= length input) then
        let h := idx (first_hash (drop ip input)) in
        let candidate := htab_get t h in
        let t := <[h := wrapu 32 (Z.of_nat ip + 1)]> t in
        let '(matched, off) := find_match ip candidate in
        if decide (matched = 0) then compress_loop fuel (S ip) lit_start t out
        else
          out ← flush_literals ip lit_start ip out;
          let need := if decide (matched - 2 < 7) then 2 else 3 in
          if decide (budget < length out + need) then None
          else
            let out := out ++ ref_bytes matched off in
            let stop := Nat.min (ip + matched) (length input - (MIN_REF - 1)) in
            let t := index_skipped matched (S ip) stop t in
            compress_loop fuel (ip + matched) (ip + matched) t out
      else Some (lit_start, out)
  end.

Definition compress_body : option bytes :=
  if decide (length input <= 4) then None
  else
    '(lit_start, out) ← compress_loop (length input) 0 0 ∅ [];
    out ← flush_literals (length input) lit_start (length input) out;
    if decide (length input <= length out) then None else Some out.
End compress.

(** [compress(input, &mut out)]: the vector after the call and the result. *)
Definition compress (input out : bytes) : bytes * bool :=
  match compress_body input with
  | Some appended => (out ++ appended, true)
  | None => (out, false)
  end.

(** ** Decompression *)

(** The byte-at-a-time copy of a back reference. *)
Fixpoint copy_ref (total src : nat) (out : bytes) : option bytes :=
  match total with
  | O => Some out
  | S total => b ← out !! src; copy_ref total (S src) (out ++ [b])
  end.

(** One pass over the remaining [input]; every round consumes at least the
    control byte, so [length input] rounds are enough. *)
Fixpoint decompress_loop (fuel : nat) (input : bytes) (expected_len : nat) (out : bytes) : option bytes :=
  match fuel, input with
  | _, [] => Some out
  | O, _ => None
  | S fuel, ctrl :: input =>
      if decide (b2z ctrl < Z.of_nat MAX_LIT)%Z then
        let run := Z.to_nat (b2z ctrl) + 1 in
        lit ← slice 0 run input;
        if decide (expected_len < length out + run) then None
        else decompress_loop fuel (drop run input) expected_len (out ++ lit)
      else
        let len := Z.to_nat (Z.shiftr (b2z ctrl) 5) in
        '(len, input) ←
          (if decide (len = 7) then
             match input with [] => None | x :: input => Some (len + Z.to_nat (b2z x), input) end
           else Some (len, input));
        match input with
        | [] => None
        | low :: input =>
            let off := Z.to_nat (Z.lor (Z.shiftl (Z.land (b2z ctrl) 0x1f) 8) (b2z low)) in
            let total := len + 2 in
            if decide (length out < off + 1) then None
            else if decide (expected_len < length out + total) then None
            else
              out ← copy_ref total (length out - (off + 1)) out;
              decompress_loop fuel input expected_len out
        end
  end.

Definition decompress (input : bytes) (expected_len : nat) : option bytes :=
  out ← decompress_loop (length input) input expected_len [];
  if decide (length out = expected_len) then Some out else None.

(** ** The record format *)

(** [out'] extends [out] by [total] bytes, each equal to the one [dist]
    positions before it (overlaps included). *)
Definition back_ref (dist total : nat) (out out' : bytes) : Prop :=
  exists w, out' = out ++ w /\ length w = total /\ 0 < dist <= length out /\
    forall i, i < total -> out' !! (length out + i) = out' !! (length out + i - dist).

Inductive decodes : bytes -> bytes -> bytes -> Prop :=
| dec_end out : decodes [] out out
| dec_literal ctrl lit rest out res :
    (b2z ctrl < 32)%Z -> Z.of_nat (length lit) = (b2z ctrl + 1)%Z ->
    decodes rest (out ++ lit) res -> decodes (ctrl :: lit ++ rest) out res
| dec_short ctrl low rest out out' res :
    (32 <= b2z ctrl < 224)%Z ->
    back_ref (Z.to_nat (b2z ctrl mod 32 * 256 + b2z low) + 1) (Z.to_nat (b2z ctrl / 32) + 2) out out' ->
    decodes rest out' res -> decodes (ctrl :: low :: rest) out res
| dec_long ctrl ext low rest out out' res :
    (224 <= b2z ctrl)%Z ->
    back_ref (Z.to_nat (b2z ctrl mod 32 * 256 + b2z low) + 1) (Z.to_nat (7 + b2z ext) + 2) out out' ->
    decodes rest out' res -> decodes (ctrl :: ext :: low :: rest) out res.

(** ** Copying *)

Lemma copy_ref_total (total src : nat) (out : bytes) :
  src < length out ->
  exists w, copy_ref total src out = Some (out ++ w) /\ length w = total /\
    forall i, i < total -> (out ++ w) !! (length out + i) = (out ++ w) !! (src + i).
Proof.
  revert src out. induction total as [|total IH]; intros src out Hs.
  { exists []. rewrite app_nil_r. split_and!; [done..|lia]. }
  cbn [copy_ref]. destruct (lookup_lt_is_Some_2 out src Hs) as [b Hb]. rewrite Hb.
  cbn [mbind option_bind].
  destruct (IH (S src) (out ++ [b])) as (w & -> & Hl & Hw); [rewrite length_app; cbn; lia|].
  exists (b :: w). rewrite <-app_assoc. cbn [app]. split_and!; [done|cbn; lia|].
  intros i Hi. destruct i as [|i].
  - rewrite !Nat.add_0_r, (lookup_app_l out _ src), list_lookup_middle by done. by symmetry.
  - specialize (Hw i ltac:(lia)). rewrite <-app_assoc in Hw. cbn [app] in Hw.
    rewrite length_app in Hw. cbn [length] in Hw.
    replace (length out + S i) with (length out + 1 + i) by lia.
    replace (src + S i) with (S src + i) by lia. done.
Qed.

Lemma back_ref_unique (dist total : nat) (out o1 o2 : bytes) :
  back_ref dist total out o1 -> back_ref dist total out o2 -> o1 = o2.
Proof.
  intros (w1 & -> & Hl1 & Hd & H1) (w2 & -> & Hl2 & _ & H2).
  apply list_eq_same_length with (length out + total); [rewrite length_app; lia..|].
  intros i. induction (lt_wf i) as [i _ IH]. intros x y Hi Hx Hy.
  destruct (decide (i < length out)) as [Hlt|Hge].
  { rewrite lookup_app_l in Hx, Hy by done. congruence. }
  replace i with (length out + (i - length out)) in Hx, Hy by lia.
  rewrite H1 in Hx by lia. rewrite H2 in Hy by lia.
  eapply (IH (length out + (i - length out) - dist)); [lia|lia|done..].
Qed.

Lemma copy_ref_back_ref (total dist : nat) (out out' : bytes) :
  0 < dist <= length out ->
  copy_ref total (length out - dist) out = Some out' <-> back_ref dist total out out'.
Proof.
  intros Hd. destruct (copy_ref_total total (length out - dist) out) as (w & -> & Hl & Hw); [lia|].
  assert (back_ref dist total out (out ++ w)) as Hb.
  { exists w. split_and!; [done|done|lia|lia|]. intros i Hi. rewrite Hw by done. f_equal. lia. }
  split; [by intros [= <-]|]. intros Hb'. f_equal. by eapply back_ref_unique.
Qed.

Lemma back_ref_length (dist total : nat) (out out' : bytes) :
  back_ref dist total out out' -> length out' = length out + total.
Proof. intros (w & -> & Hl & _). rewrite length_app. lia. Qed.

(** ** The decompressor accepts exactly the valid streams *)

Lemma decodes_length (inp out res : bytes) : decodes inp out res -> length out <= length res.
Proof.
  induction 1; [lia| |apply back_ref_length in H0; lia..]. rewrite length_app in *. lia.
Qed.

Lemma decodes_app (i1 i2 a b c : bytes) : decodes i1 a b -> decodes i2 b c -> decodes (i1 ++ i2) a c.
Proof.
  intros H1 H2. induction H1; cbn; [done|rewrite <-app_assoc; apply dec_literal; auto| |];
    [eapply dec_short|eapply dec_long]; eauto.
Qed.

Lemma ctrl_fields (ctrl low : byte) :
  Z.to_nat (Z.shiftr (b2z ctrl) 5) = Z.to_nat (b2z ctrl / 32) /\
  Z.to_nat (Z.lor (Z.shiftl (Z.land (b2z ctrl) 0x1f) 8) (b2z low)) =
    Z.to_nat (b2z ctrl mod 32 * 256 + b2z low).
Proof.
  split.
  - by rewrite Z.shiftr_div_pow2.
  - change 0x1f%Z with (Z.ones 5). rewrite Z.land_ones by lia.
    by rewrite lor_shiftl_add by (lia || apply b2z_range).
Qed.

Lemma slice_take (n : nat) (l : bytes) :
  slice 0 n l = if decide (n <= length l) then Some (take n l) else None.
Proof. unfold slice. rewrite drop_0, Nat.sub_0_r. apply decide_ext. lia. Qed.

Lemma decompress_loop_sound (fuel expected : nat) (inp out res : bytes) :
  decompress_loop fuel inp expected out = Some res -> decodes inp out res.
Proof.
  revert inp out. induction fuel as [|fuel IH]; intros inp out H.
  { destruct inp; [|done]. injection H as <-. constructor. }
  destruct inp as [|ctrl inp]; [injection H as <-; constructor|]. cbn [decompress_loop] in H.
  pose proof (b2z_range ctrl) as Hr. unfold MAX_LIT in H. case_decide as Hlit.
  - apply bind_Some in H as (lit & Hl & H). case_decide; [done|].
    rewrite slice_take in Hl. case_decide; [injection Hl as <-|done].
    rewrite <-(take_drop (Z.to_nat (b2z ctrl) + 1) inp). constructor; [lia|rewrite length_take; lia|].
    by apply IH.
  - rewrite (proj1 (ctrl_fields ctrl x00)) in H.
    destruct (decide (Z.to_nat (b2z ctrl / 32) = 7)) as [H7|H7].
    + destruct inp as [|ext [|low inp]]; [done..|]. cbn [mbind option_bind] in H.
      rewrite (proj2 (ctrl_fields ctrl low)) in H.
      case_decide; [done|]. case_decide; [done|].
      apply bind_Some in H as (out' & Hc & H).
      apply copy_ref_back_ref in Hc; [|lia]. eapply dec_long; [| |by apply IH].
      * dlia.
      * pose proof (b2z_range ext). rewrite H7 in Hc.
        by replace (Z.to_nat (7 + b2z ext) + 2) with (7 + Z.to_nat (b2z ext) + 2) by lia.
    + destruct inp as [|low inp]; [done|]. cbn [mbind option_bind] in H.
      rewrite (proj2 (ctrl_fields ctrl low)) in H.
      case_decide; [done|]. case_decide; [done|].
      apply bind_Some in H as (out' & Hc & H).
      apply copy_ref_back_ref in Hc; [|lia]. eapply dec_short; [|done|by apply IH].
      dlia.
Qed.

Lemma decompress_loop_complete (fuel expected : nat) (inp out res : bytes) :
  decodes inp out res -> length res <= expected -> length inp <= fuel ->
  decompress_loop fuel inp expected out = Some res.
Proof.
  intros H. revert fuel. induction H as [out|ctrl lit rest out res Hc Hl H IH
    |ctrl low rest out out' res Hc Hb H IH|ctrl ext low rest out out' res Hc Hb H IH];
    intros fuel Hle Hf; [by destruct fuel|..]; (destruct fuel as [|fuel]; [cbn in Hf; lia|]);
    pose proof (b2z_range ctrl); pose proof (decodes_length _ _ _ H); cbn [decompress_loop]; unfold MAX_LIT; cbn [length] in Hf.
  - rewrite length_app in *. rewrite decide_True by lia.
    replace (Z.to_nat (b2z ctrl) + 1) with (length lit) by lia.
    rewrite slice_take, decide_True by (rewrite length_app; lia). cbn [mbind option_bind].
    rewrite decide_False by lia. rewrite take_app_length, drop_app_length. apply IH; lia.
  - rewrite decide_False by lia. rewrite (proj1 (ctrl_fields ctrl low)).
    assert (0 <= b2z ctrl / 32 < 7)%Z by dlia.
    rewrite decide_False by lia. cbn [mbind option_bind]. rewrite (proj2 (ctrl_fields ctrl low)).
    pose proof (back_ref_length _ _ _ _ Hb). pose proof Hb as (_ & _ & _ & Hd & _).
    rewrite decide_False by lia. rewrite decide_False by lia.
    rewrite (proj2 (copy_ref_back_ref _ _ _ _ Hd) Hb). cbn [mbind option_bind]. apply IH; lia.
  - rewrite decide_False by lia. rewrite (proj1 (ctrl_fields ctrl low)).
    pose proof (b2z_range ctrl).
    assert (b2z ctrl / 32 = 7)%Z as -> by dlia.
    rewrite decide_True by done. cbn [mbind option_bind]. rewrite (proj2 (ctrl_fields ctrl low)).
    pose proof (b2z_range ext).
    replace (Z.to_nat (7 + b2z ext)) with (Z.to_nat 7 + Z.to_nat (b2z ext)) in Hb by lia.
    pose proof (back_ref_length _ _ _ _ Hb). pose proof Hb as (_ & _ & _ & Hd & _).
    rewrite decide_False by lia. rewrite decide_False by lia.
    rewrite (proj2 (copy_ref_back_ref _ _ _ _ Hd) Hb). cbn [mbind option_bind]. apply IH; lia.
Qed.

(** ** The compressor emits a valid stream for its input *)

Section compressor.
Context (input : bytes).

(** What the output so far stands for: the first [s] bytes of the input. *)
Definition covers (s : nat) (out : bytes) : Prop := decodes out [] (take s input).

Lemma covers_extend (s n : nat) (out rec : bytes) :
  covers s out -> decodes rec (take s input) (take (s + n) input) -> covers (s + n) (out ++ rec).
Proof. apply decodes_app. Qed.

Lemma flush_literals_covers (fuel s end_ : nat) (out out' : bytes) :
  covers s out -> s <= end_ <= length input -> end_ - s <= fuel ->
  flush_literals input fuel s end_ out = Some out' -> covers end_ out'.
Proof.
  revert s out. induction fuel as [|fuel IH]; intros s out Hcov Hs Hf H.
  { injection H as <-. by replace end_ with s by lia. }
  cbn [flush_literals] in H. case_decide; [|injection H as <-; by replace end_ with s by lia].
  set (run := Nat.min MAX_LIT (end_ - s)) in *.
  assert (0 < run <= 32 /\ s + run <= end_) as Hrun by (unfold run, MAX_LIT; lia).
  case_decide; [done|]. apply bind_Some in H as (lit & Hlit & H).
  unfold slice in Hlit. case_decide as Hsl; [injection Hlit as <-|done].
  replace (s + run - s) with run in H by lia.
  eapply IH in H; [done| |lia|lia]. apply covers_extend; [done|].
  rewrite take_add_app, <-(app_nil_r (take run (drop s input))) at 1.
  assert (length (take run (drop s input)) = run) as Hl by (rewrite length_take, length_drop; lia).
  apply dec_literal; [rewrite b2z_z2b_small by lia; lia|rewrite b2z_z2b_small by lia; lia|].
  constructor.
Qed.

Lemma match_length_spec (fuel refpos ip maxlen l : nat) :
  let m := match_length input fuel refpos ip maxlen l in
  l <= m <= Nat.max l maxlen /\
  forall i, l <= i < m -> exists b, input !! (refpos + i) = Some b /\ input !! (ip + i) = Some b.
Proof.
  revert l. induction fuel as [|fuel IH]; intros l; cbn [match_length]; [split; lia|].
  case_decide; [|split; lia].
  destruct (input !! (refpos + l)) as [a|] eqn:Ea; [|split; lia].
  destruct (input !! (ip + l)) as [b|] eqn:Eb; [|split; lia].
  case_decide as Hab; [|split; lia]. destruct (IH (S l)) as [Hm Hi]. split; [lia|].
  intros i Hr. destruct (decide (i = l)) as [->|]; [naive_solver|]. apply Hi. lia.
Qed.

Lemma find_match_spec (ip : nat) (candidate : Z) (matched off : nat) :
  ip <= length input ->
  find_match input ip candidate = (matched, off) -> matched <> 0 ->
  3 <= matched <= 264 /\ (Z.of_nat off < 8192)%Z /\ off + 1 <= ip /\ ip + matched <= length input /\
  back_ref (off + 1) matched (take ip input) (take (ip + matched) input).
Proof.
  intros Hip H Hm. unfold find_match in H. case_decide; [congruence|].
  case_decide as Hr; [|congruence]. destruct Hr as [Hr Hoff]. unfold MAX_OFF in Hoff.
  assert (MAX_REF = 264 /\ MIN_REF = 3) as [Hmax Hmin3] by done.
  revert H Hr Hoff. generalize (Z.to_nat (candidate - 1)). intros refpos H Hr Hoff.
  pose proof (match_length_spec (Nat.min MAX_REF (length input - ip)) refpos ip
    (Nat.min MAX_REF (length input - ip)) 0) as Hs. cbv zeta in Hs.
  revert H Hs. generalize (match_length input (Nat.min MAX_REF (length input - ip)) refpos ip
    (Nat.min MAX_REF (length input - ip)) 0). intros m H [Hl Hi].
  case_decide as Hmin; [|congruence].
  assert (m = matched) as -> by congruence. assert (off = ip - refpos - 1) as -> by congruence.
  clear H. rename matched into m. split; [lia|]. split; [lia|]. split; [lia|]. split; [lia|].
  exists (take m (drop ip input)). rewrite take_add_app. split_and!; [done| |lia|rewrite length_take; lia|].
  { rewrite length_take, length_drop. lia. }
  intros i Him. rewrite <-take_add_app, length_take, Nat.min_l by done.
  rewrite !lookup_take_lt by lia. destruct (Hi i) as (b & H1 & H2); [lia|].
  rewrite H2. rewrite <-H1. f_equal. lia.
Qed.

Lemma ref_ctrl (high len_field : Z) :
  (0 <= high < 32)%Z -> (1 <= len_field <= 7)%Z ->
  b2z (z2b (Z.lor high (wrapu 8 (Z.shiftl len_field 5)))) = (high + len_field * 32)%Z.
Proof.
  intros Hh Hl. rewrite wrapu_small by (rewrite ?Z.shiftl_mul_pow2; unfold in_unsigned; lia).
  rewrite Z.lor_comm, lor_shiftl_add by (unfold in_unsigned; lia).
  rewrite b2z_z2b_small by lia. lia.
Qed.

Lemma ref_bytes_decodes (ip matched off : nat) :
  3 <= matched <= 264 -> (Z.of_nat off < 8192)%Z ->
  back_ref (off + 1) matched (take ip input) (take (ip + matched) input) ->
  decodes (ref_bytes matched off) (take ip input) (take (ip + matched) input).
Proof.
  intros Hm Ho Hb. unfold ref_bytes.
  assert (wrapu 8 (Z.shiftr (Z.of_nat off) 8) = Z.of_nat off / 256)%Z as ->.
  { rewrite Z.shiftr_div_pow2 by lia. apply wrapu_small; [lia|]. unfold in_unsigned. dlia. }
  assert (Z.land (Z.of_nat off) 0xff = Z.of_nat off mod 256)%Z as ->.
  { change 0xff%Z with (Z.ones 8). by rewrite Z.land_ones. }
  assert (0 <= Z.of_nat off / 256 < 32)%Z as Hh by dlia.
  assert (b2z (z2b (Z.of_nat off mod 256)) = Z.of_nat off mod 256)%Z as Hlow.
  { apply b2z_z2b_small. dlia. }
  case_decide as H7.
  - pose proof (ref_ctrl _ (Z.of_nat (matched - 2)) Hh ltac:(lia)) as Hc.
    eapply dec_short; [| |apply dec_end].
    + rewrite Hc. dlia.
    + rewrite Hc, Hlow.
      replace (Z.to_nat _ + 1) with (off + 1) by dlia.
      by replace (Z.to_nat _ + 2) with matched by dlia.
  - pose proof (ref_ctrl _ 7 Hh ltac:(lia)) as Hc. change (wrapu 8 (Z.shiftl 7 5)) with (Z.shiftl 7 5) in Hc.
    assert (b2z (z2b (Z.of_nat (matched - 2 - 7))) = Z.of_nat (matched - 9))%Z as Hext.
    { rewrite b2z_z2b_small by lia. lia. }
    eapply dec_long; [| |apply dec_end].
    + rewrite Hc. dlia.
    + rewrite Hc, Hlow, Hext.
      replace (Z.to_nat _ + 1) with (off + 1) by dlia.
      by replace (Z.to_nat _ + 2) with matched by lia.
Qed.

Lemma compress_loop_covers (fuel ip lit_start : nat) (t : htab) (out out' : bytes) (s' : nat) :
  covers lit_start out -> lit_start <= ip -> ip <= length input ->
  compress_loop input fuel ip lit_start t out = Some (s', out') ->
  covers s' out' /\ s' <= length input.
Proof.
  revert ip lit_start t out. induction fuel as [|fuel IH]; intros ip ls t out Hcov Hls Hip H.
  { injection H as <- <-. split; [done|lia]. }
  cbn [compress_loop] in H. case_decide as Hn; [|injection H as <- <-; split; [done|lia]].
  unfold MIN_REF in Hn. destruct (find_match _ _ _) as [matched off] eqn:Em.
  case_decide as H0; [eapply IH in H; [done..|lia|lia]|].
  apply bind_Some in H as (out1 & Hf & H). case_decide; [done|].
  apply find_match_spec in Em as (? & ? & ? & ? & Hb); [|lia|done].
  eapply IH in H; [done| |lia|lia]. apply covers_extend.
  - apply (flush_literals_covers ip ls ip out); [done|lia|lia|done].
  - by apply ref_bytes_decodes.
Qed.

(** The fuel given to the scan is enough: more does not change the result. *)
Lemma compress_loop_fuel (f1 f2 ip ls : nat) (t : htab) (out : bytes) :
  length input - ip <= f1 -> length input - ip <= f2 ->
  compress_loop input f1 ip ls t out = compress_loop input f2 ip ls t out.
Proof.
  revert f2 ip ls t out. induction f1 as [|f1 IH]; intros f2 ip ls t out H1 H2.
  { destruct f2; cbn [compress_loop]; [done|]. unfold MIN_REF. by rewrite decide_False by lia. }
  destruct f2 as [|f2]; cbn [compress_loop]; unfold MIN_REF.
  { by rewrite decide_False by lia. }
  case_decide; [|done]. destruct (find_match _ _ _) as [matched off] eqn:Em.
  case_decide; [apply IH; lia|]. destruct (flush_literals _ _ _ _ _); [|done].
  cbn [mbind option_bind]. case_decide; [done|]. apply IH; lia.
Qed.

Lemma compress_body_covers (out : bytes) :
  compress_body input = Some out -> covers (length input) out /\ length out < length input.
Proof.
  unfold compress_body. case_decide; [done|]. intros ([s o] & Hl & Hb)%bind_Some.
  apply bind_Some in Hb as (o' & Hf & Hb). case_decide; [done|]. injection Hb as <-.
  apply compress_loop_covers in Hl as [Hcov Hs]; [|constructor|lia|lia].
  split; [|lia]. apply (flush_literals_covers (length input) s (length input) o); [done|lia|lia|done].
Qed.
End compressor.

(** ** Properties *)

(** C31: When the compressor succeeds, what it appended is strictly shorter than
    the input and decompresses to the input; when it refuses, the output
    vector is left as it was. *)
Theorem compress_round_trip (input out : bytes) :
  match compress input out with
  | (out', true) => exists appended, out' = out ++ appended /\
      length appended < length input /\ decompress appended (length input) = Some input
  | (out', false) => out' = out
  end.
Proof.
  unfold compress. destruct (compress_body input) as [o|] eqn:E; [|done].
  apply compress_body_covers in E as [Hc Hl]. exists o. split_and!; [done..|].
  unfold covers in Hc. rewrite firstn_all in Hc. unfold decompress.
  rewrite (decompress_loop_complete _ _ _ _ _ Hc) by done. cbn [mbind option_bind].
  by rewrite decide_True.
Qed.

(** The decompressor accepts exactly the well-formed record streams that
    produce the announced number of bytes, and returns what they denote;
    truncated streams, references before the start and wrong lengths are all
    rejected. *)
Theorem decompress_spec (input res : bytes) (expected_len : nat) :
  decompress input expected_len = Some res <->
  decodes input [] res /\ length res = expected_len.
Proof.
  unfold decompress. split.
  - intros (o & Hl & H)%bind_Some. case_decide; [injection H as <-|done].
    split; [by eapply decompress_loop_sound|done].
  - intros [Hd <-]. rewrite (decompress_loop_complete _ _ _ _ _ Hd) by done.
    cbn [mbind option_bind]. by rewrite decide_True.
Qed.
