(* ===== verification/Dtoa.v ===== *)
(** * Number formatting: doubles ([src/util/strnum.rs], the [d2string] family)

    A double is an IEEE binary64 value of the Standard Library's [SpecFloat]
    (sign, mantissa, exponent, or a special value).  The shortest
    round-tripping digits come from the crate [ryu], which is a parameter; the
    code here re-lays them out, and [emit_digits_value] shows that no layout
    changes the number. *)
From S2P Require Import Prelude Strnum.
From Stdlib Require Import Floats.SpecFloat.
Open Scope Z_scope.

Abbreviation f64 := spec_float.

Definition F64_PREC : Z := 53.
Definition F64_EMAX : Z := 1024.

(** [l as f64] *)
Definition f64_of_i64 (l : Z) : f64 := binary_normalize F64_PREC F64_EMAX l 0 false.

(** [v as i64]: truncation towards zero, saturating, 0 for a NaN. *)
Definition i64_of_f64 (v : f64) : Z :=
  match v with
  | S754_zero _ | S754_nan => 0
  | S754_infinity s => if s then I64_MIN else I64_MAX
  | S754_finite s m e =>
      let mag := if decide (0 <= e) then Z.shiftl (Zpos m) e else Z.shiftr (Zpos m) (- e) in
      Z.max I64_MIN (Z.min I64_MAX (if s then - mag else mag))
  end.

Definition is_nan (v : f64) : bool := match v with S754_nan => true | _ => false end.
Definition is_infinite (v : f64) : bool := match v with S754_infinity _ => true | _ => false end.
Definition is_finite (v : f64) : bool := negb (is_nan v || is_infinite v).
Definition is_sign_negative (v : f64) : bool :=
  match v with S754_zero s | S754_infinity s | S754_finite s _ _ => s | S754_nan => false end.

(** [(i64::MAX / 2) as f64] *)
Definition LIMIT : f64 := f64_of_i64 (I64_MAX / 2).

Definition double2ll (v : f64) : option Z :=
  if negb (is_finite v) || negb (SFleb (SFopp LIMIT) v && SFleb v LIMIT) then None
  else
    let l := i64_of_f64 v in
    if SFeqb (f64_of_i64 l) v then Some l else None.

(** ** Decomposing a shortest digit string *)

(** The 24-byte scratch buffer: a digit that does not fit is dropped. *)
Definition push_digit (buf : bytes) (c : byte) : bytes :=
  if decide (length buf < 24)%nat then buf ++ [c] else buf.

Definition saturate_i32 (z : Z) : Z := Z.max (- 2147483648) (Z.min 2147483647 z).

Fixpoint decompose_exp (e : Z) (s : bytes) : Z :=
  match s with
  | d :: s =>
      if is_digit d then decompose_exp (saturate_i32 (saturate_i32 (e * 10) + digit_val d)) s else e
  | [] => e
  end.

Fixpoint decompose_loop (buf : bytes) (frac_len : Z) (seen_dot : bool) (s : bytes) : bytes * Z * Z :=
  match s with
  | [] => (buf, frac_len, 0)
  | c :: s =>
      if is_digit c then
        decompose_loop (push_digit buf c) (if seen_dot then frac_len + 1 else frac_len) seen_dot s
      else if decide (c = "."%byte) then decompose_loop buf frac_len true s
      else if decide (c = "e"%byte \/ c = "E"%byte) then
        let '(neg, s) :=
          match s with
          | c :: s' => if decide (c = "-"%byte) then (true, s')
                       else if decide (c = "+"%byte) then (false, s') else (false, s)
          | [] => (false, s)
          end in
        let e := decompose_exp 0 s in
        (buf, frac_len, if neg : bool then - e else e)
      else (buf, frac_len, 0)
  end.

(** Leading zeros go, except the last digit. *)
Fixpoint strip_leading (d : bytes) : bytes :=
  match d with
  | c :: d' => if decide (c = "0"%byte /\ d' <> []) then strip_leading d' else d
  | [] => []
  end.

(** Trailing zeros go too, except the last digit. *)
Definition strip_trailing (d : bytes) : bytes := reverse (strip_leading (reverse d)).

(** The digits, and the power of ten they are to be multiplied by. *)
Definition decompose (shortest : bytes) : bytes * Z :=
  let s := match shortest with c :: s => if decide (c = "-"%byte) then s else shortest | [] => [] end in
  let '(buf, frac_len, exp) := decompose_loop [] 0 false s in
  let d := strip_leading buf in
  let digits := strip_trailing d in
  (digits, exp - frac_len + Z.of_nat (length d - length digits)).

(** ** fpconv's layouts *)

Definition zeros (n : Z) : bytes := replicate (Z.to_nat n) "0"%byte.

(** [b'0'.wrapping_add(d as u8)] *)
Definition digit_byte (d : Z) : byte := z2b (wrapu 8 (48 + wrapu 8 d)).

(** The exponent of the scientific layout: one to three digits. *)
Definition emit_exponent (exp : Z) : bytes :=
  let cent := if decide (99 < exp) then Z.quot exp 100 else 0 in
  let e := exp - cent * 100 in
  let dec := if decide (9 < e) then Z.quot e 10 else 0 in
  (if decide (99 < exp) then [digit_byte cent] else []) ++
  (if decide (9 < e) then [digit_byte dec] else if decide (cent <> 0) then ["0"%byte] else []) ++
  [digit_byte (Z.rem (e - dec * 10) 10)].

Definition emit_digits (shortest : bytes) (neg : bool) : bytes :=
  let '(digits, k) := decompose shortest in
  let nd := blen digits in
  let exp := Z.abs (k + nd - 1) in
  (if neg then ["-"%byte] else []) ++
  if decide (0 <= k /\ exp < nd + 7) then digits ++ zeros k
  else if decide (k < 0 /\ (- 7 < k \/ exp < 4)) then
    let offset := nd - Z.abs k in
    if decide (offset <= 0) then bs "0." ++ zeros (- offset) ++ digits
    else
      let cut := Z.to_nat offset in
      default digits (slice 0 cut digits) ++ bs "." ++ default [] (slice_from cut digits)
  else
    let cap := if neg then 17%nat else 18%nat in
    let nd2 := Nat.min (length digits) cap in
    [default "0"%byte (head digits)] ++
    (if decide (1 < nd2)%nat then bs "." ++ default [] (slice 1 nd2 digits) else []) ++
    bs "e" ++ (if decide (k + nd - 1 < 0) then bs "-" else bs "+") ++ emit_exponent exp.

(** [ryu::Buffer::format_finite]. *)
Class Ryu := ryu_format_finite : f64 -> bytes.

(** The text [d2string] appends. *)
Definition d2string `{Itoa, Ryu} (v : f64) : bytes :=
  if is_nan v then bs "nan"
  else if is_infinite v then if SFltb (S754_zero false) v then bs "inf" else bs "-inf"
  else if SFeqb v (S754_zero false) then if is_sign_negative v then bs "-0" else bs "0"
  else
    match double2ll v with
    | Some l => itoa_format l
    | None => emit_digits (ryu_format_finite v) (is_sign_negative v)
    end.

(** ** Bounds *)

Lemma push_digit_spec (buf : bytes) (c : byte) :
  digits buf -> is_digit c = true -> (length buf <= 24)%nat ->
  digits (push_digit buf c) /\ (length (push_digit buf c) <= 24)%nat.
Proof.
  unfold push_digit. intros. case_decide; [|done]. rewrite length_app. simpl.
  split; [by apply Forall_app; auto|lia].
Qed.

Lemma decompose_loop_digits (buf s : bytes) (fl : Z) (dot : bool) :
  digits buf -> (length buf <= 24)%nat ->
  digits (decompose_loop buf fl dot s).1.1 /\ (length (decompose_loop buf fl dot s).1.1 <= 24)%nat.
Proof.
  revert buf fl dot. induction s as [|c s IH]; intros buf fl dot Hd Hl; simpl; [done|].
  destruct (is_digit c) eqn:Ec; [by apply IH; apply push_digit_spec|].
  case_decide; [by apply IH|]. case_decide; [|done]. by destruct (match s with [] => _ | _ => _ end).
Qed.

Lemma strip_leading_suffix (d : bytes) : exists n, strip_leading d = drop n d.
Proof.
  induction d as [|c d [n IH]]; simpl; [by exists 0%nat|]. case_decide; [by exists (S n)|by exists 0%nat].
Qed.

Lemma strip_leading_digits (d : bytes) :
  digits d -> digits (strip_leading d) /\ (length (strip_leading d) <= length d)%nat.
Proof.
  destruct (strip_leading_suffix d) as [n E]. rewrite E. intros. rewrite length_drop. split; [by apply Forall_drop|lia].
Qed.

Lemma strip_trailing_digits (d : bytes) :
  digits d -> digits (strip_trailing d) /\ (length (strip_trailing d) <= length d)%nat.
Proof.
  unfold strip_trailing. intros H. rewrite length_reverse.
  destruct (strip_leading_digits (reverse d)) as [H1 H2]; [by apply Forall_reverse|].
  rewrite length_reverse in H2. split; [by apply Forall_reverse|done].
Qed.

Lemma decompose_digits (s : bytes) : digits (decompose s).1 /\ (length (decompose s).1 <= 24)%nat.
Proof.
  unfold decompose. set (t := match s with [] => [] | _ => _ end).
  destruct (decompose_loop_digits [] t 0 false) as [H1 H2]; [constructor|simpl; lia|].
  destruct (decompose_loop [] 0 false t) as [[buf fl] e]. simpl in *.
  destruct (strip_leading_digits buf) as [H3 H4]; [done|].
  destruct (strip_trailing_digits (strip_leading buf)) as [H5 H6]; [done|]. split; [done|lia].
Qed.

(** The characters [emit_digits] uses. *)
Definition num_char (c : byte) : bool :=
  is_digit c || bool_decide (c ∈ ["-"; "+"; "."; "e"]%byte).

Lemma digits_num (d : bytes) : digits d -> Forall num_char d.
Proof. intros H. eapply Forall_impl; [exact H|]. intros c Hc. unfold num_char. by rewrite Hc. Qed.

Lemma num_char_not_cr (s : bytes) : Forall num_char s -> x0d ∉ s.
Proof. intros H Hin. rewrite Forall_forall in H. by apply H in Hin. Qed.

Lemma digit_byte_num (d : Z) : 0 <= d <= 9 -> is_digit (digit_byte d) = true.
Proof.
  intros. unfold digit_byte. rewrite (wrapu_small 8 d) by (unfold in_unsigned; lia).
  rewrite wrapu_small by (unfold in_unsigned; lia). apply is_digit_spec. rewrite b2z_z2b_small; lia.
Qed.

Lemma zeros_digits (n : Z) : digits (zeros n).
Proof. apply Forall_replicate. done. Qed.

Lemma emit_exponent_digits (e : Z) :
  0 <= e < 1000 -> digits (emit_exponent e) /\ (length (emit_exponent e) <= 3)%nat.
Proof.
  intros He. unfold emit_exponent.
  assert (0 <= Z.quot e 100 <= 9) by (rewrite Z.quot_div_nonneg by lia; dlia).
  set (cent := if decide (99 < e) then _ else 0).
  assert (0 <= e - cent * 100 < 100 /\ 0 <= cent <= 9) as [He' Hc].
  { subst cent. case_decide; [|lia]. rewrite Z.quot_div_nonneg in * by lia. dlia. }
  set (dec := if decide (9 < e - cent * 100) then _ else 0).
  assert (0 <= e - cent * 100 - dec * 10 < 10 /\ 0 <= dec <= 9) as [He'' Hd].
  { subst dec. case_decide; [|lia]. rewrite Z.quot_div_nonneg by lia. dlia. }
  rewrite Z.rem_small by lia. split.
  - repeat case_decide; simpl; repeat first [apply Forall_nil_2 | apply Forall_cons_2];
      first [by apply digit_byte_num | apply digit_byte_num; lia | done].
  - repeat case_decide; simpl; lia.
Qed.

(** ** The value a text denotes *)

Inductive exp_text : Z -> bytes -> Prop :=
| exp_none : exp_text 0 []
| exp_bare ed : ed <> [] -> digits ed -> exp_text (dec_value ed) ("e"%byte :: ed)
| exp_plus ed : ed <> [] -> digits ed -> exp_text (dec_value ed) (bs "e+" ++ ed)
| exp_minus ed : ed <> [] -> digits ed -> exp_text (- dec_value ed) (bs "e-" ++ ed).

Definition sign_text (neg : bool) : bytes := if neg then ["-"%byte] else [].
Definition point_text (fp : bytes) : bytes := match fp with [] => [] | _ => "."%byte :: fp end.

(** [literal neg ip fp ex s]: [s] spells [ip.fp * 10^ex], negated if [neg]. *)
Inductive literal (neg : bool) (ip fp : bytes) (ex : Z) : bytes -> Prop :=
| literal_intro et :
    ip <> [] -> digits ip -> digits fp -> exp_text ex et ->
    literal neg ip fp ex (sign_text neg ++ ip ++ point_text fp ++ et).

(** [m1 * 10^e1 = m2 * 10^e2], with the exponents made non-negative. *)
Definition dec_eq (m1 e1 m2 e2 : Z) : Prop :=
  exists K, 0 <= e1 + K /\ 0 <= e2 + K /\ m1 * 10 ^ (e1 + K) = m2 * 10 ^ (e2 + K).

Lemma dec_value_snoc (s : bytes) (c : byte) : dec_value (s ++ [c]) = dec_value s * 10 + digit_val c.
Proof. unfold dec_value. by rewrite foldl_app. Qed.

Lemma dec_value_zeros (s : bytes) (n : nat) :
  dec_value (s ++ replicate n "0"%byte) = dec_value s * 10 ^ Z.of_nat n.
Proof.
  induction n as [|n IH]; [by rewrite app_nil_r, Z.mul_1_r|].
  rewrite replicate_S_end, app_assoc, dec_value_snoc, IH, Nat2Z.inj_succ, Z.pow_succ_r by lia.
  unfold digit_val. change (b2z "0"%byte) with 48. lia.
Qed.

Lemma dec_value_lead_zeros (n : nat) (s : bytes) : dec_value (replicate n "0"%byte ++ s) = dec_value s.
Proof. induction n as [|n IH]; [done|]. simpl. unfold dec_value in *. simpl. by rewrite <-IH. Qed.

Lemma strip_leading_value (d : bytes) : dec_value (strip_leading d) = dec_value d.
Proof.
  induction d as [|c d IH]; simpl; [done|]. case_decide as Hc; [|done]. destruct Hc as [-> _].
  rewrite IH. exact (eq_sym (dec_value_lead_zeros 1 d)).
Qed.

Lemma strip_leading_zeros (d : bytes) :
  exists n, d = replicate n "0"%byte ++ strip_leading d.
Proof.
  induction d as [|c d [n IH]]; simpl; [by exists 0%nat|]. case_decide as Hc; [|by exists 0%nat].
  destruct Hc as [-> _]. exists (S n). simpl. by rewrite <-IH.
Qed.

Lemma strip_leading_nonempty (d : bytes) : d <> [] -> strip_leading d <> [].
Proof. induction d as [|c d IH]; simpl; [done|]. case_decide; naive_solver. Qed.

Lemma strip_trailing_zeros (d : bytes) :
  exists n, d = strip_trailing d ++ replicate n "0"%byte.
Proof.
  destruct (strip_leading_zeros (reverse d)) as [n E]. exists n. unfold strip_trailing.
  rewrite <-(reverse_involutive d) at 1. rewrite E at 1. by rewrite reverse_app, reverse_replicate.
Qed.

Lemma strip_trailing_value (d : bytes) :
  dec_value d = dec_value (strip_trailing d) * 10 ^ Z.of_nat (length d - length (strip_trailing d)).
Proof.
  destruct (strip_trailing_zeros d) as [n E]. rewrite E at 1. rewrite dec_value_zeros.
  do 3 f_equal. apply (f_equal length) in E. rewrite length_app, length_replicate in E. lia.
Qed.

Lemma strip_trailing_nonempty (d : bytes) : d <> [] -> strip_trailing d <> [].
Proof.
  unfold strip_trailing. intros H E%(f_equal reverse). rewrite reverse_involutive in E.
  apply strip_leading_nonempty in E; [done|]. intros E'%(f_equal reverse). by rewrite reverse_involutive in E'.
Qed.

Lemma decompose_exp_spec (v : Z) (ed : bytes) :
  0 <= v -> digits ed -> dec_from v ed <= 2147483647 -> decompose_exp v ed = dec_from v ed.
Proof.
  revert v. induction ed as [|d ed IH]; intros v Hv Hd Hb; [done|]. inversion_clear Hd as [|? ? Hc Hd'].
  simpl. rewrite Hc. pose proof (digit_val_range d Hc).
  change (dec_from v (d :: ed)) with (dec_from (v * 10 + digit_val d) ed) in *.
  pose proof (dec_from_ge (v * 10 + digit_val d) ed ltac:(lia) Hd').
  rewrite <-IH by (done || lia). f_equal. unfold saturate_i32. lia.
Qed.

Lemma decompose_exp_value (ed : bytes) :
  digits ed -> dec_value ed <= 2147483647 -> decompose_exp 0 ed = dec_value ed.
Proof. intros. by apply decompose_exp_spec. Qed.

Lemma decompose_loop_push (buf : bytes) (fl : Z) (dot : bool) (d s : bytes) :
  digits d -> (length buf + length d <= 24)%nat ->
  decompose_loop buf fl dot (d ++ s) = decompose_loop (buf ++ d) (if dot then fl + blen d else fl) dot s.
Proof.
  revert buf fl. induction d as [|c d IH]; intros buf fl Hd Hl.
  { rewrite app_nil_r. unfold blen. simpl. by destruct dot; rewrite ?Z.add_0_r. }
  inversion_clear Hd as [|? ? Hc Hd']. simpl in *. rewrite Hc.
  unfold push_digit. rewrite decide_True by lia. rewrite IH by (done || rewrite length_app; simpl; lia).
  rewrite <-app_assoc. f_equal. unfold blen. destruct dot; simpl; lia.
Qed.

Lemma decompose_loop_exp (buf : bytes) (fl ex : Z) (dot : bool) (et : bytes) :
  exp_text ex et -> Z.abs ex <= 1000000 -> decompose_loop buf fl dot et = (buf, fl, ex).
Proof.
  destruct 1 as [|ed Hne Hd|ed Hne Hd|ed Hne Hd]; intros Hb; [done|..]; simpl.
  - destruct ed as [|c ed]; [done|]. pose proof (Forall_inv Hd) as Hc.
    rewrite decide_False by (intros ->; done). rewrite decide_False by (intros ->; done).
    rewrite decompose_exp_value; [done..|lia].
  - rewrite decompose_exp_value; [done..|lia].
  - rewrite decompose_exp_value; [done..|lia].
Qed.

(** The digits that count. *)
Definition significant (d : bytes) : bytes := strip_trailing (strip_leading d).

Lemma significant_spec (d : bytes) :
  digits d -> d <> [] ->
  digits (significant d) /\ significant d <> [] /\ (length (significant d) <= length d)%nat /\
  dec_value d = dec_value (significant d) * 10 ^ Z.of_nat (length (strip_leading d) - length (significant d)).
Proof.
  intros Hd Hne. unfold significant. destruct (strip_leading_digits d Hd) as [H1 H2].
  destruct (strip_trailing_digits _ H1) as [H3 H4]. split_and!; [done| |lia|].
  - by apply strip_trailing_nonempty, strip_leading_nonempty.
  - rewrite <-strip_leading_value at 1. apply strip_trailing_value.
Qed.

Lemma decompose_literal (neg : bool) (ip fp : bytes) (ex : Z) (s : bytes) :
  literal neg ip fp ex s -> (length ip + length fp <= 24)%nat -> Z.abs ex <= 1000000 ->
  let d := significant (ip ++ fp) in
  decompose s = (d, ex - blen fp + Z.of_nat (length (strip_leading (ip ++ fp)) - length d)).
Proof.
  intros [et Hne Hi Hf He] Hl Hx. unfold decompose.
  assert (match sign_text neg ++ ip ++ point_text fp ++ et with
    | [] => [] | c :: s => if decide (c = "-"%byte) then s else sign_text neg ++ ip ++ point_text fp ++ et end
    = ip ++ point_text fp ++ et) as ->.
  { destruct neg; simpl; [done|]. destruct ip as [|c ip]; [done|]. simpl.
    pose proof (Forall_inv Hi) as Hc. rewrite decide_False by (intros ->; done). done. }
  rewrite decompose_loop_push by (done || simpl; lia). simpl app.
  assert (decompose_loop ip 0 false (point_text fp ++ et) = (ip ++ fp, blen fp, ex)) as ->.
  { unfold point_text. destruct fp as [|c fp].
    - rewrite app_nil_r. by apply decompose_loop_exp.
    - cbn [app]. simpl. change (c :: fp ++ et) with ((c :: fp) ++ et).
      change (if is_digit c then _ else _) with (decompose_loop ip 0 true ((c :: fp) ++ et)).
      rewrite decompose_loop_push by (done || simpl in *; lia). by apply decompose_loop_exp. }
  done.
Qed.

Lemma slice_from_default (n : nat) (d : bytes) : default [] (slice_from n d) = drop n d.
Proof. unfold slice_from. case_decide; [done|]. simpl. by rewrite drop_ge by lia. Qed.

Lemma emit_exponent_value (e : Z) : 0 <= e < 1000 -> dec_value (emit_exponent e) = e.
Proof.
  intros He. assert (forallb (fun n => Z.eqb (dec_value (emit_exponent (Z.of_nat n))) (Z.of_nat n)) (seq 0 1000) = true) as H
    by (vm_compute; reflexivity).
  rewrite forallb_forall in H. specialize (H (Z.to_nat e)).
  rewrite Z2Nat.id in H by lia. apply Z.eqb_eq, H. apply in_seq. lia.
Qed.

Lemma emit_exponent_nonempty (e : Z) : emit_exponent e <> [].
Proof. unfold emit_exponent. intros H%(f_equal length). rewrite !length_app in H. simpl in H. lia. Qed.

Lemma literal_plain (neg : bool) (ip : bytes) :
  ip <> [] -> digits ip -> literal neg ip [] 0 (sign_text neg ++ ip).
Proof. intros. rewrite <-(app_nil_r ip) at 2. by apply (literal_intro neg ip [] 0 []); [..|constructor]. Qed.

Lemma literal_point (neg : bool) (ip fp : bytes) :
  ip <> [] -> fp <> [] -> digits ip -> digits fp -> literal neg ip fp 0 (sign_text neg ++ ip ++ bs "." ++ fp).
Proof.
  intros. replace (bs "." ++ fp) with (point_text fp ++ []) by (destruct fp; [done|by rewrite app_nil_r]).
  by apply literal_intro; [..|constructor].
Qed.

Lemma emit_digits_literal (neg : bool) (s d : bytes) (k : Z) :
  decompose s = (d, k) -> digits d -> d <> [] -> (length d <= 17)%nat -> Z.abs k <= 800 ->
  exists ip fp ex, literal neg ip fp ex (emit_digits s neg) /\
    (length (emit_digits s neg) <= 64)%nat /\ Z.abs ex <= 1000 /\
    (dec_value (ip ++ fp) = dec_value d /\ ex - blen fp = k \/
     dec_value (ip ++ fp) = dec_value d * 10 ^ k /\ ex - blen fp = 0 /\ 0 <= k).
Proof.
  intros E Hd Hne Hl Hk. unfold emit_digits. rewrite E. fold (sign_text neg).
  assert (length (sign_text neg) <= 1)%nat by (destruct neg; simpl; lia).
  assert (0 < length d)%nat by (destruct d; simpl; [done|lia]). unfold blen in *.
  destruct (decide (0 <= k /\ _)) as [[Hk0 Hex]|H1]; [|destruct (decide (k < 0 /\ _)) as [[Hk0 Hex]|H2]].
  - exists (d ++ zeros k), [], 0. split_and!.
    + apply literal_plain; [by intros [? _]%app_nil|]. apply Forall_app. split; [done|apply zeros_digits].
    + rewrite !length_app. unfold zeros. rewrite length_replicate. lia.
    + lia.
    + right. rewrite app_nil_r. unfold zeros. rewrite dec_value_zeros, Z2Nat.id by lia. done.
  - destruct (decide (_ <= 0)) as [Ho|Ho].
    + exists (bs "0"), (zeros (- (Z.of_nat (length d) - Z.abs k)) ++ d), 0. split_and!.
      * apply (literal_point neg (bs "0")); [done|by intros [_ ?]%app_nil|by repeat constructor|].
        apply Forall_app. split; [apply zeros_digits|done].
      * rewrite !length_app. unfold zeros. rewrite length_replicate. simpl length. lia.
      * lia.
      * left. split; [|rewrite length_app; unfold zeros; rewrite length_replicate; lia].
        change (bs "0" ++ ?x) with (replicate 1 "0"%byte ++ x). rewrite dec_value_lead_zeros.
        apply dec_value_lead_zeros.
    + set (cut := Z.to_nat _). assert (0 < cut < length d)%nat as Hcut by lia.
      rewrite slice_Some, slice_from_default by lia. simpl default. rewrite Nat.sub_0_r, drop_0.
      assert (drop cut d <> []) as Hdr by (intros Hz%(f_equal length); rewrite length_drop in Hz; simpl in Hz; lia).
      assert (take cut d <> []) as Htk by (intros Hz%(f_equal length); rewrite length_take in Hz; simpl in Hz; lia).
      exists (take cut d), (drop cut d), 0. split_and!.
      * apply literal_point; [done..|by apply Forall_take|by apply Forall_drop].
      * rewrite !length_app, length_take, length_drop. simpl length. lia.
      * lia.
      * left. rewrite take_drop, length_drop. split; [done|lia].
  - set (e := Z.of_nat (length d) + (k - 1)). replace (k + Z.of_nat (length d) - 1) with e by lia.
    replace (Nat.min (length d) (if neg then 17 else 18)%nat) with (length d) by (destruct neg; lia).
    destruct d as [|c d]; [done|]. cbn [head default length].
    assert ((if decide (1 < S (length d))%nat then bs "." ++ default [] (slice 1 (S (length d)) (c :: d)) else [])
      = point_text d) as ->.
    { destruct d as [|c' d]; [done|]. rewrite decide_True by (simpl; lia). rewrite slice_Some by (simpl; lia).
      cbn [drop default]. unfold point_text. simpl. by rewrite firstn_all. }
    destruct (emit_exponent_digits (Z.abs e)) as [Hed Hel]; [subst e; simpl in *; lia|].
    pose proof (emit_exponent_value (Z.abs e) ltac:(subst e; simpl in *; lia)) as Hev.
    pose proof (emit_exponent_nonempty (Z.abs e)) as Hen.
    exists [c], d, e. split_and!.
    + apply (literal_intro neg [c] d e); try done; [by apply Forall_take with (n := 1%nat) in Hd|by inversion Hd|].
      case_decide.
      * replace e with (- dec_value (emit_exponent (Z.abs e))) at 1 by lia. by apply exp_minus.
      * replace e with (dec_value (emit_exponent (Z.abs e))) at 1 by lia. by apply exp_plus.
    + rewrite !length_app. simpl in *. destruct (decide (e < 0)); destruct d; simpl in *; lia.
    + subst e. simpl in *. lia.
    + left. split; [done|]. subst e. simpl. lia.
Qed.

(** What is documented of [ryu]'s output: a decimal literal with the sign of
    the number, at most 17 significant digits (24 with the zeros it pads
    with) and a binary64-sized exponent. *)
Definition ryu_text (neg : bool) (s : bytes) : Prop :=
  exists ip fp ex, literal neg ip fp ex s /\ (length ip + length fp <= 24)%nat /\
    (length (significant (ip ++ fp)) <= 17)%nat /\ Z.abs ex <= 400.

Class RyuLaws `{R : Ryu} : Prop :=
  ryu_format_text : forall v, is_finite v = true -> v <> S754_zero true -> v <> S754_zero false ->
    ryu_text (is_sign_negative v) (ryu_format_finite v).

Lemma emit_ryu (neg : bool) (ip fp : bytes) (ex : Z) (s : bytes) :
  literal neg ip fp ex s -> (length ip + length fp <= 24)%nat ->
  (length (significant (ip ++ fp)) <= 17)%nat -> Z.abs ex <= 400 ->
  exists ip' fp' ex', literal neg ip' fp' ex' (emit_digits s neg) /\
    (length (emit_digits s neg) <= 64)%nat /\ Z.abs ex' <= 1000 /\
    dec_eq (dec_value (ip ++ fp)) (ex - blen fp) (dec_value (ip' ++ fp')) (ex' - blen fp').
Proof.
  intros Hs Hl Hsig Hx. pose proof (decompose_literal neg ip fp ex s Hs Hl ltac:(lia)) as E.
  destruct Hs as [et Hne Hi Hf _].
  destruct (significant_spec (ip ++ fp)) as (H1 & H2 & H3 & H4);
    [by apply Forall_app|by intros [? _]%app_nil|].
  destruct (strip_leading_digits (ip ++ fp)) as [_ H5]; [by apply Forall_app|].
  rewrite length_app in *. revert H4. set (t := (_ - _)%nat) in *. intros H4. unfold blen in *.
  destruct (emit_digits_literal neg _ _ _ E H1 H2 Hsig ltac:(unfold blen; lia)) as (ip' & fp' & ex' & Hlit & Hlen & Hex & Hval).
  exists ip', fp', ex'. split_and!; [done..|]. exists 2000. rewrite H4. unfold blen in *.
  destruct Hval as [[-> ->]|(-> & -> & ?)]; (split_and!; [lia..|]).
  - rewrite <-Z.mul_assoc, <-Z.pow_add_r by lia. do 2 f_equal. lia.
  - rewrite <-!Z.mul_assoc, <-!Z.pow_add_r by lia. do 2 f_equal. lia.
Qed.

(** Whichever layout it chooses - plain integer, plain decimal or
    scientific - [emit_digits] spells exactly the number [ryu]'s text spells,
    sign included, in at most 64 characters. *)
Theorem emit_digits_value (neg : bool) (ip fp : bytes) (ex : Z) (s : bytes) :
  literal neg ip fp ex s -> (length ip + length fp <= 24)%nat ->
  (length (significant (ip ++ fp)) <= 17)%nat -> Z.abs ex <= 400 ->
  exists ip' fp' ex', literal neg ip' fp' ex' (emit_digits s neg) /\
    (length (emit_digits s neg) <= 64)%nat /\ Z.abs ex' <= 1000 /\
    dec_eq (dec_value (ip ++ fp)) (ex - blen fp) (dec_value (ip' ++ fp')) (ex' - blen fp').
Proof. apply emit_ryu. Qed.

Lemma emit_digits_value_witness :
  literal true (bs "1") (bs "2345678901234569") 23 (bs "-1.2345678901234569e23") /\
  exists ip' fp' ex', literal true ip' fp' ex' (bs "-123456789012345690000000") /\
    (length (bs "-123456789012345690000000") <= 64)%nat /\ Z.abs ex' <= 1000 /\
    dec_eq 12345678901234569 7 (dec_value (ip' ++ fp')) (ex' - blen fp').
Proof.
  assert (literal true (bs "1") (bs "2345678901234569") 23 (bs "-1.2345678901234569e23")) as H.
  { apply (literal_intro true (bs "1") (bs "2345678901234569") 23 (bs "e23"));
      [discriminate|repeat constructor..|]. apply (exp_bare (bs "23")); [discriminate|repeat constructor]. }
  split; [exact H|].
  apply (emit_digits_value true (bs "1") (bs "2345678901234569") 23 (bs "-1.2345678901234569e23") H);
    vm_compute; repeat constructor; discriminate.
Defined.

(** The integer path is exact. *)
Lemma double2ll_exact (v : f64) (l : Z) :
  double2ll v = Some l -> SFeqb (f64_of_i64 l) v = true /\ I64_MIN <= l <= I64_MAX.
Proof.
  unfold double2ll. repeat case_match; try done. intros [= <-]. split; [done|].
  destruct v as [| |?|s m e]; simpl; unfold I64_MIN, I64_MAX in *; repeat case_match; lia.
Qed.

Lemma exp_text_num (ex : Z) (et : bytes) : exp_text ex et -> Forall num_char et.
Proof.
  destruct 1 as [|ed ? Hd|ed ? Hd|ed ? Hd]; simpl; repeat constructor; by apply digits_num.
Qed.

Lemma literal_num (neg : bool) (ip fp : bytes) (ex : Z) (s : bytes) : literal neg ip fp ex s -> Forall num_char s.
Proof.
  intros [et _ Hi Hf He]. rewrite !Forall_app. split_and!.
  - destruct neg; repeat constructor.
  - by apply digits_num.
  - destruct fp; [constructor|]. constructor; [done|]. by apply digits_num.
  - by eapply exp_text_num.
Qed.

(** [d2string]'s text fits a line of the protocol: no CR, at most 64 bytes. *)
Lemma d2string_line `{ItoaLaws, RyuLaws} (v : f64) : x0d ∉ d2string v /\ (length (d2string v) <= 64)%nat.
Proof.
  unfold d2string. destruct (is_nan v) eqn:En; [by split; [set_solver|simpl; lia]|].
  destruct (is_infinite v) eqn:Ei; [by case_match; (split; [set_solver|simpl; lia])|].
  destruct (SFeqb v (S754_zero false)) eqn:Ez; [by case_match; (split; [set_solver|simpl; lia])|].
  destruct (double2ll v) as [l|] eqn:El.
  - apply double2ll_exact in El as [_ Hl]. rewrite itoa_decimal by (unfold I64_MIN, I64_MAX, U64_MAX in *; lia).
    pose proof (decimal_length l Hl). split; [|lia]. apply num_char_not_cr.
    destruct (decide (0 <= l)).
    + apply digits_num, decimal_nonneg. done.
    + rewrite decimal_neg by lia. constructor; [done|]. apply digits_num, decimal_nonneg. lia.
  - destruct (ryu_format_text v) as (ip & fp & ex & Hs & H1 & H2 & H3).
    { unfold is_finite. by rewrite En, Ei. } { by intros ->. } { by intros ->. }
    destruct (emit_ryu _ ip fp ex _ Hs H1 H2 H3) as (? & ? & ? & Hlit & Hlen & _ & _).
    split; [|done]. eapply num_char_not_cr, literal_num, Hlit.
Qed.

(** An instance, so that the laws can be seen to hold of something. *)
Definition ryu_model : Ryu := fun v => sign_text (is_sign_negative v) ++ bs "1.5".

Lemma ryu_model_laws : @RyuLaws ryu_model.
Proof.
  intros v _ _ _. exists (bs "1"), (bs "5"), 0. split_and!.
  - unfold ryu_model, ryu_format_finite. apply literal_point; [done..|repeat constructor|repeat constructor].
  - simpl. lia.
  - vm_compute. lia.
  - lia.
Qed.
