(* ===== verification/Glob.v ===== *)
(** * Glob patterns ([glob_match], [match_class] of [src/command/generic.rs])

    [KEYS], [SCAN MATCH] and [SORT] match client-supplied patterns with an
    iterative matcher that only remembers the last star.  It is proved to
    decide the declarative pattern language and to stop within a bound that is
    linear in the pattern and in the string. *)
From S2P Require Import Prelude.
Open Scope nat_scope.

(** ** The matcher *)

(** The item loop of one class, from position [p]: whether an item contained
    [c], and the position just past the class. *)
Fixpoint match_class_loop (fuel : nat) (pattern : bytes) (c : byte) (p : nat) (matched : bool) : bool * nat :=
  match fuel with
  | O => (matched, p)
  | S fuel =>
      match pattern !! p with
      | None => (matched, p)
      | Some x =>
          if decide (x = "]"%byte) then (matched, p + 1)
          else if decide (x = "\"%byte) then
            match pattern !! (p + 1) with
            | Some lit =>
                match_class_loop fuel pattern c (p + 2) (if decide (lit = c) then true else matched)
            | None => match_class_loop fuel pattern c (p + 1) matched
            end
          else
            let start := x in
            let is_range :=
              bool_decide (pattern !! (p + 1) = Some "-"%byte) &&
              match pattern !! (p + 2) with Some e => bool_decide (e <> "]"%byte) | None => false end in
            if is_range then
              let end_ := default start (pattern !! (p + 2)) in
              let '(lo, hi) :=
                if decide (b2z start <= b2z end_)%Z then (start, end_) else (end_, start) in
              match_class_loop fuel pattern c (p + 3)
                (if decide (b2z lo <= b2z c /\ b2z c <= b2z hi)%Z then true else matched)
            else
              match_class_loop fuel pattern c (p + 1) (if decide (start = c) then true else matched)
      end
  end.

Definition match_class (pattern : bytes) (open : nat) (c : byte) : bool * nat :=
  let p := open + 1 in
  let negate := bool_decide (pattern !! p = Some "^"%byte) in
  let p := if negate then p + 1 else p in
  let '(matched, p) := match_class_loop (length pattern) pattern c p false in
  (negb (Bool.eqb matched negate), p).

(** The position after the element at [p] when it matches [string[s]]. *)
Definition advance (pattern string : bytes) (p s : nat) : option nat :=
  match pattern !! p with
  | None => None
  | Some x =>
      if decide (x = "?"%byte) then Some (p + 1)
      else if decide (x = "["%byte) then
        match match_class pattern p (default x00 (string !! s)) with
        | (true, next) => Some next
        | (false, _) => None
        end
      else if decide (x = "\"%byte) then
        match pattern !! (p + 1), string !! s with
        | Some lit, Some c => if decide (lit = c) then Some (p + 2) else None
        | None, Some c => if decide (c = "\"%byte) then Some (p + 1) else None
        | _, _ => None
        end
      else
        match string !! s with
        | Some c => if decide (x = c) then Some (p + 1) else None
        | None => None
        end
  end.

(** [while pattern.get(p) == Some(&b'*') { p += 1 }] *)
Fixpoint skip_stars (fuel : nat) (pattern : bytes) (p : nat) : nat :=
  match fuel with
  | O => p
  | S fuel => if decide (pattern !! p = Some "*"%byte) then skip_stars fuel pattern (p + 1) else p
  end.

Fixpoint glob_loop (fuel : nat) (pattern string : bytes) (p s : nat) (star_p : option nat) (star_s : nat) : option bool :=
  match fuel with
  | O => None
  | S fuel =>
      if decide (s < length string) then
        if decide (pattern !! p = Some "*"%byte) then
          glob_loop fuel pattern string (p + 1) s (Some p) s
        else
          match advance pattern string p s with
          | Some p' => glob_loop fuel pattern string p' (s + 1) star_p star_s
          | None =>
              match star_p with
              | Some sp =>
                  let star_s := star_s + 1 in
                  if decide (length string < star_s) then Some false
                  else glob_loop fuel pattern string (sp + 1) star_s (Some sp) star_s
              | None => Some false
              end
          end
      else Some (bool_decide (length pattern <= skip_stars (length pattern) pattern p))
  end.

(** Steps that are always enough: one pass over the pattern per character. *)
Definition glob_fuel (pattern string : bytes) : nat :=
  S ((length string + 1) * (length pattern + 2) + length pattern).

Definition glob_match (pattern string : bytes) : option bool :=
  glob_loop (glob_fuel pattern string) pattern string 0 0 None 0.

(** ** The pattern language *)

(** The items of a class as closed intervals, and the position after it;
    neither depends on the character tested. *)
Fixpoint class_items (fuel : nat) (pattern : bytes) (p : nat) : list (byte * byte) * nat :=
  match fuel with
  | O => ([], p)
  | S fuel =>
      match pattern !! p with
      | None => ([], p)
      | Some x =>
          if decide (x = "]"%byte) then ([], p + 1)
          else
            let '(item, next) :=
              if decide (x = "\"%byte) then
                match pattern !! (p + 1) with Some lit => ([(lit, lit)], p + 2) | None => ([], p + 1) end
              else
                match pattern !! (p + 1), pattern !! (p + 2) with
                | Some d, Some e =>
                    if decide (d = "-"%byte /\ e <> "]"%byte) then ([(x, e)], p + 3) else ([(x, x)], p + 1)
                | _, _ => ([(x, x)], p + 1)
                end in
            let '(items, last) := class_items fuel pattern next in (item ++ items, last)
      end
  end.

Definition in_item (c : byte) (item : byte * byte) : bool :=
  let '(a, b) := item in
  bool_decide (Z.min (b2z a) (b2z b) <= b2z c <= Z.max (b2z a) (b2z b))%Z.

(** A class matches when it is negated or contains the character, not both. *)
Definition class_denotes (pattern : bytes) (open : nat) (c : byte) : bool * nat :=
  let negate := bool_decide (pattern !! (open + 1) = Some "^"%byte) in
  let '(items, next) := class_items (length pattern) pattern (open + (if negate then 2 else 1)) in
  (xorb (existsb (in_item c) items) negate, next).

(** [globs pattern p s]: the pattern from position [p] matches all of [s]. *)
Inductive globs (pattern : bytes) : nat -> bytes -> Prop :=
| globs_end p : length pattern <= p -> globs pattern p []
| globs_star_stop p s : pattern !! p = Some "*"%byte -> globs pattern (p + 1) s -> globs pattern p s
| globs_star_eat p c s : pattern !! p = Some "*"%byte -> globs pattern p s -> globs pattern p (c :: s)
| globs_any p c s : pattern !! p = Some "?"%byte -> globs pattern (p + 1) s -> globs pattern p (c :: s)
| globs_class p next c s : pattern !! p = Some "["%byte ->
    class_denotes pattern p c = (true, next) -> globs pattern next s -> globs pattern p (c :: s)
| globs_escape p c s : pattern !! p = Some "\"%byte -> pattern !! (p + 1) = Some c ->
    globs pattern (p + 2) s -> globs pattern p (c :: s)
| globs_backslash p s : pattern !! p = Some "\"%byte -> pattern !! (p + 1) = None ->
    globs pattern (p + 1) s -> globs pattern p ("\"%byte :: s)
| globs_literal p c s : pattern !! p = Some c ->
    c ∉ ["*"; "?"; "["; "\"]%byte -> globs pattern (p + 1) s -> globs pattern p (c :: s).

(** ** Classes *)

Lemma match_class_loop_spec (fuel : nat) (pattern : bytes) (c : byte) (p : nat) (matched : bool) :
  match_class_loop fuel pattern c p matched =
  (matched || existsb (in_item c) (fst (class_items fuel pattern p)), snd (class_items fuel pattern p)).
Proof.
  revert p matched. induction fuel as [|fuel IH]; intros p matched; cbn [match_class_loop class_items].
  { by rewrite orb_false_r. }
  destruct (pattern !! p) as [x|]; [|by rewrite orb_false_r].
  case_decide; [by rewrite orb_false_r|].
  assert (forall lit, in_item c (lit, lit) = bool_decide (lit = c)) as Hlit.
  { intros lit. unfold in_item. apply bool_decide_ext. split; [|intros ->; lia].
    intros. apply b2z_inj. lia. }
  assert (forall lit n, match_class_loop fuel pattern c n (if decide (lit = c) then true else matched) =
    (matched || existsb (in_item c) ((lit, lit) :: fst (class_items fuel pattern n)),
     snd (class_items fuel pattern n))) as Hone.
  { intros lit n. rewrite IH. cbn [existsb]. rewrite Hlit. f_equal.
    case_decide; case_bool_decide; try done; by destruct matched. }
  case_decide.
  - destruct (pattern !! (p + 1)) as [lit|].
    + rewrite Hone. by destruct (class_items fuel pattern (p + 2)).
    + rewrite IH. by destruct (class_items fuel pattern (p + 1)).
  - destruct (pattern !! (p + 1)) as [d|]; cbn [andb].
    2:{ rewrite bool_decide_false by done. cbn [andb]. rewrite Hone.
        by destruct (class_items fuel pattern (p + 1)). }
    destruct (pattern !! (p + 2)) as [e|]; cbn [default from_option id].
    2:{ rewrite andb_false_r, Hone. by destruct (class_items fuel pattern (p + 1)). }
    destruct (decide (d = "-"%byte /\ e <> "]"%byte)) as [Hde|Hde].
    + destruct Hde as [-> He]. rewrite !bool_decide_true by done. cbn [andb].
      assert (forall lo hi n, (forall z, Z.min (b2z x) (b2z e) <= z <= Z.max (b2z x) (b2z e) <->
          b2z lo <= z /\ z <= b2z hi)%Z ->
        match_class_loop fuel pattern c n (if decide (b2z lo <= b2z c /\ b2z c <= b2z hi)%Z then true else matched) =
        (matched || existsb (in_item c) ((x, e) :: fst (class_items fuel pattern n)),
         snd (class_items fuel pattern n))) as Hrange.
      { intros lo hi n Hz. rewrite IH. cbn [existsb]. unfold in_item at 2. f_equal.
        rewrite (bool_decide_ext _ _ (Hz (b2z c))).
        case_decide; case_bool_decide; try done; by destruct matched. }
      destruct (decide (b2z x <= b2z e)%Z); rewrite Hrange by lia; by destruct (class_items fuel pattern (p + 3)).
    + assert (bool_decide (Some d = Some "-"%byte) && bool_decide (e <> "]"%byte) = false) as ->.
      { apply andb_false_iff. destruct (decide (d = "-"%byte)); [right|left];
          apply bool_decide_false; naive_solver. }
      rewrite Hone. by destruct (class_items fuel pattern (p + 1)).
Qed.

Lemma match_class_spec (pattern : bytes) (open : nat) (c : byte) :
  match_class pattern open c = class_denotes pattern open c.
Proof.
  unfold match_class, class_denotes. rewrite match_class_loop_spec. cbn [orb].
  destruct (bool_decide _).
  - replace (open + 1 + 1) with (open + 2) by lia. destruct (class_items _ _ _) as [items next]. cbn.
    by destruct (existsb _ _).
  - destruct (class_items _ _ _) as [items next]. cbn. by destruct (existsb _ _).
Qed.

Lemma class_items_ge (fuel : nat) (pattern : bytes) (p : nat) : p <= snd (class_items fuel pattern p).
Proof.
  revert p. induction fuel as [|fuel IH]; intros p; cbn [class_items]; [cbn; lia|].
  destruct (pattern !! p) as [x|]; [|cbn; lia]. case_decide; [cbn; lia|].
  match goal with |- context [let '(item, next) := ?e in _] => destruct e as [item next] eqn:E end.
  assert (p < next) by (repeat case_match; simplify_eq; lia).
  specialize (IH next). destruct (class_items fuel pattern next) as [items last]. cbn in *. lia.
Qed.

(** ** One element at a time *)

(** The position after the element at [p] when that element matches [c]. *)
Definition elem (pattern : bytes) (p : nat) (c : byte) : option nat := advance pattern [c] p 0.

Section matching.
Context (pattern : bytes).
Implicit Types (p q n k : nat) (c : byte) (s t : bytes).

Definition is_star p : Prop := pattern !! p = Some "*"%byte.

Lemma advance_elem (string : bytes) p (i : nat) c :
  string !! i = Some c -> advance pattern string p i = elem pattern p c.
Proof. intros H. unfold elem, advance. cbn [lookup list_lookup]. by rewrite H. Qed.

Lemma elem_bounds p c n : elem pattern p c = Some n -> p < length pattern /\ p < n.
Proof.
  unfold elem, advance. destruct (pattern !! p) as [x|] eqn:Ep; [|done].
  apply lookup_lt_Some in Ep. intros H. split; [done|].
  case_decide; [injection H as <-; lia|]. case_decide.
  - rewrite match_class_spec in H. unfold class_denotes in H.
    destruct (bool_decide _);
      match type of H with context [class_items ?f ?l ?q] => pose proof (class_items_ge f l q) as Hge end;
      destruct (class_items _ _ _) as [items last]; cbn in *; destruct (xorb _ _); simplify_eq; lia.
  - repeat case_match; simplify_eq; lia.
Qed.

(** Where an element ends does not depend on the character it matched. *)
Lemma elem_next_unique p c d n m : elem pattern p c = Some n -> elem pattern p d = Some m -> n = m.
Proof.
  unfold elem, advance. destruct (pattern !! p) as [x|]; [|done].
  case_decide; [congruence|]. cbn [lookup list_lookup default from_option id]. case_decide.
  - rewrite !match_class_spec. unfold class_denotes. destruct (class_items _ _ _) as [items last]. cbn.
    destruct (xorb _ _), (xorb _ _); congruence.
  - intros. repeat case_match; simplify_eq; done.
Qed.

Lemma globs_elem p s :
  ~ is_star p ->
  globs pattern p s <->
  (s = [] /\ length pattern <= p) \/ (exists c t n, s = c :: t /\ elem pattern p c = Some n /\ globs pattern n t).
Proof.
  unfold is_star, elem, advance. intros Hst. split.
  - intros H. inversion H as [| | |? ? ? Hx|? ? ? ? Hx Hcl|? ? ? Hx Hl|? ? Hx Hl|? ? ? Hx Hl]; subst;
      [by left|congruence|congruence|right; do 3 eexists; (split; [done|]); rewrite Hx; split; [|done]..];
      cbn [lookup list_lookup default from_option id].
    + by rewrite decide_True.
    + rewrite decide_False, decide_True by done. by rewrite match_class_spec, Hcl.
    + rewrite !decide_False, decide_True by done. rewrite Hl. by rewrite decide_True.
    + rewrite !decide_False, decide_True by done. rewrite Hl. by rewrite decide_True.
    + rewrite !decide_False by set_solver. by rewrite decide_True.
  - intros [[-> Hp]|(c & t & n & -> & H & Hg)]; [by constructor|].
    destruct (pattern !! p) as [x|] eqn:Ep; [|done]. cbn [lookup list_lookup default from_option id] in H.
    case_decide; [simplify_eq; by apply globs_any|]. case_decide.
    { rewrite match_class_spec in H. destruct (class_denotes pattern p c) as [[] m] eqn:E; [|done].
      simplify_eq. by eapply globs_class. }
    case_decide.
    { destruct (pattern !! (p + 1)) as [lit|] eqn:E1; case_decide; simplify_eq.
      - by apply globs_escape.
      - by apply globs_backslash. }
    case_decide; simplify_eq. apply globs_literal; [done| |done]. set_solver.
Qed.

Lemma globs_nil p : globs pattern p [] <-> length pattern <= p \/ (is_star p /\ globs pattern (p + 1) []).
Proof.
  split.
  - intros H. inversion H; subst; [by left|by right].
  - intros [?|[??]]; [by constructor|by apply globs_star_stop].
Qed.

Lemma globs_star p s :
  is_star p -> globs pattern p s <-> exists j, j <= length s /\ globs pattern (p + 1) (drop j s).
Proof.
  intros Hst. split.
  - intros H. induction H; unfold is_star in Hst; try congruence.
    + apply lookup_lt_Some in Hst. lia.
    + exists 0. split; [lia|]. by rewrite drop_0.
    + destruct IHglobs as (j & Hj & Hg); [done|]. exists (S j). split; [cbn; lia|done].
    + assert (c = "*"%byte) as -> by congruence. set_solver.
  - intros (j & Hj & H). revert s Hj H. induction j as [|j IH]; intros s Hj H.
    + rewrite drop_0 in H. by apply globs_star_stop.
    + destruct s as [|c s]; [cbn in Hj; lia|]. apply globs_star_eat; [done|].
      apply IH; [cbn in Hj; lia|done].
Qed.

(** [seg k p q]: exactly [k] elements lie between positions [p] and [q]. *)
Inductive seg : nat -> nat -> nat -> Prop :=
| seg_nil p : seg 0 p p
| seg_cons k p c n q : ~ is_star p -> elem pattern p c = Some n -> seg k n q -> seg (S k) p q.

Lemma seg_snoc k p q c n : seg k p q -> ~ is_star q -> elem pattern q c = Some n -> seg (S k) p n.
Proof. induction 1; intros; econstructor; eauto; constructor. Qed.

Lemma seg_globs k p q s : seg k p q -> globs pattern p s -> k <= length s /\ globs pattern q (drop k s).
Proof.
  intros H. revert s. induction H as [|k p c n q Hst He H IH]; intros s Hg.
  { split; [lia|by rewrite drop_0]. }
  apply globs_elem in Hg as [[-> Hp]|(d & t & m & -> & Hd & Hg)]; [apply elem_bounds in He; lia| |done].
  assert (m = n) as -> by (by eapply elem_next_unique).
  destruct (IH t Hg). split; [cbn; lia|done].
Qed.

Lemma skip_stars_spec (fuel p : nat) :
  length pattern - p <= fuel -> length pattern <= skip_stars fuel pattern p <-> globs pattern p [].
Proof.
  revert p. induction fuel as [|fuel IH]; intros p Hf; cbn [skip_stars].
  - split; [by constructor|lia].
  - rewrite globs_nil. case_decide as Hs.
    + pose proof (lookup_lt_Some _ _ _ Hs). rewrite IH by lia. unfold is_star. split; [by auto|].
      intros [?|[_ ?]]; [lia|done].
    + unfold is_star. naive_solver.
Qed.
End matching.

(** ** The star-backtracking loop *)

Section loop.
Context (pattern string : bytes).
Implicit Types (p s star_s : nat) (star_p : option nat).

(** Matches still reachable from a loop state: from where it stands, or by
    letting the last star take more. *)
Definition reachable p s star_p star_s : Prop :=
  globs pattern p (drop s string) \/
  match star_p with
  | None => False
  | Some sp => exists j, star_s < j <= length string /\ globs pattern (sp + 1) (drop j string)
  end.

Definition loop_inv p s star_p star_s : Prop :=
  s <= length string /\
  match star_p with
  | None => star_s = 0
  | Some sp => is_star pattern sp /\ exists k, seg pattern k (sp + 1) p /\ s = star_s + k
  end.

Definition loop_measure p star_s : nat :=
  (length string - star_s) * (length pattern + 2) + (length pattern - p).

(** Any match with the last star longer reaches the present element later. *)
Lemma loop_inv_later p s sp star_s (j : nat) :
  loop_inv p s (Some sp) star_s -> star_s < j -> j <= length string ->
  globs pattern (sp + 1) (drop j string) ->
  exists i, s < i <= length string /\ globs pattern p (drop i string).
Proof.
  intros (Hs & _ & k & Hseg & ->) Hj Hjl Hg.
  destruct (seg_globs _ _ _ _ _ Hseg Hg) as [Hk Hq]. rewrite length_drop in Hk.
  rewrite drop_drop in Hq. exists (j + k). split; [lia|done].
Qed.

Lemma reachable_star p s star_p star_s :
  loop_inv p s star_p star_s -> is_star pattern p ->
  reachable p s star_p star_s <-> reachable (p + 1) s (Some p) s.
Proof.
  intros Hinv Hst. assert (globs pattern p (drop s string) <-> reachable (p + 1) s (Some p) s) as Hp.
  { unfold reachable. rewrite globs_star by done. split.
    - intros (j & Hj & Hg). rewrite length_drop in Hj. rewrite drop_drop in Hg.
      destruct j as [|j]; [left; by rewrite Nat.add_0_r in Hg|right].
      exists (s + S j). split; [destruct Hinv; lia|done].
    - intros [Hg|(j & Hj & Hg)]; [exists 0; split; [lia|by rewrite drop_0]|].
      exists (j - s). split; [rewrite length_drop; lia|]. rewrite drop_drop.
      by replace (s + (j - s)) with j by lia. }
  rewrite <-Hp. split; [|by left]. intros [?|Hr]; [done|]. destruct star_p as [sp|]; [|done].
  destruct Hr as (j & Hj & Hg).
  destruct (loop_inv_later _ _ _ _ j Hinv ltac:(lia) ltac:(lia) Hg) as (i & Hi & Hgi).
  rewrite globs_star in Hgi by done. rewrite globs_star by done.
  destruct Hgi as (l & Hl & Hgl). rewrite length_drop in Hl. rewrite drop_drop in Hgl.
  exists (i - s + l). rewrite length_drop, drop_drop. split; [lia|].
  by replace (s + (i - s + l)) with (i + l) by lia.
Qed.

Lemma glob_loop_spec (fuel p s : nat) star_p star_s :
  loop_measure p star_s < fuel -> loop_inv p s star_p star_s ->
  exists b, glob_loop fuel pattern string p s star_p star_s = Some b /\
    (b = true <-> reachable p s star_p star_s).
Proof.
  revert p s star_p star_s. induction fuel as [|fuel IH]; intros p s star_p star_s Hm Hinv; [lia|].
  cbn [glob_loop]. unfold loop_measure in *. case_decide as Hs.
  - assert (star_s <= s) as Hss.
    { destruct Hinv as [_ Hi]. destruct star_p as [sp|]; [|lia]. destruct Hi as (_ & k & _ & ->). lia. }
    destruct (decide (pattern !! p = Some "*"%byte)) as [Hst|Hst].
    + setoid_rewrite (reachable_star _ _ _ _ Hinv Hst). pose proof (lookup_lt_Some _ _ _ Hst). apply IH; [nia|].
      split; [apply Hinv|]. split; [done|]. exists 0. split; [constructor|lia].
    + destruct (lookup_lt_is_Some_2 string s Hs) as [c Hc]. rewrite (advance_elem _ _ _ _ _ Hc).
      assert (drop s string = c :: drop (s + 1) string) as Hd.
      { rewrite (drop_S _ c) by done. by rewrite Nat.add_1_r. }
      destruct (elem pattern p c) as [n|] eqn:He.
      * destruct (elem_bounds _ _ _ _ He).
        destruct (IH n (s + 1) star_p star_s) as (b & -> & Hb); [lia| |].
        { destruct Hinv as [_ Hi]. split; [lia|]. destruct star_p as [sp|]; [|done].
          destruct Hi as (? & k & Hseg & ->). split; [done|]. exists (S k).
          split; [by eapply seg_snoc|lia]. }
        exists b. split; [done|]. rewrite Hb. unfold reachable. apply or_iff_compat_r.
        rewrite Hd, (globs_elem pattern p) by exact Hst. split.
        -- intros Hg. right. by exists c, (drop (s + 1) string), n.
        -- intros [[? _]|(c' & t & m & E & Hm' & Hg)]; simplify_eq. done.
      * assert (~ globs pattern p (drop s string)) as Hno.
        { rewrite Hd, (globs_elem pattern p) by exact Hst. intros [[? _]|(c' & t & m & E & Hm' & Hg)]; simplify_eq. }
        destruct star_p as [sp|]; [|exists false; split; [done|]; unfold reachable; naive_solver].
        rewrite decide_False by lia. destruct Hinv as (_ & Hsp & k & _ & ->).
        destruct (IH (sp + 1) (star_s + 1) (Some sp) (star_s + 1)) as (b & -> & Hb); [nia| |].
        { split; [lia|]. split; [done|]. exists 0. split; [constructor|lia]. }
        exists b. split; [done|]. rewrite Hb. unfold reachable. split.
        -- intros [Hg|(j & Hj & Hg)]; right; [by exists (star_s + 1); split; [lia|]|].
           exists j. split; [lia|done].
        -- intros [?|(j & Hj & Hg)]; [done|]. destruct (decide (j = star_s + 1)) as [->|]; [by left|right].
           exists j. split; [lia|done].
  - eexists. split; [done|]. rewrite bool_decide_eq_true, skip_stars_spec by lia. unfold reachable.
    rewrite drop_ge by lia. split; [by left|]. intros [?|Hr]; [done|]. destruct star_p as [sp|]; [|done].
    destruct Hr as (j & Hj & Hg).
    destruct (loop_inv_later _ _ _ _ j Hinv ltac:(lia) ltac:(lia) Hg) as (i & Hi & _). lia.
Qed.
End loop.

(** ** Properties *)

Lemma glob_match_run (pattern string : bytes) :
  exists b, glob_match pattern string = Some b /\ (b = true <-> globs pattern 0 string).
Proof.
  destruct (glob_loop_spec pattern string (glob_fuel pattern string) 0 0 None 0) as (b & H & Hb).
  - unfold loop_measure, glob_fuel. nia.
  - split; [lia|done].
  - exists b. split; [done|]. rewrite Hb. unfold reachable. rewrite drop_0. naive_solver.
Qed.

(** The pattern that matches everything. *)
Lemma globs_all (string : bytes) : globs (bs "*") 0 string.
Proof.
  induction string as [|c s IH]; [apply globs_star_stop; [done|]; by constructor|]. by apply globs_star_eat.
Qed.

(** C20: The matcher always stops within its bound, and answers whether the
    whole string belongs to the language of the pattern. *)
Theorem glob_match_decides (pattern string : bytes) :
  exists b, glob_match pattern string = Some b /\ (b = true <-> globs pattern 0 string).
Proof. apply glob_match_run. Qed.
