(* ===== verification/Atod.v ===== *)
(** * Number parsing: doubles ([string2d] of [src/util/strnum.rs])

    The parser of Rust's [f64] ([str::parse]), whose grammar and rounding the
    Standard Library documents: a sign, digits with at most one point, an
    exponent, or the words [inf], [infinity] and [nan]; the value is the double
    nearest to the decimal, ties to even.  The checks Redis adds are around
    it. *)
From Stdlib Require Import Floats.SpecFloat.
From S2P Require Import Prelude Crc Strnum Dtoa.
Open Scope Z_scope.

(** [parse_digits]: the digits in front, as a number, and how many. *)
Fixpoint parse_digits (m : Z) (s : bytes) : Z * nat * bytes :=
  match s with
  | c :: s' => if is_digit c then let '(m, n, r) := parse_digits (10 * m + digit_val c) s' in (m, S n, r) else (m, O, s)
  | [] => (m, O, [])
  end.

(** The digits of an exponent; further digits of one above 2^16 are dropped. *)
Fixpoint exponent_digits (e : Z) (s : bytes) : Z * bytes :=
  match s with
  | c :: s' => if is_digit c then exponent_digits (if bool_decide (e < 65536) then 10 * e + digit_val c else e) s' else (e, s)
  | [] => (e, [])
  end.
Definition parse_sign (s : bytes) : bool * bytes :=
  match s with
  | "-"%byte :: s => (true, s)
  | "+"%byte :: s => (false, s)
  | _ => (false, s)
  end.
Definition parse_scientific (s : bytes) : option (Z * bytes) :=
  let '(neg, s) := parse_sign s in
  match s with
  | c :: _ => if is_digit c then let '(e, s) := exponent_digits 0 s in Some (if neg : bool then - e else e, s) else None
  | [] => None
  end.

(** A decimal [m * 10^e], from the whole of [s]. *)
Definition parse_number (s : bytes) : option (Z * Z) :=
  let '(m, n, s) := parse_digits 0 s in
  let '(m, k, s) := match s with "."%byte :: s => parse_digits m s | _ => (m, O, s) end in
  if decide (n + k = 0)%nat then None
  else
    match s with
    | [] => Some (m, - Z.of_nat k)
    | c :: s =>
        if bool_decide (c = "e"%byte \/ c = "E"%byte) then
          match parse_scientific s with
          | Some (e, []) => Some (m, e - Z.of_nat k)
          | _ => None
          end
        else None
    end.

Definition parse_inf_nan (s : bytes) (neg : bool) : option f64 :=
  if eq_ignore_ascii_case s (bs "inf") || eq_ignore_ascii_case s (bs "infinity") then Some (S754_infinity neg)
  else if eq_ignore_ascii_case s (bs "nan") then Some S754_nan
  else None.

(** The same decimal with the zeros at its end moved to the exponent. *)
Fixpoint strip_tens (fuel : nat) (m e : Z) : Z * Z :=
  match fuel with
  | O => (m, e)
  | S fuel => if bool_decide (m mod 10 = 0) then strip_tens fuel (m / 10) (e + 1) else (m, e)
  end.

(** A whole number, and a ratio, each rounded once. *)
Definition round_whole (neg : bool) (n : Z) : f64 :=
  match n with Zpos n => binary_round F64_PREC F64_EMAX neg n 0 | _ => S754_zero neg end.
Definition round_ratio (neg : bool) (n d : Z) : f64 :=
  match n, d with
  | Zpos n, Zpos d =>
      let '(mz, ez, lz) := SFdiv_core_binary F64_PREC F64_EMAX (Zpos n) 0 (Zpos d) 0 in binary_round_aux F64_PREC F64_EMAX neg mz ez lz
  | _, _ => S754_zero neg
  end.

(** The double nearest to [m * 10^e], with its sign. *)
Definition round_decimal (neg : bool) (m e : Z) : f64 :=
  if bool_decide (m = 0) then S754_zero neg
  else
    let '(m, e) := strip_tens (Z.to_nat (Z.log2 m)) m e in
    if bool_decide (0 <= e) then round_whole neg (m * 10 ^ e) else round_ratio neg m (10 ^ (- e)).

(** [str::parse::<f64>] on the bytes of the text. *)
Definition parse_f64 (text : bytes) : option f64 :=
  let '(neg, s) := parse_sign text in
  match s with
  | [] => None
  | _ =>
      match parse_number s with
      | Some (m, e) => Some (round_decimal neg m e)
      | None => parse_inf_nan s neg
      end
  end.

Definition is_ascii_whitespace (c : byte) : bool := bool_decide (b2z c ∈ [9; 10; 12; 13; 32]).

(** What is not UTF-8 has bytes the parser refuses anyway. *)
Definition string2d (s : bytes) : option f64 :=
  match s with
  | [] => None
  | c :: _ =>
      if is_ascii_whitespace c then None
      else if match list.last s with Some c => is_ascii_whitespace c | None => false end then None
      else
        match parse_f64 s with
        | Some v => if is_nan v then None else Some v
        | None => None
        end
  end.

Definition string2d_finite (s : bytes) : option f64 :=
  match string2d s with
  | Some v => if is_finite v then Some v else None
  | None => None
  end.

(** The values the source's own test captures. *)
Example string2d_values :
  string2d (bs "1") = Some (f64_of_i64 1) /\ string2d (bs "3.0e3") = Some (f64_of_i64 3000) /\
  string2d (bs "-1.5") = Some (S754_finite true 6755399441055744 (-52)) /\ string2d (bs ".5") = Some (S754_finite false 4503599627370496 (-53)) /\
  string2d (bs "0.1") = Some (S754_finite false 7205759403792794 (-56)) /\ string2d (bs "1e400") = Some (S754_infinity false) /\
  string2d (bs "5e-324") = Some (S754_finite false 1 (-1074)) /\ string2d (bs "-Infinity") = Some (S754_infinity true) /\
  string2d (bs "nan") = None /\ string2d (bs "1 ") = None /\ string2d (bs "1.0abc") = None /\ string2d (bs "") = None /\
  string2d (bs "9007199254740993") = Some (S754_finite false 4503599627370496 1).
Proof. vm_compute. repeat split. Qed.

(** ** Facts *)

Lemma string2d_not_nan s v : string2d s = Some v -> is_nan v = false.
Proof. unfold string2d. intros Hs. repeat case_match; simplify_eq/=; done. Qed.

Lemma string2d_finite_ok s v : string2d_finite s = Some v -> is_finite v = true.
Proof. unfold string2d_finite. intros Hs. repeat case_match; simplify_eq/=; done. Qed.

(** ** Rounding sees the number only *)

Lemma strip_tens_spec fuel m e : 0 < m -> m < 2 ^ (Z.of_nat fuel + 1) ->
  let '(m', e') := strip_tens fuel m e in 0 < m' /\ m' mod 10 <> 0 /\ e <= e' /\ m = m' * 10 ^ (e' - e).
Proof.
  revert m e. induction fuel as [|fuel IH]; intros m e Hm Hf; cbn [strip_tens].
  { replace m with 1 by (simpl in Hf; lia). rewrite Z.sub_diag. split_and!; [lia|done|lia|lia]. }
  destruct (bool_decide (m mod 10 = 0)) eqn:Em.
  - apply bool_decide_eq_true_1 in Em. pose proof (Z.div_mod m 10 ltac:(lia)) as Hd.
    assert (Hm' : 0 < m / 10) by lia. specialize (IH (m / 10) (e + 1) Hm').
    replace (Z.of_nat (S fuel)) with (Z.of_nat fuel + 1) in Hf by lia.
    destruct (strip_tens fuel (m / 10) (e + 1)) as [m' e']. destruct IH as (H1 & H2 & H3 & H4).
    { rewrite (Z.pow_add_r 2 (Z.of_nat fuel + 1) 1) in Hf by lia. change (2 ^ 1) with 2 in Hf. lia. }
    split_and!; [done|done|lia|]. rewrite Hd, Em, Z.add_0_r, H4 at 1. replace (e' - e) with (1 + (e' - (e + 1))) by lia. rewrite Z.pow_add_r by lia. ring.
  - apply bool_decide_eq_false_1 in Em. rewrite Z.sub_diag. split_and!; [done|done|lia|lia].
Qed.

(** Two decimals without zeros at the end are equal only if they are the same. *)
Lemma stripped_unique m1 e1 m2 e2 : m1 mod 10 <> 0 -> m2 mod 10 <> 0 -> dec_eq m1 e1 m2 e2 -> m1 = m2 /\ e1 = e2.
Proof.
  assert (Hle : forall m1 e1 m2 e2, m1 mod 10 <> 0 -> e1 < e2 -> dec_eq m1 e1 m2 e2 -> False).
  { clear. intros m1 e1 m2 e2 Hm He (K & HK1 & HK2 & E). apply Hm.
    replace (e2 + K) with ((e1 + K) + (1 + (e2 - e1 - 1))) in E by lia. rewrite (Z.pow_add_r 10 (e1 + K)), (Z.pow_add_r 10 1) in E by lia.
    assert (E' : m1 = m2 * 10 ^ (e2 - e1 - 1) * 10).
    { apply (Z.mul_reg_r _ _ (10 ^ (e1 + K))); [pose proof (Z.pow_pos_nonneg 10 (e1 + K)); lia|].
      rewrite E. ring. }
    rewrite E'. by apply Z_mod_mult. }
  intros H1 H2 Hd. destruct (Z.lt_trichotomy e1 e2) as [He|[<-|He]]; [by destruct (Hle m1 e1 m2 e2)| |].
  - split; [|done]. destruct Hd as (K & HK & _ & E). apply Z.mul_reg_r in E; [done|]. pose proof (Z.pow_pos_nonneg 10 (e1 + K)). lia.
  - destruct (Hle m2 e2 m1 e1); [done|lia|]. destruct Hd as (K & ? & ? & E). by exists K.
Qed.

Lemma dec_eq_sym m1 e1 m2 e2 : dec_eq m1 e1 m2 e2 -> dec_eq m2 e2 m1 e1.
Proof. intros (K & ? & ? & E). by exists K. Qed.
Lemma dec_eq_trans m1 e1 m2 e2 m3 e3 : dec_eq m1 e1 m2 e2 -> dec_eq m2 e2 m3 e3 -> dec_eq m1 e1 m3 e3.
Proof.
  intros (K & H1 & H2 & E) (L & H3 & H4 & F). exists (Z.max K L). split_and!; [lia..|].
  replace (e1 + Z.max K L) with ((e1 + K) + (Z.max K L - K)) by lia. replace (e3 + Z.max K L) with ((e3 + L) + (Z.max K L - L)) by lia.
  rewrite (Z.pow_add_r 10 (e1 + K)), (Z.pow_add_r 10 (e3 + L)), !Z.mul_assoc, E, <-F by lia.
  rewrite <-!Z.mul_assoc, <-!Z.pow_add_r by lia. do 2 f_equal. lia.
Qed.
Lemma dec_eq_scaled m e k : 0 <= k -> dec_eq (m * 10 ^ k) e m (e + k).
Proof. intros Hk. exists (Z.abs e). split_and!; [lia..|]. rewrite <-Z.mul_assoc, <-Z.pow_add_r by lia. do 2 f_equal. lia. Qed.

Lemma dec_eq_zero m1 e1 m2 e2 : dec_eq m1 e1 m2 e2 -> m1 = 0 -> m2 = 0.
Proof. intros (K & ? & ? & E) ->. rewrite Z.mul_0_l in E. pose proof (Z.pow_pos_nonneg 10 (e2 + K)). symmetry in E. apply Z.mul_eq_0 in E. lia. Qed.

Lemma round_decimal_eq neg m1 e1 m2 e2 : 0 <= m1 -> 0 <= m2 -> dec_eq m1 e1 m2 e2 -> round_decimal neg m1 e1 = round_decimal neg m2 e2.
Proof.
  intros H1 H2 Hd. pose proof (dec_eq_zero _ _ _ _ Hd) as Z12. pose proof (dec_eq_zero _ _ _ _ (dec_eq_sym _ _ _ _ Hd)) as Z21.
  unfold round_decimal. destruct (decide (m1 = 0)) as [Z1|Z1]; [by rewrite !bool_decide_eq_true_2 by auto|].
  rewrite !bool_decide_eq_false_2 by (clear -Z1 Z21; auto). assert (Z2 : m2 <> 0) by (clear -Z1 Z21; auto).
  assert (Hfuel : forall m, 0 < m -> m < 2 ^ (Z.of_nat (Z.to_nat (Z.log2 m)) + 1)).
  { intros m Hm. rewrite Z2Nat.id by apply Z.log2_nonneg. by apply Z.log2_spec. }
  pose proof (strip_tens_spec (Z.to_nat (Z.log2 m1)) m1 e1 ltac:(lia) (Hfuel m1 ltac:(lia))) as S1.
  pose proof (strip_tens_spec (Z.to_nat (Z.log2 m2)) m2 e2 ltac:(lia) (Hfuel m2 ltac:(lia))) as S2.
  destruct (strip_tens _ m1 e1) as [m1' e1'], (strip_tens _ m2 e2) as [m2' e2'].
  destruct S1 as (A1 & B1 & C1 & D1), S2 as (A2 & B2 & C2 & D2).
  destruct (stripped_unique m1' e1' m2' e2' B1 B2) as [-> ->]; [|done].
  pose proof (dec_eq_scaled m1' e1 (e1' - e1) ltac:(lia)) as T1. pose proof (dec_eq_scaled m2' e2 (e2' - e2) ltac:(lia)) as T2.
  rewrite <-D1 in T1. rewrite <-D2 in T2. replace (e1 + (e1' - e1)) with e1' in T1 by lia. replace (e2 + (e2' - e2)) with e2' in T2 by lia.
  exact (dec_eq_trans _ _ _ _ _ _ (dec_eq_sym _ _ _ _ T1) (dec_eq_trans _ _ _ _ _ _ Hd T2)).
Qed.

(** ** What is printed is read back *)

Definition stops (r : bytes) : Prop := match r with c :: _ => is_digit c = false | [] => True end.

Lemma parse_digits_spec m d r : digits d -> stops r ->
  parse_digits m (d ++ r) = (foldl (fun v c => v * 10 + digit_val c) m d, length d, r).
Proof.
  intros Hd Hr. revert m. induction Hd as [|c d Hc Hd IH]; intros m; cbn [app parse_digits].
  - destruct r as [|c r]; [done|]. cbn in Hr. cbn [parse_digits]. by rewrite Hr.
  - rewrite Hc, IH. cbn [foldl length]. by rewrite (Z.mul_comm 10 m).
Qed.

Lemma foldl_digits_le d v : digits d -> 0 <= v -> v <= foldl (fun v c => v * 10 + digit_val c) v d.
Proof.
  intros Hd. revert v. induction Hd as [|c d Hc Hd IH]; intros v Hv; cbn [foldl]; [lia|].
  apply is_digit_spec in Hc. specialize (IH (v * 10 + digit_val c)). unfold digit_val in *. lia.
Qed.

Lemma exponent_digits_spec d e : digits d -> 0 <= e -> foldl (fun v c => v * 10 + digit_val c) e d <= 65535 ->
  exponent_digits e d = (foldl (fun v c => v * 10 + digit_val c) e d, []).
Proof.
  intros Hd. revert e. induction Hd as [|c d Hc Hd IH]; intros e He Hb; cbn [exponent_digits]; [done|]. rewrite Hc. cbn [foldl] in *.
  assert (0 <= digit_val c) by (apply is_digit_spec in Hc; unfold digit_val; lia).
  pose proof (foldl_digits_le d (e * 10 + digit_val c) Hd ltac:(lia)). rewrite bool_decide_eq_true_2 by lia.
  rewrite (Z.mul_comm 10 e). apply IH; lia.
Qed.

Lemma scientific_spec ex et : exp_text ex et -> Z.abs ex <= 65535 ->
  match et with [] => ex = 0 | c :: s => (c = "e"%byte \/ c = "E"%byte) /\ parse_scientific s = Some (ex, []) end.
Proof.
  assert (Hd : forall c d, is_digit c = true -> digits d -> Z.abs (dec_value (c :: d)) <= 65535 -> exponent_digits 0 (c :: d) = (dec_value (c :: d), [])).
  { intros c d Hc Hd Hb. apply exponent_digits_spec; [by constructor|done|]. unfold dec_value in Hb. lia. }
  assert (Hnosign : forall c d, is_digit c = true -> parse_sign (c :: d) = (false, c :: d)) by (intros [] d; done).
  intros Hx Hb. destruct Hx as [|ed Hne Hx|ed Hne Hx|ed Hne Hx]; [done|..]; split; try (by left); destruct ed as [|c d]; try done;
    apply Forall_cons in Hx as [Hc Hx]; unfold parse_scientific.
  - by rewrite (Hnosign c d Hc), Hc, (Hd c d Hc Hx Hb).
  - change (parse_sign _) with (false, c :: d). cbv beta iota. by rewrite Hc, (Hd c d Hc Hx Hb).
  - change (parse_sign _) with (true, c :: d). cbv beta iota. rewrite Z.abs_opp in Hb. by rewrite Hc, (Hd c d Hc Hx Hb).
Qed.

(** The parser reads every literal, in whatever layout. *)
Lemma parse_literal neg ip fp ex s : literal neg ip fp ex s -> Z.abs ex <= 65535 ->
  parse_f64 s = Some (round_decimal neg (dec_value (ip ++ fp)) (ex - blen fp)).
Proof.
  intros [et Hne Hi Hf Hx] Hb. unfold parse_f64.
  assert (Es : parse_sign (sign_text neg ++ ip ++ point_text fp ++ et) = (neg, ip ++ point_text fp ++ et)).
  { destruct neg; [done|]. destruct ip as [|c ip]; [done|]. apply Forall_cons in Hi as [Hc _]. by destruct c. }
  rewrite Es. clear Es.
  pose proof (scientific_spec ex et Hx Hb) as Hs.
  assert (Hstop : stops et) by (destruct et as [|c et]; [done|]; destruct Hs as [[-> | ->] _]; done).
  assert (Hn : parse_number (ip ++ point_text fp ++ et) = Some (dec_value (ip ++ fp), ex - blen fp)).
  2: { rewrite Hn. by destruct (ip ++ point_text fp ++ et). }
  unfold parse_number. rewrite parse_digits_spec by (done || (destruct fp; done)).
  assert (Hip : (0 < length ip)%nat) by (destruct ip; [done|simpl; lia]).
  assert (E2 : match point_text fp ++ et with "."%byte :: s => parse_digits (foldl (fun v c => v * 10 + digit_val c) 0 ip) s
    | _ => (foldl (fun v c => v * 10 + digit_val c) 0 ip, O, point_text fp ++ et) end = (dec_value (ip ++ fp), length fp, et)).
  { unfold point_text. destruct fp as [|c fp].
    - rewrite app_nil_r. cbn [app]. destruct et as [|c et]; [done|]. by destruct Hs as [[-> | ->] _].
    - cbn [app]. change (c :: fp ++ et) with ((c :: fp) ++ et). rewrite parse_digits_spec by done. unfold dec_value. by rewrite foldl_app. }
  rewrite E2. clear E2. rewrite decide_False by lia. destruct et as [|c et]; [by subst ex|].
  destruct Hs as [Hc ->]. by rewrite bool_decide_eq_true_2 by done.
Qed.

Lemma literal_nonempty neg ip fp ex s : literal neg ip fp ex s -> s <> [].
Proof. intros [et Hne _ _ _] E. apply app_nil in E as [_ [? _]%app_nil]. done. Qed.

Lemma literal_ends neg ip fp ex s : literal neg ip fp ex s ->
  exists c, head s = Some c /\ is_ascii_whitespace c = false /\ exists c', list.last s = Some c' /\ is_ascii_whitespace c' = false.
Proof.
  intros Hl. pose proof (literal_num neg ip fp ex s Hl) as Hn.
  assert (Hw : forall c, num_char c -> is_ascii_whitespace c = false).
  { intros c. unfold num_char. by destruct c. }
  destruct s as [|c s]; [by apply literal_nonempty in Hl|].
  exists c. split; [done|]. split; [apply Hw; by inversion Hn|].
  destruct (list.last (c :: s)) as [c'|] eqn:El; [|by apply last_None in El]. exists c'. split; [done|]. apply Hw.
  rewrite Forall_forall in Hn. by apply Hn, last_Some_elem_of.
Qed.

Lemma string2d_literal neg ip fp ex s v : literal neg ip fp ex s -> parse_f64 s = Some v -> is_nan v = false -> string2d s = Some v.
Proof.
  intros Hl Hp Hn. destruct (literal_ends _ _ _ _ _ Hl) as (c & Hc & Hw & c' & Hc' & Hw'). unfold string2d.
  destruct s as [|c0 s]; [done|]. injection Hc as ->. by rewrite Hw, Hc', Hw', Hp, Hn.
Qed.

Lemma round_decimal_whole neg n : 0 < n -> round_decimal neg n 0 = round_whole neg n.
Proof.
  intros Hn. unfold round_decimal. rewrite bool_decide_eq_false_2 by lia.
  pose proof (strip_tens_spec (Z.to_nat (Z.log2 n)) n 0 Hn) as Hs. destruct (strip_tens _ n 0) as [m e].
  destruct Hs as (_ & _ & He & E); [rewrite Z2Nat.id by apply Z.log2_nonneg; by apply Z.log2_spec|].
  rewrite Z.sub_0_r in E. by rewrite bool_decide_eq_true_2, <-E.
Qed.

Lemma literal_decimal l : literal (bool_decide (l < 0)) (decimal (Z.abs l)) [] 0 (decimal l).
Proof.
  destruct (decimal_head_digit (Z.abs l) ltac:(lia)) as (c & t & E & _).
  assert (Hl : literal (bool_decide (l < 0)) (decimal (Z.abs l)) [] 0 (sign_text (bool_decide (l < 0)) ++ decimal (Z.abs l))).
  { apply literal_plain; [by rewrite E|]. apply decimal_nonneg. lia. }
  destruct (decide (l < 0)) as [Hn|Hn].
  - rewrite bool_decide_eq_true_2 in * by done. rewrite (decimal_neg l Hn). by replace (Z.abs l) with (- l) in * by lia.
  - rewrite bool_decide_eq_false_2 in * by done. by replace (Z.abs l) with l in * by lia.
Qed.

(** An integer's spelling is the double nearest to it. *)
Lemma parse_decimal l : l <> 0 -> parse_f64 (decimal l) = Some (f64_of_i64 l).
Proof.
  intros Hl. rewrite (parse_literal _ _ _ _ _ (literal_decimal l)) by lia. rewrite app_nil_r.
  destruct (decimal_nonneg (Z.abs l) ltac:(lia)) as (_ & -> & _). change (0 - blen []) with 0. rewrite round_decimal_whole by lia.
  destruct l; [done|reflexivity..].
Qed.

Lemma SFeqb_eq a b : SFeqb a b = true -> SFeqb b (S754_zero false) = false -> a = b.
Proof.
  unfold SFeqb. destruct a as [sa|sa| |sa ma ea], b as [sb|sb| |sb mb eb]; try done; cbn [SFcompare]; try by destruct sa, sb.
  destruct sa, sb; try done; (destruct (Z.compare_spec ea eb); try done; subst eb);
    change (Pos.compare_cont Eq ma mb) with (ma ?= mb)%positive; destruct (Pos.compare_spec ma mb); try done; by subst.
Qed.

(** C36: What [d2string] prints, [string2d] reads back as the same double, bit
    for bit: the integers, the infinities and both zeros, and every other
    double whose shortest digits [ryu] gives, in whichever of its layouts
    [emit_digits] puts them. *)
Theorem d2string_round_trip `{ItoaLaws, RyuLaws} (v : f64) :
  is_nan v = false ->
  (is_finite v = true -> double2ll v = None -> parse_f64 (ryu_format_finite v) = Some v) ->
  string2d (d2string v) = Some v.
Proof.
  intros Hn Hr. unfold d2string. rewrite Hn. destruct (is_infinite v) eqn:Ei.
  { destruct v as [|[]| |]; try done; vm_compute; reflexivity. }
  destruct (SFeqb v (S754_zero false)) eqn:Ez.
  { destruct v as [[]|[]| |[]]; try done; vm_compute; reflexivity. }
  assert (Hfin : is_finite v = true) by (unfold is_finite; by rewrite Hn, Ei).
  destruct (double2ll v) as [l|] eqn:El.
  - apply double2ll_exact in El as [Heq Hl]. apply SFeqb_eq in Heq; [|done].
    rewrite itoa_decimal by (unfold I64_MIN, I64_MAX, U64_MAX in *; lia).
    apply (string2d_literal _ _ _ _ _ _ (literal_decimal l)); [|done]. rewrite parse_decimal; [by rewrite Heq|]. intros ->. by subst v.
  - specialize (Hr Hfin eq_refl). destruct (ryu_format_text v Hfin) as (ip & fp & ex & Hs & H1 & H2 & H3); [by intros ->..|].
    destruct (emit_ryu _ ip fp ex _ Hs H1 H2 H3) as (ip' & fp' & ex' & Hlit & _ & Hex & Hval).
    apply (string2d_literal _ _ _ _ _ _ Hlit); [|done]. rewrite (parse_literal _ _ _ _ _ Hlit) by lia.
    rewrite (parse_literal _ _ _ _ _ Hs) in Hr by lia. rewrite <-Hr. f_equal.
    assert (Hd : forall ip fp s ex, literal (is_sign_negative v) ip fp ex s -> 0 <= dec_value (ip ++ fp)).
    { intros i f s x [et _ Hi Hf _]. change (0 <= dec_value (i ++ f)). pose proof (foldl_digits_le (i ++ f) 0 ltac:(by apply Forall_app) ltac:(done)). done. }
    symmetry. apply round_decimal_eq; [by eapply Hd..|done].
Qed.

(** ** Witness *)

Section witnesses.
#[local] Existing Instances itoa_model itoa_model_laws ryu_model ryu_model_laws.

Definition one_and_a_half : f64 := S754_finite true 6755399441055744 (-52).
Lemma d2string_round_trip_witness : string2d (bs "-1.5") = Some one_and_a_half /\ string2d (bs "-42") = Some (f64_of_i64 (-42)).
Proof.
  split.
  - assert (E : d2string one_and_a_half = bs "-1.5") by (vm_compute; reflexivity). rewrite <-E.
    apply (d2string_round_trip one_and_a_half eq_refl). intros _ _. vm_compute. reflexivity.
  - assert (E : d2string (f64_of_i64 (-42)) = bs "-42") by (vm_compute; reflexivity). rewrite <-E.
    apply (d2string_round_trip (f64_of_i64 (-42)) eq_refl). intros _ E'. vm_compute in E'. discriminate E'.
Defined.
End witnesses.
