(* ===== verification/Parser.v ===== *)
(** * The RESP request parser ([src/resp/parser.rs])

    The resumable scan as written: one [State] per frame element, offsets
    relative to the start of the read buffer, the argument ranges collected so
    far.  A [usize] that comes from the client is a [Z]; an offset into the
    buffer is a [nat].  [None] as the result of [parse] stands for a Rust panic
    or for exhausted fuel; [parse_total] excludes both. *)
From S2P Require Import Prelude Strnum.
Open Scope nat_scope.

Definition INLINE_MAX_SIZE : Z := 65536.
Definition MULTIBULK_MAX : Z := 1048576.
Definition PROTO_MAX_BULK_LEN : Z := 536870912.

Inductive ProtoError :=
| InvalidMultibulkLength | InvalidBulkLength | ExpectedDollar (c : byte) | TooBigInline
| UnbalancedQuotes | TooBigMbulkCount | TooBigBulkCount.

Inductive Parsed := Command (args : list bytes) | Empty | Incomplete.

Inductive State :=
| Start
| MbulkHeader (scanned : nat)
| BulkHeader (pos : nat) (remaining : Z) (scanned : nat)
| BulkBody (start : nat) (len remaining : Z)
| Inline (scanned : nat).

Record RequestParser := {
  proto_max_bulk_len : Z;
  state : State;
  ranges : list (nat * nat)
}.

Definition parser_new (proto_max_bulk_len : Z) : RequestParser :=
  {| proto_max_bulk_len := proto_max_bulk_len; state := Start; ranges := [] |}.

Definition set_proto_max_bulk_len (v : Z) (p : RequestParser) : RequestParser :=
  {| proto_max_bulk_len := v; state := state p; ranges := ranges p |}.

Definition with_state (s : State) (p : RequestParser) : RequestParser :=
  {| proto_max_bulk_len := proto_max_bulk_len p; state := s; ranges := ranges p |}.

Definition reset (p : RequestParser) : RequestParser :=
  {| proto_max_bulk_len := proto_max_bulk_len p; state := Start; ranges := [] |}.

Definition is_mid_frame (p : RequestParser) : bool :=
  match state p with Start => false | _ => true end.

Definition scan_position (p : RequestParser) : Z :=
  match state p with
  | Start => 0
  | MbulkHeader scanned | Inline scanned => Z.of_nat scanned
  | BulkHeader pos _ _ => Z.of_nat pos
  | BulkBody start len _ => Z.min U64_MAX (Z.of_nat start + len)
  end.

(** ** Header lines *)

Inductive Line := Found (start end_ next : nat) | LineIncomplete (resume : nat) | Malformed.

(** [checked_*] on an [i64]. *)
Definition checked_i64 (z : Z) : option Z := if decide (I64_MIN <= z <= I64_MAX)%Z then Some z else None.

Fixpoint parse_i64_digits (v : Z) (s : bytes) : option Z :=
  match s with
  | [] => Some v
  | c :: s =>
      if negb (is_digit c) then None
      else
        m ← checked_i64 (v * 10);
        v ← checked_i64 (m + digit_val c);
        parse_i64_digits v s
  end.

Definition parse_i64_strict (s : bytes) : option Z :=
  match s with
  | [] => None
  | c :: rest =>
      let '(neg, digits) := if decide (c = "-"%byte) then (true, rest) else (false, s) in
      match digits with
      | [] => None
      | _ => v ← parse_i64_digits 0 digits; Some (if neg then - v else v)%Z
      end
  end.

(** ** Inline commands *)

Definition is_ascii_whitespace (c : byte) : bool :=
  bool_decide (c ∈ [x20; x09; x0a; x0c; x0d]).

Definition hex_val (c : byte) : option Z :=
  let z := b2z c in
  if decide (48 <= z <= 57)%Z then Some (z - 48)%Z
  else if decide (97 <= z <= 102)%Z then Some (z - 97 + 10)%Z
  else if decide (65 <= z <= 70)%Z then Some (z - 65 + 10)%Z
  else None.

(** What an escaped character other than [\xHH] stands for. *)
Definition unescape (esc : byte) : byte :=
  if decide (esc = "n"%byte) then x0a
  else if decide (esc = "r"%byte) then x0d
  else if decide (esc = "t"%byte) then x09
  else if decide (esc = "b"%byte) then x08
  else if decide (esc = "a"%byte) then x07
  else esc.

(** The character after a closing quote must be a separator. *)
Definition closing_ok (rest : bytes) : bool :=
  match rest with [] => true | c :: _ => is_ascii_whitespace c end.

(** [\xHH] at the head of [line]: the byte and what follows it. *)
Definition hex_escape (line : bytes) : option (byte * bytes) :=
  match line with
  | bs :: x :: h1 :: h2 :: rest =>
      if decide (bs = "\"%byte /\ x = "x"%byte) then
        a ← hex_val h1; b ← hex_val h2;
        Some (z2b (Z.lor (wrapu 8 (Z.shiftl a 4)) b), rest)
      else None
  | _ => None
  end.

(** After an opening double quote: the unescaped text and the rest of the line. *)
Fixpoint double_quoted (fuel : nat) (line buf : bytes) : option (bytes * bytes) :=
  match fuel with
  | O => None
  | S fuel =>
      match line with
      | [] => None
      | c :: rest =>
          if decide (c = "\"%byte) then
            match rest with
            | [] => None
            | esc :: rest' =>
                match hex_escape line with
                | Some (b, rest'') => double_quoted fuel rest'' (buf ++ [b])
                | None => double_quoted fuel rest' (buf ++ [unescape esc])
                end
            end
          else if decide (c = x22) then if closing_ok rest then Some (buf, rest) else None
          else double_quoted fuel rest (buf ++ [c])
      end
  end.

Fixpoint single_quoted (fuel : nat) (line buf : bytes) : option (bytes * bytes) :=
  match fuel with
  | O => None
  | S fuel =>
      match line with
      | [] => None
      | c :: rest =>
          if decide (c = "\"%byte /\ rest !! 0 = Some "'"%byte) then
            single_quoted fuel (drop 1 rest) (buf ++ ["'"%byte])
          else if decide (c = "'"%byte) then if closing_ok rest then Some (buf, rest) else None
          else single_quoted fuel rest (buf ++ [c])
      end
  end.

(** The longest prefix of characters satisfying [f], and the rest. *)
Fixpoint span (f : byte -> bool) (l : bytes) : bytes * bytes :=
  match l with
  | [] => ([], [])
  | c :: l' => if f c then let '(a, b) := span f l' in (c :: a, b) else ([], l)
  end.

Fixpoint split_inline_loop (fuel : nat) (line : bytes) (out : list bytes) : ProtoError + list bytes :=
  match fuel with
  | O => inr out
  | S fuel =>
      match snd (span is_ascii_whitespace line) with
      | [] => inr out
      | c :: rest =>
          if decide (c = x22) then
            match double_quoted (S (length rest)) rest [] with
            | None => inl UnbalancedQuotes
            | Some (arg, rest) => split_inline_loop fuel rest (out ++ [arg])
            end
          else if decide (c = "'"%byte) then
            match single_quoted (S (length rest)) rest [] with
            | None => inl UnbalancedQuotes
            | Some (arg, rest) => split_inline_loop fuel rest (out ++ [arg])
            end
          else
            let '(arg, rest) := span (fun c => negb (is_ascii_whitespace c)) (c :: rest) in
            split_inline_loop fuel rest (out ++ [arg])
      end
  end.

Definition split_inline (line : bytes) : ProtoError + list bytes :=
  split_inline_loop (S (length line)) line [].

(** ** The state machine *)

Section parser.
Context `{Memchr}.

Definition line_end (buf : bytes) (from scanned : nat) : Line :=
  let scan_from := Nat.max scanned from in
  match slice_from scan_from buf with
  | None => LineIncomplete (length buf)
  | Some rest =>
      match memchr x0d rest with
      | None => LineIncomplete (length buf)
      | Some rel =>
          let cr := scan_from + rel in
          match buf !! (cr + 1) with
          | None => LineIncomplete cr
          | Some c => if decide (c = x0a) then Found from cr (cr + 2) else Malformed
          end
      end
  end.

(** One round of the loop: go on with a new state, or return. *)
Inductive Step :=
| Next (p : RequestParser)
| Return (p : RequestParser) (buf : bytes) (r : ProtoError + Parsed)
| Panic.

Definition step_start (p : RequestParser) (buf : bytes) : Step :=
  match buf with
  | [] => Return p buf (inr Incomplete)
  | c :: _ =>
      if decide (c = "*"%byte) then Next (with_state (MbulkHeader 1) p)
      else Next (with_state (Inline 0) p)
  end.

Definition step_mbulk_header (p : RequestParser) (buf : bytes) (scanned : nat) : Step :=
  match line_end buf 1 scanned with
  | LineIncomplete next =>
      if decide (INLINE_MAX_SIZE < blen buf)%Z then Return p buf (inl TooBigMbulkCount)
      else Return (with_state (MbulkHeader next) p) buf (inr Incomplete)
  | Malformed => Return p buf (inl InvalidMultibulkLength)
  | Found start end_ next =>
      match parse_i64_strict (default [] (slice start end_ buf)) with
      | None => Return p buf (inl InvalidMultibulkLength)
      | Some count =>
          if decide (MULTIBULK_MAX < count)%Z then Return p buf (inl InvalidMultibulkLength)
          else if decide (count <= 0)%Z then Return (reset p) (drop next buf) (inr Empty)
          else Next {| proto_max_bulk_len := proto_max_bulk_len p;
                       state := BulkHeader next count next; ranges := [] |}
      end
  end.

Definition step_bulk_header (p : RequestParser) (buf : bytes) (pos : nat) (remaining : Z) (scanned : nat) : Step :=
  match buf !! pos with
  | None => Return p buf (inr Incomplete)
  | Some c =>
      if decide (c <> "$"%byte) then Return p buf (inl (ExpectedDollar c))
      else
        match line_end buf (pos + 1) scanned with
        | LineIncomplete next =>
            if decide (INLINE_MAX_SIZE < blen buf - Z.of_nat pos)%Z then Return p buf (inl TooBigBulkCount)
            else Return (with_state (BulkHeader pos remaining next) p) buf (inr Incomplete)
        | Malformed => Return p buf (inl InvalidBulkLength)
        | Found start end_ next =>
            match parse_i64_strict (default [] (slice start end_ buf)) with
            | None => Return p buf (inl InvalidBulkLength)
            | Some len =>
                if decide (len < 0 \/ proto_max_bulk_len p < len)%Z then Return p buf (inl InvalidBulkLength)
                else Next (with_state (BulkBody next len (remaining - 1)) p)
            end
        end
  end.

Definition step_bulk_body (p : RequestParser) (buf : bytes) (start : nat) (len remaining : Z) : Step :=
  let after := (Z.of_nat start + len + 2)%Z in
  if decide (U64_MAX < after)%Z then Return p buf (inl InvalidBulkLength)
  else if decide (blen buf < after)%Z then Return p buf (inr Incomplete)
  else
    let after := Z.to_nat after in
    let rs := ranges p ++ [(start, after - 2)] in
    if decide (remaining = 0)%Z then
      let frame := take after buf in
      match mapM (fun '(s, e) => slice s e frame) rs with
      | Some args => Return (reset p) (drop after buf) (inr (Command args))
      | None => Panic
      end
    else Next {| proto_max_bulk_len := proto_max_bulk_len p;
                 state := BulkHeader after remaining after; ranges := rs |}.

Definition step_inline (p : RequestParser) (buf : bytes) (scanned : nat) : Step :=
  match memchr x0a (default [] (slice_from scanned buf)) with
  | None =>
      if decide (INLINE_MAX_SIZE < blen buf)%Z then Return p buf (inl TooBigInline)
      else Return (with_state (Inline (length buf)) p) buf (inr Incomplete)
  | Some rel =>
      let nl := scanned + rel in
      if decide (INLINE_MAX_SIZE < Z.of_nat nl)%Z then Return p buf (inl TooBigInline)
      else
        let end_ := if decide (0 < nl /\ buf !! (nl - 1) = Some x0d) then nl - 1 else nl in
        match split_inline (take end_ buf) with
        | inl e => Return (reset p) (drop (nl + 1) buf) (inl e)
        | inr [] => Return (reset p) (drop (nl + 1) buf) (inr Empty)
        | inr args => Return (reset p) (drop (nl + 1) buf) (inr (Command args))
        end
  end.

Definition step (p : RequestParser) (buf : bytes) : Step :=
  match state p with
  | Start => step_start p buf
  | MbulkHeader scanned => step_mbulk_header p buf scanned
  | BulkHeader pos remaining scanned => step_bulk_header p buf pos remaining scanned
  | BulkBody start len remaining => step_bulk_body p buf start len remaining
  | Inline scanned => step_inline p buf scanned
  end.

Fixpoint parse_loop (fuel : nat) (p : RequestParser) (buf : bytes) : option (RequestParser * bytes * (ProtoError + Parsed)) :=
  match fuel with
  | O => None
  | S fuel =>
      match step p buf with
      | Next p => parse_loop fuel p buf
      | Return p buf r => Some (p, buf, r)
      | Panic => None
      end
  end.

(** Two rounds per bulk, and a bulk takes at least four bytes. *)
Definition parse_fuel (buf : bytes) : nat := 2 * length buf + 4.

Definition parse (p : RequestParser) (buf : bytes) := parse_loop (parse_fuel buf) p buf.
End parser.

(** ** Invariant of the scan *)

(** How much of the buffer the recorded offsets may refer to. *)
Definition extent (p : RequestParser) : nat :=
  match state p with BulkHeader pos _ _ => pos | BulkBody start _ _ => start | _ => 0 end.

(** Every offset the parser remembers is inside the buffer, and the ranges
    collected so far are behind the element being read. *)
Definition wf (p : RequestParser) (buf : bytes) : Prop :=
  Forall (fun '(s, e) => s <= e <= extent p) (ranges p) /\
  match state p with
  | Start => ranges p = []
  | MbulkHeader scanned => 1 <= length buf /\ scanned <= length buf
  | BulkHeader pos remaining scanned =>
      pos <= length buf /\ scanned <= length buf /\ (1 <= remaining <= MULTIBULK_MAX)%Z
  | BulkBody start len remaining =>
      start <= length buf /\ (0 <= len <= I64_MAX)%Z /\ (0 <= remaining < MULTIBULK_MAX)%Z
  | Inline scanned => scanned <= length buf
  end.

(** What the connection can see of a result: after a protocol error it replies
    and closes, so the parser itself is not looked at again. *)
Definition observe (r : option (RequestParser * bytes * (ProtoError + Parsed))) :=
  (fun '(p, buf, r) => (match r with inl _ => None | inr _ => Some p end, buf, r)) <$> r.

Definition observe_step (s : Step) : Step :=
  match s with Return p buf (inl e) => Return (reset p) buf (inl e) | s => s end.

Section parser_facts.
Context `{MemchrLaws}.
#[local] Set Default Proof Using "Type*".

Lemma line_end_bounds (buf : bytes) (from scanned : nat) :
  match line_end buf from scanned with
  | Found s e n => s = from /\ from <= e /\ n = e + 2 /\ n <= length buf
  | LineIncomplete r => scanned <= length buf -> r <= length buf
  | Malformed => True
  end.
Proof.
  unfold line_end, slice_from. case_decide; [|lia].
  destruct (memchr _ _) as [rel|] eqn:E; [|lia].
  apply memchr_found in E as [E _]. rewrite lookup_drop in E. apply lookup_lt_Some in E.
  destruct (buf !! _) as [c|] eqn:E2; [|lia]. apply lookup_lt_Some in E2. case_decide; [lia|done].
Qed.

(** A decided header line stays as it is when more input arrives. *)
Lemma line_end_app (buf more : bytes) (from scanned : nat) :
  (forall r, line_end buf from scanned <> LineIncomplete r) ->
  line_end (buf ++ more) from scanned = line_end buf from scanned.
Proof.
  unfold line_end, slice_from. intros Hne.
  destruct (decide (Nat.max scanned from <= length buf)) as [Hle|]; [|naive_solver].
  rewrite decide_True by (rewrite length_app; lia). rewrite drop_app_le by done.
  destruct (memchr x0d (drop _ buf)) as [rel|] eqn:E; [|naive_solver].
  rewrite (memchr_app_found _ _ _ _ E).
  destruct (buf !! (_ + 1)) as [c|] eqn:E2; [|naive_solver].
  by rewrite (lookup_app_Some_l _ _ _ _ E2).
Qed.

(** Resuming an undecided line where the search stopped loses nothing. *)
Lemma line_end_resume (buf more : bytes) (from scanned r : nat) :
  from <= length buf -> scanned <= length buf ->
  line_end buf from scanned = LineIncomplete r ->
  line_end (buf ++ more) from r = line_end (buf ++ more) from scanned.
Proof.
  intros Hf Hs. unfold line_end.
  assert (forall n, n <= length buf -> slice_from n (buf ++ more) = Some (drop n buf ++ more)) as Hsl.
  { intros n Hn. rewrite slice_from_Some by (rewrite length_app; lia). by rewrite drop_app_le. }
  rewrite (slice_from_Some _ buf) by lia. rewrite (Hsl (Nat.max scanned from)) by lia.
  destruct (memchr x0d (drop _ buf)) as [rel|] eqn:E.
  - destruct (buf !! _) eqn:E2; [case_decide; discriminate|]. intros [= <-].
    apply memchr_split in E as E'. destruct E' as (Ed & Hi & Hl). rewrite length_take, length_drop in Hl.
    rewrite (memchr_app_found _ _ _ _ E). apply lookup_ge_None in E2.
    assert (Nat.max (Nat.max scanned from + rel) from = Nat.max scanned from + rel) as -> by lia.
    assert (rel < length (drop (Nat.max scanned from) buf)) as Hrel.
    { apply memchr_found in E as [E _]. by eapply lookup_lt_Some. }
    rewrite length_drop in Hrel. rewrite Hsl by lia.
    assert (memchr x0d (drop (Nat.max scanned from + rel) buf ++ more) = Some 0) as ->.
    { rewrite <-drop_drop, Ed, drop_app_length' by (rewrite length_take, length_drop; lia).
      apply (memchr_app x0d []). set_solver. }
    by rewrite Nat.add_0_r.
  - intros [= <-]. replace (Nat.max (length buf) from) with (length buf) by lia.
    rewrite Hsl, drop_all, app_nil_l by done. rewrite (memchr_app_absent _ _ _ E).
    destruct (memchr x0d more) as [j|]; simpl; [|done].
    rewrite length_drop. by replace (Nat.max scanned from + _) with (length buf + j) by lia.
Qed.

Lemma parse_i64_digits_bounds (v : Z) (s : bytes) (x : Z) :
  (0 <= v <= I64_MAX)%Z -> parse_i64_digits v s = Some x -> (0 <= x <= I64_MAX)%Z.
Proof.
  revert v. induction s as [|c s IH]; intros v Hv; simpl; [intros [= <-]; done|].
  destruct (is_digit c) eqn:Ec; simpl; [|done]. apply digit_val_range in Ec.
  intros (m & Hm & (v' & Hv' & Hx)%bind_Some)%bind_Some. eapply IH; [|done].
  unfold checked_i64 in *. repeat case_decide; simplify_eq; lia.
Qed.

Lemma parse_i64_strict_bounds (s : bytes) (x : Z) :
  parse_i64_strict s = Some x -> (- I64_MAX <= x <= I64_MAX)%Z.
Proof.
  unfold parse_i64_strict. destruct s as [|c s]; [done|]. case_decide; [destruct s; [done|]|];
    (intros (v & Hv%parse_i64_digits_bounds & [= <-])%bind_Some; unfold I64_MAX in *; lia).
Qed.

(** The number of rounds left at a state. *)
Definition rounds (p : RequestParser) (buf : bytes) : nat :=
  match state p with
  | Start => length buf + 3
  | MbulkHeader _ => length buf + 2
  | Inline _ => 1
  | _ => length buf - extent p + 1
  end.

Lemma mapM_slices (rs : list (nat * nat)) (l : bytes) :
  Forall (fun '(s, e) => s <= e <= length l) rs ->
  exists args, mapM (fun '(s, e) => slice s e l) rs = Some args /\
    Forall2 (fun '(s, e) a => length a = e - s) rs args.
Proof.
  induction 1 as [|[s e] rs Hse _ (args & IH & Hargs)].
  - exists []. split; [done|constructor].
  - exists (take (e - s) (drop s l) :: args). simpl. rewrite slice_Some, IH by done. split; [done|].
    constructor; [|done]. rewrite length_take, length_drop. lia.
Qed.

Lemma mapM_slices_app (rs : list (nat * nat)) (l k : bytes) args :
  mapM (fun '(s, e) => slice s e l) rs = Some args -> mapM (fun '(s, e) => slice s e (l ++ k)) rs = Some args.
Proof.
  rewrite !mapM_Some. induction 1 as [|[s e] a rs args Ha _ IH]; constructor; [by apply slice_app|done].
Qed.

(** What one round does to the invariant. *)
Lemma step_spec (p : RequestParser) (buf : bytes) :
  wf p buf ->
  match step p buf with
  | Next p' => wf p' buf /\ rounds p' buf < rounds p buf /\ proto_max_bulk_len p' = proto_max_bulk_len p
  | Return p' buf' (inr Incomplete) =>
      buf' = buf /\ wf p' buf /\ proto_max_bulk_len p' = proto_max_bulk_len p
  | Return p' buf' (inr _) => p' = reset p /\ length buf' < length buf
  | Return p' buf' (inl _) => True
  | Panic => False
  end.
Proof.
  unfold wf, rounds, step. intros [Hr Hs]. destruct p as [mx st rs]; simpl in *. destruct st as [|sc|pos rem sc|start len rem|sc].
  - subst rs. destruct buf as [|c buf]; simpl; [done|]. case_decide; simpl; (split; [|lia]); split_and!; done || lia.
  - unfold step_mbulk_header. pose proof (line_end_bounds buf 1 sc) as Hl.
    destruct (line_end buf 1 sc) as [s e n|r|]; [|case_decide; simpl; naive_solver lia|done].
    destruct Hl as (-> & He & -> & Hn). destruct (parse_i64_strict _) as [count|]; [|done].
    case_decide; [done|]. case_decide; simpl.
    + rewrite length_drop. split; [done|lia].
    + unfold extent; simpl. split_and!; done || lia.
  - unfold step_bulk_header; simpl. destruct Hs as (Hpos & Hsc & Hrem).
    destruct (buf !! pos) as [c|] eqn:Ec; [|done]. apply lookup_lt_Some in Ec. case_decide; [done|].
    pose proof (line_end_bounds buf (pos + 1) sc) as Hl.
    destruct (line_end buf (pos + 1) sc) as [s e n|r|]; [|case_decide; simpl; [done|]|done].
    + destruct Hl as (-> & He & -> & Hn). destruct (parse_i64_strict _) as [len|] eqn:Elen; [|done].
      case_decide; [done|]. unfold extent in *; simpl in *. apply parse_i64_strict_bounds in Elen.
      split_and!; try done; try lia. eapply Forall_impl; [done|]. intros [??]; simpl; lia.
    + unfold extent in *; split_and!; naive_solver lia.
  - unfold step_bulk_body; simpl. destruct Hs as (Hst & Hlen & Hrem).
    case_decide; [done|]. case_decide as Hb; [done|]. unfold blen in *. unfold extent in Hr; simpl in Hr.
    set (after := Z.to_nat _) in *. assert (start + 2 <= after <= length buf) as Ha by (subst after; lia).
    assert (Forall (fun '(s, e) => s <= e <= after) (rs ++ [(start, after - 2)])) as Hr'.
    { apply Forall_app. split; [|repeat constructor; lia]. eapply Forall_impl; [done|]. intros [??]; simpl; lia. }
    case_decide; simpl.
    + destruct (mapM_slices (rs ++ [(start, after - 2)]) (take after buf)) as (args & -> & _).
      { eapply Forall_impl; [done|]. intros [??]. rewrite length_take. lia. }
      rewrite length_drop. split; [done|lia].
    + unfold extent; simpl. split_and!; done || lia.
  - unfold step_inline. destruct (memchr _ _) as [rel|] eqn:E.
    + case_decide; [done|]. apply memchr_found in E as [E _]. unfold slice_from in E. case_decide; [|done].
      simpl in E. rewrite lookup_drop in E. apply lookup_lt_Some in E.
      destruct (split_inline _) as [|[|]]; [done|..]; rewrite length_drop; simpl; (split; [done|lia]).
    + case_decide; [done|]. simpl. done.
Qed.

Lemma slice_from_app (n : nat) (buf more : bytes) :
  n <= length buf -> slice_from n (buf ++ more) = Some (drop n buf ++ more).
Proof. intros. rewrite slice_from_Some by (rewrite length_app; lia). by rewrite drop_app_le. Qed.

(** A round that does not wait for input does the same when there is more of it. *)
Lemma step_app (p : RequestParser) (buf more : bytes) :
  wf p buf ->
  match step p buf with
  | Next p' => step p (buf ++ more) = Next p'
  | Return p' buf' (inr Incomplete) => True
  | Return p' buf' (inr r) => step p (buf ++ more) = Return p' (buf' ++ more) (inr r)
  | _ => True
  end.
Proof.
  intros [Hr Hs]. unfold step. destruct (state p) as [|sc|pos rem sc|start len rem sc|sc] eqn:Est.
  - destruct buf; simpl; [done|]. by case_decide.
  - unfold step_mbulk_header. pose proof (line_end_bounds buf 1 sc) as Hl.
    pose proof (line_end_app buf more 1 sc) as Ha.
    destruct (line_end buf 1 sc) as [s e n|r|]; [|by case_decide|done].
    rewrite Ha by done. destruct Hl as (-> & He & -> & Hn).
    rewrite (slice_Some 1 e buf) by lia. erewrite slice_app by (apply slice_Some; lia). simpl.
    destruct (parse_i64_strict _) as [count|]; [|done]. case_decide; [done|]. case_decide; [|done].
    by rewrite drop_app_le by lia.
  - unfold step_bulk_header. destruct (buf !! pos) as [c|] eqn:Ec; [|done].
    rewrite (lookup_app_Some_l _ _ _ _ Ec). case_decide; [done|].
    pose proof (line_end_bounds buf (pos + 1) sc) as Hl. pose proof (line_end_app buf more (pos + 1) sc) as Ha.
    destruct (line_end buf (pos + 1) sc) as [s e n|r|]; [|by case_decide|done].
    rewrite Ha by done. destruct Hl as (-> & He & -> & Hn).
    rewrite (slice_Some (pos + 1) e buf) by lia. erewrite slice_app by (apply slice_Some; lia). simpl.
    destruct (parse_i64_strict _) as [len|]; [|done]. by case_decide.
  - unfold step_bulk_body. case_decide; [done|]. case_decide as Hb; [done|]. unfold blen in *.
    case_decide; [|by rewrite decide_False by (rewrite length_app; lia)].
    rewrite take_app_le, decide_False by (rewrite ?length_app; lia).
    destruct (mapM _ _); [|done]. by rewrite drop_app_le by lia.
  - unfold step_inline. rewrite slice_from_app, slice_from_Some by done. simpl.
    destruct (memchr x0a (drop sc buf)) as [rel|] eqn:E; [|by case_decide].
    rewrite (memchr_app_found _ _ _ _ E). apply memchr_found in E as [E _].
    rewrite lookup_drop in E. apply lookup_lt_Some in E. case_decide; [done|].
    rewrite (lookup_app_l buf more (sc + rel - 1)) by lia.
    rewrite take_app_le, drop_app_le by (try case_decide; lia).
    by destruct (split_inline _) as [|[|]].
Qed.

(** A round that waits for input leaves the rest of the frame to be read as if
    all of it had been there at once. *)
Lemma step_resume (p p' : RequestParser) (buf buf' more : bytes) :
  wf p buf -> step p buf = Return p' buf' (inr Incomplete) ->
  observe_step (step p' (buf ++ more)) = observe_step (step p (buf ++ more)).
Proof.
  intros [Hr Hs]. unfold step at 1. destruct (state p) as [|sc|pos rem sc|start len rem sc|sc] eqn:Est.
  - destruct buf; simpl; [congruence|]. by case_decide.
  - unfold step_mbulk_header. destruct (line_end buf 1 sc) as [s e n|r|] eqn:El; [|case_decide; [done|]|done].
    + destruct (parse_i64_strict _); [|done]. by repeat case_decide.
    + intros [= <- <-]. unfold step. rewrite Est. simpl. unfold step_mbulk_header.
      rewrite (line_end_resume _ _ _ _ _ (proj1 Hs) (proj2 Hs) El).
      destruct (line_end (buf ++ more) 1 sc); [|by case_decide|done].
      destruct (parse_i64_strict _); [|done]. by repeat case_decide.
  - unfold step_bulk_header. destruct Hs as (Hpos & Hsc & _).
    destruct (buf !! pos) as [c|] eqn:Ec; [|congruence]. case_decide as Hc; [done|].
    destruct (line_end buf (pos + 1) sc) as [s e n|r|] eqn:El; [|case_decide; [done|]|done].
    + destruct (parse_i64_strict _); [|done]. by repeat case_decide.
    + intros [= <- <-]. unfold step. rewrite Est. simpl. unfold step_bulk_header.
      rewrite (lookup_app_Some_l _ _ _ _ Ec). destruct (decide (c <> "$"%byte)) as [|_]; [done|].
      apply lookup_lt_Some in Ec.
      rewrite (line_end_resume buf more (pos + 1) sc) by (done || lia). simpl.
      destruct (line_end (buf ++ more) (pos + 1) sc); [|by case_decide|done].
      destruct (parse_i64_strict _); [|done]. by repeat case_decide.
  - unfold step_bulk_body. case_decide; [done|]. case_decide; [congruence|]. case_decide; [|done].
    by destruct (mapM _ _).
  - unfold step_inline. rewrite slice_from_Some by done. simpl.
    destruct (memchr x0a (drop sc buf)) as [rel|] eqn:E; [case_decide; [done|]; by destruct (split_inline _) as [|[|]]|].
    case_decide; [done|]. intros [= <- <-]. unfold step. rewrite Est. simpl. unfold step_inline.
    rewrite !slice_from_app by lia. simpl. rewrite drop_all, app_nil_l, (memchr_app_absent _ _ _ E).
    destruct (memchr x0a more) as [rel|]; simpl; [|by case_decide].
    rewrite length_drop. replace (sc + _) with (length buf + rel) by lia.
    case_decide; [done|]. by destruct (split_inline _) as [|[|]].
Qed.

Lemma wf_app (p : RequestParser) (buf more : bytes) : wf p buf -> wf p (buf ++ more).
Proof.
  unfold wf. intros [Hr Hs]. split; [done|]. destruct (state p); rewrite ?length_app; naive_solver lia.
Qed.

Lemma wf_start (p : RequestParser) (buf : bytes) : state p = Start -> ranges p = [] -> wf p buf.
Proof. unfold wf. intros -> ->. split; [constructor|done]. Qed.

Lemma wf_reset (p : RequestParser) (buf : bytes) : wf (reset p) buf.
Proof. by apply wf_start. Qed.

Lemma rounds_fuel (p : RequestParser) (buf more : bytes) : rounds p buf < parse_fuel (buf ++ more).
Proof. unfold rounds, parse_fuel. rewrite length_app. destruct (state p); lia. Qed.

Lemma parse_loop_total (fuel : nat) (p : RequestParser) (buf : bytes) :
  wf p buf -> rounds p buf < fuel ->
  exists p' buf' r, parse_loop fuel p buf = Some (p', buf', r) /\
    match r with
    | inl _ => True
    | inr Incomplete => buf' = buf /\ wf p' buf /\ proto_max_bulk_len p' = proto_max_bulk_len p
    | inr _ => p' = parser_new (proto_max_bulk_len p) /\ length buf' < length buf
    end.
Proof.
  revert p. induction fuel as [|fuel IH]; intros p Hwf Hf; [lia|]. simpl.
  pose proof (step_spec p buf Hwf) as Hs. destruct (step p buf) as [p1|p' buf' r|]; [|by eauto|done].
  destruct Hs as (Hwf1 & Hr & Hmx). destruct (IH p1 Hwf1 ltac:(lia)) as (p' & buf' & r & Hp & Hres).
  rewrite <-Hmx. eauto 10.
Qed.

Lemma parse_loop_fuel (f1 f2 : nat) (p : RequestParser) (buf : bytes) :
  wf p buf -> rounds p buf < f1 -> rounds p buf < f2 -> parse_loop f1 p buf = parse_loop f2 p buf.
Proof.
  revert f2 p. induction f1 as [|f1 IH]; intros [|f2] p Hwf H1 H2; try lia. simpl.
  pose proof (step_spec p buf Hwf) as Hs. destruct (step p buf) as [p1|p' buf' r|]; [|done..].
  apply IH; [naive_solver|lia..].
Qed.

(** [parse] one round at a time. *)
Lemma parse_unfold (p : RequestParser) (buf : bytes) :
  wf p buf ->
  parse p buf = match step p buf with
    | Next p' => parse p' buf | Return p' buf' r => Some (p', buf', r) | Panic => None end.
Proof.
  intros Hwf. unfold parse. pose proof (step_spec p buf Hwf) as Hs.
  pose proof (rounds_fuel p buf []) as Hf. rewrite app_nil_r in Hf.
  assert (parse_fuel buf = S (2 * length buf + 3)) as Ef by (unfold parse_fuel; lia).
  rewrite Ef at 1. cbn [parse_loop].
  destruct (step p buf) as [p1|p' buf' r|]; [|done..]. destruct Hs as (Hwf1 & Hr & _).
  apply parse_loop_fuel; [done|unfold parse_fuel in Hf; lia|lia].
Qed.

(** Induction over the rounds of a run. *)
Lemma wf_round_ind (buf : bytes) (P : RequestParser -> Prop) :
  (forall p, wf p buf -> (forall p', step p buf = Next p' -> P p') -> P p) -> forall p, wf p buf -> P p.
Proof.
  intros Hstep p. remember (rounds p buf) as n eqn:En. revert p En.
  induction (lt_wf n) as [n _ IHn]. intros p -> Hwf. apply Hstep; [done|]. intros p' Hp.
  pose proof (step_spec p buf Hwf) as Hs. rewrite Hp in Hs. naive_solver.
Qed.

(** A result other than "more input needed" or an error is stable under more input. *)
Lemma parse_app (p p' : RequestParser) (buf buf' more : bytes) (r : Parsed) :
  wf p buf -> r <> Incomplete -> parse p buf = Some (p', buf', inr r) ->
  parse p (buf ++ more) = Some (p', buf' ++ more, inr r).
Proof.
  intros Hwf Hr. revert p Hwf. refine (wf_round_ind buf _ _). intros p Hwf IH.
  rewrite !parse_unfold by (done || by apply wf_app). pose proof (step_app p buf more Hwf) as Ha.
  destruct (step p buf) as [p1|p1 b1 r1|]; [|intros [= -> -> ->]|done].
  - rewrite Ha. by apply IH.
  - by destruct r; [rewrite Ha..|].
Qed.

Lemma parse_observe (p q : RequestParser) (buf : bytes) :
  wf p buf -> wf q buf -> observe_step (step p buf) = observe_step (step q buf) ->
  observe (parse p buf) = observe (parse q buf).
Proof.
  intros Hp Hq E. rewrite (parse_unfold p), (parse_unfold q) by done.
  destruct (step p buf) as [?|? ? [?|?]|], (step q buf) as [?|? ? [?|?]|]; simpl in *; congruence.
Qed.

Lemma parse_incomplete (p p' : RequestParser) (buf buf' more : bytes) :
  wf p buf -> parse p buf = Some (p', buf', inr Incomplete) ->
  buf' = buf /\ wf p' buf /\ observe (parse p' (buf ++ more)) = observe (parse p (buf ++ more)).
Proof.
  intros Hwf. revert p Hwf. refine (wf_round_ind buf _ _). intros p Hwf IH Hp.
  pose proof (step_spec p buf Hwf) as Hs. pose proof (step_app p buf more Hwf) as Ha.
  rewrite parse_unfold in Hp by done. destruct (step p buf) as [p1|p1 b1 r1|] eqn:E; [| |done].
  - rewrite (parse_unfold p), Ha by (by apply wf_app). by apply IH.
  - injection Hp as -> -> ->. destruct Hs as (-> & Hwf' & _). split_and!; [done..|].
    apply parse_observe; [by apply wf_app..|]. by eapply step_resume.
Qed.

(** C13: On any parser state whose offsets lie in the buffer, [parse] returns:
    it neither panics nor runs out of rounds.  When it asks for more input it
    has consumed nothing and its offsets still lie in the buffer; when it
    delivers a command (or skips an empty one) it has consumed something and
    is back at the start of a frame. *)
Theorem parse_total (p : RequestParser) (buf : bytes) :
  wf p buf ->
  exists p' buf' r, parse p buf = Some (p', buf', r) /\
    match r with
    | inl _ => True
    | inr Incomplete => buf' = buf /\ wf p' buf /\ proto_max_bulk_len p' = proto_max_bulk_len p
    | inr _ => p' = parser_new (proto_max_bulk_len p) /\ length buf' < length buf
    end.
Proof.
  intros Hwf. apply parse_loop_total; [done|]. rewrite <-(app_nil_r buf) at 2. apply rounds_fuel.
Qed.

(** Resuming is not restarting: a parser that has waited for input on
    [buf] answers [buf ++ more] exactly as it would have had it seen it all at
    once from where it stood before, offsets recorded in between included. *)
Theorem parse_resumes (p p' : RequestParser) (buf buf' more : bytes) :
  wf p buf -> parse p buf = Some (p', buf', inr Incomplete) ->
  buf' = buf /\ observe (parse p' (buf ++ more)) = observe (parse p (buf ++ more)).
Proof. intros Hwf Hp. by destruct (parse_incomplete p p' buf buf' more Hwf Hp) as (? & _ & ?). Qed.

(** What the connection does with a read buffer: parse until the parser asks
    for more, collecting the commands. *)
Inductive session (p : RequestParser) (buf : bytes) : list (list bytes) -> RequestParser -> bytes -> Prop :=
| session_wait p' : parse p buf = Some (p', buf, inr Incomplete) -> session p buf [] p' buf
| session_skip p1 b1 cs p2 b2 :
    parse p buf = Some (p1, b1, inr Empty) -> session p1 b1 cs p2 b2 -> session p buf cs p2 b2
| session_command p1 b1 args cs p2 b2 :
    parse p buf = Some (p1, b1, inr (Command args)) -> session p1 b1 cs p2 b2 ->
    session p buf (args :: cs) p2 b2.

Lemma session_inv (p : RequestParser) (buf : bytes) cs p2 b2 :
  session p buf cs p2 b2 <->
  match parse p buf with
  | Some (p1, b1, inr Incomplete) => b1 = buf /\ cs = [] /\ p2 = p1 /\ b2 = buf
  | Some (p1, b1, inr Empty) => session p1 b1 cs p2 b2
  | Some (p1, b1, inr (Command args)) => exists cs', cs = args :: cs' /\ session p1 b1 cs' p2 b2
  | _ => False
  end.
Proof.
  split.
  - intros []; repeat match goal with H : parse _ _ = _ |- _ => rewrite H end; eauto.
  - intros Hs. destruct (parse p buf) as [[[p1 b1] [|[args| |]]]|] eqn:E; try done.
    + destruct Hs as (cs' & -> & ?). by eapply session_command.
    + by eapply session_skip.
    + destruct Hs as (-> & -> & -> & ->). by apply session_wait.
Qed.

Lemma parse_delivers (p p' : RequestParser) (buf buf' : bytes) (r : Parsed) :
  wf p buf -> r <> Incomplete -> parse p buf = Some (p', buf', inr r) -> p' = parser_new (proto_max_bulk_len p).
Proof.
  intros Hwf Hr Hp. destruct (parse_loop_total (parse_fuel buf) p buf Hwf) as (? & ? & r' & Hp' & Hres).
  { rewrite <-(app_nil_r buf) at 2. apply rounds_fuel. }
  unfold parse in Hp. rewrite Hp' in Hp. injection Hp as -> -> ->. destruct r; naive_solver.
Qed.

(** Chunk independence: once [buf] has been served, yielding commands
    [cs] and the leftover [b1], the bytes that arrive later are served as if
    the whole stream had been in the buffer from the start. *)
Theorem session_chunks (p p1 : RequestParser) (buf b1 more : bytes) (cs : list (list bytes)) :
  wf p buf -> session p buf cs p1 b1 ->
  forall ds p2 b2, session p (buf ++ more) ds p2 b2 <->
    exists cs', ds = cs ++ cs' /\ session p1 (b1 ++ more) cs' p2 b2.
Proof.
  intros Hwf Hs. induction Hs as [p buf p' Hp|p buf p1 b1 cs p2 b2 Hp Hs IH|p buf p1 b1 args cs p2 b2 Hp Hs IH];
    intros ds q c.
  - destruct (parse_incomplete p p' buf buf more Hwf Hp) as (_ & _ & Ho).
    assert (session p (buf ++ more) ds q c <-> session p' (buf ++ more) ds q c) as ->; [|naive_solver].
    rewrite !session_inv. destruct (parse p (buf ++ more)) as [[[? ?] [|[]]]|],
      (parse p' (buf ++ more)) as [[[? ?] [|[]]]|]; simpl in Ho; naive_solver.
  - assert (wf p1 b1) as Hwf1.
    { apply parse_delivers in Hp as ->; [by apply wf_start|done..]. }
    rewrite session_inv, (parse_app p p1 buf b1 more Empty) by done. by apply IH.
  - assert (wf p1 b1) as Hwf1.
    { apply parse_delivers in Hp as ->; [by apply wf_start|done..]. }
    rewrite session_inv, (parse_app p p1 buf b1 more (Command args)) by done.
    specialize (IH Hwf1). split.
    + intros (cs' & -> & (cs'' & -> & ?)%IH). exists cs''. done.
    + intros (cs'' & -> & ?). exists (cs ++ cs''). split; [done|]. apply IH. eauto.
Qed.
End parser_facts.

(** [*1 $4 PING] followed by the first bytes of a second request. *)
Definition ping : bytes := bs "*1" ++ CRLF ++ bs "$4" ++ CRLF ++ bs "PING" ++ CRLF.
Definition ping_pi : bytes := ping ++ bs "*1" ++ CRLF ++ bs "$4" ++ CRLF ++ bs "PI".
Definition waiting_for_ng : RequestParser :=
  {| proto_max_bulk_len := 512; state := BulkBody 8 4 0; ranges := [] |}.

Lemma parse_total_witness :
  wf waiting_for_ng (drop 14 ping_pi) /\
  exists p' buf' r, @parse memchr_find waiting_for_ng (drop 14 ping_pi) = Some (p', buf', r) /\
    match r with
    | inl _ => True
    | inr Incomplete => buf' = drop 14 ping_pi /\ wf p' (drop 14 ping_pi) /\ proto_max_bulk_len p' = 512%Z
    | inr _ => p' = parser_new 512 /\ length buf' < length (drop 14 ping_pi)
    end.
Proof.
  assert (wf waiting_for_ng (drop 14 ping_pi)) as Hwf.
  { split; [constructor|]. cbv. repeat split; lia || discriminate. }
  split; [exact Hwf|]. exact (@parse_total memchr_find memchr_find_laws waiting_for_ng (drop 14 ping_pi) Hwf).
Defined.

Lemma parse_resumes_witness :
  wf (parser_new 512) (drop 14 ping_pi) /\
  observe (@parse memchr_find waiting_for_ng (drop 14 ping_pi ++ bs "NG" ++ CRLF)) =
  observe (@parse memchr_find (parser_new 512) ping).
Proof.
  assert (wf (parser_new 512) (drop 14 ping_pi)) as Hwf by (split; [constructor|reflexivity]).
  split; [exact Hwf|].
  exact (proj2 (@parse_resumes memchr_find memchr_find_laws (parser_new 512) waiting_for_ng
    (drop 14 ping_pi) (drop 14 ping_pi) (bs "NG" ++ CRLF) Hwf ltac:(vm_compute; reflexivity))).
Defined.

Lemma session_chunks_witness :
  session (M := memchr_find) (parser_new 512) (ping_pi ++ bs "NG" ++ CRLF)
    ([bs "PING"] :: [[bs "PING"]]) (parser_new 512) [].
Proof.
  assert (wf (parser_new 512) ping_pi) as Hwf by (split; [constructor|reflexivity]).
  refine (proj2 (@session_chunks memchr_find memchr_find_laws (parser_new 512) waiting_for_ng
    ping_pi (drop 14 ping_pi) (bs "NG" ++ CRLF) [[bs "PING"]] Hwf _ _ _ _) _).
  - eapply session_command; [vm_compute; reflexivity|]. apply session_wait. vm_compute. reflexivity.
  - exists [[bs "PING"]]. split; [reflexivity|].
    eapply session_command; [vm_compute; reflexivity|]. apply session_wait. vm_compute. reflexivity.
Defined.

(** ** Inline commands: quoting *)

Lemma span_length (f : byte -> bool) (l : bytes) : length (span f l).1 + length (span f l).2 = length l.
Proof. induction l as [|c l IH]; simpl; [done|]. destruct (f c); [|done]. destruct (span f l); simpl in *. lia. Qed.

Lemma hex_escape_shorter (line rest : bytes) (b : byte) :
  hex_escape line = Some (b, rest) -> length rest + 4 = length line.
Proof.
  unfold hex_escape. destruct line as [|? [|? [|? [|? l]]]]; try done. case_decide; [|done].
  intros (a & _ & (b' & _ & [= _ <-])%bind_Some)%bind_Some. simpl. lia.
Qed.

Lemma double_quoted_rest (fuel : nat) (line buf arg rest : bytes) :
  double_quoted fuel line buf = Some (arg, rest) -> length rest < length line.
Proof.
  revert line buf. induction fuel as [|fuel IH]; intros [|c l] buf; cbn [double_quoted]; try done.
  case_decide; [destruct l as [|esc l']; [done|]; destruct (hex_escape (c :: esc :: l')) as [[b r]|] eqn:Eh|case_decide; [case_match|]]; try done.
  - intros Hq%IH. apply hex_escape_shorter in Eh. simpl in *. lia.
  - intros Hq%IH. simpl. lia.
  - intros [= _ <-]. simpl. lia.
  - intros Hq%IH. simpl. lia.
Qed.

Lemma double_quoted_fuel (f1 f2 : nat) (line buf : bytes) :
  length line < f1 -> length line < f2 -> double_quoted f1 line buf = double_quoted f2 line buf.
Proof.
  revert f2 line buf. induction f1 as [|f1 IH]; intros [|f2] [|c l] buf H1 H2; cbn [double_quoted length] in *; try lia; try done.
  case_decide; [destruct l as [|esc l']; [done|]; destruct (hex_escape (c :: esc :: l')) as [[b r]|] eqn:Eh|case_decide; [done|]].
  - apply hex_escape_shorter in Eh. simpl in *. apply IH; lia.
  - simpl in *. apply IH; lia.
  - apply IH; lia.
Qed.

Lemma single_quoted_rest (fuel : nat) (line buf arg rest : bytes) :
  single_quoted fuel line buf = Some (arg, rest) -> length rest < length line.
Proof.
  revert line buf. induction fuel as [|fuel IH]; intros [|c l] buf; simpl; try done.
  case_decide; [|case_decide; [case_match|]]; try done.
  - intros Hq%IH. rewrite length_drop in Hq. simpl. lia.
  - intros [= _ <-]. simpl. lia.
  - intros Hq%IH. simpl. lia.
Qed.

Lemma single_quoted_fuel (f1 f2 : nat) (line buf : bytes) :
  length line < f1 -> length line < f2 -> single_quoted f1 line buf = single_quoted f2 line buf.
Proof.
  revert f2 line buf. induction f1 as [|f1 IH]; intros [|f2] [|c l] buf H1 H2; simpl in *; try lia; try done.
  case_decide; [|case_decide; [done|]]; apply IH; rewrite ?length_drop; lia.
Qed.

(** The scan of an inline line consumes it: more fuel changes nothing. *)
Lemma split_inline_fuel (f1 f2 : nat) (line : bytes) (out : list bytes) :
  length line < f1 -> length line < f2 -> split_inline_loop f1 line out = split_inline_loop f2 line out.
Proof.
  revert f2 line out. induction f1 as [|f1 IH]; intros [|f2] line out H1 H2; cbn [split_inline_loop]; try lia.
  pose proof (span_length is_ascii_whitespace line) as Hw.
  destruct (span is_ascii_whitespace line) as [ws [|c rest]] eqn:Esp; cbn [fst snd length] in *; [done|].
  case_decide; [|case_decide].
  - destruct (double_quoted (S (length rest)) rest []) as [[arg r]|] eqn:Eq; [|done].
    apply double_quoted_rest in Eq. apply IH; lia.
  - destruct (single_quoted (S (length rest)) rest []) as [[arg r]|] eqn:Eq; [|done].
    apply single_quoted_rest in Eq. apply IH; lia.
  - pose proof (span_length (fun c => negb (is_ascii_whitespace c)) rest) as Hr.
    assert (is_ascii_whitespace c = false) as Hc.
    { clear -Esp. revert ws Esp. induction line as [|x l IH]; simpl; intros ws E; [congruence|].
      destruct (is_ascii_whitespace x) eqn:Ex; [destruct (span _ l) eqn:El; injection E as <- ->; by eapply IH|congruence]. }
    cbn [span]. rewrite Hc. cbn [negb]. destruct (span _ rest) as [a r]. cbn [fst snd] in *. apply IH; lia.
Qed.

(** A client quotes an argument: escapes for what [split_inline] would
    otherwise interpret and for line breaks. *)
Definition escape (c : byte) : bytes :=
  if decide (c = x0a) then bs "\n" else if decide (c = x0d) then bs "\r"
  else if decide (c = "\"%byte \/ c = x22) then ["\"%byte; c] else [c].

Definition quote (arg : bytes) : bytes := x22 :: concat (escape <$> arg) ++ [x22].

(** Quoted arguments, separated by blanks. *)
Definition inline (args : list bytes) : bytes := concat ((fun a => quote a ++ [x20]) <$> args).

Lemma escape_cons (c : byte) (arg : bytes) : concat (escape <$> c :: arg) = escape c ++ concat (escape <$> arg).
Proof. done. Qed.

Lemma double_quoted_escape (arg buf rest : bytes) (fuel : nat) :
  length (concat (escape <$> arg) ++ x22 :: rest) < fuel -> closing_ok rest = true ->
  double_quoted fuel (concat (escape <$> arg) ++ x22 :: rest) buf = Some (buf ++ arg, rest).
Proof.
  revert buf fuel. induction arg as [|c arg IH]; intros buf fuel Hf Hc.
  { destruct fuel as [|fuel]; [lia|]. simpl. by rewrite Hc, app_nil_r. }
  destruct fuel as [|fuel]; [lia|]. rewrite escape_cons, <-app_assoc in *. rewrite length_app in Hf.
  assert (double_quoted (S fuel) (escape c ++ concat (escape <$> arg) ++ x22 :: rest) buf =
    double_quoted fuel (concat (escape <$> arg) ++ x22 :: rest) (buf ++ [c])) as ->.
  { unfold escape at 1. set (t := concat _ ++ _) in *.
    destruct (decide (c = x0a)) as [->|]; [by destruct t as [|? [|? ?]]|].
    destruct (decide (c = x0d)) as [->|]; [by destruct t as [|? [|? ?]]|].
    destruct (decide (_ \/ _)) as [[->| ->]|Hn]; [by destruct t as [|? [|? [|? ?]]]|by destruct t as [|? [|? [|? ?]]]|].
    cbn [app double_quoted]. rewrite decide_False by tauto. by rewrite decide_False by tauto. }
  rewrite IH; [by rewrite <-app_assoc| |done].
  assert (0 < length (escape c)) by (unfold escape; repeat case_decide; simpl; lia). lia.
Qed.

Lemma split_inline_quoted (args out : list bytes) (fuel : nat) :
  length (inline args) < fuel -> split_inline_loop fuel (inline args) out = inr (out ++ args).
Proof.
  assert (forall ws l, is_ascii_whitespace ws = true -> snd (span is_ascii_whitespace (ws :: x22 :: l)) = x22 :: l) as Hsp.
  { intros ws l Hw. simpl. by rewrite Hw. }
  assert (forall args out fuel line, line = inline args \/ line = x20 :: inline args -> length line < fuel ->
    split_inline_loop fuel line out = inr (out ++ args)) as H; [|intros; eapply H; [by left|done]].
  clear args out fuel. induction args as [|a args IH]; intros out fuel line Hl Hf.
  { destruct fuel as [|fuel]; [lia|]. destruct Hl as [-> | ->]; simpl; by rewrite app_nil_r. }
  destruct fuel as [|fuel]; [lia|]. set (tl := inline args) in *.
  assert (inline (a :: args) = x22 :: concat (escape <$> a) ++ x22 :: x20 :: tl) as E.
  { unfold inline at 1, quote. rewrite fmap_cons. cbn [concat]. fold (inline args). fold tl.
    cbn [app]. by rewrite <-!app_assoc. }
  assert (snd (span is_ascii_whitespace line) = x22 :: concat (escape <$> a) ++ x22 :: x20 :: tl) as Hsn.
  { destruct Hl as [-> | ->]; rewrite E; [done|by apply Hsp]. }
  assert (length (concat (escape <$> a) ++ x22 :: x20 :: tl) < fuel) as Hlen.
  { destruct Hl as [-> | ->]; rewrite E in Hf; simpl in Hf; lia. }
  cbn [split_inline_loop]. rewrite Hsn. rewrite decide_True by done.
  rewrite double_quoted_escape by (done || lia). rewrite app_nil_l.
  rewrite (IH (out ++ [a]) fuel (x20 :: tl)); [by rewrite <-app_assoc|by right|].
  rewrite length_app in Hlen. simpl in *. lia.
Qed.

(** Inline commands carry arbitrary arguments: whatever bytes they hold,
    arguments quoted with backslash escapes for line breaks, backslashes and
    double quotes are split back exactly; and the scan of any line has consumed it when it stops. *)
Theorem split_inline_round_trip :
  (forall args, split_inline (inline args) = inr args) /\
  (forall fuel line out, length line < fuel -> split_inline_loop fuel line out = split_inline_loop (S (length line)) line out).
Proof.
  split; [intros args; apply split_inline_quoted; lia|]. intros. apply split_inline_fuel; lia.
Qed.
