(* ===== verification/Errors.v ===== *)
(** * Command errors ([src/error.rs])

    The error type every handler returns and the text it puts on the wire
    after the leading [-].  A Rust [String] is its UTF-8 bytes; an [io::Error]
    is carried as its rendered text.  [String::from_utf8_lossy], of the Rust
    standard library, is modelled here because [unknown_command] echoes client
    bytes through it. *)
From S2P Require Import Prelude.
Open Scope nat_scope.

Inductive CmdError :=
| WrongType
| WrongArity (name : bytes)
| NotAnInteger
| NotAFloat
| Syntax
| OutOfRange
| IndexOutOfRange
| NoSuchKey
| ValueOverflow
| Unauthenticated
| NoProto
| Oom
| Custom (code message : bytes)
| Io (message : bytes).

Definition err (msg : bytes) : CmdError := Custom (bs "ERR") msg.
Definition custom (code msg : bytes) : CmdError := Custom code msg.
Definition out_of_range_positive : CmdError :=
  Custom (bs "ERR") (bs "value is out of range, must be positive").

Definition code (e : CmdError) : bytes :=
  match e with
  | WrongType => bs "WRONGTYPE"
  | Unauthenticated => bs "NOAUTH"
  | NoProto => bs "NOPROTO"
  | Oom => bs "OOM"
  | Custom code _ => code
  | _ => bs "ERR"
  end.

(** [Display] *)
Definition display (e : CmdError) : bytes :=
  match e with
  | WrongType => bs "WRONGTYPE Operation against a key holding the wrong kind of value"
  | WrongArity name => bs "ERR wrong number of arguments for '" ++ name ++ bs "' command"
  | NotAnInteger => bs "ERR value is not an integer or out of range"
  | NotAFloat => bs "ERR value is not a valid float"
  | Syntax => bs "ERR syntax error"
  | OutOfRange => bs "ERR value is out of range"
  | IndexOutOfRange => bs "ERR index out of range"
  | NoSuchKey => bs "ERR no such key"
  | ValueOverflow => bs "ERR increment or decrement would overflow"
  | Unauthenticated => bs "NOAUTH Authentication required."
  | NoProto => bs "NOPROTO unsupported protocol version"
  | Oom => bs "OOM command not allowed when used memory > 'maxmemory'."
  | Custom code msg => code ++ bs " " ++ msg
  | Io e => bs "ERR " ++ e
  end.

(** ** Lossy UTF-8 decoding *)

Definition between (lo hi : Z) (c : byte) : bool := bool_decide (lo <= b2z c <= hi)%Z.

Definition utf8_width (c : byte) : nat :=
  if between 0 127 c then 1 else if between 194 223 c then 2
  else if between 224 239 c then 3 else if between 240 244 c then 4 else 0.

(** The second byte's range depends on the first. *)
Definition utf8_second (c d : byte) : bool :=
  if decide (b2z c = 224)%Z then between 160 191 d
  else if decide (b2z c = 237)%Z then between 128 159 d
  else if decide (b2z c = 240)%Z then between 144 191 d
  else if decide (b2z c = 244)%Z then between 128 143 d
  else between 128 191 d.

Definition utf8_cont : byte -> bool := between 128 191.

Definition REPLACEMENT : bytes := [xef; xbf; xbd].

(** How many of the next [n] bytes are continuation bytes, up to the first that is not. *)
Fixpoint cont_run (n : nat) (t : bytes) : nat :=
  match n, t with
  | S n, d :: t => if utf8_cont d then S (cont_run n t) else 0
  | _, _ => 0
  end.

(** The first character of the lossy text and what follows it: a maximal
    invalid prefix becomes one U+FFFD. *)
Definition utf8_next (c : byte) (t : bytes) : bytes * bytes :=
  match utf8_width c with
  | 1 => ([c], t)
  | 0 => (REPLACEMENT, t)
  | S (S n) =>
      match t with
      | d :: t1 =>
          if utf8_second c d then
            let k := cont_run n t1 in
            if decide (k = n) then (c :: d :: take n t1, drop n t1) else (REPLACEMENT, drop k t1)
          else (REPLACEMENT, t)
      | [] => (REPLACEMENT, [])
      end
  end.

(** [String::from_utf8_lossy(s).chars()], each character as its UTF-8 bytes. *)
Fixpoint utf8_lossy_chars (fuel : nat) (s : bytes) : list bytes :=
  match fuel, s with
  | S fuel, c :: t => let '(ch, rest) := utf8_next c t in ch :: utf8_lossy_chars fuel rest
  | _, _ => []
  end.

(** [String::from_utf8_lossy(s).chars().take(n).collect()] *)
Definition lossy_take (n : nat) (s : bytes) : bytes := concat (take n (utf8_lossy_chars (length s) s)).

Fixpoint unknown_command_args (args : bytes) (rest : list bytes) : bytes :=
  match rest with
  | [] => args
  | a :: rest =>
      if decide (128 <= length args) then args
      else
        let budget := 128 - length args in
        unknown_command_args (args ++ bs "'" ++ lossy_take budget a ++ bs "' ") rest
  end.

Definition unknown_command (name : bytes) (rest : list bytes) : CmdError :=
  Custom (bs "ERR")
    (bs "unknown command '" ++ lossy_take 128 name ++ bs "', with args beginning with: " ++
     unknown_command_args [] rest).

(** ** Facts *)

(** The leading token of an error's text, the one client libraries match
    on and [INFO errorstats] counts by, is [code()]. *)
Theorem display_code (e : CmdError) : exists msg, display e = code e ++ " "%byte :: msg.
Proof. destruct e; eexists; reflexivity. Qed.

Lemma utf8_next_spec (c : byte) (t : bytes) :
  let '(ch, rest) := utf8_next c t in
  1 <= length ch <= 4 /\ length rest <= length t /\
  (ch = REPLACEMENT \/ exists t1, t = t1 ++ rest /\ ch = c :: t1).
Proof.
  unfold utf8_next. destruct (utf8_width c) as [|[|n]] eqn:Ew; [by simpl; auto with lia| |].
  - simpl. split_and!; [lia..|]. right. by exists [].
  - destruct t as [|d t]; [by simpl; auto with lia|].
    assert (n <= 2) as Hn.
    { unfold utf8_width in Ew. repeat case_match; simplify_eq; lia. }
    destruct (utf8_second c d); [|by simpl; auto with lia]. case_decide as Hk.
    + simpl. rewrite length_take, length_drop. split_and!; [lia..|]. right.
      exists (d :: take n t). split; [|done]. simpl. by rewrite take_drop.
    + rewrite length_drop. simpl. split_and!; [lia..|by left].
Qed.

Lemma utf8_lossy_chars_bound (fuel : nat) (s : bytes) :
  Forall (fun ch => length ch <= 4) (utf8_lossy_chars fuel s).
Proof.
  revert s. induction fuel as [|fuel IH]; intros [|c t]; simpl; try constructor.
  pose proof (utf8_next_spec c t) as Hs. destruct (utf8_next c t) as [ch rest].
  constructor; [lia|done].
Qed.

Lemma lossy_take_bound (n : nat) (s : bytes) : length (lossy_take n s) <= 4 * n.
Proof.
  unfold lossy_take. pose proof (utf8_lossy_chars_bound (length s) s) as H.
  revert n. induction H as [|ch l Hch _ IH]; intros [|n]; simpl; try lia.
  rewrite length_app. specialize (IH n). lia.
Qed.

Lemma unknown_command_args_bound (args : bytes) (rest : list bytes) :
  length args <= 515 -> length (unknown_command_args args rest) <= 515.
Proof.
  revert args. induction rest as [|a rest IH]; intros args Ha; simpl; [done|].
  case_decide; [done|]. apply IH. change (bs "'") with ["'"%byte]. change (bs "' ") with ["'"%byte; " "%byte].
  rewrite length_app. cbn [app length]. rewrite length_app. cbn [length].
  pose proof (lossy_take_bound (128 - length args) a). lia.
Qed.

(** However long the unknown command and its arguments are, the error
    that echoes them is at most 1,080 bytes long. *)
Theorem unknown_command_bounded (name : bytes) (rest : list bytes) :
  length (display (unknown_command name rest)) <= 1080.
Proof.
  cbn [display unknown_command]. rewrite !length_app.
  pose proof (lossy_take_bound 128 name). pose proof (unknown_command_args_bound [] rest ltac:(simpl; lia)).
  simpl length in *. lia.
Qed.

(** Plain ASCII goes through unchanged. *)
Lemma utf8_lossy_ascii (s : bytes) :
  Forall (fun c => b2z c <= 127)%Z s -> forall fuel, length s <= fuel -> utf8_lossy_chars fuel s = (fun c => [c]) <$> s.
Proof.
  induction 1 as [|c t Hc _ IH]; intros [|fuel] Hf; simpl in *; try lia; try done.
  unfold utf8_next, utf8_width, between. rewrite bool_decide_true by (pose proof (b2z_range c); lia).
  by rewrite IH by lia.
Qed.

Lemma lossy_take_ascii (n : nat) (s : bytes) :
  Forall (fun c => b2z c <= 127)%Z s -> lossy_take n s = take n s.
Proof.
  intros Hs. unfold lossy_take. rewrite utf8_lossy_ascii by done. rewrite <-fmap_take.
  induction (take n s) as [|c l IH]; simpl; [done|f_equal; exact IH].
Qed.

(** ** Line breaks in an error's text *)

(** No CR and no LF: what can stand in an error line. *)
Definition unbroken (b : bytes) : Prop := x0d ∉ b /\ x0a ∉ b.

Lemma unbroken_nil : unbroken [].
Proof. split; apply not_elem_of_nil. Qed.
Lemma unbroken_app b b' : unbroken (b ++ b') <-> unbroken b /\ unbroken b'.
Proof. unfold unbroken. rewrite !elem_of_app. tauto. Qed.
Lemma unbroken_by_check b : forallb (fun c => negb (Byte.eqb c x0d) && negb (Byte.eqb c x0a)) b = true -> unbroken b.
Proof. rewrite forallb_forall. intros Hb. split; intros Hin%list_elem_of_In%Hb; by vm_compute in Hin. Qed.

Lemma utf8_next_suffix c t : (utf8_next c t).2 `suffix_of` t.
Proof.
  unfold utf8_next. destruct (utf8_width c) as [|[|n]]; [done..|]. destruct t as [|d t]; [done|].
  destruct (utf8_second c d); [|done]. case_decide; cbn [snd]; apply suffix_cons_r.
  - exists (take n t). by rewrite take_drop.
  - exists (take (cont_run n t) t). by rewrite take_drop.
Qed.

(** Decoding makes no line break. *)
Lemma unbroken_chars fuel s : unbroken s -> Forall unbroken (utf8_lossy_chars fuel s).
Proof.
  revert s. induction fuel as [|fuel IH]; intros [|c t] Hs; simpl; try constructor.
  pose proof (utf8_next_spec c t) as Hn. destruct (utf8_next_suffix c t) as [t0 Et]. destruct (utf8_next c t) as [ch rest]. cbn [snd] in Et.
  change (c :: t) with ([c] ++ t) in Hs. apply unbroken_app in Hs as Ht. destruct Ht as [_ Ht]. constructor.
  - destruct Hn as (_ & _ & [->|(t1 & E & ->)]); [apply unbroken_by_check; vm_compute; reflexivity|]. change (unbroken ([c] ++ t1)).
    rewrite E in Hs. apply unbroken_app in Hs as [Hc Hs]. apply unbroken_app in Hs as [Hs _]. by apply unbroken_app.
  - apply IH. rewrite Et in Ht. by apply unbroken_app in Ht as [_ Ht].
Qed.

Lemma unbroken_lossy n s : unbroken s -> unbroken (lossy_take n s).
Proof.
  intros Hs. unfold lossy_take. pose proof (unbroken_chars (length s) s Hs) as Hf. apply (@Forall_take _ _ n) in Hf.
  induction Hf as [|ch l Hc _ IH]; [apply unbroken_nil|]. by apply unbroken_app.
Qed.

Lemma unbroken_unknown name rest : unbroken name -> Forall unbroken rest -> unbroken (display (unknown_command name rest)).
Proof.
  intros Hn Hr. cbn [display unknown_command].
  assert (Ha : forall args, unbroken args -> unbroken (unknown_command_args args rest)).
  { induction Hr as [|a rest Ha _ IH]; intros args Hargs; cbn [unknown_command_args]; [done|]. case_decide; [done|].
    apply IH. rewrite !unbroken_app. split_and!; [done|apply unbroken_by_check; vm_compute; reflexivity|by apply unbroken_lossy|apply unbroken_by_check; vm_compute; reflexivity]. }
  rewrite !unbroken_app. split_and!; try (apply unbroken_by_check; vm_compute; reflexivity).
  - by apply unbroken_lossy.
  - apply Ha, unbroken_nil.
Qed.
