(* ===== verification/Reply.v ===== *)
(** * The RESP2/RESP3 reply writer ([src/reply.rs])

    Every method appends to the connection's output buffer; the divergence
    between the two protocol versions is decided here.  The client's side of
    the wire is specified by [read_wire], and [render_read] shows that any
    reply tree a handler writes with these methods is read back, whole and
    with nothing of what follows it, as its projection to the protocol in
    force. *)
From S2P Require Import Prelude Strnum Dtoa Errors Parser.
Open Scope nat_scope.

Definition RESP2 : Z := 2.
Definition RESP3 : Z := 3.

Record ReplyWriter := { buf : bytes; proto : Z }.

Definition is_resp3 (w : ReplyWriter) : bool := bool_decide (RESP3 <= proto w)%Z.

Definition extend_from_slice (s : bytes) (w : ReplyWriter) : ReplyWriter :=
  {| buf := buf w ++ s; proto := proto w |}.

Definition put_u8 (c : byte) (w : ReplyWriter) : ReplyWriter := extend_from_slice [c] w.

Definition mark (w : ReplyWriter) : nat := length (buf w).

Definition rollback (mark : nat) (w : ReplyWriter) : ReplyWriter :=
  if decide (mark <= length (buf w)) then {| buf := take mark (buf w); proto := proto w |} else w.

Definition ok (w : ReplyWriter) : ReplyWriter := extend_from_slice (bs "+OK" ++ CRLF) w.

Definition simple (s : bytes) (w : ReplyWriter) : ReplyWriter :=
  extend_from_slice CRLF (extend_from_slice s (put_u8 "+"%byte w)).

Definition error (e : CmdError) (w : ReplyWriter) : ReplyWriter :=
  extend_from_slice CRLF (extend_from_slice (display e) (put_u8 "-"%byte w)).

Definition error_str (msg : bytes) (w : ReplyWriter) : ReplyWriter :=
  extend_from_slice CRLF (extend_from_slice msg (put_u8 "-"%byte w)).

Section writer.
Context `{Itoa, Ryu}.

Definition put_i64 (v : Z) (w : ReplyWriter) : ReplyWriter := extend_from_slice (itoa_format v) w.
Definition put_usize (v : Z) (w : ReplyWriter) : ReplyWriter := extend_from_slice (itoa_format v) w.

Definition int (v : Z) (w : ReplyWriter) : ReplyWriter :=
  extend_from_slice CRLF (put_i64 v (put_u8 ":"%byte w)).

Definition bulk (b : bytes) (w : ReplyWriter) : ReplyWriter :=
  extend_from_slice CRLF (extend_from_slice b
    (extend_from_slice CRLF (put_usize (blen b) (put_u8 "$"%byte w)))).

Definition bulk_from (b : bytes) (w : ReplyWriter) : ReplyWriter := bulk b w.

Definition bulk_i64 (v : Z) (w : ReplyWriter) : ReplyWriter := bulk (itoa_format v) w.

Definition bulk2 (a b : bytes) (w : ReplyWriter) : ReplyWriter :=
  extend_from_slice CRLF (extend_from_slice b (extend_from_slice a
    (extend_from_slice CRLF (put_usize (blen a + blen b) (put_u8 "$"%byte w))))).

Definition null (w : ReplyWriter) : ReplyWriter :=
  if is_resp3 w then extend_from_slice (bs "_" ++ CRLF) w else extend_from_slice (bs "$-1" ++ CRLF) w.

Definition null_array (w : ReplyWriter) : ReplyWriter :=
  if is_resp3 w then extend_from_slice (bs "_" ++ CRLF) w else extend_from_slice (bs "*-1" ++ CRLF) w.

Definition double (v : f64) (w : ReplyWriter) : ReplyWriter :=
  if is_resp3 w then extend_from_slice CRLF (extend_from_slice (d2string v) (put_u8 ","%byte w))
  else bulk (d2string v) w.

Definition boolean (v : bool) (w : ReplyWriter) : ReplyWriter :=
  if is_resp3 w then extend_from_slice ((if v then bs "#t" else bs "#f") ++ CRLF) w
  else extend_from_slice ((if v then bs ":1" else bs ":0") ++ CRLF) w.

Definition verbatim (fmt b : bytes) (w : ReplyWriter) : ReplyWriter :=
  if is_resp3 w then
    let w := extend_from_slice CRLF (put_usize (blen b + 4) (put_u8 "="%byte w)) in
    let w := foldl (fun w i => put_u8 (default " "%byte (fmt !! i)) w) w (seq 0 3) in
    extend_from_slice CRLF (extend_from_slice b (put_u8 ":"%byte w))
  else bulk b w.

Definition big_number (s : bytes) (w : ReplyWriter) : ReplyWriter :=
  if is_resp3 w then extend_from_slice CRLF (extend_from_slice s (put_u8 "("%byte w)) else bulk s w.

(** [n] is a [usize]. *)
Definition array (n : Z) (w : ReplyWriter) : ReplyWriter :=
  extend_from_slice CRLF (put_usize n (put_u8 "*"%byte w)).

Definition map (n : Z) (w : ReplyWriter) : ReplyWriter :=
  extend_from_slice CRLF
    (if is_resp3 w then put_usize n (put_u8 "%"%byte w)
     else put_usize (Z.min U64_MAX (n * 2)) (put_u8 "*"%byte w)).

Definition set_header (n : Z) (w : ReplyWriter) : ReplyWriter :=
  extend_from_slice CRLF
    (put_usize n (if is_resp3 w then put_u8 "~"%byte w else put_u8 "*"%byte w)).

Definition push (n : Z) (w : ReplyWriter) : ReplyWriter :=
  extend_from_slice CRLF
    (put_usize n (if is_resp3 w then put_u8 ">"%byte w else put_u8 "*"%byte w)).

Definition attribute (n : Z) (w : ReplyWriter) : bool * ReplyWriter :=
  if is_resp3 w then (true, extend_from_slice CRLF (put_usize n (put_u8 "|"%byte w))) else (false, w).

Definition empty_array (w : ReplyWriter) : ReplyWriter := extend_from_slice (bs "*0" ++ CRLF) w.
Definition empty_bulk (w : ReplyWriter) : ReplyWriter := extend_from_slice (bs "$0" ++ CRLF ++ CRLF) w.
End writer.

(** ** Reply trees *)

Inductive aggregate := AArray | AMap | ASet | APush.

(** What a handler replies: the scalars, and the aggregates with their items
    (a map's are its keys and values in alternation). *)
Inductive value :=
| VOk | VSimple (s : bytes) | VError (e : CmdError) | VInt (v : Z)
| VBulk (b : bytes) | VBulkInt (v : Z) | VBulk2 (a b : bytes)
| VNull | VNullArray | VDouble (v : f64) | VBoolean (b : bool)
| VVerbatim (fmt b : bytes) | VBigNumber (s : bytes) | VEmptyArray | VEmptyBulk
| VAggregate (k : aggregate) (vs : list value).

Section render.
Context `{Itoa, Ryu}.

Definition header (k : aggregate) (n : Z) : ReplyWriter -> ReplyWriter :=
  match k with AArray => array n | AMap => map (n / 2) | ASet => set_header n | APush => push n end.

Fixpoint render (v : value) (w : ReplyWriter) : ReplyWriter :=
  match v with
  | VOk => ok w
  | VSimple s => simple s w
  | VError e => error e w
  | VInt v => int v w
  | VBulk b => bulk b w
  | VBulkInt v => bulk_i64 v w
  | VBulk2 a b => bulk2 a b w
  | VNull => null w
  | VNullArray => null_array w
  | VDouble v => double v w
  | VBoolean b => boolean b w
  | VVerbatim fmt b => verbatim fmt b w
  | VBigNumber s => big_number s w
  | VEmptyArray => empty_array w
  | VEmptyBulk => empty_bulk w
  | VAggregate k vs => fold_left (fun w v => render v w) vs (header k (blen vs) w)
  end.
End render.

(** ** The client's side

    A frame is a line, a length-prefixed string, a null, or a counted
    sequence of frames. *)
Inductive wire :=
| WLine (tag : byte) (text : bytes)
| WBulk (tag : byte) (payload : bytes)
| WNil (tag : byte)
| WItems (tag : byte) (items : list wire).

Definition line_tags : bytes := ["+"; "-"; ":"; "_"; ","; "#"; "("]%byte.
Definition bulk_tags : bytes := ["$"; "="]%byte.
Definition item_tags : bytes := ["*"; "~"; ">"; "%"]%byte.

(** Frames per counted item: a map counts pairs. *)
Definition per_item (tag : byte) : nat := if decide (tag = "%"%byte) then 2 else 1.

Fixpoint read_line (s : bytes) : option (bytes * bytes) :=
  match s with
  | [] => None
  | c :: r =>
      if decide (c = x0d /\ head r = Some x0a) then Some ([], tail r)
      else '(l, r) ← read_line r; Some (c :: l, r)
  end.

Fixpoint read_many (rd : bytes -> option (wire * bytes)) (n : nat) (s : bytes) : option (list wire * bytes) :=
  match n with
  | O => Some ([], s)
  | S n => '(x, s) ← rd s; '(xs, s) ← read_many rd n s; Some (x :: xs, s)
  end.

Fixpoint read_frame (fuel : nat) (s : bytes) : option (wire * bytes) :=
  match fuel, s with
  | S fuel, tag :: s =>
      '(line, rest) ← read_line s;
      if decide (tag ∈ line_tags) then Some (WLine tag line, rest)
      else if decide (line = bs "-1") then Some (WNil tag, rest)
      else
        let n := Z.to_nat (dec_value line) in
        if decide (tag ∈ bulk_tags) then
          if decide (take 2 (drop n rest) = CRLF) then Some (WBulk tag (take n rest), drop (n + 2) rest) else None
        else if decide (tag ∈ item_tags) then
          '(xs, rest) ← read_many (read_frame fuel) (per_item tag * n) rest; Some (WItems tag xs, rest)
        else None
  | _, _ => None
  end.

Definition read_wire (s : bytes) : option (wire * bytes) := read_frame (length s) s.

(** ** What a reply means under each protocol *)

Section project.
Context `{Itoa, Ryu}.

Definition aggregate_tag (resp3 : bool) (k : aggregate) : byte :=
  if resp3 then match k with AArray => "*"%byte | AMap => "%"%byte | ASet => "~"%byte | APush => ">"%byte end
  else "*"%byte.

(** Exactly three characters of format hint. *)
Definition hint (fmt : bytes) : bytes := take 3 (fmt ++ replicate 3 " "%byte).

Fixpoint project (resp3 : bool) (v : value) : wire :=
  match v with
  | VOk => WLine "+"%byte (bs "OK")
  | VSimple s => WLine "+"%byte s
  | VError e => WLine "-"%byte (display e)
  | VInt v => WLine ":"%byte (decimal v)
  | VBulk b => WBulk "$"%byte b
  | VBulkInt v => WBulk "$"%byte (decimal v)
  | VBulk2 a b => WBulk "$"%byte (a ++ b)
  | VNull => if resp3 then WLine "_"%byte [] else WNil "$"%byte
  | VNullArray => if resp3 then WLine "_"%byte [] else WNil "*"%byte
  | VDouble v => if resp3 then WLine ","%byte (d2string v) else WBulk "$"%byte (d2string v)
  | VBoolean b =>
      if resp3 then WLine "#"%byte (if b then bs "t" else bs "f")
      else WLine ":"%byte (if b then bs "1" else bs "0")
  | VVerbatim fmt b => if resp3 then WBulk "="%byte (hint fmt ++ bs ":" ++ b) else WBulk "$"%byte b
  | VBigNumber s => if resp3 then WLine "("%byte s else WBulk "$"%byte s
  | VEmptyArray => WItems "*"%byte []
  | VEmptyBulk => WBulk "$"%byte []
  | VAggregate k vs => WItems (aggregate_tag resp3 k) (project resp3 <$> vs)
  end.

(** What the writer asks of its callers: no CR in a line, integers that are
    [i64]s, lengths that are [usize]s, keys and values in pairs. *)
Fixpoint writable (v : value) : Prop :=
  match v with
  | VSimple s => x0d ∉ s
  | VBigNumber s => x0d ∉ s /\ (blen s <= I64_MAX)%Z
  | VError e => x0d ∉ display e
  | VInt v | VBulkInt v => (I64_MIN <= v <= I64_MAX)%Z
  | VBulk b => (blen b <= I64_MAX)%Z
  | VBulk2 a b => (blen a + blen b <= I64_MAX)%Z
  | VVerbatim _ b => (blen b <= I64_MAX - 4)%Z
  | VAggregate k vs =>
      (blen vs <= I64_MAX)%Z /\ (k = AMap -> Z.even (blen vs) = true) /\
      foldr (fun v P => writable v /\ P) True vs
  | _ => True
  end.
End project.

(** ** Encoding of frames *)

Fixpoint wire_bytes (x : wire) : bytes :=
  match x with
  | WLine tag text => tag :: text ++ CRLF
  | WBulk tag b => tag :: decimal (blen b) ++ CRLF ++ b ++ CRLF
  | WNil tag => tag :: bs "-1" ++ CRLF
  | WItems tag xs => tag :: decimal (blen xs / Z.of_nat (per_item tag)) ++ CRLF ++ concat (wire_bytes <$> xs)
  end.

Fixpoint well_formed (x : wire) : Prop :=
  match x with
  | WLine tag text => tag ∈ line_tags /\ x0d ∉ text
  | WBulk tag b => tag ∈ bulk_tags
  | WNil tag => tag ∈ ["$"; "*"]%byte
  | WItems tag xs =>
      tag ∈ item_tags /\ (tag = "%"%byte -> Z.even (blen xs) = true) /\
      foldr (fun x P => well_formed x /\ P) True xs
  end.

Fixpoint depth (x : wire) : nat :=
  match x with WItems _ xs => S (foldr (fun x n => Nat.max (depth x) n) 0 xs) | _ => 1 end.

Section wire_ind.
Context (P : wire -> Prop).
Context (Hline : forall tag text, P (WLine tag text)) (Hbulk : forall tag b, P (WBulk tag b))
  (Hnil : forall tag, P (WNil tag)) (Hitems : forall tag xs, Forall P xs -> P (WItems tag xs)).

Fixpoint wire_rect' (x : wire) : P x :=
  match x with
  | WLine tag text => Hline tag text
  | WBulk tag b => Hbulk tag b
  | WNil tag => Hnil tag
  | WItems tag xs =>
      Hitems tag xs ((fix go xs : Forall P xs :=
        match xs with [] => Forall_nil_2 P | x :: xs => Forall_cons_2 P x xs (wire_rect' x) (go xs) end) xs)
  end.
End wire_ind.

Section value_ind.
Context (P : value -> Prop).
Context (Hscalar : forall v, (forall k vs, v <> VAggregate k vs) -> P v)
  (Hagg : forall k vs, Forall P vs -> P (VAggregate k vs)).

Fixpoint value_rect' (v : value) : P v.
Proof.
  destruct v; try (apply Hscalar; discriminate). apply Hagg.
  exact ((fix go vs : Forall P vs :=
        match vs with [] => Forall_nil_2 P | v :: vs => Forall_cons_2 P v vs (value_rect' v) (go vs) end) vs).
Defined.
End value_ind.

Lemma foldr_and {A} (P : A -> Prop) (l : list A) : foldr (fun x Q => P x /\ Q) True l <-> Forall P l.
Proof. induction l as [|x l IH]; simpl; [by split|]. rewrite IH. by rewrite Forall_cons. Qed.

(** ** Reading frames back *)

Lemma read_line_crlf (s rest : bytes) : x0d ∉ s -> read_line (s ++ CRLF ++ rest) = Some (s, rest).
Proof.
  induction s as [|c s IH]; intros Hs; [done|]. cbn [app read_line]. apply not_elem_of_cons in Hs as [Hc Hs].
  rewrite decide_False by naive_solver. by rewrite IH.
Qed.

Lemma decimal_plain (n : Z) : (0 <= n)%Z -> x0d ∉ decimal n /\ decimal n <> bs "-1" /\ dec_value (decimal n) = n.
Proof.
  intros Hn. destruct (decimal_nonneg n Hn) as (Hd & Hv & _). split_and!; [|intros E; rewrite E in Hd|done].
  - by apply num_char_not_cr, digits_num.
  - by inversion Hd.
Qed.

Lemma read_many_items (rd : bytes -> option (wire * bytes)) (xs : list wire) (rest : bytes) :
  Forall (fun x => forall rest, rd (wire_bytes x ++ rest) = Some (x, rest)) xs ->
  read_many rd (length xs) (concat (wire_bytes <$> xs) ++ rest) = Some (xs, rest).
Proof.
  induction 1 as [|x xs Hx _ IH]; [done|]. rewrite fmap_cons. cbn [length read_many concat].
  rewrite <-app_assoc, Hx. cbn [mbind option_bind]. by rewrite IH.
Qed.

Lemma per_item_count (tag : byte) {A} (xs : list A) :
  (tag = "%"%byte -> Z.even (blen xs) = true) ->
  per_item tag * Z.to_nat (blen xs / Z.of_nat (per_item tag)) = length xs.
Proof.
  unfold per_item, blen. intros He. case_decide.
  - apply He, Zeven_bool_iff, Zeven_ex in H as [m Hm]. rewrite Hm. change (Z.of_nat 2) with 2%Z.
    rewrite Z.mul_comm, Z.div_mul by lia. lia.
  - change (Z.of_nat 1) with 1%Z. rewrite Z.div_1_r. lia.
Qed.

Lemma per_item_pos (tag : byte) : (0 < Z.of_nat (per_item tag))%Z.
Proof. unfold per_item. case_decide; lia. Qed.

Lemma read_frame_wire (x : wire) :
  well_formed x -> forall fuel rest, depth x <= fuel -> read_frame fuel (wire_bytes x ++ rest) = Some (x, rest).
Proof.
  induction x as [tag text|tag b|tag|tag xs IH] using wire_rect'; intros Hwf [|fuel] rest Hf;
    simpl in Hf; try lia; cbn [wire_bytes well_formed] in *.
  - destruct Hwf as [Ht Hs]. cbn [app read_frame]. rewrite <-app_assoc, read_line_crlf by done. simpl. by rewrite decide_True.
  - assert (tag ∉ line_tags) as Ht by (unfold bulk_tags, line_tags in *; set_solver).
    destruct (decimal_plain (blen b)) as (H1 & H2 & H3); [unfold blen; lia|].
    cbn [app read_frame]. rewrite <-!app_assoc, read_line_crlf by done. simpl.
    rewrite (decide_False (P := tag ∈ _)), (decide_False (P := _ = _)) by done. rewrite decide_True by done.
    rewrite H3. unfold blen. rewrite Nat2Z.id, drop_app_length, take_app_length.
    rewrite <-drop_drop, drop_app_length. simpl. done.
  - assert (tag ∉ line_tags) as Ht by (unfold line_tags; set_solver).
    cbn [app read_frame]. rewrite <-app_assoc, read_line_crlf by (unfold bs; simpl; set_solver).
    cbn [mbind option_bind]. by rewrite decide_False by done.
  - destruct Hwf as (Ht & He & Hxs%foldr_and).
    assert (tag ∉ line_tags /\ tag ∉ bulk_tags) as [H4 H5] by (unfold item_tags, bulk_tags, line_tags in *; set_solver).
    pose proof (per_item_pos tag).
    destruct (decimal_plain (blen xs / Z.of_nat (per_item tag))) as (H1 & H2 & H3);
      [apply Z.div_pos; unfold blen; lia|].
    cbn [app read_frame]. rewrite <-!app_assoc, read_line_crlf by done. simpl.
    rewrite (decide_False (P := tag ∈ line_tags)), (decide_False (P := _ = _)) by done.
    rewrite (decide_False (P := tag ∈ bulk_tags)), (decide_True (P := tag ∈ item_tags)) by done.
    rewrite H3, per_item_count, read_many_items; [done| |done].
    clear -IH Hxs Hf. induction IH as [|x xs Hx _ IH]; constructor; simpl in *; inversion_clear Hxs.
    + intros rest'. apply Hx; [done|lia].
    + apply IH; [done|lia].
Qed.

Lemma depth_bytes (x : wire) : depth x <= length (wire_bytes x).
Proof.
  induction x as [| | |tag xs IH] using wire_rect'; cbn [depth wire_bytes length]; try lia.
  rewrite !length_app. enough (foldr (fun x n => Nat.max (depth x) n) 0 xs <= length (concat (wire_bytes <$> xs))) by lia.
  induction IH as [|x xs Hx _ IH]; [simpl; lia|]. rewrite fmap_cons. cbn [foldr concat]. rewrite length_app. lia.
Qed.

Lemma read_wire_bytes (x : wire) (rest : bytes) :
  well_formed x -> read_wire (wire_bytes x ++ rest) = Some (x, rest).
Proof.
  intros Hx. apply read_frame_wire; [done|]. pose proof (depth_bytes x). rewrite length_app. lia.
Qed.

Section writer_facts.
Context `{ItoaLaws, RyuLaws}.
#[local] Set Default Proof Using "Type*".

Lemma itoa_len (n : Z) : (0 <= n <= U64_MAX)%Z -> itoa_format n = decimal n.
Proof. intros. apply itoa_decimal. unfold I64_MIN, U64_MAX in *. lia. Qed.

Lemma extend_app (s t : bytes) (w : ReplyWriter) :
  extend_from_slice t (extend_from_slice s w) = extend_from_slice (s ++ t) w.
Proof. unfold extend_from_slice. simpl. by rewrite app_assoc. Qed.

Lemma extend_nil (w : ReplyWriter) : extend_from_slice [] w = w.
Proof. destruct w. unfold extend_from_slice. simpl. by rewrite app_nil_r. Qed.

Lemma is_resp3_extend (s : bytes) (w : ReplyWriter) : is_resp3 (extend_from_slice s w) = is_resp3 w.
Proof. done. Qed.

Lemma bulk_wire (b : bytes) (w : ReplyWriter) :
  (blen b <= U64_MAX)%Z -> bulk b w = extend_from_slice (wire_bytes (WBulk "$"%byte b)) w.
Proof.
  intros Hb. unfold bulk, put_usize, put_u8. rewrite itoa_len by (unfold blen in *; lia).
  rewrite !extend_app. done.
Qed.

Lemma verbatim_hint (fmt : bytes) (w : ReplyWriter) :
  foldl (fun w i => put_u8 (default " "%byte (fmt !! i)) w) w (seq 0 3) = extend_from_slice (hint fmt) w.
Proof.
  simpl. unfold put_u8. rewrite !extend_app. f_equal. unfold hint.
  by destruct fmt as [|a [|b [|c fmt]]].
Qed.

Lemma hint_length (fmt : bytes) : length (hint fmt) = 3.
Proof. unfold hint. rewrite length_take, length_app, length_replicate. lia. Qed.

Lemma header_wire (k : aggregate) (n : Z) (w : ReplyWriter) :
  (0 <= n <= I64_MAX)%Z -> (k = AMap -> Z.even n = true) ->
  header k n w = let tag := aggregate_tag (is_resp3 w) k in
    extend_from_slice (tag :: decimal (n / Z.of_nat (per_item tag)) ++ CRLF) w.
Proof.
  intros Hn He. assert (forall m, (0 <= m <= U64_MAX)%Z -> itoa_format m = decimal m) as Hi by apply itoa_len.
  unfold I64_MAX, U64_MAX in *. assert (0 <= n / 2 <= n)%Z by (split; [apply Z.div_pos|apply Z.div_le_upper_bound]; lia).
  destruct k; unfold header, array, map, set_header, push, put_usize, put_u8, U64_MAX; cbn zeta;
    destruct (is_resp3 w) eqn:E3; cbn [aggregate_tag]; rewrite !extend_app, Hi by lia;
    change (per_item "*") with 1; change (per_item "%") with 2; change (per_item "~") with 1;
    change (per_item ">") with 1; cbn [Z.of_nat]; rewrite ?Z.div_1_r; try done.
  specialize (He eq_refl). apply Zeven_bool_iff, Zeven_ex in He as [m ->].
  rewrite (Z.mul_comm 2 m), Z.div_mul by lia. by rewrite Z.min_r by lia.
Qed.

Lemma wire_items (k : aggregate) (vs : list value) (resp3 : bool) :
  wire_bytes (project resp3 (VAggregate k vs)) =
  (aggregate_tag resp3 k :: decimal (blen vs / Z.of_nat (per_item (aggregate_tag resp3 k))) ++ CRLF) ++
  concat (wire_bytes <$> (project resp3 <$> vs)).
Proof. cbn [project wire_bytes]. unfold blen. rewrite length_fmap. cbn [app]. by rewrite <-app_assoc. Qed.

(** Each method appends the frame its reply stands for. *)
Lemma render_wire (v : value) (w : ReplyWriter) :
  writable v -> render v w = extend_from_slice (wire_bytes (project (is_resp3 w) v)) w.
Proof.
  revert w. induction v as [v Hv|k vs IH] using value_rect'; intros w Hw.
  - assert (forall l, (I64_MIN <= l <= I64_MAX)%Z -> itoa_format l = decimal l) as Hi.
    { intros. apply itoa_decimal. unfold I64_MAX, U64_MAX in *. lia. }
    assert (I64_MAX <= U64_MAX)%Z as Hm by (unfold I64_MAX, U64_MAX; lia).
    destruct v; simpl render; cbn [project writable] in *; try done; [..|by edestruct Hv].
    + unfold simple, put_u8. by rewrite !extend_app.
    + unfold error, put_u8. by rewrite !extend_app.
    + unfold int, put_i64, put_u8. rewrite !extend_app, Hi by done. done.
    + by apply bulk_wire; lia.
    + unfold bulk_i64. rewrite Hi by done. apply bulk_wire.
      pose proof (decimal_length v ltac:(done)). unfold blen, U64_MAX. lia.
    + unfold bulk2, put_usize, put_u8. rewrite !extend_app, itoa_len by (unfold blen in *; lia).
      cbn [wire_bytes]. unfold blen. rewrite length_app, Nat2Z.inj_add. by rewrite <-app_assoc.
    + unfold null. by destruct (is_resp3 w).
    + unfold null_array. by destruct (is_resp3 w).
    + unfold double. destruct (d2string_line v) as [_ Hd]. destruct (is_resp3 w).
      * unfold put_u8. rewrite !extend_app. done.
      * apply bulk_wire. unfold blen, U64_MAX. lia.
    + unfold boolean. destruct (is_resp3 w), b; done.
    + unfold verbatim. destruct (is_resp3 w); [|by apply bulk_wire; lia]. cbn zeta.
      rewrite verbatim_hint. unfold put_usize, put_u8. rewrite itoa_len by (unfold blen in *; lia).
      rewrite !extend_app. cbn [wire_bytes]. f_equal. unfold blen. rewrite !length_app, hint_length.
      change (length (bs ":")) with 1. rewrite <-!app_assoc. cbn [app]. do 3 f_equal.
      unfold blen. lia.
    + unfold big_number. destruct (is_resp3 w); [|by apply bulk_wire; lia].
      unfold put_u8. rewrite !extend_app. done.
  - destruct Hw as (Hl & He & Hvs%foldr_and). rewrite wire_items. simpl render.
    rewrite header_wire by (done || unfold blen in *; lia). cbn zeta. rewrite <-extend_app.
    set (w1 := extend_from_slice (_ :: _) w). assert (is_resp3 w = is_resp3 w1) as -> by done.
    clearbody w1. clear -IH Hvs. revert w1. induction IH as [|v vs Hv _ IH]; intros w1; [by rewrite extend_nil|].
    inversion_clear Hvs. rewrite !fmap_cons. cbn [fold_left concat]. rewrite Hv by done.
    rewrite IH, extend_app by done. by rewrite is_resp3_extend.
Qed.

Lemma project_well_formed (v : value) (resp3 : bool) : writable v -> well_formed (project resp3 v).
Proof.
  induction v as [v Hv|k vs IH] using value_rect'; intros Hw.
  - destruct v as [| | | | | | | | |d|b| | | | |]; cbn [project writable] in *; [..|by edestruct Hv]; try destruct resp3; try destruct b;
      cbn [well_formed]; try (destruct (d2string_line d) as [? _]);
      repeat split; try (by destruct Hw); try done; unfold line_tags, bulk_tags, item_tags, bs; simpl; try set_solver.
    all: apply num_char_not_cr. all: destruct (decide (0 <= v)%Z);
      [apply digits_num, decimal_nonneg; done|rewrite decimal_neg by lia; constructor; [done|apply digits_num, decimal_nonneg; lia]].
  - destruct Hw as (Hl & He & Hvs%foldr_and). cbn [project well_formed]. split_and!.
    + unfold aggregate_tag, item_tags. destruct resp3, k; set_solver.
    + unfold blen. rewrite length_fmap. intros Ht. apply He. by destruct resp3, k.
    + apply foldr_and. rewrite Forall_fmap. clear -IH Hvs.
      induction IH; inversion_clear Hvs; constructor; auto.
Qed.

(** C18: Whatever reply a handler writes through these methods, nested
    aggregates included, the client reads back exactly its projection to the
    protocol in force, and stops exactly where the reply ends: the rest of
    the stream is untouched.  Bytes already in the buffer are kept. *)
Theorem render_read (v : value) (w : ReplyWriter) :
  writable v ->
  exists frame, buf (render v w) = buf w ++ frame /\ proto (render v w) = proto w /\
    forall rest, read_wire (frame ++ rest) = Some (project (is_resp3 w) v, rest).
Proof.
  intros Hv. rewrite render_wire by done. eexists. split_and!; [done..|].
  intros rest. by apply read_wire_bytes, project_well_formed.
Qed.

(** ** Requests *)

(** The request a client sends: an array of bulk strings. *)
Definition request (args : list bytes) : bytes :=
  buf (fold_left (fun w a => bulk a w) args (array (blen args) {| buf := []; proto := RESP2 |})).

Lemma parse_i64_digits_value (v : Z) (ds : bytes) :
  (0 <= v)%Z -> digits ds -> (dec_from v ds <= I64_MAX)%Z -> parse_i64_digits v ds = Some (dec_from v ds).
Proof.
  revert v. induction ds as [|c ds IH]; intros v Hv Hd Hb; [done|]. inversion_clear Hd as [|? ? Hc Hds].
  change (dec_from v (c :: ds)) with (dec_from (v * 10 + digit_val c) ds) in *.
  pose proof (digit_val_range c Hc). pose proof (dec_from_ge (v * 10 + digit_val c) ds ltac:(lia) Hds).
  simpl. rewrite Hc. unfold checked_i64. simpl.
  rewrite decide_True by (unfold I64_MIN, I64_MAX in *; lia). simpl.
  rewrite decide_True by (unfold I64_MIN, I64_MAX in *; lia). simpl. by apply IH; [lia|..].
Qed.

Lemma parse_i64_decimal (n : Z) : (0 <= n <= I64_MAX)%Z -> parse_i64_strict (decimal n) = Some n.
Proof.
  intros Hn. destruct (decimal_nonneg n ltac:(lia)) as (Hd & Hv & _).
  unfold parse_i64_strict. destruct (decimal n) as [|c ds] eqn:E.
  - change 0%Z with n in Hv. exfalso. destruct (decimal_head_digit n ltac:(lia)) as (? & ? & ? & _). congruence.
  - pose proof (Forall_inv Hd) as Hc. rewrite decide_False by (intros ->; done). cbn zeta.
    rewrite parse_i64_digits_value; [|done..|].
    + simpl. f_equal. exact Hv.
    + change (dec_from 0 (c :: ds)) with (dec_value (c :: ds)). lia.
Qed.
End writer_facts.

Section request_facts.
Context `{ItoaLaws, MemchrLaws}.
#[local] Set Default Proof Using "Type*".

Lemma line_end_found (pre line post : bytes) (scanned : nat) :
  x0d ∉ line -> scanned <= length pre ->
  line_end (pre ++ line ++ CRLF ++ post) (length pre) scanned =
    Found (length pre) (length pre + length line) (length pre + length line + 2).
Proof.
  intros Hl Hs. unfold line_end. rewrite Nat.max_r by done.
  rewrite slice_from_Some by (rewrite length_app; lia). rewrite drop_app_length.
  change (CRLF ++ post) with (x0d :: x0a :: post). rewrite memchr_app by done.
  replace ((pre ++ line ++ x0d :: x0a :: post) !! (length pre + length line + 1)) with (Some x0a); [done|].
  rewrite !lookup_app_r by lia. by replace (length pre + length line + 1 - length pre - length line) with 1 by lia.
Qed.

Lemma slice_middle (pre x post : bytes) :
  slice (length pre) (length pre + length x) (pre ++ x ++ post) = Some x.
Proof.
  rewrite slice_Some by (rewrite !length_app; lia). rewrite drop_app_length, Nat.add_sub_swap, Nat.sub_diag by lia.
  simpl. by rewrite take_app_length.
Qed.

Definition bulk_bytes (a : bytes) : bytes := "$"%byte :: decimal (blen a) ++ CRLF ++ a ++ CRLF.

Lemma request_bytes (args : list bytes) :
  Forall (fun a => blen a <= I64_MAX)%Z args -> (blen args <= I64_MAX)%Z ->
  request args = "*"%byte :: decimal (blen args) ++ CRLF ++ concat (bulk_bytes <$> args).
Proof.
  intros Ha Hn. assert (I64_MAX <= U64_MAX)%Z by (unfold I64_MAX, U64_MAX; lia). unfold request.
  assert (array (blen args) {| buf := []; proto := RESP2 |} =
    {| buf := "*"%byte :: decimal (blen args) ++ CRLF; proto := RESP2 |}) as ->.
  { unfold array, put_usize, put_u8. rewrite itoa_len by (unfold blen in *; lia). by rewrite !extend_app. }
  assert (forall w, buf (fold_left (fun w a => bulk a w) args w) = buf w ++ concat (bulk_bytes <$> args)) as ->.
  { clear Hn. induction Ha as [|a args Ha _ IH]; intros w; [by rewrite app_nil_r|].
    rewrite fmap_cons. cbn [fold_left concat]. rewrite IH, bulk_wire by lia.
    unfold extend_from_slice. cbn [buf]. by rewrite <-app_assoc. }
  cbn [buf app]. by rewrite <-!app_assoc.
Qed.

Definition at_bulk (mx : Z) (pos : nat) (rem : Z) (rs : list (nat * nat)) : RequestParser :=
  {| proto_max_bulk_len := mx; state := BulkHeader pos rem pos; ranges := rs |}.
Definition in_bulk (mx : Z) (start : nat) (len rem : Z) (rs : list (nat * nat)) : RequestParser :=
  {| proto_max_bulk_len := mx; state := BulkBody start len rem; ranges := rs |}.

Definition behind (n : nat) : list (nat * nat) -> Prop := Forall (fun '(s, e) => s <= e <= n).

Lemma behind_le (n m : nat) (rs : list (nat * nat)) : n <= m -> behind n rs -> behind m rs.
Proof. intros Hnm H'. eapply Forall_impl; [exact H'|]. intros [??]; simpl; lia. Qed.

(** The header of a bulk. *)
Lemma parse_bulk_header (mx rem : Z) (pre a post : bytes) (rs : list (nat * nat)) :
  (blen a <= mx)%Z -> (blen a <= I64_MAX)%Z -> (1 <= rem <= MULTIBULK_MAX)%Z -> behind (length pre) rs ->
  let B := pre ++ "$"%byte :: decimal (blen a) ++ CRLF ++ post in
  parse (at_bulk mx (length pre) rem rs) B =
  parse (in_bulk mx (length (pre ++ "$"%byte :: decimal (blen a) ++ CRLF)) (blen a) (rem - 1) rs) B.
Proof.
  intros Hmx Hlen Hrem Hrs B. assert (0 <= blen a)%Z by (unfold blen; lia).
  destruct (decimal_plain (blen a)) as (Hcr & _ & _); [done|].
  rewrite parse_unfold.
  2:{ split; [exact Hrs|]. simpl. subst B. rewrite length_app. lia. }
  unfold step. cbn [state at_bulk]. unfold step_bulk_header.
  replace (B !! length pre) with (Some "$"%byte) by (subst B; by rewrite list_lookup_middle).
  destruct (decide (_ <> _)) as [|_]; [done|].
  pose proof (line_end_found (pre ++ ["$"%byte]) (decimal (blen a)) post (length pre) Hcr) as Hle.
  pose proof (slice_middle (pre ++ ["$"%byte]) (decimal (blen a)) (CRLF ++ post)) as Hsl.
  rewrite <-app_assoc, length_app in Hle, Hsl. fold B in Hle, Hsl. cbn [app length] in Hle, Hsl. fold B in Hle, Hsl.
  rewrite Hle, Hsl by lia. cbn [default from_option id]. rewrite parse_i64_decimal by lia. cbn [proto_max_bulk_len at_bulk parser_new].
  destruct (decide (_ \/ _)) as [|_]; [lia|]. unfold with_state, in_bulk. cbn [proto_max_bulk_len ranges at_bulk].
  do 3 f_equal. rewrite length_app. cbn [length]. rewrite length_app. simpl. lia.
Qed.

(** Its payload: the next header, or the whole command when it was the last. *)
Lemma parse_bulk_body (mx rem : Z) (pre a post : bytes) (rs : list (nat * nat)) (dn : list bytes) :
  (0 <= rem < MULTIBULK_MAX)%Z -> behind (length pre) rs -> mapM (fun '(s, e) => slice s e pre) rs = Some dn ->
  let B := pre ++ a ++ CRLF ++ post in
  (blen B <= I64_MAX)%Z ->
  exists rs', behind (length (pre ++ a ++ CRLF)) rs' /\
    mapM (fun '(s, e) => slice s e (pre ++ a ++ CRLF)) rs' = Some (dn ++ [a]) /\
    parse (in_bulk mx (length pre) (blen a) rem rs) B =
      if decide (rem = 0)%Z then Some (parser_new mx, post, inr (Command (dn ++ [a])))
      else parse (at_bulk mx (length (pre ++ a ++ CRLF)) rem rs') B.
Proof.
  intros Hrem Hrs Hdn B HB. set (n := length (pre ++ a ++ CRLF)).
  assert (n = length pre + length a + 2) as Hn by (subst n; rewrite !length_app; simpl; lia).
  assert (B = (pre ++ a ++ CRLF) ++ post) as EB by (subst B; by rewrite <-!app_assoc).
  assert (n <= length B) as HnB by (rewrite EB, length_app; lia). unfold blen in *.
  exists (rs ++ [(length pre, n - 2)]).
  assert (mapM (fun '(s, e) => slice s e (pre ++ a ++ CRLF)) (rs ++ [(length pre, n - 2)]) = Some (dn ++ [a])) as Hm.
  { apply mapM_app_Some; [by apply mapM_slices_app|]. simpl.
    replace (n - 2) with (length pre + length a) by lia. by rewrite slice_middle. }
  split_and!; [|exact Hm|].
  { apply Forall_app. split; [by apply (behind_le (length pre)); [lia|]|]. repeat constructor; lia. }
  rewrite parse_unfold.
  2:{ split; [exact Hrs|]. simpl. unfold I64_MAX in *. lia. }
  unfold step. cbn [state in_bulk]. unfold step_bulk_body. cbn zeta.
  replace (Z.of_nat (length pre) + Z.of_nat (length a) + 2)%Z with (Z.of_nat n) by lia. unfold blen.
  destruct (decide (U64_MAX < _)%Z) as [HU|_]; [unfold U64_MAX, I64_MAX in *; lia|].
  destruct (decide (_ < _)%Z) as [|_]; [lia|]. rewrite Nat2Z.id. cbn [ranges proto_max_bulk_len in_bulk].
  destruct (decide (rem = 0)%Z); [|done]. rewrite EB. by rewrite take_app_length', drop_app_length', Hm.
Qed.

Lemma parse_bulks (mx : Z) (args : list bytes) (rest : bytes) :
  args <> [] -> (blen args <= MULTIBULK_MAX)%Z -> Forall (fun a => blen a <= mx)%Z args ->
  forall pre rs dn,
    behind (length pre) rs -> mapM (fun '(s, e) => slice s e pre) rs = Some dn ->
    (blen (pre ++ concat (bulk_bytes <$> args) ++ rest) <= I64_MAX)%Z ->
    parse (at_bulk mx (length pre) (blen args) rs) (pre ++ concat (bulk_bytes <$> args) ++ rest) =
    Some (parser_new mx, rest, inr (Command (dn ++ args))).
Proof.
  intros Hne Hn Ha. induction Ha as [|a args Hlen Ha IH]; [done|]. clear Hne. intros pre rs dn Hrs Hdn HB.
  set (tail := concat (bulk_bytes <$> args) ++ rest).
  set (hd := pre ++ "$"%byte :: decimal (blen a) ++ CRLF).
  assert (pre ++ concat (bulk_bytes <$> a :: args) ++ rest = hd ++ a ++ CRLF ++ tail) as E.
  { rewrite fmap_cons. cbn [concat]. unfold bulk_bytes at 1. subst hd tail. rewrite <-!app_assoc. cbn [app].
    do 2 f_equal. by rewrite <-!app_assoc. }
  assert (hd ++ a ++ CRLF ++ tail = pre ++ "$"%byte :: decimal (blen a) ++ CRLF ++ a ++ CRLF ++ tail) as E'.
  { subst hd. rewrite <-!app_assoc. cbn [app]. by rewrite <-!app_assoc. }
  rewrite E in HB |- *. assert (0 <= blen args)%Z by (unfold blen; lia).
  assert (blen (a :: args) = blen args + 1)%Z as Hb by (unfold blen; simpl; lia).
  assert (blen a <= I64_MAX)%Z as Hla by (unfold blen in *; rewrite !length_app in HB; lia).
  assert (behind (length hd) rs) as Hrs'.
  { apply (behind_le (length pre)); [|done]. subst hd. rewrite length_app. lia. }
  rewrite E', parse_bulk_header by (done || lia). rewrite <-E'. fold hd. rewrite Hb, Z.add_simpl_r.
  destruct (parse_bulk_body mx (blen args) hd a tail rs dn) as (rs' & Hr1 & Hr2 & ->); [lia|done| |done|].
  { subst hd. by apply mapM_slices_app. }
  case_decide as Hz.
  - destruct args; [done|]. unfold blen in Hz. simpl in Hz. lia.
  - assert (hd ++ a ++ CRLF ++ tail = (hd ++ a ++ CRLF) ++ concat (bulk_bytes <$> args) ++ rest) as E2.
    { subst tail. by rewrite <-!app_assoc. }
    rewrite E2 in HB |- *. rewrite (IH ltac:(by intros ->) ltac:(lia) (hd ++ a ++ CRLF) rs' (dn ++ [a])) by done.
    by rewrite <-app_assoc.
Qed.

Definition request_ok (mx : Z) (args : list bytes) : Prop :=
  args <> [] /\ (blen args <= MULTIBULK_MAX)%Z /\ Forall (fun a => blen a <= mx)%Z args /\ Forall (fun a => blen a <= I64_MAX)%Z args.

Lemma request_layout (mx : Z) (args : list bytes) :
  request_ok mx args -> request args = ("*"%byte :: decimal (blen args) ++ CRLF) ++ concat (bulk_bytes <$> args).
Proof.
  intros (_ & Hn & _ & Hl). rewrite request_bytes by (done || unfold MULTIBULK_MAX, I64_MAX in *; lia).
  cbn [app]. by rewrite <-app_assoc.
Qed.

(** The header of the command, then its bulks. *)
Lemma parse_mbulk_header (mx : Z) (args : list bytes) (tail : bytes) :
  request_ok mx args ->
  let hd := "*"%byte :: decimal (blen args) ++ CRLF in
  parse (parser_new mx) (hd ++ tail) = parse (at_bulk mx (length hd) (blen args) []) (hd ++ tail).
Proof.
  intros (Hne & Hn & _) hd. assert (0 < blen args)%Z by (unfold blen; destruct args; simpl; [done|lia]).
  destruct (decimal_plain (blen args)) as (Hcr & _ & _); [lia|].
  rewrite parse_unfold by by apply wf_start. unfold step. cbn [state parser_new]. subst hd. cbn [app step_start].
  rewrite decide_True by done. unfold with_state. cbn [proto_max_bulk_len ranges parser_new].
  rewrite parse_unfold by (split; [constructor|simpl; lia]). unfold step. cbn [state]. unfold step_mbulk_header.
  pose proof (line_end_found ["*"%byte] (decimal (blen args)) tail 1 Hcr ltac:(simpl; lia)) as Hle.
  pose proof (slice_middle ["*"%byte] (decimal (blen args)) (CRLF ++ tail)) as Hsl.
  cbn [app length] in Hle, Hsl. rewrite <-app_assoc, Hle, Hsl. cbn [default from_option id].
  rewrite parse_i64_decimal by (unfold MULTIBULK_MAX, I64_MAX in *; lia).
  destruct (decide _) as [|_]; [lia|]. destruct (decide _) as [|_]; [lia|]. cbn [proto_max_bulk_len parser_new].
  unfold at_bulk. cbn [length]. by rewrite length_app, Nat.add_1_l.
Qed.

Lemma parse_request (mx : Z) (args : list bytes) (rest : bytes) :
  request_ok mx args -> (blen (request args ++ rest) <= I64_MAX)%Z ->
  parse (parser_new mx) (request args ++ rest) = Some (parser_new mx, rest, inr (Command args)).
Proof.
  intros Hok HB. rewrite (request_layout mx) in HB |- * by done. rewrite <-app_assoc in HB |- *. rewrite parse_mbulk_header by done.
  destruct Hok as (Hne & Hn & Ha & _). by apply (parse_bulks mx args rest Hne Hn Ha _ [] []); [constructor|..].
Qed.

(** C12: A request of between one and 2^20 arguments, each within
    [proto-max-bulk-len], is parsed back to exactly those arguments, consuming
    exactly its own bytes and leaving the parser ready for the next frame.
    (A buffer is an allocation, so at most [isize::MAX] bytes.) *)
Theorem request_round_trip (mx : Z) (args : list bytes) (rest : bytes) :
  args <> [] -> (blen args <= MULTIBULK_MAX)%Z -> Forall (fun a => blen a <= mx)%Z args ->
  (blen (request args ++ rest) <= I64_MAX)%Z -> Forall (fun a => blen a <= I64_MAX)%Z args ->
  parse (parser_new mx) (request args ++ rest) = Some (parser_new mx, rest, inr (Command args)).
Proof. intros. by apply parse_request. Qed.
End request_facts.

(** ** Errors on the wire *)

(** An error whose text holds a line break is not one reply.  The client
    reads the part before the break as the error and takes what follows for
    the next reply; [unknown_command] echoes such bytes from the request. *)
Theorem error_splits (name pre post : bytes) (rest : list bytes) (w : ReplyWriter) :
  x0d ∉ pre -> Forall (fun c => b2z c <= 127)%Z name -> length name <= 128 -> name = pre ++ CRLF ++ post ->
  exists tail,
    buf (error (unknown_command name rest) w) = buf w ++ tail /\
    forall more, read_wire (tail ++ more) =
      Some (WLine "-"%byte (bs "ERR unknown command '" ++ pre),
            post ++ bs "', with args beginning with: " ++ unknown_command_args [] rest ++ CRLF ++ more).
Proof.
  intros Hcr Hasc Hlen E. eexists. split.
  { unfold error, put_u8. cbn [display unknown_command]. rewrite !extend_app. cbn [buf extend_from_slice]. reflexivity. }
  intros more. rewrite lossy_take_ascii, firstn_all2, E by done. set (t := unknown_command_args [] rest).
  assert (forall s t, (x0d ∉ s) ->
    read_wire ("-"%byte :: s ++ CRLF ++ t) = Some (WLine "-"%byte s, t)) as Hread.
  { intros s t' Hs. unfold read_wire. cbn [length read_frame]. rewrite read_line_crlf by done.
    cbn [mbind option_bind]. rewrite decide_True by (unfold line_tags; set_solver). done. }
  rewrite <-Hread.
  - f_equal. cbn [app]. f_equal. unfold bs. rewrite <-!app_assoc. reflexivity.
  - intros [H|H]%elem_of_app; [|done]. revert H. unfold bs. simpl. set_solver.
Qed.

Lemma render_read_witness :
  @writable (VAggregate AMap [VBulk (bs "a"); VAggregate ASet [VInt (-7); VNull]]) /\
  @read_wire (buf (@render itoa_model ryu_model (VAggregate AMap [VBulk (bs "a"); VAggregate ASet [VInt (-7); VNull]])
    {| buf := []; proto := RESP2 |}) ++ bs "+next") =
  Some (WItems "*"%byte [WBulk "$"%byte (bs "a"); WItems "*"%byte [WLine ":"%byte (bs "-7"); WNil "$"%byte]], bs "+next").
Proof.
  assert (writable (VAggregate AMap [VBulk (bs "a"); VAggregate ASet [VInt (-7); VNull]])) as Hw.
  { vm_compute. repeat split; discriminate. }
  split; [exact Hw|].
  destruct (@render_read itoa_model itoa_model_laws ryu_model ryu_model_laws _ {| buf := []; proto := RESP2 |} Hw)
    as (frame & Hb & _ & Hr).
  rewrite Hb. exact (Hr (bs "+next")).
Defined.

Lemma request_round_trip_witness :
  @parse memchr_find (parser_new 512) (@request itoa_model [bs "GET"; bs "k"] ++ bs "*1") =
  Some (parser_new 512, bs "*1", inr (Command [bs "GET"; bs "k"])).
Proof.
  apply (@request_round_trip itoa_model itoa_model_laws memchr_find memchr_find_laws);
    [discriminate|vm_compute; discriminate|repeat constructor; vm_compute; discriminate
    |vm_compute; discriminate|repeat constructor; vm_compute; discriminate].
Defined.

Lemma error_splits_witness :
  exists tail,
    buf (error (unknown_command (bs "a" ++ CRLF ++ bs "+OK") []) {| buf := []; proto := RESP2 |}) = [] ++ tail /\
    forall more, read_wire (tail ++ more) =
      Some (WLine "-"%byte (bs "ERR unknown command '" ++ bs "a"),
            bs "+OK" ++ bs "', with args beginning with: " ++ unknown_command_args [] [] ++ CRLF ++ more).
Proof.
  apply (error_splits (bs "a" ++ CRLF ++ bs "+OK") (bs "a") (bs "+OK") [] {| buf := []; proto := RESP2 |}).
  - unfold bs. simpl. intros H%list_elem_of_singleton. discriminate H.
  - repeat constructor; vm_compute; discriminate.
  - vm_compute. repeat constructor.
  - reflexivity.
Defined.
