(* ===== verification/Notify.v ===== *)
(** * Keyspace notifications ([src/notify.rs])

    The event classes (bit flags), the [notify-keyspace-events] configuration
    string, the delivery gate and the two channels an event is published on.
    The sink is whatever implements [NotifySink]; what [dispatch] does to it is
    the list of [publish] calls it makes. *)
From S2P Require Import Prelude Strnum.
Open Scope Z_scope.

(** A [NotifyClass] is its [u32] of bits. *)
Abbreviation NotifyClass := Z.

Definition KEYSPACE : NotifyClass := Z.shiftl 1 0.
Definition KEYEVENT : NotifyClass := Z.shiftl 1 1.
Definition GENERIC : NotifyClass := Z.shiftl 1 2.
Definition STRING : NotifyClass := Z.shiftl 1 3.
Definition LIST : NotifyClass := Z.shiftl 1 4.
Definition SET : NotifyClass := Z.shiftl 1 5.
Definition HASH : NotifyClass := Z.shiftl 1 6.
Definition ZSET : NotifyClass := Z.shiftl 1 7.
Definition EXPIRED : NotifyClass := Z.shiftl 1 8.
Definition EVICTED : NotifyClass := Z.shiftl 1 9.
Definition STREAM : NotifyClass := Z.shiftl 1 10.
Definition KEY_MISS : NotifyClass := Z.shiftl 1 11.
Definition NEW : NotifyClass := Z.shiftl 1 12.
Definition MODULE_TYPE : NotifyClass := Z.shiftl 1 13.

Definition ALL : NotifyClass :=
  foldl Z.lor 0 [GENERIC; STRING; LIST; SET; HASH; ZSET; EXPIRED; EVICTED; STREAM; MODULE_TYPE].

(** [bitflags]: [contains] and [intersects]. *)
Definition contains (s f : NotifyClass) : bool := bool_decide (Z.land s f = f).
Definition intersects (s f : NotifyClass) : bool := bool_decide (Z.land s f <> 0).

(** The class a configuration character stands for. *)
Definition class_of_char (c : byte) : option NotifyClass :=
  match c with
  | "K" => Some KEYSPACE | "E" => Some KEYEVENT | "g" => Some GENERIC | "$" => Some STRING
  | "l" => Some LIST | "s" => Some SET | "h" => Some HASH | "z" => Some ZSET | "x" => Some EXPIRED
  | "e" => Some EVICTED | "t" => Some STREAM | "m" => Some KEY_MISS | "n" => Some NEW
  | "d" => Some MODULE_TYPE | "A" => Some ALL | _ => None
  end%byte.

Fixpoint parse_from (flags : NotifyClass) (s : bytes) : option NotifyClass :=
  match s with
  | [] => Some flags
  | c :: s => f ← class_of_char c; parse_from (Z.lor flags f) s
  end.

Definition parse (s : bytes) : option NotifyClass := parse_from 0 s.

Definition class_chars : list (NotifyClass * byte) :=
  [(GENERIC, "g"); (STRING, "$"); (LIST, "l"); (SET, "s"); (HASH, "h"); (ZSET, "z");
   (EXPIRED, "x"); (EVICTED, "e"); (STREAM, "t"); (MODULE_TYPE, "d")]%byte.

Definition to_config_string (flags : NotifyClass) : bytes :=
  (if contains flags ALL then bs "A"
   else foldl (fun s '(f, c) => if contains flags f then s ++ [c] else s) [] class_chars) ++
  (if contains flags KEY_MISS then bs "m" else []) ++
  (if contains flags NEW then bs "n" else []) ++
  (if contains flags KEYSPACE then bs "K" else []) ++
  (if contains flags KEYEVENT then bs "E" else []).

Definition is_enabled_by (class configured : NotifyClass) : bool :=
  intersects configured (Z.lor KEYSPACE KEYEVENT) && intersects configured class.

Section dispatch.
Context `{Itoa}.

Definition keyspace_channel (db : Z) (key : bytes) : bytes :=
  bs "__keyspace@" ++ itoa_format db ++ bs "__:" ++ key.

Definition keyevent_channel (db : Z) (event : bytes) : bytes :=
  bs "__keyevent@" ++ itoa_format db ++ bs "__:" ++ event.

(** A [publish(server, db, channel, message)] call. *)
Record Publish := { pub_db : Z; pub_channel : bytes; pub_message : bytes }.

(** The process-wide sink. *)
Context {Sink : Type}.
Definition install_sink (sink : Sink) (SINK : option Sink) : option Sink * option Sink := (SINK, Some sink).
Definition clear_sink (SINK : option Sink) : option Sink * option Sink := (SINK, None).

(** The calls made on the installed sink, in order. *)
Definition dispatch (SINK : option Sink) (configured class : NotifyClass) (event : bytes) (db : Z) (key : bytes) :
    list Publish :=
  if negb (is_enabled_by class configured) then []
  else
    match SINK with
    | None => []
    | Some _ =>
        (if contains configured KEYSPACE
         then [{| pub_db := db; pub_channel := keyspace_channel db key; pub_message := event |}] else []) ++
        (if contains configured KEYEVENT
         then [{| pub_db := db; pub_channel := keyevent_channel db event; pub_message := key |}] else [])
    end.
End dispatch.

(** ** The configuration string *)

(** A valid mask: only the fourteen defined bits. *)
Definition valid_flags (f : NotifyClass) : Prop := in_unsigned 14 f.

Lemma lor_valid (a b : NotifyClass) : valid_flags a -> valid_flags b -> valid_flags (Z.lor a b).
Proof.
  unfold valid_flags. rewrite !wrapu_iff by lia. unfold wrapu. intros Ha Hb.
  by rewrite Z.land_lor_distr_l, Ha, Hb.
Qed.

Lemma class_of_char_valid (c : byte) (f : NotifyClass) : class_of_char c = Some f -> valid_flags f.
Proof.
  intros H. assert (match class_of_char c with Some f => (0 <=? f) && (f <? 2 ^ 14) | None => true end = true) as E
    by (clear H; by_bytes c).
  rewrite H in E. unfold valid_flags, in_unsigned. lia.
Qed.

Lemma parse_from_valid (flags : NotifyClass) (s : bytes) (f : NotifyClass) :
  valid_flags flags -> parse_from flags s = Some f -> valid_flags f.
Proof.
  revert flags. induction s as [|c s IH]; intros flags Hv; simpl; [by intros [= <-]|].
  intros (f' & Hf%class_of_char_valid & Hs)%bind_Some. by apply (IH (Z.lor flags f')); [apply lor_valid|].
Qed.

(** A class that is one bit. *)
Definition single (p : NotifyClass * byte) : Prop :=
  class_of_char p.2 = Some p.1 /\ exists i, 0 <= i /\ p.1 = Z.shiftl 1 i.

Lemma land_bit (f i : Z) : 0 <= i -> Z.land f (Z.shiftl 1 i) = if contains f (Z.shiftl 1 i) then Z.shiftl 1 i else 0.
Proof.
  intros Hi. unfold contains. case_bool_decide as H; [done|]. rewrite Z.shiftl_1_l in *.
  apply Z.bits_inj'. intros n Hn. rewrite Z.land_spec, Z.pow2_bits_eqb, Z.bits_0 by done.
  destruct (Z.eqb_spec i n) as [->|]; [|by rewrite andb_false_r].
  destruct (Z.testbit f n) eqn:E; [|done]. destruct H. apply Z.bits_inj'. intros m Hm.
  rewrite Z.land_spec, Z.pow2_bits_eqb by done. destruct (Z.eqb_spec n m) as [->|]; [by rewrite E|by rewrite andb_false_r].
Qed.

(** The characters written for the classes of [l], and what reading them back adds. *)
Definition pieces (flags : NotifyClass) (l : list (NotifyClass * byte)) : bytes :=
  concat ((fun '(f, c) => if contains flags f then [c] else []) <$> l).

Lemma parse_pieces (flags acc : NotifyClass) (l : list (NotifyClass * byte)) (rest : bytes) :
  Forall single l ->
  parse_from acc (pieces flags l ++ rest) =
  parse_from (foldl (fun a '(f, _) => Z.lor a (Z.land flags f)) acc l) rest.
Proof.
  intros H. revert acc. induction H as [|[f c] l (Hc & i & Hi & Hf) _ IH]; intros acc; [done|].
  unfold pieces. rewrite fmap_cons. cbn [concat foldl]. simpl in Hc, Hf.
  rewrite <-app_assoc, Hf, land_bit, <-Hf by done. destruct (contains flags f).
  - cbn [app parse_from]. rewrite Hc. apply IH.
  - rewrite Z.lor_0_r. apply IH.
Qed.

Lemma foldl_pieces (flags : NotifyClass) (l : list (NotifyClass * byte)) (s : bytes) :
  foldl (fun s '(f, c) => if contains flags f then s ++ [c] else s) s l = s ++ pieces flags l.
Proof.
  revert s. induction l as [|[f c] l IH]; intros s; [by rewrite app_nil_r|].
  unfold pieces. rewrite fmap_cons. cbn [foldl concat]. rewrite IH. destruct (contains flags f); [by rewrite <-app_assoc|done].
Qed.

Lemma foldl_masks (flags acc : NotifyClass) (l : list (NotifyClass * byte)) :
  foldl (fun a '(f, _) => Z.lor a (Z.land flags f)) acc l = Z.lor acc (Z.land flags (foldl (fun a '(f, _) => Z.lor a f) 0 l)).
Proof.
  assert (forall b, foldl (fun a '(f, _) => Z.lor a (Z.land flags f)) (Z.lor acc (Z.land flags b)) l =
    Z.lor acc (Z.land flags (foldl (fun a '(f, _) => Z.lor a f) b l))) as H.
  { induction l as [|[f c] l IH]; intros b; [done|]. cbn [foldl].
    by rewrite <-Z.lor_assoc, <-Z.land_lor_distr_r, IH. }
  specialize (H 0). by rewrite Z.land_0_r, Z.lor_0_r in H.
Qed.

Definition last_chars : list (NotifyClass * byte) :=
  [(KEY_MISS, "m"); (NEW, "n"); (KEYSPACE, "K"); (KEYEVENT, "E")]%byte.

Lemma class_chars_single : Forall single class_chars /\ Forall single last_chars.
Proof.
  assert (forall i c, 0 <= i -> class_of_char c = Some (Z.shiftl 1 i) -> single (Z.shiftl 1 i, c)) as H
    by (intros; split; [done|by exists i]).
  split; repeat first [apply Forall_nil_2|apply Forall_cons_2]; by apply H.
Qed.

Lemma to_config_string_pieces (flags : NotifyClass) :
  to_config_string flags =
    (if contains flags ALL then bs "A" else pieces flags class_chars) ++ pieces flags last_chars.
Proof.
  unfold to_config_string. rewrite foldl_pieces. f_equal. unfold pieces, last_chars.
  rewrite !fmap_cons, fmap_nil. cbn [concat]. by rewrite app_nil_r.
Qed.

Lemma parse_rendered f : valid_flags f -> parse (to_config_string f) = Some f.
Proof.
  intros Hf%wrapu_iff; [|lia]. destruct class_chars_single as [H1 H2].
  rewrite to_config_string_pieces. unfold parse.
  assert (parse_from 0 ((if contains f ALL then bs "A" else pieces f class_chars) ++ pieces f last_chars) =
    parse_from (Z.land f ALL) (pieces f last_chars)) as ->.
  { destruct (contains f ALL) eqn:E.
    - apply bool_decide_eq_true_1 in E. by rewrite E.
    - rewrite parse_pieces, foldl_masks by done. done. }
  rewrite <-(app_nil_r (pieces f last_chars)), parse_pieces, foldl_masks by done. cbn [parse_from].
  rewrite <-Z.land_lor_distr_r. f_equal. exact Hf.
Qed.

(** [CONFIG GET] gives back what [CONFIG SET] meant: any mask of defined
    classes survives rendering and parsing, through the [A] alias too, and
    [parse] only ever accepts such masks. *)
Theorem config_string_round_trip :
  (forall f, valid_flags f -> parse (to_config_string f) = Some f) /\
  (forall s f, parse s = Some f -> valid_flags f).
Proof. split; [exact parse_rendered|]. intros s f. apply parse_from_valid. split; done. Qed.

(** ** Channels *)

Section channel_facts.
Context `{ItoaLaws}.
#[local] Set Default Proof Using "Type*".

Lemma digits_split (a b s t : bytes) (c : byte) :
  digits a -> digits b -> is_digit c = false -> a ++ c :: s = b ++ c :: t -> a = b /\ s = t.
Proof.
  intros Ha. revert b. induction Ha as [|x a Hx _ IH]; intros [|y b] Hb Hc E; simplify_eq/=; try done.
  - apply Forall_inv in Hb. congruence.
  - congruence.
  - apply Forall_cons in Hb as [_ Hb']. destruct (IH b Hb' Hc) as [-> ->]; done.
Qed.

Lemma channel_suffix_inj (db db' : Z) (k k' : bytes) :
  0 <= db <= U64_MAX -> 0 <= db' <= U64_MAX ->
  itoa_format db ++ bs "__:" ++ k = itoa_format db' ++ bs "__:" ++ k' -> db = db' /\ k = k'.
Proof.
  intros H1 H2. rewrite !itoa_decimal by (unfold I64_MIN; lia).
  destruct (decimal_nonneg db) as (D1 & V1 & _); [lia|]. destruct (decimal_nonneg db') as (D2 & V2 & _); [lia|].
  unfold bs. simpl. intros [E1 E2]%digits_split; [|done..].
  split; [by rewrite <-V1, E1|congruence].
Qed.

(** A channel name determines what it is about: keyspace channels of
    different databases or keys differ, so do keyevent channels, and no name
    is both, whatever bytes the key contains. *)
Theorem channels_unambiguous (db db' : Z) (k k' : bytes) :
  0 <= db <= U64_MAX -> 0 <= db' <= U64_MAX ->
  (keyspace_channel db k = keyspace_channel db' k' -> db = db' /\ k = k') /\
  (keyevent_channel db k = keyevent_channel db' k' -> db = db' /\ k = k') /\
  keyspace_channel db k <> keyevent_channel db' k'.
Proof.
  intros H1 H2. unfold keyspace_channel, keyevent_channel. split_and!.
  - intros E%app_inv_head. by apply channel_suffix_inj.
  - intros E%app_inv_head. by apply channel_suffix_inj.
  - unfold bs. simpl. discriminate.
Qed.
End channel_facts.

Lemma contains_bit (f : NotifyClass) (i : Z) :
  0 <= i -> contains f (Z.shiftl 1 i) = Z.testbit f i.
Proof.
  intros Hi. unfold contains. rewrite Z.shiftl_1_l. destruct (Z.testbit f i) eqn:E.
  - apply bool_decide_true. apply Z.bits_inj'. intros n Hn. rewrite Z.land_spec, Z.pow2_bits_eqb by done.
    destruct (Z.eqb_spec i n); [by subst; rewrite E|by rewrite andb_false_r].
  - apply bool_decide_false. intros H%(f_equal (fun z => Z.testbit z i)).
    rewrite Z.land_spec, Z.pow2_bits_eqb, Z.eqb_refl, E in H by done. done.
Qed.

Lemma intersects_ends (f : NotifyClass) :
  intersects f (Z.lor KEYSPACE KEYEVENT) = Z.testbit f 0 || Z.testbit f 1.
Proof.
  unfold intersects. change (Z.lor KEYSPACE KEYEVENT) with (Z.ones 2). rewrite Z.land_ones by lia.
  pose proof (Z.bit0_mod f) as H0. pose proof (Z.testbit_spec' f 1 ltac:(lia)) as H1.
  change (2 ^ 1) with 2 in *. change (2 ^ 2) with 4.
  destruct (Z.testbit f 0), (Z.testbit f 1); simpl in *.
  1-3: apply bool_decide_true; dlia.
  apply bool_decide_false. dlia.
Qed.

(** An event reaches the sink exactly when one is installed, its class is
    configured and [K] or [E] is: once on its keyspace channel with the event
    as message if [K], then once on its keyevent channel with the key as
    message if [E], and never otherwise. *)
Theorem dispatch_spec `{Itoa} {Sink} (s : option Sink) (configured class : NotifyClass) (event : bytes) (db : Z) (key : bytes) :
  let k := {| pub_db := db; pub_channel := keyspace_channel db key; pub_message := event |} in
  let e := {| pub_db := db; pub_channel := keyevent_channel db event; pub_message := key |} in
  dispatch s configured class event db key =
    match s with
    | Some _ =>
        if decide (Z.land configured class <> 0)
        then (if Z.testbit configured 0 then [k] else []) ++ (if Z.testbit configured 1 then [e] else [])
        else []
    | None => []
    end.
Proof.
  cbn zeta. unfold dispatch, is_enabled_by. rewrite intersects_ends.
  unfold KEYSPACE, KEYEVENT. rewrite !contains_bit by lia. unfold intersects.
  destruct (decide (Z.land configured class <> 0)); [rewrite bool_decide_true by done|rewrite bool_decide_false by done];
    by destruct s, (Z.testbit configured 0), (Z.testbit configured 1).
Qed.

Lemma channels_unambiguous_witness :
  @keyspace_channel itoa_model 0 (bs "0__:k") = @keyspace_channel itoa_model 0 (bs "0__:k") /\ (0 = 0 /\ bs "0__:k" = bs "0__:k").
Proof.
  split; [reflexivity|].
  apply (@channels_unambiguous itoa_model itoa_model_laws 0 0 (bs "0__:k") (bs "0__:k"));
    [split; discriminate..|reflexivity].
Defined.
