(* ===== verification/Stream.v ===== *)
(** * Pipelined requests

    What the parser does with the bytes of one request after another as they
    come off the wire, cut anywhere: a proper prefix of a request waits for
    the rest of it, and a stream of requests is a session of exactly its
    commands. *)
From S2P Require Import Prelude Strnum Dtoa Errors Parser Reply.
Open Scope nat_scope.

Section stream.
Context `{ItoaLaws, MemchrLaws}.

(** A header line that is not complete yet. *)
Lemma line_end_waits (pre d t u : bytes) (scanned : nat) :
  x0d ∉ d -> scanned <= length pre -> d ++ CRLF = t ++ u -> u <> [] ->
  exists n, line_end (pre ++ t) (length pre) scanned = LineIncomplete n.
Proof.
  intros Hd Hs E Hu. unfold line_end. rewrite Nat.max_r, slice_from_Some, drop_app_length by (done || rewrite length_app; lia).
  destruct (app_eq_inv _ _ _ _ E) as [(k & -> & _)|(k & -> & Ek)].
  - rewrite memchr_none by set_solver. by eexists.
  - destruct k as [|c [|c' k]]; [| |by destruct k, u].
    + rewrite app_nil_r, memchr_none by done. by eexists.
    + injection Ek as <- _. rewrite memchr_app by done. rewrite lookup_ge_None_2; [by eexists|]. rewrite !length_app. cbn [length]. lia.
Qed.

Lemma bulk_header_waits (mx rem : Z) (pre a t u : bytes) (rs : list (nat * nat)) :
  (blen a <= I64_MAX)%Z -> (1 <= rem <= MULTIBULK_MAX)%Z -> behind (length pre) rs ->
  "$"%byte :: decimal (blen a) ++ CRLF = t ++ u -> u <> [] ->
  exists p', parse (at_bulk mx (length pre) rem rs) (pre ++ t) = Some (p', pre ++ t, inr Incomplete).
Proof.
  intros Ha Hrem Hrs E Hu. assert (0 <= blen a)%Z by (unfold blen; lia).
  rewrite parse_unfold by (split; [exact Hrs|]; simpl; rewrite length_app; lia).
  unfold step. cbn [state at_bulk]. unfold step_bulk_header. destruct t as [|c t].
  { rewrite app_nil_r, lookup_ge_None_2 by lia. by eexists. }
  injection E as <- E. rewrite list_lookup_middle by done. destruct (decide (_ <> _)) as [|_]; [done|].
  destruct (decimal_plain (blen a)) as (Hcr & _ & _); [done|].
  destruct (line_end_waits (pre ++ ["$"%byte]) (decimal (blen a)) t u (length pre) Hcr) as [n Hn]; [rewrite length_app; simpl; lia|done..|].
  rewrite <-app_assoc, length_app in Hn. cbn [app length] in Hn. rewrite Hn.
  pose proof (decimal_length (blen a) ltac:(unfold I64_MIN; lia)) as Hl. pose proof (f_equal length E) as EL. rewrite !length_app in EL. change (length CRLF) with 2 in EL.
  rewrite decide_False by (unfold blen, INLINE_MAX_SIZE; rewrite length_app; cbn [length]; lia). by eexists.
Qed.

Lemma bulk_body_waits (mx rem : Z) (pre a t u : bytes) (rs : list (nat * nat)) :
  (blen (pre ++ a) <= I64_MAX)%Z -> (0 <= rem < MULTIBULK_MAX)%Z -> behind (length pre) rs ->
  a ++ CRLF = t ++ u -> u <> [] ->
  parse (in_bulk mx (length pre) (blen a) rem rs) (pre ++ t) = Some (in_bulk mx (length pre) (blen a) rem rs, pre ++ t, inr Incomplete).
Proof.
  intros Ha Hrem Hrs E Hu. pose proof (f_equal length E) as EL. rewrite !length_app in EL. destruct u as [|c u]; [done|]. cbn [length] in EL.
  unfold blen in *. rewrite length_app in Ha.
  rewrite parse_unfold by (split; [exact Hrs|]; simpl; rewrite length_app; lia).
  unfold step. cbn [state in_bulk]. unfold step_bulk_body, blen. cbn zeta. rewrite length_app.
  change (length CRLF) with 2 in EL. unfold I64_MAX, U64_MAX in *.
  rewrite decide_False by lia. by rewrite decide_True by lia.
Qed.

Lemma bulks_wait (mx : Z) (args : list bytes) :
  (blen args <= MULTIBULK_MAX)%Z -> Forall (fun a => blen a <= mx)%Z args -> Forall (fun a => blen a <= I64_MAX)%Z args ->
  forall pre rs dn t u,
    behind (length pre) rs -> mapM (fun '(s, e) => slice s e pre) rs = Some dn -> (blen (pre ++ t ++ u) <= I64_MAX)%Z ->
    concat (bulk_bytes <$> args) = t ++ u -> u <> [] ->
    exists p', parse (at_bulk mx (length pre) (blen args) rs) (pre ++ t) = Some (p', pre ++ t, inr Incomplete).
Proof.
  intros Hn Hmx. induction Hmx as [|a args Hlen Ha IH]; intros Hi pre rs dn t u Hrs Hdn HB E Hu; [by destruct t, u|].
  apply Forall_cons in Hi as [Hla Hi]. assert (0 <= blen args)%Z by (unfold blen; lia).
  assert (blen (a :: args) = blen args + 1)%Z as Hb by (unfold blen; simpl; lia). rewrite Hb in Hn |- *.
  set (hd := "$"%byte :: decimal (blen a) ++ CRLF).
  assert (E1 : hd ++ (a ++ CRLF) ++ concat (bulk_bytes <$> args) = t ++ u).
  { rewrite <-E, fmap_cons. cbn [concat]. unfold bulk_bytes at 2. subst hd. cbn [app]. by rewrite <-!app_assoc. }
  pose proof (f_equal length E1) as EL. rewrite !length_app in EL. change (length CRLF) with 2 in EL.
  assert (HB' : (Z.of_nat (length pre + length hd + length a + 2 + length (concat (bulk_bytes <$> args))) <= I64_MAX)%Z).
  { unfold blen in HB. rewrite !length_app in HB. lia. }
  assert (Hcase : (exists k, hd = t ++ k /\ k <> []) \/ exists k, t = hd ++ k /\ (a ++ CRLF) ++ concat (bulk_bytes <$> args) = k ++ u).
  { destruct (app_eq_inv _ _ _ _ E1) as [([|c k] & E2 & E3)|(k & E2 & E3)]; [right|left; by exists (c :: k)|right; by exists k].
    exists []. rewrite app_nil_r in *. by split. }
  destruct Hcase as [(k & Ek & Hk)|(k & -> & E2)].
  { apply (bulk_header_waits mx (blen args + 1) pre a t k rs); done || lia. }
  assert (E3 : pre ++ hd ++ k = pre ++ "$"%byte :: decimal (blen a) ++ CRLF ++ k) by (subst hd; cbn [app]; by rewrite <-!app_assoc).
  rewrite E3, parse_bulk_header by (done || lia). rewrite <-E3. fold hd. rewrite Z.add_simpl_r, app_assoc.
  assert (Hrs' : behind (length (pre ++ hd)) rs) by (apply (behind_le (length pre)); [rewrite length_app; lia|done]).
  destruct (app_eq_inv _ _ _ _ E2) as [([|c j] & E4 & E5)|(j & -> & E5)].
  - rewrite app_nil_r in E4. subst k. cbn [app] in E5.
    destruct (parse_bulk_body mx (blen args) (pre ++ hd) a [] rs dn) as (rs' & Hr1 & Hr2 & Hr3); [lia|done|by apply mapM_slices_app| |].
    { unfold blen. rewrite !length_app. change (length CRLF) with 2. cbn [length]. lia. }
    rewrite app_nil_r in Hr3. rewrite Hr3. rewrite decide_False by (destruct args; [by rewrite E5 in Hu|unfold blen; simpl; lia]).
    pose proof (IH ltac:(lia) Hi _ rs' (dn ++ [a]) [] u Hr1 Hr2) as Hx. rewrite app_nil_r in Hx. apply Hx; [|done..].
    unfold blen. rewrite E5, !length_app. change (length CRLF) with 2. cbn [length]. lia.
  - exists (in_bulk mx (length (pre ++ hd)) (blen a) (blen args) rs).
    apply (bulk_body_waits _ _ _ _ _ (c :: j)); [|lia|done..]. unfold blen in *. rewrite !length_app in *. lia.
  - destruct (parse_bulk_body mx (blen args) (pre ++ hd) a j rs dn) as (rs' & Hr1 & Hr2 & Hr3); [lia|done|by apply mapM_slices_app| |].
    { unfold blen. rewrite !length_app. change (length CRLF) with 2. pose proof (f_equal length E5) as E6. rewrite length_app in E6. lia. }
    rewrite <-(app_assoc a) in *. rewrite Hr3. rewrite decide_False by (destruct args; [by destruct j, u|unfold blen; simpl; lia]).
    assert (E6 : (pre ++ hd) ++ a ++ CRLF ++ j = ((pre ++ hd) ++ a ++ CRLF) ++ j) by by rewrite <-!app_assoc.
    rewrite E6. apply (IH ltac:(lia) Hi _ rs' (dn ++ [a]) j u); try done.
    unfold blen. rewrite <-E5, !length_app. change (length CRLF) with 2. lia.
Qed.

(** ** A request, and a stream of them *)

Lemma mbulk_header_waits (mx : Z) (args : list bytes) (t u : bytes) :
  request_ok mx args -> "*"%byte :: decimal (blen args) ++ CRLF = t ++ u -> u <> [] ->
  exists p', parse (parser_new mx) t = Some (p', t, inr Incomplete).
Proof.
  intros (_ & Hn & _) E Hu. rewrite parse_unfold by by apply wf_start. unfold step. cbn [state parser_new].
  destruct t as [|c t]; [by eexists|]. injection E as <- E. cbn [step_start]. rewrite decide_True by done.
  rewrite parse_unfold by (split; [constructor|simpl; lia]). unfold with_state, step. cbn [state]. unfold step_mbulk_header.
  assert (0 <= blen args <= I64_MAX)%Z as Hb by (unfold blen, MULTIBULK_MAX, I64_MAX in *; lia).
  destruct (decimal_plain (blen args)) as (Hcr & _ & _); [lia|].
  destruct (line_end_waits ["*"%byte] (decimal (blen args)) t u 1 Hcr) as [n Hl]; [done..|]. cbn [app length] in Hl. rewrite Hl.
  pose proof (decimal_length (blen args) ltac:(unfold I64_MIN; lia)) as Hd. pose proof (f_equal length E) as EL.
  rewrite !length_app in EL. change (length CRLF) with 2 in EL.
  rewrite decide_False by (unfold blen, INLINE_MAX_SIZE; cbn [length]; lia). by eexists.
Qed.

(** A proper prefix of a request waits for the rest. *)
Lemma request_waits (mx : Z) (args : list bytes) (t u : bytes) :
  request_ok mx args -> (blen (request args) <= I64_MAX)%Z -> request args = t ++ u -> u <> [] ->
  exists p', parse (parser_new mx) t = Some (p', t, inr Incomplete).
Proof.
  intros Hok HB E Hu. rewrite (request_layout mx) in E, HB by done. set (hd := "*"%byte :: decimal (blen args) ++ CRLF) in *.
  pose proof Hok as (_ & Hn & Hmx & Hl).
  destruct (app_eq_inv _ _ _ _ E) as [([|c k] & E2 & E3)|(k & -> & E3)].
  - rewrite app_nil_r in E2. subst t. pose proof (parse_mbulk_header mx args [] Hok) as Eh.
    pose proof (bulks_wait mx args Hn Hmx Hl hd [] [] [] u) as Hw. cbv zeta in Eh. fold hd in Eh.
    rewrite app_nil_r in Eh, Hw. rewrite Eh. apply Hw; [constructor|done| |done..]. by rewrite E in HB.
  - by apply (mbulk_header_waits mx args t (c :: k)).
  - rewrite (parse_mbulk_header mx args k) by done. fold hd.
    apply (bulks_wait mx args Hn Hmx Hl hd [] [] k u); [constructor|done| |done..]. by rewrite E, <-app_assoc in HB.
Qed.

(** A parser has one session over a buffer. *)
Lemma session_det p buf cs p1 b1 : session p buf cs p1 b1 -> forall ds p2 b2, session p buf ds p2 b2 -> cs = ds /\ p1 = p2 /\ b1 = b2.
Proof.
  induction 1 as [p buf p' Hp|p buf p' b' cs p1 b1 Hp Hs IH|p buf p' b' args cs p1 b1 Hp Hs IH]; intros ds p2 b2 Hd; apply session_inv in Hd; rewrite Hp in Hd.
  - by destruct Hd as (_ & -> & -> & ->).
  - by apply IH.
  - destruct Hd as (cs' & -> & Hd). by destruct (IH _ _ _ Hd) as (-> & -> & ->).
Qed.

(** How many of the commands the first [n] bytes of their wire form complete. *)
Fixpoint completed (n : nat) (cmds : list (list bytes)) : nat :=
  match cmds with
  | [] => 0
  | args :: cmds => if decide (length (request args) <= n) then S (completed (n - length (request args)) cmds) else 0
  end.

Lemma completed_bound n cmds : completed n cmds <= length cmds.
Proof. revert n. induction cmds as [|args cmds IH]; intros n; simpl; [done|]. case_decide; [specialize (IH (n - length (request args)))|]; lia. Qed.

Lemma completed_none mx cmds : Forall (request_ok mx) cmds -> completed 0 cmds = 0.
Proof. intros [|args l Hok _]; [done|]. cbn [completed]. by rewrite (request_layout mx). Qed.

(** The bytes of some requests, cut anywhere: the parser delivers the commands
    that are complete and waits for the rest. *)
Lemma requests_session (mx : Z) (cmds : list (list bytes)) : Forall (request_ok mx) cmds ->
  forall t u, (blen (concat (request <$> cmds)) <= I64_MAX)%Z -> concat (request <$> cmds) = t ++ u ->
  exists p b, session (parser_new mx) t (take (completed (length t) cmds) cmds) p b /\
    (u = [] -> completed (length t) cmds = length cmds /\ p = parser_new mx /\ b = []).
Proof.
  assert (Hnil : session (parser_new mx) [] [] (parser_new mx) []).
  { constructor. rewrite parse_unfold by by apply wf_start. done. }
  induction 1 as [|args cmds Hok _ IH]; intros t u HB E.
  { destruct t; [|done]. by exists (parser_new mx), []. }
  rewrite fmap_cons in E, HB. cbn [concat] in E, HB. unfold blen in HB. rewrite length_app in HB.
  assert (Hcase : (exists k, request args = t ++ k /\ k <> [] /\ u = k ++ concat (request <$> cmds)) \/
    exists k, t = request args ++ k /\ concat (request <$> cmds) = k ++ u).
  { destruct (app_eq_inv _ _ _ _ E) as [([|c k] & E2 & E3)|(k & E2 & E3)]; [right|left; by exists (c :: k)|right; by exists k].
    exists []. rewrite app_nil_r in *. by split. }
  cbn [completed]. destruct Hcase as [(k & Ek & Hk & Eu)|(k & -> & E2)].
  - destruct (request_waits mx args t k Hok) as [p Hp]; [unfold blen; lia|done..|].
    rewrite decide_False by (rewrite Ek, length_app; destruct k; [done|simpl; lia]).
    exists p, t. split; [by constructor|]. intros ->. by destruct k.
  - rewrite decide_True by (rewrite length_app; lia). rewrite length_app, Nat.add_comm, Nat.add_sub.
    destruct (IH k u) as (p & b & Hs & Hu); [unfold blen; lia|done|].
    exists p, b. split; [|intros Hn; destruct (Hu Hn) as (-> & ? & ?); done]. cbn [take].
    eapply session_command; [|exact Hs]. apply parse_request; [done|]. pose proof (f_equal length E2) as EL. rewrite length_app in EL. unfold blen. rewrite length_app. lia.
Qed.
End stream.
