(* ===== verification/Config.v ===== *)
(** * Configuration ([src/config.rs])

    The settings, the directives that change them, the configuration file and
    the command line.  A Rust string is its UTF-8 bytes; the file system is a
    parameter, and an [include] is followed with a fuel, since a file that
    includes itself has no end.  A setting is found by its field, one function
    per type: an integer is a [Z] in the range its directive lets through. *)
From S2P Require Import Prelude Strnum Errors Notify.
Open Scope Z_scope.

Inductive MaxmemoryPolicy :=
| NoEviction | AllkeysLru | AllkeysLfu | AllkeysRandom | VolatileLru | VolatileLfu | VolatileRandom | VolatileTtl.

#[export] Instance policy_eq_dec : EqDecision MaxmemoryPolicy.
Proof. solve_decision. Defined.

Definition lower (s : bytes) : bytes := to_ascii_lowercase <$> s.

Definition policy_parse (s : bytes) : option MaxmemoryPolicy :=
  let s := lower s in
  if decide (s = bs "noeviction") then Some NoEviction
  else if decide (s = bs "allkeys-lru") then Some AllkeysLru
  else if decide (s = bs "allkeys-lfu") then Some AllkeysLfu
  else if decide (s = bs "allkeys-random") then Some AllkeysRandom
  else if decide (s = bs "volatile-lru") then Some VolatileLru
  else if decide (s = bs "volatile-lfu") then Some VolatileLfu
  else if decide (s = bs "volatile-random") then Some VolatileRandom
  else if decide (s = bs "volatile-ttl") then Some VolatileTtl
  else None.
Definition policy_as_str (p : MaxmemoryPolicy) : bytes :=
  match p with
  | NoEviction => bs "noeviction" | AllkeysLru => bs "allkeys-lru" | AllkeysLfu => bs "allkeys-lfu" | AllkeysRandom => bs "allkeys-random"
  | VolatileLru => bs "volatile-lru" | VolatileLfu => bs "volatile-lfu" | VolatileRandom => bs "volatile-random" | VolatileTtl => bs "volatile-ttl"
  end.
Definition is_lfu (p : MaxmemoryPolicy) : bool := match p with AllkeysLfu | VolatileLfu => true | _ => false end.

Inductive AppendFsync := Always | EverySec | No.
Definition fsync_parse (s : bytes) : option AppendFsync :=
  let s := lower s in
  if decide (s = bs "always") then Some Always else if decide (s = bs "everysec") then Some EverySec else if decide (s = bs "no") then Some No else None.
Definition fsync_as_str (f : AppendFsync) : bytes := match f with Always => bs "always" | EverySec => bs "everysec" | No => bs "no" end.

Record SavePoint := { seconds : Z; changes : Z }.

(** ** The settings *)

Inductive NumField :=
| Port | TcpBacklog | TcpKeepalive | Timeout | Maxclients | ProtoMaxBulkLen | Databases | ShardCount
| Maxmemory | MaxmemorySamples | MaxmemoryEvictionTenacity | LfuLogFactor | LfuDecayTime
| HashMaxListpackEntries | HashMaxListpackValue | ListMaxListpackSize | ListCompressDepth | SetMaxIntsetEntries
| SetMaxListpackEntries | SetMaxListpackValue | ZsetMaxListpackEntries | ZsetMaxListpackValue | HllSparseMaxBytes
| StreamNodeMaxEntries | StreamNodeMaxBytes | AutoAofRewritePercentage | AutoAofRewriteMinSize
| SlowlogLogSlowerThan | SlowlogMaxLen | LatencyMonitorThreshold | IoThreads.
Inductive BoolField :=
| Rdbcompression | Rdbchecksum | StopWritesOnBgsaveError | Appendonly | NoAppendfsyncOnRewrite | AofUseRdbPreamble | AofTimestampEnabled
| LatencyTracking | Activerehashing | Activeexpire | LazyfreeLazyExpire | LazyfreeLazyEviction | LazyfreeLazyServerDel
| LazyfreeLazyUserDel | LazyfreeLazyUserFlush | EnableProtectedConfigs | EnableDebugCommand | Daemonize | SetProcTitle.
Inductive TextField := Dir | Dbfilename | Appendfilename | Appenddirname | Loglevel | Logfile.

#[export] Instance num_eq_dec : EqDecision NumField.
Proof. solve_decision. Defined.
#[export] Instance bool_eq_dec : EqDecision BoolField.
Proof. solve_decision. Defined.
#[export] Instance text_eq_dec : EqDecision TextField.
Proof. solve_decision. Defined.

Record Config := {
  num : NumField -> Z;
  switch : BoolField -> bool;
  text : TextField -> bytes;
  bind : list bytes;
  unixsocket : option bytes;
  maxmemory_policy : MaxmemoryPolicy;
  save : list SavePoint;
  appendfsync : AppendFsync;
  requirepass : option bytes;
  notify_keyspace_events : NotifyClass;
  pidfile : option bytes
}.

Definition maxmemory (c : Config) : Z := num c Maxmemory.
Definition maxmemory_samples (c : Config) : Z := num c MaxmemorySamples.
Definition maxmemory_eviction_tenacity (c : Config) : Z := num c MaxmemoryEvictionTenacity.
Definition lfu_log_factor (c : Config) : Z := num c LfuLogFactor.
Definition lfu_decay_time (c : Config) : Z := num c LfuDecayTime.
Definition activeexpire (c : Config) : bool := switch c Activeexpire.
Definition lazyfree_lazy_expire (c : Config) : bool := switch c LazyfreeLazyExpire.
Definition lazyfree_lazy_eviction (c : Config) : bool := switch c LazyfreeLazyEviction.

Definition num_default (f : NumField) : Z :=
  match f with
  | Port => 6379 | TcpBacklog => 511 | TcpKeepalive => 300 | Timeout => 0 | Maxclients => 10000 | ProtoMaxBulkLen => 512 * 1024 * 1024
  | Databases => 16 | ShardCount => 0
  | Maxmemory => 0 | MaxmemorySamples => 5 | MaxmemoryEvictionTenacity => 10 | LfuLogFactor => 10 | LfuDecayTime => 1
  | HashMaxListpackEntries => 128 | HashMaxListpackValue => 64 | ListMaxListpackSize => 128 | ListCompressDepth => 0
  | SetMaxIntsetEntries => 512 | SetMaxListpackEntries => 128 | SetMaxListpackValue => 64
  | ZsetMaxListpackEntries => 128 | ZsetMaxListpackValue => 64 | HllSparseMaxBytes => 3000
  | StreamNodeMaxEntries => 100 | StreamNodeMaxBytes => 4096
  | AutoAofRewritePercentage => 100 | AutoAofRewriteMinSize => 64 * 1024 * 1024
  | SlowlogLogSlowerThan => 10000 | SlowlogMaxLen => 128 | LatencyMonitorThreshold => 0 | IoThreads => 1
  end.
Definition switch_default (f : BoolField) : bool :=
  match f with
  | Rdbcompression | Rdbchecksum | StopWritesOnBgsaveError | AofUseRdbPreamble | LatencyTracking | Activerehashing | Activeexpire | SetProcTitle => true
  | _ => false
  end.
Definition text_default (f : TextField) : bytes :=
  match f with
  | Dir => bs "." | Dbfilename => bs "dump.rdb" | Appendfilename => bs "appendonly.aof" | Appenddirname => bs "appendonlydir" | Loglevel => bs "notice" | Logfile => []
  end.
Definition config_default : Config :=
  {| num := num_default; switch := switch_default; text := text_default; bind := [bs "127.0.0.1"; bs "-::1"]; unixsocket := None;
     maxmemory_policy := NoEviction;
     save := [{| seconds := 3600; changes := 1 |}; {| seconds := 300; changes := 100 |}; {| seconds := 60; changes := 10000 |}];
     appendfsync := EverySec; requirepass := None; notify_keyspace_events := 0; pidfile := None |}.

Definition set_num (f : NumField) (v : Z) (c : Config) : Config :=
  {| num g := if decide (f = g) then v else num c g; switch := switch c; text := text c; bind := bind c; unixsocket := unixsocket c;
     maxmemory_policy := maxmemory_policy c; save := save c; appendfsync := appendfsync c; requirepass := requirepass c;
     notify_keyspace_events := notify_keyspace_events c; pidfile := pidfile c |}.
Definition set_switch (f : BoolField) (v : bool) (c : Config) : Config :=
  {| num := num c; switch g := if decide (f = g) then v else switch c g; text := text c; bind := bind c; unixsocket := unixsocket c;
     maxmemory_policy := maxmemory_policy c; save := save c; appendfsync := appendfsync c; requirepass := requirepass c;
     notify_keyspace_events := notify_keyspace_events c; pidfile := pidfile c |}.
Definition set_text (f : TextField) (v : bytes) (c : Config) : Config :=
  {| num := num c; switch := switch c; text g := if decide (f = g) then v else text c g; bind := bind c; unixsocket := unixsocket c;
     maxmemory_policy := maxmemory_policy c; save := save c; appendfsync := appendfsync c; requirepass := requirepass c;
     notify_keyspace_events := notify_keyspace_events c; pidfile := pidfile c |}.
Definition set_policy (p : MaxmemoryPolicy) (c : Config) : Config :=
  {| num := num c; switch := switch c; text := text c; bind := bind c; unixsocket := unixsocket c; maxmemory_policy := p; save := save c;
     appendfsync := appendfsync c; requirepass := requirepass c; notify_keyspace_events := notify_keyspace_events c; pidfile := pidfile c |}.
Definition set_save (l : list SavePoint) (c : Config) : Config :=
  {| num := num c; switch := switch c; text := text c; bind := bind c; unixsocket := unixsocket c; maxmemory_policy := maxmemory_policy c; save := l;
     appendfsync := appendfsync c; requirepass := requirepass c; notify_keyspace_events := notify_keyspace_events c; pidfile := pidfile c |}.
Definition set_fsync (f : AppendFsync) (c : Config) : Config :=
  {| num := num c; switch := switch c; text := text c; bind := bind c; unixsocket := unixsocket c; maxmemory_policy := maxmemory_policy c; save := save c;
     appendfsync := f; requirepass := requirepass c; notify_keyspace_events := notify_keyspace_events c; pidfile := pidfile c |}.
Definition set_pass (p : option bytes) (c : Config) : Config :=
  {| num := num c; switch := switch c; text := text c; bind := bind c; unixsocket := unixsocket c; maxmemory_policy := maxmemory_policy c; save := save c;
     appendfsync := appendfsync c; requirepass := p; notify_keyspace_events := notify_keyspace_events c; pidfile := pidfile c |}.
Definition set_notify (n : NotifyClass) (c : Config) : Config :=
  {| num := num c; switch := switch c; text := text c; bind := bind c; unixsocket := unixsocket c; maxmemory_policy := maxmemory_policy c; save := save c;
     appendfsync := appendfsync c; requirepass := requirepass c; notify_keyspace_events := n; pidfile := pidfile c |}.
(** [bind], [unixsocket], [pidfile] *)
Definition set_paths (b : list bytes) (u p : option bytes) (c : Config) : Config :=
  {| num := num c; switch := switch c; text := text c; bind := b; unixsocket := u; maxmemory_policy := maxmemory_policy c; save := save c;
     appendfsync := appendfsync c; requirepass := requirepass c; notify_keyspace_events := notify_keyspace_events c; pidfile := p |}.

(** ** Errors *)

Inductive ConfigError := BadDirective | NotAnInteger | NotABoolean | Invalid (msg : bytes) | Unknown (directive : bytes) | ConfigIo (msg : bytes).
Definition config_error (e : ConfigError) : bytes :=
  match e with
  | BadDirective => bs "Bad directive or wrong number of arguments"
  | NotAnInteger => bs "argument couldn't be parsed into an integer"
  | NotABoolean => bs "argument must be 'yes' or 'no'"
  | Invalid m => m
  | Unknown d => bs "Unknown directive '" ++ d ++ bs "'"
  | ConfigIo m => bs "Can't open the config file: " ++ m
  end.

(** ** Text *)

(** [str::parse] of an integer type: an optional sign, digits, the range. *)
Definition rust_parse (lo hi : Z) (s : bytes) : option Z :=
  let '(neg, digits) :=
    match s with
    | "+"%byte :: d => (false, d)
    | "-"%byte :: d => if decide (lo < 0) then (true, d) else (false, s)
    | _ => (false, s)
    end in
  if decide (digits = []) then None
  else if forallb is_digit digits then
    let v := if neg then - dec_value digits else dec_value digits in
    if decide (lo <= v <= hi) then Some v else None
  else None.

(** The characters [char::is_whitespace] accepts, as UTF-8. *)
Definition whitespace : list bytes :=
  [[x09]; [x0a]; [x0b]; [x0c]; [x0d]; [x20]; [xc2; x85]; [xc2; xa0]; [xe1; x9a; x80];
   [xe2; x80; x80]; [xe2; x80; x81]; [xe2; x80; x82]; [xe2; x80; x83]; [xe2; x80; x84]; [xe2; x80; x85]; [xe2; x80; x86]; [xe2; x80; x87];
   [xe2; x80; x88]; [xe2; x80; x89]; [xe2; x80; x8a]; [xe2; x80; xa8]; [xe2; x80; xa9]; [xe2; x80; xaf]; [xe2; x81; x9f]; [xe3; x80; x80]].
Definition is_whitespace (ch : bytes) : bool := bool_decide (ch ∈ whitespace).

(** [s.chars()] *)
Definition chars (s : bytes) : list bytes := utf8_lossy_chars (length s) s.
Fixpoint drop_spaces (l : list bytes) : list bytes := match l with ch :: t => if is_whitespace ch then drop_spaces t else l | [] => [] end.
Definition trim (s : bytes) : bytes := concat (reverse (drop_spaces (reverse (drop_spaces (chars s))))).

Definition strip_suffix (suf s : bytes) : option bytes :=
  let n := (length s - length suf)%nat in if decide (drop n s = suf) then Some (take n s) else None.
Definition strip_prefix (p s : bytes) : option bytes := if decide (take (length p) s = p) then Some (drop (length p) s) else None.

Definition suffixes : list (bytes * Z) :=
  [(bs "kb", 1024); (bs "mb", 1024 * 1024); (bs "gb", 1024 * 1024 * 1024); (bs "k", 1000); (bs "m", 1000000); (bs "g", 1000000000); (bs "b", 1)].
Fixpoint split_suffix (l : list (bytes * Z)) (s : bytes) : bytes * Z :=
  match l with
  | [] => (s, 1)
  | (suf, mult) :: l => match strip_suffix suf s with Some d => (d, mult) | None => split_suffix l s end
  end.
Definition parse_memory (s : bytes) : option Z :=
  let s := trim s in
  if decide (s = []) then None
  else
    let '(digits, mult) := split_suffix suffixes (lower s) in
    n ← rust_parse 0 U64_MAX (trim digits);
    if decide (n * mult <= U64_MAX) then Some (n * mult) else None.

Definition quotes : list byte := [x22; x27].
Definition unquote (s : bytes) : bytes :=
  if decide (2 <= length s)%nat then
    match head s with
    | Some q => if bool_decide (q ∈ quotes) && bool_decide (last s = Some q) then take (length s - 2) (drop 1 s) else s
    | None => s
    end
  else s.

(** The loop of [split_line] over the characters. *)
Fixpoint split_line_loop (cs : list bytes) (out : list bytes) (cur : bytes) (in_double in_single started : bool) {struct cs} : list bytes :=
  match cs with
  | [] => if started || negb (bool_decide (cur = [])) then out ++ [cur] else out
  | c :: cs =>
      if bool_decide (c = [x5c]) && in_double then
        match cs with
        | n :: cs =>
            let n := if decide (n = bs "n") then [x0a] else if decide (n = bs "r") then [x0d] else if decide (n = bs "t") then [x09] else n in
            split_line_loop cs out (cur ++ n) in_double in_single started
        | [] => if started || negb (bool_decide (cur = [])) then out ++ [cur] else out
        end
      else if bool_decide (c = [x22]) && negb in_single then split_line_loop cs out cur (negb in_double) in_single true
      else if bool_decide (c = [x27]) && negb in_double then split_line_loop cs out cur in_double (negb in_single) true
      else if is_whitespace c && negb in_double && negb in_single then
        if started || negb (bool_decide (cur = [])) then split_line_loop cs (out ++ [cur]) [] in_double in_single false
        else split_line_loop cs out cur in_double in_single started
      else split_line_loop cs out (cur ++ c) in_double in_single true
  end.
Definition split_line (line : bytes) : list bytes := split_line_loop (chars line) [] [] false false false.

(** ** [Config::apply] *)

(** What a directive does with its arguments, one per arm of the [match]: the
    closures [int], [uint], [usz], [mem] and [boolean], and the arms written
    out.  [PInt lo hi]: [int], then the [try_from] of the field's type. *)
Inductive Directive :=
| PInt (lo hi : Z) (f : NumField) | PSat (f : NumField) | PMem (f : NumField) | PBool (f : BoolField)
| PText (f : TextField) | PQuoted (f : TextField)
| PBind | PUnixsocket | PDatabases | PPolicy | PSave | PFsync | PPass | PNotify | PPidfile | PIgnored.

Definition I32_MAX : Z := 2147483647.
Definition U32_MAX : Z := 4294967295.
(** [uint] and [usz] go through [i64]. *)
Definition PUint (f : NumField) : Directive := PInt 0 U64_MAX f.

Definition directives : list (bytes * Directive) :=
  [(bs "port", PInt 0 65535 Port); (bs "bind", PBind); (bs "unixsocket", PUnixsocket);
   (bs "tcp-backlog", PInt (- I32_MAX - 1) I32_MAX TcpBacklog); (bs "tcp-keepalive", PUint TcpKeepalive);
   (bs "timeout", PUint Timeout); (bs "maxclients", PUint Maxclients); (bs "proto-max-bulk-len", PMem ProtoMaxBulkLen);
   (bs "databases", PDatabases); (bs "shard-count", PUint ShardCount);
   (bs "maxmemory", PMem Maxmemory); (bs "maxmemory-policy", PPolicy); (bs "maxmemory-samples", PSat MaxmemorySamples);
   (bs "maxmemory-eviction-tenacity", PSat MaxmemoryEvictionTenacity); (bs "lfu-log-factor", PSat LfuLogFactor);
   (bs "lfu-decay-time", PSat LfuDecayTime);
   (bs "hash-max-listpack-entries", PUint HashMaxListpackEntries); (bs "hash-max-ziplist-entries", PUint HashMaxListpackEntries);
   (bs "hash-max-listpack-value", PUint HashMaxListpackValue); (bs "hash-max-ziplist-value", PUint HashMaxListpackValue);
   (bs "list-max-listpack-size", PInt I64_MIN I64_MAX ListMaxListpackSize);
   (bs "list-max-ziplist-size", PInt I64_MIN I64_MAX ListMaxListpackSize);
   (bs "list-compress-depth", PInt (- I32_MAX - 1) I32_MAX ListCompressDepth);
   (bs "set-max-intset-entries", PUint SetMaxIntsetEntries); (bs "set-max-listpack-entries", PUint SetMaxListpackEntries);
   (bs "set-max-listpack-value", PUint SetMaxListpackValue);
   (bs "zset-max-listpack-entries", PUint ZsetMaxListpackEntries); (bs "zset-max-ziplist-entries", PUint ZsetMaxListpackEntries);
   (bs "zset-max-listpack-value", PUint ZsetMaxListpackValue); (bs "zset-max-ziplist-value", PUint ZsetMaxListpackValue);
   (bs "hll-sparse-max-bytes", PUint HllSparseMaxBytes); (bs "stream-node-max-entries", PUint StreamNodeMaxEntries);
   (bs "stream-node-max-bytes", PUint StreamNodeMaxBytes);
   (bs "dir", PText Dir); (bs "dbfilename", PText Dbfilename); (bs "save", PSave);
   (bs "rdbcompression", PBool Rdbcompression); (bs "rdbchecksum", PBool Rdbchecksum);
   (bs "stop-writes-on-bgsave-error", PBool StopWritesOnBgsaveError); (bs "appendonly", PBool Appendonly);
   (bs "appendfilename", PQuoted Appendfilename); (bs "appenddirname", PQuoted Appenddirname); (bs "appendfsync", PFsync);
   (bs "no-appendfsync-on-rewrite", PBool NoAppendfsyncOnRewrite);
   (bs "auto-aof-rewrite-percentage", PSat AutoAofRewritePercentage);
   (bs "auto-aof-rewrite-min-size", PMem AutoAofRewriteMinSize); (bs "aof-use-rdb-preamble", PBool AofUseRdbPreamble);
   (bs "aof-timestamp-enabled", PBool AofTimestampEnabled);
   (bs "requirepass", PPass); (bs "notify-keyspace-events", PNotify);
   (bs "loglevel", PText Loglevel); (bs "logfile", PQuoted Logfile);
   (bs "slowlog-log-slower-than", PInt I64_MIN I64_MAX SlowlogLogSlowerThan); (bs "slowlog-max-len", PUint SlowlogMaxLen);
   (bs "latency-monitor-threshold", PUint LatencyMonitorThreshold); (bs "latency-tracking", PBool LatencyTracking);
   (bs "activerehashing", PBool Activerehashing); (bs "activeexpire", PBool Activeexpire);
   (bs "lazyfree-lazy-expire", PBool LazyfreeLazyExpire); (bs "lazyfree-lazy-eviction", PBool LazyfreeLazyEviction);
   (bs "lazyfree-lazy-server-del", PBool LazyfreeLazyServerDel); (bs "lazyfree-lazy-user-del", PBool LazyfreeLazyUserDel);
   (bs "lazyfree-lazy-user-flush", PBool LazyfreeLazyUserFlush); (bs "io-threads", PUint IoThreads);
   (bs "enable-protected-configs", PBool EnableProtectedConfigs); (bs "enable-debug-command", PBool EnableDebugCommand);
   (bs "daemonize", PBool Daemonize); (bs "pidfile", PPidfile); (bs "set-proc-title", PBool SetProcTitle);
   (bs "protected-mode", PIgnored); (bs "supervised", PIgnored); (bs "always-show-logo", PIgnored); (bs "syslog-enabled", PIgnored);
   (bs "repl-diskless-sync", PIgnored); (bs "repl-diskless-load", PIgnored); (bs "replica-read-only", PIgnored);
   (bs "replica-serve-stale-data", PIgnored); (bs "repl-disable-tcp-nodelay", PIgnored); (bs "acllog-max-len", PIgnored);
   (bs "aclfile", PIgnored); (bs "dynamic-hz", PIgnored); (bs "hz", PIgnored); (bs "crash-log-enabled", PIgnored);
   (bs "propagation-error-behavior", PIgnored); (bs "shutdown-on-sigterm", PIgnored); (bs "locale-collate", PIgnored)].

Fixpoint assoc {A} (l : list (bytes * A)) (k : bytes) : option A :=
  match l with [] => None | (k', a) :: l => if decide (k' = k) then Some a else assoc l k end.
Definition directive_of (name : bytes) : option Directive := assoc directives (lower name).

Definition parse_int (s : bytes) : ConfigError + Z := match rust_parse I64_MIN I64_MAX s with Some v => inr v | None => inl NotAnInteger end.
Definition parse_int_in (lo hi : Z) (s : bytes) : ConfigError + Z :=
  match parse_int s with inr v => if decide (lo <= v <= hi) then inr v else inl NotAnInteger | inl e => inl e end.
Definition parse_uint (s : bytes) : ConfigError + Z := parse_int_in 0 U64_MAX s.
Definition parse_mem (s : bytes) : ConfigError + Z := match parse_memory s with Some v => inr v | None => inl NotAnInteger end.
Definition parse_boolean (s : bytes) : ConfigError + bool :=
  let s := lower s in
  if bool_decide (s ∈ [bs "yes"; bs "true"; bs "1"]) then inr true
  else if bool_decide (s ∈ [bs "no"; bs "false"; bs "0"]) then inr false
  else inl NotABoolean.

(** [self.field = value?;] *)
Definition store {A} (r : ConfigError + A) (f : A -> Config -> Config) (c : Config) : Config * option ConfigError :=
  match r with inr v => (f v c, None) | inl e => (c, Some e) end.
Definition some_or {A} (e : ConfigError) (o : option A) : ConfigError + A := match o with Some v => inr v | None => inl e end.

(** The pairs of a [save] line: the points before a bad pair stay. *)
Fixpoint push_points (args : list bytes) (c : Config) : Config * option ConfigError :=
  match args with
  | s :: n :: args =>
      match parse_uint s, parse_uint n with
      | inr s, inr n => push_points args (set_save (save c ++ [{| seconds := s; changes := n |}]) c)
      | inl e, _ => (c, Some e)
      | _, inl e => (c, Some e)
      end
  | [] => (c, None)
  | _ => (c, Some BadDirective)
  end.

Definition notify_message : bytes := bs "Invalid event class character. Some possible classes are: 'g$lshzxeKE'".

(** [match name { ... }] once the arm is known; [a] is what [one()] gives. *)
Definition apply_arm (d : Directive) (args : list bytes) (c : Config) : Config * option ConfigError :=
  match d, args with
  | PIgnored, _ => (c, None)
  | PBind, _ :: _ => (set_paths args (unixsocket c) (pidfile c) c, None)
  | PSave, [] => (c, Some BadDirective)
  | PSave, [[]] => (set_save [] c, None)
  | PSave, _ => if Nat.even (length args) then push_points args c else (c, Some BadDirective)
  | _, [] => (c, Some BadDirective)
  | PInt lo hi f, a :: _ => store (parse_int_in lo hi a) (set_num f) c
  | PSat f, a :: _ => store (parse_uint a) (fun v => set_num f (Z.min v U32_MAX)) c
  | PMem f, a :: _ => store (parse_mem a) (set_num f) c
  | PBool f, a :: _ => store (parse_boolean a) (set_switch f) c
  | PText f, a :: _ => (set_text f a c, None)
  | PQuoted f, a :: _ => (set_text f (unquote a) c, None)
  | PUnixsocket, a :: _ => (set_paths (bind c) (Some a) (pidfile c) c, None)
  | PPidfile, a :: _ => (set_paths (bind c) (unixsocket c) (Some a) c, None)
  | PDatabases, a :: _ =>
      store (match parse_uint a with inr v => if decide (v = 0) then inl (Invalid (bs "databases must be >= 1")) else inr v | inl e => inl e end)
        (set_num Databases) c
  | PPolicy, a :: _ => store (some_or (Invalid (bs "invalid policy '" ++ a ++ bs "'")) (policy_parse a)) set_policy c
  | PFsync, a :: _ => store (some_or (Invalid (bs "invalid appendfsync")) (fsync_parse a)) set_fsync c
  | PPass, a :: _ => (set_pass (if decide (a = []) then None else Some a) c, None)
  | PNotify, a :: _ => store (some_or (Invalid notify_message) (parse a)) set_notify c
  end.

Definition apply (name : bytes) (args : list bytes) (c : Config) : Config * option ConfigError :=
  match directive_of name with
  | Some d => apply_arm d args c
  | None => (c, Some (Unknown (lower name)))
  end.

(** ** Files *)

(** [std::fs::read_to_string], [Path::parent] and [Path::join] of the platform. *)
Class FileSystem := {
  read_to_string : bytes -> bytes + bytes;
  parent : bytes -> option bytes;
  join : bytes -> bytes -> bytes
}.

(** [str::lines]: up to each line feed, less one carriage return before it. *)
Definition strip_cr (l : bytes) : bytes := match strip_suffix [x0d] l with Some l => l | None => l end.
Fixpoint lines_from (cur : bytes) (s : bytes) : list bytes :=
  match s with
  | [] => if decide (cur = []) then [] else [cur]
  | b :: s => if decide (b = x0a) then strip_cr cur :: lines_from [] s else lines_from (cur ++ [b]) s
  end.
Definition lines (s : bytes) : list bytes := lines_from [] s.

Section files.
Context `{FileSystem}.

(** The loop of [load_str]; [load] is [load_file], [None] when its fuel is spent. *)
Fixpoint load_lines (load : bytes -> Config -> option (Config * option ConfigError)) (base : option bytes) (ls : list bytes) (c : Config) :
    option (Config * option ConfigError) :=
  match ls with
  | [] => Some (c, None)
  | raw :: ls =>
      let line := trim raw in
      if bool_decide (line = []) || bool_decide (head line = Some "#"%byte) then load_lines load base ls c
      else
        match split_line line with
        | [] => load_lines load base ls c
        | name :: args =>
            if eq_ignore_ascii_case name (bs "include") then
              match args with
              | rel :: _ =>
                  '(c, e) ← load (match base with Some b => join b rel | None => rel end) c;
                  match e with Some e => Some (c, Some e) | None => load_lines load base ls c end
              | [] => load_lines load base ls c
              end
            else
              match apply name args c with
              | (c, Some e) => Some (c, Some e)
              | (c, None) => load_lines load base ls c
              end
        end
  end.
Fixpoint load_file (depth : nat) (path : bytes) (c : Config) : option (Config * option ConfigError) :=
  match depth with
  | O => None
  | S depth =>
      match read_to_string path with
      | inl msg => Some (c, Some (ConfigIo msg))
      | inr text => load_lines (load_file depth) (parent path) (lines text) c
      end
  end.
(** [depth] bounds the nesting of [include]. *)
Definition load_str (depth : nat) (text : bytes) (base : option bytes) (c : Config) : option (Config * option ConfigError) :=
  load_lines (load_file depth) base (lines text) c.
End files.

(** ** Checks and derived values *)

Definition validate (c : Config) : option ConfigError :=
  if decide (num c Databases = 0) then Some (Invalid (bs "databases must be >= 1"))
  else if decide (maxmemory_samples c = 0) then Some (Invalid (bs "maxmemory-samples must be >= 1"))
  else None.

Definition next_power_of_two (n : Z) : Z := if decide (n <= 1) then 1 else 2 ^ Z.log2_up n.
(** [cpus] is [num_cpus::get()] *)
Definition effective_shard_count (cpus : Z) (c : Config) : Z :=
  let base := if decide (num c ShardCount = 0) then cpus else num c ShardCount in next_power_of_two (Z.max base 1).

Fixpoint trim_dashes (s : bytes) : bytes := match s with "-"%byte :: t => trim_dashes t | _ => s end.
Definition bind_addrs (c : Config) : list bytes :=
  (fun b => if decide (b = bs "*") then bs "0.0.0.0" else b) <$> (trim_dashes <$> bind c).

(** [ConfigHandle]: the handle is the stored configuration, [update] gives
    the one stored after it. *)
Definition update (f : Config -> Config * option ConfigError) (c : Config) : Config * option ConfigError :=
  match f c with
  | (_, Some e) => (c, Some e)
  | (next, None) => match validate next with Some e => (c, Some e) | None => (next, None) end
  end.

(** ** The command line *)

Definition is_negative_number (s : bytes) : bool :=
  match strip_prefix (bs "--") s with Some r => bool_decide (is_Some (rust_parse I64_MIN I64_MAX r)) | None => false end.
Definition is_flag (s : bytes) : bool :=
  bool_decide (take 2 s = bs "--") && bool_decide (2 < length s)%nat && negb (is_negative_number s).

(** The values up to the next flag, and the rest. *)
Fixpoint take_values (tokens : list bytes) : list bytes * list bytes :=
  match tokens with
  | next :: rest => if is_flag next then ([], tokens) else let '(args, rest) := take_values rest in (next :: args, rest)
  | [] => ([], [])
  end.

(** [None] when the fuel is spent: [apply_overrides] gives it enough. *)
Fixpoint overrides_loop (fuel : nat) (tokens : list bytes) (c : Config) : option (Config * option ConfigError) :=
  match tokens, fuel with
  | [], _ => Some (c, None)
  | _, O => None
  | tok :: rest, S fuel =>
      match strip_prefix (bs "--") tok with
      | None => Some (c, Some (Invalid (bs "Bad directive or wrong number of arguments: " ++ tok)))
      | Some name =>
          let '(args, rest) := take_values rest in
          let is_save := eq_ignore_ascii_case name (bs "save") in
          let c := if is_save then set_save [] c else c in
          if is_save && bool_decide (args = [[]]) then overrides_loop fuel rest c
          else
            match apply name args c with
            | (c, Some e) => Some (c, Some e)
            | (c, None) => overrides_loop fuel rest c
            end
      end
  end.
Definition apply_overrides (tokens : list bytes) (c : Config) : option (Config * option ConfigError) :=
  overrides_loop (length tokens) tokens c.

(** [Cli::from_args]: what the process does with its arguments. *)
Inductive Cli := Help | Version | Run (config_file : option bytes) (overrides : list bytes).
Definition from_args (args : list bytes) : Cli :=
  if existsb (fun a => bool_decide (a ∈ [bs "--help"; bs "-h"])) args then Help
  else if existsb (fun a => bool_decide (a ∈ [bs "--version"; bs "-V"])) args then Version
  else
    match args with
    | a :: rest => if decide (head a = Some "-"%byte) then Run None args else Run (Some a) rest
    | [] => Run None []
    end.

Definition into_config `{FileSystem} (depth : nat) (config_file : option bytes) (overrides : list bytes) : option (ConfigError + Config) :=
  '(c, e) ← match config_file with Some path => load_file depth path config_default | None => Some (config_default, None) end;
  match e with
  | Some e => Some (inl e)
  | None =>
      '(c, e) ← apply_overrides overrides c;
      match e with
      | Some e => Some (inl e)
      | None => match validate c with Some e => Some (inl e) | None => Some (inr c) end
      end
  end.

(** ** The settings stay within their types *)

(** What each field's directive lets through, inside the field's Rust type
    ([usize] is 64 bits): all but the sizes are read as an [i64] first. *)
Definition num_range (f : NumField) : Z * Z :=
  match f with
  | Port => (0, 65535)
  | Databases => (1, I64_MAX)
  | TcpBacklog | ListCompressDepth => (- I32_MAX - 1, I32_MAX)
  | MaxmemorySamples | MaxmemoryEvictionTenacity | LfuLogFactor | LfuDecayTime | AutoAofRewritePercentage => (0, U32_MAX)
  | ListMaxListpackSize | SlowlogLogSlowerThan => (I64_MIN, I64_MAX)
  | ProtoMaxBulkLen | Maxmemory | AutoAofRewriteMinSize => (0, U64_MAX)
  | _ => (0, I64_MAX)
  end.
Definition fits (f : NumField) (v : Z) : Prop := (num_range f).1 <= v <= (num_range f).2.
Definition point_ok (p : SavePoint) : Prop := 0 <= seconds p <= U64_MAX /\ 0 <= changes p <= U64_MAX.
Definition config_ok (c : Config) : Prop :=
  (forall f, fits f (num c f)) /\ Forall point_ok (save c) /\ valid_flags (notify_keyspace_events c).

Lemma config_default_ok : config_ok config_default.
Proof. split_and!; [by intros []|repeat constructor; done|done]. Qed.

Lemma set_num_ok f v c : fits f v -> config_ok c -> config_ok (set_num f v c).
Proof. intros Hv (Hn & Hs). split; [|done]. intros g. simpl. case_decide; by subst. Qed.

Lemma rust_parse_range lo hi s v : rust_parse lo hi s = Some v -> lo <= v <= hi.
Proof. unfold rust_parse. intros. by repeat (case_match; simplify_eq). Qed.

Lemma parse_int_in_range lo hi s v : parse_int_in lo hi s = inr v -> lo <= v <= hi /\ I64_MIN <= v <= I64_MAX.
Proof.
  unfold parse_int_in, parse_int. destruct (rust_parse _ _ s) as [w|] eqn:E; [|done]. apply rust_parse_range in E.
  case_decide; [|done]. by intros [= ->].
Qed.

Lemma dec_value_nonneg s : digits s -> 0 <= dec_value s.
Proof. intros Hd. by apply (dec_from_ge 0). Qed.

Lemma parse_memory_range s v : parse_memory s = Some v -> 0 <= v <= U64_MAX.
Proof.
  unfold parse_memory. case_decide; [done|].
  assert (Hm : forall l x, Forall (fun p => 0 <= p.2) l -> 0 <= (split_suffix l x).2).
  { clear. intros l x Hl. induction Hl as [|[suf m] l]; simpl; [lia|]. by case_match. }
  pose proof (Hm suffixes (lower (trim s)) ltac:(repeat constructor; done)) as Hs.
  destruct (split_suffix _ _) as [digits mult]. simpl in Hs.
  destruct (rust_parse 0 U64_MAX (trim digits)) as [n|] eqn:En; simpl; [|done].
  apply rust_parse_range in En. case_decide; [|done]. intros [= <-]. nia.
Qed.

(** Each arm stores only what its field can hold. *)
Definition arm_ok (d : Directive) : Prop :=
  match d with
  | PInt lo hi f => forall v, lo <= v <= hi /\ I64_MIN <= v <= I64_MAX -> fits f v
  | PSat f => num_range f = (0, U32_MAX)
  | PMem f => num_range f = (0, U64_MAX)
  | _ => True
  end.

Lemma store_ok {A} (r : ConfigError + A) (f : A -> Config -> Config) c :
  (forall v, r = inr v -> config_ok c -> config_ok (f v c)) -> config_ok c -> config_ok (store r f c).1.
Proof. destruct r; simpl; auto. Qed.

Lemma push_points_ok args c : config_ok c -> config_ok (push_points args c).1.
Proof.
  remember (length args) as n eqn:Hn. revert args c Hn. induction (lt_wf n) as [n _ IH].
  intros [|s [|k args]] c Hn Hc; simpl in *; [done..|].
  destruct (parse_uint s) as [|s'] eqn:Es; [by destruct (parse_uint k)|]. destruct (parse_uint k) as [|k'] eqn:Ek; [done|].
  apply (IH (length args)); [lia|done|]. destruct Hc as (Hn' & Hs & Hv). split_and!; [done| |done].
  simpl. apply Forall_app. split; [done|]. constructor; [|done].
  apply parse_int_in_range in Es as [? _], Ek as [? _]. by split.
Qed.

#[local] Arguments push_points : simpl never.

Lemma apply_arm_ok d args c : arm_ok d -> config_ok c -> config_ok (apply_arm d args c).1.
Proof.
  intros Hd Hc. assert (Hc' := Hc). destruct Hc' as (Hn & Hs & Hv).
  destruct d; destruct args as [|a rest]; simpl; try done.
  all: try (apply store_ok; [|done]; intros v Hr _).
  all: try exact Hc.
  - apply set_num_ok; [|done]. apply Hd. by eapply parse_int_in_range.
  - apply set_num_ok; [|done]. apply parse_int_in_range in Hr as [Hr _]. unfold fits. simpl in Hd. rewrite Hd. simpl. unfold U32_MAX in *. lia.
  - apply set_num_ok; [|done]. unfold parse_mem in Hr. destruct (parse_memory a) as [w|] eqn:E; [|done].
    injection Hr as <-. simpl in Hd. unfold fits. rewrite Hd. by apply parse_memory_range in E.
  - apply set_num_ok; [|done]. destruct (parse_uint a) as [|w] eqn:E; [done|]. case_decide; [done|]. injection Hr as <-.
    apply parse_int_in_range in E as [E Ei]. unfold fits. cbn. lia.
  - destruct a; [destruct rest|]; [|case_match; [by apply push_points_ok|done]..].
    split_and!; [done|constructor|done].
  - split_and!; [done|done|]. simpl. unfold some_or in Hr. destruct (parse a) as [w|] eqn:E; [|done]. injection Hr as <-.
    by apply (parse_from_valid 0) in E.
Qed.

Lemma directives_ok : Forall (fun p => arm_ok p.2) directives.
Proof. repeat (apply Forall_cons_2; [first [exact I|reflexivity|intros v [Hv Hi]; unfold fits; cbn in *; lia]|]). apply Forall_nil_2. Qed.

Lemma assoc_Forall {A} (P : A -> Prop) l k a : Forall (fun p : bytes * A => P p.2) l -> assoc l k = Some a -> P a.
Proof. induction 1 as [|[k' b] l Hb Hl IH]; simpl; [done|]. case_decide; [by intros [= <-]|done]. Qed.

Lemma apply_ok name args c : config_ok c -> config_ok (apply name args c).1.
Proof.
  intros Hc. unfold apply. destruct (directive_of name) as [d|] eqn:E; [|done].
  apply apply_arm_ok; [|done]. unfold directive_of in E. revert E. apply assoc_Forall, directives_ok.
Qed.

Lemma load_lines_ok `{FileSystem} load base ls c r :
  (forall p c r, config_ok c -> load p c = Some r -> config_ok r.1) -> config_ok c -> load_lines load base ls c = Some r -> config_ok r.1.
Proof.
  intros Hload. revert c. induction ls as [|raw ls IH]; intros c Hc; simpl; [by intros [= <-]|].
  case_match; [by apply IH|]. destruct (split_line (trim raw)) as [|name args]; [by apply IH|].
  case_match.
  - destruct args as [|rel args]; [by apply IH|]. intros ([c' e] & Hl & Hr)%bind_Some. apply Hload in Hl; [|done].
    destruct e; [by injection Hr as <-|]. by apply (IH c').
  - pose proof (apply_ok name args c Hc) as Ha. destruct (apply name args c) as [c' [e|]]; [by intros [= <-]|by apply IH].
Qed.

Lemma load_file_ok `{FileSystem} depth path c r : config_ok c -> load_file depth path c = Some r -> config_ok r.1.
Proof.
  revert path c r. induction depth as [|depth IH]; intros path c r Hc; simpl; [done|].
  destruct (read_to_string path); [by intros [= <-]|]. by apply load_lines_ok.
Qed.

Lemma take_values_length tokens : (length (take_values tokens).2 <= length tokens)%nat.
Proof. induction tokens as [|t l IH]; simpl; [done|]. case_match; [done|]. destruct (take_values l). simpl in *. lia. Qed.

Lemma overrides_run fuel tokens c : (length tokens <= fuel)%nat ->
  exists r, overrides_loop fuel tokens c = Some r /\ (config_ok c -> config_ok r.1).
Proof.
  revert tokens c. induction fuel as [|fuel IH]; intros [|tok rest] c Hl; simpl in *; try (by eexists); [lia|].
  destruct (strip_prefix (bs "--") tok) as [name|]; [|by eexists].
  pose proof (take_values_length rest) as Hlen. destruct (take_values rest) as [args rest']. simpl in Hlen.
  set (c0 := if eq_ignore_ascii_case name (bs "save") then set_save [] c else c).
  assert (Hc0 : config_ok c -> config_ok c0).
  { unfold c0. intros (Hn & Hs & Hv). case_match; [|done]. split_and!; [done|constructor|done]. }
  destruct (_ && _); [destruct (IH rest' c0) as (r & Hr & Hok); [lia|exists r; auto]|].
  pose proof (apply_ok name args c0) as Ha. destruct (apply name args c0) as [c' [e|]]; [by eexists; auto|].
  destruct (IH rest' c') as (r & Hr & Hok); [lia|exists r; auto].
Qed.

Lemma into_config_ok `{FileSystem} depth file overrides c :
  into_config depth file overrides = Some (inr c) -> config_ok c /\ validate c = None.
Proof.
  unfold into_config. intros ([c0 e0] & H0 & Hr)%bind_Some. destruct e0 as [|]; [done|].
  assert (Hc0 : config_ok c0).
  { destruct file as [p|]; [by apply load_file_ok in H0; [|apply config_default_ok]|]. injection H0 as <-. apply config_default_ok. }
  apply bind_Some in Hr as ([c1 e1] & H1 & Hr). destruct e1; [done|].
  destruct (overrides_run (length overrides) overrides c0) as (r & Hr' & Hok); [lia|].
  unfold apply_overrides in H1. rewrite H1 in Hr'. injection Hr' as <-.
  destruct (validate c1) eqn:E; [done|]. injection Hr as <-. auto.
Qed.

(** C17: The settings stay within their types and the server never starts on, nor
    switches to, settings [validate] refuses.  Directives, files with their
    includes and the command line keep every field inside the range of its
    Rust type, errors included; folding the command line always ends;
    [update] either stores a valid configuration or leaves the old one whole,
    whatever part of the change had been made when the error came. *)
Theorem config_safe `{FileSystem} :
  (forall name args c, config_ok c -> config_ok (apply name args c).1) /\
  (forall tokens c, exists r, apply_overrides tokens c = Some r /\ (config_ok c -> config_ok r.1)) /\
  (forall depth file overrides c, into_config depth file overrides = Some (inr c) -> config_ok c /\ validate c = None) /\
  (forall f c, let '(c', e) := update f c in
    match e with
    | Some _ => c' = c
    | None => f c = (c', None) /\ validate c' = None
    end).
Proof.
  split_and!.
  - apply apply_ok.
  - intros tokens c. by apply overrides_run.
  - apply into_config_ok.
  - intros f c. unfold update. destruct (f c) as [c' [e|]]; [done|]. by destruct (validate c') eqn:E.
Qed.

(** ** The configuration file and its quoting *)

(** A Rust string is a sequence of characters; [scalar] is one, as UTF-8. *)
Definition scalar (ch : bytes) : Prop := exists c t, ch = c :: t /\ forall rest, utf8_next c (t ++ rest) = (ch, rest).

Lemma chars_concat l : Forall scalar l -> chars (concat l) = l.
Proof.
  intros Hl. unfold chars. enough (forall n, (length (concat l) <= n)%nat -> utf8_lossy_chars n (concat l) = l) by auto.
  induction Hl as [|ch l (c & t & -> & Hc) Hl IH]; intros [|n] Hn; try done; cbn in *; [lia|].
  rewrite Hc. f_equal. apply IH. rewrite length_app in Hn. lia.
Qed.

Lemma ascii_scalar c : b2z c <= 127 -> scalar [c].
Proof.
  intros Hc. exists c, []. split; [done|]. intros rest. unfold utf8_next, utf8_width, between.
  by rewrite bool_decide_true by (pose proof (b2z_range c); lia).
Qed.

Lemma cont_run_all n t : cont_run n t = n -> Forall (fun c => 128 <= b2z c) (take n t).
Proof.
  revert t. induction n as [|n IH]; intros [|d t] Hn; simpl in *; try done; try (by constructor).
  destruct (utf8_cont d) eqn:E; [|done]. injection Hn as Hn. constructor; [|auto].
  unfold utf8_cont, between in E. apply bool_decide_eq_true in E. lia.
Qed.

(** A character of several bytes holds no ASCII byte. *)
Lemma scalar_ascii ch b : scalar ch -> b2z b <= 127 -> b ∈ ch -> ch = [b].
Proof.
  intros (c & t & -> & Hc) Hb Hin. specialize (Hc []). rewrite app_nil_r in Hc. unfold utf8_next in Hc.
  destruct (utf8_width c) as [|[|n]] eqn:Ew.
  - injection Hc as <- <-.
    repeat (apply elem_of_cons in Hin as [->|Hin]; [exfalso; revert Hb; vm_compute; done|]). by apply elem_of_nil in Hin.
  - injection Hc as <- _. by apply list_elem_of_singleton in Hin as ->.
  - assert (Hrep : forall x : bytes, (REPLACEMENT, x) = (c :: t, [] : bytes) -> False).
    { intros x [= <- <- _].
      repeat (apply elem_of_cons in Hin as [->|Hin]; [revert Hb; vm_compute; done|]). by apply elem_of_nil in Hin. }
    destruct t as [|d t1]; [by apply Hrep in Hc|]. destruct (utf8_second c d) eqn:Es; [|by apply Hrep in Hc].
    case_decide as Hk; [|by apply Hrep in Hc]. injection Hc as Ht Hd. apply cont_run_all in Hk.
    exfalso. apply elem_of_cons in Hin as [->|[->|Hin]%elem_of_cons].
    + unfold utf8_width, between in Ew. rewrite bool_decide_true in Ew by (pose proof (b2z_range c); lia). done.
    + unfold utf8_second, between in Es. repeat case_decide; apply bool_decide_eq_true in Es; lia.
    + rewrite <-Ht in Hin. rewrite Forall_forall in Hk. specialize (Hk _ Hin). lia.
Qed.

(** An argument in double quotes. *)
Definition escape (ch : bytes) : list bytes :=
  if decide (ch = [x22] \/ ch = [x5c]) then [[x5c]; ch]
  else if decide (ch = [x0a]) then [[x5c]; bs "n"]
  else if decide (ch = [x0d]) then [[x5c]; bs "r"]
  else [ch].
Definition quoted (a : list bytes) : list bytes := [x22] :: (a ≫= escape) ++ [[x22]].
Fixpoint conf_line (args : list (list bytes)) : list bytes :=
  match args with
  | [] => []
  | [a] => quoted a
  | a :: args => quoted a ++ [x20] :: conf_line args
  end.

Lemma split_escaped a cs out cur :
  Forall scalar a -> split_line_loop ((a ≫= escape) ++ cs) out cur true false true = split_line_loop cs out (cur ++ concat a) true false true.
Proof.
  intros Ha. revert cur. induction Ha as [|ch a Hch Ha IH]; intros cur; [by rewrite app_nil_r|].
  cbn [mbind list_bind concat]. rewrite (app_assoc cur), <-app_assoc. rewrite <-IH. unfold escape at 1.
  case_decide as Hq; [by destruct Hq as [-> | ->]|]. case_decide as Hn; [by subst|]. case_decide as Hr; [by subst|].
  cbn [app split_line_loop]. rewrite (bool_decide_false (ch = [x5c])), (bool_decide_false (ch = [x22])) by (intros ->; apply Hq; auto). simpl.
  by rewrite !andb_false_r.
Qed.

Lemma split_quoted a cs out :
  Forall scalar a -> split_line_loop (quoted a ++ cs) out [] false false false = split_line_loop cs out (concat a) false false true.
Proof.
  intros Ha. unfold quoted. cbn -[concat]. rewrite <-app_assoc. by rewrite split_escaped.
Qed.

Lemma split_conf_line args out :
  Forall (Forall scalar) args -> split_line_loop (conf_line args) out [] false false false = out ++ (@concat byte <$> args).
Proof.
  intros Hargs. revert out. induction Hargs as [|a args Ha Hargs IH]; intros out; [by rewrite app_nil_r|].
  destruct args as [|b args].
  - cbn [conf_line]. rewrite <-(app_nil_r (quoted a)). by rewrite split_quoted.
  - change (conf_line (a :: b :: args)) with (quoted a ++ [x20] :: conf_line (b :: args)). rewrite split_quoted by done.
    transitivity (split_line_loop (conf_line (b :: args)) (out ++ [concat a]) [] false false false); [done|].
    rewrite IH. by rewrite <-app_assoc.
Qed.

Lemma conf_line_shape args : args <> [] -> exists m, conf_line args = [x22] :: m ++ [[x22]].
Proof.
  induction args as [|a args IH]; [done|]. intros _. destruct args as [|b args]; [by eexists|].
  destruct IH as [m Hm]; [done|]. change (conf_line (a :: b :: args)) with (quoted a ++ [x20] :: conf_line (b :: args)).
  rewrite Hm. exists ((a ≫= escape) ++ [[x22]] ++ [x20] :: [x22] :: m). unfold quoted. cbn [app]. by rewrite <-!app_assoc.
Qed.

Definition plain (ch : bytes) : Prop := scalar ch /\ x0a ∉ ch.
Lemma ascii_plain c : (b2z c <=? 127) && negb (bool_decide (c = x0a)) = true -> plain [c].
Proof.
  intros [Hc%Z.leb_le Hn%negb_true_iff%bool_decide_eq_false]%andb_true_iff. split; [by apply ascii_scalar|]. by intros <-%list_elem_of_singleton.
Qed.

Lemma escape_plain ch : scalar ch -> Forall plain (escape ch).
Proof.
  intros Hch. unfold escape. case_decide as Hq; [destruct Hq; subst; repeat (apply Forall_cons_2; [by apply ascii_plain|]); by apply Forall_nil_2|].
  case_decide as Hn; [repeat (apply Forall_cons_2; [by apply ascii_plain|]); by apply Forall_nil_2|].
  case_decide as Hr; [repeat (apply Forall_cons_2; [by apply ascii_plain|]); by apply Forall_nil_2|].
  apply Forall_cons_2; [|by apply Forall_nil_2]. split; [done|]. intros Hin. apply Hn. by apply scalar_ascii.
Qed.

Lemma quoted_plain a : Forall scalar a -> Forall plain (quoted a).
Proof.
  intros Ha. apply Forall_cons_2; [by apply ascii_plain|]. apply Forall_app. split; [|by apply Forall_cons_2; [apply ascii_plain|apply Forall_nil_2]].
  induction Ha as [|ch a Hch Ha IH]; [by apply Forall_nil_2|]. cbn [mbind list_bind]. apply Forall_app. split; [by apply escape_plain|done].
Qed.

Lemma conf_line_plain args : Forall (Forall scalar) args -> Forall plain (conf_line args).
Proof.
  induction 1 as [|a args Ha Hargs IH]; [by apply Forall_nil_2|]. apply quoted_plain in Ha.
  destruct args as [|b args]; [done|]. change (conf_line (a :: b :: args)) with (quoted a ++ [x20] :: conf_line (b :: args)).
  apply Forall_app. split; [done|]. apply Forall_cons_2; [by apply ascii_plain|done].
Qed.

Lemma lines_line cur l s : x0a ∉ l -> lines_from cur (l ++ x0a :: s) = strip_cr (cur ++ l) :: lines_from [] s.
Proof.
  revert cur. induction l as [|b l IH]; intros cur Hl; [by rewrite app_nil_r|].
  apply not_elem_of_cons in Hl as [Hb Hl]. cbn [app lines_from]. rewrite decide_False by done. rewrite IH by done. by rewrite <-app_assoc.
Qed.

Lemma concat_snoc {A} (l : list (list A)) x : concat (l ++ [x]) = concat l ++ x.
Proof. rewrite concat_app. simpl. by rewrite app_nil_r. Qed.

Lemma strip_cr_snoc l b : b <> x0d -> strip_cr (l ++ [b]) = l ++ [b].
Proof.
  intros Hb. unfold strip_cr, strip_suffix. rewrite length_app. cbn [length]. rewrite Nat.add_sub.
  rewrite drop_app_length. rewrite decide_False; [done|]. congruence.
Qed.

(** One quoted directive is one line, and [trim] leaves it alone. *)
Lemma conf_line_text args :
  args <> [] -> Forall (Forall scalar) args ->
  let l := concat (conf_line args) in
  x0a ∉ l /\ strip_cr l = l /\ trim l = l /\ l <> [] /\ head l = Some x22 /\ split_line l = @concat byte <$> args.
Proof.
  intros Hne Hargs. pose proof (conf_line_plain args Hargs) as Hp. destruct (conf_line_shape args Hne) as [m Hm].
  assert (Hs : Forall scalar (conf_line args)) by (eapply Forall_impl; [exact Hp|by intros ? [??]]).
  pose proof (chars_concat _ Hs) as Hc. split_and!.
  - clear -Hp. induction Hp as [|ch l [_ Hch] Hl IH]; [by apply not_elem_of_nil|]. by apply not_elem_of_app.
  - rewrite Hm. change (concat ([x22] :: m ++ [[x22]])) with ([x22] ++ concat (m ++ [[x22]])). rewrite concat_snoc.
    rewrite app_assoc. by apply strip_cr_snoc.
  - unfold trim. rewrite Hc. rewrite Hm at 1.
    change (drop_spaces ([x22] :: m ++ [[x22]])) with (([x22] :: m) ++ [[x22]]). rewrite reverse_snoc.
    change (drop_spaces ([x22] :: reverse ([x22] :: m))) with ([x22] :: reverse ([x22] :: m)). rewrite reverse_cons, reverse_involutive.
    by rewrite Hm.
  - by rewrite Hm.
  - by rewrite Hm.
  - unfold split_line. rewrite Hc. by rewrite split_conf_line.
Qed.

(** What the directives of a file do, one after the other. *)
Fixpoint apply_all (ds : list (bytes * list bytes)) (c : Config) : Config * option ConfigError :=
  match ds with
  | [] => (c, None)
  | (name, args) :: ds => match apply name args c with (c, None) => apply_all ds c | r => r end
  end.
Definition directive_text (d : list bytes * list (list bytes)) : bytes := concat (conf_line (d.1 :: d.2)) ++ [x0a].
Definition directive_value (d : list bytes * list (list bytes)) : bytes * list bytes := (concat d.1, @concat byte <$> d.2).
Definition plain_directive (d : list bytes * list (list bytes)) : Prop :=
  Forall scalar d.1 /\ Forall (Forall scalar) d.2 /\ eq_ignore_ascii_case (concat d.1) (bs "include") = false.

Lemma load_texts `{FileSystem} load base ds c :
  Forall plain_directive ds -> load_lines load base (lines (ds ≫= directive_text)) c = Some (apply_all (directive_value <$> ds) c).
Proof.
  intros Hds. revert c. induction Hds as [|[name args] ds (Hn & Ha & Hi) Hds IH]; intros c; [done|]. cbn [fst snd] in *.
  assert (Hargs : Forall (Forall scalar) (name :: args)) by by apply Forall_cons_2.
  destruct (conf_line_text (name :: args) ltac:(done) Hargs) as (Hnl & Hcr & Htr & Hne & Hh & Hsp).
  cbn [mbind list_bind]. unfold directive_text at 1, lines. cbn [fst snd].
  rewrite <-app_assoc. change ([x0a] ++ ?s) with (x0a :: s). rewrite lines_line by done. cbn [app]. rewrite Hcr. cbn [load_lines].
  rewrite Htr, Hsp, Hh. rewrite bool_decide_false by done. cbn [orb]. rewrite bool_decide_false by done.
  cbn [fmap list_fmap]. rewrite Hi. cbn [apply_all directive_value fst snd].
  unfold directive_value at 1. cbn [fst snd]. destruct (apply (concat name) _ c) as [c' [e|]]; [done|]. apply IH.
Qed.

(** C34: A configuration file says what its directives say.  A file written with
    one directive a line, every word in double quotes with quotes, backslashes
    and line ends escaped, loads as the same directives applied in order to
    the same words, whatever characters they are made of, up to the first that
    is refused.  (The directives are any but [include], which reads another
    file.) *)
Theorem config_file_round_trip `{FileSystem} depth base ds c :
  Forall plain_directive ds -> load_str depth (ds ≫= directive_text) base c = Some (apply_all (directive_value <$> ds) c).
Proof. apply load_texts. Qed.

(** ** Numbers and sizes *)

Lemma digits_forallb s : digits s -> forallb is_digit s = true.
Proof. induction 1 as [|c s Hc Hs IH]; [done|]. simpl. by rewrite Hc. Qed.

Lemma rust_parse_digits lo hi s : digits s -> s <> [] -> lo <= dec_value s <= hi -> rust_parse lo hi s = Some (dec_value s).
Proof.
  intros Hs Hne Hr. unfold rust_parse.
  assert (E : match s with "+"%byte :: d => (false, d) | "-"%byte :: d => if decide (lo < 0) then (true, d) else (false, s) | _ => (false, s) end = (false, s)).
  { destruct Hs as [|c s Hc Hs]; [done|]. revert Hc. by destruct c. }
  rewrite E. by rewrite decide_False, digits_forallb, decide_True.
Qed.

(** [parse] reads back what [to_string] writes, for every integer type. *)
Lemma rust_parse_decimal lo hi v : lo <= v <= hi -> rust_parse lo hi (decimal v) = Some v.
Proof.
  intros Hv. destruct (Z.le_gt_cases 0 v) as [Hp|Hn].
  - pose proof (decimal_nonneg v Hp) as (Hd & Hval & _). rewrite <-Hval at 2. apply rust_parse_digits; [done| |by rewrite Hval].
    destruct (decimal_head_digit v Hp) as (c & t & -> & _). done.
  - rewrite decimal_neg by done. pose proof (decimal_nonneg (- v) ltac:(lia)) as (Hd & Hval & _).
    unfold rust_parse. rewrite decide_True by lia. rewrite decide_False, digits_forallb, Hval by
      (try done; destruct (decimal_head_digit (- v) ltac:(lia)) as (c & t & -> & _); done).
    rewrite decide_True by lia. f_equal. lia.
Qed.

Lemma graphic_not_space c : (33 <=? b2z c) && (b2z c <=? 126) && is_whitespace [c] = false.
Proof. by destruct c; vm_compute. Qed.

Definition graphic (s : bytes) : Prop := Forall (fun c => 33 <= b2z c <= 126) s.

Lemma drop_spaces_graphic (s : bytes) : graphic s -> drop_spaces ((fun c => [c]) <$> s) = (fun c => [c]) <$> s.
Proof.
  intros [|c t Hc Ht]; [done|]. simpl. pose proof (graphic_not_space c) as H.
  rewrite (proj2 (Z.leb_le 33 (b2z c))), (proj2 (Z.leb_le (b2z c) 126)) in H by lia. simpl in H. by rewrite H.
Qed.

Lemma trim_graphic s : graphic s -> trim s = s.
Proof.
  intros Hs. unfold trim, chars. rewrite utf8_lossy_ascii; [|by eapply Forall_impl; [exact Hs|simpl; lia]|done].
  rewrite drop_spaces_graphic by done. rewrite <-fmap_reverse, drop_spaces_graphic by (by apply Forall_reverse). rewrite <-fmap_reverse, reverse_involutive.
  clear Hs. induction s as [|c s IH]; [done|]. simpl. by f_equal.
Qed.

Lemma digits_graphic s : digits s -> graphic s.
Proof. intros Hs. eapply Forall_impl; [exact Hs|]. intros c Hc%is_digit_spec. lia. Qed.

Lemma lower_digits s : digits s -> lower s = s.
Proof.
  induction 1 as [|c s Hc Hs IH]; [done|]. change (lower (c :: s)) with (to_ascii_lowercase c :: lower s). rewrite IH. f_equal. revert Hc. by destruct c.
Qed.

(** The letters at the end of a number are those of its suffix. *)
Lemma strip_after_digits d suf suf' :
  digits d -> d <> [] -> existsb is_digit suf' = false -> suf' <> [] ->
  strip_suffix suf' (d ++ suf) = if (length suf' <=? length suf)%nat then app d <$> strip_suffix suf' suf else None.
Proof.
  intros Hd Hne Hl Hs. unfold strip_suffix. rewrite length_app. destruct (Nat.leb_spec (length suf') (length suf)) as [Hlen|Hlen].
  - rewrite drop_app_ge by lia. replace (length d + length suf - length suf' - length d)%nat with (length suf - length suf')%nat by lia.
    case_decide; [|done]. simpl. rewrite take_app_ge by lia. do 3 f_equal. lia.
  - rewrite decide_False; [done|]. intros E.
    assert (Hin : exists c, c ∈ suf' /\ c ∈ d).
    { rewrite <-E. rewrite drop_app_le by lia.
      destruct (drop (length d + length suf - length suf') d) as [|c t] eqn:Ed.
      - apply (f_equal length) in Ed. rewrite length_drop in Ed. simpl in Ed. destruct d; [done|]. simpl in *. lia.
      - exists c. split; [by left|]. assert (c ∈ c :: t) as Hc by by left. rewrite <-Ed in Hc. eapply elem_of_split_at; right; exact Hc. }
    destruct Hin as (c & Hc & Hc'). rewrite Forall_forall in Hd. specialize (Hd c Hc').
    clear -Hl Hc Hd. induction suf' as [|x l IH]; [by apply elem_of_nil in Hc|]. simpl in Hl. apply orb_false_iff in Hl as [Hx Hl].
    apply elem_of_cons in Hc as [->|Hc]; [congruence|auto].
Qed.

Lemma lower_app a b : lower (a ++ b) = lower a ++ lower b.
Proof. apply fmap_app. Qed.

Lemma parse_memory_decimal n suf mult :
  0 <= n <= U64_MAX -> (lower suf, mult) ∈ ([], 1) :: suffixes ->
  parse_memory (decimal n ++ suf) = if decide (n * mult <= U64_MAX) then Some (n * mult) else None.
Proof.
  intros Hn Hin. destruct (decimal_nonneg n ltac:(lia)) as (Hd & Hval & _).
  assert (Hne : decimal n <> []) by (destruct (decimal_head_digit n ltac:(lia)) as (c & t & -> & _); done).
  assert (Hg : graphic suf).
  { assert (Hlow : forallb (fun c => (33 <=? b2z c) && (b2z c <=? 126)) (lower suf) = true).
    { unfold suffixes in Hin. repeat (apply elem_of_cons in Hin as [Hin|Hin]; [injection Hin as -> _; done|]). by apply elem_of_nil in Hin. }
    clear -Hlow. induction suf as [|c s IH]; [constructor|]. simpl in Hlow. apply andb_true_iff in Hlow as [Hc Hs].
    constructor; [|exact (IH Hs)]. clear -Hc.
    assert (H : implb ((33 <=? b2z (to_ascii_lowercase c)) && (b2z (to_ascii_lowercase c) <=? 126)) ((33 <=? b2z c) && (b2z c <=? 126)) = true) by (by destruct c).
    rewrite Hc in H. apply andb_true_iff in H as [?%Z.leb_le ?%Z.leb_le]. lia. }
  unfold parse_memory. rewrite trim_graphic by (apply Forall_app; split; [by apply digits_graphic|done]).
  rewrite decide_False by (by destruct (decimal n)). rewrite lower_app, lower_digits by done.
  assert (E : split_suffix suffixes (decimal n ++ lower suf) = (decimal n, mult)).
  { clear Hg Hn Hval. revert Hd Hne. generalize (decimal n). intros d Hd Hne. unfold suffixes in Hin |- *. cbn [split_suffix].
    repeat (apply elem_of_cons in Hin as [Hin|Hin];
      [injection Hin as -> ->; rewrite !strip_after_digits by done; vm_compute; exact (f_equal (fun x => (x, _)) (app_nil_r d))|]).
    by apply elem_of_nil in Hin. }
  rewrite E, trim_graphic by (by apply digits_graphic). rewrite rust_parse_digits, Hval by (done || by rewrite Hval). done.
Qed.

Lemma rounded_up_spec n : 1 <= n <= 2 ^ 63 ->
  exists k, 0 <= k <= 63 /\ next_power_of_two n = 2 ^ k /\ n <= next_power_of_two n < 2 * n.
Proof.
  intros Hn. unfold next_power_of_two. case_decide as H1; [exists 0; split_and!; (done || lia)|].
  exists (Z.log2_up n). pose proof (Z.log2_up_spec n ltac:(lia)) as [Hlo Hhi]. pose proof (Z.log2_up_nonneg n).
  assert (Z.log2_up n <= 63) by (rewrite <-(Z.log2_up_pow2 63) by lia; apply Z.log2_up_le_mono; lia).
  assert (0 < Z.log2_up n) by (apply Z.log2_up_pos; lia).
  assert (2 ^ Z.log2_up n = 2 * 2 ^ Z.pred (Z.log2_up n)) by (rewrite <-Z.pow_succ_r by lia; f_equal; lia).
  split_and!; (done || lia).
Qed.

(** Sizes are read as Redis writes them.  A decimal number followed by one
    of [b], [k], [kb], [m], [mb], [g], [gb] in any case, or by nothing, is the
    number times the suffix's multiple, and refused exactly when the product
    does not fit 64 bits; the shard count is rounded up to a power of two
    which never overflows. *)
Theorem memory_sizes :
  (forall n suf mult, 0 <= n <= U64_MAX -> (lower suf, mult) ∈ ([], 1) :: suffixes ->
    parse_memory (decimal n ++ suf) = if decide (n * mult <= U64_MAX) then Some (n * mult) else None) /\
  (forall cpus c, config_ok c -> 0 <= cpus <= I64_MAX ->
    let n := effective_shard_count cpus c in
    (exists k, 0 <= k <= 63 /\ n = 2 ^ k) /\ num c ShardCount <= n /\ n < 2 * Z.max 1 (if decide (num c ShardCount = 0) then cpus else num c ShardCount)).
Proof.
  split.
  - intros n suf mult Hn Hin. by apply parse_memory_decimal.
  - intros cpus c (Hf & _) Hcpu. specialize (Hf ShardCount). unfold fits in Hf. simpl in Hf. unfold effective_shard_count.
    set (base := if decide (num c ShardCount = 0) then cpus else num c ShardCount).
    assert (Hb : 0 <= base <= I64_MAX /\ num c ShardCount <= base) by (unfold base; case_decide; lia).
    destruct (rounded_up_spec (Z.max base 1) ltac:(unfold I64_MAX in *; lia)) as (k & Hk & E & Hlo & Hhi).
    rewrite (Z.max_comm 1). split_and!; [by exists k|lia|lia].
Qed.

(** ** Witnesses *)

Definition no_files : FileSystem := {| read_to_string _ := inl (bs "No such file"); parent _ := None; join a b := a ++ b |}.
Definition chars_of (s : bytes) : list bytes := (fun c => [c]) <$> s.
Definition demo_directives : list (list bytes * list (list bytes)) :=
  [(chars_of (bs "maxmemory"), [chars_of (bs "2gb")]); (chars_of (bs "save"), [[]]); (chars_of (bs "unixsocket"), [chars_of (bs "/tmp/a") ++ [[x22]; [x0a]]])].

Lemma config_file_round_trip_witness : exists c,
  @load_str no_files 1 (demo_directives ≫= directive_text) None config_default = Some (c, None) /\
  num c Maxmemory = 2147483648 /\ save c = [].
Proof.
  assert (Hd : Forall plain_directive demo_directives).
  { repeat constructor; eexists _, _; (split; [reflexivity|]); intros rest; reflexivity. }
  pose proof (@config_file_round_trip no_files 1 None demo_directives config_default Hd) as E.
  eexists. split; [rewrite E; vm_compute; reflexivity|]. by vm_compute.
Defined.
