(* ===== verification/Intset.v ===== *)
(** * Intset: a sorted array of same-width integers ([src/encoding/intset.rs])

    The serialized blob, byte for byte: a 4-byte width, a 4-byte length and
    the elements, little-endian.  [None] from an operation that returns one
    stands for a panic (or, in [get], for the [None] of the source); the
    theorems, over the blobs [repr] describes, exclude it.  The abstract view
    of an intset is its strictly increasing list of elements. *)
From S2P Require Import Prelude.
Open Scope nat_scope.

Definition ENC_INT16 : Z := 2.
Definition ENC_INT32 : Z := 4.
Definition ENC_INT64 : Z := 8.
Definition HDR : nat := 8.

Definition value_encoding (v : Z) : Z :=
  if decide (v < -2147483648 \/ 2147483647 < v)%Z then ENC_INT64
  else if decide (v < -32768 \/ 32767 < v)%Z then ENC_INT32
  else ENC_INT16.

Record Intset := { buf : bytes }.

Definition new : Intset := {| buf := le_bytes 4 ENC_INT16 ++ le_bytes 4 0 |}.

Definition encoding (s : Intset) : Z :=
  match slice 0 4 (buf s) with Some h => le_val h | None => ENC_INT16 end.

Definition len (s : Intset) : nat :=
  match slice 4 8 (buf s) with Some h => Z.to_nat (le_val h) | None => 0 end.

Definition is_empty (s : Intset) : bool := bool_decide (len s = 0).

Definition set_len (n : nat) (s : Intset) : Intset := {| buf := patch 4 (le_bytes 4 (Z.of_nat n)) (buf s) |}.
Definition set_encoding (enc : Z) (s : Intset) : Intset := {| buf := patch 0 (le_bytes 4 enc) (buf s) |}.

(** The width the [match enc] of the source uses. *)
Definition width_of (enc : nat) : nat := match enc with 2 => 2 | 4 => 4 | _ => 8 end.

Definition get (s : Intset) (index : nat) : option Z :=
  let enc := Z.to_nat (encoding s) in
  let at_ := HDR + index * enc in
  b ← slice at_ (at_ + enc) (buf s);
  if decide (width_of enc <= length b) then Some (le_signed (take (width_of enc) b)) else None.

Definition put (index : nat) (v : Z) (s : Intset) : Intset :=
  let enc := Z.to_nat (encoding s) in
  {| buf := patch (HDR + index * enc) (le_bytes (width_of enc) v) (buf s) |}.

(** [Ok index] is [inr], [Err insert_position] is [inl]. *)
Fixpoint search_loop (fuel : nat) (s : Intset) (v : Z) (lo hi : nat) : nat + nat :=
  match fuel with
  | O => inl lo
  | S fuel =>
      if decide (lo < hi) then
        let mid := lo + (hi - lo) / 2 in
        match get s mid with
        | Some cur =>
            if decide (cur < v)%Z then search_loop fuel s v (mid + 1) hi
            else if decide (v < cur)%Z then search_loop fuel s v lo mid
            else inr mid
        | None => inl lo
        end
      else inl lo
  end.

Definition search (s : Intset) (v : Z) : nat + nat :=
  let n := len s in
  if decide (n = 0) then inl 0
  else
    match get s (n - 1) with
    | Some max => if decide (max < v)%Z then inl n else
        match get s 0 with
        | Some min => if decide (v < min)%Z then inl 0 else search_loop (S n) s v 0 n
        | None => search_loop (S n) s v 0 n
        end
    | None =>
        match get s 0 with
        | Some min => if decide (v < min)%Z then inl 0 else search_loop (S n) s v 0 n
        | None => search_loop (S n) s v 0 n
        end
    end.

Definition contains (s : Intset) (v : Z) : bool := match search s v with inr _ => true | inl _ => false end.

Definition push_le (out : bytes) (v : Z) (width : nat) : bytes := out ++ le_bytes (width_of width) v.

Definition upgrade_and_add (v new_enc : Z) (s : Intset) : Intset :=
  let n := len s in
  let ne := Z.to_nat new_enc in
  let out := le_bytes 4 new_enc ++ le_bytes 4 (Z.of_nat (n + 1)) in
  let prepend := bool_decide (v < 0)%Z in
  let out := if prepend then push_le out v ne else out in
  let out := foldl (fun out i => push_le out (default 0%Z (get s i)) ne) out (seq 0 n) in
  let out := if prepend then out else push_le out v ne in
  set_encoding new_enc {| buf := out |}.

Definition insert_at (pos : nat) (v : Z) (s : Intset) : option Intset :=
  let enc := Z.to_nat (encoding s) in
  let n := len s in
  let old := length (buf s) in
  let b := buf s ++ replicate enc x00 in
  let at_ := HDR + pos * enc in
  b ← copy_within at_ old (at_ + enc) b;
  Some (put pos v (set_len (n + 1) {| buf := b |})).

Definition add (v : Z) (s : Intset) : option (Intset * bool) :=
  let need := value_encoding v in
  if decide (encoding s < need)%Z then Some (upgrade_and_add v need s, true)
  else
    match search s v with
    | inr _ => Some (s, false)
    | inl pos => s ← insert_at pos v s; Some (s, true)
    end.

Definition remove (v : Z) (s : Intset) : option (Intset * bool) :=
  if decide (encoding s < value_encoding v)%Z then Some (s, false)
  else
    match search s v with
    | inl _ => Some (s, false)
    | inr pos =>
        let enc := Z.to_nat (encoding s) in
        let n := len s in
        let from := HDR + (pos + 1) * enc in
        let to := HDR + pos * enc in
        let end_ := length (buf s) in
        b ← copy_within from end_ to (buf s);
        Some (set_len (n - 1) {| buf := take (end_ - enc) b |}, true)
    end.

Definition clear (s : Intset) : Intset := set_len 0 {| buf := take HDR (buf s) |}.

Fixpoint ascending_from (s : Intset) (prev : option Z) (ix : list nat) : bool :=
  match ix with
  | [] => true
  | i :: ix =>
      match get s i with
      | None => false
      | Some v =>
          match prev with
          | Some p => if decide (v <= p)%Z then false else ascending_from s (Some v) ix
          | None => ascending_from s (Some v) ix
          end
      end
  end.

Definition from_bytes (b : bytes) : option Intset :=
  h ← slice 0 HDR b;
  let enc := le_val (take 4 h) in
  if decide (enc <> ENC_INT16 /\ enc <> ENC_INT32 /\ enc <> ENC_INT64) then None
  else
    let n := le_val (drop 4 h) in
    let want := (n * enc + Z.of_nat HDR)%Z in
    if decide (U64_MAX < want)%Z then None
    else if decide (want <> blen b) then None
    else
      let s := {| buf := b |} in
      if ascending_from s None (seq 0 (Z.to_nat n)) then Some s else None.

Definition from_iter_i64 (items : list Z) : option Intset :=
  foldl (fun s v => s ← s; fst <$> add v s) (Some new) items.

Definition min (s : Intset) : option Z := get s 0.
Definition max (s : Intset) : option Z := if decide (len s = 0) then None else get s (len s - 1).

(** The iterator, run to the end: forwards and backwards. *)
Fixpoint iter_from (fuel : nat) (s : Intset) (i j : nat) : list Z :=
  match fuel with
  | O => []
  | S fuel =>
      if decide (j <= i) then []
      else match get s i with Some v => v :: iter_from fuel s (i + 1) j | None => [] end
  end.
Definition iter (s : Intset) : list Z := iter_from (len s) s 0 (len s).

(** ** The blob of a list *)

Definition repr (enc : Z) (xs : list Z) : bytes :=
  (le_bytes 4 enc ++ le_bytes 4 (blen xs)) ++ concat (le_bytes (Z.to_nat enc) <$> xs).

Definition valid_enc (enc : Z) : Prop := enc = ENC_INT16 \/ enc = ENC_INT32 \/ enc = ENC_INT64.

(** [s] is the intset of the elements [xs] at the width [enc]. *)
Record represents (s : Intset) (enc : Z) (xs : list Z) : Prop := {
  rep_buf : buf s = repr enc xs;
  rep_enc : valid_enc enc;
  rep_sorted : StronglySorted Z.lt xs;
  rep_fits : Forall (in_signed (8 * enc)) xs;
  rep_len : (blen xs < 2 ^ 32)%Z
}.

Lemma valid_enc_width (enc : Z) : valid_enc enc -> width_of (Z.to_nat enc) = Z.to_nat enc /\ (2 <= enc <= 8)%Z.
Proof. intros [->|[->| ->]]; (split; [reflexivity|done]). Qed.

Lemma repr_blocks (w : nat) (xs : list Z) : blocks_of w (le_bytes w <$> xs).
Proof. apply Forall_fmap, Forall_true. intros. apply le_bytes_length. Qed.

Lemma encoding_header (enc n : Z) (body : bytes) :
  (0 <= enc < 2 ^ 32)%Z -> encoding {| buf := (le_bytes 4 enc ++ le_bytes 4 n) ++ body |} = enc.
Proof.
  intros He. unfold encoding. cbn [buf]. rewrite <-app_assoc.
  replace (slice 0 4 _) with (Some (le_bytes 4 enc)).
  - apply le_unsigned_le_bytes. exact He.
  - unfold slice. rewrite decide_True; [done|]. rewrite !length_app, !le_bytes_length. lia.
Qed.

Section represented.
Context (s : Intset) (enc : Z) (xs : list Z).
Context (Hb : buf s = repr enc xs) (He : valid_enc enc) (Hn : (blen xs < 2 ^ 32)%Z).
#[local] Set Default Proof Using "Type*".

Lemma encoding_repr : encoding s = enc.
Proof.
  pose proof (valid_enc_width enc He) as [_ ?]. pose proof (encoding_header enc (blen xs)) as E.
  destruct s as [b]. simpl in Hb. rewrite Hb. apply E. lia.
Qed.

Lemma len_repr : len s = length xs.
Proof.
  unfold len. rewrite Hb. unfold repr. rewrite <-app_assoc.
  replace (slice 4 8 _) with (Some (le_bytes 4 (blen xs))).
  - rewrite le_unsigned_le_bytes by (unfold in_unsigned, blen in *; simpl; lia). unfold blen. lia.
  - unfold slice. rewrite decide_True; [done|]. rewrite !length_app, !le_bytes_length. lia.
Qed.

Lemma buf_length_repr : length (buf s) = HDR + length xs * Z.to_nat enc.
Proof.
  rewrite Hb. unfold repr. rewrite length_app, (length_blocks (Z.to_nat enc)) by apply repr_blocks.
  by rewrite length_app, !le_bytes_length, length_fmap.
Qed.

Lemma get_repr (Hf : Forall (in_signed (8 * enc)) xs) (i : nat) : get s i = xs !! i.
Proof.
  destruct (valid_enc_width enc He) as [Hw Hr]. unfold get. rewrite encoding_repr, Hw.
  destruct (xs !! i) as [x|] eqn:Hi.
  - pose proof (slice_block (Z.to_nat enc) i (le_bytes (Z.to_nat enc) <$> xs)
      (le_bytes 4 enc ++ le_bytes 4 (blen xs)) [] (le_bytes (Z.to_nat enc) x)) as Hs.
    rewrite length_app, !le_bytes_length, app_nil_r in Hs. unfold HDR. rewrite Hb. unfold repr.
    change (4 + 4) with 8 in Hs. rewrite Hs; [|apply repr_blocks|by rewrite list_lookup_fmap, Hi]. simpl.
    rewrite le_bytes_length, decide_True by done. rewrite firstn_all2 by (by rewrite le_bytes_length).
    f_equal. apply le_signed_le_bytes; [lia|]. rewrite Z2Nat.id by lia.
    by apply (proj1 (Forall_lookup _ _) Hf i x).
  - unfold slice. rewrite buf_length_repr. rewrite decide_False; [done|].
    apply lookup_ge_None in Hi. nia.
Qed.
End represented.

Lemma represents_get (s : Intset) (enc : Z) (xs : list Z) :
  represents s enc xs ->
  encoding s = enc /\ len s = length xs /\ forall i, get s i = xs !! i.
Proof.
  intros []. split_and!; [by eapply encoding_repr|by eapply len_repr|]. intros i. by eapply get_repr.
Qed.

(** ** Search *)

Lemma sorted_lookup (xs : list Z) (i j : nat) (x y : Z) :
  StronglySorted Z.lt xs -> xs !! i = Some x -> xs !! j = Some y -> i < j -> (x < y)%Z.
Proof.
  intros Hs Hi Hj Hij. rewrite <-(take_drop_middle xs i x Hi) in Hs.
  apply StronglySorted_app in Hs as (_ & _ & Hs). apply StronglySorted_inv in Hs as [_ Hs].
  rewrite Forall_forall in Hs. apply Hs. apply (list_elem_of_lookup_2 _ (j - S i)).
  rewrite lookup_drop. by replace (S i + (j - S i)) with j by lia.
Qed.

(** Where [v] is, or the only place it can go. *)
Definition locates (xs : list Z) (v : Z) (r : nat + nat) : Prop :=
  match r with
  | inr i => xs !! i = Some v
  | inl p => p <= length xs /\ Forall (fun x => x < v)%Z (take p xs) /\ Forall (fun x => v < x)%Z (drop p xs)
  end.

Lemma locates_intro (xs : list Z) (v : Z) (p : nat) :
  p <= length xs ->
  (forall i x, xs !! i = Some x -> i < p -> (x < v)%Z) -> (forall i x, xs !! i = Some x -> p <= i -> (v < x)%Z) ->
  locates xs v (inl p).
Proof.
  intros Hp Hlt Hgt. split_and!; [done|..]; apply Forall_lookup; intros i x Hi.
  - apply lookup_take_Some in Hi as [Hi ?]. by eapply Hlt.
  - rewrite lookup_drop in Hi. eapply Hgt; [done|lia].
Qed.

Lemma search_loop_spec (s : Intset) (enc : Z) (xs : list Z) (v : Z) :
  represents s enc xs -> forall fuel lo hi,
  hi - lo < fuel -> lo <= hi <= length xs ->
  (forall i x, xs !! i = Some x -> i < lo -> (x < v)%Z) -> (forall i x, xs !! i = Some x -> hi <= i -> (v < x)%Z) ->
  locates xs v (search_loop fuel s v lo hi).
Proof.
  intros Hr. destruct (represents_get s enc xs Hr) as (_ & _ & Hget). pose proof (rep_sorted _ _ _ Hr) as Hs.
  induction fuel as [|fuel IH]; intros lo hi Hf Hb Hlt Hgt; [lia|]. cbn [search_loop]. cbn zeta.
  destruct (decide (lo < hi)) as [Hlh|]; [|apply locates_intro; [lia|done|]; intros i x Hi ?; eapply Hgt; [done|lia]].
  assert (lo <= lo + (hi - lo) / 2 < hi) as Hm by (pose proof (Nat.div_lt (hi - lo) 2); lia).
  set (mid := lo + (hi - lo) / 2) in *. rewrite Hget.
  destruct (lookup_lt_is_Some_2 xs mid ltac:(lia)) as [cur Hcur]. rewrite Hcur.
  case_decide; [|case_decide].
  - apply IH; [lia|lia| |done]. intros i x Hi ?. destruct (decide (i = mid)) as [->|]; [congruence|].
    pose proof (sorted_lookup xs i mid x cur Hs Hi Hcur ltac:(lia)). lia.
  - apply IH; [lia|lia|done|]. intros i x Hi ?. destruct (decide (i = mid)) as [->|]; [congruence|].
    pose proof (sorted_lookup xs mid i cur x Hs Hcur Hi ltac:(lia)). lia.
  - simpl. rewrite Hcur. f_equal. lia.
Qed.

Lemma search_locates (s : Intset) (enc : Z) (xs : list Z) (v : Z) :
  represents s enc xs -> locates xs v (search s v).
Proof.
  intros Hr. destruct (represents_get s enc xs Hr) as (_ & Hlen & Hget). pose proof (rep_sorted _ _ _ Hr) as Hs.
  unfold search. rewrite Hlen. case_decide as H0; [apply locates_intro; [lia|intros; lia|]|].
  { intros i x Hi. apply lookup_lt_Some in Hi. lia. }
  rewrite !Hget. destruct (lookup_lt_is_Some_2 xs (length xs - 1) ltac:(lia)) as [mx Hmx]. rewrite Hmx.
  destruct (lookup_lt_is_Some_2 xs 0 ltac:(lia)) as [mn Hmn]. rewrite Hmn.
  case_decide; [|case_decide].
  - apply locates_intro; [lia| |]; intros i x Hi ?; pose proof (lookup_lt_Some _ _ _ Hi); [|lia].
    destruct (decide (i = length xs - 1)) as [->|]; [congruence|].
    pose proof (sorted_lookup xs i (length xs - 1) x mx Hs Hi Hmx ltac:(lia)). lia.
  - apply locates_intro; [lia|intros; lia|]. intros i x Hi _. destruct i as [|i]; [congruence|].
    pose proof (sorted_lookup xs 0 (S i) mn x Hs Hmn Hi ltac:(lia)). lia.
  - eapply search_loop_spec; [done|lia|lia|intros; lia|].
    intros i x Hi. apply lookup_lt_Some in Hi. lia.
Qed.

Lemma locates_absent (xs : list Z) (v : Z) (p : nat) : locates xs v (inl p) -> v ∉ xs.
Proof.
  intros (_ & H1 & H2). rewrite <-(take_drop p xs). rewrite Forall_forall in H1, H2.
  intros [H|H]%elem_of_app; [apply H1 in H|apply H2 in H]; lia.
Qed.

(** ** Insertion and removal *)

(** A blob split at element [p]. *)
Lemma repr_split (enc : Z) (xs : list Z) (p : nat) :
  repr enc xs = (le_bytes 4 enc ++ le_bytes 4 (blen xs)) ++
    concat (le_bytes (Z.to_nat enc) <$> take p xs) ++ concat (le_bytes (Z.to_nat enc) <$> drop p xs).
Proof. unfold repr. by rewrite <-concat_app, <-fmap_app, take_drop. Qed.

Lemma blocks_length (w : nat) (xs : list Z) : length (concat (le_bytes w <$> xs)) = length xs * w.
Proof. rewrite (length_blocks w) by apply repr_blocks. by rewrite length_fmap. Qed.

Lemma set_len_repr (enc : Z) (n : Z) (m : nat) (body : bytes) :
  set_len m {| buf := (le_bytes 4 enc ++ le_bytes 4 n) ++ body |} =
  {| buf := (le_bytes 4 enc ++ le_bytes 4 (Z.of_nat m)) ++ body |}.
Proof.
  unfold set_len. cbn [buf]. rewrite <-!app_assoc.
  by rewrite (patch_at 4 (le_bytes 4 enc ++ le_bytes 4 n ++ body) (le_bytes 4 enc)
    (le_bytes 4 (Z.of_nat m)) (le_bytes 4 n) body).
Qed.

Lemma insert_at_repr (s : Intset) (enc v : Z) (xs : list Z) (p : nat) :
  buf s = repr enc xs -> valid_enc enc -> (blen xs < 2 ^ 32)%Z -> p <= length xs ->
  exists s', insert_at p v s = Some s' /\ buf s' = repr enc (take p xs ++ v :: drop p xs).
Proof.
  intros Hb He Hn Hp. destruct (valid_enc_width enc He) as [Hw Hr]. unfold insert_at.
  rewrite (encoding_repr s enc xs), (len_repr s enc xs) by done. set (w := Z.to_nat enc) in *.
  rewrite (buf_length_repr s enc xs) by done. fold w.
  set (H := le_bytes 4 enc ++ le_bytes 4 (blen xs)).
  set (A := concat (le_bytes w <$> take p xs)). set (C := concat (le_bytes w <$> drop p xs)).
  assert (buf s = H ++ A ++ C) as E by (rewrite Hb; apply repr_split).
  assert (length H = HDR) as LH by (subst H; by rewrite length_app, !le_bytes_length).
  assert (length A = p * w) as LA by (subst A; rewrite blocks_length, length_take; nia).
  assert (length C = (length xs - p) * w) as LC by (subst C; by rewrite blocks_length, length_drop).
  assert (length xs * w = p * w + (length xs - p) * w) as LX by nia.
  rewrite (copy_within_at _ (H ++ A) C (replicate w x00)).
  2:{ rewrite E. by rewrite <-!app_assoc. }
  2:{ rewrite length_app. lia. }
  2:{ rewrite length_app. lia. }
  2:{ rewrite E, !length_app, length_replicate. lia. }
  cbn [mbind option_bind]. set (X := take w (C ++ replicate w x00)).
  assert (length X = w) as LXw by (subst X; rewrite length_take, length_app, length_replicate; lia).
  assert (take (HDR + p * w + w) (buf s ++ replicate w x00) = H ++ A ++ X) as ->.
  { rewrite E, <-!app_assoc, take_add_app, <-LA, <-LH, <-length_app, app_assoc.
    rewrite take_app_length, drop_app_length. by rewrite <-app_assoc. }
  rewrite (drop_ge (buf s ++ replicate w x00)) by (rewrite E, !length_app, length_replicate; lia).
  rewrite app_nil_r, <-!app_assoc. subst H. rewrite set_len_repr. unfold put. cbn [buf].
  set (H' := le_bytes 4 enc ++ le_bytes 4 _).
  assert (encoding {| buf := H' ++ A ++ X ++ C |} = enc) as -> by (apply encoding_header; lia).
  fold w. rewrite Hw. eexists. split; [reflexivity|]. cbn [buf].
  rewrite (patch_at _ _ (H' ++ A) (le_bytes w v) X C).
  - rewrite (repr_split enc _ p). rewrite take_app_length', drop_app_length' by (rewrite length_take; lia).
    subst H' A C. rewrite <-!app_assoc. do 2 f_equal.
    { unfold blen. rewrite length_app, length_take. cbn [length]. rewrite length_drop. f_equal. lia. }
  - by rewrite <-!app_assoc.
  - rewrite length_app. subst H'. rewrite length_app, !le_bytes_length. unfold HDR. lia.
  - by rewrite le_bytes_length.
Qed.

Lemma remove_at_repr (s : Intset) (enc v : Z) (xs : list Z) (p : nat) :
  represents s enc xs -> search s v = inr p -> (value_encoding v <= enc)%Z -> xs !! p = Some v ->
  exists s', remove v s = Some (s', true) /\ buf s' = repr enc (delete p xs).
Proof.
  intros [Hb He Hs Hf Hn] Hsearch Hv Hp. destruct (valid_enc_width enc He) as [Hw Hr]. unfold remove.
  rewrite (encoding_repr s enc xs), (len_repr s enc xs) by done. set (w := Z.to_nat enc) in *.
  destruct (decide (_ < _)%Z); [lia|]. rewrite Hsearch. pose proof (lookup_lt_Some _ _ _ Hp) as Hlt.
  set (H := le_bytes 4 enc ++ le_bytes 4 (blen xs)).
  set (A := concat (le_bytes w <$> take p xs)). set (C := concat (le_bytes w <$> drop (S p) xs)).
  assert (buf s = (H ++ A) ++ le_bytes w v ++ C) as E.
  { rewrite Hb. rewrite (repr_split enc xs p), (drop_S xs v p) by done. subst H A C. fold w.
    rewrite fmap_cons. cbn [concat]. by rewrite <-!app_assoc. }
  assert (length H = HDR) as LH by (subst H; by rewrite length_app, !le_bytes_length).
  assert (length A = p * w) as LA by (subst A; rewrite blocks_length, length_take; nia).
  assert (length (H ++ A) = HDR + p * w) as LHA by (rewrite length_app; lia).
  assert (length (buf s) = HDR + p * w + w + length C) as LB by (rewrite E, !length_app, le_bytes_length in *; lia).
  rewrite (copy_within_at _ ((H ++ A) ++ le_bytes w v) C []).
  2:{ rewrite E, app_nil_r. by rewrite <-!app_assoc. }
  2:{ rewrite length_app, le_bytes_length. lia. }
  2:{ rewrite length_app, le_bytes_length. lia. }
  2:{ lia. }
  cbn [mbind option_bind].
  assert (take (HDR + p * w) (buf s) = H ++ A) as -> by (rewrite E; by apply take_app_length').
  rewrite (app_assoc (H ++ A) C), take_app_length' by (rewrite length_app; lia).
  rewrite <-app_assoc. subst H. rewrite set_len_repr. eexists. split; [reflexivity|]. cbn [buf].
  rewrite (repr_split enc _ p), delete_take_drop, take_app_length', drop_app_length' by (rewrite length_take; lia).
  do 4 f_equal. unfold blen. rewrite length_app, length_take, length_drop. lia.
Qed.

(** ** Well-formedness of the results *)

Lemma insert_sorted (xs : list Z) (v : Z) (p : nat) :
  StronglySorted Z.lt xs -> locates xs v (inl p) -> StronglySorted Z.lt (take p xs ++ v :: drop p xs).
Proof.
  intros Hs (Hp & Hlt & Hgt). rewrite <-(take_drop p xs) in Hs. apply StronglySorted_app in Hs as (Hc & H1 & H2).
  apply StronglySorted_app. rewrite Forall_forall in Hlt, Hgt. split_and!; [|done|].
  - intros x y Hx [->|Hy]%elem_of_cons; [by apply Hlt|by apply Hc].
  - apply StronglySorted_cons. split; [|done]. by apply Forall_forall.
Qed.

Lemma value_encoding_fits (v : Z) :
  in_signed 64 v -> valid_enc (value_encoding v) /\ in_signed (8 * value_encoding v) v.
Proof.
  unfold value_encoding, valid_enc, in_signed, ENC_INT16, ENC_INT32, ENC_INT64. intros Hv.
  repeat case_decide; (split; [by auto|]); simpl in *; lia.
Qed.

Lemma value_encoding_least (v enc : Z) : valid_enc enc -> in_signed (8 * enc) v <-> (in_signed 64 v /\ (value_encoding v <= enc)%Z).
Proof.
  unfold value_encoding, valid_enc, in_signed, ENC_INT16, ENC_INT32, ENC_INT64.
  intros [->|[->| ->]]; repeat case_decide; simpl; lia.
Qed.

Lemma in_signed_mono (enc enc' v : Z) :
  valid_enc enc -> valid_enc enc' -> (enc <= enc')%Z -> in_signed (8 * enc) v -> in_signed (8 * enc') v.
Proof. intros H1 H2 Hle. rewrite !value_encoding_least by done. intros []. split; [done|lia]. Qed.

Lemma push_le_loop (s : Intset) (enc : Z) (xs : list Z) (out : bytes) (w : nat) (n : nat) :
  (forall i, get s i = xs !! i) -> width_of w = w -> n <= length xs ->
  foldl (fun out i => push_le out (default 0%Z (get s i)) w) out (seq 0 n) = out ++ concat (le_bytes w <$> take n xs).
Proof.
  intros Hget Hw. induction n as [|n IH]; intros Hn; [by rewrite app_nil_r|].
  rewrite seq_S, foldl_app, IH by lia. cbn [foldl]. unfold push_le. rewrite Nat.add_0_l, Hget, Hw.
  destruct (lookup_lt_is_Some_2 xs n ltac:(lia)) as [x Hx]. rewrite Hx. cbn [default from_option].
  rewrite (take_S_r xs n x), fmap_app, concat_app by done. cbn. by rewrite app_nil_r, <-app_assoc.
Qed.

Lemma upgrade_repr (s : Intset) (enc v : Z) (xs : list Z) :
  represents s enc xs -> in_signed 64 v ->
  buf (upgrade_and_add v (value_encoding v) s) =
    repr (value_encoding v) (if decide (v < 0)%Z then v :: xs else xs ++ [v]).
Proof.
  intros Hr Hv. destruct (represents_get s enc xs Hr) as (_ & Hlen & Hget).
  destruct (value_encoding_fits v Hv) as [He' _]. destruct (valid_enc_width _ He') as [Hw Hb].
  unfold upgrade_and_add. rewrite Hlen. set (ne := Z.to_nat (value_encoding v)) in *. cbn zeta.
  assert (forall body, buf (set_encoding (value_encoding v)
    {| buf := (le_bytes 4 (value_encoding v) ++ le_bytes 4 (Z.of_nat (length xs + 1))) ++ body |}) =
    (le_bytes 4 (value_encoding v) ++ le_bytes 4 (Z.of_nat (length xs + 1))) ++ body) as Hset.
  { intros body. unfold set_encoding. cbn [buf]. rewrite <-!app_assoc.
    rewrite (patch_at 0 _ [] _ (le_bytes 4 (value_encoding v)) (le_bytes 4 (Z.of_nat (length xs + 1)) ++ body)) by done.
    done. }
  unfold repr. fold ne. case_decide as Hneg.
  - rewrite bool_decide_true by done. rewrite (push_le_loop s enc xs) by done.
    unfold push_le at 1. rewrite Hw, firstn_all, <-app_assoc, Hset. unfold blen. rewrite fmap_cons. cbn [length concat].
    by rewrite Nat.add_1_r.
  - rewrite bool_decide_false by done. rewrite (push_le_loop s enc xs) by done.
    unfold push_le. rewrite Hw, firstn_all, <-app_assoc, Hset. unfold blen. rewrite length_app, fmap_app, concat_app.
    cbn. by rewrite app_nil_r.
Qed.

Lemma represents_intro (s : Intset) (enc : Z) (xs : list Z) :
  buf s = repr enc xs -> valid_enc enc -> StronglySorted Z.lt xs -> Forall (in_signed (8 * enc)) xs ->
  (blen xs < 2 ^ 32)%Z -> represents s enc xs.
Proof. by constructor. Qed.

Lemma not_fitting (xs : list Z) (enc v : Z) :
  valid_enc enc -> Forall (in_signed (8 * enc)) xs -> (enc < value_encoding v)%Z -> v ∉ xs.
Proof.
  intros He Hf Hlt Hin. rewrite Forall_forall in Hf. apply Hf, value_encoding_least in Hin; [lia|done].
Qed.

(** Outside the narrower range, a value is below or above everything in it. *)
Lemma wider_extreme (xs : list Z) (enc v : Z) :
  valid_enc enc -> Forall (in_signed (8 * enc)) xs -> in_signed 64 v -> (enc < value_encoding v)%Z ->
  if decide (v < 0)%Z then Forall (fun x => v < x)%Z xs else Forall (fun x => x < v)%Z xs.
Proof.
  intros He Hf Hv Hlt. assert (~ in_signed (8 * enc) v) as Hn by (rewrite value_encoding_least by done; lia).
  unfold in_signed in *. case_decide; eapply Forall_impl; try done; simpl; lia.
Qed.

Lemma wider_sorted (xs : list Z) (v : Z) :
  StronglySorted Z.lt xs ->
  (if decide (v < 0)%Z then Forall (fun x => v < x)%Z xs else Forall (fun x => x < v)%Z xs) ->
  StronglySorted Z.lt (if decide (v < 0)%Z then v :: xs else xs ++ [v]).
Proof.
  intros Hs. case_decide; intros Hf.
  - by apply StronglySorted_cons.
  - apply StronglySorted_app. rewrite Forall_forall in Hf. split_and!; [|done|repeat constructor].
    intros x y Hx ->%list_elem_of_singleton. by apply Hf.
Qed.

(** [new] is the empty set at the narrowest width. *)
Lemma new_represents : represents new ENC_INT16 [].
Proof. constructor; [reflexivity|by left|constructor|constructor|done]. Qed.

(** [search] decides membership: on a well-formed intset it returns the
    index of the value when present, and otherwise the one position where
    inserting it keeps the contents sorted. *)
Theorem search_spec (s : Intset) (enc v : Z) (xs : list Z) :
  represents s enc xs ->
  match search s v with
  | inr i => xs !! i = Some v
  | inl p => v ∉ xs /\ p <= length xs /\ StronglySorted Z.lt (take p xs ++ v :: drop p xs)
  end.
Proof.
  intros Hr. pose proof (search_locates s enc xs v Hr) as Hl. destruct (search s v) as [p|i]; [|done].
  split_and!; [by eapply locates_absent|apply Hl|]. apply insert_sorted; [by eapply rep_sorted|done].
Qed.

(** C30: [add] is set insertion, on every path (narrow insert, in-place
    upgrade at either end, duplicate): it does not panic, the result is a
    well-formed intset of exactly the old elements and the value, no narrower
    than before, and the flag says whether the value was new. *)
Theorem add_spec (s : Intset) (enc v : Z) (xs : list Z) :
  represents s enc xs -> in_signed 64 v -> (blen xs + 1 < 2 ^ 32)%Z ->
  exists s' xs', add v s = Some (s', bool_decide (v ∉ xs)) /\
    represents s' (Z.max enc (value_encoding v)) xs' /\ (forall x, x ∈ xs' <-> x = v \/ x ∈ xs).
Proof.
  intros Hr Hv Hn. destruct (represents_get s enc xs Hr) as (Henc & Hlen & Hget).
  pose proof Hr as [Hb He Hs Hf Hl]. destruct (value_encoding_fits v Hv) as [He' Hfit].
  unfold add. rewrite Henc. case_decide as Hw.
  - eexists _, (if decide (v < 0)%Z then v :: xs else xs ++ [v]). rewrite Z.max_r by lia.
    rewrite bool_decide_true by (by apply (not_fitting xs enc v)). split_and!; [done| |case_decide; set_solver].
    assert (Forall (in_signed (8 * value_encoding v)) xs) as Hf'.
    { eapply Forall_impl; [exact Hf|]. intros x. apply in_signed_mono; [done..|lia]. }
    apply represents_intro; [by eapply upgrade_repr|done| | |].
    + apply wider_sorted; [done|by apply (wider_extreme xs enc v)].
    + case_decide; [by constructor|]. apply Forall_app. auto.
    + unfold blen in *. case_decide; [simpl|rewrite length_app; simpl]; lia.
  - pose proof (search_locates s enc xs v Hr) as Hloc. rewrite Z.max_l by lia.
    destruct (search s v) as [p|i].
    + destruct (insert_at_repr s enc v xs p Hb He Hl) as (s' & -> & Hb'); [apply Hloc|].
      exists s', (take p xs ++ v :: drop p xs). rewrite bool_decide_true by (by eapply locates_absent).
      split_and!; [reflexivity| |intros x; rewrite (elem_of_split_at p xs x), elem_of_app, elem_of_cons; tauto].
      apply represents_intro; [exact Hb'|done|by apply insert_sorted| |].
      * apply Forall_app. split; [by apply Forall_take|]. constructor; [|by apply Forall_drop].
        apply value_encoding_least; [done|]. split; [done|lia].
      * unfold blen in *. rewrite length_app. simpl. rewrite length_take, length_drop. lia.
    + exists s, xs. assert (v ∈ xs) by (by eapply list_elem_of_lookup_2).
      rewrite bool_decide_false by (by intros Hc; apply Hc). split_and!; [done..|]. naive_solver.
Qed.

(** [remove] is set removal: it does not panic, the result is a
    well-formed intset at the same width of exactly the elements other than
    the value, and the flag says whether there was anything to remove. *)
Theorem remove_spec (s : Intset) (enc v : Z) (xs : list Z) :
  represents s enc xs -> in_signed 64 v ->
  exists s' xs', remove v s = Some (s', bool_decide (v ∈ xs)) /\
    represents s' enc xs' /\ (forall x, x ∈ xs' <-> x <> v /\ x ∈ xs).
Proof.
  intros Hr Hv. destruct (represents_get s enc xs Hr) as (Henc & Hlen & Hget).
  pose proof Hr as [Hb He Hs Hf Hl]. pose proof (search_locates s enc xs v Hr) as Hloc.
  destruct (decide (enc < value_encoding v)%Z) as [Hw|Hw].
  { unfold remove. rewrite Henc, decide_True by done.
    assert (v ∉ xs) by (by apply (not_fitting xs enc v)). rewrite bool_decide_false by done.
    exists s, xs. split_and!; [done..|]. naive_solver. }
  destruct (search s v) as [p|i] eqn:Hsr.
  - unfold remove. rewrite Henc, decide_False, Hsr by done.
    assert (v ∉ xs) by (by eapply locates_absent). rewrite bool_decide_false by done.
    exists s, xs. split_and!; [done..|]. naive_solver.
  - simpl in Hloc. destruct (remove_at_repr s enc v xs i Hr Hsr ltac:(lia) Hloc) as (s' & -> & Hb').
    assert (v ∈ xs) by (by eapply list_elem_of_lookup_2). rewrite bool_decide_true by done.
    pose proof (take_drop_middle xs i v Hloc) as E. rewrite delete_take_drop in Hb'.
    rewrite <-E in Hs, Hf. apply StronglySorted_app in Hs as (Hc & H1 & [H2 H3]%StronglySorted_cons).
    apply Forall_app in Hf as [Hf1 [_ Hf2]%Forall_cons]. rewrite Forall_forall in H2.
    exists s', (take i xs ++ drop (S i) xs). split_and!; [done| |].
    + apply represents_intro; [exact Hb'|done| |by apply Forall_app|].
      * apply StronglySorted_app. split_and!; [|done..]. intros x y Hx Hy. apply Hc; [done|by apply elem_of_cons; right].
      * unfold blen in *. rewrite length_app, length_take, length_drop. lia.
    + intros x. rewrite (elem_of_split_at i xs x), (drop_S xs v i) by done.
      rewrite elem_of_app, elem_of_cons. split; [|naive_solver].
      intros [Hx|Hx]; (split; [|by auto]); intros ->.
      * specialize (Hc v v Hx ltac:(by apply elem_of_cons; left)). lia.
      * apply H2 in Hx. lia.
Qed.

(** ** Adopting a serialized intset *)

Lemma ascending_spec (s : Intset) (prev : option Z) (ix : list nat) :
  ascending_from s prev ix = true <->
  exists vs, mapM (get s) ix = Some vs /\ StronglySorted Z.lt vs /\ Forall (fun v => forall p, prev = Some p -> p < v)%Z vs.
Proof.
  revert prev. induction ix as [|i ix IH]; intros prev; simpl.
  { split; [|done]. intros _. exists []. split_and!; [done|constructor|constructor]. }
  destruct (get s i) as [v|]; simpl; [|split; [done|by intros (? & ? & _)]].
  assert ((match prev with Some p => if decide (v <= p)%Z then false else ascending_from s (Some v) ix
      | None => ascending_from s (Some v) ix end) = true <->
    (forall p, prev = Some p -> p < v)%Z /\ ascending_from s (Some v) ix = true) as ->.
  { destruct prev as [p|]; [|naive_solver]. case_decide; [|naive_solver lia].
    split; [done|]. intros [Hp _]. specialize (Hp p eq_refl). lia. }
  rewrite IH. split.
  - intros (Hp & vs & Hm & Hs & Hf). exists (v :: vs). rewrite Hm. split; [done|].
    assert (Forall (fun x => v < x)%Z vs) as Hv by (eapply Forall_impl; [exact Hf|]; naive_solver).
    split; [by apply StronglySorted_cons|]. constructor; [done|].
    eapply Forall_impl; [exact Hv|]. intros x Hx p E. simpl in Hx. specialize (Hp p E). lia.
  - intros (vs & Hm & Hs & Hf). apply bind_Some in Hm as (vs' & Hm & [= <-]).
    apply StronglySorted_cons in Hs as [H1 H2]. apply Forall_cons in Hf as [Hf _].
    split; [done|]. exists vs'. split_and!; [done..|]. eapply Forall_impl; [exact H1|]. naive_solver.
Qed.

Lemma concat_chunks (w n : nat) (body : bytes) :
  length body = n * w -> concat ((fun i => take w (drop (i * w) body)) <$> seq 0 n) = body.
Proof.
  revert body. induction n as [|n IH]; intros body Hl; simpl; [by destruct body|].
  rewrite <-fmap_S_seq, <-list_fmap_compose. rewrite drop_0.
  assert (((fun i => take w (drop (i * w) body)) ∘ S) <$> seq 0 n =
    (fun i => take w (drop (i * w) (drop w body))) <$> seq 0 n) as ->.
  { apply list_fmap_ext. intros i ? _. simpl. by rewrite drop_drop. }
  rewrite IH by (rewrite length_drop; lia). apply take_drop.
Qed.

Lemma get_chunk (s : Intset) (enc : Z) (hdr body : bytes) (n i : nat) :
  buf s = hdr ++ body -> length hdr = HDR -> encoding s = enc -> valid_enc enc ->
  length body = n * Z.to_nat enc -> i < n ->
  get s i = Some (le_signed (take (Z.to_nat enc) (drop (i * Z.to_nat enc) body))).
Proof.
  intros Hb Hh He Hv Hl Hi. destruct (valid_enc_width enc Hv) as [Hw Hr]. unfold get. rewrite He, Hw.
  assert (i * Z.to_nat enc + Z.to_nat enc <= length body) by nia.
  rewrite slice_Some by (rewrite Hb, length_app; lia). cbn [mbind option_bind].
  rewrite Nat.add_sub_swap, Nat.sub_diag by lia. cbn [Nat.add].
  rewrite Hb, <-Hh, <-drop_drop, drop_app_length, decide_True by (rewrite length_take, length_drop; lia).
  by rewrite take_take, Nat.min_id.
Qed.

(** A blob with a valid header and a body of the right size spells its elements. *)
Lemma chunks_repr (s : Intset) (enc n : Z) (hdr body : bytes) (vs : list Z) :
  buf s = hdr ++ body -> hdr = le_bytes 4 enc ++ le_bytes 4 n -> valid_enc enc -> (0 <= n < 2 ^ 32)%Z ->
  blen body = (n * enc)%Z -> mapM (get s) (seq 0 (Z.to_nat n)) = Some vs ->
  buf s = repr enc vs /\ Forall (in_signed (8 * enc)) vs /\ blen vs = n.
Proof.
  intros Hb Hh He Hn Hl Hm. destruct (valid_enc_width enc He) as [Hw Hr]. unfold blen in *.
  set (w := Z.to_nat enc) in *. assert (length body = Z.to_nat n * w) as Hl' by lia.
  assert (encoding s = enc) as Henc.
  { destruct s as [b]. simpl in Hb. rewrite Hb, Hh. apply encoding_header. lia. }
  assert (length hdr = HDR) as Hlh by (by rewrite Hh, length_app, !le_bytes_length).
  assert (vs = (fun i => le_signed (take w (drop (i * w) body))) <$> seq 0 (Z.to_nat n)) as ->.
  { apply mapM_Some in Hm. apply list_eq_Forall2, Forall2_fmap_r. apply Forall2_flip in Hm.
    apply Forall2_same_length_lookup in Hm as [Hlen Hm]. apply Forall2_same_length_lookup. split; [done|].
    intros i v j Hi Hj. specialize (Hm i v j Hi Hj). pose proof Hj as [-> Hlt]%lookup_seq. simpl in *.
    rewrite (get_chunk s enc hdr body (Z.to_nat n) i) in Hm by done. by injection Hm. }
  rewrite length_fmap, length_seq, Z2Nat.id by lia. split_and!; [| |done].
  - rewrite Hb, Hh. unfold repr, blen. rewrite length_fmap, length_seq, Z2Nat.id by lia. f_equal. fold w.
    rewrite <-(concat_chunks w (Z.to_nat n) body) at 1 by done. f_equal. rewrite <-list_fmap_compose.
    apply list_fmap_ext. intros i j Hj. apply lookup_seq in Hj as [-> Hlt]. simpl.
    assert (length (take w (drop (i * w) body)) = w) as Hc by (rewrite length_take, length_drop; nia).
    pose proof (le_bytes_le_signed (take w (drop (i * w) body))) as E. rewrite Hc in E. by rewrite E.
  - apply Forall_fmap, Forall_lookup. intros i j [-> Hlt]%lookup_seq. simpl.
    assert (length (take w (drop (i * w) body)) = w) as Hc by (rewrite length_take, length_drop; nia).
    replace (8 * enc)%Z with (8 * Z.of_nat (length (take w (drop (i * w) body))))%Z by lia.
    apply le_signed_range. intros E. rewrite E in Hc. simpl in Hc. lia.
Qed.

(** [from_bytes] accepts exactly the blobs the server itself writes: a
    blob is adopted, unchanged, if and only if it is the serialization of a
    strictly increasing list of elements that fit its width. *)
Theorem from_bytes_spec (b : bytes) (s : Intset) :
  from_bytes b = Some s <-> b = buf s /\ exists enc xs, represents s enc xs.
Proof.
  unfold from_bytes. split.
  - intros (h & Hh & H)%bind_Some. apply slice_Some_inv in Hh as [Hlen ->].
    unfold HDR in Hlen, H. rewrite drop_0 in H. cbn [Nat.sub] in H. set (h := take 8 b) in *.
    assert (length h = 8) as Hlh by (subst h; rewrite length_take; lia).
    case_decide as He; [done|]. case_decide as Hov; [done|]. case_decide as Hw; [done|].
    destruct (ascending_from _ _ _) eqn:Ha; [|done]. injection H as <-. split; [done|].
    apply ascending_spec in Ha as (vs & Hm & Hs & _).
    assert (valid_enc (le_val (take 4 h))) as Hv.
    { unfold valid_enc. destruct (decide (le_val (take 4 h) = ENC_INT16)); [by auto|].
      destruct (decide (le_val (take 4 h) = ENC_INT32)); [by auto|].
      destruct (decide (le_val (take 4 h) = ENC_INT64)); [by auto|]. by destruct He. }
    pose proof (le_val_range (drop 4 h)) as Hn. unfold in_unsigned in Hn.
    assert (length (drop 4 h) = 4) as Hd4 by (rewrite length_drop; lia).
    assert (length (take 4 h) = 4) as Ht4 by (rewrite length_take; lia). rewrite Hd4 in Hn. change (2 ^ (8 * Z.of_nat 4))%Z with (2 ^ 32)%Z in Hn.
    destruct (chunks_repr {| buf := b |} (le_val (take 4 h)) (le_val (drop 4 h)) h (drop 8 b) vs) as (H1 & H2 & H3).
    + simpl. symmetry. apply take_drop.
    + pose proof (le_bytes_le_val (take 4 h)) as E1. pose proof (le_bytes_le_val (drop 4 h)) as E2.
      rewrite Ht4 in E1. rewrite Hd4 in E2. rewrite E1, E2. symmetry. apply take_drop.
    + done.
    + lia.
    + unfold blen in *. rewrite length_drop. unfold HDR in *. lia.
    + done.
    + eexists _, vs. constructor; [done..|]. rewrite H3. simpl. lia.
  - intros (-> & enc & xs & Hr). destruct (represents_get s enc xs Hr) as (Henc & Hl & Hget).
    destruct Hr as [Hb He Hs Hf Hn]. destruct (valid_enc_width enc He) as [_ Hr].
    assert (length (buf s) = HDR + length xs * Z.to_nat enc) as Hlen by (by apply buf_length_repr).
    rewrite slice_Some by (unfold HDR in *; lia). cbn [mbind option_bind]. rewrite drop_0.
    assert (take (HDR - 0) (buf s) = le_bytes 4 enc ++ le_bytes 4 (blen xs)) as ->.
    { rewrite Hb. unfold repr. apply take_app_length'. by rewrite length_app, !le_bytes_length. }
    rewrite take_app_length', drop_app_length' by (by rewrite le_bytes_length).
    rewrite !le_unsigned_le_bytes by (unfold in_unsigned, blen in *; simpl; lia).
    rewrite decide_False by (destruct He as [->|[->| ->]]; naive_solver).
    assert (blen (buf s) = (blen xs * enc + Z.of_nat HDR)%Z) as E.
    { unfold blen. rewrite Hlen. lia. }
    rewrite <-E. rewrite decide_False.
    2:{ rewrite E. unfold blen, U64_MAX, HDR in *. nia. }
    rewrite decide_False by naive_solver.
    assert (ascending_from {| buf := buf s |} None (seq 0 (Z.to_nat (blen xs))) = true) as ->; [|by destruct s].
    apply ascending_spec. exists xs. split_and!; [|done|by apply Forall_true].
    apply mapM_Some, Forall2_same_length_lookup. unfold blen. rewrite Nat2Z.id, length_seq. split; [done|].
    intros i j v [-> _]%lookup_seq Hv. destruct s as [b]. cbn [buf]. by rewrite Hget.
Qed.

(** ** Iteration *)

Lemma iter_from_repr (s : Intset) (xs : list Z) :
  (forall i, get s i = xs !! i) -> forall fuel i, i + fuel = length xs -> iter_from fuel s i (length xs) = drop i xs.
Proof.
  intros Hget. induction fuel as [|fuel IH]; intros i Hi; simpl; [by rewrite drop_ge by lia|].
  rewrite decide_False by lia. rewrite Hget. destruct (lookup_lt_is_Some_2 xs i ltac:(lia)) as [x Hx].
  by rewrite Hx, (drop_S xs x i Hx), IH, Nat.add_1_r by lia.
Qed.

Lemma iter_represents (s : Intset) (enc : Z) (xs : list Z) : represents s enc xs -> iter s = xs.
Proof.
  intros Hr. destruct (represents_get s enc xs Hr) as (_ & Hl & Hget). unfold iter. rewrite Hl.
  by rewrite (iter_from_repr s xs Hget).
Qed.

Lemma represents_57 : represents {| buf := repr 2 [5; 7]%Z |} 2 [5; 7]%Z.
Proof.
  constructor; [reflexivity|by left|repeat constructor|repeat constructor; vm_compute; discriminate|done].
Qed.

Lemma search_spec_witness :
  represents {| buf := repr 2 [5; 7]%Z |} 2 [5; 7]%Z /\
  (6%Z ∉ [5; 7]%Z /\ 1 <= 2 /\ StronglySorted Z.lt [5; 6; 7]%Z).
Proof.
  split; [exact represents_57|].
  exact (search_spec {| buf := repr 2 [5; 7]%Z |} 2 6 [5; 7]%Z represents_57).
Defined.

Lemma add_spec_witness :
  exists s' xs', add 100000 {| buf := repr 2 [5; 7]%Z |} = Some (s', true) /\
    represents s' 4 xs' /\ (forall x, x ∈ xs' <-> x = 100000%Z \/ x ∈ [5; 7]%Z).
Proof.
  exact (add_spec {| buf := repr 2 [5; 7]%Z |} 2 100000 [5; 7]%Z represents_57
    ltac:(split; vm_compute; congruence) ltac:(vm_compute; reflexivity)).
Defined.

Lemma remove_spec_witness :
  exists s' xs', remove 5 {| buf := repr 2 [5; 7]%Z |} = Some (s', true) /\
    represents s' 2 xs' /\ (forall x, x ∈ xs' <-> x <> 5%Z /\ x ∈ [5; 7]%Z).
Proof.
  exact (remove_spec {| buf := repr 2 [5; 7]%Z |} 2 5 [5; 7]%Z represents_57
    ltac:(split; vm_compute; congruence)).
Defined.
