(* ===== verification/Listpack.v ===== *)
(** * Listpack: a packed sequence of integers and strings ([src/encoding/listpack.rs])

    The serialized blob, byte for byte: a 4-byte total length, a 2-byte
    element count, the entries and a terminator.  An entry is its encoding and
    data followed by the length of both, written to be read backwards.  A
    function that returns an option returns the [Option] of the source; the
    loops that walk the blob have a fuel, its length. *)
From S2P Require Import Prelude Strnum.
Open Scope nat_scope.

Definition LP_HDR_SIZE : nat := 6.
Definition LP_EOF : byte := xff.
Definition LP_HDR_NUMELE_UNKNOWN : Z := 65535.
Definition LP_MAX_SAFETY_SIZE : Z := Z.shiftl 1 30.

Definition ENC_6BIT_STR : Z := 0x80.
Definition ENC_13BIT_INT : Z := 0xC0.
Definition ENC_12BIT_STR : Z := 0xE0.
Definition ENC_32BIT_STR : Z := 0xF0.
Definition ENC_16BIT_INT : Z := 0xF1.
Definition ENC_24BIT_INT : Z := 0xF2.
Definition ENC_32BIT_INT : Z := 0xF3.
Definition ENC_64BIT_INT : Z := 0xF4.

(** ** Entries *)

Inductive ListpackEntry := Int (v : Z) | Str (s : bytes).

Definition as_int (e : ListpackEntry) : option Z := match e with Int v => Some v | Str _ => None end.
Definition as_bytes (e : ListpackEntry) : option bytes := match e with Str s => Some s | Int _ => None end.
Definition to_int (e : ListpackEntry) : option Z := match e with Int v => Some v | Str s => string2ll s end.

Section text.
Context `{Itoa}.
(** The textual form: [write_to], [with_bytes] and [to_buf] of the source. *)
Definition to_buf (e : ListpackEntry) : bytes := match e with Str s => s | Int v => itoa_format v end.
Definition byte_len (e : ListpackEntry) : nat := length (to_buf e).
End text.

Definition eq_bytes (e : ListpackEntry) (needle : bytes) : bool :=
  match e with
  | Str s => bool_decide (s = needle)
  | Int v => match string2ll needle with Some n => bool_decide (n = v) | None => false end
  end.

(** [PartialEq] *)
Definition entry_eq (x y : ListpackEntry) : bool :=
  match x, y with
  | Int a, Int b => bool_decide (a = b)
  | Str a, Str b => bool_decide (a = b)
  | Int a, Str b | Str b, Int a => bool_decide (string2ll b = Some a)
  end.

Inductive Payload := PInt (v : Z) | PStr (s : bytes).

Definition canonicalize (e : ListpackEntry) : Payload :=
  match e with
  | Int i => PInt i
  | Str s => match string2ll s with Some i => PInt i | None => PStr s end
  end.

Definition payload_enclen (p : Payload) : nat :=
  match p with
  | PInt v =>
      if decide (0 <= v <= 127)%Z then 1
      else if decide (-4096 <= v <= 4095)%Z then 2
      else if decide (-32768 <= v <= 32767)%Z then 3
      else if decide (-8388608 <= v <= 8388607)%Z then 4
      else if decide (-2147483648 <= v <= 2147483647)%Z then 5
      else 9
  | PStr s =>
      let n := length s in
      if decide (Z.of_nat n < 64)%Z then 1 + n else if decide (Z.of_nat n < 4096)%Z then 2 + n else 5 + n
  end.

(** ** The backwards length *)

Definition backlen_size (l : nat) : nat :=
  let l := Z.of_nat l in
  if decide (l <= 127)%Z then 1
  else if decide (l < 16383)%Z then 2
  else if decide (l < 2097151)%Z then 3
  else if decide (l < 268435455)%Z then 4
  else 5.

(** The bytes [write_backlen] puts in a slice of their number. *)
Definition write_backlen (l : nat) : bytes :=
  let n := backlen_size l in
  (fun i : nat =>
     let shift := (7 * Z.of_nat (n - 1 - i))%Z in
     let b := Z.land (Z.shiftr (Z.of_nat l) shift) 127 in
     z2b (if decide (i = 0) then b else Z.lor b 128)) <$> seq 0 n.

Fixpoint decode_backlen_loop (fuel : nat) (buf : bytes) (p : nat) (val shift : Z) (n : nat) : option (nat * nat) :=
  match fuel with
  | O => None
  | S fuel =>
      b ← buf !! p;
      let val := Z.lor val (Z.shiftl (Z.land (b2z b) 127) shift) in
      let n := n + 1 in
      if decide (Z.land (b2z b) 128 = 0)%Z then Some (Z.to_nat val, n)
      else
        let shift := (shift + 7)%Z in
        if decide (28 < shift)%Z then None
        else match p with O => None | S p => decode_backlen_loop fuel buf p val shift n end
  end.

(** Five bytes at most: the shift passes 28 after the fifth. *)
Definition decode_backlen (buf : bytes) (last : nat) : option (nat * nat) := decode_backlen_loop 6 buf last 0 0 0.

(** ** Encoding and decoding *)

(** The encoding and data [write_payload] writes. *)
Definition payload_data (p : Payload) : bytes :=
  match p with
  | PInt v =>
      match payload_enclen p with
      | 1 => [z2b (Z.land (wrapu 8 v) 0x7f)]
      | 2 =>
          let u := wrapu 16 (if decide (v < 0)%Z then Z.shiftl 1 13 + v else v)%Z in
          [z2b (Z.lor (wrapu 8 (Z.shiftr u 8)) ENC_13BIT_INT); z2b (Z.land u 0xff)]
      | 3 => z2b ENC_16BIT_INT :: le_bytes 2 (wrapu 16 (wraps 16 v))
      | 4 => z2b ENC_24BIT_INT :: take 3 (le_bytes 4 (wrapu 32 (if decide (v < 0)%Z then Z.shiftl 1 24 + v else v)%Z))
      | 5 => z2b ENC_32BIT_INT :: le_bytes 4 (wrapu 32 (wraps 32 v))
      | _ => z2b ENC_64BIT_INT :: le_bytes 8 (wrapu 64 v)
      end
  | PStr b =>
      let n := Z.of_nat (length b) in
      if decide (n < 64)%Z then z2b (Z.lor ENC_6BIT_STR (wrapu 8 n)) :: b
      else if decide (n < 4096)%Z then
        z2b (Z.lor ENC_12BIT_STR (wrapu 8 (Z.shiftr n 8))) :: z2b (wrapu 8 (Z.land n 0xff)) :: b
      else z2b ENC_32BIT_STR :: le_bytes 4 (wrapu 32 n) ++ b
  end.

(** All it writes, in a slice of exactly that many bytes. *)
Definition write_payload (p : Payload) : bytes := payload_data p ++ write_backlen (payload_enclen p).

Definition enclen_at (buf : bytes) (off : nat) : option nat :=
  b0 ← b2z <$> buf !! off;
  if decide (Z.land b0 0x80 = 0)%Z then Some 1
  else if decide (Z.land b0 0xC0 = ENC_6BIT_STR)%Z then Some (1 + Z.to_nat (Z.land b0 0x3f))
  else if decide (Z.land b0 0xE0 = ENC_13BIT_INT)%Z then Some 2
  else if decide (Z.land b0 0xF0 = ENC_12BIT_STR)%Z then
    b1 ← b2z <$> buf !! (off + 1);
    Some (2 + Z.to_nat (Z.lor (Z.shiftl (Z.land b0 0x0f) 8) b1))
  else if decide (b0 = ENC_16BIT_INT) then Some 3
  else if decide (b0 = ENC_24BIT_INT) then Some 4
  else if decide (b0 = ENC_32BIT_INT) then Some 5
  else if decide (b0 = ENC_64BIT_INT) then Some 9
  else if decide (b0 = ENC_32BIT_STR) then h ← slice (off + 1) (off + 5) buf; Some (5 + Z.to_nat (le_val h))
  else None.

Definition decode_at (buf : bytes) (off : nat) : option (ListpackEntry * nat) :=
  b0 ← b2z <$> buf !! off;
  if decide (Z.land b0 0x80 = 0)%Z then Some (Int (Z.land b0 0x7f), 1)
  else if decide (Z.land b0 0xC0 = ENC_6BIT_STR)%Z then
    let n := Z.to_nat (Z.land b0 0x3f) in
    s ← slice (off + 1) (off + 1 + n) buf; Some (Str s, 1 + n)
  else if decide (Z.land b0 0xE0 = ENC_13BIT_INT)%Z then
    b1 ← b2z <$> buf !! (off + 1);
    let uval := Z.lor (Z.shiftl (Z.land b0 0x1f) 8) b1 in
    Some (Int (if decide (Z.shiftl 1 12 <= uval)%Z then uval - 8192 else uval)%Z, 2)
  else if decide (Z.land b0 0xF0 = ENC_12BIT_STR)%Z then
    b1 ← b2z <$> buf !! (off + 1);
    let n := Z.to_nat (Z.lor (Z.shiftl (Z.land b0 0x0f) 8) b1) in
    s ← slice (off + 2) (off + 2 + n) buf; Some (Str s, 2 + n)
  else if decide (b0 = ENC_16BIT_INT) then s ← slice (off + 1) (off + 3) buf; Some (Int (le_signed s), 3)
  else if decide (b0 = ENC_24BIT_INT) then
    s ← slice (off + 1) (off + 4) buf; Some (Int (Z.shiftr (le_signed (x00 :: s)) 8), 4)
  else if decide (b0 = ENC_32BIT_INT) then s ← slice (off + 1) (off + 5) buf; Some (Int (le_signed s), 5)
  else if decide (b0 = ENC_64BIT_INT) then s ← slice (off + 1) (off + 9) buf; Some (Int (le_signed s), 9)
  else if decide (b0 = ENC_32BIT_STR) then
    h ← slice (off + 1) (off + 5) buf;
    let n := Z.to_nat (le_val h) in
    s ← slice (off + 5) (off + 5 + n) buf; Some (Str s, 5 + n)
  else None.

(** ** The blob *)

Record Listpack := { buf : bytes }.

Definition new : Listpack := {| buf := le_bytes 4 7 ++ le_bytes 2 0 ++ [LP_EOF] |}.

(** The scan of [validate]: the number of entries, when the offset reaches
    [end_] exactly.  [count] cannot pass [u32::MAX] entries in a blob whose
    length is a [u32]. *)
Fixpoint validate_loop (fuel : nat) (buf : bytes) (end_ off count : nat) : option nat :=
  match fuel with
  | O => None
  | S fuel =>
      if decide (off < end_) then
        '(_, enclen) ← decode_at buf off;
        let bl := backlen_size enclen in
        let next := off + enclen + bl in
        if decide (end_ < next) then None
        else
          match decode_backlen buf (next - 1) with
          | Some (v, n) =>
              if decide (v = enclen /\ n = bl) then
                if decide (4294967295 < Z.of_nat (count + 1))%Z then None else validate_loop fuel buf end_ next (count + 1)
              else None
          | None => None
          end
      else if decide (off = end_) then Some count else None
  end.

Definition validate (buf : bytes) : bool :=
  if decide (length buf < LP_HDR_SIZE + 1) then false
  else
    match slice 0 LP_HDR_SIZE buf with
    | None => false
    | Some h =>
        let total := le_val (take 4 h) in
        if decide (total <> Z.of_nat (length buf)) then false
        else if decide (last buf <> Some LP_EOF) then false
        else
          let declared := le_val (drop 4 h) in
          match validate_loop (length buf) buf (length buf - 1) LP_HDR_SIZE 0 with
          | None => false
          | Some count => negb (bool_decide (declared <> LP_HDR_NUMELE_UNKNOWN /\ declared <> Z.of_nat count))
          end
    end.

Definition from_bytes (b : bytes) : option Listpack := if validate b then Some {| buf := b |} else None.

Definition total_bytes (lp : Listpack) : nat := length (buf lp).
Definition header_count (lp : Listpack) : Z := match slice 4 6 (buf lp) with Some s => le_val s | None => 0 end.

(** [is_empty], [safe_to_add] and the two fixed offsets. *)
Definition is_empty (lp : Listpack) : bool := bool_decide (length (buf lp) <= LP_HDR_SIZE + 1).
Definition safe_to_add (add : nat) (lp : Listpack) : bool := bool_decide (Z.of_nat (length (buf lp) + add) <= LP_MAX_SAFETY_SIZE)%Z.
Definition eof_offset (lp : Listpack) : nat := length (buf lp) - 1.

Definition sync_header (delta : Z) (lp : Listpack) : Listpack :=
  let lp := {| buf := patch 0 (le_bytes 4 (wrapu 32 (Z.of_nat (length (buf lp))))) (buf lp) |} in
  let cur := header_count lp in
  if decide (cur = LP_HDR_NUMELE_UNKNOWN) then lp
  else
    let n := Z.max 0 (Z.min LP_HDR_NUMELE_UNKNOWN (cur + delta)) in
    {| buf := patch 4 (le_bytes 2 n) (buf lp) |}.

Definition clear (lp : Listpack) : Listpack := sync_header 0 {| buf := take LP_HDR_SIZE (buf lp) ++ [LP_EOF] |}.

(** ** Offsets *)

Definition entry_span (off : nat) (lp : Listpack) : option nat :=
  enclen ← enclen_at (buf lp) off; Some (enclen + backlen_size enclen).

Definition next_offset (off : nat) (lp : Listpack) : option nat :=
  if decide (eof_offset lp <= off) then None
  else span ← entry_span off lp; let n := off + span in if decide (eof_offset lp < n) then None else Some n.

Definition prev_offset (off : nat) (lp : Listpack) : option nat :=
  if decide (off <= LP_HDR_SIZE) then None
  else
    '(prevlen, _) ← decode_backlen (buf lp) (off - 1);
    if decide (off < prevlen + backlen_size prevlen) then None
    else let start := off - (prevlen + backlen_size prevlen) in if decide (start < LP_HDR_SIZE) then None else Some start.

Fixpoint seek_fwd_loop (n : nat) (off : nat) (lp : Listpack) : option nat :=
  match n with
  | O => if decide (eof_offset lp <= off) then None else Some off
  | S n => if decide (eof_offset lp <= off) then None else span ← entry_span off lp; seek_fwd_loop n (off + span) lp
  end.
Definition seek_fwd (n : nat) (lp : Listpack) : option nat := seek_fwd_loop n LP_HDR_SIZE lp.

(** [n] steps back from [off]; the argument of the source is [- n]. *)
Fixpoint seek_back_loop (n : nat) (off : nat) (lp : Listpack) : option nat :=
  match n with O => Some off | S n => off ← prev_offset off lp; seek_back_loop n off lp end.
Definition seek_back (n : Z) (lp : Listpack) : option nat := seek_back_loop (Z.to_nat (- n)) (eof_offset lp) lp.

Definition seek (index : Z) (lp : Listpack) : option nat :=
  let numele := header_count lp in
  if decide (numele <> LP_HDR_NUMELE_UNKNOWN) then
    let n := numele in
    let i := if decide (index < 0)%Z then (index + n)%Z else index in
    if decide (i < 0 \/ n <= i)%Z then None
    else if decide (Z.quot n 2 < i)%Z then seek_back (i - n) lp else seek_fwd (Z.to_nat i) lp
  else if decide (index < 0)%Z then seek_back index lp else seek_fwd (Z.to_nat index) lp.

(** ** Reads *)

Definition entry_at (off : nat) (lp : Listpack) : option ListpackEntry :=
  if decide (eof_offset lp <= off) then None else fst <$> decode_at (buf lp) off.

Definition get (index : Z) (lp : Listpack) : option ListpackEntry := off ← seek index lp; entry_at off lp.
Definition first (lp : Listpack) : option ListpackEntry := entry_at LP_HDR_SIZE lp.
Definition last (lp : Listpack) : option ListpackEntry := off ← prev_offset (eof_offset lp) lp; entry_at off lp.

(** The items of [ListpackIter] from an offset, and of [ListpackRevIter]. *)
Fixpoint iter_loop (fuel : nat) (off : nat) (lp : Listpack) : list ListpackEntry :=
  match fuel with
  | O => []
  | S fuel =>
      if decide (eof_offset lp <= off) then []
      else
        match decode_at (buf lp) off with
        | None => []
        | Some (e, enclen) => e :: iter_loop fuel (off + (enclen + backlen_size enclen)) lp
        end
  end.
Definition iter_from (off : nat) (lp : Listpack) : list ListpackEntry := iter_loop (length (buf lp)) off lp.
Definition iter (lp : Listpack) : list ListpackEntry := iter_from LP_HDR_SIZE lp.

Fixpoint iter_rev_loop (fuel : nat) (off : nat) (lp : Listpack) : list ListpackEntry :=
  match fuel with
  | O => []
  | S fuel =>
      match prev_offset off lp with
      | None => []
      | Some prev => match entry_at prev lp with None => [] | Some e => e :: iter_rev_loop fuel prev lp end
      end
  end.
Definition iter_rev (lp : Listpack) : list ListpackEntry := iter_rev_loop (length (buf lp)) (eof_offset lp) lp.

Definition len (lp : Listpack) : nat :=
  if decide (header_count lp <> LP_HDR_NUMELE_UNKNOWN) then Z.to_nat (header_count lp) else length (iter lp).

(** [find_from]: the inner loop skips [skip] entries after a miss. *)
Fixpoint skip_loop (skip : nat) (off idx : nat) (lp : Listpack) : option (nat * nat) :=
  match skip with
  | O => Some (off, idx)
  | S skip => if decide (eof_offset lp <= off) then None else span ← entry_span off lp; skip_loop skip (off + span) (idx + 1) lp
  end.

Definition hits (canon : Payload) (e : ListpackEntry) : bool :=
  match canon, e with
  | PInt a, Int b => bool_decide (a = b)
  | PStr a, Str b => bool_decide (a = b)
  | _, _ => false
  end.

Fixpoint find_loop (fuel : nat) (canon : Payload) (skip : nat) (off idx : nat) (lp : Listpack) : option nat :=
  match fuel with
  | O => None
  | S fuel =>
      if decide (off < eof_offset lp) then
        '(e, enclen) ← decode_at (buf lp) off;
        if hits canon e then Some idx
        else '(off, idx) ← skip_loop skip (off + (enclen + backlen_size enclen)) (idx + 1) lp; find_loop fuel canon skip off idx lp
      else None
  end.

Definition find_from (start : nat) (needle : bytes) (skip : nat) (lp : Listpack) : option nat :=
  off ← seek_fwd start lp;
  find_loop (length (buf lp)) (canonicalize (Str needle)) skip off start lp.
Definition find (needle : bytes) (lp : Listpack) : option nat := find_from 0 needle 0 lp.

(** ** Writes *)

(** [resize], [copy_within] and [truncate]: [None] where [copy_within] panics. *)
Definition splice (at_ rem ins : nat) (lp : Listpack) : option Listpack :=
  let old := length (buf lp) in
  let tail := at_ + rem in
  if decide (rem < ins) then b ← copy_within tail old (at_ + ins) (buf lp ++ replicate (ins - rem) x00); Some {| buf := b |}
  else if decide (ins < rem) then b ← copy_within tail old (at_ + ins) (buf lp); Some {| buf := take (old - (rem - ins)) b |}
  else Some lp.

(** Puts the entry where the splice made room for it. *)
Definition put_payload (off : nat) (p : Payload) (lp : Listpack) : Listpack := {| buf := patch off (write_payload p) (buf lp) |}.

Definition insert_at_offset (off : nat) (v : ListpackEntry) (lp : Listpack) : option (Listpack * bool) :=
  let p := canonicalize v in
  let enclen := payload_enclen p in
  let total := enclen + backlen_size enclen in
  if negb (safe_to_add total lp) then Some (lp, false)
  else lp ← splice off 0 total lp; Some (sync_header 1 (put_payload off p lp), true).

Definition append (v : ListpackEntry) (lp : Listpack) : option (Listpack * bool) := insert_at_offset (eof_offset lp) v lp.
Definition prepend (v : ListpackEntry) (lp : Listpack) : option (Listpack * bool) := insert_at_offset LP_HDR_SIZE v lp.

Definition insert (index : nat) (v : ListpackEntry) (lp : Listpack) : option (Listpack * bool) :=
  if decide (len lp <= index) then insert_at_offset (eof_offset lp) v lp
  else match seek_fwd index lp with Some o => insert_at_offset o v lp | None => Some (lp, false) end.

Definition replace (index : nat) (v : ListpackEntry) (lp : Listpack) : option (Listpack * bool) :=
  match seek (wraps 64 (Z.of_nat index)) lp with
  | None => Some (lp, false)
  | Some off =>
      match entry_span off lp with
      | None => Some (lp, false)
      | Some old_span =>
          let p := canonicalize v in
          let enclen := payload_enclen p in
          let total := enclen + backlen_size enclen in
          if bool_decide (old_span < total) && negb (safe_to_add (total - old_span) lp) then Some (lp, false)
          else lp ← splice off old_span total lp; Some (sync_header 0 (put_payload off p lp), true)
      end
  end.

Definition delete (index : Z) (lp : Listpack) : option (Listpack * bool) :=
  match seek index lp with
  | None => Some (lp, false)
  | Some off =>
      match entry_span off lp with
      | None => Some (lp, false)
      | Some span => lp ← splice off span 0 lp; Some (sync_header (-1) lp, true)
      end
  end.

Fixpoint delete_range_loop (count : nat) (end_ removed : nat) (lp : Listpack) : nat * nat :=
  match count with
  | O => (end_, removed)
  | S count =>
      if decide (end_ < eof_offset lp) then
        match entry_span end_ lp with Some s => delete_range_loop count (end_ + s) (removed + 1) lp | None => (end_, removed) end
      else (end_, removed)
  end.

Definition delete_range (index count : nat) (lp : Listpack) : option (Listpack * nat) :=
  if decide (count = 0) then Some (lp, 0)
  else
    match seek_fwd index lp with
    | None => Some (lp, 0)
    | Some start =>
        let '(end_, removed) := delete_range_loop count start 0 lp in
        if decide (removed = 0) then Some (lp, 0)
        else lp ← splice start (end_ - start) 0 lp; Some (sync_header (- Z.of_nat removed) lp, removed)
    end.

Definition delete_byte_range (from to count : nat) (lp : Listpack) : option Listpack :=
  if decide (to <= from) then Some lp
  else lp ← splice from (to - from) 0 lp; Some (sync_header (- Z.of_nat count) lp).

Definition append_all (other lp : Listpack) : option (Listpack * bool) :=
  let extra := length (buf other) - (LP_HDR_SIZE + 1) in
  if negb (safe_to_add extra lp) then Some (lp, false)
  else
    let at_ := eof_offset lp in
    let n := len other in
    lp ← splice at_ 0 extra lp;
    let lp := match slice LP_HDR_SIZE (LP_HDR_SIZE + extra) (buf other) with
              | Some src => {| buf := patch at_ src (buf lp) |} | None => lp end in
    Some (sync_header (Z.of_nat n) lp, true).

(** [from_entries]: the result of each [append] is dropped. *)
Definition from_entries (items : list ListpackEntry) : option Listpack :=
  foldl (fun lp e => lp ← lp; fst <$> append e lp) (Some new) items.

Example listpack_demo :
  (lp ← from_entries [Str (bs "123"); Str (bs "abc"); Int (-5)]; Some (iter lp, iter_rev lp, len lp, validate (buf lp))) =
  Some ([Int 123; Str (bs "abc"); Int (-5)], [Int (-5); Str (bs "abc"); Int 123], 3, true).
Proof. vm_compute. reflexivity. Qed.
