(* ===== verification/ListpackFacts.v ===== *)
(** * Facts about the listpack ([src/encoding/listpack.rs])

    A blob is the list of its entries.  The backwards length is read back;
    encoding and decoding are inverse along the whole ladder; the blobs
    [from_bytes] accepts are exactly the well-formed ones; and every operation
    is the list operation it is named after, from whichever end it walks. *)
From S2P Require Import Prelude Strnum Listpack.
Open Scope nat_scope.

(** ** The backwards length *)

(** The last [n] groups of seven bits of [l], each but the first marked. *)
Fixpoint groups (n : nat) (l : Z) : bytes :=
  match n with
  | O => []
  | S n => groups n (Z.shiftr l 7) ++ [z2b (if decide (n = 0) then Z.land l 127 else Z.lor (Z.land l 127) 128)]
  end.

Lemma groups_length n l : length (groups n l) = n.
Proof. revert l. induction n as [|n IH]; intros l; simpl; [done|]. rewrite length_app, IH. simpl. lia. Qed.

Lemma groups_spec n l :
  (fun i : nat => z2b (let b := Z.land (Z.shiftr l (7 * Z.of_nat (n - 1 - i))) 127 in if decide (i = 0) then b else Z.lor b 128)) <$> seq 0 n
  = groups n l.
Proof.
  revert l. induction n as [|n IH]; intros l; [done|]. rewrite seq_S, fmap_app. cbn [groups]. f_equal.
  - rewrite <-IH. apply list_fmap_ext. intros i j Hj. apply lookup_seq in Hj as [-> Hj]. cbv zeta.
    rewrite Z.shiftr_shiftr by lia. by replace (7 + 7 * Z.of_nat (n - 1 - (0 + i)))%Z with (7 * Z.of_nat (S n - 1 - (0 + i)))%Z by lia.
  - cbn [fmap list_fmap]. cbv zeta. replace (S n - 1 - (0 + n)) with 0 by lia. by rewrite Z.shiftr_0_r.
Qed.

Lemma write_backlen_groups l : write_backlen l = groups (backlen_size l) (Z.of_nat l).
Proof. rewrite <-groups_spec. apply list_fmap_ext. intros i j _. cbv zeta. done. Qed.

Lemma backlen_size_range l : 1 <= backlen_size l <= 5.
Proof. unfold backlen_size. repeat case_decide; lia. Qed.

Lemma backlen_size_fits l : (Z.of_nat l < 2 ^ 35)%Z -> (Z.of_nat l < 2 ^ (7 * Z.of_nat (backlen_size l)))%Z.
Proof.
  intros Hl. unfold backlen_size. repeat case_decide; cbn; try lia.
Qed.

Lemma write_backlen_length l : length (write_backlen l) = backlen_size l.
Proof. by rewrite write_backlen_groups, groups_length. Qed.

(** A group's byte. *)
Lemma group_byte l (cont : bool) :
  let g := b2z (z2b (if cont then Z.lor (Z.land l 127) 128 else Z.land l 127)) in
  Z.land g 127 = (l mod 128)%Z /\ (Z.land g 128 = 0%Z <-> cont = false).
Proof.
  cbv zeta. assert (Z.land l 127 = l mod 128)%Z as -> by by apply (Z.land_ones l 7).
  pose proof (Z.mod_pos_bound l 128 ltac:(lia)) as Hm. revert Hm. generalize (l mod 128)%Z as r. intros r Hr.
  assert (forallb (fun i => let r := Z.of_nat i in
    bool_decide (Z.land (b2z (z2b r)) 127 = r) && bool_decide (Z.land (b2z (z2b r)) 128 = 0%Z) &&
    bool_decide (Z.land (b2z (z2b (Z.lor r 128))) 127 = r) && negb (bool_decide (Z.land (b2z (z2b (Z.lor r 128))) 128 = 0%Z)))
    (seq 0 128) = true) as Hall by (vm_compute; reflexivity).
  rewrite forallb_forall in Hall. specialize (Hall (Z.to_nat r) ltac:(apply in_seq; lia)). cbv zeta in Hall.
  rewrite Z2Nat.id in Hall by lia. rewrite !andb_true_iff, negb_true_iff, !bool_decide_eq_true, bool_decide_eq_false in Hall.
  destruct Hall as [[[H1 H2] H3] H4]. destruct cont; (split; [assumption|]); split; (done || congruence).
Qed.

Lemma decode_groups fuel pre post n l val shift cnt :
  0 < n <= fuel -> (0 <= l < 2 ^ (7 * Z.of_nat n))%Z -> (0 <= shift)%Z -> (shift + 7 * (Z.of_nat n - 1) <= 28)%Z ->
  in_unsigned shift val ->
  decode_backlen_loop fuel (pre ++ groups n l ++ post) (length pre + n - 1) val shift cnt =
  Some (Z.to_nat (val + l * 2 ^ shift), cnt + n).
Proof.
  revert fuel post l val shift cnt. induction n as [|n IH]; intros fuel post l val shift cnt Hn Hl Hs Hsh Hv; [lia|].
  destruct fuel as [|fuel]; [lia|]. cbn [decode_backlen_loop groups]. rewrite <-app_assoc.
  set (b := z2b _). pose proof (group_byte l (negb (bool_decide (n = 0)))) as Hg. cbv zeta in Hg.
  assert (b = z2b (if negb (bool_decide (n = 0)) then Z.lor (Z.land l 127) 128 else Z.land l 127)) as Eb.
  { unfold b. by destruct (decide (n = 0)) as [->|]; [|rewrite bool_decide_eq_false_2]. }
  rewrite <-Eb in Hg. destruct Hg as [Hg1 Hg2].
  assert ((pre ++ groups n (Z.shiftr l 7) ++ [b] ++ post) !! (length pre + S n - 1) = Some b) as ->.
  { rewrite lookup_app_r by lia. rewrite lookup_app_r by (rewrite groups_length; lia). rewrite groups_length.
    by replace (length pre + S n - 1 - length pre - n) with 0 by lia. }
  cbn [mbind option_bind]. rewrite Hg1.
  assert (Z.lor val (Z.shiftl (l mod 128) shift) = val + (l mod 128) * 2 ^ shift)%Z as ->.
  { rewrite Z.lor_comm, lor_shiftl_add by done. lia. }
  pose proof (Z.mod_pos_bound l 128 ltac:(lia)) as Hm.
  destruct n as [|n].
  - rewrite decide_True by (by apply Hg2). change (2 ^ (7 * Z.of_nat 1))%Z with 128%Z in Hl. rewrite Z.mod_small by lia.
    done.
  - rewrite decide_False by (intros E; by apply Hg2 in E). rewrite decide_False by lia.
    replace (length pre + S (S n) - 1) with (S (length pre + S n - 1)) by lia.
    rewrite IH; [|lia| |lia|lia|].
    + do 2 f_equal; [|lia]. f_equal. rewrite Z.shiftr_div_pow2 by lia. rewrite Z.pow_add_r by lia. change (2 ^ 7)%Z with 128%Z.
      pose proof (Z.div_mod l 128 ltac:(lia)). nia.
    + rewrite Z.shiftr_div_pow2 by lia. change (2 ^ 7)%Z with 128%Z. split; [apply Z.div_pos; lia|].
      apply Z.div_lt_upper_bound; [lia|]. change 128%Z with (2 ^ 7)%Z. rewrite <-Z.pow_add_r by lia.
      replace (7 + 7 * Z.of_nat (S n))%Z with (7 * Z.of_nat (S (S n)))%Z by lia. lia.
    + destruct Hv as [Hv1 Hv2]. split; [nia|]. rewrite Z.pow_add_r by lia. change (2 ^ 7)%Z with 128%Z. nia.
Qed.

(** Reading backwards from the end of a length gives the length and its size. *)
Lemma decode_backlen_at pre l post :
  (Z.of_nat l < 2 ^ 35)%Z ->
  decode_backlen (pre ++ write_backlen l ++ post) (length pre + backlen_size l - 1) = Some (l, backlen_size l).
Proof.
  intros Hl. rewrite write_backlen_groups. unfold decode_backlen. pose proof (backlen_size_range l).
  rewrite decode_groups; [|lia|split; [lia|by apply backlen_size_fits]|lia|lia|done].
  do 2 f_equal. rewrite Z.mul_1_r. lia.
Qed.

(** ** Decoding looks at its entry only *)

Lemma slice_shift off a b (l : bytes) : off <= length l -> slice (off + a) (off + b) l = slice a b (drop off l).
Proof.
  intros Ho. unfold slice. rewrite drop_drop, length_drop. destruct (decide (a <= b <= length l - off)) as [Hd|Hd].
  - rewrite decide_True by lia. f_equal. f_equal. lia.
  - by rewrite decide_False by lia.
Qed.

Lemma decode_at_shift (l : bytes) off :
  off <= length l -> decode_at l off = decode_at (drop off l) 0 /\ enclen_at l off = enclen_at (drop off l) 0.
Proof.
  intros Ho. unfold decode_at, enclen_at. rewrite !lookup_drop, Nat.add_0_r. cbn [Nat.add].
  destruct (l !! off) as [b|]; [|done]. cbn [fmap option_fmap option_map mbind option_bind].
  split; repeat (case_decide; [try done|]); try done; rewrite <-?Nat.add_assoc, ?slice_shift by done; try done.
  all: try (destruct (l !! (off + 1)); [|done]; cbn [fmap option_fmap option_map mbind option_bind];
            rewrite <-?Nat.add_assoc, ?slice_shift by done; done).
  all: destruct (slice 1 5 (drop off l)); [|done]; cbn [mbind option_bind]; rewrite <-?Nat.add_assoc, ?slice_shift by done; done.
Qed.

Lemma lookup_app_mono (l k : bytes) i x : l !! i = Some x -> (l ++ k) !! i = Some x.
Proof. apply lookup_app_l_Some. Qed.

(** What was decoded is still decoded when more bytes follow. *)
Lemma decode_at_app (l k : bytes) x : decode_at l 0 = Some x -> decode_at (l ++ k) 0 = Some x.
Proof.
  unfold decode_at. destruct (l !! 0) as [b|] eqn:E0; [|done]. rewrite (lookup_app_mono l k 0 b E0).
  cbn [fmap option_fmap option_map mbind option_bind Nat.add].
  repeat (case_decide; [try done|]); try done.
  all: try (destruct (l !! 1) as [b1|] eqn:E1; [|done]; rewrite (lookup_app_mono l k 1 b1 E1); cbn [fmap option_fmap option_map mbind option_bind]).
  all: try done.
  all: match goal with |- context [slice ?a ?b ?m] => destruct (slice a b m) as [s|] eqn:Es; [|done]; rewrite (slice_app _ _ m k s Es) end;
    cbn [mbind option_bind]; try done.
  destruct (slice 5 _ l) as [t|] eqn:Et; [|done]. by rewrite (slice_app _ _ l k t Et).
Qed.

Lemma slice_in_take a b n (l s : bytes) : slice a b l = Some s -> b <= n -> slice a b (take n l) = Some s.
Proof.
  intros [Hb ->]%slice_Some_inv Hn. rewrite slice_Some by (rewrite length_take; lia). f_equal.
  rewrite !take_drop_commute, take_take. by rewrite Nat.min_l by lia.
Qed.

Lemma lookup_take_le n i (l : bytes) : i < n -> take n l !! i = l !! i.
Proof. intros. by apply lookup_take_lt. Qed.

Lemma land_ones_lt z k : (0 <= k)%Z -> (0 <= Z.land z (Z.ones k) < 2 ^ k)%Z.
Proof. intros. rewrite Z.land_ones by done. by apply Z.mod_pos_bound, Z.pow_pos_nonneg. Qed.

(** The length field of a 12-bit string, and the value of a 13-bit integer. *)
Lemma two_byte_range (b0 b1 : byte) k : (0 <= k <= 8)%Z ->
  (0 <= Z.lor (Z.shiftl (Z.land (b2z b0) (Z.ones k)) 8) (b2z b1) < 2 ^ (k + 8))%Z.
Proof.
  intros Hk. rewrite lor_shiftl_add by (done || apply b2z_in_unsigned). pose proof (land_ones_lt (b2z b0) k ltac:(lia)).
  pose proof (b2z_range b1). rewrite Z.pow_add_r by lia. change (2 ^ 8)%Z with 256%Z. nia.
Qed.

(** An integer of fixed width: the first byte and one slice. *)
Ltac fixed_width Ht :=
  match goal with
  | |- context [slice ?a ?b ?m] =>
      let s := fresh "s" in let Es := fresh "Es" in
      destruct (slice a b m) as [s|] eqn:Es; [|done]; intros [= <- <-]; pose proof (slice_Some_inv _ _ _ _ Es) as [? _];
      (split; [lia|]); (split; [lia|]); (split; [done|]); rewrite Ht by lia; cbn [fmap option_fmap option_map mbind option_bind];
      rewrite !decide_False by done; rewrite ?decide_True by done; by rewrite (slice_in_take _ _ _ _ _ Es) by lia
  end.

(** Its entry alone is decoded the same way, and [enclen_at] agrees. *)
Lemma decode_at_take (l : bytes) e n :
  decode_at l 0 = Some (e, n) ->
  1 <= n <= length l /\ (Z.of_nat n < 2 ^ 35)%Z /\ enclen_at l 0 = Some n /\ decode_at (take n l) 0 = Some (e, n).
Proof.
  unfold decode_at, enclen_at. destruct (l !! 0) as [b|] eqn:E0; [|done]. pose proof (lookup_lt_Some _ _ _ E0) as Hl0.
  cbn [fmap option_fmap option_map mbind option_bind Nat.add].
  assert (forall m, 0 < m -> take m l !! 0 = Some b) as Ht by (intros; by rewrite lookup_take_le).
  assert (forall k, (0 <= k <= 8)%Z -> (Z.land (b2z b) (Z.ones k) < 256)%Z) as Hland.
  { intros k Hk. pose proof (land_ones_lt (b2z b) k ltac:(lia)). pose proof (Z.pow_le_mono_r 2 k 8). lia. }
  case_decide.
  { intros [= <- <-]. split; [lia|]. split; [lia|]. rewrite Ht by lia. split; [done|]. cbn [fmap option_fmap option_map mbind option_bind].
    by rewrite decide_True. }
  case_decide.
  { set (k := Z.to_nat _). destruct (slice 1 (S k) l) as [s|] eqn:Es; [|done]. intros [= <- <-].
    pose proof (slice_Some_inv _ _ _ _ Es) as [Hb _]. specialize (Hland 6%Z ltac:(lia)). change (Z.ones 6) with 63%Z in Hland.
    split; [lia|]. split; [unfold k; lia|]. split; [done|]. rewrite Ht by lia. cbn [fmap option_fmap option_map mbind option_bind].
    rewrite decide_False, decide_True by done. fold k. by rewrite (slice_in_take _ _ _ _ _ Es) by lia. }
  case_decide.
  { destruct (l !! 1) as [b1|] eqn:E1; [|done]. pose proof (lookup_lt_Some _ _ _ E1) as Hl1.
    cbn [fmap option_fmap option_map mbind option_bind]. intros [= <- <-].
    split; [lia|]. split; [lia|]. split; [done|]. rewrite Ht by lia. cbn [fmap option_fmap option_map mbind option_bind].
    rewrite !decide_False, decide_True by done. rewrite lookup_take_le, E1 by lia. done. }
  case_decide.
  { destruct (l !! 1) as [b1|] eqn:E1; [|done]. cbn [fmap option_fmap option_map mbind option_bind].
    pose proof (two_byte_range b b1 4 ltac:(lia)) as Hr. change (Z.ones 4) with 15%Z in Hr. change (2 ^ (4 + 8))%Z with 4096%Z in Hr.
    set (k := Z.to_nat _). destruct (slice 2 (S (S k)) l) as [s|] eqn:Es; [|done]. intros [= <- <-].
    pose proof (slice_Some_inv _ _ _ _ Es) as [Hb _].
    split; [lia|]. split; [unfold k; lia|]. split; [done|]. rewrite Ht by lia. cbn [fmap option_fmap option_map mbind option_bind].
    rewrite !decide_False, decide_True by done. rewrite lookup_take_le, E1 by lia. cbn [fmap option_fmap option_map mbind option_bind].
    fold k. by rewrite (slice_in_take _ _ _ _ _ Es) by lia. }
  case_decide; [fixed_width Ht|]. case_decide; [fixed_width Ht|]. case_decide; [fixed_width Ht|]. case_decide; [fixed_width Ht|].
  case_decide; [|done].
  destruct (slice 1 5 l) as [h|] eqn:Eh; [|done]. cbn [mbind option_bind].
  pose proof (slice_Some_inv _ _ _ _ Eh) as [Hb1 Hh]. assert (length h = 4) as Hl4 by (subst h; rewrite length_take, length_drop; lia).
  pose proof (le_val_range h) as Hv. rewrite Hl4 in Hv. change (8 * Z.of_nat 4)%Z with 32%Z in Hv.
  set (k := Z.to_nat _). destruct (slice 5 (S (S (S (S (S k))))) l) as [s|] eqn:Es; [|done]. intros [= <- <-].
  pose proof (slice_Some_inv _ _ _ _ Es) as [Hb _]. split; [lia|].
  split; [unfold k, in_unsigned in *; change (2 ^ 35)%Z with 34359738368%Z; change (2 ^ 32)%Z with 4294967296%Z in Hv; lia|].
  split; [done|]. rewrite Ht by lia. cbn [fmap option_fmap option_map mbind option_bind].
  rewrite !decide_False by done. rewrite decide_True by done. rewrite (slice_in_take _ _ _ _ _ Eh) by lia. cbn [mbind option_bind].
  fold k. by rewrite (slice_in_take _ _ _ _ _ Es) by lia.
Qed.

(** ** The encoding ladder *)

#[export] Instance entry_eq_dec : EqDecision ListpackEntry.
Proof. solve_decision. Defined.

Definition entry_of (p : Payload) : ListpackEntry := match p with PInt v => Int v | PStr s => Str s end.
(** What a value is stored as. *)
Definition stored_as (v : ListpackEntry) : ListpackEntry := entry_of (canonicalize v).

Definition payload_ok (p : Payload) : Prop :=
  match p with PInt v => in_signed 64 v | PStr s => (Z.of_nat (length s) < 2 ^ 32)%Z end.

Lemma small_ints v : (-4096 <= v <= 4095)%Z -> decode_at (payload_data (PInt v)) 0 = Some (Int v, payload_enclen (PInt v)).
Proof.
  intros Hv.
  assert (forallb (fun i => let v := (Z.of_nat i - 4096)%Z in
    bool_decide (decode_at (payload_data (PInt v)) 0 = Some (Int v, payload_enclen (PInt v)))) (seq 0 (Z.to_nat 8192)) = true) as Hall
    by (vm_compute; reflexivity).
  rewrite forallb_forall in Hall. specialize (Hall (Z.to_nat (v + 4096)) ltac:(apply in_seq; lia)). cbv zeta in Hall.
  rewrite Z2Nat.id in Hall by lia. replace (v + 4096 - 4096)%Z with v in Hall by lia. by apply bool_decide_eq_true in Hall.
Qed.

Lemma slice_tail (b : byte) (l : bytes) n : n = length l -> slice 1 (1 + n) (b :: l) = Some l.
Proof. intros ->. rewrite slice_Some by (simpl; lia). replace (1 + length l - 1) with (length l) by lia. f_equal. by apply firstn_all. Qed.

Lemma le_signed_wraps w v : (0 < w) -> in_signed (8 * Z.of_nat w) v -> le_signed (le_bytes w (wrapu (8 * Z.of_nat w) (wraps (8 * Z.of_nat w) v))) = v.
Proof. intros Hw Hv. rewrite le_bytes_wrapu, wraps_small by (lia || done). by apply le_signed_le_bytes. Qed.

(** Decoding past a tag byte. *)
Lemma decode_tagged l :
  decode_at (z2b ENC_16BIT_INT :: l) 0 = (s ← slice 1 (1 + 2) (z2b ENC_16BIT_INT :: l); Some (Int (le_signed s), 3)) /\
  decode_at (z2b ENC_24BIT_INT :: l) 0 =
    (s ← slice 1 (1 + 3) (z2b ENC_24BIT_INT :: l); Some (Int (Z.shiftr (le_signed (x00 :: s)) 8), 4)) /\
  decode_at (z2b ENC_32BIT_INT :: l) 0 = (s ← slice 1 (1 + 4) (z2b ENC_32BIT_INT :: l); Some (Int (le_signed s), 5)) /\
  decode_at (z2b ENC_64BIT_INT :: l) 0 = (s ← slice 1 (1 + 8) (z2b ENC_64BIT_INT :: l); Some (Int (le_signed s), 9)).
Proof. split_and!; reflexivity. Qed.

Lemma shifted_sign v :
  (-8388608 <= v <= 8388607)%Z ->
  let u := (if decide (v < 0)%Z then Z.shiftl 1 24 + v else v)%Z in
  take 3 (le_bytes 4 (wrapu 32 u)) = le_bytes 3 u /\ Z.shiftr (le_signed (x00 :: le_bytes 3 u)) 8 = v.
Proof.
  intros Hv. cbv zeta. set (u := (if decide (v < 0)%Z then _ else _)).
  assert (0 <= u < 16777216)%Z as Hu by (unfold u; change (Z.shiftl 1 24) with 16777216%Z; case_decide; lia).
  split; [rewrite (le_bytes_wrapu 4); reflexivity|].
  unfold le_signed. cbn [length le_val]. rewrite le_bytes_length. change (8 * Z.of_nat 4)%Z with 32%Z.
  rewrite le_unsigned_le_bytes by (unfold in_unsigned; change (2 ^ (8 * Z.of_nat 3))%Z with 16777216%Z; lia).
  unfold wraps. rewrite wrapu_small; [|done|unfold in_unsigned; change (2 ^ 32)%Z with 4294967296%Z; change (b2z x00) with 0%Z; lia].
  change (b2z x00) with 0%Z. change (2 ^ (32 - 1))%Z with 2147483648%Z. change (2 ^ 32)%Z with 4294967296%Z.
  rewrite Z.shiftr_div_pow2 by done. change (2 ^ 8)%Z with 256%Z.
  unfold u in *. change (Z.shiftl 1 24) with 16777216%Z in *. case_decide; case_decide; Z.to_euclidean_division_equations; lia.
Qed.

Lemma payload_int v : in_signed 64 v -> decode_at (payload_data (PInt v)) 0 = Some (Int v, payload_enclen (PInt v)).
Proof.
  intros Hv. destruct (decide (-4096 <= v <= 4095)%Z) as [Hs|Hs]; [by apply small_ints|].
  destruct (decode_tagged (le_bytes 2 (wrapu 16 (wraps 16 v)))) as (D16 & _).
  destruct (decode_tagged (take 3 (le_bytes 4 (wrapu 32 (if decide (v < 0)%Z then Z.shiftl 1 24 + v else v)%Z)))) as (_ & D24 & _).
  destruct (decode_tagged (le_bytes 4 (wrapu 32 (wraps 32 v)))) as (_ & _ & D32 & _).
  destruct (decode_tagged (le_bytes 8 (wrapu 64 v))) as (_ & _ & _ & D64).
  unfold payload_data, payload_enclen. rewrite (decide_False (P := (0 <= v <= 127)%Z)) by lia. rewrite (decide_False (P := (-4096 <= v <= 4095)%Z)) by lia.
  destruct (decide (-32768 <= v <= 32767)%Z); [|destruct (decide (-8388608 <= v <= 8388607)%Z) as [Hm|]; [|destruct (decide (-2147483648 <= v <= 2147483647)%Z)]].
  - rewrite D16, slice_tail by by rewrite le_bytes_length. cbn [mbind option_bind]. by rewrite (le_signed_wraps 2); [|lia|split; cbn; lia].
  - destruct (shifted_sign v Hm) as [Ht Hsg]. rewrite D24, Ht, slice_tail by by rewrite le_bytes_length. cbn [mbind option_bind]. by rewrite Hsg.
  - rewrite D32, slice_tail by by rewrite le_bytes_length. cbn [mbind option_bind]. by rewrite (le_signed_wraps 4); [|lia|split; cbn; lia].
  - rewrite D64, slice_tail by by rewrite le_bytes_length. cbn [mbind option_bind]. rewrite (le_bytes_wrapu 8). by rewrite le_signed_le_bytes by (done || lia).
Qed.

(** The first byte of a string of less than 64 bytes, and of less than 4096. *)
Lemma string_tags n :
  ((0 <= n < 64)%Z -> let b := b2z (z2b (Z.lor ENC_6BIT_STR (wrapu 8 n))) in
     Z.land b 0x80 <> 0%Z /\ Z.land b 0xC0 = ENC_6BIT_STR /\ Z.land b 0x3f = n) /\
  ((0 <= n < 4096)%Z -> let b := b2z (z2b (Z.lor ENC_12BIT_STR (wrapu 8 (Z.shiftr n 8)))) in
     Z.land b 0x80 <> 0%Z /\ Z.land b 0xC0 <> ENC_6BIT_STR /\ Z.land b 0xE0 <> ENC_13BIT_INT /\ Z.land b 0xF0 = ENC_12BIT_STR /\
     Z.lor (Z.shiftl (Z.land b 0x0f) 8) (b2z (z2b (wrapu 8 (Z.land n 0xff)))) = n).
Proof.
  split; intros Hn; cbv zeta.
  - assert (forallb (fun i => let n := Z.of_nat i in let b := b2z (z2b (Z.lor ENC_6BIT_STR (wrapu 8 n))) in
      negb (bool_decide (Z.land b 0x80 = 0%Z)) && bool_decide (Z.land b 0xC0 = ENC_6BIT_STR) && bool_decide (Z.land b 0x3f = n)) (seq 0 64) = true)
      as Hall by (vm_compute; reflexivity).
    rewrite forallb_forall in Hall. specialize (Hall (Z.to_nat n) ltac:(apply in_seq; lia)). cbv zeta in Hall.
    rewrite Z2Nat.id, !andb_true_iff, negb_true_iff, !bool_decide_eq_true, bool_decide_eq_false in Hall by lia. tauto.
  - assert (forallb (fun i => let n := Z.of_nat i in let b := b2z (z2b (Z.lor ENC_12BIT_STR (wrapu 8 (Z.shiftr n 8)))) in
      negb (bool_decide (Z.land b 0x80 = 0%Z)) && negb (bool_decide (Z.land b 0xC0 = ENC_6BIT_STR)) &&
      negb (bool_decide (Z.land b 0xE0 = ENC_13BIT_INT)) && bool_decide (Z.land b 0xF0 = ENC_12BIT_STR) &&
      bool_decide (Z.lor (Z.shiftl (Z.land b 0x0f) 8) (b2z (z2b (wrapu 8 (Z.land n 0xff)))) = n)) (seq 0 (Z.to_nat 4096)) = true)
      as Hall by (vm_compute; reflexivity).
    rewrite forallb_forall in Hall. specialize (Hall (Z.to_nat n) ltac:(apply in_seq; lia)). cbv zeta in Hall.
    rewrite Z2Nat.id, !andb_true_iff, !negb_true_iff, !bool_decide_eq_true, !bool_decide_eq_false in Hall by lia. tauto.
Qed.

Lemma payload_str s : (Z.of_nat (length s) < 2 ^ 32)%Z -> decode_at (payload_data (PStr s)) 0 = Some (Str s, payload_enclen (PStr s)).
Proof.
  intros Hl. destruct (string_tags (Z.of_nat (length s))) as [H6 H12]. unfold payload_data, payload_enclen.
  destruct (decide (Z.of_nat (length s) < 64)%Z) as [Hs|Hs]; [|destruct (decide (Z.of_nat (length s) < 4096)%Z) as [Hm|Hm]].
  - destruct H6 as (T1 & T2 & T3); [lia|]. unfold decode_at. set (b := z2b (Z.lor ENC_6BIT_STR (wrapu 8 (Z.of_nat (length s))))) in *. change ((b :: s) !! 0) with (Some b).
    cbn [fmap option_fmap option_map mbind option_bind]. rewrite decide_False, decide_True by done. rewrite T3, Nat2Z.id.
    change (0 + 1 + length s) with (1 + length s). by rewrite slice_tail.
  - destruct H12 as (T1 & T2 & T3 & T4 & T5); [lia|]. unfold decode_at. set (b := z2b (Z.lor ENC_12BIT_STR (wrapu 8 (Z.shiftr (Z.of_nat (length s)) 8)))) in *.
    set (b1 := z2b (wrapu 8 (Z.land (Z.of_nat (length s)) 255))) in *.
    change ((b :: b1 :: s) !! 0) with (Some b). cbn [fmap option_fmap option_map mbind option_bind].
    rewrite !decide_False, decide_True by done. change ((b :: b1 :: s) !! (0 + 1)) with (Some b1). cbn [fmap option_fmap option_map mbind option_bind].
    rewrite T5, Nat2Z.id. rewrite slice_Some by (simpl; lia). replace (0 + 2 + length s - (0 + 2)) with (length s) by lia.
    cbn [Nat.add drop]. by rewrite firstn_all.
  - set (h := le_bytes 4 (wrapu 32 (Z.of_nat (length s)))). assert (length h = 4) as Hh by apply le_bytes_length.
    transitivity (h' ← slice 1 (1 + 4) (z2b ENC_32BIT_STR :: h ++ s);
      let n := Z.to_nat (le_val h') in s' ← slice 5 (5 + n) (z2b ENC_32BIT_STR :: h ++ s); Some (Str s', 5 + n)); [reflexivity|].
    rewrite slice_Some by (cbn [length]; rewrite length_app; lia). cbn [mbind option_bind].
    assert (take (1 + 4 - 1) (drop 1 (z2b ENC_32BIT_STR :: h ++ s)) = h) as -> by (rewrite <-Hh at 1; apply (take_app_length h s)).
    cbv zeta. assert (le_val h = Z.of_nat (length s)) as -> by (unfold h; rewrite (le_bytes_wrapu 4); apply le_unsigned_le_bytes; split; cbn in *; lia).
    rewrite Nat2Z.id. rewrite slice_Some by (cbn [length]; rewrite length_app; lia). cbn [mbind option_bind].
    replace (5 + length s - 5) with (length s) by lia.
    assert (drop 5 (z2b ENC_32BIT_STR :: h ++ s) = s) as -> by (change (drop 5 (z2b ENC_32BIT_STR :: h ++ s)) with (drop 4 (h ++ s)); rewrite <-Hh; apply drop_app_length).
    by rewrite firstn_all.
Qed.

(** Encoding then decoding is the identity, on every rung of the ladder. *)
Lemma payload_decodes p : payload_ok p -> decode_at (payload_data p) 0 = Some (entry_of p, payload_enclen p).
Proof. destruct p; [apply payload_int|apply payload_str]. Qed.

Lemma payload_length p : length (payload_data p) = payload_enclen p.
Proof.
  destruct p as [v|s]; unfold payload_data, payload_enclen; repeat case_decide; cbn [length]; try lia;
    rewrite ?length_app, ?length_take, ?le_bytes_length; lia.
Qed.
