(* ===== verification/ListpackRefine.v ===== *)
(** * The listpack is the list of its entries ([src/encoding/listpack.rs])

    A blob represents a list of entries: a header, one block per entry and the
    terminator.  [from_bytes] accepts exactly such blobs, and every operation
    is, on the list, the operation its name promises. *)
From S2P Require Import Prelude Strnum Listpack ListpackFacts.
Open Scope nat_scope.

(** ** The blob of a list *)

(** An entry: its encoding and data, then their length. *)
Definition block (d : bytes) : bytes := d ++ write_backlen (length d).
Definition blocks (ds : list bytes) : bytes := concat (block <$> ds).

Definition blob (c : Z) (ds : list bytes) : bytes :=
  le_bytes 4 (Z.of_nat (LP_HDR_SIZE + length (blocks ds) + 1)) ++ le_bytes 2 c ++ blocks ds ++ [LP_EOF].

(** [d] is the encoding of [e] and nothing more. *)
Definition encodes (d : bytes) (e : ListpackEntry) : Prop := decode_at d 0 = Some (e, length d).

(** The count is the number of blocks, or unknown. *)
Definition counts (c : Z) (n : nat) : Prop := c = LP_HDR_NUMELE_UNKNOWN \/ (c = Z.of_nat n /\ (c < LP_HDR_NUMELE_UNKNOWN)%Z).

Record pack (lp : Listpack) (c : Z) (ds : list bytes) (es : list ListpackEntry) : Prop := {
  pack_buf : buf lp = blob c ds;
  pack_data : Forall2 encodes ds es;
  pack_size : (Z.of_nat (length (buf lp)) < 2 ^ 32)%Z;
  pack_count : counts c (length ds)
}.

Definition is_pack (lp : Listpack) (es : list ListpackEntry) : Prop := exists c ds, pack lp c ds es.

Lemma block_length d : length (block d) = length d + backlen_size (length d).
Proof. unfold block. by rewrite length_app, write_backlen_length. Qed.

Lemma blocks_app xs ys : blocks (xs ++ ys) = blocks xs ++ blocks ys.
Proof. unfold blocks. by rewrite fmap_app, concat_app. Qed.

Lemma blocks_cons d ds : blocks (d :: ds) = block d ++ blocks ds.
Proof. done. Qed.

Lemma blob_length c ds : length (blob c ds) = LP_HDR_SIZE + length (blocks ds) + 1.
Proof. unfold blob, LP_HDR_SIZE. rewrite !length_app, !le_bytes_length. cbn [length]. lia. Qed.

Lemma encodes_facts d e : encodes d e -> 1 <= length d /\ (Z.of_nat (length d) < 2 ^ 35)%Z /\ enclen_at d 0 = Some (length d).
Proof. intros H. apply decode_at_take in H as (? & ? & ? & ?). split; [lia|done]. Qed.

(** The encoding of an entry determines it, and is decoded wherever it stands. *)
Lemma decode_block d e pre post :
  encodes d e ->
  decode_at (pre ++ block d ++ post) (length pre) = Some (e, length d) /\
  enclen_at (pre ++ block d ++ post) (length pre) = Some (length d).
Proof.
  intros Hd. destruct (decode_at_shift (pre ++ block d ++ post) (length pre)) as [-> ->]; [rewrite length_app; lia|].
  rewrite drop_app_length. unfold block. rewrite <-app_assoc.
  pose proof (decode_at_app _ (write_backlen (length d) ++ post) _ Hd) as Ha. split; [done|].
  by apply decode_at_take in Ha as (_ & _ & ? & _).
Qed.

(** ** Walking *)

Section walk.
Context {lp : Listpack} {c : Z} {ds : list bytes} {es : list ListpackEntry} (Hp : pack lp c ds es).

(** The offset of the [k]-th entry. *)
Definition pos (ds : list bytes) (k : nat) : nat := LP_HDR_SIZE + length (blocks (take k ds)).

Lemma pos_0 l : pos l 0 = LP_HDR_SIZE.
Proof. done. Qed.

Lemma pos_S l k d : l !! k = Some d -> pos l (S k) = pos l k + (length d + backlen_size (length d)).
Proof.
  intros Hk. unfold pos. rewrite (take_S_r _ _ _ Hk), blocks_app, length_app, blocks_cons, length_app, block_length. simpl. lia.
Qed.

Lemma pos_all l k : length l <= k -> pos l k = LP_HDR_SIZE + length (blocks l).
Proof. intros. unfold pos. by rewrite take_ge. Qed.

Lemma eof_pos : eof_offset lp = pos ds (length ds).
Proof. unfold eof_offset. rewrite (pack_buf _ _ _ _ Hp), blob_length, pos_all by done. lia. Qed.

Lemma buf_length : length (buf lp) = eof_offset lp + 1.
Proof. unfold eof_offset. rewrite (pack_buf _ _ _ _ Hp), blob_length. lia. Qed.

Lemma data_length : length es = length ds.
Proof. symmetry. apply (Forall2_length _ _ _ (pack_data _ _ _ _ Hp)). Qed.

(** The blob cut at the [k]-th entry. *)
Lemma blob_at k d :
  ds !! k = Some d ->
  exists pre post, buf lp = pre ++ block d ++ post /\ length pre = pos ds k /\ post <> [].
Proof.
  intros Hk. rewrite (pack_buf _ _ _ _ Hp). unfold blob.
  exists (le_bytes 4 (Z.of_nat (LP_HDR_SIZE + length (blocks ds) + 1)) ++ le_bytes 2 c ++ blocks (take k ds)), (blocks (drop (S k) ds) ++ [LP_EOF]).
  split_and!.
  - rewrite <-(take_drop_middle ds k d Hk) at 2. rewrite blocks_app, blocks_cons, <-!app_assoc. done.
  - unfold pos, LP_HDR_SIZE. rewrite !length_app, !le_bytes_length. lia.
  - by destruct (blocks _).
Qed.

Lemma data_at k d : ds !! k = Some d -> exists e, es !! k = Some e /\ encodes d e.
Proof. intros Hk. by destruct (Forall2_lookup_l _ _ _ _ _ (pack_data _ _ _ _ Hp) Hk) as (e & ? & ?); eauto. Qed.

Lemma pos_lt k : k < length ds -> pos ds k < pos ds (S k) <= eof_offset lp.
Proof.
  intros Hk. destruct (lookup_lt_is_Some_2 _ _ Hk) as [d Hd]. rewrite (pos_S _ _ _ Hd).
  destruct (data_at _ _ Hd) as (e & _ & He). pose proof (encodes_facts _ _ He) as (? & _).
  rewrite eof_pos. split; [lia|]. rewrite <-(pos_S _ _ _ Hd). unfold pos. rewrite firstn_all.
  pose proof (f_equal (fun l => length (blocks l)) (take_drop (S k) ds)) as Ht. cbn beta in Ht. rewrite blocks_app, length_app in Ht. lia.
Qed.

Lemma pos_le k : pos ds k <= eof_offset lp.
Proof.
  destruct (decide (k < length ds)) as [Hk|Hk]; [pose proof (pos_lt k Hk); lia|]. rewrite eof_pos, !pos_all by lia. lia.
Qed.

Lemma at_eof k : eof_offset lp <= pos ds k <-> length ds <= k.
Proof.
  split; [intros; destruct (decide (k < length ds)) as [Hk|]; [pose proof (pos_lt k Hk)|]; lia|].
  intros. rewrite eof_pos, !pos_all by lia. lia.
Qed.

(** Reading at the [k]-th offset. *)
Lemma read_at k d e : ds !! k = Some d -> es !! k = Some e ->
  decode_at (buf lp) (pos ds k) = Some (e, length d) /\
  entry_at (pos ds k) lp = Some e /\ entry_span (pos ds k) lp = Some (length d + backlen_size (length d)).
Proof.
  intros Hd He. destruct (data_at _ _ Hd) as (e' & He' & Henc). assert (e' = e) as -> by congruence.
  destruct (blob_at k d Hd) as (pre & post & Eb & El & _). destruct (decode_block d e pre post Henc) as [D1 D2].
  rewrite <-Eb, El in D1, D2. unfold entry_at, entry_span. rewrite D1, D2. split; [done|]. split; [|done].
  rewrite decide_False; [done|]. rewrite at_eof. pose proof (lookup_lt_Some _ _ _ Hd). lia.
Qed.

Lemma entry_at_eof k : length ds <= k -> entry_at (pos ds k) lp = None.
Proof. intros. unfold entry_at. by rewrite decide_True by by apply at_eof. Qed.

Lemma read_entry k : entry_at (pos ds k) lp = es !! k.
Proof.
  destruct (decide (length ds <= k)).
  - rewrite entry_at_eof by done. symmetry. apply lookup_ge_None. by rewrite data_length.
  - destruct (lookup_lt_is_Some_2 ds k) as [d Hd]; [lia|]. destruct (data_at _ _ Hd) as (e & He & _).
    destruct (read_at k d e Hd He) as (_ & -> & _). done.
Qed.

Lemma step_span k : k < length ds -> exists span, entry_span (pos ds k) lp = Some span /\ pos ds (S k) = pos ds k + span.
Proof.
  intros Hk. destruct (lookup_lt_is_Some_2 _ _ Hk) as [d Hd]. destruct (data_at _ _ Hd) as (e & He & _).
  destruct (read_at k d e Hd He) as (_ & _ & E). rewrite E, (pos_S _ _ _ Hd). eauto.
Qed.

(** The length behind the [k]-th entry, and one step back. *)
Lemma backlen_at k d :
  ds !! k = Some d -> decode_backlen (buf lp) (pos ds (S k) - 1) = Some (length d, backlen_size (length d)).
Proof.
  intros Hd. destruct (data_at _ _ Hd) as (e & He & Henc). destruct (blob_at k d Hd) as (pre & post & Eb & El & _).
  pose proof (encodes_facts _ _ Henc) as (Hl & Hb & _). pose proof (pos_S _ _ _ Hd) as HS.
  pose proof (decode_backlen_at (pre ++ d) (length d) post Hb) as D. rewrite Eb. unfold block. rewrite <-!app_assoc in *.
  rewrite <-D. f_equal. rewrite length_app. lia.
Qed.

Lemma prev_pos k : k < length ds -> prev_offset (pos ds (S k)) lp = Some (pos ds k).
Proof.
  intros Hk. destruct (lookup_lt_is_Some_2 _ _ Hk) as [d Hd]. destruct (data_at _ _ Hd) as (e & He & Henc).
  pose proof (encodes_facts _ _ Henc) as (Hl & _). pose proof (pos_S _ _ _ Hd) as HS.
  unfold prev_offset. assert (LP_HDR_SIZE <= pos ds k) by (unfold pos; lia).
  rewrite decide_False by lia. rewrite (backlen_at _ _ Hd). cbn [mbind option_bind]. rewrite decide_False by lia. rewrite decide_False by lia. f_equal. lia.
Qed.

Lemma prev_first : prev_offset (pos ds 0) lp = None.
Proof. unfold prev_offset. by rewrite decide_True. Qed.

(** ** [seek] *)

Lemma seek_fwd_loop_spec n k :
  k <= length ds -> seek_fwd_loop n (pos ds k) lp = if decide (k + n < length ds) then Some (pos ds (k + n)) else None.
Proof.
  revert k. induction n as [|n IH]; intros k Hk; cbn [seek_fwd_loop].
  - rewrite Nat.add_0_r. case_decide as H1; case_decide; try done; rewrite at_eof in H1; lia.
  - case_decide as H1; rewrite at_eof in H1; [by rewrite decide_False by lia|].
    destruct (step_span k) as (s & -> & E); [lia|]. cbn [mbind option_bind]. rewrite <-E, IH by lia.
    by replace (S k + n) with (k + S n) by lia.
Qed.

Lemma seek_fwd_spec n : seek_fwd n lp = if decide (n < length ds) then Some (pos ds n) else None.
Proof. unfold seek_fwd. rewrite <-(pos_0 ds). by rewrite seek_fwd_loop_spec by lia. Qed.

Lemma seek_back_loop_spec n k :
  k <= length ds -> seek_back_loop n (pos ds k) lp = if decide (n <= k) then Some (pos ds (k - n)) else None.
Proof.
  revert k. induction n as [|n IH]; intros k Hk; cbn [seek_back_loop]; [by rewrite decide_True, Nat.sub_0_r by lia|].
  destruct k as [|k]; [rewrite prev_first; cbn [mbind option_bind]; by rewrite decide_False by lia|].
  rewrite prev_pos by lia. cbn [mbind option_bind]. rewrite IH by lia. do 2 case_decide; try lia; try done.
Qed.

Lemma seek_back_spec n :
  (n < 0)%Z ->
  seek_back n lp = if decide (0 <= Z.of_nat (length ds) + n)%Z then Some (pos ds (Z.to_nat (Z.of_nat (length ds) + n))) else None.
Proof.
  intros Hn. unfold seek_back. rewrite eof_pos, seek_back_loop_spec by done.
  do 2 case_decide; try lia; [|done]. do 2 f_equal. lia.
Qed.

Lemma header_count_spec : header_count lp = c.
Proof.
  unfold header_count. rewrite (pack_buf _ _ _ _ Hp). unfold blob.
  rewrite slice_Some by (rewrite !length_app, !le_bytes_length; lia).
  rewrite (drop_app_length' (le_bytes 4 _)) by by rewrite le_bytes_length.
  rewrite take_app_length' by by rewrite le_bytes_length.
  apply le_unsigned_le_bytes. destruct (pack_count _ _ _ _ Hp) as [->|[-> H]]; [done|]. unfold LP_HDR_NUMELE_UNKNOWN in H. split; cbn; lia.
Qed.
End walk.

(** The position an index stands for: from the end when negative. *)
Definition index_of (n : nat) (i : Z) : option nat :=
  let i := if decide (i < 0)%Z then (i + Z.of_nat n)%Z else i in
  if decide (0 <= i < Z.of_nat n)%Z then Some (Z.to_nat i) else None.

Lemma index_of_lt n i k : index_of n i = Some k -> k < n.
Proof. unfold index_of. intros H. repeat case_decide; simplify_eq; lia. Qed.

Lemma seek_spec lp c ds es i : pack lp c ds es -> seek i lp = pos ds <$> index_of (length ds) i.
Proof.
  intros Hp. unfold seek, index_of. rewrite (header_count_spec Hp), (seek_fwd_spec Hp).
  destruct (pack_count _ _ _ _ Hp) as [->|[-> Hc]].
  - rewrite decide_False by naive_solver. case_decide.
    + rewrite (seek_back_spec Hp) by done. do 2 case_decide; try lia; [|done]. cbn [fmap option_fmap option_map]. do 2 f_equal. lia.
    + rewrite (seek_fwd_spec Hp). do 2 case_decide; try lia; done.
  - rewrite decide_True by lia. set (j := if decide (i < 0)%Z then _ else i). clearbody j. cbv zeta.
    case_decide; [by rewrite decide_False by lia|]. rewrite (decide_True (P := (0 <= j < _)%Z)) by lia.
    case_decide.
    + rewrite (seek_back_spec Hp), decide_True by lia. cbn [fmap option_fmap option_map]. do 2 f_equal. lia.
    + rewrite decide_True by lia. done.
Qed.

(** ** Reading *)

Section reads.
Context {lp : Listpack} {c : Z} {ds : list bytes} {es : list ListpackEntry} (Hp : pack lp c ds es).

Lemma pos_grows k : k <= length ds -> LP_HDR_SIZE + k <= pos ds k.
Proof.
  induction k as [|k IH]; intros Hk; [rewrite pos_0; lia|]. pose proof (pos_lt Hp k ltac:(lia)). specialize (IH ltac:(lia)). lia.
Qed.

(** The fuel of the walks is enough. *)
Lemma enough_fuel : length ds < length (buf lp).
Proof. pose proof (pos_grows (length ds) ltac:(lia)). rewrite (buf_length Hp), (eof_pos Hp). lia. Qed.

Lemma iter_loop_spec fuel k : k <= length ds -> length ds - k < fuel -> iter_loop fuel (pos ds k) lp = drop k es.
Proof.
  revert k. induction fuel as [|fuel IH]; intros k Hk Hf; [lia|]. cbn [iter_loop]. case_decide as H1; rewrite (at_eof Hp) in H1.
  - symmetry. apply drop_ge. rewrite (data_length Hp). lia.
  - destruct (lookup_lt_is_Some_2 ds k) as [d Hd]; [lia|]. destruct (data_at Hp _ _ Hd) as (e & He & _).
    destruct (read_at Hp k d e Hd He) as (-> & _ & _). rewrite <-(pos_S _ _ _ Hd), IH by lia. by rewrite (drop_S es e k).
Qed.

Lemma iter_rev_loop_spec fuel k : k <= length ds -> k < fuel -> iter_rev_loop fuel (pos ds k) lp = rev (take k es).
Proof.
  revert k. induction fuel as [|fuel IH]; intros k Hk Hf; [lia|]. cbn [iter_rev_loop]. destruct k as [|k].
  - by rewrite (@prev_first lp).
  - rewrite (prev_pos Hp) by lia. rewrite (read_entry Hp).
    destruct (lookup_lt_is_Some_2 es k) as [e He]; [rewrite (data_length Hp); lia|]. rewrite He, IH by lia.
    by rewrite (take_S_r _ _ _ He), rev_app_distr.
Qed.

Lemma iter_spec : iter lp = es.
Proof. unfold iter, iter_from. rewrite <-(pos_0 ds), iter_loop_spec; [done|lia|]. pose proof enough_fuel. lia. Qed.

Lemma len_spec : len lp = length es.
Proof.
  unfold len. rewrite (header_count_spec Hp), iter_spec. case_decide; [|done].
  destruct (pack_count _ _ _ _ Hp) as [?|[-> _]]; [done|]. rewrite (data_length Hp). lia.
Qed.

Lemma skip_loop_spec n k :
  k <= length ds -> skip_loop n (pos ds k) k lp = if decide (k + n <= length ds) then Some (pos ds (k + n), k + n) else None.
Proof.
  revert k. induction n as [|n IH]; intros k Hk; cbn [skip_loop]; [by rewrite decide_True, Nat.add_0_r by lia|].
  case_decide as H1; rewrite (at_eof Hp) in H1; [by rewrite decide_False by lia|].
  destruct (step_span Hp k) as (s & -> & E); [lia|]. cbn [mbind option_bind]. rewrite <-E, Nat.add_1_r, IH by lia.
  by replace (S k + n) with (k + S n) by lia.
Qed.

(** The first hit among the entries one in [skip + 1] apart. *)
Definition first_hit (es : list ListpackEntry) (canon : Payload) (stride k i : nat) : Prop :=
  exists j, i = k + j * stride /\ (exists e, es !! i = Some e /\ hits canon e = true) /\
    forall j' e, j' < j -> es !! (k + j' * stride) = Some e -> hits canon e = false.

Lemma first_hit_step canon stride k i e :
  es !! k = Some e -> first_hit es canon (S stride) k i <->
  (hits canon e = true /\ i = k) \/ (hits canon e = false /\ first_hit es canon (S stride) (k + S stride) i).
Proof.
  intros He. unfold first_hit. split.
  - intros (j & -> & (x & Hx & Hh) & Hno). destruct j as [|j].
    + rewrite Nat.mul_0_l, Nat.add_0_r in *. left. split; [congruence|done].
    + right. split; [apply (Hno 0); [lia|]; by rewrite Nat.mul_0_l, Nat.add_0_r|]. exists j. split; [lia|]. split; [exists x; split; [|done]; by replace (k + S stride + j * S stride) with (k + S j * S stride) by lia|].
      intros j' y Hj Hy. apply (Hno (S j') y); [lia|]. by replace (k + S j' * S stride) with (k + S stride + j' * S stride) by lia.
  - intros [[Hh ->]|[Hh (j & -> & (x & Hx & Hhx) & Hno)]].
    + exists 0. split; [lia|]. split; [by exists e|]. lia.
    + exists (S j). split; [lia|]. split; [by exists x|]. intros [|j'] y Hj Hy.
      * rewrite Nat.mul_0_l, Nat.add_0_r in Hy. congruence.
      * apply (Hno j' y); [lia|]. by replace (k + S stride + j' * S stride) with (k + S j' * S stride) by lia.
Qed.

Lemma first_hit_out canon stride k i : length es <= k -> ~ first_hit es canon stride k i.
Proof. intros Hk (j & -> & (e & He & _) & _). apply lookup_lt_Some in He. lia. Qed.

Lemma find_loop_spec fuel canon skip k i :
  k <= length ds -> length ds - k < fuel ->
  find_loop fuel canon skip (pos ds k) k lp = Some i <-> first_hit es canon (S skip) k i.
Proof.
  revert k. induction fuel as [|fuel IH]; intros k Hk Hf; [lia|]. cbn [find_loop]. pose proof (at_eof Hp k) as Heof.
  case_decide.
  - destruct (lookup_lt_is_Some_2 ds k) as [d Hd]; [lia|]. destruct (data_at Hp _ _ Hd) as (e & He & _).
    destruct (read_at Hp k d e Hd He) as (-> & _ & _). cbn [mbind option_bind]. rewrite (first_hit_step _ _ _ _ e He).
    rewrite <-(pos_S _ _ _ Hd), Nat.add_1_r, skip_loop_spec by lia. destruct (hits canon e); [naive_solver|].
    case_decide; cbn [mbind option_bind].
    + replace (S k + skip) with (k + S skip) in * by lia. rewrite IH by lia. naive_solver.
    + split; [done|]. intros [?|[_ Hh]]; [naive_solver|]. by apply first_hit_out in Hh; [|rewrite (data_length Hp); lia].
  - split; [done|]. intros Hh. by apply first_hit_out in Hh; [|rewrite (data_length Hp); lia].
Qed.

Lemma find_from_spec start needle skip i :
  find_from start needle skip lp = Some i <-> first_hit es (canonicalize (Str needle)) (S skip) start i.
Proof.
  unfold find_from. rewrite (seek_fwd_spec Hp). pose proof enough_fuel. case_decide; cbn [mbind option_bind].
  - apply find_loop_spec; lia.
  - split; [done|]. intros Hh. by apply first_hit_out in Hh; [|rewrite (data_length Hp); lia].
Qed.
End reads.

Section ends.
Context {lp : Listpack} {c : Z} {ds : list bytes} {es : list ListpackEntry} (Hp : pack lp c ds es).

Lemma is_empty_spec : is_empty lp = bool_decide (es = []).
Proof.
  pose proof (data_length Hp) as Hl. unfold is_empty. pose proof (pos_grows Hp (length ds) ltac:(lia)) as Hg. rewrite <-(eof_pos Hp) in Hg. apply bool_decide_ext. rewrite (buf_length Hp).
  destruct es as [|e es']; cbn [length] in Hl; [|split; [lia|done]]. split; [done|]. intros _. rewrite (eof_pos Hp), <-Hl, pos_0. lia.
Qed.

Lemma get_spec i : get i lp = k ← index_of (length es) i; es !! k.
Proof.
  unfold get. rewrite (seek_spec _ _ _ _ i Hp), (data_length Hp). destruct (index_of (length ds) i) as [k|]; [|done].
  cbn [fmap option_fmap option_map mbind option_bind]. apply (read_entry Hp).
Qed.

Lemma lp_last_spec : last lp = list.last es.
Proof.
  pose proof (data_length Hp) as Hl. unfold last. rewrite (eof_pos Hp), last_lookup, Hl. destruct (length ds) as [|n] eqn:En; [rewrite (@prev_first lp); by destruct es|].
  rewrite (prev_pos Hp) by lia. cbn [mbind option_bind]. apply (read_entry Hp).
Qed.
End ends.

(** Reading a listpack is reading the list it represents: forwards,
    backwards, by index from either end, its ends, its length; and [find_from]
    is the first hit among the entries [skip + 1] apart. *)
Theorem listpack_reads (lp : Listpack) (es : list ListpackEntry) :
  is_pack lp es ->
  iter lp = es /\ iter_rev lp = rev es /\ len lp = length es /\ is_empty lp = bool_decide (es = []) /\
  (forall i, get i lp = k ← index_of (length es) i; es !! k) /\ first lp = head es /\ last lp = list.last es /\
  (forall start needle skip i,
     find_from start needle skip lp = Some i <-> first_hit es (canonicalize (Str needle)) (S skip) start i).
Proof.
  intros (c & ds & Hp). pose proof (data_length Hp) as Hl. pose proof (enough_fuel Hp) as Hf. split_and!.
  - apply (iter_spec Hp).
  - unfold iter_rev. rewrite (eof_pos Hp), (iter_rev_loop_spec Hp) by lia. by rewrite take_ge by lia.
  - apply (len_spec Hp).
  - apply (is_empty_spec Hp).
  - intros i. apply (get_spec Hp).
  - unfold first. rewrite <-(pos_0 ds), (read_entry Hp). by destruct es.
  - apply (lp_last_spec Hp).
  - intros. apply (find_from_spec Hp).
Qed.

(** ** [from_bytes] accepts exactly the blobs *)

Lemma groups_of_byte b m :
  (0 <= m)%Z -> let cont := negb (bool_decide (Z.land (b2z b) 128 = 0%Z)) in
  let l := (m * 128 + Z.land (b2z b) 127)%Z in
  b = z2b (if cont then Z.lor (Z.land l 127) 128 else Z.land l 127) /\ Z.shiftr l 7 = m.
Proof.
  intros Hm. cbv zeta. pose proof (land_ones_lt (b2z b) 7 ltac:(lia)) as Hr. change (Z.ones 7) with 127%Z in Hr. change (2 ^ 7)%Z with 128%Z in Hr.
  assert (Z.land (m * 128 + Z.land (b2z b) 127) 127 = Z.land (b2z b) 127)%Z as ->.
  { rewrite (Z.land_ones _ 7) by done. change (2 ^ 7)%Z with 128%Z. rewrite Z.add_comm, Z_mod_plus_full. by apply Z.mod_small. }
  split; [by_bytes b|]. rewrite Z.shiftr_div_pow2 by done. change (2 ^ 7)%Z with 128%Z. rewrite Z.add_comm, Z.div_add by done. rewrite Z.div_small by done. done.
Qed.

(** What is decoded backwards is the groups it was written as. *)
Lemma decode_loop_inv fuel l p val shift cnt r cnt' :
  decode_backlen_loop fuel l p val shift cnt = Some (r, cnt') -> (0 <= shift)%Z -> in_unsigned shift val ->
  exists n m, 0 < n <= S p /\ cnt' = cnt + n /\ slice (S p - n) (S p) l = Some (groups n m) /\
    (0 <= m)%Z /\ r = Z.to_nat (val + m * 2 ^ shift).
Proof.
  revert p val shift cnt. induction fuel as [|fuel IH]; intros p val shift cnt; cbn [decode_backlen_loop]; [done|].
  destruct (l !! p) as [b|] eqn:Eb; [|done]. cbn [mbind option_bind]. intros Hd Hs Hv.
  pose proof (lookup_lt_Some _ _ _ Eb) as Hp. pose proof (land_ones_lt (b2z b) 7 ltac:(lia)) as Hr. change (Z.ones 7) with 127%Z in Hr. change (2 ^ 7)%Z with 128%Z in Hr.
  assert (Z.lor val (Z.shiftl (Z.land (b2z b) 127) shift) = val + Z.land (b2z b) 127 * 2 ^ shift)%Z as El
    by (rewrite Z.lor_comm, lor_shiftl_add by done; lia).
  rewrite El in Hd. destruct (decide (Z.land (b2z b) 128 = 0%Z)) as [H0|H0].
  - injection Hd as <- <-. exists 1, (Z.land (b2z b) 127). split_and!; try lia.
    pose proof (groups_of_byte b 0 ltac:(lia)) as [Hb _]. cbv zeta in Hb. rewrite (bool_decide_eq_true_2 _ H0) in Hb.
    cbn [groups app decide]. rewrite slice_Some by lia. replace (S p - (S p - 1)) with 1 by lia. replace (S p - 1) with p by lia.
    rewrite (drop_S l b p) by done. cbn [take]. f_equal. rewrite Hb at 1. done.
  - case_decide; [done|]. destruct p as [|p]; [done|]. apply IH in Hd as (n & m & Hn & -> & Hsl & Hm & ->); [|lia|].
    + exists (S n), (m * 128 + Z.land (b2z b) 127)%Z. split_and!; try lia.
      * pose proof (groups_of_byte b m Hm) as [Hb Hsh]. cbv zeta in Hb, Hsh. rewrite (bool_decide_eq_false_2 _ H0) in Hb. cbn [negb] in Hb.
        cbn [groups]. rewrite Hsh. rewrite decide_False by lia. rewrite <-Hb. apply slice_Some_inv in Hsl as [Hb1 Hb2].
        rewrite slice_Some by lia. f_equal. replace (S (S p) - S n) with (S p - n) by lia.
        replace (S (S p) - (S p - n)) with (S p - (S p - n) + 1) by lia. rewrite take_add_app, <-Hb2. f_equal.
        rewrite drop_drop. replace (S p - n + (S p - (S p - n))) with (S p) by lia. rewrite (drop_S l b (S p)) by done. done.
      * f_equal. rewrite Z.pow_add_r by lia. change (2 ^ 7)%Z with 128%Z. nia.
    + destruct Hv as [Hv1 Hv2]. split; [nia|]. rewrite Z.pow_add_r by lia. change (2 ^ 7)%Z with 128%Z. nia.
Qed.

Lemma decode_backlen_inv l p r n :
  decode_backlen l p = Some (r, n) -> n = backlen_size r -> slice (S p - n) (S p) l = Some (write_backlen r).
Proof.
  intros Hd Hn. apply decode_loop_inv in Hd as (n' & m & Hn' & -> & Hs & Hm & ->); [|lia|done].
  cbn [Nat.add] in *. rewrite write_backlen_groups, <-Hn, Hs. do 2 f_equal. rewrite Z.mul_1_r. lia.
Qed.

(** One round of [validate]. *)
Lemma validate_round l off e enclen :
  decode_at l off = Some (e, enclen) -> off <= length l ->
  decode_backlen l (off + enclen + backlen_size enclen - 1) = Some (enclen, backlen_size enclen) ->
  exists d, encodes d e /\ length d = enclen /\ take (enclen + backlen_size enclen) (drop off l) = block d.
Proof.
  intros Hd Ho Hb. destruct (decode_at_shift l off Ho) as [Hs _]. rewrite Hs in Hd. apply decode_at_take in Hd as (Hn & _ & _ & Ht).
  exists (take enclen (drop off l)). assert (length (take enclen (drop off l)) = enclen) as Hl by (rewrite length_take; lia).
  split; [unfold encodes; by rewrite Hl|]. split; [done|]. unfold block. rewrite Hl. rewrite take_add_app. f_equal.
  apply decode_backlen_inv in Hb; [|done]. pose proof (backlen_size_range enclen).
  apply slice_Some_inv in Hb as [Hr ->]. rewrite drop_drop. f_equal; [lia|]. f_equal. lia.
Qed.

Lemma validate_loop_sound fuel l end_ off count total :
  validate_loop fuel l end_ off count = Some total -> end_ <= length l ->
  exists ds es, Forall2 encodes ds es /\ off <= end_ /\ take (end_ - off) (drop off l) = blocks ds /\ total = count + length ds.
Proof.
  revert off count. induction fuel as [|fuel IH]; intros off count Hv He; cbn [validate_loop] in Hv; [done|].
  case_decide.
  - destruct (decode_at l off) as [[e enclen]|] eqn:Ed; [|done]. cbn [mbind option_bind] in Hv. case_decide; [done|].
    destruct (decode_backlen l _) as [[v n]|] eqn:Eb; [|done]. case_decide as Hvn; [|done]. destruct Hvn as [-> ->]. case_decide; [done|].
    destruct (validate_round _ _ _ _ Ed ltac:(lia) Eb) as (d & Hd & Hl & Ht).
    apply IH in Hv as (ds & es & Hds & Hle & Hbl & ->); [|done].
    exists (d :: ds), (e :: es). split; [by constructor|]. split; [lia|]. split; [|simpl; lia].
    rewrite blocks_cons, <-Ht, <-Hbl. replace (end_ - off) with (enclen + backlen_size enclen + (end_ - (off + enclen + backlen_size enclen))) by lia.
    rewrite take_add_app, drop_drop. do 3 f_equal. lia.
  - case_decide; [|done]. injection Hv as <-. exists [], []. split; [done|]. split; [lia|]. split; [|simpl; lia]. subst off.
    by rewrite Nat.sub_diag.
Qed.

Lemma validate_loop_complete lp c ds es fuel k :
  pack lp c ds es -> k <= length ds -> length ds - k < fuel ->
  validate_loop fuel (buf lp) (eof_offset lp) (pos ds k) k = Some (length ds).
Proof.
  intros Hp. revert k. induction fuel as [|fuel IH]; intros k Hk Hf; [lia|]. cbn [validate_loop]. pose proof (at_eof Hp k) as Heof. case_decide.
  - destruct (lookup_lt_is_Some_2 ds k) as [d Hd]; [lia|]. destruct (data_at Hp _ _ Hd) as (e & He & _).
    destruct (read_at Hp k d e Hd He) as (-> & _ & _). cbn [mbind option_bind]. pose proof (pos_S _ _ _ Hd) as HS. rewrite Nat.add_assoc in HS.
    rewrite <-HS. pose proof (pos_lt Hp k ltac:(lia)). rewrite decide_False by lia. rewrite (backlen_at Hp _ _ Hd), decide_True by done.
    pose proof (enough_fuel Hp) as He1. pose proof (pack_size _ _ _ _ Hp) as He2. rewrite decide_False by lia. rewrite Nat.add_1_r. apply IH; lia.
  - assert (k = length ds) as -> by lia. by rewrite decide_True by (symmetry; apply (eof_pos Hp)).
Qed.

(** The header fields. *)
Lemma header_fields a b rest :
  in_unsigned 32 a -> in_unsigned 16 b ->
  exists h, slice 0 LP_HDR_SIZE (le_bytes 4 a ++ le_bytes 2 b ++ rest) = Some h /\ le_val (take 4 h) = a /\ le_val (drop 4 h) = b.
Proof.
  intros Ha Hb. exists (le_bytes 4 a ++ le_bytes 2 b). rewrite app_assoc. split.
  - rewrite slice_Some by (rewrite !length_app, !le_bytes_length; unfold LP_HDR_SIZE; lia). done.
  - rewrite take_app_length' by by rewrite le_bytes_length. rewrite drop_app_length' by by rewrite le_bytes_length.
    split; by apply le_unsigned_le_bytes.
Qed.

Lemma counts_range c n : counts c n -> in_unsigned 16 c.
Proof. unfold LP_HDR_NUMELE_UNKNOWN, in_unsigned. cbn. intros [->|[-> H]]; unfold LP_HDR_NUMELE_UNKNOWN in *; lia. Qed.

Lemma validate_sound b :
  validate b = true -> exists es, is_pack {| buf := b |} es.
Proof.
  unfold validate. case_decide as Hlen; [done|]. destruct (slice 0 LP_HDR_SIZE b) as [h|] eqn:Eh; [|done].
  case_decide as Htot; [done|]. case_decide as Hlast; [done|]. destruct (validate_loop _ b _ _ _) as [n|] eqn:Ev; [|done].
  intros Hdec%negb_true_iff%bool_decide_eq_false. apply validate_loop_sound in Ev as (ds & es & Hds & Hle & Hbl & ->); [|lia].
  apply slice_Some_inv in Eh as [Hle' Eh]. rewrite Nat.sub_0_r, drop_0 in Eh. unfold LP_HDR_SIZE in *.
  assert (length h = 6) as Hh by (subst h; rewrite length_take; lia).
  pose proof (le_bytes_le_val (take 4 h)) as L1. pose proof (le_bytes_le_val (drop 4 h)) as L2.
  rewrite length_take, Hh in L1. rewrite length_drop, Hh in L2. change (4 `min` 6) with 4 in L1. change (6 - 4) with 2 in L2.
  pose proof (le_val_range (take 4 h)) as R1. rewrite length_take, Hh in R1. change (8 * Z.of_nat (4 `min` 6))%Z with 32%Z in R1. destruct R1 as [_ R1].
  pose proof (le_val_range (drop 4 h)) as R2. rewrite length_drop, Hh in R2. change (8 * Z.of_nat (6 - 4))%Z with 16%Z in R2. destruct R2 as [R2 R2'].
  change (2 ^ 16)%Z with 65536%Z in R2'.
  exists es, (le_val (drop 4 h)), ds. split; [|done|cbn [buf]; lia|].
  - cbn [buf]. unfold blob. rewrite <-Hbl. rewrite length_take, length_drop.
    replace (LP_HDR_SIZE + (length b - 1 - 6) `min` (length b - 6) + 1) with (length b) by (unfold LP_HDR_SIZE; lia).
    rewrite <-Htot, L1, L2, app_assoc, take_drop, Eh.
    rewrite <-(take_drop 6 b) at 1. f_equal. rewrite <-(take_drop (length b - 1 - 6) (drop 6 b)) at 1. f_equal.
    rewrite drop_drop. replace (6 + (length b - 1 - 6)) with (length b - 1) by lia.
    apply last_Some in Hlast as [l' ->]. rewrite length_app. cbn [length]. replace (length l' + 1 - 1) with (length l') by lia. apply drop_app_length.
  - cbn [Nat.add] in Hdec. unfold counts. destruct (decide (le_val (drop 4 h) = LP_HDR_NUMELE_UNKNOWN)); [by left|right].
    destruct (decide (le_val (drop 4 h) = Z.of_nat (length ds))); [|naive_solver]. split; [done|]. unfold LP_HDR_NUMELE_UNKNOWN in *. lia.
Qed.

Lemma validate_complete lp es : is_pack lp es -> validate (buf lp) = true.
Proof.
  intros (c & ds & Hp). pose proof (pack_buf _ _ _ _ Hp) as Hb. pose proof (pack_size _ _ _ _ Hp) as Hsz. pose proof (pack_count _ _ _ _ Hp) as Hc.
  unfold validate. rewrite decide_False by (rewrite Hb, blob_length; unfold LP_HDR_SIZE; lia).
  assert (length (buf lp) = LP_HDR_SIZE + length (blocks ds) + 1) as Hlen by by rewrite Hb, blob_length.
  destruct (header_fields (Z.of_nat (length (buf lp))) c (blocks ds ++ [LP_EOF])) as (h & Hh & Ht & Hd); [split; [lia|done]|by apply counts_range in Hc|].
  rewrite Hb at 1. unfold blob. rewrite <-Hlen, Hh, Ht, Hd. rewrite decide_False by tauto.
  rewrite decide_False by (rewrite Hb; unfold blob; rewrite !app_assoc, last_snoc; tauto).
  change (length (buf lp) - 1) with (eof_offset lp). rewrite <-(pos_0 ds).
  pose proof (enough_fuel Hp). rewrite (validate_loop_complete _ _ _ _ _ _ Hp) by lia.
  apply negb_true_iff, bool_decide_eq_false. intros [H1 H2]. by destruct Hc as [->|[-> _]].
Qed.

(** [from_bytes] accepts a blob exactly when it is the header, one block
    per entry (encoding, data and their length backwards) and the terminator,
    with the true total and a count that is true or unknown; the listpack is
    the blob itself. *)
Theorem from_bytes_accepts (b : bytes) (lp : Listpack) :
  from_bytes b = Some lp <-> buf lp = b /\ exists es, is_pack lp es.
Proof.
  unfold from_bytes. split.
  - destruct (validate b) eqn:E; [|done]. intros [= <-]. split; [done|]. by apply validate_sound.
  - intros [<- [es He]]. rewrite (validate_complete _ _ He). by destruct lp.
Qed.

(** ** Editing *)

(** [splice] opens or closes a gap; the bytes of the gap are what they happen
    to be. *)
Lemma splice_at lp a x b ins :
  buf lp = a ++ x ++ b -> exists y, length y = ins /\ splice (length a) (length x) ins lp = Some {| buf := a ++ y ++ b |}.
Proof.
  intros Hb. unfold splice. rewrite Hb.
  assert (forall r, take (length a + ins) ((a ++ x ++ b) ++ r) = a ++ take ins (x ++ b ++ r)) as Htk.
  { intros r. by rewrite <-!app_assoc, take_add_app, take_app_length, drop_app_length. }
  assert (length (a ++ x ++ b) = length a + length x + length b) as Hl by (rewrite !length_app; lia).
  destruct (decide (length x < ins)); [|destruct (decide (ins < length x))].
  - exists (take ins (x ++ b ++ replicate (ins - length x) x00)). rewrite length_take, !length_app, length_replicate. split; [lia|].
    rewrite (copy_within_at _ (a ++ x) b (replicate (ins - length x) x00));
      [|by rewrite <-!app_assoc|by rewrite length_app|by rewrite !length_app; lia|rewrite !length_app, length_replicate; lia].
    cbn [mbind option_bind]. rewrite Htk, drop_ge by (rewrite !length_app, length_replicate; lia). by rewrite app_nil_r, <-app_assoc.
  - exists (take ins (x ++ b)). rewrite length_take, length_app. split; [lia|].
    rewrite (copy_within_at _ (a ++ x) b []); [|by rewrite app_nil_r, <-!app_assoc|by rewrite length_app|by rewrite !length_app; lia|lia].
    cbn [mbind option_bind]. specialize (Htk []). rewrite !app_nil_r in Htk. rewrite Htk. do 2 f_equal. rewrite (app_assoc a (take ins _) b), (app_assoc (a ++ _)) by done.
    apply take_app_length'. rewrite !length_app, length_take, length_app. lia.
  - exists x. split; [lia|]. destruct lp; cbn in *. by rewrite Hb.
Qed.

Definition count_after (c delta : Z) : Z :=
  if decide (c = LP_HDR_NUMELE_UNKNOWN) then c else Z.max 0 (Z.min LP_HDR_NUMELE_UNKNOWN (c + delta)).

Lemma sync_header_at h c rest delta :
  length h = 4 -> in_unsigned 16 c ->
  sync_header delta {| buf := h ++ le_bytes 2 c ++ rest |} =
  {| buf := le_bytes 4 (Z.of_nat (LP_HDR_SIZE + length rest)) ++ le_bytes 2 (count_after c delta) ++ rest |}.
Proof.
  intros Hh Hc. unfold sync_header. cbn [buf].
  rewrite (patch_at 0 _ [] _ h (le_bytes 2 c ++ rest)) by (done || (by rewrite le_bytes_length)). cbn [app].
  rewrite (le_bytes_wrapu 4), !length_app, Hh, le_bytes_length.
  assert (forall m, header_count {| buf := le_bytes 4 m ++ le_bytes 2 c ++ rest |} = c) as Hcnt.
  { intros m. unfold header_count. cbn [buf]. rewrite slice_Some by (rewrite !length_app, !le_bytes_length; lia).
    rewrite drop_app_length' by by rewrite le_bytes_length. rewrite take_app_length' by by rewrite le_bytes_length. by apply le_unsigned_le_bytes. }
  rewrite Hcnt. unfold count_after. case_decide; [done|]. f_equal.
Qed.

Lemma counts_after c n m delta : counts c n -> (Z.of_nat m = Z.of_nat n + delta)%Z -> counts (count_after c delta) m.
Proof.
  unfold counts, count_after. intros [->|[-> Hc]] Hm; [left; by rewrite decide_True|]. rewrite decide_False by lia.
  unfold LP_HDR_NUMELE_UNKNOWN in *. lia.
Qed.

Lemma blocks_split k n ds :
  blocks ds = blocks (take k ds) ++ blocks (take n (drop k ds)) ++ blocks (drop (k + n) ds).
Proof. by rewrite <-!blocks_app, <-drop_drop, !take_drop. Qed.

Lemma pos_add ds k n : pos ds (k + n) = pos ds k + length (blocks (take n (drop k ds))).
Proof. unfold pos. rewrite take_add_app, blocks_app, length_app. lia. Qed.

(** An edit: [n] entries from the [k]-th on give way to others.  The gap of
    the splice is filled and the header synchronised. *)
Lemma edit_pack lp c ds es k n new_ds new_es delta :
  pack lp c ds es -> k + n <= length ds -> Forall2 encodes new_ds new_es -> delta = (Z.of_nat (length new_ds) - Z.of_nat n)%Z ->
  (Z.of_nat (length (buf lp) + length (blocks new_ds) - (pos ds (k + n) - pos ds k)) < 2 ^ 32)%Z ->
  exists lp1, splice (pos ds k) (pos ds (k + n) - pos ds k) (length (blocks new_ds)) lp = Some lp1 /\
    exists c', pack (sync_header delta {| buf := patch (pos ds k) (blocks new_ds) (buf lp1) |}) c'
      (take k ds ++ new_ds ++ drop (k + n) ds) (take k es ++ new_es ++ drop (k + n) es).
Proof.
  intros Hp Hkn Hnew -> Hsz. rewrite pos_add in *. set (gone := take n (drop k ds)) in *.
  replace (pos ds k + length (blocks gone) - pos ds k) with (length (blocks gone)) in * by lia.
  pose proof (pack_buf _ _ _ _ Hp) as Hb. pose proof (counts_range _ _ (pack_count _ _ _ _ Hp)) as Hc16.
  set (h := le_bytes 4 (Z.of_nat (LP_HDR_SIZE + length (blocks ds) + 1)) ++ le_bytes 2 c). set (rest := blocks (drop (k + n) ds) ++ [LP_EOF]).
  assert (length (h ++ blocks (take k ds)) = pos ds k) as Hpos by (unfold h, pos, LP_HDR_SIZE; rewrite !length_app, !le_bytes_length; lia).
  assert (buf lp = (h ++ blocks (take k ds)) ++ blocks gone ++ rest) as Hcut.
  { rewrite Hb. unfold blob, h, rest. rewrite (blocks_split k n ds) at 2. fold gone. by rewrite <-!app_assoc. }
  destruct (splice_at lp _ _ _ (length (blocks new_ds)) Hcut) as (y & Hy & Hs). rewrite Hpos in Hs. eexists. split; [exact Hs|].
  cbn [buf]. rewrite (patch_at (pos ds k) _ (h ++ blocks (take k ds)) _ y rest) by done. unfold h. rewrite <-!app_assoc.
  rewrite sync_header_at by (done || by rewrite le_bytes_length).
  pose proof (f_equal length Hcut) as Hlen. rewrite !length_app, <-length_app, Hpos in Hlen.
  assert (length (blocks (take k ds) ++ blocks new_ds ++ rest) = length (blocks (take k ds ++ new_ds ++ drop (k + n) ds)) + 1) as Hlr
    by (unfold rest; rewrite !blocks_app, !length_app; cbn [length]; lia).
  exists (count_after c (Z.of_nat (length new_ds) - Z.of_nat n)). split; cbn [buf].
  - unfold blob. rewrite Hlr, <-Nat.add_assoc. do 2 f_equal. rewrite !blocks_app. unfold rest. by rewrite <-!app_assoc.
  - pose proof (pack_data _ _ _ _ Hp) as Hd. apply Forall2_app; [by apply Forall2_take|]. apply Forall2_app; [done|by apply Forall2_drop].
  - rewrite (length_app (le_bytes 4 _)), (length_app (le_bytes 2 _)), !le_bytes_length. rewrite !length_app in Hlr |- *. unfold pos, LP_HDR_SIZE in *. lia.
  - eapply counts_after; [apply (pack_count _ _ _ _ Hp)|]. rewrite !length_app, length_take, length_drop. lia.
Qed.

(** An integer entry is an [i64]. *)
Definition entry_ok (v : ListpackEntry) : Prop := match v with Int i => in_signed 64 i | Str _ => True end.

(** The bytes an entry takes. *)
Definition room (v : ListpackEntry) : nat := payload_enclen (canonicalize v) + backlen_size (payload_enclen (canonicalize v)).

(** The outcome of an edit: done, or refused and nothing changed. *)
Definition edits (r : option (Listpack * bool)) (ok : bool) (lp : Listpack) (es : list ListpackEntry) : Prop :=
  exists lp', r = Some (lp', ok) /\ if ok then is_pack lp' es else lp' = lp.

(** The same with the encodings of the entries. *)
Definition edits_pack (r : option (Listpack * bool)) (ok : bool) (lp : Listpack) (ds : list bytes) (es : list ListpackEntry) : Prop :=
  exists lp', r = Some (lp', ok) /\ if ok then exists c, pack lp' c ds es else lp' = lp.

Lemma edits_of r ok lp ds es : edits_pack r ok lp ds es -> edits r ok lp es.
Proof. intros (lp' & -> & H). exists lp'. split; [done|]. destruct ok; [|done]. destruct H as [c H]. by exists c, ds. Qed.

Definition entry_data (v : ListpackEntry) : bytes := payload_data (canonicalize v).

Lemma canonicalize_ok v : entry_ok v -> (Z.of_nat (room v) < 2 ^ 32)%Z -> payload_ok (canonicalize v).
Proof.
  unfold room. destruct v as [i|s]; cbn [canonicalize entry_ok payload_ok]; [done|]. intros _.
  destruct (string2ll s) as [i|] eqn:E; cbn [payload_ok].
  - intros _. apply string2ll_sound in E as [E _]. unfold I64_MIN, I64_MAX, in_signed in *. cbn. lia.
  - unfold payload_enclen. repeat case_decide; lia.
Qed.

(** One entry's block is what [write_payload] writes. *)
Lemma payload_block v : entry_ok v -> (Z.of_nat (room v) < 2 ^ 32)%Z ->
  Forall2 encodes [payload_data (canonicalize v)] [stored_as v] /\
  blocks [payload_data (canonicalize v)] = write_payload (canonicalize v) /\ length (blocks [payload_data (canonicalize v)]) = room v.
Proof.
  intros Hv Hr. pose proof (canonicalize_ok v Hv Hr) as Hok. split; [|split].
  - repeat constructor. unfold encodes. by rewrite payload_decodes, payload_length.
  - unfold write_payload. by rewrite <-payload_length, blocks_cons, app_nil_r.
  - by rewrite blocks_cons, app_nil_r, block_length, payload_length.
Qed.

Lemma safe_size n lp : safe_to_add n lp = true -> (Z.of_nat (length (buf lp) + n) < 2 ^ 32)%Z.
Proof. unfold safe_to_add, LP_MAX_SAFETY_SIZE. rewrite bool_decide_eq_true. change (Z.shiftl 1 30) with 1073741824%Z. lia. Qed.

Lemma insert_at_pos lp c ds es k v :
  pack lp c ds es -> k <= length ds -> entry_ok v ->
  edits_pack (insert_at_offset (pos ds k) v lp) (safe_to_add (room v) lp) lp (take k ds ++ entry_data v :: drop k ds) (take k es ++ stored_as v :: drop k es).
Proof.
  intros Hp Hk Hv. unfold insert_at_offset. fold (room v). destruct (safe_to_add (room v) lp) eqn:Hs; cbn [negb]; [|by exists lp].
  apply safe_size in Hs. destruct (payload_block v Hv ltac:(lia)) as (Hd & Hw & Hl).
  destruct (edit_pack lp c ds es k 0 _ _ 1 Hp ltac:(lia) Hd) as (lp1 & E & Hpk); [done|rewrite Nat.add_0_r, Hl; lia|].
  rewrite Nat.add_0_r, Nat.sub_diag, Hl in E. rewrite E. cbn [mbind option_bind]. rewrite Hw, Nat.add_0_r in Hpk. eexists. by split.
Qed.

Lemma inserts_pack lp c ds es v :
  pack lp c ds es -> entry_ok v ->
  edits_pack (append v lp) (safe_to_add (room v) lp) lp (ds ++ [entry_data v]) (es ++ [stored_as v]) /\
  edits_pack (prepend v lp) (safe_to_add (room v) lp) lp (entry_data v :: ds) (stored_as v :: es) /\
  forall i, edits_pack (insert i v lp) (safe_to_add (room v) lp) lp (take i ds ++ entry_data v :: drop i ds) (take i es ++ stored_as v :: drop i es).
Proof.
  intros Hp Hv. pose proof (data_length Hp) as Hl.
  assert (edits_pack (append v lp) (safe_to_add (room v) lp) lp (ds ++ [entry_data v]) (es ++ [stored_as v])) as Happ.
  { unfold append. rewrite (eof_pos Hp). pose proof (insert_at_pos lp c ds es (length ds) v Hp ltac:(lia) Hv) as H.
    by rewrite !take_ge, !drop_ge in H by lia. }
  split; [done|]. split; [by apply (insert_at_pos lp c ds es 0 v Hp); [lia|]|]. intros i. unfold insert. rewrite (len_spec Hp).
  case_decide; [by rewrite !take_ge, !drop_ge by lia|]. rewrite (seek_fwd_spec Hp), decide_True by lia. apply (insert_at_pos _ c); [done|lia|done].
Qed.

(** C25: An insertion is the insertion into the list, of the value in the form
    it is stored in; it is refused, and nothing changes, exactly when the blob
    would pass the safety limit. *)
Theorem listpack_inserts (lp : Listpack) (es : list ListpackEntry) (v : ListpackEntry) :
  is_pack lp es -> entry_ok v ->
  edits (append v lp) (safe_to_add (room v) lp) lp (es ++ [stored_as v]) /\
  edits (prepend v lp) (safe_to_add (room v) lp) lp (stored_as v :: es) /\
  forall i, edits (insert i v lp) (safe_to_add (room v) lp) lp (take i es ++ stored_as v :: drop i es).
Proof.
  intros (c & ds & Hp) Hv. destruct (inserts_pack lp c ds es v Hp Hv) as (H1 & H2 & H3). split; [by eapply edits_of|]. split; [by eapply edits_of|].
  intros i. eapply edits_of, H3.
Qed.

(** The span of an entry in the blob. *)
Lemma span_at lp c ds es k : pack lp c ds es -> k < length ds -> entry_span (pos ds k) lp = Some (pos ds (k + 1) - pos ds k).
Proof. intros Hp Hk. destruct (step_span Hp k Hk) as (s & -> & E). rewrite Nat.add_1_r, E. f_equal. lia. Qed.

Lemma drop_length_le ds n : length (drop n ds) <= length (A := bytes) ds.
Proof. rewrite length_drop. lia. Qed.

Lemma pos_mono lp c ds es k n : pack lp c ds es -> pos ds (k + n) - pos ds k <= length (buf lp).
Proof. intros Hp. pose proof (pos_le Hp (k + n)). rewrite (buf_length Hp). lia. Qed.

(** Closing the gap of [n] entries. *)
Lemma remove_at lp c ds es k n :
  pack lp c ds es -> k + n <= length ds ->
  exists lp1, splice (pos ds k) (pos ds (k + n) - pos ds k) 0 lp = Some lp1 /\
    exists c', pack (sync_header (- Z.of_nat n) lp1) c' (take k ds ++ drop (k + n) ds) (take k es ++ drop (k + n) es).
Proof.
  intros Hp Hk. pose proof (pack_size _ _ _ _ Hp). pose proof (pos_mono _ _ _ _ k n Hp).
  destruct (edit_pack lp c ds es k n [] [] (- Z.of_nat n) Hp Hk) as (lp1 & E & Hpk); [done|simpl; lia|cbn [blocks fmap list_fmap concat length]; lia|].
  exists lp1. split; [done|]. cbn [app] in Hpk. unfold patch in Hpk. destruct (decide _) in Hpk.
  - cbn [length blocks fmap list_fmap concat app] in Hpk. rewrite Nat.add_0_r, take_drop in Hpk. by destruct lp1.
  - by destruct lp1.
Qed.

Lemma replace_pack lp c ds es i v :
  pack lp c ds es -> entry_ok v -> (Z.of_nat i < 2 ^ 63)%Z ->
  exists ok, edits_pack (replace i v lp) ok lp (<[i:=entry_data v]> ds) (<[i:=stored_as v]> es) /\
    (ok = true <-> i < length es /\
       exists off span, seek (Z.of_nat i) lp = Some off /\ entry_span off lp = Some span /\
         (span < room v -> safe_to_add (room v - span) lp = true)).
Proof.
  intros Hp Hv Hi. pose proof (data_length Hp) as Hl. unfold replace. rewrite wraps_small by (done || (split; cbn; lia)).
  rewrite (seek_spec _ _ _ _ _ Hp). unfold index_of. rewrite (decide_False (P := (Z.of_nat i < 0)%Z)), Nat2Z.id by lia. cbv zeta.
  case_decide as Hin; cbn [fmap option_fmap option_map].
  2:{ exists false. split; [by exists lp|]. split; [done|]. lia. }
  rewrite (span_at _ _ _ _ _ Hp) by lia. set (span := pos ds (i + 1) - pos ds i). fold (room v).
  pose proof (pos_mono _ _ _ _ i 1 Hp) as Hspan. fold span in Hspan. pose proof (pack_size _ _ _ _ Hp) as Hsz.
  destruct (bool_decide (span < room v) && negb (safe_to_add (room v - span) lp)) eqn:Hg.
  - apply andb_true_iff in Hg as [Hgt%bool_decide_eq_true Hns%negb_true_iff]. exists false. split; [by exists lp|].
    split; [done|]. intros (_ & off & s & Ho & Hs & Hsafe). assert (off = pos ds i) as -> by congruence. rewrite (span_at _ _ _ _ _ Hp) in Hs by lia. fold span in Hs.
    assert (s = span) as -> by congruence. specialize (Hsafe Hgt). congruence.
  - assert (span < room v -> safe_to_add (room v - span) lp = true) as Hsafe.
    { intros Hgt. rewrite bool_decide_eq_true_2 in Hg by done. by destruct (safe_to_add _ lp). }
    assert (Z.of_nat (length (buf lp) + room v - span) < 2 ^ 32)%Z as Hsz'.
    { destruct (decide (span < room v)) as [Hgt|]; [|lia]. apply Hsafe, safe_size in Hgt. lia. }
    exists true. split; [|split; [intros _; split; [lia|]; exists (pos ds i), span; split; [done|]; split; [apply (span_at _ c _ es); [done|lia]|done]|done]].
    destruct (payload_block v Hv ltac:(lia)) as (Hd & Hw & Hlen).
    destruct (edit_pack lp c ds es i 1 _ _ 0 Hp ltac:(lia) Hd) as (lp1 & E & Hpk); [done|rewrite Hlen; fold span; lia|].
    fold span in E. rewrite Hlen in E. rewrite E. cbn [mbind option_bind]. eexists. split; [done|].
    rewrite Hw in Hpk. cbn [app] in Hpk. rewrite !insert_take_drop by lia. by rewrite Nat.add_1_r in Hpk.
Qed.

(** A replacement is the list update: refused when the index is out of
    range, or when the entry grows and the blob would pass the safety limit. *)
Theorem listpack_replace (lp : Listpack) (es : list ListpackEntry) (i : nat) (v : ListpackEntry) :
  is_pack lp es -> entry_ok v -> (Z.of_nat i < 2 ^ 63)%Z ->
  exists ok, edits (replace i v lp) ok lp (<[i:=stored_as v]> es) /\
    (ok = true <-> i < length es /\
       exists off span, seek (Z.of_nat i) lp = Some off /\ entry_span off lp = Some span /\
         (span < room v -> safe_to_add (room v - span) lp = true)).
Proof.
  intros (c & ds & Hp) Hv Hi. destruct (replace_pack lp c ds es i v Hp Hv Hi) as (ok & He & Hok). exists ok. split; [by eapply edits_of|done].
Qed.

Lemma delete_range_loop_spec lp c ds es n k removed :
  pack lp c ds es -> k <= length ds ->
  delete_range_loop n (pos ds k) removed lp = (pos ds (k + n `min` (length ds - k)), removed + n `min` (length ds - k)).
Proof.
  intros Hp. revert k removed. induction n as [|n IH]; intros k removed Hk; cbn [delete_range_loop]; [by rewrite !Nat.add_0_r|].
  pose proof (at_eof Hp k) as Heof. case_decide.
  - destruct (step_span Hp k ltac:(lia)) as (s & -> & E). rewrite <-E, IH by lia. f_equal; [f_equal|]; lia.
  - replace (length ds - k) with 0 by lia. by rewrite Nat.min_0_r, !Nat.add_0_r.
Qed.

Lemma delete_pack lp c ds es i :
  pack lp c ds es ->
  match index_of (length es) i with
  | Some k => exists lp' c', Listpack.delete i lp = Some (lp', true) /\ pack lp' c' (take k ds ++ drop (k + 1) ds) (take k es ++ drop (k + 1) es)
  | None => Listpack.delete i lp = Some (lp, false)
  end.
Proof.
  intros Hp. pose proof (data_length Hp) as Hl. unfold Listpack.delete. rewrite (seek_spec _ _ _ _ _ Hp), Hl.
  destruct (index_of (length ds) i) as [k|] eqn:Ei; [|done].
  apply index_of_lt in Ei. cbn [fmap option_fmap option_map]. rewrite (span_at _ _ _ _ _ Hp) by lia.
  destruct (remove_at _ _ _ _ k 1 Hp) as (lp1 & -> & c' & Hpk); [lia|]. cbn [mbind option_bind]. eauto.
Qed.

Lemma delete_range_pack lp c ds es i n :
  pack lp c ds es ->
  exists lp' c', delete_range i n lp = Some (lp', n `min` (length es - i)) /\ pack lp' c' (take i ds ++ drop (i + n) ds) (take i es ++ drop (i + n) es).
Proof.
  intros Hp. pose proof (data_length Hp) as Hl. unfold delete_range. case_decide as Hn.
  { subst n. exists lp, c. split; [done|]. by rewrite Nat.add_0_r, !take_drop. }
  rewrite (seek_fwd_spec Hp). case_decide.
  2:{ exists lp, c. split; [by replace (length es - i) with 0 by lia; rewrite Nat.min_0_r|]. by rewrite !take_ge, !drop_ge, !app_nil_r by lia. }
  rewrite (delete_range_loop_spec _ _ _ _ _ _ _ Hp) by lia. rewrite Hl. set (m := n `min` (length ds - i)) in *.
  rewrite decide_False by lia. destruct (remove_at _ _ _ _ i m Hp) as (lp1 & -> & c' & Hpk); [lia|]. cbn [mbind option_bind]. eexists _, c'. split; [done|].
  destruct (decide (n <= length ds - i)); [by replace n with m by lia|].
  rewrite !(drop_ge _ (i + m)) in Hpk by lia. by rewrite !(drop_ge _ (i + n)) by lia.
Qed.

(** The tail of the blob from the [k]-th entry on. *)
Lemma delete_tail_pack lp c ds es k :
  pack lp c ds es -> k <= length es ->
  exists lp' c', delete_byte_range (pos ds k) (eof_offset lp) (length es - k) lp = Some lp' /\ pack lp' c' (take k ds) (take k es).
Proof.
  intros Hp Hk. pose proof (data_length Hp) as Hl. unfold delete_byte_range. pose proof (at_eof Hp k) as Heof. case_decide.
  - exists lp, c. split; [done|]. by rewrite !take_ge by lia.
  - destruct (remove_at _ _ _ _ k (length ds - k) Hp) as (lp1 & E & c' & Hpk); [lia|]. rewrite (eof_pos Hp).
    replace (k + (length ds - k)) with (length ds) in * by lia. rewrite E, Hl. cbn [mbind option_bind]. eexists _, c'. split; [done|].
    by rewrite !drop_ge, !app_nil_r in Hpk by lia.
Qed.

(** C26: Deletions are the deletions from the list: one entry by an index from
    either end, or up to [count] entries, with the number removed; neither
    panics, and out of range nothing changes. *)
Theorem listpack_deletes (lp : Listpack) (es : list ListpackEntry) :
  is_pack lp es ->
  (forall i, match index_of (length es) i with
             | Some k => exists lp', Listpack.delete i lp = Some (lp', true) /\ is_pack lp' (take k es ++ drop (k + 1) es)
             | None => Listpack.delete i lp = Some (lp, false)
             end) /\
  forall i n, exists lp', delete_range i n lp = Some (lp', n `min` (length es - i)) /\ is_pack lp' (take i es ++ drop (i + n) es).
Proof.
  intros (c & ds & Hp). split.
  - intros i. pose proof (delete_pack lp c ds es i Hp) as H. destruct (index_of (length es) i); [|done].
    destruct H as (lp' & c' & E & H). exists lp'. split; [done|]. by eexists _, _.
  - intros i n. destruct (delete_range_pack lp c ds es i n Hp) as (lp' & c' & E & H). exists lp'. split; [done|]. by eexists _, _.
Qed.

Lemma new_pack : pack Listpack.new 0 [] [].
Proof. split; [reflexivity|constructor|vm_compute; done|by right]. Qed.

(** [clear] leaves the count in the header: a listpack whose count was known
    has no entries afterwards and still says it has as many as before, and its
    blob is refused. *)
Theorem clear_stale_count (lp : Listpack) (es : list ListpackEntry) :
  is_pack lp es -> header_count lp <> LP_HDR_NUMELE_UNKNOWN -> es <> [] ->
  iter (clear lp) = [] /\ len (clear lp) = length es /\ from_bytes (buf (clear lp)) = None.
Proof.
  intros (c & ds & Hp) Hh Hes. rewrite (header_count_spec Hp) in Hh. pose proof (data_length Hp) as Hl.
  destruct (pack_count _ _ _ _ Hp) as [?|[Hc Hc']]; [done|]. pose proof (counts_range _ _ (pack_count _ _ _ _ Hp)) as Hr.
  assert (clear lp = {| buf := le_bytes 4 7 ++ le_bytes 2 c ++ [LP_EOF] |}) as ->.
  { unfold clear. rewrite (pack_buf _ _ _ _ Hp). unfold blob. rewrite app_assoc.
    rewrite take_app_length' by by rewrite length_app, !le_bytes_length. rewrite <-app_assoc.
    rewrite sync_header_at by (done || by rewrite le_bytes_length). unfold count_after. rewrite decide_False by done.
    change (Z.of_nat (LP_HDR_SIZE + length [LP_EOF])) with 7%Z. unfold LP_HDR_NUMELE_UNKNOWN in *. by rewrite Z.add_0_r, Z.min_r, Z.max_r by lia. }
  split_and!.
  - reflexivity.
  - unfold len, header_count. cbn [buf]. rewrite slice_Some by (rewrite !length_app, !le_bytes_length; cbn [length]; lia).
    rewrite drop_app_length' by by rewrite le_bytes_length. rewrite take_app_length' by by rewrite le_bytes_length.
    rewrite le_unsigned_le_bytes by done. rewrite decide_True by done. lia.
  - unfold from_bytes, validate. cbn [buf]. destruct (header_fields 7 c [LP_EOF]) as (h & Hh' & Ht & Hd); [done|done|].
    rewrite Hh', Ht, Hd. rewrite (decide_False (P := (7 <> _)%Z)) by (rewrite !length_app, !le_bytes_length; cbn [length]; lia).
    rewrite !length_app, !le_bytes_length, decide_False by (unfold LP_HDR_SIZE; cbn [length]; lia). rewrite decide_False by (rewrite !app_assoc, last_snoc; tauto).
    assert (es = [] \/ c <> 0%Z) as [?|Hc0] by (destruct es; [by left|right; cbn in Hl; lia]); [done|].
    cbn [length Nat.add Nat.sub validate_loop]. rewrite decide_False, decide_True by (unfold LP_HDR_SIZE; lia).
    rewrite bool_decide_eq_true_2; [done|]. unfold LP_HDR_NUMELE_UNKNOWN in *. cbn. lia.
Qed.

Lemma append_all_pack lp c ds es other c' ds' es' :
  pack lp c ds es -> pack other c' ds' es' ->
  edits_pack (append_all other lp) (safe_to_add (length (buf other) - 7) lp) lp (ds ++ ds') (es ++ es').
Proof.
  intros Hp Hp'. unfold append_all. change (LP_HDR_SIZE + 1) with 7.
  destruct (safe_to_add _ lp) eqn:Hs; cbn [negb]; [|by exists lp]. apply safe_size in Hs.
  assert (length (buf other) - 7 = length (blocks ds')) as Hx by (rewrite (pack_buf _ _ _ _ Hp'), blob_length; unfold LP_HDR_SIZE; lia).
  rewrite Hx in *. pose proof (data_length Hp) as Hl. pose proof (data_length Hp') as Hl'.
  destruct (edit_pack lp c ds es (length ds) 0 ds' es' (Z.of_nat (length ds')) Hp ltac:(lia) (pack_data _ _ _ _ Hp')) as (lp1 & E & Hpk);
    [lia|rewrite Nat.add_0_r; lia|].
  rewrite Nat.add_0_r, Nat.sub_diag in *. rewrite (eof_pos Hp), E. cbn [mbind option_bind].
  assert (slice LP_HDR_SIZE (LP_HDR_SIZE + length (blocks ds')) (buf other) = Some (blocks ds')) as ->.
  { rewrite (pack_buf _ _ _ _ Hp'), slice_Some by (rewrite blob_length; lia). unfold blob. rewrite app_assoc. f_equal.
    rewrite drop_app_length' by by rewrite length_app, !le_bytes_length. apply take_app_length'. unfold LP_HDR_SIZE. lia. }
  eexists. split; [done|]. rewrite !take_ge, !drop_ge, !app_nil_r in Hpk by lia. by rewrite (len_spec Hp'), Hl'.
Qed.

(** [append_all] appends the other listpack's entries to the list, or
    changes nothing when the blob would pass the safety limit. *)
Theorem listpack_append_all (lp other : Listpack) (es es' : list ListpackEntry) :
  is_pack lp es -> is_pack other es' ->
  edits (append_all other lp) (safe_to_add (length (buf other) - 7) lp) lp (es ++ es').
Proof.
  intros (c & ds & Hp) (c' & ds' & Hp'). eapply edits_of, append_all_pack; done.
Qed.

(** An entry is decoded to the value it was written from, wherever it
    stands, and the length behind it, read from its last byte, leads back to
    its start; the stored form equals the value it stands for. *)
Theorem listpack_ladder (v : ListpackEntry) (pre post : bytes) :
  entry_ok v -> (Z.of_nat (room v) < 2 ^ 32)%Z ->
  let l := pre ++ write_payload (canonicalize v) ++ post in
  let n := payload_enclen (canonicalize v) in
  length (write_payload (canonicalize v)) = room v /\
  decode_at l (length pre) = Some (stored_as v, n) /\ enclen_at l (length pre) = Some n /\
  decode_backlen l (length pre + room v - 1) = Some (n, backlen_size n) /\ entry_eq v (stored_as v) = true.
Proof.
  intros Hv Hr. cbv zeta. destruct (payload_block v Hv Hr) as (Hd & Hw & Hl). inversion Hd as [|? ? ? ? He _]; subst.
  rewrite blocks_cons, app_nil_r in Hw, Hl. rewrite <-Hw. destruct (decode_block _ _ pre post He) as [D1 D2]. rewrite payload_length in D1, D2.
  split_and!; [done|done|done| |].
  - unfold block. rewrite payload_length. pose proof (decode_backlen_at (pre ++ payload_data (canonicalize v)) (payload_enclen (canonicalize v)) post) as D.
    rewrite length_app, payload_length, <-!app_assoc in D. unfold room in *. rewrite <-D by lia. rewrite <-!app_assoc. f_equal. lia.
  - unfold stored_as. destruct v as [i|s]; cbn [canonicalize entry_of entry_eq]; [by apply bool_decide_eq_true|].
    destruct (string2ll s) as [i|] eqn:E; cbn [entry_of]; by apply bool_decide_eq_true.
Qed.

(** ** Witnesses *)

Definition demo_pack : Listpack := {| buf := blob 2 [payload_data (PInt (-300)); payload_data (PStr (bs "ab"))] |}.

Lemma demo_is_pack : is_pack demo_pack [Int (-300); Str (bs "ab")].
Proof.
  exists 2%Z, [payload_data (PInt (-300)); payload_data (PStr (bs "ab"))].
  split; [done|repeat constructor; vm_compute; done|vm_compute; done|right; by vm_compute].
Qed.

Lemma listpack_reads_witness : is_pack demo_pack [Int (-300); Str (bs "ab")] /\ get (-1) demo_pack = Some (Str (bs "ab")).
Proof.
  split; [exact demo_is_pack|]. destruct (listpack_reads _ _ demo_is_pack) as (_ & _ & _ & _ & Hg & _). rewrite Hg. vm_compute. reflexivity.
Defined.

Lemma listpack_inserts_witness : exists lp', insert 1 (Str (bs "77")) demo_pack = Some (lp', true) /\ is_pack lp' [Int (-300); Int 77; Str (bs "ab")].
Proof.
  destruct (listpack_inserts _ _ (Str (bs "77")) demo_is_pack I) as (_ & _ & Hi). destruct (Hi 1) as (lp' & E & Hp).
  exists lp'. assert (safe_to_add (room (Str (bs "77"))) demo_pack = true) as Hs by (vm_compute; reflexivity). rewrite Hs in E, Hp. exact (conj E Hp).
Defined.

Lemma listpack_replace_witness : exists lp', replace 0 (Int 4) demo_pack = Some (lp', true) /\ is_pack lp' [Int 4; Str (bs "ab")].
Proof.
  destruct (listpack_replace demo_pack _ 0 (Int 4) demo_is_pack) as (ok & (lp' & E & Hp) & Hok); [split; done|done|].
  destruct ok; [exists lp'; exact (conj E Hp)|exfalso]. vm_compute in E. discriminate E.
Defined.

Lemma listpack_deletes_witness : exists lp', Listpack.delete (-2) demo_pack = Some (lp', true) /\ is_pack lp' [Str (bs "ab")].
Proof.
  destruct (listpack_deletes _ _ demo_is_pack) as [Hd _]. exact (Hd (-2)%Z).
Defined.

Lemma clear_stale_count_witness : len (clear demo_pack) = 2 /\ iter (clear demo_pack) = [].
Proof.
  destruct (clear_stale_count _ _ demo_is_pack) as (Hi & Hl & _); [vm_compute; done|done|]. exact (conj Hl Hi).
Defined.

Lemma listpack_append_all_witness :
  exists lp', append_all demo_pack demo_pack = Some (lp', true) /\ is_pack lp' [Int (-300); Str (bs "ab"); Int (-300); Str (bs "ab")].
Proof.
  destruct (listpack_append_all _ _ _ _ demo_is_pack demo_is_pack) as (lp' & E & Hp).
  exists lp'. assert (safe_to_add (length (buf demo_pack) - 7) demo_pack = true) as Hs by (vm_compute; reflexivity). rewrite Hs in E, Hp. exact (conj E Hp).
Defined.

Lemma listpack_ladder_witness : entry_ok (Int (-70000)) /\ decode_at (write_payload (PInt (-70000))) 0 = Some (Int (-70000), 4).
Proof.
  assert (entry_ok (Int (-70000))) as Hok by (split; vm_compute; done). split; [exact Hok|].
  destruct (listpack_ladder (Int (-70000)) [] [] Hok) as (_ & D & _); [vm_compute; done|]. rewrite app_nil_r in D. exact D.
Defined.
