(* ===== verification/Skiplist.v ===== *)
(** * Skip list: the ordered index of a sorted set ([src/encoding/skiplist.rs])

    The arena of the source, index for index: a node is looked up by its [u32]
    index, and an index out of bounds, a panic of the source, is [None].  The
    free list is a stack, its top first.  Inner loops have the number of
    elements as fuel.  The draws of one insertion are an argument. *)
From S2P Require Import Prelude Dtoa.
From Stdlib Require Import Floats.SpecFloat.
Open Scope nat_scope.

Definition MAX_LEVEL : nat := 32.
Definition P : f64 := SFdiv F64_PREC F64_EMAX (f64_of_i64 1) (f64_of_i64 4).
Definition NIL : N := 4294967295.
Definition HEAD : N := 0.
(** [(P * (u32::MAX as f64)) as u32] *)
Definition LEVEL_THRESHOLD : Z := Z.max 0 (Z.min 4294967295 (i64_of_f64 (SFmul F64_PREC F64_EMAX P (f64_of_i64 4294967295)))).

Record Level := { forward : N; span : Z }.
Definition NIL_LEVEL : Level := {| forward := NIL; span := 0 |}.

Record Node := { member : bytes; score : f64; backward : N; levels : list Level }.

(** ** Comparisons *)

(** [Ord for [u8]]: byte by byte, then length. *)
Fixpoint cmp (a b : bytes) : comparison :=
  match a, b with
  | [], [] => Eq
  | [], _ :: _ => Lt
  | _ :: _, [] => Gt
  | x :: a, y :: b => match (b2z x ?= b2z y)%Z with Eq => cmp a b | c => c end
  end.
Definition bytes_lt (a b : bytes) : bool := match cmp a b with Lt => true | _ => false end.
Definition bytes_le (a b : bytes) : bool := match cmp a b with Gt => false | _ => true end.

Record ScoreBound := { value : f64; exclusive : bool }.
Definition incl (v : f64) : ScoreBound := {| value := v; exclusive := false |}.
Definition excl (v : f64) : ScoreBound := {| value := v; exclusive := true |}.

Module ScoreRange.
Record t := { min : ScoreBound; max : ScoreBound }.
Definition all : t := {| min := incl (S754_infinity true); max := incl (S754_infinity false) |}.
Definition is_empty (r : t) : bool :=
  if SFltb (value (max r)) (value (min r)) then true
  else SFeqb (value (min r)) (value (max r)) && (exclusive (min r) || exclusive (max r)).
Definition gte_min (r : t) (v : f64) : bool := if exclusive (min r) then SFltb (value (min r)) v else SFleb (value (min r)) v.
Definition lte_max (r : t) (v : f64) : bool := if exclusive (max r) then SFltb v (value (max r)) else SFleb v (value (max r)).
Definition contains (r : t) (v : f64) : bool := gte_min r v && lte_max r v.
End ScoreRange.

Inductive LexBound := NegInf | PosInf | Incl (b : bytes) | Excl (b : bytes).

Module LexRange.
Record t := { min : LexBound; max : LexBound }.
Definition all : t := {| min := NegInf; max := PosInf |}.
Definition is_excl (b : LexBound) : bool := match b with Excl _ => true | _ => false end.
Definition is_empty (r : t) : bool :=
  match min r, max r with
  | PosInf, _ | _, NegInf => true
  | NegInf, _ | _, PosInf => false
  | (Incl a | Excl a), (Incl b | Excl b) =>
      match cmp a b with Gt => true | Eq => is_excl (min r) || is_excl (max r) | Lt => false end
  end.
Definition gte_min (r : t) (m : bytes) : bool :=
  match min r with NegInf => true | PosInf => false | Incl b => bytes_le b m | Excl b => bytes_lt b m end.
Definition lte_max (r : t) (m : bytes) : bool :=
  match max r with PosInf => true | NegInf => false | Incl b => bytes_le m b | Excl b => bytes_lt m b end.
Definition contains (r : t) (m : bytes) : bool := gte_min r m && lte_max r m.
End LexRange.

(** ** Levels *)

(** The draws are [fastrand::u32], in order. *)
Fixpoint random_level_loop (fuel : nat) (draws : nat -> Z) (i level : nat) : nat :=
  match fuel with
  | O => level
  | S fuel =>
      if decide (draws i < LEVEL_THRESHOLD)%Z then
        let level := level + 1 in if decide (MAX_LEVEL <= level) then MAX_LEVEL else random_level_loop fuel draws (i + 1) level
      else level
  end.
Definition random_level (draws : nat -> Z) : nat := random_level_loop MAX_LEVEL draws 0 1.

(** ** The arena *)

(** [len] is the field [length]. *)
Record Skiplist := { nodes : list Node; free : list N; tail : N; level : nat; len : nat }.

Definition new : Skiplist :=
  {| nodes := [{| member := []; score := S754_zero false; backward := NIL; levels := replicate MAX_LEVEL NIL_LEVEL |}];
     free := []; tail := NIL; level := 1; len := 0 |}.

Definition is_empty (sl : Skiplist) : bool := bool_decide (len sl = 0).

Definition set_nodes (ns : list Node) (sl : Skiplist) : Skiplist :=
  {| nodes := ns; free := free sl; tail := tail sl; level := level sl; len := len sl |}.
Definition set_free (f : list N) (sl : Skiplist) : Skiplist :=
  {| nodes := nodes sl; free := f; tail := tail sl; level := level sl; len := len sl |}.
Definition set_tail (t : N) (sl : Skiplist) : Skiplist :=
  {| nodes := nodes sl; free := free sl; tail := t; level := level sl; len := len sl |}.
Definition set_level (l : nat) (sl : Skiplist) : Skiplist :=
  {| nodes := nodes sl; free := free sl; tail := tail sl; level := l; len := len sl |}.
Definition set_len (n : nat) (sl : Skiplist) : Skiplist :=
  {| nodes := nodes sl; free := free sl; tail := tail sl; level := level sl; len := n |}.

Definition node (i : N) (sl : Skiplist) : option Node := nodes sl !! N.to_nat i.
(** Assignment to [self.nodes[i]], or to one field of it. *)
Definition upd_node (i : N) (f : Node -> Node) (sl : Skiplist) : option Skiplist :=
  n ← node i sl; Some (set_nodes (<[N.to_nat i:=f n]> (nodes sl)) sl).
Definition set_backward (b : N) (n : Node) : Node :=
  {| member := member n; score := score n; backward := b; levels := levels n |}.
Definition set_levels (ls : list Level) (n : Node) : Node :=
  {| member := member n; score := score n; backward := backward n; levels := ls |}.
Definition set_score (s : f64) (n : Node) : Node :=
  {| member := member n; score := s; backward := backward n; levels := levels n |}.

Definition lvl (i : N) (l : nat) (sl : Skiplist) : option Level := n ← node i sl; levels n !! l.
Definition set_lvl (i : N) (l : nat) (v : Level) (sl : Skiplist) : option Skiplist :=
  _ ← lvl i l sl; upd_node i (fun n => set_levels (<[l:=v]> (levels n)) n) sl.

Definition key_lt (s : f64) (m : bytes) (s' : f64) (m' : bytes) : bool := SFltb s s' || (SFeqb s s' && bytes_lt m m').
Definition node_lt (i : N) (s : f64) (m : bytes) (sl : Skiplist) : option bool :=
  n ← node i sl; Some (key_lt (score n) (member n) s m).

Definition alloc (m : bytes) (s : f64) (lv : nat) (sl : Skiplist) : option (Skiplist * N) :=
  let n := {| member := m; score := s; backward := NIL; levels := replicate lv NIL_LEVEL |} in
  match free sl with
  | i :: f => sl ← upd_node i (fun _ => n) (set_free f sl); Some (sl, i)
  | [] => let i := Z.to_N (wrapu 32 (Z.of_nat (length (nodes sl)))) in Some (set_nodes (nodes sl ++ [n]) sl, i)
  end.

Definition release (i : N) (sl : Skiplist) : option Skiplist :=
  sl ← upd_node i (fun _ => {| member := []; score := S754_zero false; backward := NIL; levels := [] |}) sl;
  Some (set_free (i :: free sl) sl).

(** ** Walking one level

    The inner loop every operation has: follow the forward links of level [i]
    while [go] holds of the next node and of the rank its span leads to. *)
Fixpoint walk_loop (fuel : nat) (go : N -> Z -> option bool) (i : nat) (x : N) (rank : Z) (sl : Skiplist) : option (N * Z) :=
  match fuel with
  | O => None
  | S fuel =>
      l ← lvl x i sl;
      if decide (forward l = NIL) then Some (x, rank)
      else
        b ← go (forward l) (rank + span l)%Z;
        if (b : bool) then walk_loop fuel go i (forward l) (rank + span l)%Z sl else Some (x, rank)
  end.
Definition walk (go : N -> Z -> option bool) (i : nat) (x : N) (rank : Z) (sl : Skiplist) : option (N * Z) :=
  walk_loop (S (len sl)) go i x rank sl.

(** Assignment to [update[i]] or [rank[i]]. *)
Definition put {A} (i : nat) (v : A) (l : list A) : option (list A) := if decide (i < length l) then Some (<[i:=v]> l) else None.

(** ** Insertion *)

(** The descent, [n] levels from the top: fills [update] and [rank]. *)
Fixpoint insert_descent (n : nat) (s : f64) (m : bytes) (x : N) (update : list N) (ranks : list Z) (sl : Skiplist) : option (list N * list Z) :=
  match n with
  | O => Some (update, ranks)
  | S i =>
      r ← (if decide (i + 1 = level sl) then Some 0%Z else ranks !! (i + 1));
      '(x, r) ← walk (fun f _ => node_lt f s m sl) i x r sl;
      ranks ← put i r ranks;
      update ← put i x update;
      insert_descent i s m x update ranks sl
  end.

(** The levels the list did not have: [n] of them from [i] on. *)
Fixpoint raise_levels (n i : nat) (update : list N) (ranks : list Z) (sl : Skiplist) : option (list N * list Z * Skiplist) :=
  match n with
  | O => Some (update, ranks, sl)
  | S n =>
      ranks ← put i 0%Z ranks;
      update ← put i HEAD update;
      sl ← set_lvl HEAD i {| forward := NIL; span := wrapu 32 (Z.of_nat (len sl)) |} sl;
      raise_levels n (i + 1) update ranks sl
  end.

(** Splices the node in, levels [i] to [i + n - 1]. *)
Fixpoint link_levels (n i : nat) (x : N) (update : list N) (ranks : list Z) (sl : Skiplist) : option Skiplist :=
  match n with
  | O => Some sl
  | S n =>
      up ← update !! i;
      prev ← lvl up i sl;
      r0 ← ranks !! 0; r ← ranks !! i;
      let step := wrapu 32 (r0 - r) in
      sl ← set_lvl x i {| forward := forward prev; span := wrapu 32 (span prev - step) |} sl;
      sl ← set_lvl up i {| forward := x; span := wrapu 32 (step + 1) |} sl;
      link_levels n (i + 1) x update ranks sl
  end.

(** One more element under the links above the node. *)
Fixpoint widen_levels (n i : nat) (update : list N) (sl : Skiplist) : option Skiplist :=
  match n with
  | O => Some sl
  | S n =>
      up ← update !! i;
      l ← lvl up i sl;
      sl ← set_lvl up i {| forward := forward l; span := wrapu 32 (span l + 1) |} sl;
      widen_levels n (i + 1) update sl
  end.

(** The second half of [insert]: the node takes its place. *)
Definition splice_in (m : bytes) (s : f64) (new_level : nat) (update : list N) (ranks : list Z) (sl : Skiplist) : option Skiplist :=
  '(sl, x) ← alloc m s new_level sl;
  sl ← link_levels new_level 0 x update ranks sl;
  sl ← widen_levels (level sl - new_level) new_level update sl;
  u0 ← update !! 0;
  let back := if decide (u0 = HEAD) then NIL else u0 in
  sl ← upd_node x (set_backward back) sl;
  l0 ← lvl x 0 sl;
  sl ← (if decide (forward l0 <> NIL) then upd_node (forward l0) (set_backward x) sl else Some (set_tail x sl));
  Some (set_len (len sl + 1) sl).

Definition insert (draws : nat -> Z) (s : f64) (m : bytes) (sl : Skiplist) : option Skiplist :=
  '(update, ranks) ← insert_descent (level sl) s m HEAD (replicate MAX_LEVEL HEAD) (replicate MAX_LEVEL 0%Z) sl;
  let new_level := random_level draws in
  '(update, ranks, sl) ← (if decide (level sl < new_level) then
      '(update, ranks, sl') ← raise_levels (new_level - level sl) (level sl) update ranks sl;
      Some (update, ranks, set_level new_level sl')
    else Some (update, ranks, sl));
  splice_in m s new_level update ranks sl.

(** ** Deletion *)

Fixpoint update_descent (n : nat) (s : f64) (m : bytes) (x : N) (update : list N) (sl : Skiplist) : option (N * list N) :=
  match n with
  | O => Some (x, update)
  | S i =>
      '(x, _) ← walk (fun f _ => node_lt f s m sl) i x 0 sl;
      update ← put i x update;
      update_descent i s m x update sl
  end.

(** The index when found, and [update] as it is left in either case. *)
Definition find_with_update (s : f64) (m : bytes) (sl : Skiplist) : option (option N * list N) :=
  '(x, update) ← update_descent (level sl) s m HEAD (replicate MAX_LEVEL HEAD) sl;
  cand ← forward <$> lvl x 0 sl;
  if decide (cand <> NIL) then
    n ← node cand sl;
    if SFeqb (score n) s && bool_decide (member n = m) then Some (Some cand, update) else Some (None, update)
  else Some (None, update).

Fixpoint unlink_levels (n i : nat) (x : N) (update : list N) (sl : Skiplist) : option Skiplist :=
  match n with
  | O => Some sl
  | S n =>
      up ← update !! i;
      ul ← lvl up i sl;
      ul' ← (if decide (forward ul = x) then
               xl ← lvl x i sl;
               Some {| forward := forward xl; span := wrapu 32 (wrapu 32 (span ul + span xl) - 1) |}
             else Some {| forward := forward ul; span := wrapu 32 (span ul - 1) |});
      sl ← set_lvl up i ul' sl;
      unlink_levels n (i + 1) x update sl
  end.

(** The number of levels after those that became empty are given up. *)
Fixpoint shrink_level (level : nat) (sl : Skiplist) : option nat :=
  match level with
  | S (S _ as level') =>
      l ← lvl HEAD level' sl;
      if decide (forward l = NIL) then shrink_level level' sl else Some level
  | _ => Some level
  end.

Definition unlink (x : N) (update : list N) (sl : Skiplist) : option Skiplist :=
  sl ← unlink_levels (level sl) 0 x update sl;
  fwd ← forward <$> lvl x 0 sl;
  back ← backward <$> node x sl;
  sl ← (if decide (fwd <> NIL) then upd_node fwd (set_backward back) sl else Some (set_tail back sl));
  lv ← shrink_level (level sl) sl;
  Some (set_len (len sl - 1) (set_level lv sl)).

(** Finding, unlinking and releasing: the end of every deletion. *)
Definition remove_found (x : N) (update : list N) (sl : Skiplist) : option Skiplist :=
  sl ← unlink x update sl; release x sl.

Definition delete (s : f64) (m : bytes) (sl : Skiplist) : option (Skiplist * bool) :=
  '(o, update) ← find_with_update s m sl;
  match o with
  | None => Some (sl, false)
  | Some x => sl ← remove_found x update sl; Some (sl, true)
  end.

Definition update_score (draws : nat -> Z) (cur_score : f64) (m : bytes) (new_score : f64) (sl : Skiplist) : option (Skiplist * bool) :=
  '(o, update) ← find_with_update cur_score m sl;
  match o with
  | None => Some (sl, false)
  | Some x =>
      back ← backward <$> node x sl;
      fwd ← forward <$> lvl x 0 sl;
      ok_left ← (if decide (back = NIL) then Some true else b ← node back sl; Some (key_lt (score b) (member b) new_score m));
      ok_right ← (if decide (fwd = NIL) then Some true else f ← node fwd sl; Some (key_lt new_score m (score f) (member f)));
      if ok_left && ok_right then sl ← upd_node x (set_score new_score) sl; Some (sl, true)
      else
        mem ← member <$> node x sl;
        sl ← remove_found x update sl;
        sl ← insert draws new_score mem sl; Some (sl, true)
  end.

Definition clear (sl : Skiplist) : option Skiplist :=
  h ← nodes sl !! 0;
  Some {| nodes := [set_levels (replicate MAX_LEVEL NIL_LEVEL) h]; free := []; tail := NIL; level := 1; len := 0 |}.

(** ** Ranks *)

Definition node_le (i : N) (s : f64) (m : bytes) (sl : Skiplist) : option bool :=
  n ← node i sl; Some (SFltb (score n) s || (SFeqb (score n) s && bytes_le (member n) m)).

Fixpoint rank_descent (n : nat) (s : f64) (m : bytes) (x : N) (rank : Z) (sl : Skiplist) : option (option Z) :=
  match n with
  | O => Some None
  | S i =>
      '(x, rank) ← walk (fun f _ => node_le f s m sl) i x rank sl;
      found ← (if decide (x <> HEAD) then nd ← node x sl; Some (bool_decide (member nd = m) && SFeqb (score nd) s) else Some false);
      if (found : bool) then Some (Some (rank - 1)%Z) else rank_descent i s m x rank sl
  end.
Definition rank_of (s : f64) (m : bytes) (sl : Skiplist) : option (option Z) := rank_descent (level sl) s m HEAD 0 sl.

Fixpoint by_rank_descent (n : nat) (target : Z) (x : N) (traversed : Z) (sl : Skiplist) : option (option N) :=
  match n with
  | O => Some None
  | S i =>
      '(x, traversed) ← walk (fun _ t => Some (bool_decide (t <= target)%Z)) i x traversed sl;
      if decide (traversed = target /\ x <> HEAD) then Some (Some x) else by_rank_descent i target x traversed sl
  end.
Definition node_by_rank (rank : nat) (sl : Skiplist) : option (option N) :=
  if decide (len sl <= rank) then Some None else by_rank_descent (level sl) (Z.of_nat rank + 1) HEAD 0 sl.

Definition item (i : N) (sl : Skiplist) : option (bytes * f64) := n ← node i sl; Some (member n, score n).

Definition by_rank (rank : nat) (sl : Skiplist) : option (option (bytes * f64)) :=
  o ← node_by_rank rank sl;
  match o with None => Some None | Some i => Some <$> item i sl end.

Definition rank_of_node (i : N) (sl : Skiplist) : option (option Z) :=
  n ← node i sl; rank_of (score n) (member n) sl.

(** ** Ranges

    The four descents of the source differ in the test only. *)
Fixpoint descend (n : nat) (go : N -> option bool) (x : N) (sl : Skiplist) : option N :=
  match n with O => Some x | S i => '(x, _) ← walk (fun f _ => go f) i x 0 sl; descend i go x sl end.

(** A range of one of the two kinds, as the descents and the checks use it. *)
Record Bounds := { empty : bool; gte_min : Node -> bool; lte_max : Node -> bool }.
Definition by_score (r : ScoreRange.t) : Bounds :=
  {| empty := ScoreRange.is_empty r; gte_min := fun n => ScoreRange.gte_min r (score n); lte_max := fun n => ScoreRange.lte_max r (score n) |}.
Definition by_lex (r : LexRange.t) : Bounds :=
  {| empty := LexRange.is_empty r; gte_min := fun n => LexRange.gte_min r (member n); lte_max := fun n => LexRange.lte_max r (member n) |}.

Definition in_range (b : Bounds) (sl : Skiplist) : option bool :=
  if empty b || bool_decide (len sl = 0) then Some false
  else if decide (tail sl = NIL) then Some false
  else
    last ← node (tail sl) sl;
    if negb (gte_min b last) then Some false
    else
      first ← forward <$> lvl HEAD 0 sl;
      if decide (first = NIL) then Some false else n ← node first sl; Some (lte_max b n).

Definition first_node (b : Bounds) (sl : Skiplist) : option (option N) :=
  ok ← in_range b sl;
  if negb ok then Some None
  else
    x ← descend (level sl) (fun f => n ← node f sl; Some (negb (gte_min b n))) HEAD sl;
    x ← forward <$> lvl x 0 sl;
    if decide (x = NIL) then Some None else n ← node x sl; Some (if lte_max b n then Some x else None).

Definition last_node (b : Bounds) (sl : Skiplist) : option (option N) :=
  ok ← in_range b sl;
  if negb ok then Some None
  else
    x ← descend (level sl) (fun f => n ← node f sl; Some (lte_max b n)) HEAD sl;
    if decide (x = HEAD) then Some None else n ← node x sl; Some (if gte_min b n then Some x else None).

Definition rank_of_found (o : option N) (sl : Skiplist) : option (option Z) :=
  match o with None => Some None | Some i => rank_of_node i sl end.

Definition is_in_range (r : ScoreRange.t) := in_range (by_score r).
Definition first_node_in_range (r : ScoreRange.t) := first_node (by_score r).
Definition last_node_in_range (r : ScoreRange.t) := last_node (by_score r).
Definition first_in_range (r : ScoreRange.t) (sl : Skiplist) : option (option Z) := o ← first_node_in_range r sl; rank_of_found o sl.
Definition last_in_range (r : ScoreRange.t) (sl : Skiplist) : option (option Z) := o ← last_node_in_range r sl; rank_of_found o sl.
Definition is_in_lex_range (r : LexRange.t) := in_range (by_lex r).
Definition first_node_in_lex_range (r : LexRange.t) := first_node (by_lex r).
Definition last_node_in_lex_range (r : LexRange.t) := last_node (by_lex r).
Definition first_in_lex_range (r : LexRange.t) (sl : Skiplist) : option (option Z) := o ← first_node_in_lex_range r sl; rank_of_found o sl.
Definition last_in_lex_range (r : LexRange.t) (sl : Skiplist) : option (option Z) := o ← last_node_in_lex_range r sl; rank_of_found o sl.

(** ** Deleting ranges

    The elements [on_delete] is called with, in order; their number is the
    result of the source.  One round deletes an element, so the number of
    elements and one more is enough fuel. *)
Fixpoint delete_while_loop (fuel : nat) (first : Skiplist -> option (option N)) (still_in : Node -> bool) (sl : Skiplist) : option (Skiplist * list (bytes * f64)) :=
  match fuel with
  | O => None
  | S fuel =>
      o ← first sl;
      match o with
      | None => Some (sl, [])
      | Some x =>
          n ← node x sl;
          if negb (still_in n) then Some (sl, [])
          else
            '(f, update) ← find_with_update (score n) (member n) sl;
            match f with
            | None => Some (sl, [(member n, score n)])
            | Some _ => sl ← remove_found x update sl; '(sl, out) ← delete_while_loop fuel first still_in sl; Some (sl, (member n, score n) :: out)
            end
      end
  end.
Definition delete_while (first : Skiplist -> option (option N)) (still_in : Node -> bool) (sl : Skiplist) : option (Skiplist * list (bytes * f64)) :=
  delete_while_loop (S (len sl)) first still_in sl.

Definition delete_range_by_score (r : ScoreRange.t) (sl : Skiplist) := delete_while (first_node_in_range r) (lte_max (by_score r)) sl.
Definition delete_range_by_lex (r : LexRange.t) (sl : Skiplist) := delete_while (first_node_in_lex_range r) (lte_max (by_lex r)) sl.

Fixpoint delete_rank_loop (count : nat) (start : nat) (sl : Skiplist) : option (Skiplist * list (bytes * f64)) :=
  match count with
  | O => Some (sl, [])
  | S count =>
      o ← node_by_rank start sl;
      match o with
      | None => Some (sl, [])
      | Some x =>
          n ← node x sl;
          '(f, update) ← find_with_update (score n) (member n) sl;
          match f with
          | None => Some (sl, [(member n, score n)])
          | Some _ => sl ← remove_found x update sl; '(sl, out) ← delete_rank_loop count start sl; Some (sl, (member n, score n) :: out)
          end
      end
  end.
Definition delete_range_by_rank (start count : nat) (sl : Skiplist) : option (Skiplist * list (bytes * f64)) :=
  if decide (count = 0 \/ len sl <= start) then Some (sl, []) else delete_rank_loop count start sl.

(** ** Iteration: the items the iterators yield *)

Definition first (sl : Skiplist) : option (option (bytes * f64)) :=
  x ← forward <$> lvl HEAD 0 sl;
  if decide (x = NIL) then Some None else Some <$> item x sl.
Definition last (sl : Skiplist) : option (option (bytes * f64)) :=
  if decide (tail sl = NIL) then Some None else Some <$> item (tail sl) sl.

Fixpoint iter_loop (remaining : nat) (cur : N) (sl : Skiplist) : option (list (bytes * f64)) :=
  match remaining with
  | O => Some []
  | S remaining =>
      if decide (cur = NIL) then Some []
      else
        n ← node cur sl;
        out ← iter_loop remaining (match levels n with l :: _ => forward l | [] => NIL end) sl;
        Some ((member n, score n) :: out)
  end.
Fixpoint iter_rev_loop (remaining : nat) (cur : N) (sl : Skiplist) : option (list (bytes * f64)) :=
  match remaining with
  | O => Some []
  | S remaining =>
      if decide (cur = NIL) then Some []
      else n ← node cur sl; out ← iter_rev_loop remaining (backward n) sl; Some ((member n, score n) :: out)
  end.

Definition iter (sl : Skiplist) : option (list (bytes * f64)) := l ← lvl HEAD 0 sl; iter_loop (len sl) (forward l) sl.
Definition iter_rev (sl : Skiplist) : option (list (bytes * f64)) := iter_rev_loop (len sl) (tail sl) sl.
Definition iter_from_rank (rank : nat) (sl : Skiplist) : option (list (bytes * f64)) :=
  o ← node_by_rank rank sl;
  match o with Some x => iter_loop (len sl - rank) x sl | None => Some [] end.
Definition iter_rev_from_rank (rank : nat) (sl : Skiplist) : option (list (bytes * f64)) :=
  o ← node_by_rank rank sl;
  match o with Some x => iter_rev_loop (rank + 1) x sl | None => Some [] end.

(** [range] with [stop_at_score_max], and [lex_range]. *)
Definition range_of (first_node last_node : Skiplist -> option (option N)) (sl : Skiplist) : option (list (bytes * f64)) :=
  o ← first_node sl;
  match o with
  | None => Some []
  | Some x =>
      l ← last_node sl;
      a ← rank_of_node x sl;
      b ← rank_of_found l sl;
      let n := match a, b with Some a, Some b => if decide (a <= b)%Z then Z.to_nat (b - a + 1) else 0 | _, _ => 0 end in
      iter_loop n x sl
  end.
Definition range (r : ScoreRange.t) := range_of (first_node_in_range r) (last_node_in_range r).
Definition lex_range (r : LexRange.t) := range_of (first_node_in_lex_range r) (last_node_in_lex_range r).

(** Three insertions, the last one below the others, then everything deleted. *)
Definition demo : option Skiplist :=
  let draws (i : nat) : Z := if decide (i < 2) then 0%Z else 4294967295%Z in
  sl ← insert draws (f64_of_i64 1) (bs "c") new;
  sl ← insert draws (f64_of_i64 1) (bs "a") sl;
  insert (fun _ => 4294967295%Z) (f64_of_i64 0) (bs "z") sl.

Example skiplist_demo :
  (sl ← demo; i ← iter sl; r ← iter_rev sl; k ← rank_of (f64_of_i64 1) (bs "c") sl; Some (map fst i, map fst r, k, level sl)) =
    Some ([bs "z"; bs "a"; bs "c"], [bs "c"; bs "a"; bs "z"], Some 2%Z, 3) /\
  (sl ← demo; '(sl, out) ← delete_range_by_score ScoreRange.all sl; Some (map fst out, len sl, level sl)) = Some ([bs "z"; bs "a"; bs "c"], 0, 1).
Proof. split; vm_compute; reflexivity. Qed.
