(* ===== verification/SkiplistOrder.v ===== *)
(** * The order of sorted-set elements

    Scores compare as IEEE doubles, ties by the bytes of the member: a strict
    total order up to the equality of scores, NaN aside.  Ranges are intervals
    of it. *)
From S2P Require Import Prelude Dtoa Skiplist.
From Stdlib Require Import Floats.SpecFloat.
Open Scope nat_scope.

(** ** Scores *)

Definition not_nan (v : f64) : Prop := is_nan v = false.

(** A number whose lexicographic order is the order of doubles. *)
Definition float_key (v : f64) : Z * Z * Z :=
  match v with
  | S754_zero _ | S754_nan => (0, 0, 0)
  | S754_infinity s => if s then (-2, 0, 0) else (2, 0, 0)
  | S754_finite s m e => if s then (-1, - e, - Zpos m) else (1, e, Zpos m)
  end%Z.

Definition lex_lt (a b : Z * Z * Z) : Prop :=
  (a.1.1 < b.1.1 \/ a.1.1 = b.1.1 /\ (a.1.2 < b.1.2 \/ a.1.2 = b.1.2 /\ a.2 < b.2))%Z.

(** Both directions of each comparison, on numbers. *)
Ltac float_case :=
  split_and!; (split; intros; repeat match goal with H : _ \/ _ |- _ => destruct H | H : _ /\ _ |- _ => destruct H end; simplify_eq;
    first [done | lia | left; lia | right; done | exfalso; lia]).

Lemma float_cmp a b :
  not_nan a -> not_nan b ->
  (SFltb a b = true <-> lex_lt (float_key a) (float_key b)) /\ (SFeqb a b = true <-> float_key a = float_key b) /\
  (SFleb a b = true <-> lex_lt (float_key a) (float_key b) \/ float_key a = float_key b).
Proof.
  unfold not_nan, SFltb, SFeqb, SFleb, lex_lt.
  destruct a as [sa|sa| |sa ma ea], b as [sb|sb| |sb mb eb]; try done; intros _ _; cbn [SFcompare float_key];
    try destruct sa; try destruct sb; cbn [fst snd]; try float_case.
  - destruct (Z.compare_spec ea eb); [subst eb|float_case..].
    change (Pos.compare_cont Eq ma mb) with (ma ?= mb)%positive. destruct (Pos.compare_spec ma mb); subst; cbn [CompOpp]; float_case.
  - destruct (Z.compare_spec ea eb); [subst eb|float_case..].
    change (Pos.compare_cont Eq ma mb) with (ma ?= mb)%positive. destruct (Pos.compare_spec ma mb); subst; float_case.
Qed.

Lemma lex_lt_irrefl a : ~ lex_lt a a.
Proof. unfold lex_lt. lia. Qed.
Lemma lex_lt_trans a b c : lex_lt a b -> lex_lt b c -> lex_lt a c.
Proof. unfold lex_lt. lia. Qed.
Lemma lex_lt_total a b : lex_lt a b \/ a = b \/ lex_lt b a.
Proof.
  unfold lex_lt. destruct a as [[a1 a2] a3], b as [[b1 b2] b3]; cbn [fst snd].
  destruct (Z.lt_total a1 b1) as [|[->|]]; [lia| |lia]. destruct (Z.lt_total a2 b2) as [|[->|]]; [lia| |lia].
  destruct (Z.lt_total a3 b3) as [|[->|]]; [lia|auto|lia].
Qed.

(** ** Members *)

Lemma cmp_eq a b : cmp a b = Eq <-> a = b.
Proof.
  revert b. induction a as [|x a IH]; intros [|y b]; cbn [cmp]; try done. destruct (Z.compare_spec (b2z x) (b2z y)) as [E|E|E].
  - rewrite IH. split; [intros ->|by intros [= -> ->]]. f_equal. rewrite <-(z2b_b2z x), <-(z2b_b2z y). by f_equal.
  - split; [done|]. intros [= -> ->]. lia.
  - split; [done|]. intros [= -> ->]. lia.
Qed.

Lemma cmp_opp a b : cmp b a = CompOpp (cmp a b).
Proof.
  revert b. induction a as [|x a IH]; intros [|y b]; cbn [cmp]; try done. rewrite (Z.compare_antisym (b2z x) (b2z y)).
  destruct (b2z x ?= b2z y)%Z; cbn [CompOpp]; [apply IH|done|done].
Qed.

Lemma cmp_lt_trans a b c : cmp a b = Lt -> cmp b c = Lt -> cmp a c = Lt.
Proof.
  revert b c. induction a as [|x a IH]; intros [|y b] [|z c]; cbn [cmp]; try done.
  destruct (Z.compare_spec (b2z x) (b2z y)) as [E|E|E]; destruct (Z.compare_spec (b2z y) (b2z z)) as [E'|E'|E']; intros; try done.
  - rewrite (proj2 (Z.compare_eq_iff _ _)) by lia. eauto.
  - by rewrite (proj2 (Z.compare_lt_iff _ _)) by lia.
  - by rewrite (proj2 (Z.compare_lt_iff _ _)) by lia.
  - by rewrite (proj2 (Z.compare_lt_iff _ _)) by lia.
Qed.

Lemma bytes_lt_irrefl a : bytes_lt a a = false.
Proof. unfold bytes_lt. by rewrite (proj2 (cmp_eq a a)). Qed.
Lemma bytes_lt_trans a b c : bytes_lt a b = true -> bytes_lt b c = true -> bytes_lt a c = true.
Proof.
  unfold bytes_lt. destruct (cmp a b) eqn:E1; try done. destruct (cmp b c) eqn:E2; try done. intros _ _. by rewrite (cmp_lt_trans _ _ _ E1 E2).
Qed.
Lemma bytes_lt_total a b : bytes_lt a b = true \/ a = b \/ bytes_lt b a = true.
Proof.
  unfold bytes_lt. rewrite (cmp_opp a b). destruct (cmp a b) eqn:E; cbn [CompOpp]; auto. right. left. by apply cmp_eq.
Qed.
Lemma bytes_le_not_lt a b : bytes_le a b = negb (bytes_lt b a).
Proof. unfold bytes_le, bytes_lt. rewrite (cmp_opp a b). by destruct (cmp a b). Qed.

(** ** Elements: a member and its score *)

Abbreviation Item := (bytes * f64)%type.

Definition item_ok (a : Item) : Prop := not_nan a.2.
Definition item_lt (a b : Item) : bool := key_lt a.2 a.1 b.2 b.1.
Definition item_eq (a b : Item) : bool := SFeqb a.2 b.2 && bool_decide (a.1 = b.1).

Section items.
Context {a b c : Item} (Ha : item_ok a) (Hb : item_ok b) (Hc : item_ok c).

Lemma item_lt_iff : item_lt a b = true <-> lex_lt (float_key a.2) (float_key b.2) \/ float_key a.2 = float_key b.2 /\ bytes_lt a.1 b.1 = true.
Proof.
  unfold item_lt, key_lt. destruct (float_cmp _ _ Ha Hb) as (Hl & He & _). by rewrite orb_true_iff, andb_true_iff, Hl, He.
Qed.
Lemma item_eq_iff : item_eq a b = true <-> float_key a.2 = float_key b.2 /\ a.1 = b.1.
Proof. unfold item_eq. destruct (float_cmp _ _ Ha Hb) as (_ & He & _). by rewrite andb_true_iff, bool_decide_eq_true, He. Qed.
End items.

Lemma item_lt_irrefl a : item_ok a -> item_lt a a = false.
Proof.
  intros Ha. destruct (item_lt a a) eqn:E; [|done]. apply (item_lt_iff Ha Ha) in E as [E|[_ E]]; [by apply lex_lt_irrefl in E|].
  by rewrite bytes_lt_irrefl in E.
Qed.

Lemma item_lt_trans a b c : item_ok a -> item_ok b -> item_ok c -> item_lt a b = true -> item_lt b c = true -> item_lt a c = true.
Proof.
  intros Ha Hb Hc. rewrite (item_lt_iff Ha Hb), (item_lt_iff Hb Hc), (item_lt_iff Ha Hc).
  intros [?|[E ?]] [?|[E' ?]].
  - left. by eapply lex_lt_trans.
  - left. by rewrite <-E'.
  - left. by rewrite E.
  - right. split; [congruence|by eapply bytes_lt_trans].
Qed.

Lemma item_total a b : item_ok a -> item_ok b -> item_lt a b = true \/ item_eq a b = true \/ item_lt b a = true.
Proof.
  intros Ha Hb. rewrite (item_lt_iff Ha Hb), (item_lt_iff Hb Ha), (item_eq_iff Ha Hb).
  destruct (lex_lt_total (float_key a.2) (float_key b.2)) as [|[->|]]; auto. destruct (bytes_lt_total a.1 b.1) as [|[|]]; auto.
Qed.

Lemma item_eq_refl a : item_ok a -> item_eq a a = true.
Proof. intros Ha. by rewrite (item_eq_iff Ha Ha). Qed.

(** Equal elements stand at the same place. *)
Lemma item_eq_lt a b c : item_ok a -> item_ok b -> item_ok c -> item_eq a b = true -> item_lt c a = item_lt c b /\ item_lt a c = item_lt b c.
Proof.
  intros Ha Hb Hc He. apply (item_eq_iff Ha Hb) in He as [Hk Hm].
  split; apply eq_true_iff_eq; [rewrite (item_lt_iff Hc Ha), (item_lt_iff Hc Hb)|rewrite (item_lt_iff Ha Hc), (item_lt_iff Hb Hc)]; by rewrite Hk, Hm.
Qed.

Lemma item_eq_not_lt a b : item_ok a -> item_ok b -> item_eq a b = true -> item_lt a b = false /\ item_lt b a = false.
Proof.
  intros Ha Hb He. destruct (item_eq_lt a b b Ha Hb Hb He) as [E1 E2]. by rewrite E1, E2, item_lt_irrefl.
Qed.

Lemma item_eq_sym a b : item_ok a -> item_ok b -> item_eq a b = item_eq b a.
Proof. intros Ha Hb. apply eq_true_iff_eq. rewrite (item_eq_iff Ha Hb), (item_eq_iff Hb Ha). naive_solver. Qed.

(** The test of [rank_of]: not after. *)
Lemma item_le_not_lt a b : item_ok a -> item_ok b ->
  SFltb a.2 b.2 || (SFeqb a.2 b.2 && bytes_le a.1 b.1) = negb (item_lt b a).
Proof.
  intros Ha Hb. rewrite bytes_le_not_lt. destruct (float_cmp _ _ Ha Hb) as (Hl & He & _). destruct (float_cmp _ _ Hb Ha) as (Hl' & He' & _).
  apply eq_true_iff_eq. rewrite negb_true_iff, <-not_true_iff_false, (item_lt_iff Hb Ha), orb_true_iff, andb_true_iff, negb_true_iff, Hl, He.
  rewrite <-not_true_iff_false. destruct (lex_lt_total (float_key a.2) (float_key b.2)) as [Hx|[Hx|Hx]].
  - split; [|auto]. intros _ [H|[H _]]; [by apply (lex_lt_irrefl (float_key a.2)), (lex_lt_trans _ (float_key b.2))|].
    rewrite H in Hx. by apply lex_lt_irrefl in Hx.
  - rewrite Hx. pose proof (lex_lt_irrefl (float_key b.2)). tauto.
  - split; [|naive_solver]. intros [H|[H _]]; exfalso; [by apply (lex_lt_irrefl (float_key a.2)), (lex_lt_trans _ (float_key b.2))|].
    rewrite H in Hx. by apply lex_lt_irrefl in Hx.
Qed.
