(* ===== verification/SkiplistFacts.v ===== *)
(** * The structure of a skip list

    A skip list holds a row of cells: the index, the element and the height of
    each node, in order, the header before them.  Every link leads to the next
    cell tall enough and carries the distance to it. *)
From S2P Require Import Prelude Dtoa Skiplist SkiplistOrder.
Open Scope nat_scope.

(** ** Rows *)

Record Cell := { cid : N; citem : Item; height : nat }.

Definition hcell : Cell := {| cid := HEAD; citem := ([], Floats.SpecFloat.S754_zero false); height := MAX_LEVEL |}.
(** Positions: the header is at 0, the first element at 1. *)
Definition row (cs : list Cell) : list Cell := hcell :: cs.

Definition idat (cs : list Cell) (p : nat) : N := default NIL (cid <$> row cs !! p).

Definition tall (cs : list Cell) (l p : nat) : Prop := exists c, row cs !! p = Some c /\ l < height c.

(** The next cell tall enough, and the last one up to [r]. *)
Definition next_is (cs : list Cell) (l p : nat) (o : option nat) : Prop :=
  match o with
  | Some q => p < q /\ tall cs l q /\ forall k, p < k < q -> ~ tall cs l k
  | None => forall k, p < k -> ~ tall cs l k
  end.
Definition pred_is (cs : list Cell) (l r p : nat) : Prop := p <= r /\ tall cs l p /\ forall k, p < k <= r -> ~ tall cs l k.

Definition link_to (cs : list Cell) (p : nat) (o : option nat) : Level :=
  match o with
  | Some q => {| forward := idat cs q; span := Z.of_nat q - Z.of_nat p |}
  | None => {| forward := NIL; span := Z.of_nat (length cs) - Z.of_nat p |}
  end.

(** What is before a position, the header left out. *)
Definition back (cs : list Cell) (p : nat) : N := if decide (p <= 1) then NIL else idat cs (p - 1).

(** The elements, ordered. *)
Definition items (cs : list Cell) : list Item := citem <$> cs.
Definition ordered (xs : list Item) : Prop :=
  Forall item_ok xs /\ forall i j x y, xs !! i = Some x -> xs !! j = Some y -> i < j -> item_lt x y = true.

(** ** Rows and positions *)

Lemma idat_row cs p c : row cs !! p = Some c -> idat cs p = cid c.
Proof. unfold idat. by intros ->. Qed.

Lemma row_length cs : length (row cs) = S (length cs).
Proof. done. Qed.

Lemma row_lt cs p : p <= length cs -> exists c, row cs !! p = Some c.
Proof. intros. apply lookup_lt_is_Some_2. rewrite row_length. lia. Qed.

Lemma row_in cs p c : row cs !! S p = Some c -> c ∈ cs.
Proof. intros H. by apply (list_elem_of_lookup_2 cs p c). Qed.

Lemma tall_le cs l p : tall cs l p -> p <= length cs.
Proof. intros (c & Hc & _). apply lookup_lt_Some in Hc. rewrite row_length in Hc. lia. Qed.

Lemma tall_head cs l : l < MAX_LEVEL -> tall cs l 0.
Proof. intros. by exists hcell. Qed.

Lemma tall_down cs l l' p : tall cs l p -> l' <= l -> tall cs l' p.
Proof. intros (c & Hc & Hl) ?. exists c. split; [done|lia]. Qed.

#[export] Instance tall_dec cs l p : Decision (tall cs l p).
Proof.
  destruct (row cs !! p) as [c|] eqn:E; [destruct (decide (l < height c))|].
  - left. by exists c.
  - right. intros (c' & ? & ?). by simplify_eq.
  - right. intros (c' & ? & ?). by simplify_eq.
Defined.

Lemma next_unique cs l p o o' : next_is cs l p o -> next_is cs l p o' -> o = o'.
Proof.
  destruct o as [q|], o' as [q'|]; cbn [next_is]; [|naive_solver..|done].
  intros (Hq & Tq & Nq) (Hq' & Tq' & Nq'). destruct (decide (q < q')); [by destruct (Nq' q)|].
  destruct (decide (q' < q)); [by destruct (Nq q')|]. f_equal. lia.
Qed.

Lemma pred_unique cs l r p p' : pred_is cs l r p -> pred_is cs l r p' -> p = p'.
Proof.
  intros (Hp & Tp & Np) (Hp' & Tp' & Np'). destruct (decide (p < p')); [by destruct (Np p')|].
  destruct (decide (p' < p)); [by destruct (Np' p)|]. lia.
Qed.

Fixpoint pred_of (cs : list Cell) (l r : nat) : nat :=
  match r with O => 0 | S r' => if decide (tall cs l r) then r else pred_of cs l r' end.

Lemma pred_of_is cs l r : l < MAX_LEVEL -> pred_is cs l r (pred_of cs l r).
Proof.
  intros Hl. induction r as [|r (Hp & Tp & Np)]; cbn [pred_of].
  - split; [done|]. split; [by apply tall_head|]. lia.
  - case_decide as T; [split; [done|]; split; [done|]; lia|].
    split; [lia|]. split; [done|]. intros k Hk. destruct (decide (k = S r)) as [->|]; [done|]. apply Np. lia.
Qed.

(** The search of the next cell among [n] positions after [p]. *)
Fixpoint next_from (cs : list Cell) (l n p : nat) : option nat :=
  match n with O => None | S n => if decide (tall cs l (S p)) then Some (S p) else next_from cs l n (S p) end.
Definition next_of (cs : list Cell) (l p : nat) : option nat := next_from cs l (length cs - p) p.

Lemma next_of_is cs l p : next_is cs l p (next_of cs l p).
Proof.
  unfold next_of. remember (length cs - p) as n eqn:Hn. revert p Hn. induction n as [|n IH]; intros p Hn; cbn [next_from].
  - intros k Hk T%tall_le. lia.
  - case_decide as T; [split; [lia|]; split; [done|]; lia|].
    pose proof (IH (S p) ltac:(lia)) as Ho. destruct (next_from cs l n (S p)) as [q|]; cbn [next_is] in *.
    + destruct Ho as (Hq & Tq & Nq). split; [lia|]. split; [done|]. intros k Hk. destruct (decide (k = S p)) as [->|]; [done|]. apply Nq. lia.
    + intros k Hk. destruct (decide (k = S p)) as [->|]; [done|]. apply Ho. lia.
Qed.

(** ** The invariant *)

Record rep (sl : Skiplist) (cs : list Cell) : Prop := {
  rep_len : len sl = length cs;
  rep_level : 1 <= level sl <= MAX_LEVEL;
  rep_heights : forall c, c ∈ cs -> 1 <= height c <= level sl;
  rep_ids : NoDup ((cid <$> row cs) ++ free sl);
  rep_arena : forall i, i ∈ (cid <$> row cs) ++ free sl -> N.to_nat i < length (nodes sl);
  rep_small : (N.of_nat (length (nodes sl)) <= NIL)%N;
  rep_node : forall p c, row cs !! p = Some c -> exists n, node (cid c) sl = Some n /\ length (levels n) = height c /\
    (0 < p -> (member n, score n) = citem c /\ backward n = back cs p);
  rep_links : forall p l c, row cs !! p = Some c -> l < height c -> l < level sl ->
    lvl (cid c) l sl = Some (link_to cs p (next_of cs l p));
  rep_tail : tail sl = back cs (S (length cs))
}.

(** On level 0 the next cell is the neighbour. *)
Lemma next_zero cs p o : (forall c, c ∈ cs -> 1 <= height c) -> p <= length cs ->
  next_is cs 0 p o -> o = if decide (p < length cs) then Some (S p) else None.
Proof.
  intros Hh Hp Ho. apply (next_unique _ _ _ _ _ Ho). case_decide as Hl.
  - split; [lia|]. split; [|lia]. destruct (row_lt cs (S p)) as [c Hc]; [lia|]. exists c. split; [done|]. apply row_in, Hh in Hc. lia.
  - intros k Hk T%tall_le. lia.
Qed.

Section rep.
Context {sl : Skiplist} {cs : list Cell} (R : rep sl cs).

Lemma id_not_nil p : p <= length cs -> idat cs p <> NIL.
Proof.
  intros Hp. destruct (row_lt cs p Hp) as [c Hc]. rewrite (idat_row _ _ _ Hc). pose proof (rep_small _ _ R). intros E.
  pose proof (rep_arena _ _ R (cid c)) as Ha. rewrite E in Ha. unfold NIL in *. pose proof (N2Nat.id 4294967295).
  assert (N.to_nat 4294967295 < length (nodes sl)); [|lia]. apply Ha. apply elem_of_app. left. rewrite <-E. by apply list_elem_of_fmap_2, (list_elem_of_lookup_2 _ p).
Qed.

Lemma id_inj p q : p <= length cs -> q <= length cs -> idat cs p = idat cs q -> p = q.
Proof.
  intros Hp Hq. destruct (row_lt cs p Hp) as [c Hc], (row_lt cs q Hq) as [d Hd]. rewrite (idat_row _ _ _ Hc), (idat_row _ _ _ Hd). intros E.
  pose proof (rep_ids _ _ R) as [Hn _]%NoDup_app. eapply (NoDup_lookup _ p q (cid c) Hn); rewrite list_lookup_fmap; [by rewrite Hc|by rewrite Hd, E].
Qed.

Lemma id_head p : p <= length cs -> idat cs p = HEAD <-> p = 0.
Proof. intros Hp. split; [|by intros ->]. intros E. by apply (id_inj p 0); [|lia|]. Qed.

(** The link out of a position. *)
Lemma link_at p l : tall cs l p -> l < level sl -> lvl (idat cs p) l sl = Some (link_to cs p (next_of cs l p)).
Proof. intros (c & Hc & Hl) Hlv. rewrite (idat_row _ _ _ Hc). by apply (rep_links _ _ R). Qed.

Lemma link_nil p o : (match o with Some q => q <= length cs | None => True end) -> forward (link_to cs p o) = NIL <-> o = None.
Proof. destruct o as [q|]; cbn [link_to forward]; [|done]. intros Hq. split; [|done]. intros E. by apply id_not_nil in E. Qed.

Lemma next_le l p q : next_is cs l p (Some q) -> p < q <= length cs.
Proof. intros (? & ?%tall_le & _). lia. Qed.

Lemma tall_zero p : p <= length cs -> tall cs 0 p.
Proof.
  intros Hp. destruct (row_lt cs p Hp) as [c Hc]. exists c. split; [done|]. destruct p; [injection Hc as <-; cbn; unfold MAX_LEVEL; lia|].
  apply row_in, (rep_heights _ _ R) in Hc. lia.
Qed.

Lemma pred_zero r : r <= length cs -> pred_of cs 0 r = r.
Proof.
  intros Hr. destruct r as [|r]; [done|]. cbn [pred_of]. by rewrite decide_True by by apply tall_zero.
Qed.

(** The bottom level. *)
Lemma bottom p : p <= length cs -> exists s, lvl (idat cs p) 0 sl = Some {| forward := idat cs (S p); span := s |}.
Proof.
  intros Hp. pose proof (rep_level _ _ R) as Hlv. rewrite (link_at p 0) by (by apply tall_zero || lia).
  pose proof (next_of_is cs 0 p) as Ho. apply next_zero in Ho; [|intros c Hc; apply (rep_heights _ _ R) in Hc; lia|done].
  rewrite Ho. case_decide; cbn [link_to]; [by eauto|].
  unfold idat. rewrite (lookup_ge_None_2 (row cs)) by (rewrite row_length; lia). eauto.
Qed.

Lemma node_at p c : cs !! p = Some c -> exists n, node (cid c) sl = Some n /\ (member n, score n) = citem c /\ backward n = back cs (S p) /\ length (levels n) = height c.
Proof. intros Hc. destruct (rep_node _ _ R (S p) c Hc) as (n & ? & ? & Hn). destruct Hn as [? ?]; [lia|]. eauto. Qed.

(** The walk along a level stops at the last cell up to [r], when [go] tells
    the positions up to [r]; the rank keeps its distance [k] to the position. *)
Lemma walk_loop_spec go l p r (k : Z) fuel :
  l < level sl -> tall cs l p -> p <= r ->
  (forall q c, p < q -> row cs !! q = Some c -> l < height c -> go (cid c) (Z.of_nat q + k)%Z = Some (bool_decide (q <= r))) ->
  length cs - p < fuel ->
  exists p', pred_is cs l r p' /\ p <= p' /\
    walk_loop fuel go l (idat cs p) (Z.of_nat p + k) sl = Some (idat cs p', Z.of_nat p' + k)%Z.
Proof.
  intros Hl. revert p. induction fuel as [|fuel IH]; intros p Tp Hp Hgo Hf; [lia|]. cbn [walk_loop].
  rewrite (link_at p l Tp Hl). cbn [mbind option_bind]. pose proof (next_of_is cs l p) as Ho.
  destruct (next_of cs l p) as [q|]; cbn [link_to forward span].
  - pose proof (next_le _ _ _ Ho) as Hq. rewrite decide_False by (apply id_not_nil; lia). destruct Ho as (_ & (c & Hc & Hh) & Hno).
    replace (Z.of_nat p + k + (Z.of_nat q - Z.of_nat p))%Z with (Z.of_nat q + k)%Z by lia.
    assert (go (idat cs q) (Z.of_nat q + k)%Z = Some (bool_decide (q <= r))) as -> by (rewrite (idat_row _ _ _ Hc); by apply Hgo; [lia|..]).
    cbn [mbind option_bind]. case_bool_decide as Hr.
    + destruct (IH q) as (p' & Hp' & Hle & E); [by exists c|done|intros; apply Hgo; (done || lia)|lia|]. exists p'. split; [done|]. split; [lia|done].
    + exists p. split; [|split; [done|done]]. split; [done|]. split; [done|]. intros j Hj. apply Hno. lia.
  - rewrite decide_True by done. exists p. split; [|done]. split; [done|]. split; [done|]. intros j Hj. apply Ho. lia.
Qed.

(** Its form for [walk]: the test is of the 0-based index [q] against [r], and
    of the rank. *)
Lemma walk_spec go l p r k :
  l < level sl -> tall cs l p -> p <= r ->
  (forall q c, p <= q -> cs !! q = Some c -> l < height c -> go (cid c) (Z.of_nat (S q) + k)%Z = Some (bool_decide (q < r))) ->
  walk go l (idat cs p) (Z.of_nat p + k) sl = Some (idat cs (pred_of cs l r), Z.of_nat (pred_of cs l r) + k)%Z.
Proof.
  intros Hl Tp Hp Hgo. unfold walk. pose proof (rep_level _ _ R). pose proof (rep_len _ _ R) as Hlen.
  destruct (walk_loop_spec go l p r k (S (len sl))) as (p' & Hp' & _ & ->); [done|done|done| |lia|].
  - intros [|q] c Hq Hc Hh; [lia|]. rewrite (Hgo q c) by (done || lia). done.
  - by rewrite (pred_unique _ _ _ _ _ Hp' (pred_of_is cs l r ltac:(lia))).
Qed.

Lemma pred_le l r : l < level sl -> pred_of cs l r <= r.
Proof. intros. pose proof (rep_level _ _ R). by destruct (pred_of_is cs l r ltac:(lia)). Qed.

Lemma pred_tall l l' r : l < level sl -> l' <= l -> tall cs l' (pred_of cs l r).
Proof. intros. pose proof (rep_level _ _ R). destruct (pred_of_is cs l r ltac:(lia)) as (_ & T & _). by eapply tall_down. Qed.

(** The descents: from level [n] down, each level from where the one above
    stopped. *)
Lemma descend_spec n go p r :
  n <= level sl -> (0 < n -> tall cs (n - 1) p) -> p <= r -> r <= length cs ->
  (forall q c, cs !! q = Some c -> go (cid c) = Some (bool_decide (q < r))) ->
  descend n go (idat cs p) sl = Some (idat cs (if decide (n = 0) then p else r)).
Proof.
  intros Hn Tp Hp Hr Hgo. revert p Tp Hp. induction n as [|i IH]; intros p Tp Hp; [done|]. cbn [descend].
  pose proof (walk_spec (fun f _ => go f) i p r (- Z.of_nat p) ltac:(lia)) as Hw. rewrite Z.add_opp_diag_r in Hw.
  rewrite Hw; [|replace i with (S i - 1) by lia; apply Tp; lia|done|intros; by apply Hgo]. cbn [mbind option_bind]. pose proof (pred_le i r ltac:(lia)).
  rewrite IH; [|lia|intros; apply pred_tall; lia|done]. do 2 f_equal. destruct (decide (i = 0)) as [->|]; [by apply pred_zero|done].
Qed.
End rep.

(** Where a test that holds of a prefix of the elements changes. *)
Lemma cut_exists {A} (xs : list A) (f : A -> bool) :
  (forall i j x y, i < j -> xs !! i = Some x -> xs !! j = Some y -> f y = true -> f x = true) ->
  exists r, r <= length xs /\ forall i x, xs !! i = Some x -> f x = bool_decide (i < r).
Proof.
  induction xs as [|x xs IH]; intros Hm; [exists 0; by split|]. destruct (f x) eqn:E.
  - destruct IH as (r & Hr & Hf); [intros i j y z Hij; apply (Hm (S i) (S j)); lia|]. exists (S r). split; [simpl; lia|].
    intros [|i] y Hy; [simpl in Hy; simplify_eq; by rewrite bool_decide_eq_true_2 by lia|]. rewrite (Hf i y Hy). apply bool_decide_ext. lia.
  - exists 0. split; [lia|]. intros i y Hy. rewrite bool_decide_eq_false_2 by lia. destruct (f y) eqn:Ey; [|done].
    destruct i as [|i]; [simpl in Hy; congruence|]. rewrite <-E. symmetry. by apply (Hm 0 (S i) x y); [lia|..].
Qed.

(** The elements before a key: as many as sort before it. *)
Lemma items_cut cs t :
  ordered (items cs) -> item_ok t ->
  exists r, r <= length cs /\ forall q c, cs !! q = Some c -> item_lt (citem c) t = bool_decide (q < r).
Proof.
  intros [Hok Ho] Ht. destruct (cut_exists cs (fun c => item_lt (citem c) t)) as (r & Hr & Hc); [|by exists r].
  intros i j x y Hij Hx Hy Hlt. rewrite Forall_forall in Hok.
  assert (forall k z, cs !! k = Some z -> items cs !! k = Some (citem z)) as Hi by (intros k z Hz; unfold items; by rewrite list_lookup_fmap, Hz).
  apply (item_lt_trans _ (citem y)); [|..|by apply (Ho i j); auto|done]; [| |done]; eapply Hok, list_elem_of_lookup_2, Hi; eauto.
Qed.
