(* ===== verification/SkiplistReads.v ===== *)
(** * Reading a skip list ([src/encoding/skiplist.rs])

    Ranks, ranges and iteration agree with the ordered list of the elements,
    whatever the heights of the nodes. *)
From S2P Require Import Prelude Dtoa Skiplist SkiplistOrder SkiplistFacts.
Open Scope nat_scope.

(** The list a skip list stands for. *)
Definition holds (sl : Skiplist) (xs : list Item) : Prop := exists cs, rep sl cs /\ items cs = xs /\ ordered xs.

(** The position of the element equal to [t]. *)
Definition find_item (t : Item) (xs : list Item) : option nat := fst <$> list_find (fun x => item_eq x t = true) xs.

Lemma items_lookup cs i : items cs !! i = citem <$> cs !! i.
Proof. unfold items. by rewrite list_lookup_fmap. Qed.

Lemma items_length cs : length (items cs) = length cs.
Proof. apply length_fmap. Qed.

Lemma ordered_ok xs i x : ordered xs -> xs !! i = Some x -> item_ok x.
Proof. intros [Hok _] Hx. rewrite Forall_forall in Hok. by eapply Hok, list_elem_of_lookup_2. Qed.

Section reads.
Context {sl : Skiplist} {cs : list Cell} (R : rep sl cs) (Od : ordered (items cs)).

Lemma node_item q c : cs !! q = Some c -> exists n, node (idat cs (S q)) sl = Some n /\ (member n, score n) = citem c /\ idat cs (S q) = cid c.
Proof.
  intros Hc. destruct (node_at R q c Hc) as (n & Hn & Hi & _). exists n. by rewrite (idat_row cs (S q) c Hc).
Qed.

Lemma node_item_id q c : cs !! q = Some c -> exists n, node (cid c) sl = Some n /\ member n = (citem c).1 /\ score n = (citem c).2.
Proof. intros Hc. destruct (node_at R q c Hc) as (n & Hn & Hi & _). exists n. rewrite <-Hi. done. Qed.

Lemma cell_ok q c : cs !! q = Some c -> item_ok (citem c).
Proof. intros Hc. apply (ordered_ok (items cs) q _ Od). by rewrite items_lookup, Hc. Qed.

Lemma cells_ordered i j c d : cs !! i = Some c -> cs !! j = Some d -> i < j -> item_lt (citem c) (citem d) = true.
Proof. destruct Od as [_ Ho]. intros Hc Hd. apply Ho; by rewrite items_lookup, ?Hc, ?Hd. Qed.

Lemma cell_lt q : q < length cs -> exists c, cs !! q = Some c.
Proof. apply lookup_lt_is_Some_2. Qed.

(** ** Ranks *)

Lemma node_le_at q c s m : cs !! q = Some c -> not_nan s -> node_le (cid c) s m sl = Some (negb (item_lt (m, s) (citem c))).
Proof.
  intros Hc Hs. destruct (node_item_id q c Hc) as (n & Hn & Hm & Hsc). unfold node_le. rewrite Hn. cbn [mbind option_bind]. f_equal.
  rewrite Hm, Hsc. by apply (item_le_not_lt (citem c) (m, s)); [eapply cell_ok|].
Qed.

(** The cells not after [t], and which of them may be [t]. *)
Lemma upto_cut t : item_ok t -> exists r, r <= length cs /\
  (forall q c, cs !! q = Some c -> negb (item_lt t (citem c)) = bool_decide (q < r)) /\
  (forall q c, cs !! q = Some c -> item_eq (citem c) t = true -> S q = r).
Proof.
  intros Ht. destruct (cut_exists cs (fun c => negb (item_lt t (citem c)))) as (r & Hr & Hcut).
  { intros i j x y Hij Hx Hy Hn%negb_true_iff. apply negb_true_iff. destruct (item_lt t (citem x)) eqn:E; [|done].
    rewrite <-Hn. symmetry.
    apply (item_lt_trans _ (citem x)); [done|by apply (cell_ok i)|by apply (cell_ok j)|done|by apply (cells_ordered i j)]. }
  exists r. split; [done|]. split; [done|]. intros q c Hc He.
  destruct (item_eq_not_lt _ _ (cell_ok q c Hc) Ht He) as [_ H1]. pose proof (Hcut q c Hc) as Hq. rewrite H1 in Hq. cbn [negb] in Hq.
  symmetry in Hq. apply bool_decide_eq_true in Hq. destruct (decide (S q = r)) as [|Hne]; [done|]. exfalso.
  destruct (cell_lt (r - 1)) as [d Hd]; [lia|]. pose proof (Hcut (r - 1) d Hd) as Hd'. rewrite bool_decide_eq_true_2 in Hd' by lia.
  apply negb_true_iff in Hd'. pose proof (cells_ordered q (r - 1) c d Hc Hd ltac:(lia)) as Hlt.
  destruct (item_eq_lt _ _ (citem d) (cell_ok q c Hc) Ht (cell_ok _ d Hd) He) as [_ H2]. congruence.
Qed.

Lemma find_item_spec t r : item_ok t ->
  (forall q c, cs !! q = Some c -> item_eq (citem c) t = true -> S q = r) ->
  find_item t (items cs) = match r with O => None | S q => match cs !! q with Some c => if item_eq (citem c) t then Some q else None | None => None end end.
Proof.
  intros Ht Hu. unfold find_item.
  assert (forall q c, cs !! q = Some c -> item_eq (citem c) t = true -> list_find (fun x => item_eq x t = true) (items cs) = Some (q, citem c)) as Hf.
  { intros q c Hc He. apply list_find_Some. rewrite items_lookup, Hc. split; [done|]. split; [done|]. intros j y Hy Hj He'.
    rewrite items_lookup in Hy. destruct (cs !! j) as [d|] eqn:Hd; [|done]. injection Hy as <-.
    pose proof (Hu q c Hc He). pose proof (Hu j d Hd He'). lia. }
  destruct (list_find _ _) as [[i x]|] eqn:E.
  - apply list_find_Some in E as (Hx & He & _). rewrite items_lookup in Hx. destruct (cs !! i) as [c|] eqn:Hc; [|done]. injection Hx as <-.
    rewrite <-(Hu i c Hc He), Hc, He. done.
  - destruct r as [|q]; [done|]. destruct (cs !! q) as [c|] eqn:Hc; [|done]. destruct (item_eq (citem c) t) eqn:He; [|done].
    by pose proof (Hf q c Hc He).
Qed.

Lemma rank_descent_spec n p r s m :
  not_nan s -> n <= level sl -> (0 < n -> tall cs (n - 1) p) -> p <= r -> r <= length cs ->
  (forall q c, cs !! q = Some c -> negb (item_lt (m, s) (citem c)) = bool_decide (q < r)) ->
  (forall q c, cs !! q = Some c -> item_eq (citem c) (m, s) = true -> S q = r) ->
  rank_descent n s m (idat cs p) (Z.of_nat p) sl = Some (if decide (n = 0) then None else Z.of_nat <$> find_item (m, s) (items cs)).
Proof.
  intros Hs Hn Tp Hp Hr Hcut Hu. rewrite (find_item_spec (m, s) r Hs Hu). revert p Tp Hp. induction n as [|i IH]; intros p Tp Hp; [done|]. cbn [rank_descent].
  pose proof (walk_spec R (fun f _ => node_le f s m sl) i p r 0 ltac:(lia)) as Hw. rewrite !Z.add_0_r in Hw.
  rewrite Hw; [clear Hw|replace i with (S i - 1) by lia; apply Tp; lia|done|].
  2:{ intros q c _ Hc _. by rewrite (node_le_at q c), (Hcut q c). }
  cbn [mbind option_bind]. pose proof (pred_le R i r ltac:(lia)) as Hpl.
  destruct (pred_of cs i r) as [|q] eqn:Eq.
  - rewrite decide_False by (intros []; done). cbn [mbind option_bind]. rewrite IH; [|lia|intros; rewrite <-Eq; apply (pred_tall R); lia|lia].
    destruct (decide (i = 0)) as [->|]; [|done]. rewrite (pred_zero R) in Eq by done. by subst r.
  - destruct (cell_lt q) as [c Hc]; [lia|]. destruct (node_item q c Hc) as (nd & Hnd & Hi & _).
    rewrite decide_True by (by rewrite (id_head R) by lia). rewrite Hnd. cbn [mbind option_bind].
    assert (bool_decide (member nd = m) && Floats.SpecFloat.SFeqb (score nd) s = item_eq (citem c) (m, s)) as ->
      by (unfold item_eq; rewrite <-Hi; cbn [fst snd]; apply andb_comm).
    destruct (item_eq (citem c) (m, s)) eqn:He.
    + rewrite <-(Hu q c Hc He), Hc, He. cbn. do 2 f_equal. lia.
    + rewrite IH; [|lia|intros; rewrite <-Eq; apply (pred_tall R); lia|lia].
      destruct (decide (i = 0)) as [->|]; [|done]. rewrite (pred_zero R) in Eq by done. subst r. by rewrite Hc, He.
Qed.

Lemma rank_of_spec s m : not_nan s -> rank_of s m sl = Some (Z.of_nat <$> find_item (m, s) (items cs)).
Proof.
  intros Hs. destruct (upto_cut (m, s) Hs) as (r & Hr & Hcut & Hu). unfold rank_of. pose proof (rep_level _ _ R).
  rewrite (rank_descent_spec (level sl) 0 r); [by rewrite decide_False by lia|done|done| |lia|done..].
  intros. apply tall_head. lia.
Qed.

Lemma by_rank_descent_spec n p r :
  n <= level sl -> (0 < n -> tall cs (n - 1) p) -> p <= r -> 0 < r -> r <= length cs -> (0 < n \/ p < r) ->
  by_rank_descent n (Z.of_nat r) (idat cs p) (Z.of_nat p) sl = Some (if decide (n = 0) then None else Some (idat cs r)).
Proof.
  intros Hn Tp Hp Hr0 Hr Hpos. revert p Tp Hp Hpos. induction n as [|i IH]; intros p Tp Hp Hpos; [done|]. cbn [by_rank_descent].
  pose proof (walk_spec R (fun _ t => Some (bool_decide (t <= Z.of_nat r)%Z)) i p r 0 ltac:(lia)) as Hw. rewrite !Z.add_0_r in Hw.
  rewrite Hw; [clear Hw|replace i with (S i - 1) by lia; apply Tp; lia|done|].
  2:{ intros q c _ Hc _. f_equal. apply bool_decide_ext. lia. }
  cbn [mbind option_bind]. pose proof (pred_le R i r ltac:(lia)) as Hpl. destruct (decide (Z.of_nat _ = _ /\ _)) as [Hd|Hd].
  - destruct Hd as [Hd _]. by replace (pred_of cs i r) with r by lia.
  - assert (pred_of cs i r <> r) as Hne by (intros E; apply Hd; rewrite E; split; [done|]; rewrite (id_head R); lia).
    destruct i as [|i]; [by rewrite (pred_zero R) in Hne|]. rewrite IH; [done|lia|intros; apply (pred_tall R); lia|lia|lia].
Qed.

Lemma node_by_rank_spec k : node_by_rank k sl = Some (if decide (k < length cs) then Some (idat cs (S k)) else None).
Proof.
  unfold node_by_rank. rewrite (rep_len _ _ R). case_decide as Hk; [by rewrite decide_False by lia|]. rewrite (decide_True (P := k < _)) by lia.
  pose proof (rep_level _ _ R). replace (Z.of_nat k + 1)%Z with (Z.of_nat (S k)) by lia.
  pose proof (by_rank_descent_spec (level sl) 0 (S k)) as Hd. change (idat cs 0) with HEAD in Hd. change (Z.of_nat 0) with 0%Z in Hd.
  rewrite Hd by (lia || (intros; apply tall_head; lia)). by rewrite decide_False by lia.
Qed.

Lemma item_at q : q < length cs -> exists x, items cs !! q = Some x /\ item (idat cs (S q)) sl = Some x.
Proof.
  intros Hq. destruct (cell_lt q Hq) as [c Hc]. exists (citem c). rewrite items_lookup, Hc. split; [done|].
  destruct (node_item q c Hc) as (n & Hn & Hi & _). unfold item. rewrite Hn. cbn. by rewrite Hi.
Qed.

Lemma by_rank_spec k : by_rank k sl = Some (items cs !! k).
Proof.
  unfold by_rank. rewrite node_by_rank_spec. cbn [mbind option_bind]. case_decide.
  - destruct (item_at k) as (x & -> & ->); [done|]. done.
  - by rewrite lookup_ge_None_2 by (rewrite items_length; lia).
Qed.

Lemma rank_of_node_at q : q < length cs -> rank_of_node (idat cs (S q)) sl = Some (Some (Z.of_nat q)).
Proof.
  intros Hq. destruct (cell_lt q Hq) as [c Hc]. destruct (node_item q c Hc) as (n & Hn & Hi & _). unfold rank_of_node. rewrite Hn. cbn [mbind option_bind].
  assert (item_ok (member n, score n)) as Hok by (rewrite Hi; by eapply cell_ok).
  rewrite rank_of_spec by done. rewrite Hi. unfold find_item. rewrite (proj2 (list_find_Some _ _ q (citem c))); [done|].
  rewrite items_lookup, Hc. split; [done|]. split; [apply item_eq_refl; by eapply cell_ok|]. intros j y Hy Hj He.
  rewrite items_lookup in Hy. destruct (cs !! j) as [d|] eqn:Hd; [|done]. injection Hy as <-.
  destruct (item_eq_not_lt _ _ (cell_ok j d Hd) (cell_ok q c Hc) He) as [E _]. by rewrite (cells_ordered j q d c Hd Hc Hj) in E.
Qed.
End reads.

(** ** Iteration *)

Section iterate.
Context {sl : Skiplist} {cs : list Cell} (R : rep sl cs) (Od : ordered (items cs)).

Lemma sl_iter_loop_spec n q : q <= length cs -> iter_loop n (idat cs (S q)) sl = Some (take n (drop q (items cs))).
Proof.
  revert q. induction n as [|n IH]; intros q Hq; [done|]. cbn [iter_loop]. destruct (decide (q = length cs)) as [->|Hne].
  - assert (idat cs (S (length cs)) = NIL) as -> by (unfold idat; by rewrite (lookup_ge_None_2 (row cs))). rewrite decide_True by done.
    by rewrite drop_ge, take_nil by (rewrite items_length; lia).
  - rewrite decide_False by (apply (id_not_nil R); lia). destruct (lookup_lt_is_Some_2 cs q) as [c Hc]; [lia|].
    destruct (node_item R q c Hc) as (nd & Hnd & Hi & _). rewrite Hnd. cbn [mbind option_bind].
    destruct (bottom R (S q)) as [s Hb]; [lia|]. unfold lvl in Hb. rewrite Hnd in Hb. cbn [mbind option_bind] in Hb.
    destruct (levels nd) as [|l ls]; [done|]. injection Hb as ->. cbn [forward]. rewrite IH by lia. cbn [mbind option_bind].
    rewrite (drop_S (items cs) (citem c) q) by by rewrite items_lookup, Hc. cbn [take]. by rewrite Hi.
Qed.

Lemma sl_iter_rev_loop_spec n q : q <= length cs -> iter_rev_loop n (back cs (S q)) sl = Some (take n (rev (take q (items cs)))).
Proof.
  revert q. induction n as [|n IH]; intros q Hq; [done|]. cbn [iter_rev_loop]. destruct q as [|q].
  - by rewrite decide_True.
  - assert (back cs (S (S q)) = idat cs (S q)) as -> by done. rewrite decide_False by (apply (id_not_nil R); lia).
    destruct (lookup_lt_is_Some_2 cs q) as [c Hc]; [lia|]. destruct (node_at R q c Hc) as (nd & Hnd & Hi & Hb & _). rewrite (idat_row cs (S q) c Hc), Hnd.
    cbn [mbind option_bind]. rewrite Hb, IH by lia. cbn [mbind option_bind].
    rewrite (take_S_r (items cs) q (citem c)), rev_app_distr by by rewrite items_lookup, Hc. cbn [rev app take]. by rewrite Hi.
Qed.

Lemma head_forward : forward <$> lvl HEAD 0 sl = Some (idat cs 1).
Proof. destruct (bottom R 0) as [s Hb]; [lia|]. change (idat cs 0) with HEAD in Hb. by rewrite Hb. Qed.

Lemma sl_iter_spec : iter sl = Some (items cs).
Proof.
  unfold iter. pose proof head_forward as Hh. destruct (lvl HEAD 0 sl) as [l|]; [|done]. injection Hh as Hh. cbn [mbind option_bind].
  rewrite Hh, sl_iter_loop_spec by lia. rewrite (rep_len _ _ R), drop_0, take_ge by (rewrite items_length; lia). done.
Qed.

Lemma iter_rev_spec : iter_rev sl = Some (rev (items cs)).
Proof.
  unfold iter_rev. rewrite (rep_tail _ _ R), sl_iter_rev_loop_spec by lia. rewrite (rep_len _ _ R). rewrite (take_ge (items cs)) by (rewrite items_length; lia).
  by rewrite take_ge by (rewrite length_rev, items_length; lia).
Qed.

Lemma iter_from_rank_spec k : iter_from_rank k sl = Some (drop k (items cs)).
Proof.
  unfold iter_from_rank. rewrite (node_by_rank_spec R). cbn [mbind option_bind]. case_decide.
  - rewrite sl_iter_loop_spec, (rep_len _ _ R) by lia. by rewrite take_ge by (rewrite length_drop, items_length; lia).
  - by rewrite drop_ge by (rewrite items_length; lia).
Qed.

Lemma iter_rev_from_rank_spec k : iter_rev_from_rank k sl = Some (if decide (k < length cs) then rev (take (k + 1) (items cs)) else []).
Proof.
  unfold iter_rev_from_rank. rewrite (node_by_rank_spec R). cbn [mbind option_bind]. case_decide; [|done].
  change (idat cs (S k)) with (back cs (S (S k))). rewrite sl_iter_rev_loop_spec by lia. rewrite Nat.add_1_r.
  by rewrite (take_ge (rev _)) by (rewrite length_rev, length_take; lia).
Qed.

Lemma first_spec : first sl = Some (head (items cs)).
Proof.
  unfold first. rewrite head_forward. cbn [mbind option_bind]. destruct (decide (length cs = 0)) as [E|E].
  - destruct cs; [|done]. done.
  - rewrite decide_False by (apply (id_not_nil R); lia). destruct (item_at R 0) as (x & Hx & ->); [lia|]. destruct (items cs); [done|]. simpl in *. by rewrite Hx.
Qed.

Lemma last_spec : last sl = Some (list.last (items cs)).
Proof.
  unfold last. rewrite (rep_tail _ _ R). rewrite last_lookup, items_length. destruct (length cs) as [|n] eqn:E.
  - destruct cs; [|done]. done.
  - assert (back cs (S (S n)) = idat cs (S n)) as -> by done. rewrite decide_False by (apply (id_not_nil R); lia).
    destruct (item_at R n) as (x & Hx & ->); [lia|]. cbn [pred]. by rewrite Hx.
Qed.
End iterate.

(** ** Ranges *)

Definition item_node (x : Item) : Node := {| member := x.1; score := x.2; backward := NIL; levels := [] |}.
Definition in_min (b : Bounds) (x : Item) : bool := gte_min b (item_node x).
Definition in_max (b : Bounds) (x : Item) : bool := lte_max b (item_node x).
Definition within (b : Bounds) (x : Item) : bool := in_min b x && in_max b x.

(** The bounds cut an interval out of the list. *)
Record interval (b : Bounds) (xs : list Item) : Prop := {
  iv_node : forall n, gte_min b n = in_min b (member n, score n) /\ lte_max b n = in_max b (member n, score n);
  iv_min : forall i j x y, i < j -> xs !! i = Some x -> xs !! j = Some y -> in_min b x = true -> in_min b y = true;
  iv_max : forall i j x y, i < j -> xs !! i = Some x -> xs !! j = Some y -> in_max b y = true -> in_max b x = true;
  iv_empty : empty b = true -> forall x, x ∈ xs -> within b x = false
}.

(** What is within is the elements from [lo] to [hi]. *)
Definition spans (b : Bounds) (xs : list Item) (lo hi : nat) : Prop :=
  lo <= length xs /\ hi <= length xs /\
  forall i x, xs !! i = Some x -> in_min b x = bool_decide (lo <= i) /\ in_max b x = bool_decide (i < hi).

Lemma interval_spans b xs : interval b xs -> exists lo hi, spans b xs lo hi.
Proof.
  intros I. destruct (cut_exists xs (fun x => negb (in_min b x))) as (lo & Hlo & Hl).
  { intros i j x y Hij Hx Hy Hn%negb_true_iff. apply negb_true_iff. destruct (in_min b x) eqn:E; [|done].
    by rewrite (iv_min _ _ I i j x y Hij Hx Hy E) in Hn. }
  destruct (cut_exists xs (in_max b)) as (hi & Hhi & Hh); [apply (iv_max _ _ I)|].
  exists lo, hi. split; [done|]. split; [done|]. intros i x Hx. split; [|by apply Hh].
  specialize (Hl i x Hx). rewrite <-(negb_involutive (in_min b x)), Hl. rewrite <-bool_decide_not. apply bool_decide_ext. lia.
Qed.

Lemma filter_spans b xs lo hi : spans b xs lo hi -> filter (fun x => within b x = true) xs = take (hi - lo) (drop lo xs).
Proof.
  intros (Hlo & Hhi & Hs). clear Hlo Hhi. revert lo hi Hs. induction xs as [|x xs IH]; intros lo hi Hs; [by rewrite drop_nil, take_nil|].
  destruct (Hs 0 x eq_refl) as [H1 H2]. rewrite filter_cons.
  assert (within b x = bool_decide (lo <= 0) && bool_decide (0 < hi)) as Hw by (unfold within; by rewrite H1, H2).
  assert (forall i y, xs !! i = Some y -> in_min b y = bool_decide (pred lo <= i) /\ in_max b y = bool_decide (i < pred hi)) as Hs'.
  { intros i y Hy. destruct (Hs (S i) y Hy) as [-> ->]. split; apply bool_decide_ext; lia. }
  specialize (IH _ _ Hs'). destruct lo as [|lo]; [destruct hi as [|hi]|]; cbn [pred] in *.
  - rewrite decide_False by (by rewrite Hw). by rewrite IH.
  - rewrite decide_True by (by rewrite Hw). rewrite IH. by rewrite !Nat.sub_0_r.
  - rewrite decide_False by (by rewrite Hw, bool_decide_eq_false_2 by lia). rewrite IH. cbn [drop]. f_equal. lia.
Qed.

Section ranges.
Context {sl : Skiplist} {cs : list Cell} (R : rep sl cs) (Od : ordered (items cs)).
Context {b : Bounds} (I : interval b (items cs)) {lo hi : nat} (Sp : spans b (items cs) lo hi).

Lemma node_bounds q c : cs !! q = Some c -> exists n, node (idat cs (q + 1)) sl = Some n /\ node (cid c) sl = Some n /\
  gte_min b n = bool_decide (lo <= q) /\ lte_max b n = bool_decide (q < hi).
Proof.
  intros Hc. destruct (node_item R q c Hc) as (n & Hn & Hi & Hid). exists n. rewrite Nat.add_1_r, Hn, <-Hid, Hn.
  destruct (iv_node _ _ I n) as [-> ->]. rewrite Hi. pose proof Sp as (_ & _ & Hs). split; [done|]. split; [done|].
  apply Hs. by rewrite items_lookup, Hc.
Qed.

(** With nothing within, the interval is empty. *)
Lemma empty_spans : empty b = true -> hi <= lo.
Proof.
  intros He. pose proof Sp as (Hlo & Hhi & Hs). destruct (decide (hi <= lo)) as [|Hn]; [done|]. exfalso.
  destruct (lookup_lt_is_Some_2 (items cs) lo) as [x Hx]; [lia|]. pose proof (iv_empty _ _ I He x ltac:(by eapply list_elem_of_lookup_2)) as Hw.
  destruct (Hs lo x Hx) as [H1 H2]. unfold within in Hw. rewrite H1, H2, !bool_decide_eq_true_2 in Hw by lia. done.
Qed.

Lemma in_range_spec : exists ok, in_range b sl = Some ok /\ (lo < hi -> ok = true) /\ (ok = true -> 0 < length cs /\ lo < length cs).
Proof.
  pose proof Sp as (Hlo & Hhi & _). rewrite items_length in Hlo, Hhi. unfold in_range. rewrite (rep_len _ _ R).
  destruct (empty b) eqn:He; cbn [orb]; [pose proof (empty_spans He); exists false; split; [done|]; split; [lia|done]|].
  case_bool_decide as Hz; [exists false; split; [done|]; split; [lia|done]|].
  assert (tail sl = idat cs (length cs)) as ->.
  { rewrite (rep_tail _ _ R). unfold back. rewrite decide_False by lia. f_equal. lia. }
  rewrite decide_False by (by apply (id_not_nil R)). destruct (lookup_lt_is_Some_2 cs (length cs - 1)) as [c Hc]; [lia|].
  destruct (node_bounds _ c Hc) as (n & Hn & _ & Hg & _). rewrite Nat.sub_add in Hn by lia. rewrite Hn. cbn [mbind option_bind]. rewrite Hg.
  case_bool_decide as Hl; cbn [negb]; [|exists false; split; [done|]; split; [lia|done]].
  rewrite (head_forward R). cbn [mbind option_bind]. rewrite decide_False by (apply (id_not_nil R); lia).
  destruct (lookup_lt_is_Some_2 cs 0) as [d Hd]; [lia|]. destruct (node_bounds 0 d Hd) as (n0 & Hn0 & _ & _ & Hm). cbn [Nat.add] in Hn0. rewrite Hn0. cbn [mbind option_bind].
  eexists. split; [done|]. rewrite Hm. split; [intros; by apply bool_decide_eq_true_2; lia|]. lia.
Qed.

Lemma first_node_spec : first_node b sl = Some (if decide (lo < hi) then Some (idat cs (lo + 1)) else None).
Proof.
  destruct in_range_spec as (ok & Hr & Hok & Hlt). unfold first_node. rewrite Hr. cbn [mbind option_bind].
  destruct ok; cbn [negb]; [|destruct (decide (lo < hi)) as [Hd|]; [by specialize (Hok Hd)|done]]. destruct (Hlt eq_refl) as [Hz Hlo].
  pose proof (rep_level _ _ R). change HEAD with (idat cs 0).
  rewrite (descend_spec R (level sl) _ 0 lo); [|done|intros; apply tall_head; lia|lia|lia|].
  2:{ intros q c Hc. destruct (node_bounds q c Hc) as (n & _ & -> & Hg & _). cbn [mbind option_bind]. rewrite Hg, <-bool_decide_not. f_equal. apply bool_decide_ext. lia. }
  rewrite decide_False by lia. cbn [mbind option_bind]. destruct (bottom R lo) as [s ->]; [lia|]. cbn [fmap option_fmap option_map mbind option_bind forward].
  rewrite decide_False by (apply (id_not_nil R); lia). destruct (lookup_lt_is_Some_2 cs lo) as [c Hc]; [lia|].
  destruct (node_bounds lo c Hc) as (n & Hn & _ & _ & Hm). rewrite Nat.add_1_r in *. rewrite Hn. cbn [mbind option_bind]. rewrite Hm. by case_bool_decide; case_decide.
Qed.

Lemma last_node_spec : last_node b sl = Some (if decide (lo < hi) then Some (idat cs hi) else None).
Proof.
  destruct in_range_spec as (ok & Hr & Hok & Hlt). unfold last_node. rewrite Hr. cbn [mbind option_bind].
  destruct ok; cbn [negb]; [|destruct (decide (lo < hi)) as [Hd|]; [by specialize (Hok Hd)|done]].
  pose proof Sp as (_ & Hhi & _). rewrite items_length in Hhi. pose proof (rep_level _ _ R). change HEAD with (idat cs 0) at 1.
  rewrite (descend_spec R (level sl) _ 0 hi); [|done|intros; apply tall_head; lia|lia|lia|].
  2:{ intros q c Hc. destruct (node_bounds q c Hc) as (n & _ & -> & _ & Hm). cbn [mbind option_bind]. by rewrite Hm. }
  rewrite decide_False by lia. cbn [mbind option_bind]. destruct (decide (hi = 0)) as [E|Hnz].
  { rewrite E. by rewrite decide_True, decide_False by (done || lia). }
  rewrite decide_False by (rewrite (id_head R); lia). destruct (lookup_lt_is_Some_2 cs (hi - 1)) as [c Hc]; [lia|].
  destruct (node_bounds (hi - 1) c Hc) as (n & Hn & _ & Hg & _). rewrite Nat.sub_add in Hn by lia. rewrite Hn. cbn [mbind option_bind]. rewrite Hg.
  case_bool_decide; case_decide; (done || lia).
Qed.

Lemma range_of_spec : range_of (first_node b) (last_node b) sl = Some (filter (fun x => within b x = true) (items cs)).
Proof.
  rewrite (filter_spans _ _ _ _ Sp). pose proof Sp as (Hlo & Hhi & _). rewrite items_length in Hlo, Hhi. unfold range_of. rewrite first_node_spec, last_node_spec. cbn [mbind option_bind].
  destruct (decide (lo < hi)) as [Hlt|Hge]; [|by replace (hi - lo) with 0 by lia]. cbn [rank_of_found]. rewrite Nat.add_1_r.
  rewrite (rank_of_node_at R Od) by lia. pose proof (rank_of_node_at R Od (hi - 1) ltac:(lia)) as Hr. replace (S (hi - 1)) with hi in Hr by lia. rewrite Hr. cbn [mbind option_bind].
  rewrite decide_True by lia. rewrite (sl_iter_loop_spec R) by lia. do 2 f_equal. lia.
Qed.

Lemma range_ends :
  (o ← first_node b sl; rank_of_found o sl) = Some (if decide (lo < hi) then Some (Z.of_nat lo) else None) /\
  (o ← last_node b sl; rank_of_found o sl) = Some (if decide (lo < hi) then Some (Z.of_nat hi - 1)%Z else None).
Proof.
  pose proof Sp as (Hlo & Hhi & _). rewrite items_length in Hlo, Hhi. rewrite first_node_spec, last_node_spec. cbn [mbind option_bind].
  destruct (decide (lo < hi)); [|done]. cbn [rank_of_found]. rewrite Nat.add_1_r. split; [by apply (rank_of_node_at R Od); lia|].
  pose proof (rank_of_node_at R Od (hi - 1) ltac:(lia)) as Hr. replace (S (hi - 1)) with hi in Hr by lia. rewrite Hr. do 2 f_equal. lia.
Qed.
End ranges.

(** ** The two kinds of range *)

Lemma triple_eq (a b : Z * Z * Z) : a = b <-> (a.1.1 = b.1.1 /\ a.1.2 = b.1.2 /\ a.2 = b.2)%Z.
Proof. destruct a as [[??]?], b as [[??]?]. cbn. naive_solver. Qed.

Lemma item_lt_score x y : item_ok x -> item_ok y -> item_lt x y = true -> lex_lt (float_key x.2) (float_key y.2) \/ float_key x.2 = float_key y.2.
Proof. intros Hx Hy. rewrite (item_lt_iff Hx Hy). tauto. Qed.

Definition range_ok (r : ScoreRange.t) : Prop := not_nan (value (ScoreRange.min r)) /\ not_nan (value (ScoreRange.max r)).

Lemma score_bounds r v : range_ok r -> not_nan v ->
  (ScoreRange.gte_min r v = true <-> lex_lt (float_key (value (ScoreRange.min r))) (float_key v) \/
     (exclusive (ScoreRange.min r) = false /\ float_key (value (ScoreRange.min r)) = float_key v)) /\
  (ScoreRange.lte_max r v = true <-> lex_lt (float_key v) (float_key (value (ScoreRange.max r))) \/
     (exclusive (ScoreRange.max r) = false /\ float_key v = float_key (value (ScoreRange.max r)))).
Proof.
  intros [H1 H2] Hv. unfold ScoreRange.gte_min, ScoreRange.lte_max. destruct (float_cmp _ _ H1 Hv) as (L1 & _ & E1), (float_cmp _ _ Hv H2) as (L2 & _ & E2).
  split; [destruct (exclusive (ScoreRange.min r)); rewrite ?L1, ?E1|destruct (exclusive (ScoreRange.max r)); rewrite ?L2, ?E2]; intuition congruence.
Qed.

Lemma score_interval r xs : range_ok r -> ordered xs -> interval (by_score r) xs.
Proof.
  intros Hr [Hok Ho]. rewrite Forall_forall in Hok.
  assert (forall i j x y, i < j -> xs !! i = Some x -> xs !! j = Some y -> not_nan x.2 /\ not_nan y.2 /\
    (lex_lt (float_key x.2) (float_key y.2) \/ float_key x.2 = float_key y.2)) as Hm.
  { intros i j x y Hij Hx Hy. pose proof (Hok x ltac:(by eapply list_elem_of_lookup_2)). pose proof (Hok y ltac:(by eapply list_elem_of_lookup_2)).
    split; [done|]. split; [done|]. by apply item_lt_score, (Ho i j). }
  split.
  - done.
  - intros i j x y Hij Hx Hy. destruct (Hm i j x y Hij Hx Hy) as (Nx & Ny & Hle). unfold in_min. cbn [gte_min by_score item_node score].
    rewrite (proj1 (score_bounds r _ Hr Nx)), (proj1 (score_bounds r _ Hr Ny)). pose proof (lex_lt_trans (float_key (value (ScoreRange.min r))) (float_key x.2) (float_key y.2)).
    destruct Hle as [Hle|Hle]; [|rewrite Hle in *; tauto]. intros [?|[_ E]]; [tauto|]. left. by rewrite E.
  - intros i j x y Hij Hx Hy. destruct (Hm i j x y Hij Hx Hy) as (Nx & Ny & Hle). unfold in_max. cbn [lte_max by_score item_node score].
    rewrite (proj2 (score_bounds r _ Hr Nx)), (proj2 (score_bounds r _ Hr Ny)). pose proof (lex_lt_trans (float_key x.2) (float_key y.2) (float_key (value (ScoreRange.max r)))).
    destruct Hle as [Hle|Hle]; [|rewrite Hle in *; tauto]. intros [?|[_ E]]; [tauto|]. left. by rewrite <-E.
  - cbn [empty by_score]. intros He x Hx. pose proof (Hok x Hx) as Nx. unfold within, in_min, in_max. cbn [gte_min lte_max by_score item_node score].
    apply not_true_iff_false. rewrite andb_true_iff, (proj1 (score_bounds r _ Hr Nx)), (proj2 (score_bounds r _ Hr Nx)).
    destruct Hr as [N1 N2]. unfold ScoreRange.is_empty in He. destruct (float_cmp _ _ N2 N1) as (L & _ & _), (float_cmp _ _ N1 N2) as (_ & E & _).
    set (lo := float_key (value (ScoreRange.min r))) in *. set (hi := float_key (value (ScoreRange.max r))) in *. set (k := float_key x.2) in *.
    assert (lex_lt hi lo \/ lo = hi /\ (exclusive (ScoreRange.min r) = true \/ exclusive (ScoreRange.max r) = true)) as He'.
    { destruct (Floats.SpecFloat.SFltb (value (ScoreRange.max r)) (value (ScoreRange.min r))); [left; by apply L|right].
      by apply andb_true_iff in He as [?%E ?%orb_true_iff]. }
    clear He L E. unfold lex_lt in *. rewrite !triple_eq in *. clearbody lo hi k.
    destruct (exclusive (ScoreRange.min r)), (exclusive (ScoreRange.max r)); intuition (try congruence; lia).
Qed.

(** Lexicographic ranges mean something when every member has the same score. *)
Definition one_score (xs : list Item) : Prop := forall x y, x ∈ xs -> y ∈ xs -> float_key x.2 = float_key y.2.

Lemma bytes_le_iff a b : bytes_le a b = true <-> bytes_lt a b = true \/ a = b.
Proof.
  rewrite bytes_le_not_lt, negb_true_iff, <-not_true_iff_false. destruct (bytes_lt_total a b) as [H|[->|H]].
  - split; [by left|]. intros _ H'. pose proof (bytes_lt_trans _ _ _ H H') as H''. by rewrite bytes_lt_irrefl in H''.
  - rewrite bytes_lt_irrefl. split; [by right|done].
  - split; [done|]. intros [H'| ->]; [|by rewrite bytes_lt_irrefl in H]. pose proof (bytes_lt_trans _ _ _ H H') as H''. by rewrite bytes_lt_irrefl in H''.
Qed.

Lemma lex_interval r xs : ordered xs -> one_score xs -> interval (by_lex r) xs.
Proof.
  intros [Hok Ho] H1. rewrite Forall_forall in Hok.
  assert (forall i j x y, i < j -> xs !! i = Some x -> xs !! j = Some y -> bytes_lt x.1 y.1 = true) as Hm.
  { intros i j x y Hij Hx Hy. pose proof (list_elem_of_lookup_2 _ _ _ Hx) as Ix. pose proof (list_elem_of_lookup_2 _ _ _ Hy) as Iy.
    pose proof (Ho i j x y Hx Hy Hij) as Hlt. apply (item_lt_iff (Hok _ Ix) (Hok _ Iy)) in Hlt as [Hlt|[_ Hlt]]; [|done].
    rewrite (H1 x y Ix Iy) in Hlt. by apply lex_lt_irrefl in Hlt. }
  split.
  - done.
  - intros i j x y Hij Hx Hy. pose proof (Hm i j x y Hij Hx Hy) as Hlt. unfold in_min. cbn [gte_min by_lex item_node member]. unfold LexRange.gte_min.
    destruct (LexRange.min r); rewrite ?bytes_le_iff; [done|done|intros [H| ->]; left|intros H]; try done; by eapply bytes_lt_trans.
  - intros i j x y Hij Hx Hy. pose proof (Hm i j x y Hij Hx Hy) as Hlt. unfold in_max. cbn [lte_max by_lex item_node member]. unfold LexRange.lte_max.
    destruct (LexRange.max r); rewrite ?bytes_le_iff; [done|done|intros [H|<-]; left|intros H]; try done; by eapply bytes_lt_trans.
  - cbn [empty by_lex]. intros He x _. apply not_true_iff_false. unfold within, in_min, in_max. cbn [gte_min lte_max by_lex item_node member].
    unfold LexRange.is_empty, LexRange.gte_min, LexRange.lte_max in *.
    rewrite andb_true_iff. destruct (LexRange.min r) as [| |a|a], (LexRange.max r) as [| |b|b]; cbn [LexRange.is_excl orb] in He; try naive_solver.
    all: assert (bytes_lt a b = false) as Hab by (unfold bytes_lt; by destruct (cmp a b)).
    all: rewrite ?bytes_le_iff; intros [L1 L2]; rewrite <-not_true_iff_false in Hab; apply Hab.
    + destruct L1 as [L1|L1], L2 as [L2|L2]; subst; try done; [by eapply bytes_lt_trans|]. by rewrite (proj2 (cmp_eq _ _) eq_refl) in He.
    + destruct L1 as [L1|L1]; subst; [by eapply bytes_lt_trans|done].
    + destruct L2 as [L2|L2]; subst; [by eapply bytes_lt_trans|done].
    + by eapply bytes_lt_trans.
Qed.

(** ** The theorems *)

(** C29: Whatever the heights the coin flips gave its nodes, a skip list reads as
    the ordered list of its elements: ranks both ways, ends, and iteration in
    both directions from anywhere; nothing is out of bounds. *)
Theorem skiplist_reads (sl : Skiplist) (xs : list Item) :
  holds sl xs ->
  len sl = length xs /\ iter sl = Some xs /\ iter_rev sl = Some (rev xs) /\ first sl = Some (head xs) /\ last sl = Some (list.last xs) /\
  (forall s m, not_nan s -> rank_of s m sl = Some (Z.of_nat <$> find_item (m, s) xs)) /\
  (forall k, by_rank k sl = Some (xs !! k) /\ iter_from_rank k sl = Some (drop k xs) /\
     iter_rev_from_rank k sl = Some (if decide (k < length xs) then rev (take (k + 1) xs) else [])).
Proof.
  intros (cs & R & <- & Od). rewrite items_length. split_and!.
  - by apply (rep_len _ _ R).
  - by apply (sl_iter_spec R).
  - by apply (iter_rev_spec R).
  - by apply (first_spec R).
  - by apply (last_spec R).
  - intros. by apply (rank_of_spec R Od).
  - intros k. split; [by apply (by_rank_spec R)|]. split; [by apply (iter_from_rank_spec R)|by apply (iter_rev_from_rank_spec R)].
Qed.

Lemma ranges_of sl cs b : rep sl cs -> ordered (items cs) -> interval b (items cs) ->
  exists lo hi, spans b (items cs) lo hi /\
    range_of (first_node b) (last_node b) sl = Some (filter (fun x => within b x = true) (items cs)) /\
    (o ← first_node b sl; rank_of_found o sl) = Some (if decide (lo < hi) then Some (Z.of_nat lo) else None) /\
    (o ← last_node b sl; rank_of_found o sl) = Some (if decide (lo < hi) then Some (Z.of_nat hi - 1)%Z else None).
Proof.
  intros R Od I. destruct (interval_spans _ _ I) as (lo & hi & Sp). exists lo, hi. split; [done|].
  split; [by eapply (range_of_spec R Od I Sp)|by eapply (range_ends R Od I Sp)].
Qed.

(** A range is the elements within it, a contiguous piece of the list, and
    the ranks of its ends are found: by score, for bounds that are numbers;
    lexicographically, when all scores are equal. *)
Theorem skiplist_ranges (sl : Skiplist) (xs : list Item) :
  holds sl xs ->
  (forall r, range_ok r ->
     range r sl = Some (filter (fun x => ScoreRange.contains r x.2 = true) xs) /\
     exists lo hi, spans (by_score r) xs lo hi /\
       first_in_range r sl = Some (if decide (lo < hi) then Some (Z.of_nat lo) else None) /\
       last_in_range r sl = Some (if decide (lo < hi) then Some (Z.of_nat hi - 1)%Z else None)) /\
  (forall r, one_score xs ->
     lex_range r sl = Some (filter (fun x => LexRange.contains r x.1 = true) xs) /\
     exists lo hi, spans (by_lex r) xs lo hi /\
       first_in_lex_range r sl = Some (if decide (lo < hi) then Some (Z.of_nat lo) else None) /\
       last_in_lex_range r sl = Some (if decide (lo < hi) then Some (Z.of_nat hi - 1)%Z else None)).
Proof.
  intros (cs & R & <- & Od). split; intros r Hr.
  - destruct (ranges_of sl cs (by_score r) R Od (score_interval r _ Hr Od)) as (lo & hi & Sp & Hrange & Hends). split; [exact Hrange|]. by exists lo, hi.
  - destruct (ranges_of sl cs (by_lex r) R Od (lex_interval r _ Od Hr)) as (lo & hi & Sp & Hrange & Hends). split; [exact Hrange|]. by exists lo, hi.
Qed.
