(* ===== verification/SkiplistRows.v ===== *)
(** * Inserting into a row of cells

    How the links of a row change when a cell is put between two others, or
    taken away, which is the same read backwards. *)
From S2P Require Import Prelude Dtoa Skiplist SkiplistOrder SkiplistFacts.
Open Scope nat_scope.

(** The row with [c] after the first [r] cells, and where a position goes. *)
Definition ins (r : nat) (c : Cell) (cs : list Cell) : list Cell := take r cs ++ c :: drop r cs.
(** A next position beyond [r]. *)
Definition beyond (r : nat) (o : option nat) : Prop := match o with Some q => r < q | None => True end.
#[export] Instance beyond_dec r o : Decision (beyond r o).
Proof. unfold beyond. destruct o; apply _. Defined.
Definition shift (r p : nat) : nat := if decide (p <= r) then p else S p.

(** Every position of the longer row is one or the other. *)
Lemma shift_cases r p : (exists q, p = shift r q) \/ p = S r.
Proof.
  destruct (decide (p = S r)); [by right|left]. unfold shift. destruct (decide (p <= r)).
  - exists p. by rewrite decide_True.
  - exists (p - 1). rewrite decide_False by lia. lia.
Qed.

Lemma shift_lt r p q : p < q -> shift r p < shift r q.
Proof. unfold shift. repeat case_decide; lia. Qed.

Lemma shift_lt_inv r p q : shift r p < shift r q -> p < q.
Proof. unfold shift. repeat case_decide; lia. Qed.

Lemma shift_low r p : p <= r -> shift r p = p.
Proof. intros. unfold shift. by rewrite decide_True. Qed.

Lemma shift_high r p : r < p -> shift r p = S p.
Proof. intros. unfold shift. by rewrite decide_False by lia. Qed.

Lemma shift_pos r p : 0 < p <-> 0 < shift r p.
Proof. unfold shift. case_decide; lia. Qed.

(** The link that passes over the place after the first [r] cells. *)
Definition old_link (cs : list Cell) (r l : nat) : Level := link_to cs (pred_of cs l r) (next_of cs l (pred_of cs l r)).

Section ins.
Context {r : nat} {c : Cell} {cs : list Cell} (Hr : r <= length cs).

Lemma ins_length : length (ins r c cs) = S (length cs).
Proof. unfold ins. rewrite length_app, length_take. cbn [length]. rewrite length_drop. lia. Qed.

Lemma row_S l p : row l !! S p = l !! p.
Proof. done. Qed.

Lemma row_ins_shift p : row (ins r c cs) !! shift r p = row cs !! p.
Proof.
  unfold shift. destruct p as [|p]; [by rewrite decide_True by lia|]. rewrite row_S. unfold ins. case_decide; rewrite row_S.
  - rewrite lookup_app_l by (rewrite length_take; lia). by apply lookup_take_lt.
  - rewrite lookup_app_r by (rewrite length_take; lia). rewrite length_take.
    replace (S p - r `min` length cs) with (S (p - r)) by lia. change ((c :: drop r cs) !! S (p - r)) with (drop r cs !! (p - r)).
    rewrite lookup_drop. f_equal. lia.
Qed.

Lemma row_ins_new : row (ins r c cs) !! S r = Some c.
Proof.
  rewrite row_S. unfold ins. rewrite lookup_app_r by (rewrite length_take; lia). rewrite length_take.
  by replace (r - r `min` length cs) with 0 by lia.
Qed.

Lemma idat_shift p : idat (ins r c cs) (shift r p) = idat cs p.
Proof. unfold idat. by rewrite row_ins_shift. Qed.
Lemma idat_new : idat (ins r c cs) (S r) = cid c.
Proof. unfold idat. by rewrite row_ins_new. Qed.

Lemma tall_shift l p : tall (ins r c cs) l (shift r p) <-> tall cs l p.
Proof. unfold tall. by rewrite row_ins_shift. Qed.
Lemma tall_new l : tall (ins r c cs) l (S r) <-> l < height c.
Proof. unfold tall. rewrite row_ins_new. naive_solver. Qed.

(** A link that does not pass over the new place. *)
Lemma next_shift l p : (p <= r -> height c <= l \/ exists q, next_of cs l p = Some q /\ q <= r) ->
  next_of (ins r c cs) l (shift r p) = shift r <$> next_of cs l p.
Proof.
  intros Hp. apply (next_unique (ins r c cs) l (shift r p)); [apply next_of_is|]. pose proof (next_of_is cs l p) as Ho.
  assert (forall k, shift r p < k -> tall (ins r c cs) l k -> (exists j, k = shift r j /\ tall cs l j /\ p < j) \/ (p <= r /\ k = S r /\ l < height c)) as Hk.
  { intros k Hk T. destruct (shift_cases r k) as [[j ->]| ->]; [left|right].
    - exists j. rewrite tall_shift in T. apply shift_lt_inv in Hk. done.
    - rewrite tall_new in T. unfold shift in Hk. case_decide; [done|lia]. }
  destruct (next_of cs l p) as [q|]; cbn [fmap option_fmap option_map next_is] in *.
  - destruct Ho as (Hq & Tq & Nq). split; [by apply shift_lt|]. split; [by rewrite tall_shift|].
    intros k [Hk1 Hk2] T. destruct (Hk k Hk1 T) as [(j & -> & Tj & Hj)|(Hpr & -> & Hl)].
    + apply shift_lt_inv in Hk2. by apply (Nq j).
    + destruct (Hp Hpr) as [?|(q' & [= <-] & Hqr)]; [lia|]. unfold shift in Hk2. rewrite decide_True in Hk2 by done. lia.
  - intros k Hk1 T. destruct (Hk k Hk1 T) as [(j & -> & Tj & Hj)|(Hpr & -> & Hl)]; [by apply (Ho j)|].
    destruct (Hp Hpr) as [?|(q' & ? & _)]; [lia|done].
Qed.

(** The link that now ends at the new cell, and the new cell's own. *)
Lemma next_to_new l p : pred_is cs l r p -> l < height c -> next_of (ins r c cs) l p = Some (S r).
Proof.
  intros (Hp & Tp & Np) Hl. apply (next_unique (ins r c cs) l p); [apply next_of_is|]. split; [lia|]. split; [by apply tall_new|].
  intros k Hk T. destruct (shift_cases r k) as [[j ->]| ->]; [|lia]. rewrite tall_shift in T. unfold shift in Hk. case_decide; [|lia]. apply (Np j); [lia|done].
Qed.

Lemma next_of_new l p : pred_is cs l r p -> next_of (ins r c cs) l (S r) = shift r <$> next_of cs l p.
Proof.
  intros (Hp & Tp & Np). apply (next_unique (ins r c cs) l (S r)); [apply next_of_is|]. pose proof (next_of_is cs l p) as Ho.
  assert (forall j, S r < shift r j <-> r < j) as Hj by (intros j; unfold shift; case_decide; lia).
  destruct (next_of cs l p) as [q|]; cbn [fmap option_fmap option_map next_is] in *.
  - destruct Ho as (Hq & Tq & Nq). assert (r < q) by (destruct (decide (r < q)); [done|]; by destruct (Np q); [lia|]).
    split; [by apply Hj|]. split; [by rewrite tall_shift|]. intros k [Hk1 Hk2] T.
    destruct (shift_cases r k) as [[j ->]| ->]; [|lia]. rewrite tall_shift in T. apply Hj in Hk1. apply shift_lt_inv in Hk2. apply (Nq j); [lia|done].
  - intros k Hk T. destruct (shift_cases r k) as [[j ->]| ->]; [|lia]. rewrite tall_shift in T. apply Hj in Hk. apply (Ho j); [lia|done].
Qed.

Lemma pred_ins l : pred_of (ins r c cs) l r = pred_of cs l r.
Proof.
  assert (forall k, k <= r -> pred_of (ins r c cs) l k = pred_of cs l k) as H; [|by apply H].
  intros k. induction k as [|k IH]; intros Hk; [done|]. cbn [pred_of].
  pose proof (tall_shift l (S k)) as T. rewrite shift_low in T by done.
  destruct (decide (tall (ins r c cs) l (S k))) as [H1|H1], (decide (tall cs l (S k))) as [H2|H2]; [done|tauto|tauto|]. apply IH. lia.
Qed.

(** Only the link of the predecessor passes over the new place. *)
Lemma next_low l p : l < MAX_LEVEL -> tall cs l p -> p <= r -> p <> pred_of cs l r -> exists q, next_of cs l p = Some q /\ q <= r.
Proof.
  intros Hl Tp Hp Hne. pose proof (next_of_is cs l p) as Ho. pose proof (pred_of_is cs l r Hl) as (Hq & Tq & Nq). set (q := pred_of cs l r) in *.
  assert (p < q) as Hpq.
  { destruct (decide (p < q)); [done|]. destruct (decide (q < p)) as [Hd|]; [|lia]. exfalso. by apply (Nq p). }
  destruct (next_of cs l p) as [o|]; cbn [next_is] in Ho; [|by destruct (Ho q)]. exists o. split; [done|].
  destruct (decide (o <= r)); [done|]. destruct Ho as (_ & _ & No). exfalso. apply (No q); [lia|done].
Qed.

(** The links of the longer row, from those of the shorter. *)
Lemma link_shift p o : beyond p o ->
  link_to (ins r c cs) (shift r p) (shift r <$> o) =
  {| forward := forward (link_to cs p o);
     span := span (link_to cs p o) + (if decide (p <= r /\ beyond r o) then 1 else 0) |}.
Proof.
  intros Hpo. destruct o as [q|]; cbn [fmap option_fmap option_map link_to forward span] in *.
  - rewrite idat_shift. f_equal. unfold shift, beyond in *. repeat case_decide; lia.
  - f_equal. rewrite ins_length. unfold shift, beyond. repeat case_decide; lia.
Qed.

Lemma next_beyond l p : beyond p (next_of cs l p).
Proof. pose proof (next_of_is cs l p) as H. destruct (next_of cs l p); [apply H|done]. Qed.

Lemma next_past l p o : pred_is cs l r p -> next_is cs l p o -> beyond r o.
Proof.
  intros (Hp & Tp & Np). destruct o as [q|]; [|done]. intros (Hq & Tq & _). destruct (decide (r < q)); [done|]. exfalso. apply (Np q); [lia|done].
Qed.

Lemma ins_link_old l p : l < MAX_LEVEL -> tall cs l p ->
  link_to (ins r c cs) (shift r p) (next_of (ins r c cs) l (shift r p)) =
  if decide (p = pred_of cs l r) then
    (if decide (l < height c) then {| forward := cid c; span := Z.of_nat r - Z.of_nat p + 1 |}
     else {| forward := forward (old_link cs r l); span := span (old_link cs r l) + 1 |})
  else link_to cs p (next_of cs l p).
Proof.
  intros Hl Tp. pose proof (pred_of_is cs l r Hl) as Hpred. case_decide as Hp; [case_decide as Hh|].
  - subst p. destruct Hpred as (Hle & T & N). rewrite shift_low by done. rewrite next_to_new by done. cbn [link_to]. rewrite idat_new. f_equal. lia.
  - subst p. rewrite next_shift by (intros; left; lia). rewrite link_shift by apply next_beyond. unfold old_link.
    rewrite decide_True; [done|]. split; [by destruct Hpred|]. by apply (next_past l (pred_of cs l r)), next_of_is.
  - assert (p <= r -> exists q, next_of cs l p = Some q /\ q <= r) as Hlow by (intros; by apply next_low).
    rewrite next_shift by (intros; right; by apply Hlow). rewrite link_shift by apply next_beyond. rewrite decide_False; [rewrite Z.add_0_r; by destruct (link_to _ _ _)|].
    intros [Hpr Hq]. destruct (Hlow Hpr) as (q & E & Hqr). rewrite E in Hq. cbn [beyond] in Hq. lia.
Qed.

Lemma ins_link_new l : l < MAX_LEVEL ->
  link_to (ins r c cs) (S r) (next_of (ins r c cs) l (S r)) =
  {| forward := forward (old_link cs r l); span := span (old_link cs r l) - (Z.of_nat r - Z.of_nat (pred_of cs l r)) |}.
Proof.
  intros Hl. pose proof (pred_of_is cs l r Hl) as Hpred. rewrite (next_of_new l _ Hpred). unfold old_link.
  pose proof (next_past _ _ _ Hpred (next_of_is cs l _)) as Hq. destruct (next_of cs l _) as [q|]; cbn [beyond fmap option_fmap option_map link_to forward span] in *.
  - rewrite idat_shift. f_equal. unfold shift. case_decide; lia.
  - f_equal. rewrite ins_length. lia.
Qed.

(** Backward links. *)
Lemma back_shift p : 0 < p -> back (ins r c cs) (shift r p) = if decide (p = S r) then cid c else back cs p.
Proof.
  intros Hp. unfold back. destruct (decide (p = S r)) as [->|E]; [|destruct (decide (p <= r))].
  - rewrite shift_high, decide_False by lia. replace (S (S r) - 1) with (S r) by lia. by rewrite idat_new.
  - rewrite shift_low by done. case_decide; [done|]. rewrite <-(idat_shift (p - 1)). by rewrite shift_low by lia.
  - rewrite shift_high by lia. rewrite !decide_False by lia. rewrite <-(idat_shift (p - 1)), shift_high by lia. f_equal. lia.
Qed.
Lemma back_new : back (ins r c cs) (S r) = back cs (S r).
Proof. unfold back. case_decide; [done|]. replace (S r - 1) with r by lia. rewrite <-(idat_shift r). by rewrite shift_low by lia. Qed.
End ins.

(** At the bottom the link leads to the neighbour. *)
Lemma old_link_forward cs r : (forall d, d ∈ cs -> 1 <= height d) -> r <= length cs -> forward (old_link cs r 0) = idat cs (S r).
Proof.
  intros Hh Hr. unfold old_link. assert (pred_of cs 0 r = r) as ->.
  { destruct r as [|r]; [done|]. cbn [pred_of]. rewrite decide_True; [done|]. destruct (row_lt cs (S r) Hr) as [d Hd]. exists d. split; [done|].
    apply row_in, Hh in Hd. lia. }
  pose proof (next_of_is cs 0 r) as Ho. apply next_zero in Ho; [|done|done]. rewrite Ho. case_decide; [done|].
  cbn [link_to forward]. unfold idat. by rewrite lookup_ge_None_2 by (rewrite row_length; lia).
Qed.

Lemma ins_perm r c cs : ins r c cs ≡ₚ c :: cs.
Proof. unfold ins. by rewrite <-Permutation_middle, take_drop. Qed.

Lemma ids_ins r c cs : cid <$> row (ins r c cs) ≡ₚ cid c :: (cid <$> row cs).
Proof. unfold row. cbn [fmap list_fmap]. rewrite (ins_perm r c cs). cbn [fmap list_fmap]. constructor. Qed.

(** Links depend on indices and heights only. *)
Lemma next_ext cs cs' l p : (forall k, tall cs l k <-> tall cs' l k) -> next_of cs l p = next_of cs' l p.
Proof.
  intros Ht. apply (next_unique cs' l p); [|apply next_of_is]. pose proof (next_of_is cs l p) as Ho.
  destruct (next_of cs l p) as [q|]; cbn [next_is] in *.
  - destruct Ho as (? & ? & Hn). split; [done|]. split; [by apply Ht|]. intros k Hk. rewrite <-Ht. by apply Hn.
  - intros k Hk. rewrite <-Ht. by apply Ho.
Qed.

(** The row with the element of one cell replaced. *)
Definition recell (r : nat) (x : Item) (cs : list Cell) : list Cell :=
  alter (fun c => {| cid := cid c; citem := x; height := height c |}) r cs.

Lemma row_recell r x cs p : row (recell r x cs) !! p =
  (fun c => if decide (p = S r) then {| cid := cid c; citem := x; height := height c |} else c) <$> row cs !! p.
Proof.
  destruct p as [|p]; [done|]. change (row (recell r x cs) !! S p) with (recell r x cs !! p). change (row cs !! S p) with (cs !! p).
  unfold recell. destruct (decide (p = r)) as [->|Hne].
  - rewrite list_lookup_alter_eq. destruct (cs !! r); [|done]. cbn. by rewrite decide_True.
  - rewrite list_lookup_alter_ne by done. destruct (cs !! p); [|done]. cbn. by rewrite decide_False by lia.
Qed.

Lemma recell_ids r x cs p : idat (recell r x cs) p = idat cs p /\ forall l, tall (recell r x cs) l p <-> tall cs l p.
Proof.
  unfold idat, tall. rewrite row_recell. destruct (row cs !! p) as [c|]; [|split; [done|naive_solver]]. cbn. split; [by case_decide|].
  intros l. case_decide; naive_solver.
Qed.

Lemma recell_length r x cs : length (recell r x cs) = length cs.
Proof. apply length_alter. Qed.
