(* ===== verification/SkiplistWrites.v ===== *)
(** * Writing to a skip list ([src/encoding/skiplist.rs])

    Insertion, deletion and the change of a score, on the arena: the loops over
    the levels, then the whole operations as those of the ordered list. *)
From S2P Require Import Prelude Dtoa Skiplist SkiplistOrder SkiplistFacts SkiplistReads SkiplistRows.
Open Scope nat_scope.

(** ** Stores *)

(** Only links changed. *)
Definition same_nodes (sl sl' : Skiplist) : Prop :=
  length (nodes sl') = length (nodes sl) /\ free sl' = free sl /\ tail sl' = tail sl /\ level sl' = level sl /\ len sl' = len sl /\
  forall i n, node i sl = Some n -> exists n', node i sl' = Some n' /\ member n' = member n /\ score n' = score n /\
    backward n' = backward n /\ length (levels n') = length (levels n).

Lemma same_nodes_refl sl : same_nodes sl sl.
Proof. repeat split; eauto 10. Qed.

Lemma same_nodes_trans sl1 sl2 sl3 : same_nodes sl1 sl2 -> same_nodes sl2 sl3 -> same_nodes sl1 sl3.
Proof.
  intros (A1 & A2 & A3 & A4 & A5 & A6) (B1 & B2 & B3 & B4 & B5 & B6). repeat split; try congruence.
  intros i n Hn. destruct (A6 i n Hn) as (n' & Hn' & ? & ? & ? & ?). destruct (B6 i n' Hn') as (n'' & ? & ? & ? & ? & ?).
  exists n''. repeat split; congruence.
Qed.

Lemma upd_node_spec i f n sl : node i sl = Some n ->
  exists sl', upd_node i f sl = Some sl' /\ length (nodes sl') = length (nodes sl) /\ free sl' = free sl /\ tail sl' = tail sl /\
    level sl' = level sl /\ len sl' = len sl /\ forall j, node j sl' = if decide (j = i) then Some (f n) else node j sl.
Proof.
  intros Hn. unfold upd_node. rewrite Hn. cbn [mbind option_bind]. eexists. split; [done|]. cbn [nodes free tail level len set_nodes].
  rewrite length_insert. repeat split. intros j. unfold node in *. cbn [nodes set_nodes]. pose proof (lookup_lt_Some _ _ _ Hn).
  case_decide as Hj; [subst j; by apply list_lookup_insert_eq|]. apply list_lookup_insert_ne. lia.
Qed.

Lemma set_lvl_spec i l v v0 sl : lvl i l sl = Some v0 ->
  exists sl', set_lvl i l v sl = Some sl' /\ same_nodes sl sl' /\
    forall j k, lvl j k sl' = if decide (j = i /\ k = l) then Some v else lvl j k sl.
Proof.
  intros Hl. unfold set_lvl. rewrite Hl. cbn [mbind option_bind]. unfold lvl in Hl. destruct (node i sl) as [n|] eqn:Hn; [|done]. cbn [mbind option_bind] in Hl.
  destruct (upd_node_spec i (fun n => set_levels (<[l:=v]> (levels n)) n) n sl Hn) as (sl' & E & ? & ? & ? & ? & ? & Hnode).
  exists sl'. split; [done|]. pose proof (lookup_lt_Some _ _ _ Hl). split.
  - repeat split; try done. intros j m Hm. rewrite Hnode. case_decide as Hj; [subst j|by exists m].
    replace m with n by congruence. eexists. split; [done|]. cbn [member score backward levels set_levels]. by rewrite length_insert.
  - intros j k. unfold lvl. rewrite Hnode. destruct (decide (j = i)) as [->|Hj]; [|by rewrite decide_False by naive_solver].
    rewrite Hn. cbn [mbind option_bind levels set_levels]. destruct (decide (k = l)) as [->|Hk].
    + rewrite decide_True by done. by apply list_lookup_insert_eq.
    + rewrite decide_False by naive_solver. by apply list_lookup_insert_ne.
Qed.

Lemma put_spec {A} i (v : A) l : i < length l -> put i v l = Some (<[i:=v]> l).
Proof. intros. unfold put. by rewrite decide_True. Qed.

(** The level a deletion or an insertion works on: the predecessor's index. *)
Definition pred_id (cs : list Cell) (r l : nat) : N := idat cs (pred_of cs l r).

(** [update] (and [rank]) up to level [n]. *)
Definition updates (cs : list Cell) (r n : nat) (update : list N) : Prop :=
  length update = MAX_LEVEL /\ forall l, l < n -> update !! l = Some (pred_id cs r l).
Definition ranked (cs : list Cell) (r n : nat) (ranks : list Z) : Prop :=
  length ranks = MAX_LEVEL /\ forall l, l < n -> ranks !! l = Some (Z.of_nat (pred_of cs l r)).

(** ** The descents *)

Section descents.
Context {sl : Skiplist} {cs : list Cell} (R : rep sl cs) {s : f64} {m : bytes} {r : nat} (Hr : r <= length cs)
  (Hcut : forall q c, cs !! q = Some c -> item_lt (citem c) (m, s) = bool_decide (q < r)).

Lemma node_lt_at q c : cs !! q = Some c -> node_lt (cid c) s m sl = Some (bool_decide (q < r)).
Proof.
  intros Hc. destruct (node_at R q c Hc) as (n & Hn & Hi & _). unfold node_lt. rewrite Hn. cbn [mbind option_bind].
  f_equal. rewrite <-(Hcut q c Hc). unfold item_lt. by rewrite <-Hi.
Qed.

Lemma update_descent_spec n p update :
  n <= level sl -> (0 < n -> tall cs (n - 1) p) -> p <= r -> length update = MAX_LEVEL ->
  exists update', update_descent n s m (idat cs p) update sl = Some (idat cs (if decide (n = 0) then p else r), update') /\
    length update' = MAX_LEVEL /\ forall l, update' !! l = if decide (l < n) then Some (pred_id cs r l) else update !! l.
Proof.
  pose proof (rep_level _ _ R) as Hlv. revert p update. induction n as [|i IH]; intros p update Hn Tp Hp Hu; [exists update; split; [done|]; split; [done|]; done|].
  cbn [update_descent]. pose proof (walk_spec R (fun f _ => node_lt f s m sl) i p r (- Z.of_nat p) ltac:(lia)) as Hw. rewrite Z.add_opp_diag_r in Hw.
  rewrite Hw; [clear Hw|replace i with (S i - 1) by lia; apply Tp; lia|done|intros q c _ Hc _; by apply (node_lt_at q)].
  cbn [mbind option_bind]. rewrite put_spec by lia. cbn [mbind option_bind]. pose proof (pred_le R i r ltac:(lia)).
  destruct (IH (pred_of cs i r) (<[i:=idat cs (pred_of cs i r)]> update)) as (u' & E & Hl & Hu'); [lia|intros; apply (pred_tall R); lia|done|by rewrite length_insert|].
  exists u'. rewrite E. split; [do 2 f_equal|].
  - destruct (decide (i = 0)) as [->|]; [by rewrite (pred_zero R)|done].
  - split; [done|]. intros l. rewrite Hu'. destruct (decide (l < i)); [by rewrite decide_True by lia|]. destruct (decide (l = i)) as [->|].
    + rewrite decide_True by lia. apply list_lookup_insert_eq. lia.
    + rewrite decide_False by lia. by apply list_lookup_insert_ne.
Qed.

Lemma insert_descent_spec n p update ranks :
  n <= level sl -> (0 < n -> tall cs (n - 1) p) -> p <= r -> length update = MAX_LEVEL -> length ranks = MAX_LEVEL ->
  (if decide (n = level sl) then p = 0 else ranks !! n = Some (Z.of_nat p)) ->
  exists update' ranks', insert_descent n s m (idat cs p) update ranks sl = Some (update', ranks') /\
    length update' = MAX_LEVEL /\ length ranks' = MAX_LEVEL /\
    forall l, (update' !! l = if decide (l < n) then Some (pred_id cs r l) else update !! l) /\
              (ranks' !! l = if decide (l < n) then Some (Z.of_nat (pred_of cs l r)) else ranks !! l).
Proof.
  pose proof (rep_level _ _ R) as Hlv. revert p update ranks. induction n as [|i IH]; intros p update ranks Hn Tp Hp Hu Hk Hrk; [by exists update, ranks|].
  cbn [insert_descent]. assert ((if decide (i + 1 = level sl) then Some 0%Z else ranks !! (i + 1)) = Some (Z.of_nat p)) as ->.
  { rewrite Nat.add_1_r. destruct (decide (S i = level sl)); [by subst p|done]. }
  cbn [mbind option_bind]. pose proof (walk_spec R (fun f _ => node_lt f s m sl) i p r 0 ltac:(lia)) as Hw. rewrite !Z.add_0_r in Hw.
  rewrite Hw; [clear Hw|replace i with (S i - 1) by lia; apply Tp; lia|done|intros q c _ Hc _; by apply (node_lt_at q)].
  cbn [mbind option_bind]. rewrite !put_spec by lia. cbn [mbind option_bind]. pose proof (pred_le R i r ltac:(lia)).
  edestruct (IH (pred_of cs i r)) as (u' & k' & E & Hlu & Hlk & Hl);
    [lia|intros; apply (pred_tall R); lia|done|by rewrite length_insert|by rewrite length_insert| |].
  { rewrite decide_False by lia. apply list_lookup_insert_eq. lia. }
  exists u', k'. split; [exact E|]. split; [done|]. split; [done|]. intros l. destruct (Hl l) as [-> ->].
  destruct (decide (l < i)); [by rewrite !decide_True by lia|]. destruct (decide (l = i)) as [->|].
  - rewrite !(decide_True (P := i < S i)) by lia. split; apply list_lookup_insert_eq; lia.
  - rewrite !(decide_False (P := l < S i)) by lia. split; by apply list_lookup_insert_ne.
Qed.

Lemma find_descent : exists update, update_descent (level sl) s m HEAD (replicate MAX_LEVEL HEAD) sl = Some (idat cs r, update) /\ updates cs r (level sl) update.
Proof.
  pose proof (rep_level _ _ R) as Hlv. destruct (update_descent_spec (level sl) 0 (replicate MAX_LEVEL HEAD)) as (u & E & Hl & Hu);
    [done|intros; apply tall_head; lia|lia|by rewrite length_replicate|].
  rewrite decide_False in E by lia. exists u. split; [done|]. split; [done|]. intros l Hlt. by rewrite Hu, decide_True.
Qed.
End descents.

(** ** Raising the list *)

Lemma same_nodes_rep sl sl' cs L :
  rep sl cs -> same_nodes sl sl' -> 1 <= L <= MAX_LEVEL -> (forall c, c ∈ cs -> height c <= L) ->
  (forall p l c, row cs !! p = Some c -> l < height c -> l < L -> lvl (cid c) l sl' = Some (link_to cs p (next_of cs l p))) ->
  rep (set_level L sl') cs.
Proof.
  intros R (E1 & E2 & E3 & E4 & E5 & En) HL Hh Hlk. split; cbn [len level free nodes tail set_level].
  - by rewrite E5, (rep_len _ _ R).
  - done.
  - intros c Hc. pose proof (rep_heights _ _ R c Hc). pose proof (Hh c Hc). lia.
  - rewrite E2. apply (rep_ids _ _ R).
  - intros i Hi. rewrite E2 in Hi. rewrite E1. by apply (rep_arena _ _ R).
  - rewrite E1. apply (rep_small _ _ R).
  - intros p c Hc. destruct (rep_node _ _ R p c Hc) as (n & Hn & Hl & Hb). destruct (En _ n Hn) as (n' & Hn' & H1 & H2 & H3 & H4).
    exists n'. split; [done|]. split; [congruence|]. rewrite H1, H2, H3. done.
  - done.
  - rewrite E3. apply (rep_tail _ _ R).
Qed.

Lemma header_levels sl cs l : rep sl cs -> l < MAX_LEVEL -> exists v, lvl HEAD l sl = Some v.
Proof.
  intros R Hl. destruct (rep_node _ _ R 0 hcell eq_refl) as (n & Hn & Hlen & _). change (cid hcell) with HEAD in Hn.
  unfold lvl. rewrite Hn. cbn [mbind option_bind]. destruct (lookup_lt_is_Some_2 (levels n) l) as [v Hv]; [|by exists v]. rewrite Hlen. done.
Qed.

(** The arena has room for the cells, so positions fit their width. *)
Lemma arena_room sl cs : rep sl cs -> S (length cs + length (free sl)) <= length (nodes sl).
Proof.
  intros R. pose proof (rep_ids _ _ R) as Hn. pose proof (rep_arena _ _ R) as Ha.
  assert (N.to_nat <$> (cid <$> row cs) ++ free sl ⊆+ seq 0 (length (nodes sl))) as Hs.
  { apply NoDup_submseteq; [by apply NoDup_fmap_2_strong; [intros; lia|]|]. intros x Hx. apply list_elem_of_fmap in Hx as (i & -> & Hi).
    apply elem_of_seq. specialize (Ha i Hi). lia. }
  apply submseteq_length in Hs. rewrite length_fmap, length_app, length_fmap, length_seq, row_length in Hs. lia.
Qed.

Lemma small_len sl cs : rep sl cs -> (Z.of_nat (length cs) < 2 ^ 32 - 1)%Z.
Proof. intros R. pose proof (arena_room _ _ R). pose proof (rep_small _ _ R). unfold NIL in *. lia. Qed.

Lemma wrapu32 z : (0 <= z < 2 ^ 32)%Z -> wrapu 32 z = z.
Proof. intros. by apply wrapu_small. Qed.

Lemma raise_levels_spec n i update ranks sl :
  i + n <= MAX_LEVEL -> length update = MAX_LEVEL -> length ranks = MAX_LEVEL -> (forall l, l < MAX_LEVEL -> exists v, lvl HEAD l sl = Some v) ->
  exists u' k' sl', raise_levels n i update ranks sl = Some (u', k', sl') /\ same_nodes sl sl' /\ length u' = MAX_LEVEL /\ length k' = MAX_LEVEL /\
    (forall l, u' !! l = if decide (i <= l < i + n) then Some HEAD else update !! l) /\
    (forall l, k' !! l = if decide (i <= l < i + n) then Some 0%Z else ranks !! l) /\
    (forall j k, lvl j k sl' = if decide (j = HEAD /\ i <= k < i + n) then Some {| forward := NIL; span := wrapu 32 (Z.of_nat (len sl)) |} else lvl j k sl).
Proof.
  revert i update ranks sl. induction n as [|n IH]; intros i update ranks sl Hi Hu Hk Hh.
  - exists update, ranks, sl. split; [done|]. split; [apply same_nodes_refl|]. split; [done|]. split; [done|].
    split; [|split]; intros; rewrite decide_False by lia; done.
  - cbn [raise_levels]. rewrite !put_spec by lia. cbn [mbind option_bind]. destruct (Hh i ltac:(lia)) as [v Hv].
    destruct (set_lvl_spec HEAD i {| forward := NIL; span := wrapu 32 (Z.of_nat (len sl)) |} v sl Hv) as (sl1 & -> & Sn & Hl1). cbn [mbind option_bind].
    destruct (IH (i + 1) (<[i:=HEAD]> update) (<[i:=0%Z]> ranks) sl1) as (u' & k' & sl' & E & Sn' & Hlu & Hlk & Hu' & Hk' & Hl');
      [lia|by rewrite length_insert|by rewrite length_insert| |].
    { intros l Hl. rewrite Hl1. case_decide; eauto. }
    exists u', k', sl'. split; [done|]. split; [by eapply same_nodes_trans|]. split; [done|]. split; [done|].
    assert (len sl1 = len sl) as El by apply Sn. split; [|split].
    + intros l. rewrite Hu'. destruct (decide (l = i)) as [->|]; [rewrite decide_False, decide_True by lia; by apply list_lookup_insert_eq; lia|].
      rewrite list_lookup_insert_ne by done. do 2 case_decide; (done || lia).
    + intros l. rewrite Hk'. destruct (decide (l = i)) as [->|]; [rewrite decide_False, decide_True by lia; by apply list_lookup_insert_eq; lia|].
      rewrite list_lookup_insert_ne by done. do 2 case_decide; (done || lia).
    + intros j k. rewrite Hl', Hl1, El. destruct (decide (j = HEAD)) as [->|]; [|by rewrite !decide_False by naive_solver].
      destruct (decide (k = i)) as [->|]; [by rewrite (decide_False (P := HEAD = HEAD /\ i + 1 <= i < _)), !decide_True by lia|].
      rewrite (decide_False (P := HEAD = HEAD /\ k = i)) by naive_solver. do 2 case_decide; (done || lia).
Qed.

Lemma pred_high cs l r : (forall c, c ∈ cs -> height c <= l) -> pred_of cs l r = 0.
Proof.
  intros Hh. induction r as [|r IH]; [done|]. cbn [pred_of]. rewrite decide_False; [done|].
  intros (c & Hc & Hl). apply row_in, Hh in Hc. lia.
Qed.

Lemma next_high cs l p : (forall c, c ∈ cs -> height c <= l) -> next_of cs l p = None.
Proof.
  intros Hh. apply (next_unique cs l p); [apply next_of_is|]. intros k Hk (c & Hc & Hl). destruct k as [|k]; [lia|]. apply row_in, Hh in Hc. lia.
Qed.

Lemma raise_rep sl cs r L update ranks :
  rep sl cs -> level sl <= L <= MAX_LEVEL -> updates cs r (level sl) update -> ranked cs r (level sl) ranks ->
  exists u' k' sl', raise_levels (L - level sl) (level sl) update ranks sl = Some (u', k', sl') /\ rep (set_level L sl') cs /\
    updates cs r L u' /\ ranked cs r L k' /\ length (nodes sl') = length (nodes sl) /\ free sl' = free sl.
Proof.
  intros R HL (Hlu & Hu) (Hlk & Hk). pose proof (rep_level _ _ R) as Hlv.
  destruct (raise_levels_spec (L - level sl) (level sl) update ranks sl) as (u' & k' & sl' & E & Sn & Hlu' & Hlk' & Hu' & Hk' & Hl');
    [lia|done|done|intros; by eapply header_levels|].
  exists u', k', sl'. split; [done|].
  assert (forall l, level sl <= l -> forall c, c ∈ cs -> height c <= l) as Hhigh by (intros l Hl c Hc; pose proof (rep_heights _ _ R c Hc); lia).
  split; [|split; [|split; [|split; apply Sn]]].
  - apply (same_nodes_rep sl); [done|done|lia|apply Hhigh; lia|].
    intros p l c Hc Hh Hl. rewrite Hl'. destruct (decide (l < level sl)) as [Hlo|Hhi].
    + rewrite decide_False by lia. by apply (rep_links _ _ R).
    + destruct p as [|p]; [|apply row_in, (rep_heights _ _ R) in Hc; lia]. injection Hc as <-. change (cid hcell) with HEAD.
      rewrite decide_True by (split; [done|lia]). rewrite next_high by (apply Hhigh; lia). cbn [link_to]. do 2 f_equal.
      rewrite (rep_len _ _ R). pose proof (small_len _ _ R). rewrite wrapu32 by lia. lia.
  - split; [done|]. intros l Hl. rewrite Hu'. case_decide.
    + unfold pred_id. by rewrite pred_high by (apply Hhigh; lia).
    + apply Hu. lia.
  - split; [done|]. intros l Hl. rewrite Hk'. case_decide.
    + by rewrite pred_high by (apply Hhigh; lia).
    + apply Hk. lia.
Qed.

(** ** The loops over the levels *)

Section loops.
Context (up : nat -> N) (old : nat -> Level) (rk : nat -> Z) (x : N).

Definition step (k : nat) : Z := wrapu 32 (rk 0 - rk k).

Lemma link_levels_spec n i update ranks sl :
  (forall l, i <= l < i + n -> update !! l = Some (up l) /\ ranks !! l = Some (rk l) /\ lvl (up l) l sl = Some (old l) /\ up l <> x /\ exists v, lvl x l sl = Some v) ->
  ranks !! 0 = Some (rk 0) ->
  exists sl', link_levels n i x update ranks sl = Some sl' /\ same_nodes sl sl' /\
    forall j k, lvl j k sl' = if decide (i <= k < i + n) then
        (if decide (j = x) then Some {| forward := forward (old k); span := wrapu 32 (span (old k) - step k) |}
         else if decide (j = up k) then Some {| forward := x; span := wrapu 32 (step k + 1) |} else lvl j k sl)
      else lvl j k sl.
Proof.
  revert i sl. induction n as [|n IH]; intros i sl Hl H0.
  { exists sl. split; [done|]. split; [apply same_nodes_refl|]. intros. by rewrite decide_False by lia. }
  cbn [link_levels]. destruct (Hl i ltac:(lia)) as (-> & Hr & Ho & Hne & v & Hv). cbn [mbind option_bind]. rewrite Ho. cbn [mbind option_bind].
  rewrite H0. cbn [mbind option_bind]. rewrite Hr. cbn [mbind option_bind]. fold (step i).
  destruct (set_lvl_spec x i {| forward := forward (old i); span := wrapu 32 (span (old i) - step i) |} v sl Hv) as (sl1 & -> & Sn1 & Hl1). cbn [mbind option_bind].
  destruct (set_lvl_spec (up i) i {| forward := x; span := wrapu 32 (step i + 1) |} (old i) sl1) as (sl2 & -> & Sn2 & Hl2); [rewrite Hl1, decide_False; naive_solver|].
  cbn [mbind option_bind]. assert (forall j k, k <> i -> lvl j k sl2 = lvl j k sl) as Hkeep by (intros j k Hk; by rewrite Hl2, Hl1, !decide_False by naive_solver).
  destruct (IH (i + 1) sl2) as (sl' & E & Sn' & Hl'); [|done|].
  { intros l Hli. rewrite !Hkeep by lia. apply Hl. lia. }
  exists sl'. split; [done|]. split; [by eapply same_nodes_trans, same_nodes_trans|]. intros j k. rewrite Hl'.
  destruct (decide (k = i)) as [->|Hk].
  - rewrite decide_False, decide_True by lia. rewrite Hl2, Hl1. repeat case_decide; naive_solver.
  - rewrite !Hkeep by done. repeat case_decide; (done || lia).
Qed.

Lemma widen_levels_spec n i update sl :
  (forall l, i <= l < i + n -> update !! l = Some (up l) /\ lvl (up l) l sl = Some (old l)) ->
  exists sl', widen_levels n i update sl = Some sl' /\ same_nodes sl sl' /\
    forall j k, lvl j k sl' = if decide (i <= k < i + n /\ j = up k) then Some {| forward := forward (old k); span := wrapu 32 (span (old k) + 1) |} else lvl j k sl.
Proof using up old.
  clear rk x. revert i sl. induction n as [|n IH]; intros i sl Hl.
  { exists sl. split; [done|]. split; [apply same_nodes_refl|]. intros. by rewrite decide_False by lia. }
  cbn [widen_levels]. destruct (Hl i ltac:(lia)) as (-> & Ho). cbn [mbind option_bind]. rewrite Ho. cbn [mbind option_bind].
  destruct (set_lvl_spec (up i) i {| forward := forward (old i); span := wrapu 32 (span (old i) + 1) |} (old i) sl Ho) as (sl1 & -> & Sn1 & Hl1). cbn [mbind option_bind].
  destruct (IH (i + 1) sl1) as (sl' & E & Sn' & Hl').
  { intros l Hli. rewrite Hl1, decide_False by lia. apply Hl. lia. }
  exists sl'. split; [done|]. split; [by eapply same_nodes_trans|]. intros j k. rewrite Hl', Hl1.
  destruct (decide (k = i)) as [->|Hk]; repeat case_decide; (done || naive_solver lia).
Qed.

(** What [unlink] leaves of a predecessor's link, [xl] being the node's own. *)
Definition unlinked (xl : nat -> Level) (k : nat) : Level :=
  if decide (forward (old k) = x) then {| forward := forward (xl k); span := wrapu 32 (wrapu 32 (span (old k) + span (xl k)) - 1) |}
  else {| forward := forward (old k); span := wrapu 32 (span (old k) - 1) |}.

Lemma unlink_levels_spec (xl : nat -> Level) n i update sl :
  (forall l, i <= l < i + n -> update !! l = Some (up l) /\ lvl (up l) l sl = Some (old l) /\ up l <> x /\
     (forward (old l) = x -> lvl x l sl = Some (xl l))) ->
  exists sl', unlink_levels n i x update sl = Some sl' /\ same_nodes sl sl' /\
    forall j k, lvl j k sl' = if decide (i <= k < i + n /\ j = up k) then Some (unlinked xl k) else lvl j k sl.
Proof using up old x.
  clear rk. revert i sl. induction n as [|n IH]; intros i sl Hl.
  { exists sl. split; [done|]. split; [apply same_nodes_refl|]. intros. by rewrite decide_False by lia. }
  cbn [unlink_levels]. destruct (Hl i ltac:(lia)) as (-> & Ho & Hne & Hx). cbn [mbind option_bind]. rewrite Ho. cbn [mbind option_bind].
  assert ((if decide (forward (old i) = x) then xl0 ← lvl x i sl; Some {| forward := forward xl0; span := wrapu 32 (wrapu 32 (span (old i) + span xl0) - 1) |}
    else Some {| forward := forward (old i); span := wrapu 32 (span (old i) - 1) |}) = Some (unlinked xl i)) as ->.
  { unfold unlinked. case_decide as Hf; [|done]. by rewrite (Hx Hf). }
  cbn [mbind option_bind]. destruct (set_lvl_spec (up i) i (unlinked xl i) (old i) sl Ho) as (sl1 & -> & Sn1 & Hl1). cbn [mbind option_bind].
  destruct (IH (i + 1) sl1) as (sl' & E & Sn' & Hl').
  { intros l Hli. rewrite !Hl1, !decide_False by lia. apply Hl. lia. }
  exists sl'. split; [done|]. split; [by eapply same_nodes_trans|]. intros j k. rewrite Hl', Hl1.
  destruct (decide (k = i)) as [->|Hk]; repeat case_decide; (done || naive_solver lia).
Qed.
End loops.

(** ** Taking a slot *)

Lemma alloc_spec sl cs m s h :
  rep sl cs -> (free sl = [] -> (N.of_nat (S (length (nodes sl))) <= NIL)%N) ->
  exists sl' x, alloc m s h sl = Some (sl', x) /\ tail sl' = tail sl /\ level sl' = level sl /\ len sl' = len sl /\
    NoDup ((cid <$> row cs) ++ x :: free sl') /\ (forall i, i ∈ (cid <$> row cs) ++ x :: free sl' -> N.to_nat i < length (nodes sl')) /\
    (N.of_nat (length (nodes sl')) <= NIL)%N /\
    forall j, node j sl' = if decide (j = x) then Some {| member := m; score := s; backward := NIL; levels := replicate h NIL_LEVEL |} else node j sl.
Proof.
  intros R Hroom. set (nd := {| member := m; score := s; backward := NIL; levels := replicate h NIL_LEVEL |}).
  pose proof (rep_ids _ _ R) as Hn. pose proof (rep_arena _ _ R) as Ha. pose proof (rep_small _ _ R) as Hs. unfold alloc. fold nd.
  destruct (free sl) as [|x f] eqn:Ef.
  - specialize (Hroom eq_refl). set (x := Z.to_N (wrapu 32 (Z.of_nat (length (nodes sl))))).
    assert (N.to_nat x = length (nodes sl)) as Hx by (unfold x, NIL in *; rewrite wrapu32 by lia; lia).
    exists (set_nodes (nodes sl ++ [nd]) sl), x. cbn [tail level len free nodes set_nodes]. rewrite Ef. split; [done|]. split; [done|]. split; [done|]. split; [done|].
    rewrite app_nil_r in Hn, Ha. rewrite length_app. cbn [length]. split; [|split; [|split]].
    + apply NoDup_app. split; [done|]. split; [|apply NoDup_singleton]. intros i Hi Hix. apply list_elem_of_singleton in Hix as ->. specialize (Ha x Hi). lia.
    + intros i [Hi| ->%list_elem_of_singleton]%elem_of_app; [specialize (Ha i Hi)|]; lia.
    + lia.
    + intros j. unfold node. cbn [nodes set_nodes]. case_decide as Hj; [subst j; rewrite lookup_app_r by lia; by rewrite Hx, Nat.sub_diag|].
      destruct (decide (N.to_nat j < length (nodes sl))); [by apply lookup_app_l|]. rewrite lookup_app_r by lia.
      destruct (N.to_nat j - length (nodes sl)) eqn:E; [lia|]. by rewrite (lookup_ge_None_2 (nodes sl)) by lia.
  - assert (N.to_nat x < length (nodes sl)) as Hx by (apply Ha; apply elem_of_app; right; left).
    destruct (lookup_lt_is_Some_2 (nodes sl) (N.to_nat x) Hx) as [n0 Hn0].
    destruct (upd_node_spec x (fun _ => nd) n0 (set_free f sl) Hn0) as (sl' & -> & E1 & E2 & E3 & E4 & E5 & Hnode).
    cbn [free tail level len nodes set_free] in *. exists sl', x. cbn [mbind option_bind]. rewrite E1, E2. split; [done|]. split; [done|]. split; [done|]. split; [done|].
    split; [done|]. split; [done|]. split; [done|]. intros j. rewrite Hnode. done.
Qed.

(** ** The node takes its place *)

Lemma old_link_span sl cs r l : rep sl cs -> l < MAX_LEVEL -> r <= length cs ->
  (Z.of_nat r - Z.of_nat (pred_of cs l r) <= span (old_link cs r l) <= Z.of_nat (length cs) - Z.of_nat (pred_of cs l r))%Z.
Proof.
  intros R Hl Hr. unfold old_link. pose proof (next_past Hr l _ _ (pred_of_is cs l r Hl) (next_of_is cs l _)) as Hq.
  pose proof (next_of_is cs l (pred_of cs l r)) as Ho. destruct (next_of cs l _) as [q|]; cbn [beyond link_to span next_is] in *; [|lia].
  destruct Ho as (_ & T%tall_le & _). lia.
Qed.

Section splice.
Context {sl : Skiplist} {cs : list Cell} (R : rep sl cs) {r h : nat} (Hr : r <= length cs) (Hh : 1 <= h <= level sl).
Context {update : list N} {ranks : list Z} (Hu : updates cs r (level sl) update) (Hk : ranked cs r (level sl) ranks).

Lemma pred_linked l : l < level sl -> lvl (pred_id cs r l) l sl = Some (old_link cs r l).
Proof. intros Hl. apply (link_at R); [by apply (pred_tall R)|done]. Qed.

Lemma pred_in l : l < level sl -> pred_id cs r l ∈ cid <$> row cs.
Proof.
  intros Hl. destruct (row_lt cs (pred_of cs l r)) as [d Hd]; [pose proof (pred_le R l r Hl); lia|]. unfold pred_id. rewrite (idat_row _ _ _ Hd).
  by apply list_elem_of_fmap_2, (list_elem_of_lookup_2 _ (pred_of cs l r)).
Qed.

(** The links after both loops, for a fresh node [x]. *)
Lemma splice_links sl2 x :
  x ∉ cid <$> row cs -> level sl2 = level sl -> (forall j k, lvl j k sl2 = if decide (j = x) then replicate h NIL_LEVEL !! k else lvl j k sl) ->
  exists sl3 sl4, link_levels h 0 x update ranks sl2 = Some sl3 /\ widen_levels (level sl3 - h) h update sl3 = Some sl4 /\ same_nodes sl2 sl4 /\
    forall j k, k < level sl -> lvl j k sl4 =
      if decide (j = x) then
        (if decide (k < h) then Some {| forward := forward (old_link cs r k); span := span (old_link cs r k) - (Z.of_nat r - Z.of_nat (pred_of cs k r)) |} else None)
      else if decide (j = pred_id cs r k) then
        Some (if decide (k < h) then {| forward := x; span := Z.of_nat r - Z.of_nat (pred_of cs k r) + 1 |}
              else {| forward := forward (old_link cs r k); span := span (old_link cs r k) + 1 |})
      else lvl j k sl.
Proof.
  intros Hx El Hlvl. destruct Hu as [Hlu Hup], Hk as [Hlk Hrk]. pose proof (rep_level _ _ R) as Hlv. pose proof (small_len _ _ R) as Hsm.
  assert (forall l, l < level sl -> pred_id cs r l <> x) as Hne by (intros l Hl E; apply Hx; rewrite <-E; by apply pred_in).
  destruct (link_levels_spec (pred_id cs r) (old_link cs r) (fun l => Z.of_nat (pred_of cs l r)) x h 0 update ranks sl2) as (sl3 & E3 & Sn3 & Hl3).
  { intros l Hl. split; [apply Hup; lia|]. split; [apply Hrk; lia|]. rewrite !Hlvl. split; [rewrite decide_False by (apply Hne; lia); apply pred_linked; lia|].
    split; [apply Hne; lia|]. rewrite decide_True by done. exists NIL_LEVEL. by rewrite lookup_replicate_2 by lia. }
  { rewrite Hrk by lia. by rewrite (pred_zero R). }
  assert (level sl3 = level sl) as El3 by (rewrite <-El; apply Sn3).
  assert (forall l, l < level sl -> step (fun l => Z.of_nat (pred_of cs l r)) l = (Z.of_nat r - Z.of_nat (pred_of cs l r))%Z) as Hst.
  { intros l Hl. unfold step. rewrite (pred_zero R) by done. pose proof (pred_le R l r Hl). apply wrapu32. lia. }
  destruct (widen_levels_spec (pred_id cs r) (old_link cs r) (level sl3 - h) h update sl3) as (sl4 & E4 & Sn4 & Hl4).
  { intros l Hl. split; [apply Hup; lia|]. rewrite Hl3, decide_False by lia. rewrite Hlvl, decide_False by (apply Hne; lia). apply pred_linked. lia. }
  exists sl3, sl4. split; [done|]. split; [done|]. split; [by eapply same_nodes_trans|]. intros j k Hkl. rewrite Hl4, Hl3, !Hlvl, Hst by done.
  pose proof (old_link_span sl cs r k R ltac:(lia) Hr) as Hsp. pose proof (pred_le R k r Hkl).
  destruct (decide (j = x)) as [->|Hj].
  - rewrite decide_False by (intros [_ E]; by apply (Hne k)). destruct (decide (k < h)).
    + rewrite decide_True by lia. do 2 f_equal. apply wrapu32. lia.
    + rewrite decide_False by lia. apply lookup_ge_None. rewrite length_replicate. lia.
  - destruct (decide (j = pred_id cs r k)) as [->|Hjp].
    + destruct (decide (k < h)).
      * rewrite (decide_False (P := h <= k < _ /\ _)), decide_True by lia. do 2 f_equal. apply wrapu32. lia.
      * rewrite decide_True by (split; [lia|done]). do 2 f_equal. apply wrapu32. lia.
    + rewrite decide_False by tauto. by destruct (decide (0 <= k < 0 + h)).
Qed.
End splice.

(** ** Backward links *)

(** A backward link set, or the tail when there is no node to set it in. *)
Lemma set_back_spec f b sl :
  (f <> NIL -> exists n, node f sl = Some n) -> (N.of_nat (length (nodes sl)) <= NIL)%N ->
  exists sl', (if decide (f <> NIL) then upd_node f (set_backward b) sl else Some (set_tail b sl)) = Some sl' /\
    length (nodes sl') = length (nodes sl) /\ free sl' = free sl /\ level sl' = level sl /\ len sl' = len sl /\
    tail sl' = (if decide (f = NIL) then b else tail sl) /\ (forall j k, lvl j k sl' = lvl j k sl) /\
    forall j n, node j sl = Some n -> node j sl' = Some (if decide (j = f) then set_backward b n else n).
Proof.
  intros Hf Hs. destruct (decide (f = NIL)) as [->|Hne].
  - rewrite decide_False by tauto. exists (set_tail b sl). do 7 (split; [done|]). intros j n Hn. rewrite decide_False; [done|].
    intros ->. unfold node in Hn. apply lookup_lt_Some in Hn. unfold NIL in *. lia.
  - rewrite decide_True by done. destruct (Hf Hne) as [n Hn]. destruct (upd_node_spec f (set_backward b) n sl Hn) as (sl' & E & E1 & E2 & E3 & E4 & E5 & En).
    exists sl'. do 6 (split; [done|]). split.
    + intros j k. unfold lvl. rewrite En. case_decide as Hj; [subst j; by rewrite Hn|done].
    + intros j m Hm. rewrite En. case_decide as Hj; [subst j; by simplify_eq|done].
Qed.

Lemma node_exists sl cs p : rep sl cs -> p <= length cs -> exists n, node (idat cs p) sl = Some n.
Proof.
  intros R Hp. destruct (row_lt cs p Hp) as [c Hc]. destruct (rep_node _ _ R p c Hc) as (n & Hn & _). exists n. by rewrite (idat_row _ _ _ Hc).
Qed.

Section splice2.
Context {sl : Skiplist} {cs : list Cell} (R : rep sl cs) {r h : nat} (Hr : r <= length cs) (Hh : 1 <= h <= level sl).
Context {update : list N} {ranks : list Z} (Hu : updates cs r (level sl) update) (Hk : ranked cs r (level sl) ranks).

(** The arena after the splice, seen from outside. *)
Record spliced (sl' : Skiplist) (x : N) (m : bytes) (s : f64) : Prop := {
  sp_len : len sl' = S (len sl);
  sp_level : level sl' = level sl;
  sp_tail : tail sl' = if decide (idat cs (S r) = NIL) then x else tail sl;
  sp_ids : NoDup ((cid <$> row cs) ++ x :: free sl');
  sp_arena : forall i, i ∈ (cid <$> row cs) ++ x :: free sl' -> N.to_nat i < length (nodes sl');
  sp_small : (N.of_nat (length (nodes sl')) <= NIL)%N;
  sp_old : forall p c n, row cs !! p = Some c -> node (cid c) sl = Some n -> exists n', node (cid c) sl' = Some n' /\
    member n' = member n /\ score n' = score n /\ length (levels n') = length (levels n) /\
    backward n' = if decide (cid c = idat cs (S r)) then x else backward n;
  sp_new : exists n, node x sl' = Some n /\ member n = m /\ score n = s /\ length (levels n) = h /\ backward n = back cs (S r);
  sp_links : forall j k, k < level sl -> lvl j k sl' =
    if decide (j = x) then
      (if decide (k < h) then Some {| forward := forward (old_link cs r k); span := span (old_link cs r k) - (Z.of_nat r - Z.of_nat (pred_of cs k r)) |} else None)
    else if decide (j = pred_id cs r k) then
      Some (if decide (k < h) then {| forward := x; span := Z.of_nat r - Z.of_nat (pred_of cs k r) + 1 |}
            else {| forward := forward (old_link cs r k); span := span (old_link cs r k) + 1 |})
    else lvl j k sl
}.

Lemma spliced_links sl' x m s p l c :
  spliced sl' x m s -> let cs' := ins r {| cid := x; citem := (m, s); height := h |} cs in
  row cs' !! p = Some c -> l < height c -> l < level sl -> lvl (cid c) l sl' = Some (link_to cs' p (next_of cs' l p)).
Proof.
  intros Sp. cbv zeta. intros Hc Hl Hlv. pose proof (rep_level _ _ R) as Hlev. rewrite (sp_links _ _ _ _ Sp) by done.
  assert (forall q d, row cs !! q = Some d -> cid d <> x) as Hne.
  { intros q d Hd E. pose proof (sp_ids _ _ _ _ Sp) as (_ & Hdis & _)%NoDup_app. apply (Hdis (cid d)); [by apply list_elem_of_fmap_2, (list_elem_of_lookup_2 _ q)|]. rewrite E. left. }
  destruct (shift_cases r p) as [[q ->]| ->].
  - rewrite row_ins_shift in Hc by done. rewrite decide_False by (by eapply Hne). rewrite ins_link_old by (done || lia || by exists c).
    destruct (decide (q = pred_of cs l r)) as [->|Hq]; cbn [height cid].
    + rewrite decide_True by (symmetry; by apply idat_row). by case_decide.
    + rewrite decide_False; [by apply (rep_links _ _ R)|]. unfold pred_id. rewrite <-(idat_row _ _ _ Hc). intros E. apply Hq.
      pose proof (pred_le R l r Hlv). apply lookup_lt_Some in Hc. rewrite row_length in Hc. apply (id_inj R); (done || lia).
  - rewrite row_ins_new in Hc by done. injection Hc as <-. cbn [cid height] in *. rewrite !decide_True by done.
    by rewrite ins_link_new by (done || lia).
Qed.

Lemma spliced_rep sl' x m s : spliced sl' x m s -> rep sl' (ins r {| cid := x; citem := (m, s); height := h |} cs).
Proof.
  intros Sp. set (new := {| cid := x; citem := (m, s); height := h |}). pose proof (rep_level _ _ R) as Hlev.
  assert ((cid <$> row (ins r new cs)) ++ free sl' ≡ₚ (cid <$> row cs) ++ x :: free sl') as Hperm by (rewrite ids_ins; apply Permutation_middle).
  split.
  - rewrite (sp_len _ _ _ _ Sp), ins_length, (rep_len _ _ R) by done. done.
  - by rewrite (sp_level _ _ _ _ Sp).
  - intros c Hc. rewrite (sp_level _ _ _ _ Sp). rewrite ins_perm in Hc. apply elem_of_cons in Hc as [->|Hc]; [done|by apply (rep_heights _ _ R)].
  - rewrite Hperm. apply (sp_ids _ _ _ _ Sp).
  - intros i Hi. rewrite Hperm in Hi. by apply (sp_arena _ _ _ _ Sp).
  - apply (sp_small _ _ _ _ Sp).
  - intros p c Hc. destruct (shift_cases r p) as [[q ->]| ->].
    + rewrite row_ins_shift in Hc by done. destruct (rep_node _ _ R q c Hc) as (n & Hn & Hl & Hb).
      destruct (sp_old _ _ _ _ Sp q c n Hc Hn) as (n' & Hn' & M1 & M2 & M3 & M4). exists n'. split; [done|]. split; [congruence|].
      intros Hq. assert (0 < q) as Hq0 by (destruct q; [unfold shift in Hq; rewrite decide_True in Hq by lia; lia|lia]).
      destruct (Hb Hq0) as [Hi Hbk]. rewrite M1, M2. split; [done|]. rewrite M4, back_shift by done. cbn [cid new].
      pose proof (lookup_lt_Some _ _ _ Hc) as Hlt. rewrite row_length in Hlt. destruct (decide (q = S r)) as [->|Hne].
      * by rewrite decide_True by (symmetry; by apply idat_row).
      * rewrite decide_False; [done|]. rewrite <-(idat_row _ _ _ Hc). intros E. destruct (decide (S r <= length cs)).
        -- apply Hne. by apply (id_inj R); [lia|lia|].
        -- unfold idat at 2 in E. rewrite lookup_ge_None_2 in E by (rewrite row_length; lia). by apply (id_not_nil R q) in E; [|lia].
    + rewrite row_ins_new in Hc by done. injection Hc as <-. destruct (sp_new _ _ _ _ Sp) as (n & Hn & M1 & M2 & M3 & M4).
      exists n. cbn [cid height new]. split; [done|]. split; [done|]. intros _. rewrite M1, M2, M4, back_new by done. done.
  - intros p l c Hc Hl Hlv. rewrite (sp_level _ _ _ _ Sp) in Hlv. by apply (spliced_links _ _ _ _ p l c Sp).
  - rewrite (sp_tail _ _ _ _ Sp), ins_length by done. case_decide as E.
    + assert (r = length cs) as ->.
      { destruct (decide (r < length cs)); [|lia]. exfalso. by apply (id_not_nil R (S r)); [lia|]. }
      pose proof (back_shift (c := new) Hr (S (length cs)) ltac:(lia)) as Hb. rewrite shift_high, decide_True in Hb by lia. done.
    + assert (r < length cs) as Hlt.
      { destruct (decide (r < length cs)); [done|]. exfalso. apply E. unfold idat. by rewrite lookup_ge_None_2 by (rewrite row_length; lia). }
      pose proof (back_shift (c := new) Hr (S (length cs)) ltac:(lia)) as Hb. rewrite shift_high, decide_False in Hb by lia.
      rewrite Hb. apply (rep_tail _ _ R).
Qed.

Lemma splice_in_rep m s :
  (free sl = [] -> (N.of_nat (S (length (nodes sl))) <= NIL)%N) ->
  exists sl' x, splice_in m s h update ranks sl = Some sl' /\ rep sl' (ins r {| cid := x; citem := (m, s); height := h |} cs).
Proof.
  intros Hroom. pose proof (rep_level _ _ R) as Hlv. destruct (alloc_spec sl cs m s h R Hroom) as (sl2 & x & E2 & T2 & L2 & N2 & Hnd & Har & Hsm & Hn2).
  assert (x ∉ cid <$> row cs) as Hx by (apply NoDup_app in Hnd as (_ & Hd & _); intros Hin; apply (Hd x Hin); left).
  destruct (splice_links R Hr Hh Hu Hk sl2 x) as (sl3 & sl4 & E3 & E4 & (A1 & A2 & A3 & A4 & A5 & A6) & Hl4); [done|done| |].
  { intros j k. unfold lvl. rewrite Hn2. by case_decide. }
  destruct (A6 x _ ltac:(by rewrite Hn2, decide_True)) as (nx & Hnx & M1 & M2 & _ & M4). cbn [member score levels] in *. rewrite length_replicate in M4.
  assert (forall p c, row cs !! p = Some c -> cid c <> x) as Hcx.
  { intros p c Hc E. apply Hx. rewrite <-E. by apply list_elem_of_fmap_2, (list_elem_of_lookup_2 _ p). }
  assert (forall p, p <= length cs -> idat cs p <> x) as Hix by (intros p Hp; destruct (row_lt cs p Hp) as [c Hc]; rewrite (idat_row _ _ _ Hc); by eapply Hcx).
  assert (x <> NIL) as Hxn. { intros E. specialize (Har x ltac:(apply elem_of_app; right; left)). rewrite E in Har. unfold NIL in *. lia. }
  destruct (set_back_spec x (back cs (S r)) sl4) as (sl5 & E5 & B1 & B2 & B3 & B4 & B5 & B6 & B7); [intros _; by exists nx|by rewrite A1|].
  rewrite decide_True in E5 by done. rewrite decide_False in B5 by done.
  assert (forall p c n, row cs !! p = Some c -> node (cid c) sl = Some n -> exists n', node (cid c) sl5 = Some n' /\
    member n' = member n /\ score n' = score n /\ length (levels n') = length (levels n) /\ backward n' = backward n) as Hold.
  { intros p c n Hc Hn. pose proof (Hcx _ _ Hc). destruct (A6 (cid c) n) as (n' & Hn' & ? & ? & ? & ?); [by rewrite Hn2, decide_False|].
    exists n'. rewrite (B7 _ _ Hn'), decide_False by done. done. }
  destruct (set_back_spec (idat cs (S r)) x sl5) as (sl6 & E6 & C1 & C2 & C3 & C4 & C5 & C6 & C7); [|by rewrite B1, A1|].
  { intros Hne. destruct (row cs !! S r) as [c|] eqn:Hc; [|unfold idat in Hne; by rewrite Hc in Hne]. rewrite (idat_row _ _ _ Hc).
    destruct (rep_node _ _ R _ _ Hc) as (n & Hn & _). destruct (Hold _ _ _ Hc Hn) as (n' & ? & _). eauto. }
  exists (set_len (len sl6 + 1) sl6), x. split.
  - unfold splice_in. rewrite E2. cbn [mbind option_bind]. rewrite E3. cbn [mbind option_bind]. rewrite E4. cbn [mbind option_bind].
    destruct Hu as [_ Hup]. rewrite Hup by lia. cbn [mbind option_bind]. unfold pred_id. rewrite (pred_zero R) by done.
    assert ((if decide (idat cs r = HEAD) then NIL else idat cs r) = back cs (S r)) as ->.
    { unfold back. replace (S r - 1) with r by lia. destruct (decide (S r <= 1)); [rewrite decide_True; [done|rewrite (id_head R); lia]|rewrite decide_False; [done|rewrite (id_head R); lia]]. }
    rewrite E5. cbn [mbind option_bind]. rewrite B6, Hl4, decide_True, decide_True by (done || lia). cbn [mbind option_bind forward].
    rewrite old_link_forward by (done || (intros d Hd; apply (rep_heights _ _ R) in Hd; lia)). rewrite E6. done.
  - apply spliced_rep. split; cbn [len level tail free nodes set_len].
    + rewrite C4, B4, A5, N2. lia.
    + by rewrite C3, B3, A4, L2.
    + rewrite C5. case_decide; [done|]. by rewrite B5, A3, T2.
    + by rewrite C2, B2, A2.
    + intros i Hi. rewrite C2, B2, A2 in Hi. rewrite C1, B1, A1. by apply Har.
    + by rewrite C1, B1, A1.
    + intros p c n Hc Hn. destruct (Hold _ _ _ Hc Hn) as (n' & Hn' & ? & ? & ? & ?). exists (if decide (cid c = idat cs (S r)) then set_backward x n' else n').
      split; [by apply C7|]. destruct (decide (cid c = idat cs (S r))); repeat split; done.
    + assert (x <> idat cs (S r)) as Hxf.
      { destruct (decide (S r <= length cs)); [by intros E; apply (Hix (S r))|]. unfold idat. by rewrite lookup_ge_None_2 by (rewrite row_length; lia). }
      specialize (B7 _ _ Hnx). rewrite decide_True in B7 by done. specialize (C7 _ _ B7). rewrite decide_False in C7 by done. eexists. split; [exact C7|]. done.
    + intros j k Hkl. etransitivity; [apply C6|]. rewrite B6. by apply Hl4.
Qed.
End splice2.
