(* ===== verification/SkiplistUnlink.v ===== *)
(** * Taking a node out of a skip list ([src/encoding/skiplist.rs])

    [unlink] and [release]: the row with a cell becomes the row without it. *)
From S2P Require Import Prelude Dtoa Skiplist SkiplistOrder SkiplistFacts SkiplistReads SkiplistRows SkiplistWrites.
Open Scope nat_scope.

Section unlink.
Context {sl : Skiplist} {cs : list Cell} {c : Cell} {r : nat} (Hr : r <= length cs) (R : rep sl (ins r c cs)).
Context {update : list N} (Hu : updates (ins r c cs) r (level sl) update).

Lemma big_row p d : row cs !! p = Some d -> row (ins r c cs) !! shift r p = Some d.
Proof. intros. by rewrite row_ins_shift. Qed.

Lemma cell_not_new p d : row cs !! p = Some d -> cid d <> cid c.
Proof.
  intros Hd E. pose proof (rep_ids _ _ R) as [Hn _]%NoDup_app. rewrite ids_ins in Hn. apply NoDup_cons in Hn as [Hn _]. apply Hn. rewrite <-E.
  by apply list_elem_of_fmap_2, (list_elem_of_lookup_2 _ p).
Qed.

Lemma shift_le p : p <= length cs -> shift r p <= length (ins r c cs).
Proof. intros. rewrite ins_length by done. unfold shift. case_decide; lia. Qed.

Lemma small_id p : p <= length cs -> idat cs p = idat (ins r c cs) (shift r p) /\ idat cs p <> NIL /\ idat cs p <> cid c.
Proof.
  intros Hp. rewrite idat_shift by done. split; [done|]. destruct (row_lt cs p Hp) as [d Hd]. split.
  - rewrite <-(idat_shift (c := c) Hr). apply (id_not_nil R). by apply shift_le.
  - rewrite (idat_row _ _ _ Hd). by eapply cell_not_new.
Qed.

(** The two links at the deleted node, level by level. *)
Lemma link_before l : l < level sl -> lvl (pred_id (ins r c cs) r l) l sl =
  Some (if decide (l < height c) then {| forward := cid c; span := Z.of_nat r - Z.of_nat (pred_of cs l r) + 1 |}
        else {| forward := forward (old_link cs r l); span := span (old_link cs r l) + 1 |}).
Proof.
  intros Hl. pose proof (rep_level _ _ R) as Hlv. pose proof (pred_of_is cs l r ltac:(lia)) as (Hp & Tp & _).
  unfold pred_id. rewrite pred_ins by done. pose proof (link_at R (shift r (pred_of cs l r)) l) as E. rewrite ins_link_old in E by (done || lia).
  rewrite decide_True in E by done. rewrite shift_low in E by done. rewrite E; [by case_decide|rewrite <-(shift_low r (pred_of cs l r)) by done; by apply tall_shift|done].
Qed.

Lemma link_after l : l < level sl -> l < height c -> lvl (cid c) l sl =
  Some {| forward := forward (old_link cs r l); span := span (old_link cs r l) - (Z.of_nat r - Z.of_nat (pred_of cs l r)) |}.
Proof.
  intros Hl Hh. pose proof (rep_level _ _ R) as Hlv. rewrite <-(idat_new (r := r) (c := c) (cs := cs)) by done.
  rewrite (link_at R (S r) l) by (done || by apply tall_new). by rewrite ins_link_new by (done || lia).
Qed.

Lemma old_span l : l < MAX_LEVEL -> (Z.of_nat r - Z.of_nat (pred_of cs l r) <= span (old_link cs r l) <= Z.of_nat (length cs) - Z.of_nat (pred_of cs l r))%Z /\
  pred_of cs l r <= r /\ forward (old_link cs r l) <> cid c.
Proof.
  intros Hl. pose proof (pred_of_is cs l r Hl) as Hp. unfold old_link.
  pose proof (next_past Hr l _ _ Hp (next_of_is cs l _)) as Hq.
  pose proof (next_of_is cs l (pred_of cs l r)) as Ho. destruct (next_of cs l _) as [q|]; cbn [beyond link_to span forward next_is] in *.
  - destruct Ho as (_ & T%tall_le & _). split; [lia|]. split; [apply Hp|]. by apply small_id.
  - destruct Hp as [Hp _]. split; [lia|]. split; [done|]. intros E. destruct (rep_node _ _ R (S r) c) as (n & Hn & _); [by apply row_ins_new|].
    pose proof (rep_small _ _ R). unfold node in Hn. apply lookup_lt_Some in Hn. rewrite <-E in Hn. unfold NIL in *. lia.
Qed.

Lemma unlink_links :
  exists sl1, unlink_levels (level sl) 0 (cid c) update sl = Some sl1 /\ same_nodes sl sl1 /\ (forall k, lvl (cid c) k sl1 = lvl (cid c) k sl) /\
    forall p l d, row cs !! p = Some d -> l < height d -> l < level sl -> lvl (cid d) l sl1 = Some (link_to cs p (next_of cs l p)).
Proof.
  pose proof (rep_level _ _ R) as Hlv. pose proof (small_len _ _ R) as Hsm. rewrite ins_length in Hsm by done. destruct Hu as [_ Hup].
  set (old l := if decide (l < height c) then {| forward := cid c; span := Z.of_nat r - Z.of_nat (pred_of cs l r) + 1 |}
        else {| forward := forward (old_link cs r l); span := span (old_link cs r l) + 1 |}).
  set (xl l := {| forward := forward (old_link cs r l); span := span (old_link cs r l) - (Z.of_nat r - Z.of_nat (pred_of cs l r)) |}).
  assert (forall l, l < level sl -> pred_id (ins r c cs) r l = idat cs (pred_of cs l r) /\ pred_of cs l r <= length cs) as Hid.
  { intros l Hl. destruct (old_span l ltac:(lia)) as (_ & Hp & _). unfold pred_id. rewrite pred_ins by done. split; [|lia].
    rewrite <-(shift_low r (pred_of cs l r)) at 1 by done. by apply idat_shift. }
  destruct (unlink_levels_spec (pred_id (ins r c cs) r) old (cid c) xl (level sl) 0 update sl) as (sl1 & E & Sn & Hl1).
  { intros l Hl. split; [apply Hup; lia|]. split; [apply link_before; lia|]. destruct (Hid l ltac:(lia)) as [-> Hp]. split; [by apply small_id|].
    intros Hf. apply link_after; [lia|]. unfold old in Hf. case_decide; [done|]. cbn [forward] in Hf. by apply old_span in Hf; [|lia]. }
  assert (forall l, l < level sl -> unlinked old (cid c) xl l = old_link cs r l) as Hunl.
  { intros l Hl. destruct (old_span l ltac:(lia)) as (Hs & Hp & Hf). unfold unlinked, old, xl. destruct (decide (l < height c)); cbn [forward span].
    - rewrite decide_True by done. rewrite (wrapu32 (_ + _)) by lia. rewrite wrapu32 by lia. destruct (old_link cs r l); cbn in *. f_equal. lia.
    - rewrite decide_False by done. rewrite wrapu32 by lia. destruct (old_link cs r l); cbn in *. f_equal. lia. }
  exists sl1. split; [done|]. split; [done|]. split.
  - intros k. rewrite Hl1. rewrite decide_False; [done|]. intros [Hk E']. destruct (Hid k ltac:(lia)) as [E1 E2]. rewrite E1 in E'. by apply (small_id (pred_of cs k r)).
  - intros p l d Hd Hh Hl. rewrite Hl1. pose proof (lookup_lt_Some _ _ _ Hd) as Hplt. rewrite row_length in Hplt.
    destruct (Hid l Hl) as [-> Hple]. destruct (decide (p = pred_of cs l r)) as [Ep|Hne].
    + rewrite decide_True by (split; [lia|rewrite <-Ep; symmetry; by apply idat_row]). rewrite Hunl by done. unfold old_link. by rewrite <-Ep.
    + rewrite decide_False.
      * rewrite (rep_links _ _ R (shift r p) l d) by (done || by apply big_row). rewrite ins_link_old by (done || lia || by exists d).
        by rewrite decide_False.
      * intros [_ E']. rewrite <-(idat_row _ _ _ Hd) in E'. apply Hne. apply (f_equal (fun i => i)) in E'.
        destruct (small_id p ltac:(lia)) as [E1 _], (small_id (pred_of cs l r) Hple) as [E2 _]. rewrite E1, E2 in E'.
        apply (id_inj R) in E'; [|by apply shift_le; lia|by apply shift_le]. revert E'. unfold shift. repeat case_decide; lia.
Qed.

Lemma small_heights d : d ∈ cs -> 1 <= height d <= level sl.
Proof. intros Hd. apply (rep_heights _ _ R). rewrite ins_perm. by right. Qed.

(** The neighbours joined, the node not yet in the free list. *)
Lemma unlink_joined :
  exists sl1 sl2, unlink_levels (level sl) 0 (cid c) update sl = Some sl1 /\ (forward <$> lvl (cid c) 0 sl1) = Some (idat cs (S r)) /\
    (backward <$> node (cid c) sl1) = Some (back cs (S r)) /\
    (if decide (idat cs (S r) <> NIL) then upd_node (idat cs (S r)) (set_backward (back cs (S r))) sl1 else Some (set_tail (back cs (S r)) sl1)) = Some sl2 /\
    level sl2 = level sl /\ rep (set_len (len sl2 - 1) sl2) cs /\ cid c ∉ (cid <$> row cs) ++ free sl2 /\ exists n, node (cid c) sl2 = Some n.
Proof.
  pose proof (rep_level _ _ R) as Hlv. destruct unlink_links as (sl1 & E1 & (A1 & A2 & A3 & A4 & A5 & A6) & Hx & Hlk).
  destruct (rep_node _ _ R (S r) c) as (n & Hn & Hln & Hb); [by apply row_ins_new|]. destruct (Hb ltac:(lia)) as [_ Hbk]. rewrite back_new in Hbk by done.
  destruct (A6 _ _ Hn) as (n1 & Hn1 & _ & _ & Hb1 & _).
  assert (1 <= height c) as Hhc by (apply (rep_heights _ _ R); rewrite ins_perm; by left).
  destruct (set_back_spec (idat cs (S r)) (back cs (S r)) sl1) as (sl2 & E2 & C1 & C2 & C3 & C4 & C5 & C6 & C7); [|rewrite A1; apply (rep_small _ _ R)|].
  { intros Hne. destruct (row cs !! S r) as [d|] eqn:Hd; [|unfold idat in Hne; by rewrite Hd in Hne]. rewrite (idat_row _ _ _ Hd).
    destruct (rep_node _ _ R _ _ (big_row _ _ Hd)) as (m & Hm & _). destruct (A6 _ _ Hm) as (m' & ? & _). eauto. }
  exists sl1, sl2. split; [done|]. split.
  { rewrite Hx, link_after by lia. cbn [fmap option_fmap option_map forward]. f_equal. apply old_link_forward; [|done]. intros d Hd. apply small_heights in Hd. lia. }
  split; [rewrite Hn1; cbn; by rewrite Hb1, Hbk|]. split; [done|].
  pose proof (rep_ids _ _ R) as Hids. rewrite ids_ins in Hids. apply NoDup_cons in Hids as [Hnot Hnd].
  split; [by rewrite C3, A4|]. split; [|split; [by rewrite C2, A2|eauto]].
  split; cbn [len level tail free nodes set_len].
  - rewrite C4, A5, (rep_len _ _ R), ins_length by done. lia.
  - by rewrite C3, A4.
  - intros d Hd. rewrite C3, A4. by apply small_heights.
  - by rewrite C2, A2.
  - intros i Hi. rewrite C2, A2 in Hi. rewrite C1, A1. apply (rep_arena _ _ R). rewrite ids_ins. by right.
  - rewrite C1, A1. apply (rep_small _ _ R).
  - intros p d Hd. destruct (rep_node _ _ R _ _ (big_row _ _ Hd)) as (m & Hm & Hl & Hbm). destruct (A6 _ _ Hm) as (m1 & Hm1 & M1 & M2 & M3 & M4).
    eexists. split; [exact (C7 _ _ Hm1)|]. pose proof (lookup_lt_Some _ _ _ Hd) as Hplt. rewrite row_length in Hplt.
    assert (cid d = idat cs (S r) <-> p = S r) as Hnb.
    { rewrite <-(idat_row _ _ _ Hd). split; [|by intros ->]. intros E. destruct (decide (S r <= length cs)).
      - destruct (small_id p ltac:(lia)) as [F1 _], (small_id (S r) ltac:(lia)) as [F2 _]. rewrite F1, F2 in E.
        apply (id_inj R) in E; [|apply shift_le; lia|apply shift_le; lia]. revert E. unfold shift. repeat case_decide; lia.
      - unfold idat at 2 in E. rewrite lookup_ge_None_2 in E by (rewrite row_length; lia). by apply small_id in E; [|lia]. }
    split; [destruct (decide (cid d = idat cs (S r))); cbn [levels set_backward]; congruence|]. intros Hp. assert (0 < shift r p) as Hsp by (by apply shift_pos).
    destruct (Hbm Hsp) as [Hi Hbk']. rewrite back_shift in Hbk' by done. destruct (decide (cid d = idat cs (S r))) as [Hq|Hq].
    + cbn [member score backward set_backward]. rewrite M1, M2. split; [done|]. f_equal. symmetry. by apply Hnb.
    + rewrite M1, M2, M3. split; [done|]. rewrite Hbk'. rewrite decide_False; [done|]. by rewrite <-Hnb.
  - intros p l d Hd Hh Hl. rewrite C3, A4 in Hl. etransitivity; [apply C6|]. by apply Hlk.
  - rewrite C5. case_decide as Hf.
    + assert (r = length cs) as E by (destruct (decide (r < length cs)); [exfalso; destruct (small_id (S r) ltac:(lia)) as (_ & Hn0 & _); done|lia]). by rewrite <-E.
    + assert (r < length cs) as Hlt by (destruct (decide (r < length cs)); [done|]; exfalso; apply Hf; unfold idat; by rewrite lookup_ge_None_2 by (rewrite row_length; lia)).
      rewrite A3, (rep_tail _ _ R), ins_length by done. rewrite <-(shift_high r (S (length cs))) by lia. rewrite back_shift by (done || lia). by rewrite decide_False by lia.
Qed.
End unlink.

(** Levels that became empty are given up. *)
Lemma shrink_rep sl cs n :
  rep (set_level n sl) cs -> exists n', shrink_level n sl = Some n' /\ rep (set_level n' sl) cs.
Proof.
  induction n as [|k IH]; intros R; [by exists 0|]. destruct k as [|k]; [by exists 1|].
  change (shrink_level (S (S k)) sl) with (l ← lvl HEAD (S k) sl; if decide (forward l = NIL) then shrink_level (S k) sl else Some (S (S k))).
  pose proof (rep_level _ _ R) as Hlv. cbn [level set_level] in Hlv. pose proof (link_at R 0 (S k) ltac:(by apply tall_head; lia) ltac:(cbn; lia)) as E.
  change (lvl HEAD (S k) sl = Some (link_to cs 0 (next_of cs (S k) 0))) in E. rewrite E. cbn [mbind option_bind]. case_decide as Hf; [|by exists (S (S k))].
  apply IH. pose proof (next_of_is cs (S k) 0) as Ho. destruct (next_of cs (S k) 0) as [q|].
  { cbn [link_to forward] in Hf. destruct Ho as (_ & T%tall_le & _). by apply (id_not_nil R) in Hf. }
  assert (forall c, c ∈ cs -> height c <= S k) as Hh.
  { intros c (q & Hq)%list_elem_of_lookup_1. destruct (decide (height c <= S k)) as [|Hc]; [done|]. exfalso.
    apply (Ho (S q)); [lia|]. exists c. split; [done|lia]. }
  apply (same_nodes_rep (set_level (S (S k)) sl) (set_level (S (S k)) sl) cs (S k)); [done|apply same_nodes_refl|lia|done|].
  intros p l c Hc Hl Hlk. by apply (rep_links _ _ R); [| |cbn; lia].
Qed.

Lemma shrink_len n m sl : shrink_level n (set_len m sl) = shrink_level n sl.
Proof.
  induction n as [|k IH]; [done|]. destruct k as [|k]; [done|].
  change (shrink_level (S (S k)) (set_len m sl)) with (l ← lvl HEAD (S k) sl; if decide (forward l = NIL) then shrink_level (S k) (set_len m sl) else Some (S (S k))).
  by rewrite IH.
Qed.

Lemma set_level_same sl : set_level (level sl) sl = sl.
Proof. by destruct sl. Qed.

(** A node outside the row goes to the free list. *)
Lemma release_rep sl cs x :
  rep sl cs -> x ∉ (cid <$> row cs) ++ free sl -> (exists n, node x sl = Some n) -> exists sl', release x sl = Some sl' /\ rep sl' cs /\ free sl' <> [].
Proof.
  intros R Hx [n Hn]. unfold release. destruct (upd_node_spec x (fun _ => {| member := []; score := Floats.SpecFloat.S754_zero false; backward := NIL; levels := [] |}) n sl Hn)
    as (sl1 & -> & E1 & E2 & E3 & E4 & E5 & En). cbn [mbind option_bind]. eexists. split; [done|]. split; [|done].
  assert (forall p c, row cs !! p = Some c -> cid c <> x) as Hne.
  { intros p c Hc E. apply Hx, elem_of_app. left. rewrite <-E. by apply list_elem_of_fmap_2, (list_elem_of_lookup_2 _ p). }
  split; cbn [len level tail free nodes set_free].
  - rewrite E5. apply (rep_len _ _ R).
  - rewrite E4. apply (rep_level _ _ R).
  - rewrite E4. apply (rep_heights _ _ R).
  - rewrite E2, <-Permutation_middle. apply NoDup_cons. split; [done|apply (rep_ids _ _ R)].
  - intros i Hi. rewrite E2, <-Permutation_middle in Hi. rewrite E1. apply elem_of_cons in Hi as [->|Hi]; [by unfold node in Hn; apply lookup_lt_Some in Hn|by apply (rep_arena _ _ R)].
  - rewrite E1. apply (rep_small _ _ R).
  - intros p c Hc. destruct (rep_node _ _ R p c Hc) as (m & Hm & Hl & Hb). exists m. split; [|done].
    change (node (cid c) sl1 = Some m). by rewrite En, decide_False by by eapply Hne.
  - intros p l c Hc Hh Hl. rewrite E4 in Hl. rewrite <-(rep_links _ _ R p l c Hc Hh Hl). unfold lvl. change (node (cid c) (set_free (x :: free sl1) sl1)) with (node (cid c) sl1).
    by rewrite En, decide_False by by eapply Hne.
  - rewrite E3. apply (rep_tail _ _ R).
Qed.

Lemma remove_found_rep sl cs c r update :
  r <= length cs -> rep sl (ins r c cs) -> updates (ins r c cs) r (level sl) update ->
  exists sl', remove_found (cid c) update sl = Some sl' /\ rep sl' cs /\ free sl' <> [].
Proof.
  intros Hr R Hu. destruct (unlink_joined Hr R Hu) as (sl1 & sl2 & E1 & E2 & E3 & E4 & El & R2 & Hx & n & Hn).
  unfold remove_found, unlink. rewrite E1. cbn [mbind option_bind]. rewrite E2. cbn [mbind option_bind]. rewrite E3. cbn [mbind option_bind]. rewrite E4. cbn [mbind option_bind].
  destruct (shrink_rep (set_len (len sl2 - 1) sl2) cs (level sl2)) as (lv & Hs & R3); [by rewrite (set_level_same (set_len _ sl2))|].
  rewrite shrink_len in Hs. rewrite Hs. cbn [mbind option_bind].
  apply (release_rep (set_len (len sl2 - 1) (set_level lv sl2))); [exact R3|exact Hx|by exists n].
Qed.
