(* ===== verification/SkiplistRefine.v ===== *)
(** * The skip list is an ordered list ([src/encoding/skiplist.rs])

    The operations that write, against the ordered list of the elements. *)
From S2P Require Import Prelude Dtoa Skiplist SkiplistOrder SkiplistFacts SkiplistReads SkiplistRows SkiplistWrites SkiplistUnlink.
Open Scope nat_scope.

(** ** The list operations *)

(** Insertion before the first element that is not smaller. *)
Fixpoint insert_item (t : Item) (xs : list Item) : list Item :=
  match xs with [] => [t] | x :: xs => if item_lt x t then x :: insert_item t xs else t :: x :: xs end.

(** The list without its [i]-th element. *)
Definition drop_at {A} (i : nat) (xs : list A) : list A := take i xs ++ drop (S i) xs.

Definition remove_item (t : Item) (xs : list Item) : list Item :=
  match find_item t xs with Some i => drop_at i xs | None => xs end.

Lemma insert_item_cut t xs r :
  (forall i x, xs !! i = Some x -> item_lt x t = bool_decide (i < r)) -> r <= length xs -> insert_item t xs = take r xs ++ t :: drop r xs.
Proof.
  revert r. induction xs as [|x xs IH]; intros r Hc Hr; cbn [insert_item]; [by rewrite take_nil, drop_nil|].
  rewrite (Hc 0 x eq_refl). destruct r as [|r]; [done|]. rewrite bool_decide_eq_true_2 by lia. cbn [take drop app]. f_equal.
  apply IH; [|simpl in Hr; lia]. intros i y Hy. rewrite (Hc (S i) y Hy). apply bool_decide_ext. lia.
Qed.

Lemma items_ins r c cs : items (ins r c cs) = take r (items cs) ++ citem c :: drop r (items cs).
Proof. unfold items, ins. by rewrite fmap_app, fmap_take, fmap_cons, fmap_drop. Qed.

(** Order is kept by an insertion where the key belongs, and by a deletion. *)
Lemma ordered_ins xs r t :
  ordered xs -> item_ok t -> find_item t xs = None -> r <= length xs ->
  (forall i x, xs !! i = Some x -> item_lt x t = bool_decide (i < r)) -> ordered (take r xs ++ t :: drop r xs).
Proof.
  intros [Hok Ho] Ht Hf Hr Hc. split.
  - apply Forall_app. split; [by apply Forall_take|]. constructor; [done|by apply Forall_drop].
  - assert (forall i x, xs !! i = Some x -> r <= i -> item_lt t x = true) as Hgt.
    { intros i x Hx Hi. pose proof (Hc i x Hx) as E. rewrite bool_decide_eq_false_2 in E by lia.
      rewrite Forall_forall in Hok. destruct (item_total x t) as [?|[He|?]]; [eapply Hok, list_elem_of_lookup_2; done|done|congruence| |done].
      exfalso. unfold find_item in Hf. destruct (list_find _ xs) eqn:Ef; [done|]. apply list_find_None in Ef. rewrite Forall_forall in Ef.
      by apply (Ef x); [eapply list_elem_of_lookup_2|]. }
    intros i j x y Hx Hy Hij. rewrite lookup_app in Hx, Hy. rewrite length_take in *.
    assert (forall k, (t :: drop r xs) !! S k = xs !! (r + k)) as Hd by (intros k; simpl; by rewrite lookup_drop).
    destruct (take r xs !! i) as [x'|] eqn:Ei.
    + injection Hx as ->. apply lookup_take_Some in Ei as [Ei Hir]. destruct (take r xs !! j) as [y'|] eqn:Ej.
      * injection Hy as ->. apply lookup_take_Some in Ej as [Ej _]. by apply (Ho i j).
      * destruct (j - r `min` length xs) as [|k] eqn:Ek.
        -- simpl in Hy. simplify_eq. rewrite (Hc i x Ei). by apply bool_decide_eq_true_2.
        -- rewrite Hd in Hy. apply (Ho i (r + k)); (done || lia).
    + apply lookup_take_None in Ei as [Ei|Ei]; [apply lookup_ge_None in Ei|]; rewrite Nat.min_l in * by lia.
      all: destruct (take r xs !! j) as [y'|] eqn:Ej; [apply lookup_take_Some in Ej as [Ej Hj]; lia|].
      all: destruct (j - r) as [|k] eqn:Ek; [lia|]; rewrite Hd in Hy; destruct (i - r) as [|k'] eqn:Ek'.
      1,3: simpl in Hx; simplify_eq; apply (Hgt (r + k)); (done || lia).
      all: rewrite Hd in Hx; apply (Ho (r + k') (r + k)); (done || lia).
Qed.

Lemma drop_at_lookup {A} (xs : list A) i k : drop_at i xs !! k = xs !! (if decide (k < i) then k else S k).
Proof.
  unfold drop_at. case_decide as Hk.
  - destruct (decide (k < length xs)).
    + rewrite lookup_app_l by (rewrite length_take; lia). by apply lookup_take_lt.
    + rewrite (lookup_ge_None_2 xs) by lia. apply lookup_ge_None. rewrite length_app, length_take, length_drop. lia.
  - destruct (decide (i <= length xs)).
    + rewrite lookup_app_r by (rewrite length_take; lia). rewrite length_take, lookup_drop. f_equal. lia.
    + rewrite (lookup_ge_None_2 xs) by lia. apply lookup_ge_None. rewrite length_app, length_take, length_drop. lia.
Qed.

Lemma ordered_delete xs i : ordered xs -> ordered (drop_at i xs).
Proof.
  intros [Hok Ho]. split.
  - rewrite Forall_forall in *. intros x Hx. apply Hok. apply elem_of_app in Hx as [Hx|Hx].
    + rewrite <-(take_drop i xs). apply elem_of_app. by left.
    + rewrite <-(take_drop (S i) xs). apply elem_of_app. by right.
  - intros j k x y Hx Hy Hjk. rewrite drop_at_lookup in Hx, Hy. apply (Ho (if decide (j < i) then j else S j) (if decide (k < i) then k else S k)); [done|done|].
    repeat case_decide; lia.
Qed.

(** ** Insertion *)

Lemma random_level_range draws : 1 <= random_level draws <= MAX_LEVEL.
Proof.
  unfold random_level. assert (forall fuel i lv, 1 <= lv <= MAX_LEVEL -> 1 <= random_level_loop fuel draws i lv <= MAX_LEVEL) as H; [|apply H; unfold MAX_LEVEL; lia].
  intros fuel. induction fuel as [|fuel IH]; intros i lv Hl; cbn [random_level_loop]; [done|]. case_decide; [|done]. case_decide; [unfold MAX_LEVEL; lia|]. apply IH. lia.
Qed.

(** The room an insertion needs: a free slot, or one more index below the
    sentinel. *)
Definition has_room (sl : Skiplist) : Prop := free sl = [] -> (N.of_nat (length (nodes sl)) < NIL)%N.

Lemma cut_items cs t r : (forall q c, cs !! q = Some c -> item_lt (citem c) t = bool_decide (q < r)) ->
  forall i x, items cs !! i = Some x -> item_lt x t = bool_decide (i < r).
Proof. intros Hc i x Hx. rewrite items_lookup in Hx. destruct (cs !! i) as [c|] eqn:E; [|done]. injection Hx as <-. by apply Hc. Qed.

Lemma insert_holds (draws : nat -> Z) (s : f64) (m : bytes) (sl : Skiplist) (xs : list Item) :
  holds sl xs -> not_nan s -> find_item (m, s) xs = None -> has_room sl ->
  exists sl', insert draws s m sl = Some sl' /\ holds sl' (insert_item (m, s) xs).
Proof.
  intros (cs & R & <- & Od) Hs Hf Hroom. pose proof (rep_level _ _ R) as Hlv. pose proof (random_level_range draws) as Hh. set (h := random_level draws) in *.
  destruct (items_cut cs (m, s) Od Hs) as (r & Hr & Hcut).
  destruct (insert_descent_spec R Hr Hcut (level sl) 0 (replicate MAX_LEVEL HEAD) (replicate MAX_LEVEL 0%Z)) as (u & k & E & Hlu & Hlk & Huk);
    [done|intros; apply tall_head; lia|lia|by rewrite length_replicate|by rewrite length_replicate|by rewrite decide_True|].
  assert (updates cs r (level sl) u) as Hu by (split; [done|]; intros l Hl; by rewrite (proj1 (Huk l)), decide_True).
  assert (ranked cs r (level sl) k) as Hk by (split; [done|]; intros l Hl; by rewrite (proj2 (Huk l)), decide_True).
  assert (exists u' k' sl1, (if decide (level sl < h) then
      '(update, ranks, sl') ← raise_levels (h - level sl) (level sl) u k sl; Some (update, ranks, set_level h sl') else Some (u, k, sl)) = Some (u', k', sl1) /\
      rep sl1 cs /\ 1 <= h <= level sl1 /\ updates cs r (level sl1) u' /\ ranked cs r (level sl1) k' /\ length (nodes sl1) = length (nodes sl) /\ free sl1 = free sl)
    as (u' & k' & sl1 & E1 & R1 & Hh1 & Hu1 & Hk1 & En & Efr).
  { case_decide; [|exists u, k, sl; split_and!; (done || lia)].
    destruct (raise_rep sl cs r h u k R ltac:(lia) Hu Hk) as (u' & k' & sl1 & -> & R1 & Hu1 & Hk1 & En & Efr). cbn [mbind option_bind].
    exists u', k', (set_level h sl1). split; [done|]. split; [done|]. split; [cbn [level set_level]; lia|done]. }
  unfold insert. change HEAD with (idat cs 0) at 1. rewrite E. cbn [mbind option_bind]. fold h. rewrite E1. cbn [mbind option_bind].
  destruct (splice_in_rep R1 Hr Hh1 Hu1 Hk1 m s) as (sl' & x & -> & R'); [rewrite Efr, En; intros Hfr; specialize (Hroom Hfr); lia|]. exists sl'. split; [done|].
  eexists. split; [exact R'|]. rewrite items_ins. cbn [citem]. pose proof (cut_items _ _ _ Hcut) as Hci.
  rewrite (insert_item_cut _ _ r) by (done || by rewrite items_length). split; [done|]. apply ordered_ins; (done || by rewrite items_length).
Qed.

(** C4: An insertion puts the element at its place in the order, whatever the
    coin flips; it needs a free index and never goes out of bounds. *)
Theorem skiplist_insert (draws : nat -> Z) (s : f64) (m : bytes) (sl : Skiplist) (xs : list Item) :
  holds sl xs -> not_nan s -> find_item (m, s) xs = None -> has_room sl ->
  exists sl', insert draws s m sl = Some sl' /\ holds sl' (insert_item (m, s) xs).
Proof. apply insert_holds. Qed.

(** ** Deletion *)

Lemma ins_drop_at r c cs : cs !! r = Some c -> ins r c (drop_at r cs) = cs /\ r <= length (drop_at r cs).
Proof.
  intros Hc. pose proof (lookup_lt_Some _ _ _ Hc) as Hl. unfold ins, drop_at. rewrite length_app, length_take. split; [|lia].
  rewrite take_app_le, take_take, drop_app_ge by (rewrite length_take; lia). rewrite length_take, drop_drop, Nat.min_l by lia.
  replace (S r + (r - r `min` length cs)) with (S r) by lia. by rewrite take_drop_middle.
Qed.

Lemma items_drop_at r cs : items (drop_at r cs) = drop_at r (items cs).
Proof. unfold items, drop_at. by rewrite fmap_app, fmap_take, fmap_drop. Qed.

(** The element, if there is one, is the first not smaller. *)
Lemma find_cut cs t r : ordered (items cs) -> item_ok t -> (forall q c, cs !! q = Some c -> item_lt (citem c) t = bool_decide (q < r)) ->
  find_item t (items cs) = match cs !! r with Some c => if item_eq (citem c) t then Some r else None | None => None end.
Proof.
  intros Od Ht Hcut. rewrite (find_item_spec (cs := cs) t (S r) Ht); [done|]. intros q c Hc He. f_equal.
  pose proof (cell_ok Od q c Hc) as Hok. destruct (item_eq_not_lt _ _ Hok Ht He) as [E _]. pose proof (Hcut q c Hc) as Hq. rewrite E in Hq.
  symmetry in Hq. apply bool_decide_eq_false in Hq. destruct (decide (q = r)) as [|Hne]; [done|]. exfalso.
  destruct (lookup_lt_is_Some_2 cs r) as [d Hd]; [apply lookup_lt_Some in Hc; lia|]. pose proof (cells_ordered Od r q d c Hd Hc ltac:(lia)) as Hlt.
  destruct (item_eq_lt _ _ (citem d) Hok Ht (cell_ok Od r d Hd) He) as [E2 _]. rewrite E2, (Hcut r d Hd), bool_decide_eq_false_2 in Hlt by lia. done.
Qed.

Lemma find_with_update_spec sl cs s m : rep sl cs -> ordered (items cs) -> not_nan s ->
  exists r update, r <= length cs /\ (forall q c, cs !! q = Some c -> item_lt (citem c) (m, s) = bool_decide (q < r)) /\ updates cs r (level sl) update /\
    find_with_update s m sl = Some ((fun q => idat cs (S q)) <$> find_item (m, s) (items cs), update) /\
    (find_item (m, s) (items cs) = None \/ find_item (m, s) (items cs) = Some r /\ exists c, cs !! r = Some c /\ item_eq (citem c) (m, s) = true).
Proof.
  intros R Od Hs. destruct (items_cut cs (m, s) Od Hs) as (r & Hr & Hcut). destruct (find_descent R Hr Hcut) as (u & E & Hu).
  exists r, u. split; [done|]. split; [done|]. split; [done|]. unfold find_with_update. rewrite E. cbn [mbind option_bind].
  destruct (bottom R r Hr) as [sp ->]. cbn [fmap option_fmap option_map mbind option_bind forward]. rewrite (find_cut cs (m, s) r Od Hs Hcut).
  destruct (cs !! r) as [c|] eqn:Hc.
  - pose proof (lookup_lt_Some _ _ _ Hc). rewrite decide_True by (apply (id_not_nil R); lia). destruct (node_item R r c Hc) as (n & Hn & Hi & Hid).
    rewrite Hn. cbn [mbind option_bind]. assert (Floats.SpecFloat.SFeqb (score n) s && bool_decide (member n = m) = item_eq (citem c) (m, s)) as ->
      by (unfold item_eq; by rewrite <-Hi). destruct (item_eq (citem c) (m, s)) eqn:He; [split; [done|right; eauto]|split; [done|by left]].
  - rewrite decide_False; [split; [done|by left]|]. intros Hne. apply Hne. apply lookup_ge_None in Hc. unfold idat. by rewrite lookup_ge_None_2 by (rewrite row_length; lia).
Qed.

(** Deleting the element that was found. *)
Lemma remove_found_holds sl cs r c update : rep sl cs -> ordered (items cs) -> cs !! r = Some c -> updates cs r (level sl) update ->
  exists sl', remove_found (idat cs (S r)) update sl = Some sl' /\ rep sl' (drop_at r cs) /\ ordered (items (drop_at r cs)) /\ free sl' <> [].
Proof.
  intros R Od Hc Hu. destruct (ins_drop_at r c cs Hc) as [E Hr]. rewrite (idat_row cs (S r) c) by done. rewrite <-E in R, Hu.
  destruct (remove_found_rep sl (drop_at r cs) c r update Hr R Hu) as (sl' & -> & R' & Hfr). exists sl'. split; [done|]. split; [done|]. split; [|done].
  rewrite items_drop_at. by apply ordered_delete.
Qed.

(** C5: A deletion removes the element with that score and member, and says
    whether there was one. *)
Theorem skiplist_delete (s : f64) (m : bytes) (sl : Skiplist) (xs : list Item) :
  holds sl xs -> not_nan s ->
  exists sl', delete s m sl = Some (sl', bool_decide (is_Some (find_item (m, s) xs))) /\ holds sl' (remove_item (m, s) xs).
Proof.
  intros (cs & R & <- & Od) Hs. destruct (find_with_update_spec sl cs s m R Od Hs) as (r & u & Hr & Hcut & Hu & E & Hf).
  unfold delete, remove_item. rewrite E. cbn [mbind option_bind]. destruct Hf as [Hf|(Hf & c & Hc & He)]; rewrite Hf; cbn [fmap option_fmap option_map].
  - exists sl. rewrite bool_decide_eq_false_2 by (by intros [? ?]). split; [done|]. by exists cs.
  - destruct (remove_found_holds sl cs r c u R Od Hc Hu) as (sl' & -> & R' & Od' & _). cbn [mbind option_bind]. exists sl'.
    rewrite bool_decide_eq_true_2 by done. split; [done|]. exists (drop_at r cs). rewrite items_drop_at in *. done.
Qed.

(** ** The change of a score *)

(** The node keeps its place. *)
Lemma rescore_rep sl cs r c n s :
  rep sl cs -> cs !! r = Some c -> node (cid c) sl = Some n ->
  exists sl', upd_node (cid c) (set_score s) sl = Some sl' /\ rep sl' (recell r ((citem c).1, s) cs).
Proof.
  intros R Hc Hn. destruct (upd_node_spec (cid c) (set_score s) n sl Hn) as (sl' & E & E1 & E2 & E3 & E4 & E5 & En). exists sl'. split; [done|].
  set (cs' := recell r ((citem c).1, s) cs).
  assert (cid <$> row cs' = cid <$> row cs) as Hids.
  { apply list_eq. intros p. rewrite !list_lookup_fmap. unfold cs'. rewrite row_recell. destruct (row cs !! p); [|done]. cbn. by case_decide. }
  assert (forall p, back cs' p = back cs p) as Hback by (intros p; unfold back, cs'; by rewrite (proj1 (recell_ids r ((citem c).1, s) cs (p - 1)))).
  split.
  - unfold cs'. rewrite E5, recell_length. apply (rep_len _ _ R).
  - rewrite E4. apply (rep_level _ _ R).
  - intros d [p Hd]%list_elem_of_lookup_1. rewrite E4. pose proof (row_recell r ((citem c).1, s) cs (S p)) as Hrow.
    change (cs' !! p = Some d) in Hd. change (row (recell r ((citem c).1, s) cs) !! S p) with (cs' !! p) in Hrow. rewrite Hd in Hrow.
    destruct (row cs !! S p) as [d0|] eqn:Hd0; [|done]. injection Hrow as ->. apply row_in, (rep_heights _ _ R) in Hd0. by case_decide.
  - rewrite Hids, E2. apply (rep_ids _ _ R).
  - rewrite Hids, E2, E1. apply (rep_arena _ _ R).
  - rewrite E1. apply (rep_small _ _ R).
  - intros p d Hd. unfold cs' in Hd. rewrite row_recell in Hd. destruct (row cs !! p) as [d0|] eqn:Hd0; [|done]. injection Hd as <-.
    destruct (rep_node _ _ R p d0 Hd0) as (m & Hm & Hl & Hb). pose proof (lookup_lt_Some _ _ _ Hc) as Hrl. pose proof (lookup_lt_Some _ _ _ Hd0) as Hpl. rewrite row_length in Hpl.
    destruct (decide (p = S r)) as [->|Hne].
    + change (row cs !! S r) with (cs !! r) in Hd0. rewrite Hc in Hd0. injection Hd0 as <-. cbn [cid height citem]. rewrite En, decide_True by done.
      replace m with n in * by congruence. exists (set_score s n). split; [done|]. split; [done|]. intros Hp. destruct (Hb Hp) as [Hi Hbk].
      rewrite Hback. split; [|done]. cbn [member score set_score]. by rewrite <-Hi.
    + rewrite En, decide_False; [exists m; by rewrite Hback|]. rewrite <-(idat_row cs p d0 Hd0), <-(idat_row cs (S r) c Hc). intros E'.
      apply (id_inj R) in E'; (done || lia).
  - intros p l d Hd Hh Hl. unfold cs' in Hd. rewrite row_recell in Hd. destruct (row cs !! p) as [d0|] eqn:Hd0; [|done]. injection Hd as <-.
    assert (cid (if decide (p = S r) then {| cid := cid d0; citem := ((citem c).1, s); height := height d0 |} else d0) = cid d0 /\
      height (if decide (p = S r) then {| cid := cid d0; citem := ((citem c).1, s); height := height d0 |} else d0) = height d0) as [-> Ehh] by by case_decide.
    rewrite Ehh in Hh. rewrite E4 in Hl. assert (lvl (cid d0) l sl' = lvl (cid d0) l sl) as ->.
    { unfold lvl. rewrite En. destruct (decide (cid d0 = cid c)) as [->|]; [by rewrite Hn|done]. }
    rewrite (rep_links _ _ R p l d0 Hd0 Hh Hl). rewrite (next_ext cs' cs) by (intros k; apply recell_ids). f_equal. unfold link_to.
    unfold cs'. destruct (next_of cs l p) as [q|]; [by rewrite (proj1 (recell_ids r ((citem c).1, s) cs q))|by rewrite recell_length].
  - rewrite E3, Hback. unfold cs'. rewrite recell_length. apply (rep_tail _ _ R).
Qed.

(** Between its neighbours a new key stays where the old one was. *)
Lemma rekey_cut xs r x t :
  ordered xs -> item_ok t -> xs !! r = Some x ->
  (forall y, 0 < r -> xs !! (r - 1) = Some y -> item_lt y t = true) -> (forall y, xs !! S r = Some y -> item_lt t y = true) ->
  insert_item t (drop_at r xs) = <[r:=t]> xs /\ ordered (<[r:=t]> xs).
Proof.
  intros Od Ht Hx Hl Hr. pose proof (lookup_lt_Some _ _ _ Hx) as Hlt. pose proof Od as [_ Ho].
  assert (forall i y, i < r -> xs !! i = Some y -> item_lt y t = true) as Hlow.
  { intros i y Hi Hy. destruct (lookup_lt_is_Some_2 xs (r - 1)) as [z Hz]; [lia|]. specialize (Hl z ltac:(lia) Hz).
    destruct (decide (i = r - 1)) as [->|]; [congruence|]. apply (item_lt_trans y z t); [by eapply ordered_ok|by eapply ordered_ok|done|apply (Ho i (r - 1)); (done || lia)|done]. }
  assert (forall i y, r < i -> xs !! i = Some y -> item_lt t y = true) as Hhigh.
  { intros i y Hi Hy. pose proof (lookup_lt_Some _ _ _ Hy). destruct (lookup_lt_is_Some_2 xs (S r)) as [z Hz]; [lia|]. specialize (Hr z Hz).
    destruct (decide (i = S r)) as [->|]; [congruence|]. apply (item_lt_trans t z y); [done|by eapply ordered_ok|by eapply ordered_ok|done|apply (Ho (S r) i); (done || lia)]. }
  assert (r <= length (drop_at r xs)) as Hrl by (unfold drop_at; rewrite length_app, length_take; lia).
  assert (forall i y, drop_at r xs !! i = Some y -> item_lt y t = bool_decide (i < r) /\ item_eq y t = false) as Hcut.
  { intros i y Hy. rewrite drop_at_lookup in Hy. pose proof (ordered_ok _ _ _ Od Hy) as Hok. case_decide as Hi.
    - rewrite (Hlow i y Hi Hy), bool_decide_eq_true_2 by done. split; [done|]. destruct (item_eq y t) eqn:He; [|done].
      destruct (item_eq_not_lt _ _ Hok Ht He) as [E _]. by rewrite (Hlow i y Hi Hy) in E.
    - pose proof (Hhigh (S i) y ltac:(lia) Hy) as Hg. rewrite bool_decide_eq_false_2 by done. split.
      + destruct (item_lt y t) eqn:E; [|done]. pose proof (item_lt_trans _ _ _ Ht Hok Ht Hg E) as H. by rewrite item_lt_irrefl in H.
      + destruct (item_eq y t) eqn:He; [|done]. destruct (item_eq_not_lt _ _ Hok Ht He) as [_ E]. by rewrite Hg in E. }
  assert (take r (drop_at r xs) ++ t :: drop r (drop_at r xs) = <[r:=t]> xs) as E.
  { rewrite (insert_take_drop xs r t) by done. unfold drop_at.
    rewrite take_app_le, take_take, drop_app_ge by (rewrite length_take; lia). rewrite length_take, drop_drop, Nat.min_l by lia.
    do 3 f_equal. lia. }
  rewrite (insert_item_cut t _ r) by (done || (intros i y Hy; by apply (Hcut i y))). rewrite E. split; [done|]. rewrite <-E.
  apply ordered_ins; [by apply ordered_delete|done| |done|intros i y Hy; by apply (Hcut i y)].
  unfold find_item. destruct (list_find _ (drop_at r xs)) as [[i y]|] eqn:Ef; [|done]. apply list_find_Some in Ef as (Hy & He & _).
  destruct (Hcut i y Hy) as [_ E']. congruence.
Qed.

Lemma items_recell r x cs : items (recell r x cs) = <[r:=x]> (items cs).
Proof.
  apply list_eq. intros p. rewrite items_lookup. change (recell r x cs !! p) with (row (recell r x cs) !! S p). rewrite row_recell.
  change (row cs !! S p) with (cs !! p). destruct (decide (p = r)) as [->|Hne].
  - destruct (cs !! r) as [c|] eqn:Hc; cbn.
    + rewrite decide_True by done. rewrite list_lookup_insert_eq by (rewrite items_length; by eapply lookup_lt_Some). done.
    + symmetry. apply lookup_ge_None. rewrite length_insert, items_length. by apply lookup_ge_None.
  - rewrite list_lookup_insert_ne, items_lookup by done. destruct (cs !! p); [|done]. cbn. by rewrite decide_False by lia.
Qed.

(** The key of the node at a position that holds an element. *)
Lemma node_key sl cs p : rep sl cs -> p < length cs ->
  idat cs (S p) <> NIL /\ exists nd, node (idat cs (S p)) sl = Some nd /\ items cs !! p = Some (member nd, score nd).
Proof.
  intros R Hp. split; [apply (id_not_nil R); lia|]. destruct (lookup_lt_is_Some_2 cs p Hp) as [d Hd]. destruct (node_item R p d Hd) as (nd & ? & E & _).
  exists nd. by rewrite items_lookup, Hd, E.
Qed.

(** What the two neighbours of a position say of a new score. *)
Lemma left_spec sl cs r m s : rep sl cs -> r < length cs ->
  exists ok, (if decide (back cs (S r) = NIL) then Some true else b ← node (back cs (S r)) sl; Some (key_lt (score b) (member b) s m)) = Some ok /\
    (ok = true -> forall y, 0 < r -> items cs !! (r - 1) = Some y -> item_lt y (m, s) = true).
Proof.
  intros R Hr. unfold back. destruct r as [|r]; [exists true; split; [done|lia]|]. rewrite (decide_False (P := S (S r) <= 1)) by lia.
  destruct (node_key sl cs r R) as (Hne & nd & Hn & Hi); [lia|]. replace (S (S r) - 1) with (S r) by lia. rewrite decide_False by done. rewrite Hn.
  eexists. split; [done|]. intros Hok y _ Hy. replace (S r - 1) with r in Hy by lia. by simplify_eq.
Qed.

Lemma right_spec sl cs r m s : rep sl cs -> r < length cs ->
  exists ok, (if decide (idat cs (S (S r)) = NIL) then Some true else f ← node (idat cs (S (S r))) sl; Some (key_lt s m (score f) (member f))) = Some ok /\
    (ok = true -> forall y, items cs !! S r = Some y -> item_lt (m, s) y = true).
Proof.
  intros R Hr. destruct (decide (S r < length cs)) as [Hlt|Hge].
  - destruct (node_key sl cs (S r) R Hlt) as (Hne & nd & Hn & Hi). rewrite decide_False by done. rewrite Hn. eexists. split; [done|]. intros Hok y Hy. by simplify_eq.
  - unfold idat. rewrite (lookup_ge_None_2 (row cs)) by (rewrite row_length; lia). exists true. split; [done|]. intros _ y Hy.
    apply lookup_lt_Some in Hy. rewrite items_length in Hy. lia.
Qed.

(** A change of score moves the element to its new place, in place when the
    neighbours allow it and through the free list otherwise; no room is needed. *)
Theorem skiplist_update_score (draws : nat -> Z) (cur new : f64) (m : bytes) (sl : Skiplist) (xs : list Item) :
  holds sl xs -> not_nan cur -> not_nan new -> find_item (m, new) (remove_item (m, cur) xs) = None ->
  let found := bool_decide (is_Some (find_item (m, cur) xs)) in
  exists sl', update_score draws cur m new sl = Some (sl', found) /\ holds sl' (if found then insert_item (m, new) (remove_item (m, cur) xs) else xs).
Proof.
  intros (cs & R & <- & Od) Hc Hn Hnew. cbv zeta. destruct (find_with_update_spec sl cs cur m R Od Hc) as (r & u & Hr & Hcut & Hu & E & Hf).
  unfold update_score. rewrite E. cbn [mbind option_bind]. unfold remove_item in *. destruct Hf as [Hf|(Hf & c & Hcell & He)]; rewrite Hf in *; cbn [fmap option_fmap option_map].
  { exists sl. rewrite bool_decide_eq_false_2 by (by intros [? ?]). split; [done|]. by exists cs. }
  rewrite bool_decide_eq_true_2 by done. pose proof (lookup_lt_Some _ _ _ Hcell) as Hlt.
  destruct (node_at R r c Hcell) as (n & Hnode & Hi & Hb & _). destruct (bottom R (S r)) as [sp Hs]; [lia|].
  destruct (left_spec sl cs r m new R Hlt) as (okl & El & Hokl), (right_spec sl cs r m new R Hlt) as (okr & Er & Hokr).
  assert ((citem c).1 = m) as Hm by (unfold item_eq in He; by apply andb_true_iff in He as [_ ?%bool_decide_eq_true]).
  rewrite (idat_row cs (S r) c Hcell) in *. rewrite Hnode, Hs. cbn [fmap option_fmap option_map mbind option_bind forward]. rewrite Hb, El, Er. cbn [mbind option_bind].
  destruct (okl && okr) eqn:Hok.
  - apply andb_true_iff in Hok as [-> ->]. destruct (rescore_rep sl cs r c n new R Hcell Hnode) as (sl' & -> & R'). cbn [mbind option_bind].
    exists sl'. split; [done|]. rewrite Hm in R'. destruct (rekey_cut (items cs) r (citem c) (m, new)) as [-> Od']; [done|done|by rewrite items_lookup, Hcell|by apply Hokl|by apply Hokr|].
    exists (recell r (m, new) cs). by rewrite items_recell.
  - destruct (remove_found_holds sl cs r c u R Od Hcell Hu) as (sl1 & Hrm & R1 & Od1 & Hfree). rewrite (idat_row cs (S r) c Hcell) in Hrm. rewrite Hrm.
    cbn [mbind option_bind]. assert (member n = m) as -> by (by rewrite <-Hm, <-Hi).
    destruct (insert_holds draws new m sl1 (drop_at r (items cs))) as (sl' & -> & H'); [|done|done|by intros ?|by exists sl'].
    exists (drop_at r cs). by rewrite items_drop_at in *.
Qed.

(** ** The deletion of a range *)

(** One round: the element at [r] is found again by its key and removed. *)
Lemma sl_remove_at sl cs r : rep sl cs -> ordered (items cs) -> r < length cs ->
  exists n u sl', node (idat cs (S r)) sl = Some n /\ items cs !! r = Some (member n, score n) /\
    find_with_update (score n) (member n) sl = Some (Some (idat cs (S r)), u) /\ remove_found (idat cs (S r)) u sl = Some sl' /\
    rep sl' (drop_at r cs) /\ ordered (items (drop_at r cs)).
Proof.
  intros R Od Hr. destruct (lookup_lt_is_Some_2 cs r Hr) as [c Hc]. destruct (node_item R r c Hc) as (n & Hn & Hi & _).
  pose proof (cell_ok Od r c Hc) as Hok. assert (not_nan (score n)) as Hs by (unfold item_ok in Hok; by rewrite <-Hi in Hok).
  destruct (find_with_update_spec sl cs (score n) (member n) R Od Hs) as (r' & u & Hr' & Hcut & Hu & E & _). rewrite Hi in *.
  assert (r' = r) as ->.
  { pose proof (Hcut r c Hc) as H1. rewrite item_lt_irrefl in H1 by done. symmetry in H1. apply bool_decide_eq_false in H1.
    destruct (decide (r' = r)) as [|Hne]; [done|]. destruct (lookup_lt_is_Some_2 cs r') as [d Hd]; [lia|].
    pose proof (cells_ordered Od r' r d c Hd Hc ltac:(lia)) as H2. rewrite (Hcut r' d Hd), bool_decide_eq_false_2 in H2 by lia. done. }
  rewrite (find_cut cs (citem c) r Od Hok Hcut), Hc, item_eq_refl in E by done. cbn [fmap option_fmap option_map] in E.
  destruct (remove_found_holds sl cs r c u R Od Hc Hu) as (sl' & Hrm & R' & Od' & _). exists n, u, sl'. rewrite items_lookup, Hc, Hi. done.
Qed.

Lemma interval_drop b i xs : interval b xs -> interval b (drop_at i xs).
Proof.
  intros I. split; [apply (iv_node _ _ I)|..].
  1,2: intros j k x y Hjk Hx Hy; rewrite drop_at_lookup in Hx, Hy; eapply (iv_min _ _ I) || eapply (iv_max _ _ I); [|exact Hx|exact Hy]; repeat case_decide; lia.
  intros He x [j Hj]%list_elem_of_lookup_1. rewrite drop_at_lookup in Hj. apply (iv_empty _ _ I He). by eapply list_elem_of_lookup_2.
Qed.

Lemma filter_first b xs lo hi x : spans b xs lo hi -> lo < hi -> xs !! lo = Some x ->
  filter (fun x => within b x = true) xs = x :: filter (fun x => within b x = true) (drop_at lo xs) /\
  filter (fun x => within b x = false) xs = filter (fun x => within b x = false) (drop_at lo xs).
Proof.
  intros (_ & _ & Hs) Hlt Hx. assert (within b x = true) as Hw.
  { unfold within. destruct (Hs lo x Hx) as [-> ->]. by rewrite !bool_decide_eq_true_2 by lia. }
  assert (filter (fun x => within b x = true) (take lo xs) = []) as Hnil.
  { apply filter_none. intros y [i Hy]%list_elem_of_lookup_1. apply lookup_take_Some in Hy as [Hy Hi].
    unfold within. destruct (Hs i y Hy) as [-> _]. by rewrite bool_decide_eq_false_2 by lia. }
  unfold drop_at. pose proof (take_drop_middle xs lo x Hx) as E. set (pre := take lo xs) in *. set (post := drop (S lo) xs) in *. clearbody pre post.
  rewrite <-E, !filter_app, Hnil, filter_cons_True, filter_cons_False by congruence. done.
Qed.

Section delete_while.
Context (b : Bounds) (first : Skiplist -> option (option N)) (still_in : Node -> bool).
Context (Hfirst : forall sl, first sl = first_node b sl) (Hin : forall n, still_in n = lte_max b n).

Lemma delete_while_loop_spec fuel sl cs lo hi :
  rep sl cs -> ordered (items cs) -> interval b (items cs) -> spans b (items cs) lo hi -> hi - lo < fuel ->
  exists sl' cs', delete_while_loop fuel first still_in sl = Some (sl', filter (fun x => within b x = true) (items cs)) /\
    rep sl' cs' /\ ordered (items cs') /\ items cs' = filter (fun x => within b x = false) (items cs).
Proof.
  revert sl cs hi. induction fuel as [|fuel IH]; intros sl cs hi R Od I Sp Hf; [lia|]. cbn [delete_while_loop].
  rewrite Hfirst, (first_node_spec R I Sp). cbn [mbind option_bind]. pose proof Sp as (Hlo & Hhi & Hs). rewrite items_length in Hlo, Hhi.
  destruct (decide (lo < hi)) as [Hlt|Hge].
  - destruct (sl_remove_at sl cs lo R Od) as (n & u & sl' & Hn & Hx & Hfind & Hrm & R' & Od'); [lia|]. rewrite Nat.add_1_r, Hn. cbn [mbind option_bind].
    assert (still_in n = true) as ->.
    { rewrite Hin. destruct (iv_node _ _ I n) as [_ ->]. destruct (Hs lo _ Hx) as [_ ->]. by apply bool_decide_eq_true_2. }
    cbn [negb]. rewrite Hfind. cbn [mbind option_bind]. rewrite Hrm. cbn [mbind option_bind].
    assert (spans b (items (drop_at lo cs)) lo (hi - 1)) as Sp'.
    { rewrite items_drop_at. split; [unfold drop_at; rewrite length_app, length_take, length_drop, items_length; lia|].
      split; [unfold drop_at; rewrite length_app, length_take, length_drop, items_length; lia|].
      intros i y Hy. rewrite drop_at_lookup in Hy. destruct (Hs _ _ Hy) as [-> ->]. split; apply bool_decide_ext; case_decide; lia. }
    destruct (IH sl' (drop_at lo cs) (hi - 1) R' Od') as (sl2 & cs2 & E & R2 & Od2 & Hi2); [rewrite items_drop_at; by apply interval_drop|done|lia|].
    rewrite E. cbn [mbind option_bind]. exists sl2, cs2. rewrite items_drop_at in *.
    destruct (filter_first b (items cs) lo hi _ Sp Hlt Hx) as [-> ->]. done.
  - exists sl, cs. rewrite (filter_spans _ _ _ _ Sp). replace (hi - lo) with 0 by lia. split; [done|]. split; [done|]. split; [done|].
    symmetry. apply filter_all. intros y [i Hy]%list_elem_of_lookup_1. unfold within. destruct (Hs i y Hy) as [-> ->].
    destruct (decide (lo <= i)); [|by rewrite bool_decide_eq_false_2 by lia]. by rewrite andb_comm, (bool_decide_eq_false_2 (i < hi)) by lia.
Qed.

Lemma delete_while_spec sl xs : holds sl xs -> interval b xs ->
  exists sl', delete_while first still_in sl = Some (sl', filter (fun x => within b x = true) xs) /\ holds sl' (filter (fun x => within b x = false) xs).
Proof.
  intros (cs & R & <- & Od) I. destruct (interval_spans _ _ I) as (lo & hi & Sp). unfold delete_while.
  destruct (delete_while_loop_spec (S (len sl)) sl cs lo hi R Od I Sp) as (sl' & cs' & -> & R' & Od' & Hi).
  - pose proof Sp as (_ & Hhi & _). rewrite items_length in Hhi. rewrite (rep_len _ _ R). lia.
  - exists sl'. split; [done|]. exists cs'. split; [done|]. split; [done|]. by rewrite <-Hi.
Qed.
End delete_while.

Lemma delete_rank_loop_spec count start sl cs : rep sl cs -> ordered (items cs) ->
  exists sl' cs', delete_rank_loop count start sl = Some (sl', take count (drop start (items cs))) /\
    rep sl' cs' /\ ordered (items cs') /\ items cs' = take start (items cs) ++ drop (start + count) (items cs).
Proof.
  revert sl cs. induction count as [|count IH]; intros sl cs R Od; cbn [delete_rank_loop].
  { exists sl, cs. rewrite Nat.add_0_r, take_drop. done. }
  rewrite (node_by_rank_spec R). cbn [mbind option_bind]. destruct (decide (start < length cs)) as [Hlt|Hge].
  - destruct (sl_remove_at sl cs start R Od Hlt) as (n & u & sl' & Hn & Hx & Hfind & Hrm & R' & Od'). rewrite Hn. cbn [mbind option_bind].
    rewrite Hfind. cbn [mbind option_bind]. rewrite Hrm. cbn [mbind option_bind]. destruct (IH sl' (drop_at start cs) R' Od') as (sl2 & cs2 & E & R2 & Od2 & Hi2).
    rewrite E. cbn [mbind option_bind]. exists sl2, cs2. rewrite items_drop_at in *. rewrite (drop_S _ _ _ Hx). cbn [take].
    assert (drop start (drop_at start (items cs)) = drop (S start) (items cs)) as E1.
    { unfold drop_at. rewrite drop_app_length'; [done|]. rewrite length_take, items_length. lia. }
    rewrite E1. split; [done|]. split; [done|]. split; [done|]. rewrite Hi2, <-drop_drop, E1, drop_drop. f_equal; [|f_equal; lia].
    unfold drop_at. rewrite take_app_length'; [done|]. rewrite length_take, items_length. lia.
  - exists sl, cs. rewrite !(drop_ge (items cs)), take_nil by (rewrite items_length; lia). rewrite take_ge by (rewrite items_length; lia). by rewrite app_nil_r.
Qed.

(** A range deletion takes away exactly the elements of the range, hands
    them over in order, and leaves the others: by score, by member, by rank. *)
Theorem skiplist_delete_ranges (sl : Skiplist) (xs : list Item) :
  holds sl xs ->
  (forall r, range_ok r -> exists sl', delete_range_by_score r sl = Some (sl', filter (fun x => ScoreRange.contains r x.2 = true) xs) /\
     holds sl' (filter (fun x => ScoreRange.contains r x.2 = false) xs)) /\
  (forall r, one_score xs -> exists sl', delete_range_by_lex r sl = Some (sl', filter (fun x => LexRange.contains r x.1 = true) xs) /\
     holds sl' (filter (fun x => LexRange.contains r x.1 = false) xs)) /\
  (forall start count, exists sl', delete_range_by_rank start count sl = Some (sl', take count (drop start xs)) /\
     holds sl' (take start xs ++ drop (start + count) xs)).
Proof.
  intros H. pose proof H as (cs & R & <- & Od). split; [|split].
  - intros r Hr. by apply (delete_while_spec (by_score r)); [..|apply score_interval].
  - intros r Hr. by apply (delete_while_spec (by_lex r)); [..|apply lex_interval].
  - intros start count. unfold delete_range_by_rank. rewrite (rep_len _ _ R). case_decide as Hz.
    + exists sl. destruct Hz as [->|Hz]; [by rewrite Nat.add_0_r, take_drop|].
      rewrite !(drop_ge (items cs)), take_nil by (rewrite items_length; lia). by rewrite take_ge, app_nil_r by (rewrite items_length; lia).
    + destruct (delete_rank_loop_spec count start sl cs R Od) as (sl' & cs' & -> & R' & Od' & Hi). exists sl'. split; [done|].
      exists cs'. split; [done|]. split; [done|]. by rewrite <-Hi.
Qed.

(** ** The empty list *)

Lemma fresh_holds n : levels n = replicate MAX_LEVEL NIL_LEVEL -> holds {| nodes := [n]; free := []; tail := NIL; level := 1; len := 0 |} [].
Proof.
  intros Hn. exists []. split; [|split; [done|split; [constructor|intros i j x y Hx; by rewrite lookup_nil in Hx]]].
  split; cbn [len level free nodes tail row fmap list_fmap app cid hcell length].
  - done.
  - unfold MAX_LEVEL. lia.
  - intros c Hc. by apply elem_of_nil in Hc.
  - by apply NoDup_singleton.
  - intros i Hi%list_elem_of_singleton. subst. unfold HEAD. cbn. lia.
  - done.
  - intros [|p] c Hc; [|done]. injection Hc as <-. exists n. split; [reflexivity|]. rewrite Hn. split; [done|intros ?; lia].
  - intros [|p] l c Hc Hh Hl; [|done]. injection Hc as <-. assert (l = 0) as -> by lia. unfold lvl. change (node (cid hcell) _) with (Some n).
    cbn [mbind option_bind]. by rewrite Hn.
  - done.
Qed.

Lemma new_holds : holds new [].
Proof. by apply fresh_holds. Qed.

(** [clear] gives the arena back and leaves the empty list. *)
Lemma clear_holds sl xs : holds sl xs -> exists sl', clear sl = Some sl' /\ holds sl' [].
Proof.
  intros (cs & R & _ & _). destruct (rep_node _ _ R 0 hcell eq_refl) as (n & Hn & _). change (nodes sl !! 0 = Some n) in Hn. unfold clear. rewrite Hn.
  eexists. split; [done|]. by apply fresh_holds.
Qed.

(** ** Concrete lists *)

Definition demo_items : list Item := [(bs "z", f64_of_i64 0); (bs "a", f64_of_i64 1); (bs "c", f64_of_i64 1)].

Lemma demo_holds : exists sl, demo = Some sl /\ holds sl demo_items.
Proof.
  unfold demo. set (draws := fun i : nat => if decide (i < 2) then 0%Z else 4294967295%Z).
  assert (forall sl' : Skiplist, sl' = new \/ insert draws (f64_of_i64 1) (bs "c") new = Some sl' \/
    (sl ← insert draws (f64_of_i64 1) (bs "c") new; insert draws (f64_of_i64 1) (bs "a") sl) = Some sl' -> has_room sl') as Hroom.
  { intros sl' [->|[H|H]]; [by intros _|..]; vm_compute in H; injection H as <-; by intros _. }
  destruct (insert_holds draws (f64_of_i64 1) (bs "c") new [] new_holds) as (s1 & E1 & H1); [done|done|apply Hroom; by left|].
  destruct (insert_holds draws (f64_of_i64 1) (bs "a") s1 _ H1) as (s2 & E2 & H2); [done|done|apply Hroom; by right; left|].
  destruct (insert_holds (fun _ => 4294967295%Z) (f64_of_i64 0) (bs "z") s2 _ H2) as (s3 & E3 & H3); [done|done|apply Hroom; right; right; by rewrite E1|].
  exists s3. rewrite E1. cbn [mbind option_bind]. rewrite E2. cbn [mbind option_bind]. rewrite E3. by split.
Qed.

Lemma skiplist_insert_witness : exists sl', insert (fun _ => 0%Z) (f64_of_i64 7) (bs "k") new = Some sl' /\ holds sl' [(bs "k", f64_of_i64 7)].
Proof. apply (skiplist_insert (fun _ => 0%Z) (f64_of_i64 7) (bs "k") new []); [exact new_holds|reflexivity|reflexivity|intros _; reflexivity]. Defined.

Lemma skiplist_delete_witness : exists sl sl', demo = Some sl /\ delete (f64_of_i64 1) (bs "a") sl = Some (sl', true) /\
  holds sl' [(bs "z", f64_of_i64 0); (bs "c", f64_of_i64 1)].
Proof.
  destruct demo_holds as (sl & E & H). destruct (skiplist_delete (f64_of_i64 1) (bs "a") sl demo_items H eq_refl) as (sl' & E' & H').
  exists sl, sl'. split; [exact E|]. split; [exact E'|exact H'].
Defined.

Lemma skiplist_update_score_witness : exists sl sl', demo = Some sl /\ update_score (fun _ => 0%Z) (f64_of_i64 1) (bs "a") (f64_of_i64 5) sl = Some (sl', true) /\
  holds sl' [(bs "z", f64_of_i64 0); (bs "c", f64_of_i64 1); (bs "a", f64_of_i64 5)].
Proof.
  destruct demo_holds as (sl & E & H).
  destruct (skiplist_update_score (fun _ => 0%Z) (f64_of_i64 1) (f64_of_i64 5) (bs "a") sl demo_items H eq_refl eq_refl eq_refl) as (sl' & E' & H').
  exists sl, sl'. split; [exact E|]. split; [exact E'|exact H'].
Defined.

Lemma skiplist_delete_ranges_witness : exists sl sl', demo = Some sl /\
  delete_range_by_score {| ScoreRange.min := incl (f64_of_i64 1); ScoreRange.max := incl (f64_of_i64 2) |} sl =
    Some (sl', [(bs "a", f64_of_i64 1); (bs "c", f64_of_i64 1)]) /\ holds sl' [(bs "z", f64_of_i64 0)].
Proof.
  destruct demo_holds as (sl & E & H).
  destruct (proj1 (skiplist_delete_ranges sl demo_items H) {| ScoreRange.min := incl (f64_of_i64 1); ScoreRange.max := incl (f64_of_i64 2) |} (conj eq_refl eq_refl))
    as (sl' & E' & H'). exists sl, sl'. split; [exact E|]. split; [exact E'|exact H'].
Defined.

Lemma skiplist_reads_witness : exists sl, demo = Some sl /\ len sl = 3 /\ iter sl = Some demo_items /\ rank_of (f64_of_i64 1) (bs "c") sl = Some (Some 2%Z).
Proof.
  destruct demo_holds as (sl & E & H). destruct (skiplist_reads sl demo_items H) as (H1 & H2 & _ & _ & _ & H3 & _).
  exists sl. split; [exact E|]. split; [exact H1|]. split; [exact H2|]. exact (H3 (f64_of_i64 1) (bs "c") eq_refl).
Defined.

Lemma skiplist_ranges_witness : exists sl, demo = Some sl /\
  range {| ScoreRange.min := excl (f64_of_i64 0); ScoreRange.max := incl (f64_of_i64 1) |} sl = Some [(bs "a", f64_of_i64 1); (bs "c", f64_of_i64 1)].
Proof.
  destruct demo_holds as (sl & E & H). exists sl. split; [exact E|].
  exact (proj1 (proj1 (skiplist_ranges sl demo_items H) {| ScoreRange.min := excl (f64_of_i64 0); ScoreRange.max := incl (f64_of_i64 1) |} (conj eq_refl eq_refl))).
Defined.
