(* ===== verification/Quicklist.v ===== *)
(** * Quicklist: a list kept in listpacks ([src/encoding/quicklist.rs])

    The deque of nodes is a list.  A node is a listpack of several values, or
    one value too large for a listpack.  A listpack operation that would panic
    is [None]; an operation that may refuse returns whether it was done.  Sizes
    and limits are [Z]; the element count, below [2 ^ 63], is a [nat]. *)
From S2P Require Import Prelude Strnum Listpack.
Open Scope nat_scope.

Definition OPTIMIZATION_LEVEL : list Z := [4096; 8192; 16384; 32768; 65536]%Z.
Definition SIZE_SAFETY_LIMIT : Z := 8192.
Definition SIZE_ESTIMATE_OVERHEAD : Z := 11.
Definition DEFAULT_FILL : Z := 128.

(** The limit of bytes and the limit of entries; 0 is none. *)
Definition node_limit (fill : Z) : Z * Z :=
  if decide (0 <= fill)%Z then (0, if decide (fill = 0) then 1 else fill)%Z
  else
    let idx := (Z.max 1 (Z.min (Z.of_nat (length OPTIMIZATION_LEVEL)) (wrapu 64 (wraps 64 (- fill)))) - 1)%Z in
    (default 8192 (OPTIMIZATION_LEVEL !! Z.to_nat idx), 0)%Z.

Definition exceeds_limit (fill : Z) (new_sz new_count : Z) : bool :=
  let '(sz_limit, count_limit) := node_limit fill in
  if decide (sz_limit <> 0)%Z then bool_decide (sz_limit < new_sz)%Z
  else if decide (count_limit <> 0)%Z then
    if decide (SIZE_SAFETY_LIMIT < new_sz)%Z then true else bool_decide (count_limit < new_count)%Z
  else false.

Definition is_large_element (sz : nat) (fill : Z) : bool :=
  if decide (0 <= fill)%Z then bool_decide (SIZE_SAFETY_LIMIT < Z.of_nat sz)%Z
  else bool_decide ((node_limit fill).1 < Z.of_nat sz)%Z.

(** ** Nodes *)

Inductive NodeData := Packed (lp : Listpack) | Plain (b : bytes).
Record Node := { data : NodeData }.

(** [Node::count], [Node::bytes] *)
Definition count_of (n : Node) : nat := match data n with Packed lp => len lp | Plain _ => 1 end.
Definition node_bytes (n : Node) : nat := match data n with Packed lp => total_bytes lp | Plain b => length b end.
Definition is_plain (n : Node) : bool := match data n with Plain _ => true | Packed _ => false end.

Definition get (n : Node) (i : nat) : option ListpackEntry :=
  match data n with
  | Packed lp => Listpack.get (wraps 64 (Z.of_nat i)) lp
  | Plain b => if decide (i = 0) then Some (Str b) else None
  end.

Definition allows_insert (fill : Z) (sz : nat) (n : Node) : bool :=
  if is_plain n || is_large_element sz fill then false
  else
    let new_sz := (Z.of_nat (node_bytes n) + Z.of_nat sz + SIZE_ESTIMATE_OVERHEAD)%Z in
    negb (exceeds_limit fill new_sz (Z.of_nat (count_of n) + 1)).

Definition allows_merge (a b : Node) (fill : Z) : bool :=
  if is_plain a || is_plain b then false
  else
    let merge_sz := (Z.of_nat (node_bytes a) + Z.of_nat (node_bytes b) - 11)%Z in
    negb (exceeds_limit fill merge_sz (Z.of_nat (count_of a) + Z.of_nat (count_of b))).

(** ** The list of nodes *)

Record Quicklist := { nodes : list Node; count : nat; fill : Z; compress_depth : Z }.

Definition set_nodes (ns : list Node) (ql : Quicklist) : Quicklist :=
  {| nodes := ns; count := count ql; fill := fill ql; compress_depth := compress_depth ql |}.
Definition set_count (n : nat) (ql : Quicklist) : Quicklist :=
  {| nodes := nodes ql; count := n; fill := fill ql; compress_depth := compress_depth ql |}.
Definition set_fill (f : Z) (ql : Quicklist) : Quicklist :=
  {| nodes := nodes ql; count := count ql; fill := f; compress_depth := compress_depth ql |}.
Definition set_compress_depth (d : Z) (ql : Quicklist) : Quicklist :=
  {| nodes := nodes ql; count := count ql; fill := fill ql; compress_depth := d |}.

Definition new (f : Z) : Quicklist := {| nodes := []; count := 0; fill := f; compress_depth := 0 |}.
Definition len (ql : Quicklist) : nat := count ql.
Definition is_empty (ql : Quicklist) : bool := bool_decide (count ql = 0).
Definition node_count (ql : Quicklist) : nat := length (nodes ql).
Definition clear (ql : Quicklist) : Quicklist := set_count 0 (set_nodes [] ql).

Definition new_node (v : bytes) (ql : Quicklist) : option Node :=
  if is_large_element (length v) (fill ql) then Some {| data := Plain v |}
  else '(lp, _) ← append (Str v) Listpack.new; Some {| data := Packed lp |}.

(** The chain of conditions of every direct insertion: there is a node, it has
    room, it is packed, and the listpack takes the entry. *)
Definition into_node (i : nat) (v : bytes) (op : Listpack -> option (Listpack * bool)) (ql : Quicklist) : option (Quicklist * bool) :=
  match nodes ql !! i with
  | Some n =>
      if allows_insert (fill ql) (length v) n then
        match data n with
        | Packed lp => '(lp, ok) ← op lp; Some (set_nodes (<[i:={| data := Packed lp |}]> (nodes ql)) ql, ok)
        | Plain _ => Some (ql, false)
        end
      else Some (ql, false)
  | None => Some (ql, false)
  end.

(** ** Push and pop *)

Definition push_head (v : bytes) (ql : Quicklist) : option (Quicklist * bool) :=
  let ql := set_count (count ql + 1) ql in
  '(ql, ok) ← into_node 0 v (prepend (Str v)) ql;
  if (ok : bool) then Some (ql, false)
  else node ← new_node v ql; Some (set_nodes (node :: nodes ql) ql, true).

Definition push_tail (v : bytes) (ql : Quicklist) : option (Quicklist * bool) :=
  let ql := set_count (count ql + 1) ql in
  '(ql, ok) ← into_node (length (nodes ql) - 1) v (append (Str v)) ql;
  if (ok : bool) then Some (ql, false)
  else node ← new_node v ql; Some (set_nodes (nodes ql ++ [node]) ql, true).

Definition from_values (f : Z) (items : list bytes) : option Quicklist :=
  foldl (fun ql v => ql ← ql; fst <$> push_tail v ql) (Some (new f)) items.

Definition head (ql : Quicklist) : option ListpackEntry := n ← list.head (nodes ql); get n 0.
Definition tail (ql : Quicklist) : option ListpackEntry :=
  n ← list.last (nodes ql);
  match data n with Packed lp => Listpack.last lp | Plain b => Some (Str b) end.

Definition drop_head (ql : Quicklist) : option (Quicklist * bool) :=
  match nodes ql with
  | [] => Some (ql, false)
  | n :: rest =>
      match data n with
      | Packed lp =>
          '(lp, ok) ← Listpack.delete 0 lp;
          if negb ok then Some (ql, false)
          else
            let ns := if Listpack.is_empty lp then rest else {| data := Packed lp |} :: rest in
            Some (set_count (count ql - 1) (set_nodes ns ql), true)
      | Plain _ => Some (set_count (count ql - 1) (set_nodes rest ql), true)
      end
  end.

Definition drop_tail (ql : Quicklist) : option (Quicklist * bool) :=
  match list.last (nodes ql) with
  | None => Some (ql, false)
  | Some n =>
      let rest := take (length (nodes ql) - 1) (nodes ql) in
      match data n with
      | Packed lp =>
          '(lp, ok) ← Listpack.delete (-1) lp;
          if negb ok then Some (ql, false)
          else
            let ns := if Listpack.is_empty lp then rest else rest ++ [{| data := Packed lp |}] in
            Some (set_count (count ql - 1) (set_nodes ns ql), true)
      | Plain _ => Some (set_count (count ql - 1) (set_nodes rest ql), true)
      end
  end.

Section pop.
Context `{Itoa}.

Definition pop_head (ql : Quicklist) : option (Quicklist * option bytes) :=
  match head ql with
  | None => Some (ql, None)
  | Some e => '(ql, _) ← drop_head ql; Some (ql, Some (to_buf e))
  end.
Definition pop_tail (ql : Quicklist) : option (Quicklist * option bytes) :=
  match tail ql with
  | None => Some (ql, None)
  | Some e => '(ql, _) ← drop_tail ql; Some (ql, Some (to_buf e))
  end.
End pop.

(** ** Indexing *)

Definition normalize (index : Z) (ql : Quicklist) : option nat :=
  let i := if decide (index < 0)%Z then (index + Z.of_nat (count ql))%Z else index in
  if decide (i < 0 \/ Z.of_nat (count ql) <= i)%Z then None else Some (Z.to_nat i).

Fixpoint locate_fwd (ns : list Node) (i ni acc : nat) : option (nat * nat) :=
  match ns with
  | [] => None
  | n :: ns => let c := count_of n in if decide (i < acc + c) then Some (ni, i - acc) else locate_fwd ns i (ni + 1) (acc + c)
  end.
(** From the last of the first [k] nodes down. *)
Fixpoint locate_back (k : nat) (ns : list Node) (i acc : nat) : option (nat * nat) :=
  match k with
  | O => None
  | S ni => n ← ns !! ni; let acc := acc - count_of n in if decide (acc <= i) then Some (ni, i - acc) else locate_back ni ns i acc
  end.
Definition locate (i : nat) (ql : Quicklist) : option (nat * nat) :=
  if decide (count ql <= i) then None
  else if decide (i <= count ql `div` 2) then locate_fwd (nodes ql) i 0 0
  else locate_back (length (nodes ql)) (nodes ql) i (count ql).

Definition index (i : Z) (ql : Quicklist) : option ListpackEntry :=
  i ← normalize i ql; '(ni, off) ← locate i ql; n ← nodes ql !! ni; get n off.

(** ** Merging *)

Definition try_merge (i : nat) (ql : Quicklist) : option (Quicklist * bool) :=
  match nodes ql !! i, nodes ql !! (i + 1) with
  | Some a, Some b =>
      if negb (allows_merge a b (fill ql)) then Some (ql, false)
      else
        let ql := set_nodes (take (i + 1) (nodes ql) ++ drop (i + 2) (nodes ql)) ql in
        match data b with
        | Plain _ => Some (ql, false)
        | Packed src =>
            match data <$> nodes ql !! i with
            | Some (Packed dst) => '(dst, _) ← append_all src dst; Some (set_nodes (<[i:={| data := Packed dst |}]> (nodes ql)) ql, true)
            | _ => Some (ql, true)
            end
        end
  | _, _ => Some (ql, false)
  end.

Definition merge_around (ni : nat) (ql : Quicklist) : option Quicklist :=
  '(ql, at_) ← (if decide (0 < ni) then '(ql, m) ← try_merge (ni - 1) ql; Some (ql, if (m : bool) then ni - 1 else ni) else Some (ql, ni));
  fst <$> try_merge at_ ql.

(** ** Insertion *)

(** [VecDeque::insert] *)
Definition vec_insert (i : nat) (n : Node) (ns : list Node) : list Node := take i ns ++ n :: drop i ns.

(** The end of [insert_at]: the value becomes a node of its own, between two
    nodes or between the halves of one. *)
Definition insert_node (ni off : nat) (v : bytes) (ql : Quicklist) : option (Quicklist * bool) :=
  match nodes ql !! ni with
  | None => Some (ql, false)
  | Some n =>
      match data n with
      | Packed lp =>
          if decide (off = 0) then
            node ← new_node v ql;
            ql ← merge_around ni (set_count (count ql + 1) (set_nodes (vec_insert ni node (nodes ql)) ql)); Some (ql, true)
          else
            let total := Listpack.len lp in
            tail ← from_entries (drop off (Listpack.iter lp));
            let removed := total - off in
            lp ← match seek (wraps 64 (Z.of_nat off)) lp with
                 | Some from => delete_byte_range from (eof_offset lp) removed lp
                 | None => Some lp
                 end;
            mid ← new_node v ql;
            let ns := vec_insert (ni + 1) mid (vec_insert (ni + 1) {| data := Packed tail |} (<[ni:={| data := Packed lp |}]> (nodes ql))) in
            ql ← merge_around (ni + 1) (set_count (count ql + 1) (set_nodes ns ql)); Some (ql, true)
      | Plain _ =>
          node ← new_node v ql;
          ql ← merge_around ni (set_count (count ql + 1) (set_nodes (vec_insert ni node (nodes ql)) ql)); Some (ql, true)
      end
  end.

Definition insert_at (i : nat) (v : bytes) (ql : Quicklist) : option (Quicklist * bool) :=
  if decide (i = 0) then '(ql, _) ← push_head v ql; Some (ql, true)
  else if decide (count ql <= i) then '(ql, _) ← push_tail v ql; Some (ql, true)
  else
    match locate i ql with
    | None => Some (ql, false)
    | Some (ni, off) =>
        '(ql, ok) ← into_node ni v (insert off (Str v)) ql;
        if (ok : bool) then Some (set_count (count ql + 1) ql, true)
        else
          '(ql, ok) ← (if decide (off = 0 /\ 0 < ni) then into_node (ni - 1) v (append (Str v)) ql else Some (ql, false));
          if (ok : bool) then Some (set_count (count ql + 1) ql, true) else insert_node ni off v ql
    end.

Definition insert_before (i : Z) (v : bytes) (ql : Quicklist) : option (Quicklist * bool) :=
  match normalize i ql with None => Some (ql, false) | Some i => insert_at i v ql end.
Definition insert_after (i : Z) (v : bytes) (ql : Quicklist) : option (Quicklist * bool) :=
  match normalize i ql with None => Some (ql, false) | Some i => insert_at (i + 1) v ql end.

(** ** Deletion *)

(** The loop of [delete_range] and what is left to delete when it stops. *)
Fixpoint delete_range_loop (fuel : nat) (i todo : nat) (ql : Quicklist) : option (Quicklist * nat) :=
  match fuel with
  | O => None
  | S fuel =>
      if decide (todo = 0) then Some (ql, todo)
      else
        match locate i ql with
        | None => Some (ql, todo)
        | Some (ni, off) =>
            match data <$> nodes ql !! ni with
            | None => Some (ql, todo)
            | Some (Plain _) =>
                delete_range_loop fuel i (todo - 1) (set_count (count ql - 1) (set_nodes (take ni (nodes ql) ++ drop (ni + 1) (nodes ql)) ql))
            | Some (Packed lp) =>
                let here := (Listpack.len lp - off) `min` todo in
                '(lp, got) ← Listpack.delete_range off here lp;
                if decide (got = 0) then Some (ql, todo)
                else
                  let ns := if Listpack.is_empty lp then take ni (nodes ql) ++ drop (ni + 1) (nodes ql) else <[ni:={| data := Packed lp |}]> (nodes ql) in
                  delete_range_loop fuel i (todo - got) (set_count (count ql - got) (set_nodes ns ql))
            end
        end
  end.

Definition delete_range (start : Z) (n : nat) (ql : Quicklist) : option (Quicklist * nat) :=
  if decide (n = 0 \/ count ql = 0) then Some (ql, 0)
  else
    match normalize start ql with
    | None => Some (ql, 0)
    | Some i =>
        let want := n `min` (count ql - i) in
        '(ql, todo) ← delete_range_loop (S want) i want ql;
        let removed := want - todo in
        ql ← (if decide (0 < removed /\ nodes ql <> []) then
                match locate (i `min` (count ql - 1)) ql with Some (ni, _) => merge_around ni ql | None => Some ql end
              else Some ql);
        Some (ql, removed)
    end.

Definition set (i : Z) (v : bytes) (ql : Quicklist) : option (Quicklist * bool) :=
  match normalize i ql with
  | None => Some (ql, false)
  | Some i =>
      match locate i ql with
      | None => Some (ql, false)
      | Some (ni, off) =>
          match data <$> nodes ql !! ni with
          | None => Some (ql, false)
          | Some d =>
              match d, is_large_element (length v) (fill ql) with
              | Plain _, true => Some (set_nodes (<[ni:={| data := Plain v |}]> (nodes ql)) ql, true)
              | Packed lp, false =>
                  '(lp, ok) ← replace off (Str v) lp; Some (set_nodes (<[ni:={| data := Packed lp |}]> (nodes ql)) ql, ok)
              | _, _ => '(ql, _) ← delete_range (Z.of_nat i) 1 ql; insert_at i v ql
              end
          end
      end
  end.

(** ** Iteration: the items the iterators yield *)

(** What is left of a node from an offset on. *)
Definition node_cursor (n : Node) (off : nat) : list ListpackEntry :=
  match data n with
  | Packed lp => Listpack.iter_from (default (eof_offset lp) (seek (wraps 64 (Z.of_nat off)) lp)) lp
  | Plain b => if decide (off = 0) then [Str b] else []
  end.

(** A round yields an element or opens the next node. *)
Fixpoint iter_loop (fuel : nat) (remaining : nat) (cur : list ListpackEntry) (node : nat) (ql : Quicklist) : list ListpackEntry :=
  match fuel with
  | O => []
  | S fuel =>
      if decide (remaining = 0) then []
      else
        match cur with
        | e :: cur => e :: iter_loop fuel (remaining - 1) cur node ql
        | [] => match nodes ql !! node with Some n => iter_loop fuel remaining (node_cursor n 0) (node + 1) ql | None => [] end
        end
  end.
Definition iter_fuel (ql : Quicklist) : nat := S (count ql + length (nodes ql)).
Definition iter (ql : Quicklist) : list ListpackEntry := iter_loop (iter_fuel ql) (count ql) [] 0 ql.
Definition iter_from (i : Z) (ql : Quicklist) : list ListpackEntry :=
  match normalize i ql with
  | None => []
  | Some i =>
      let remaining := count ql - i in
      match locate i ql with
      | Some (ni, off) =>
          let cur := match nodes ql !! ni with Some n => node_cursor n off | None => [] end in
          iter_loop (iter_fuel ql) remaining cur (ni + 1) ql
      | None => iter_loop (iter_fuel ql) remaining [] 0 ql
      end
  end.

(** The offsets of the entries of a node, in order. *)
Fixpoint offsets_loop (fuel : nat) (off : nat) (lp : Listpack) : list nat :=
  match fuel with
  | O => []
  | S fuel =>
      if decide (off < eof_offset lp) then
        off :: match next_offset off lp with Some o => offsets_loop fuel o lp | None => [] end
      else []
  end.
Definition node_offsets (n : Node) : list nat :=
  match data n with Packed lp => offsets_loop (length (buf lp)) LP_HDR_SIZE lp | Plain _ => [0] end.

Fixpoint iter_rev_loop (fuel : nat) (remaining : nat) (offs : list nat) (pos : nat) (node : nat) (ql : Quicklist) : list ListpackEntry :=
  match fuel with
  | O => []
  | S fuel =>
      if decide (remaining = 0) then []
      else
        match pos with
        | S pos =>
            match offs !! pos, nodes ql !! node with
            | Some off, Some n =>
                match (match data n with Packed lp => entry_at off lp | Plain b => Some (Str b) end) with
                | Some e => e :: iter_rev_loop fuel (remaining - 1) offs pos node ql
                | None => []
                end
            | _, _ => []
            end
        | O =>
            match node with
            | O => []
            | S node =>
                match nodes ql !! node with
                | Some n => iter_rev_loop fuel remaining (node_offsets n) (length (node_offsets n)) node ql
                | None => []
                end
            end
        end
  end.
Definition iter_rev (ql : Quicklist) : list ListpackEntry := iter_rev_loop (iter_fuel ql) (count ql) [] 0 (length (nodes ql)) ql.

Definition position_in (v : bytes) (es : list ListpackEntry) : option nat := fst <$> list_find (fun e => eq_bytes e v = true) es.
Definition position (v : bytes) (ql : Quicklist) : option nat := position_in v (iter ql).
Definition rposition (v : bytes) (ql : Quicklist) : option nat := (fun k => count ql - 1 - k) <$> position_in v (iter_rev ql).

(** A round removes an element, so the number of elements and one more is
    enough fuel. *)
Fixpoint remove_value_loop (fuel : nat) (v : bytes) (limit : Z) (backward : bool) (removed : nat) (ql : Quicklist) : option (Quicklist * nat) :=
  match fuel with
  | O => None
  | S fuel =>
      if decide (Z.of_nat removed < limit)%Z then
        match (if backward then rposition v ql else position v ql) with
        | None => Some (ql, removed)
        | Some idx =>
            '(ql, n) ← delete_range (Z.of_nat idx) 1 ql;
            if decide (n = 0) then Some (ql, removed) else remove_value_loop fuel v limit backward (removed + 1) ql
        end
      else Some (ql, removed)
  end.
Definition remove_value (v : bytes) (n : Z) (ql : Quicklist) : option (Quicklist * nat) :=
  let limit := if decide (n = 0)%Z then (2 ^ 64 - 1)%Z else Z.abs n in
  remove_value_loop (S (count ql)) v limit (bool_decide (n < 0)%Z) 0 ql.

(** Two entries per node; a node split and merged; a deletion across nodes. *)
Example quicklist_demo :
  (ql ← from_values 2 [bs "a"; bs "1"; bs "c"]; '(ql, ok) ← insert_before 1 (bs "x") ql; Some (iter ql, iter_rev ql, node_count ql, ok)) =
    Some ([Str (bs "a"); Str (bs "x"); Int 1; Str (bs "c")], [Str (bs "c"); Int 1; Str (bs "x"); Str (bs "a")], 3, true) /\
  (ql ← from_values 2 [bs "a"; bs "b"; bs "a"; bs "d"]; '(ql, n) ← delete_range (-3) 2 ql; '(ql, k) ← remove_value (bs "a") (-1) ql;
   Some (iter ql, n, k, len ql, index (-1) ql)) =
    Some ([Str (bs "d")], 2, 1, 1, Some (Str (bs "d"))).
Proof. split; vm_compute; reflexivity. Qed.
