(* ===== verification/QuicklistFacts.v ===== *)
(** * Nodes of a quicklist

    A packed node is the listpack of its values, each stored in canonical form;
    its size is the sum of their rooms.  What the listpack refuses, and what
    the limits of a node rule out. *)
From S2P Require Import Prelude Strnum Listpack ListpackFacts ListpackRefine Quicklist.
Open Scope nat_scope.

(** ** Values as entries *)

Definition stored (v : bytes) : ListpackEntry := stored_as (Str v).
Definition weight (vs : list bytes) : nat := sum_list_with (fun v => room (Str v)) vs.

Lemma stored_cases v : (exists i, string2ll v = Some i /\ stored v = Int i) \/ (string2ll v = None /\ stored v = Str v).
Proof. unfold stored, stored_as. cbn [canonicalize]. destruct (string2ll v) as [i|]; cbn [entry_of]; [left; eauto|by right]. Qed.

(** The text of an entry is the value, and equality of the texts is tested
    without it. *)
Lemma stored_text `{ItoaLaws} v : to_buf (stored v) = v.
Proof.
  destruct (stored_cases v) as [(i & E & ->)|[_ ->]]; cbn [to_buf]; [|done]. apply string2ll_sound in E as [Hi ->].
  apply itoa_decimal. unfold I64_MAX, U64_MAX in *. lia.
Qed.

Lemma stored_eq v needle : eq_bytes (stored v) needle = bool_decide (v = needle).
Proof.
  destruct (stored_cases v) as [(i & E & ->)|[E ->]]; cbn [eq_bytes]; [|done]. apply string2ll_decimal in E as [Hi ->].
  destruct (string2ll needle) as [n|] eqn:En.
  - apply string2ll_sound in En as [Hn ->]. apply bool_decide_ext. split; [by intros ->|]. intros Hd.
    pose proof (string2ll_complete i Hi) as E1. rewrite Hd, string2ll_complete in E1 by done. congruence.
  - symmetry. apply bool_decide_eq_false. intros <-. by rewrite string2ll_complete in En.
Qed.

Lemma long_stored v : (20 < Z.of_nat (length v))%Z -> stored v = Str v.
Proof.
  intros Hl. destruct (stored_cases v) as [(i & E & _)|[_ ->]]; [|done]. apply string2ll_sound in E as [Hi ->].
  pose proof (decimal_length i Hi). lia.
Qed.

(** An entry takes at most ten bytes more than its text. *)
Lemma room_bound v : room (Str v) <= length v + 10.
Proof.
  unfold room. pose proof (backlen_size_range (payload_enclen (canonicalize (Str v)))) as Hb. cbn [canonicalize] in *.
  destruct (string2ll v) as [i|] eqn:E.
  - assert (payload_enclen (PInt i) <= 9) as Hp by (unfold payload_enclen; repeat case_decide; lia).
    assert (backlen_size (payload_enclen (PInt i)) = 1) as -> by (unfold backlen_size; rewrite decide_True by lia; done). lia.
  - assert (payload_enclen (PStr v) <= 5 + length v); [unfold payload_enclen; repeat case_decide; lia|lia].
Qed.

(** ** Listpacks of values *)

Definition packed (lp : Listpack) (vs : list bytes) : Prop :=
  (exists c, pack lp c ((fun v => entry_data (Str v)) <$> vs) (stored <$> vs)) /\ (Z.of_nat (7 + weight vs) <= LP_MAX_SAFETY_SIZE)%Z.

(** The outcome of an edit, refused exactly past the safety limit. *)
Definition outcome (r : option (Listpack * bool)) (lp : Listpack) (vs : list bytes) : Prop :=
  exists lp' ok, r = Some (lp', ok) /\ (if ok then packed lp' vs else lp' = lp) /\ (ok = true <-> (Z.of_nat (7 + weight vs) <= LP_MAX_SAFETY_SIZE)%Z).

Lemma weight_app xs ys : weight (xs ++ ys) = weight xs + weight ys.
Proof. apply sum_list_with_app. Qed.

Lemma weight_cons v vs : weight (v :: vs) = room (Str v) + weight vs.
Proof. done. Qed.
Lemma weight_nil : weight [] = 0.
Proof. done. Qed.

Lemma blocks_weight vs : length (blocks ((fun v => entry_data (Str v)) <$> vs)) = weight vs.
Proof.
  induction vs as [|v vs IH]; [done|]. cbn [fmap list_fmap]. rewrite blocks_cons, length_app, block_length. unfold entry_data at 1 2.
  rewrite payload_length. change (weight (v :: vs)) with (room (Str v) + weight vs). unfold room. by rewrite IH.
Qed.

Lemma pack_weight lp c vs : pack lp c ((fun v => entry_data (Str v)) <$> vs) (stored <$> vs) -> length (buf lp) = 7 + weight vs.
Proof. intros Hp. rewrite (pack_buf _ _ _ _ Hp), blob_length, blocks_weight. unfold LP_HDR_SIZE. lia. Qed.

Lemma outcome_edits r ok lp vs c :
  edits_pack r ok lp ((fun v => entry_data (Str v)) <$> vs) (stored <$> vs) -> packed lp c ->
  (ok = true <-> (Z.of_nat (7 + weight vs) <= LP_MAX_SAFETY_SIZE)%Z) -> outcome r lp vs.
Proof.
  intros (lp' & -> & H) _ Hok. exists lp', ok. split; [done|]. split; [|done]. destruct ok; [|done]. split; [done|]. by apply Hok.
Qed.

Section packed.
Context {lp : Listpack} {vs : list bytes} (Hp : packed lp vs).

Lemma packed_bytes : length (buf lp) = 7 + weight vs.
Proof. destruct Hp as [(c & H) _]. by eapply pack_weight. Qed.

Lemma packed_len : Listpack.len lp = length vs.
Proof. destruct Hp as [(c & H) _]. by rewrite (len_spec H), length_fmap. Qed.

Lemma packed_small : (Z.of_nat (length vs) < 2 ^ 32)%Z.
Proof.
  destruct Hp as [(c & H) _]. pose proof (enough_fuel H) as Hf. rewrite length_fmap in Hf. pose proof (pack_size _ _ _ _ H). lia.
Qed.

Lemma packed_empty : Listpack.is_empty lp = bool_decide (vs = []).
Proof. destruct Hp as [(c & H) _]. rewrite (is_empty_spec H). apply bool_decide_ext. by destruct vs. Qed.

Lemma packed_iter : Listpack.iter lp = stored <$> vs.
Proof. destruct Hp as [(c & H) _]. apply (iter_spec H). Qed.

Lemma packed_last : Listpack.last lp = stored <$> list.last vs.
Proof. destruct Hp as [(c & H) _]. by rewrite (lp_last_spec H), fmap_last. Qed.

Lemma index_of_nat n i : i < n -> index_of n (Z.of_nat i) = Some i.
Proof. intros. unfold index_of. rewrite (decide_False (P := (_ < 0)%Z)), decide_True, Nat2Z.id by lia. done. Qed.

Lemma off_wraps off : off <= length vs -> wraps 64 (Z.of_nat off) = Z.of_nat off.
Proof. intros. pose proof packed_small. apply wraps_small; [done|]. split; cbn; lia. Qed.

Lemma packed_get i : i < length vs -> Listpack.get (wraps 64 (Z.of_nat i)) lp = stored <$> vs !! i.
Proof.
  intros Hi. rewrite off_wraps by lia. destruct Hp as [(c & H) _]. rewrite (get_spec H), length_fmap, index_of_nat by done.
  cbn [mbind option_bind]. by rewrite list_lookup_fmap.
Qed.

Lemma packed_seek off : off <= length vs ->
  exists c, pack lp c ((fun v => entry_data (Str v)) <$> vs) (stored <$> vs) /\
    seek (wraps 64 (Z.of_nat off)) lp = if decide (off < length vs) then Some (pos ((fun v => entry_data (Str v)) <$> vs) off) else None.
Proof.
  intros Ho. rewrite off_wraps by done. destruct Hp as [(c & H) _]. exists c. split; [done|]. rewrite (seek_spec _ _ _ _ _ H), length_fmap. case_decide.
  - by rewrite index_of_nat.
  - unfold index_of. rewrite (decide_False (P := (_ < 0)%Z)), decide_False by lia. done.
Qed.

Lemma packed_cursor off : off <= length vs ->
  Listpack.iter_from (default (eof_offset lp) (seek (wraps 64 (Z.of_nat off)) lp)) lp = stored <$> drop off vs.
Proof.
  intros Ho. destruct (packed_seek off Ho) as (c & H & ->). rewrite fmap_drop. unfold Listpack.iter_from. pose proof (enough_fuel H) as Hf. rewrite !length_fmap in *.
  case_decide; cbn [from_option id]; [rewrite (iter_loop_spec H) by (rewrite length_fmap; lia); done|].
  rewrite (eof_pos H), (iter_loop_spec H) by (rewrite length_fmap; lia). rewrite length_fmap. by rewrite !drop_ge by (rewrite length_fmap; lia).
Qed.

(** ** Edits *)

Lemma safe_room v : safe_to_add (room (Str v)) lp = bool_decide (Z.of_nat (7 + (weight vs + room (Str v))) <= LP_MAX_SAFETY_SIZE)%Z.
Proof. unfold safe_to_add. rewrite packed_bytes. apply bool_decide_ext. lia. Qed.

Lemma packed_append v : outcome (append (Str v) lp) lp (vs ++ [v]).
Proof.
  pose proof Hp as [(c & H) _]. destruct (inserts_pack _ _ _ _ (Str v) H I) as (Ha & _). eapply outcome_edits; [|done|].
  - rewrite !fmap_app. exact Ha.
  - rewrite safe_room, bool_decide_eq_true, weight_app, weight_cons, weight_nil. lia.
Qed.

Lemma packed_prepend v : outcome (prepend (Str v) lp) lp (v :: vs).
Proof.
  pose proof Hp as [(c & H) _]. destruct (inserts_pack _ _ _ _ (Str v) H I) as (_ & Ha & _). eapply outcome_edits; [exact Ha|done|].
  rewrite safe_room, bool_decide_eq_true, weight_cons. lia.
Qed.

Lemma packed_insert off v : outcome (insert off (Str v) lp) lp (take off vs ++ v :: drop off vs).
Proof.
  pose proof Hp as [(c & H) _]. destruct (inserts_pack _ _ _ _ (Str v) H I) as (_ & _ & Ha). eapply outcome_edits; [|done|].
  - rewrite !fmap_app, !fmap_cons, !fmap_take, !fmap_drop. apply Ha.
  - rewrite safe_room, bool_decide_eq_true, weight_app. pose proof (weight_app (take off vs) (drop off vs)) as E. rewrite take_drop in E. rewrite weight_cons. lia.
Qed.

Lemma weight_insert off v w : vs !! off = Some w -> weight (<[off:=v]> vs) + room (Str w) = weight vs + room (Str v).
Proof.
  intros Hw. pose proof (lookup_lt_Some _ _ _ Hw). rewrite insert_take_drop by done. rewrite <-(take_drop_middle vs off w Hw) at 3.
  rewrite !weight_app, !weight_cons. lia.
Qed.

Lemma packed_replace off v : off < length vs -> outcome (replace off (Str v) lp) lp (<[off:=v]> vs).
Proof.
  intros Ho. pose proof Hp as [(c & H) Hw]. pose proof packed_small as Hsm. destruct (lookup_lt_is_Some_2 vs off Ho) as [w Ew].
  destruct (replace_pack _ _ _ _ off (Str v) H I) as (ok & He & Hok); [lia|]. eapply outcome_edits; [rewrite !list_fmap_insert; exact He|done|].
  rewrite Hok, length_fmap. pose proof (weight_insert off v w Ew) as Hwi.
  assert (entry_span (pos ((fun v => entry_data (Str v)) <$> vs) off) lp = Some (room (Str w))) as Hspan.
  { rewrite (span_at _ _ _ _ _ H) by (rewrite length_fmap; lia). f_equal. rewrite pos_add, <-fmap_drop, <-fmap_take, blocks_weight.
    rewrite (drop_S _ _ _ Ew). change (weight (take 1 (w :: drop (S off) vs))) with (room (Str w) + 0). lia. }
  assert (seek (Z.of_nat off) lp = Some (pos ((fun v => entry_data (Str v)) <$> vs) off)) as Hseek.
  { destruct (packed_seek off) as (c' & _ & E); [lia|]. rewrite off_wraps, decide_True in E by lia. done. }
  rewrite Hseek. assert (forall n, safe_to_add n lp = true <-> (Z.of_nat (7 + weight vs + n) <= LP_MAX_SAFETY_SIZE)%Z) as Hsafe.
  { intros n. unfold safe_to_add. by rewrite bool_decide_eq_true, packed_bytes. }
  split.
  - intros (_ & o & sp & [= <-] & Hsp & Hs). rewrite Hspan in Hsp. injection Hsp as <-. rewrite Hsafe in Hs.
    destruct (decide (room (Str w) < room (Str v))) as [Hlt|]; [specialize (Hs Hlt); lia|lia].
  - intros Hle. split; [done|]. eexists _, _. split; [done|]. split; [done|]. rewrite Hsafe. lia.
Qed.

(** The part of the list that is left keeps within the limit. *)
Lemma weight_middle k n : weight (take k vs ++ drop (k + n) vs) <= weight vs.
Proof.
  rewrite weight_app. pose proof (weight_app (take k vs) (drop k vs)) as E1. rewrite take_drop in E1.
  pose proof (weight_app (take n (drop k vs)) (drop n (drop k vs))) as E2. rewrite take_drop, drop_drop in E2. lia.
Qed.

Lemma packed_delete_range off n : exists lp', Listpack.delete_range off n lp = Some (lp', n `min` (length vs - off)) /\ packed lp' (take off vs ++ drop (off + n) vs).
Proof.
  pose proof Hp as [(c & H) Hw]. destruct (delete_range_pack _ _ _ _ off n H) as (lp' & c' & E & H'). rewrite length_fmap in E. exists lp'. split; [done|].
  split; [|pose proof (weight_middle off n); lia]. exists c'. by rewrite !fmap_app, !fmap_take, !fmap_drop.
Qed.

Lemma packed_delete i k : index_of (length vs) i = Some k -> exists lp', Listpack.delete i lp = Some (lp', true) /\ packed lp' (take k vs ++ drop (k + 1) vs).
Proof.
  intros Hi. pose proof Hp as [(c & H) Hw]. pose proof (delete_pack _ _ _ _ i H) as Hd. rewrite length_fmap, Hi in Hd. destruct Hd as (lp' & c' & E & H').
  exists lp'. split; [done|]. split; [|pose proof (weight_middle k 1); lia]. exists c'. by rewrite !fmap_app, !fmap_take, !fmap_drop.
Qed.

(** The truncation of a node that is split. *)
Lemma packed_truncate off : off < length vs ->
  exists lp', (match seek (wraps 64 (Z.of_nat off)) lp with
               | Some from => delete_byte_range from (eof_offset lp) (length vs - off) lp
               | None => Some lp
               end) = Some lp' /\ packed lp' (take off vs).
Proof.
  intros Ho. destruct (packed_seek off) as (c & H & ->); [lia|]. rewrite decide_True by done.
  destruct (delete_tail_pack _ _ _ _ off H) as (lp' & c' & E & H'); [rewrite length_fmap; lia|]. rewrite length_fmap in E. exists lp'. split; [done|].
  destruct Hp as [_ Hw]. split; [exists c'; by rewrite !fmap_take|]. pose proof (weight_app (take off vs) (drop off vs)) as E1. rewrite take_drop in E1. lia.
Qed.
End packed.

Lemma packed_append_all lp vs other ws : packed lp vs -> packed other ws -> outcome (append_all other lp) lp (vs ++ ws).
Proof.
  intros Hp Hq. pose proof Hp as [(c & H) _]. pose proof Hq as [(c' & H') _]. eapply outcome_edits; [|done|].
  - rewrite !fmap_app. apply (append_all_pack _ _ _ _ _ _ _ _ H H').
  - unfold safe_to_add. rewrite bool_decide_eq_true, (packed_bytes Hp), (packed_bytes Hq), weight_app. lia.
Qed.

Lemma new_packed : packed Listpack.new [].
Proof. split; [exists 0%Z; exact new_pack|done]. Qed.

(** Storing an entry again changes nothing. *)
Lemma append_stored v lp : append (stored v) lp = append (Str v) lp.
Proof.
  assert (canonicalize (stored v) = canonicalize (Str v)) as E.
  { unfold stored, stored_as. cbn [canonicalize]. destruct (string2ll v) as [i|] eqn:E; cbn [entry_of canonicalize]; [done|by rewrite E]. }
  unfold append, insert_at_offset. by rewrite E.
Qed.

Lemma packed_from_entries vs : (Z.of_nat (7 + weight vs) <= LP_MAX_SAFETY_SIZE)%Z -> exists lp, from_entries (stored <$> vs) = Some lp /\ packed lp vs.
Proof.
  intros Hw. unfold from_entries.
  assert (forall ws lp us, packed lp us -> (Z.of_nat (7 + weight (us ++ ws)) <= LP_MAX_SAFETY_SIZE)%Z ->
    exists lp', foldl (fun lp e => lp ← lp; fst <$> append e lp) (Some lp) (stored <$> ws) = Some lp' /\ packed lp' (us ++ ws)) as Hgen.
  { induction ws as [|v ws IH]; intros lp us Hp Hle; [exists lp; by rewrite app_nil_r|]. cbn [fmap list_fmap foldl mbind option_bind].
    rewrite append_stored. destruct (packed_append Hp v) as (lp' & ok & -> & Hok & Hiff). cbn [fmap option_fmap option_map fst].
    assert (ok = true) as ->.
    { apply Hiff. rewrite !weight_app in *. rewrite weight_cons in Hle. rewrite weight_cons, weight_nil. lia. }
    rewrite (cons_middle v us ws), (app_assoc us) in Hle |- *. by apply IH. }
  apply (Hgen vs Listpack.new []); [exact new_packed|done].
Qed.
