(* ===== verification/QuicklistRefine.v ===== *)
(** * The quicklist is the list of its values ([src/encoding/quicklist.rs])

    Whatever the way the values are spread over nodes, the operations are those
    of the list; no node is empty, and no step panics. *)
From S2P Require Import Prelude Strnum Listpack ListpackFacts ListpackRefine Quicklist QuicklistFacts.
Open Scope nat_scope.

(** ** Nodes *)

Definition node_holds (n : Node) (vs : list bytes) : Prop :=
  match data n with Packed lp => packed lp vs /\ vs <> [] | Plain b => vs = [b] /\ (20 < Z.of_nat (length b))%Z end.

(** The nodes, a row of values each. *)
Definition rows (ql : Quicklist) (vss : list (list bytes)) : Prop := Forall2 node_holds (nodes ql) vss.
(** The list a quicklist stands for. *)
Definition represents (ql : Quicklist) (vs : list bytes) : Prop := exists vss, rows ql vss /\ concat vss = vs /\ count ql = length vs.

Lemma node_nonempty n vs : node_holds n vs -> vs <> [].
Proof. unfold node_holds. destruct (data n); [by intros [_ ?]|by intros [-> _]]. Qed.

Lemma count_of_spec n vs : node_holds n vs -> count_of n = length vs.
Proof. unfold node_holds, count_of. destruct (data n); [intros [H _]; apply (packed_len H)|by intros [-> _]]. Qed.

Lemma node_get n vs i : node_holds n vs -> i < length vs -> get n i = stored <$> vs !! i.
Proof.
  unfold node_holds, get. destruct (data n) as [lp|b]; [intros [H _]; apply (packed_get H)|intros [-> Hb] Hi].
  cbn [length] in Hi. assert (i = 0) as -> by lia. rewrite decide_True by done. cbn. by rewrite long_stored.
Qed.

Lemma node_cursor_spec n vs off : node_holds n vs -> off <= length vs -> node_cursor n off = stored <$> drop off vs.
Proof.
  unfold node_holds, node_cursor. destruct (data n) as [lp|b]; [intros [H _]; apply (packed_cursor H)|intros [-> Hb] Hi].
  cbn [length] in Hi. case_decide as Ho; [subst off; cbn; by rewrite long_stored|]. by assert (off = 1) as -> by lia.
Qed.

(** ** Limits *)

Lemma node_limit_spec fill :
  (0 <= fill)%Z /\ (node_limit fill).1 = 0%Z /\ (0 < (node_limit fill).2)%Z \/ (fill < 0)%Z /\ (4096 <= (node_limit fill).1 <= 65536)%Z.
Proof.
  unfold node_limit. case_decide; [left; split; [done|]; cbn; case_decide; lia|right; split; [lia|]]. cbn [fst].
  set (idx := Z.to_nat _). assert (idx < 5) as Hi by (unfold idx; cbn [length OPTIMIZATION_LEVEL]; lia).
  clearbody idx. do 5 (destruct idx as [|idx]; [cbn; lia|]). lia.
Qed.

Lemma exceeds_bound fill sz cnt : exceeds_limit fill sz cnt = false -> (sz <= 65536)%Z.
Proof.
  unfold exceeds_limit. pose proof (node_limit_spec fill) as H. destruct (node_limit fill) as [a b]. cbn [fst snd] in H. unfold SIZE_SAFETY_LIMIT.
  destruct H as [(_ & -> & Hb)|(_ & Ha)].
  - rewrite decide_False, decide_True by lia. case_decide; [done|lia].
  - rewrite decide_True by lia. rewrite bool_decide_eq_false. lia.
Qed.

Lemma large_bound sz fill : if is_large_element sz fill then (20 < Z.of_nat sz)%Z else (Z.of_nat sz <= 65536)%Z.
Proof.
  unfold is_large_element, SIZE_SAFETY_LIMIT. pose proof (node_limit_spec fill). case_decide; case_bool_decide; lia.
Qed.

Lemma max_safety : LP_MAX_SAFETY_SIZE = 1073741824%Z.
Proof. done. Qed.

Lemma new_node_spec v ql : exists n, new_node v ql = Some n /\ node_holds n [v].
Proof.
  unfold new_node. pose proof (large_bound (length v) (fill ql)) as Hl. destruct (is_large_element _ _); [by eexists|].
  destruct (packed_append new_packed v) as (lp & ok & -> & Hok & Hiff). cbn [mbind option_bind]. eexists. split; [done|].
  assert (ok = true) as ->; [|by split]. apply Hiff. pose proof (room_bound v). rewrite max_safety. cbn [app]. rewrite weight_cons, weight_nil. lia.
Qed.

(** Two nodes that may be merged fit in one listpack. *)
Lemma merge_fits a b fill la lb vs ws : data a = Packed la -> data b = Packed lb -> packed la vs -> packed lb ws ->
  allows_merge a b fill = true -> (Z.of_nat (7 + weight (vs ++ ws)) <= LP_MAX_SAFETY_SIZE)%Z.
Proof.
  intros Ea Eb Ha Hb. unfold allows_merge, is_plain, node_bytes. rewrite Ea, Eb. cbn [orb]. intros Hm%negb_true_iff%exceeds_bound.
  unfold total_bytes in Hm. rewrite (packed_bytes Ha), (packed_bytes Hb) in Hm. rewrite weight_app, max_safety. lia.
Qed.

(** ** Concatenations *)

Lemma concat_mid {A} (vss : list (list A)) i vs : vss !! i = Some vs -> concat vss = concat (take i vss) ++ vs ++ concat (drop (S i) vss).
Proof. intros H. rewrite <-(take_drop_middle vss i vs H) at 1. by rewrite concat_app. Qed.

Lemma concat_set {A} (vss : list (list A)) i vs ws : vss !! i = Some vs -> concat (<[i:=ws]> vss) = concat (take i vss) ++ ws ++ concat (drop (S i) vss).
Proof. intros H. rewrite insert_take_drop by by eapply lookup_lt_Some. by rewrite concat_app. Qed.

(** An edit inside a row is the edit of the whole list. *)
Lemma take_mid {A} (a vs b : list A) off : off <= length vs -> take (length a + off) (a ++ vs ++ b) = a ++ take off vs.
Proof. intros. rewrite take_app_add. f_equal. by apply take_app_le. Qed.
Lemma drop_mid {A} (a vs b : list A) off : off <= length vs -> drop (length a + off) (a ++ vs ++ b) = drop off vs ++ b.
Proof. intros. rewrite drop_app_add. by apply drop_app_le. Qed.

(** ** Where an index is *)

Lemma rows_counts ns vss : Forall2 node_holds ns vss -> forall k n, ns !! k = Some n -> exists vs, vss !! k = Some vs /\ node_holds n vs.
Proof. intros H k n Hn. destruct (Forall2_lookup_l _ _ _ _ _ H Hn) as (vs & ? & ?). eauto. Qed.

Lemma locate_fwd_spec ns vss i ni acc :
  Forall2 node_holds ns vss -> acc <= i < acc + length (concat vss) ->
  exists k off vs, locate_fwd ns i ni acc = Some (ni + k, off) /\ vss !! k = Some vs /\ off < length vs /\ i = acc + length (concat (take k vss)) + off.
Proof.
  intros H. revert ni acc. induction H as [|n vs ns vss Hn _ IH]; intros ni acc Hi; [cbn in Hi; lia|]. cbn [locate_fwd]. rewrite (count_of_spec _ _ Hn).
  cbn [concat] in Hi. rewrite length_app in Hi. case_decide as Hlt.
  - exists 0, (i - acc), vs. rewrite Nat.add_0_r. split; [done|]. split; [done|]. cbn. lia.
  - destruct (IH (ni + 1) (acc + length vs)) as (k & off & ws & -> & Hk & Ho & E); [lia|]. exists (S k), off, ws. split; [do 2 f_equal; lia|].
    split; [done|]. split; [done|]. cbn [take concat]. rewrite length_app. lia.
Qed.

Lemma locate_back_spec k ns vss i :
  Forall2 node_holds ns vss -> k <= length vss -> i < length (concat (take k vss)) ->
  exists ni off vs, locate_back k ns i (length (concat (take k vss))) = Some (ni, off) /\ vss !! ni = Some vs /\ off < length vs /\
    i = length (concat (take ni vss)) + off.
Proof.
  intros H. induction k as [|k IH]; intros Hk Hi; [rewrite take_0 in Hi; cbn in Hi; lia|]. cbn [locate_back]. destruct (lookup_lt_is_Some_2 vss k) as [vs Hvs]; [lia|].
  destruct (Forall2_lookup_r _ _ _ _ _ H Hvs) as (n & Hn & Hh). rewrite Hn. cbn [mbind option_bind]. rewrite (count_of_spec _ _ Hh).
  rewrite (take_S_r _ _ _ Hvs), concat_app, length_app in *. cbn [concat] in *. rewrite app_nil_r in *. rewrite Nat.add_sub. case_decide as Hle.
  - exists k, (i - length (concat (take k vss))), vs. split; [done|]. split; [done|]. lia.
  - apply IH; lia.
Qed.

Lemma locate_spec ql vss i : rows ql vss -> count ql = length (concat vss) -> i < count ql ->
  exists ni off vs, locate i ql = Some (ni, off) /\ vss !! ni = Some vs /\ off < length vs /\ i = length (concat (take ni vss)) + off.
Proof.
  intros H Hc Hi. unfold locate. rewrite decide_False by lia. case_decide.
  - destruct (locate_fwd_spec _ _ i 0 0 H) as (k & off & vs & -> & Hk & Ho & E); [lia|]. by exists k, off, vs.
  - rewrite (Forall2_length _ _ _ H), Hc. destruct (locate_back_spec (length vss) _ _ i H) as (ni & off & vs & E & ?); [done|rewrite firstn_all; lia|].
    rewrite firstn_all in E. rewrite E. by exists ni, off, vs.
Qed.

Lemma normalize_spec i ql : normalize i ql = index_of (count ql) i.
Proof. unfold normalize, index_of. repeat case_decide; (done || lia). Qed.

(** ** Direct insertion *)

Lemma into_node_spec i v op f ql vss :
  rows ql vss -> (forall lp vs, packed lp vs -> outcome (op lp) lp (f vs)) -> (forall vs, f vs <> []) ->
  exists ql' ok, into_node i v op ql = Some (ql', ok) /\ count ql' = count ql /\ fill ql' = fill ql /\
    if ok then exists vs, vss !! i = Some vs /\ rows ql' (<[i:=f vs]> vss) else rows ql' vss.
Proof.
  intros H Hop Hf. unfold into_node. destruct (nodes ql !! i) as [n|] eqn:Hn; [|by exists ql, false].
  destruct (allows_insert _ _ _); [|by exists ql, false]. destruct (rows_counts _ _ H i n Hn) as (vs & Hvs & Hh).
  destruct (data n) as [lp|b] eqn:Ed; [|by exists ql, false]. pose proof Hh as Hh'. unfold node_holds in Hh'. rewrite Ed in Hh'. destruct Hh' as [Hp _].
  destruct (Hop lp vs Hp) as (lp' & ok & -> & Hok & _). cbn [mbind option_bind]. eexists _, ok. split; [done|]. split; [done|]. split; [done|].
  destruct ok.
  - exists vs. split; [done|]. apply Forall2_insert; [done|]. by split.
  - subst lp'. unfold rows. cbn [nodes set_nodes]. rewrite list_insert_id; [done|]. rewrite Hn. f_equal. destruct n. cbn in *. by rewrite Ed.
Qed.

Lemma length_set {A} (vss : list (list A)) i vs ws : vss !! i = Some vs -> length (concat (<[i:=ws]> vss)) + length vs = length (concat vss) + length ws.
Proof. intros H. rewrite (concat_set _ _ _ _ H), (concat_mid _ _ _ H), !length_app. lia. Qed.

(** ** Both ends *)

Lemma push_head_spec v ql vs : represents ql vs -> exists ql' b, push_head v ql = Some (ql', b) /\ represents ql' (v :: vs).
Proof.
  intros (vss & H & <- & Hc). unfold push_head.
  destruct (into_node_spec 0 v (prepend (Str v)) (cons v) (set_count (count ql + 1) ql) vss H) as (ql' & ok & -> & Hc' & Hf & Hok);
    [intros; by apply packed_prepend|done|]. cbn [count set_count] in Hc'. cbn [mbind option_bind]. destruct ok.
  - destruct Hok as (ws & Hw & Hr). exists ql', false. split; [done|]. exists (<[0:=v :: ws]> vss). split; [done|].
    destruct vss as [|ws' vss]; [done|]. cbn in Hw. injection Hw as ->. cbn [list_insert insert concat app length]. split; [done|]. rewrite Hc', Hc. cbn. lia.
  - destruct (new_node_spec v ql') as (n & -> & Hn). cbn [mbind option_bind]. eexists _, true. split; [done|]. exists ([v] :: vss).
    split; [by constructor|]. split; [done|]. cbn [count set_nodes]. rewrite Hc', Hc. cbn. lia.
Qed.

Lemma push_tail_spec v ql vs : represents ql vs -> exists ql' b, push_tail v ql = Some (ql', b) /\ represents ql' (vs ++ [v]).
Proof.
  intros (vss & H & <- & Hc). unfold push_tail.
  destruct (into_node_spec (length (nodes ql) - 1) v (append (Str v)) (fun vs => vs ++ [v]) (set_count (count ql + 1) ql) vss H) as (ql' & ok & E & Hc' & Hf & Hok);
    [intros; by apply packed_append|by intros [|? ?]|]. cbn [count set_count nodes] in *. rewrite E. cbn [mbind option_bind]. destruct ok.
  - destruct Hok as (ws & Hw & Hr). exists ql', false. split; [done|]. eexists. split; [exact Hr|].
    assert (drop (S (length (nodes ql) - 1)) vss = []) as Hd.
    { apply drop_ge. pose proof (Forall2_length _ _ _ H). apply lookup_lt_Some in Hw. lia. }
    pose proof (concat_mid _ _ _ Hw) as Em. rewrite Hd in Em. rewrite (concat_set _ _ _ _ Hw), Hd. cbn [concat] in *. rewrite !app_nil_r in *.
    rewrite Em, app_assoc. split; [done|]. rewrite Hc', Hc, Em, !length_app. cbn. lia.
  - destruct (new_node_spec v ql') as (n & -> & Hn). cbn [mbind option_bind]. eexists _, true. split; [done|]. exists (vss ++ [[v]]).
    split; [apply Forall2_app; [done|by constructor]|]. rewrite concat_app. split; [done|]. cbn [count set_nodes]. rewrite Hc', Hc, length_app. cbn. lia.
Qed.

Lemma head_spec ql vs : represents ql vs -> head ql = stored <$> list.head vs.
Proof.
  intros (vss & H & <- & _). unfold head. destruct H as [|n ws ns vss Hn _]; [done|]. cbn [list.head mbind option_bind].
  pose proof (node_nonempty _ _ Hn) as Hne. rewrite (node_get _ _ 0 Hn) by (destruct ws; [done|cbn; lia]). by destruct ws.
Qed.

Lemma rows_last ql vss n : rows ql vss -> list.last (nodes ql) = Some n -> exists A ws, vss = A ++ [ws] /\ node_holds n ws /\ Forall2 node_holds (take (length (nodes ql) - 1) (nodes ql)) A.
Proof.
  intros H Hl. apply last_Some in Hl as [ns E]. unfold rows in H. rewrite E in *. apply Forall2_app_inv_l in H as (A & B & HA & HB & ->).
  apply Forall2_cons_inv_l in HB as (ws & B' & Hn & HB & ->). apply Forall2_nil_inv_l in HB as ->. exists A, ws. split; [done|]. split; [done|].
  rewrite length_app. cbn [length]. rewrite Nat.add_sub. by rewrite take_app_length.
Qed.

Lemma tail_spec ql vs : represents ql vs -> tail ql = stored <$> list.last vs.
Proof.
  intros (vss & H & <- & _). unfold tail. destruct (list.last (nodes ql)) as [n|] eqn:Hl.
  - destruct (rows_last _ _ _ H Hl) as (A & ws & -> & Hn & _). cbn [mbind option_bind]. rewrite concat_app. cbn [concat]. rewrite app_nil_r.
    pose proof (node_nonempty _ _ Hn) as Hne. rewrite last_app. destruct (list.last ws) as [w|] eqn:Ew; [|by apply last_None in Ew].
    unfold node_holds in Hn. destruct (data n) as [lp|b]; [destruct Hn as [Hp _]; by rewrite (packed_last Hp), Ew|].
    destruct Hn as [-> Hb]. injection Ew as <-. cbn. by rewrite long_stored.
  - apply last_None in Hl. unfold rows in H. rewrite Hl in H. by apply Forall2_nil_inv_l in H as ->.
Qed.

Lemma index_of_end n : index_of (S n) (-1) = Some n.
Proof. unfold index_of. rewrite (decide_True (P := (-1 < 0)%Z)), decide_True by lia. f_equal. lia. Qed.

Lemma drop_head_spec ql vs : represents ql vs -> exists ql', drop_head ql = Some (ql', bool_decide (vs <> [])) /\ represents ql' (list.tail vs).
Proof.
  intros (vss & H & <- & Hc). unfold drop_head. destruct (nodes ql) as [|n ns] eqn:Hns.
  { unfold rows in H. rewrite Hns in H. apply Forall2_nil_inv_l in H as ->. exists ql. split; [done|]. exists []. split; [unfold rows; by rewrite Hns|done]. }
  unfold rows in H. rewrite Hns in H. apply Forall2_cons_inv_l in H as (ws & vss' & Hn & Ht & ->). pose proof (node_nonempty _ _ Hn) as Hne.
  destruct ws as [|w ws]; [done|]. cbn [concat app list.tail]. rewrite bool_decide_eq_true_2 by done. cbn [concat app length] in Hc.
  unfold node_holds in Hn. destruct (data n) as [lp|b].
  - destruct Hn as [Hp _]. destruct (packed_delete Hp 0 0) as (lp' & -> & Hp'); [by apply (index_of_nat _ 0); cbn; lia|]. cbn [mbind option_bind negb].
    cbn [take drop Nat.add app] in Hp'. rewrite drop_0 in Hp'. rewrite (packed_empty Hp'). eexists. split; [done|]. case_bool_decide as Hw.
    + subst ws. exists vss'. split; [done|]. split; [done|]. cbn in *. lia.
    + exists (ws :: vss'). split; [by constructor|]. split; [done|]. cbn in *. lia.
  - destruct Hn as [[= -> ->] _]. eexists. split; [done|]. exists vss'. split; [done|]. split; [done|]. cbn in *. lia.
Qed.

Lemma drop_tail_spec ql vs : represents ql vs -> exists ql', drop_tail ql = Some (ql', bool_decide (vs <> [])) /\ represents ql' (take (length vs - 1) vs).
Proof.
  intros (vss & H & <- & Hc). unfold drop_tail. destruct (list.last (nodes ql)) as [n|] eqn:Hl.
  2:{ pose proof Hl as Hl'. apply last_None in Hl'. pose proof H as H'. unfold rows in H. rewrite Hl' in H. apply Forall2_nil_inv_l in H as ->. exists ql. split; [done|]. by exists []. }
  destruct (rows_last _ _ _ H Hl) as (A & ws & -> & Hn & HA). pose proof (node_nonempty _ _ Hn) as Hne. set (rest := take (length (nodes ql) - 1) (nodes ql)) in *.
  rewrite concat_app in *. cbn [concat] in *. rewrite app_nil_r in *. rewrite length_app in *.
  rewrite bool_decide_eq_true_2 by (intros E; apply Hne; by destruct (concat A), ws). assert (0 < length ws) as Hlen by (destruct ws; [done|cbn; lia]).
  replace (length (concat A) + length ws - 1) with (length (concat A) + (length ws - 1)) by lia. rewrite take_app_add. unfold node_holds in Hn. destruct (data n) as [lp|b].
  - destruct Hn as [Hp _]. destruct (packed_delete Hp (-1) (length ws - 1)) as (lp' & -> & Hp'); [destruct (length ws) as [|m]; [lia|]; rewrite index_of_end; f_equal; lia|].
    cbn [mbind option_bind negb]. rewrite (drop_ge ws), app_nil_r in Hp' by lia. rewrite (packed_empty Hp'). eexists. split; [done|]. case_bool_decide as Hw.
    + exists A. rewrite Hw, app_nil_r. split; [done|]. split; [done|]. apply (f_equal length) in Hw. rewrite length_take in Hw. cbn in *. lia.
    + exists (A ++ [take (length ws - 1) ws]). split; [apply Forall2_app; [done|by constructor]|]. rewrite concat_app. cbn [concat]. rewrite app_nil_r. split; [done|].
      cbn [count set_count set_nodes]. rewrite length_app, length_take. lia.
  - destruct Hn as [-> _]. eexists. split; [done|]. exists A. cbn [take length Nat.sub]. rewrite app_nil_r. split; [done|]. split; [done|]. cbn in *. lia.
Qed.

(** ** Merging changes no value *)

Definition same_values (ql ql' : Quicklist) (vss : list (list bytes)) : Prop :=
  count ql' = count ql /\ fill ql' = fill ql /\ exists vss', rows ql' vss' /\ concat vss' = concat vss.

Lemma try_merge_spec i ql vss : rows ql vss -> exists ql' m, try_merge i ql = Some (ql', m) /\ same_values ql ql' vss.
Proof.
  intros H. assert (same_values ql ql vss) as Hid by (split; [done|]; split; [done|]; by exists vss).
  unfold try_merge. destruct (nodes ql !! i) as [a|] eqn:Ha; [|by exists ql, false]. destruct (nodes ql !! (i + 1)) as [b|] eqn:Hb; [|by exists ql, false].
  destruct (allows_merge a b (fill ql)) eqn:Hm; cbn [negb]; [|by exists ql, false].
  destruct (rows_counts _ _ H i a Ha) as (vs & Hvs & Hna), (rows_counts _ _ H (i + 1) b Hb) as (ws & Hws & Hnb).
  assert (exists la, data a = Packed la) as [la Ea] by (unfold allows_merge, is_plain in Hm; destruct (data a); [by eexists|done]).
  assert (exists lb, data b = Packed lb) as [lb Eb] by (unfold allows_merge, is_plain in Hm; destruct (data b); [by eexists|by rewrite orb_true_r in Hm]).
  pose proof Hna as Hna'. pose proof Hnb as Hnb'. unfold node_holds in Hna', Hnb'. rewrite Ea in Hna'. rewrite Eb in Hnb'. destruct Hna' as [Hpa Hne], Hnb' as [Hpb _].
  rewrite Eb. cbn [nodes set_nodes]. pose proof (lookup_lt_Some _ _ _ Ha) as Hla. pose proof (lookup_lt_Some _ _ _ Hb) as Hlb.
  rewrite lookup_app_l by (rewrite length_take; lia). rewrite lookup_take_lt by lia. rewrite Ha. cbn [fmap option_fmap option_map]. rewrite Ea.
  destruct (packed_append_all la vs lb ws Hpa Hpb) as (lp & ok & -> & Hok & Hiff). cbn [mbind option_bind].
  assert (ok = true) as -> by (apply Hiff; by eapply (merge_fits a b)). eexists _, true. split; [done|]. split; [done|]. split; [done|].
  assert (Forall2 node_holds (take (i + 1) (nodes ql) ++ drop (i + 2) (nodes ql)) (take (i + 1) vss ++ drop (i + 2) vss)) as Hcut
    by (apply Forall2_app; [by apply Forall2_take|by apply Forall2_drop]).
  exists (<[i:=vs ++ ws]> (take (i + 1) vss ++ drop (i + 2) vss)). split.
  - unfold rows. cbn [nodes set_nodes]. apply Forall2_insert; [done|]. split; [done|]. by destruct vs.
  - assert ((take (i + 1) vss ++ drop (i + 2) vss) !! i = Some vs) as Hi.
    { rewrite lookup_app_l by (rewrite length_take, <-(Forall2_length _ _ _ H); lia). by rewrite lookup_take_lt by lia. }
    rewrite (concat_set _ _ _ _ Hi), (concat_mid _ _ _ Hvs). assert (i + 1 <= length vss) as Hlv by (rewrite <-(Forall2_length _ _ _ H); lia).
    rewrite take_app_le, take_take, drop_app_ge by (rewrite length_take; lia). rewrite length_take, drop_drop, !Nat.min_l by lia.
    replace (i + 2 + (S i - (i + 1))) with (S (S i)) by lia. rewrite Nat.add_1_r in Hws. rewrite (drop_S _ _ _ Hws). cbn [concat]. by rewrite <-!app_assoc.
Qed.

Lemma merge_around_spec ni ql vss : rows ql vss -> exists ql', merge_around ni ql = Some ql' /\ same_values ql ql' vss.
Proof.
  intros H. unfold merge_around.
  assert (exists ql1 at_, (if decide (0 < ni) then '(ql, m) ← try_merge (ni - 1) ql; Some (ql, if (m : bool) then ni - 1 else ni) else Some (ql, ni)) = Some (ql1, at_) /\
    same_values ql ql1 vss) as (ql1 & at_ & -> & Hc1 & Hf1 & vss1 & H1 & E1).
  { case_decide; [|exists ql, ni; split; [done|]; split; [done|]; split; [done|]; by exists vss].
    destruct (try_merge_spec (ni - 1) ql vss H) as (ql1 & m & -> & Hs). cbn [mbind option_bind]. by eexists _, _. }
  cbn [mbind option_bind]. destruct (try_merge_spec at_ ql1 vss1 H1) as (ql2 & m & -> & Hc2 & Hf2 & vss2 & H2 & E2). cbn [fmap option_fmap option_map fst].
  exists ql2. split; [done|]. split; [congruence|]. split; [congruence|]. exists vss2. split; [done|congruence].
Qed.

(** ** Insertion at an index *)

Lemma vec_insert_holds ni n ns vss ws : Forall2 node_holds ns vss -> node_holds n ws -> Forall2 node_holds (vec_insert ni n ns) (take ni vss ++ ws :: drop ni vss).
Proof. intros H Hn. apply Forall2_app; [by apply Forall2_take|]. constructor; [done|by apply Forall2_drop]. Qed.

(** The value as a node of its own, in front of node [ni]. *)
Lemma own_node_spec ni v ql vss : rows ql vss -> count ql = length (concat vss) ->
  exists ql', (node ← new_node v ql; ql' ← merge_around ni (set_count (count ql + 1) (set_nodes (vec_insert ni node (nodes ql)) ql)); Some (ql', true)) = Some (ql', true) /\
    represents ql' (concat (take ni vss) ++ v :: concat (drop ni vss)).
Proof.
  intros H Hc. destruct (new_node_spec v ql) as (n & -> & Hn). cbn [mbind option_bind].
  destruct (merge_around_spec ni (set_count (count ql + 1) (set_nodes (vec_insert ni n (nodes ql)) ql)) _ (vec_insert_holds ni n _ _ _ H Hn))
    as (ql' & -> & Hc' & _ & vss' & H' & E'). cbn [mbind option_bind]. exists ql'. split; [done|]. exists vss'. split; [done|].
  rewrite E', concat_app. split; [done|]. rewrite Hc'. cbn [count set_count]. rewrite Hc, <-(take_drop ni vss) at 1. rewrite concat_app, !length_app. cbn. lia.
Qed.

Lemma insert_node_spec ni off v ql vss vs : rows ql vss -> count ql = length (concat vss) -> vss !! ni = Some vs -> off < length vs ->
  exists ql', insert_node ni off v ql = Some (ql', true) /\ represents ql' (concat (take ni vss) ++ take off vs ++ v :: drop off vs ++ concat (drop (S ni) vss)).
Proof.
  intros H Hc Hvs Ho. unfold insert_node. destruct (Forall2_lookup_r _ _ _ _ _ H Hvs) as (n & Hn & Hh). rewrite Hn.
  assert (off = 0 -> exists ql', (node ← new_node v ql; ql' ← merge_around ni (set_count (count ql + 1) (set_nodes (vec_insert ni node (nodes ql)) ql)); Some (ql', true)) = Some (ql', true) /\
    represents ql' (concat (take ni vss) ++ take off vs ++ v :: drop off vs ++ concat (drop (S ni) vss))) as Hown.
  { intros ->. destruct (own_node_spec ni v ql vss H Hc) as (ql' & E & Hr). exists ql'. split; [done|].
    rewrite (drop_S _ _ _ Hvs) in Hr. cbn [concat] in Hr. by rewrite take_0, drop_0. }
  unfold node_holds in Hh. destruct (data n) as [lp|b]; [destruct Hh as [Hp Hne]|destruct Hh as [-> _]; apply Hown; cbn in Ho; lia].
  case_decide as Hz; [by apply Hown|clear Hown]. rewrite (packed_iter Hp), <-fmap_drop, (packed_len Hp).
  pose proof (weight_app (take off vs) (drop off vs)) as Hw. rewrite take_drop in Hw. pose proof Hp as [_ Hle].
  destruct (packed_from_entries (drop off vs)) as (tl & -> & Ht); [lia|]. cbn [mbind option_bind].
  destruct (packed_truncate Hp off Ho) as (lp' & -> & Hp'). cbn [mbind option_bind]. destruct (new_node_spec v ql) as (mid & -> & Hm). cbn [mbind option_bind].
  set (ns := vec_insert _ _ _). set (vss1 := <[ni:=take off vs]> vss).
  assert (Forall2 node_holds ns (take (ni + 1) (take (ni + 1) vss1 ++ drop off vs :: drop (ni + 1) vss1) ++ [v] :: drop (ni + 1) (take (ni + 1) vss1 ++ drop off vs :: drop (ni + 1) vss1))) as Hns.
  { apply vec_insert_holds; [|done]. apply vec_insert_holds; [|split; [done|]; intros E%(f_equal length); rewrite length_drop in E; cbn in E; lia].
    apply Forall2_insert; [done|]. split; [done|]. intros E%(f_equal length). rewrite length_take in E. cbn in E. lia. }
  assert (ni + 1 <= length vss1) as Hl by (apply lookup_lt_Some in Hvs; unfold vss1; rewrite length_insert; lia).
  rewrite take_app_le, take_take, Nat.min_id, drop_app_ge in Hns by (rewrite length_take; lia). rewrite length_take, Nat.min_l, Nat.sub_diag, drop_0 in Hns by lia.
  destruct (merge_around_spec (ni + 1) (set_count (count ql + 1) (set_nodes ns ql)) _ Hns) as (ql' & -> & Hc' & _ & vss' & H' & E'). cbn [mbind option_bind].
  exists ql'. split; [done|]. exists vss'. split; [done|]. rewrite E', concat_app. cbn [concat].
  assert (take (ni + 1) vss1 = take ni vss ++ [take off vs]) as ->.
  { unfold vss1. pose proof (lookup_lt_Some _ _ _ Hvs). rewrite Nat.add_1_r, (take_S_r _ _ (take off vs)) by by rewrite list_lookup_insert_eq. by rewrite take_insert_ge. }
  assert (drop (ni + 1) vss1 = drop (S ni) vss) as -> by (unfold vss1; rewrite drop_insert_lt by lia; f_equal; lia).
  rewrite concat_app. cbn [concat]. rewrite app_nil_r, <-!app_assoc. split; [done|]. rewrite Hc'. cbn [count set_count].
  rewrite Hc, (concat_mid _ _ _ Hvs), !length_app. cbn [length]. rewrite length_app, length_take, length_drop. lia.
Qed.

(** The list cut where the index is. *)
Lemma cut_at {A} (vss : list (list A)) ni off vs : vss !! ni = Some vs -> off <= length vs ->
  take (length (concat (take ni vss)) + off) (concat vss) = concat (take ni vss) ++ take off vs /\
  drop (length (concat (take ni vss)) + off) (concat vss) = drop off vs ++ concat (drop (S ni) vss).
Proof. intros H Ho. rewrite (concat_mid _ _ _ H). by rewrite take_mid, drop_mid. Qed.

Lemma insert_at_spec i v ql vs : represents ql vs -> exists ql', insert_at i v ql = Some (ql', true) /\ represents ql' (take i vs ++ v :: drop i vs).
Proof.
  intros HR. pose proof HR as (vss & H & Evs & Hc). unfold insert_at. case_decide as Hi0; [|case_decide as Hin].
  - subst i. destruct (push_head_spec v ql vs HR) as (ql' & b & -> & Hr). cbn [mbind option_bind]. exists ql'. by rewrite take_0, drop_0.
  - destruct (push_tail_spec v ql vs HR) as (ql' & b & -> & Hr). cbn [mbind option_bind]. exists ql'. by rewrite take_ge, drop_ge by lia.
  - subst vs. destruct (locate_spec ql vss i H Hc) as (ni & off & vs & -> & Hvs & Ho & Ei); [lia|].
    rewrite Ei. destruct (cut_at vss ni off vs Hvs) as [-> ->]; [lia|]. rewrite <-app_assoc.
    destruct (into_node_spec ni v (insert off (Str v)) (fun vs => take off vs ++ v :: drop off vs) ql vss H) as (ql1 & ok & -> & Hc1 & _ & Hok);
      [intros; by apply packed_insert|by intros us E%app_nil; destruct E|]. cbn [mbind option_bind]. destruct ok.
    { destruct Hok as (us & Hus & Hr). assert (us = vs) as -> by congruence. eexists. split; [done|]. eexists. split; [exact Hr|].
      rewrite (concat_set _ _ _ _ Hvs), <-app_assoc. split; [done|]. cbn [count set_count]. rewrite Hc1, Hc, (concat_mid _ _ _ Hvs), !length_app. cbn [length app].
      rewrite length_app, length_take, length_drop. lia. }
    assert (exists ql2 ok, (if decide (off = 0 /\ 0 < ni) then into_node (ni - 1) v (append (Str v)) ql1 else Some (ql1, false)) = Some (ql2, ok) /\
      count ql2 = count ql /\ if ok then off = 0 /\ 0 < ni /\ exists us, vss !! (ni - 1) = Some us /\ rows ql2 (<[ni - 1:=us ++ [v]]> vss) else rows ql2 vss)
      as (ql2 & ok & -> & Hc2 & Hok2).
    { case_decide as Hb; [|by exists ql1, false]. destruct (into_node_spec (ni - 1) v (append (Str v)) (fun vs => vs ++ [v]) ql1 vss Hok) as (ql2 & ok & -> & Hc2 & _ & Hok2);
        [intros; by apply packed_append|by intros [|? ?]|]. exists ql2, ok. split; [done|]. split; [congruence|]. destruct ok; [by destruct Hb|done]. }
    cbn [mbind option_bind]. destruct ok.
    + destruct Hok2 as (-> & Hni & us & Hus & Hr). eexists. split; [done|]. eexists. split; [exact Hr|].
      destruct ni as [|ni]; [lia|]. replace (S ni - 1) with ni in * by lia. rewrite (concat_set _ _ _ _ Hus), (drop_S _ _ _ Hvs), (take_S_r _ _ _ Hus).
      rewrite concat_app, take_0, drop_0. cbn [concat app]. rewrite app_nil_r, <-!app_assoc. split; [done|].
      cbn [count set_count]. rewrite Hc2, Hc, (concat_mid _ _ _ Hus), (drop_S _ _ _ Hvs). cbn [concat app]. rewrite !length_app. cbn [length]. rewrite !length_app. lia.
    + destruct (insert_node_spec ni off v ql2 vss vs Hok2) as (ql' & -> & Hr); [congruence|done|done|]. by exists ql'.
Qed.

(** ** Deletion of a range *)

Lemma rows_remove ql vss ni : rows ql vss -> Forall2 node_holds (take ni (nodes ql) ++ drop (ni + 1) (nodes ql)) (take ni vss ++ drop (ni + 1) vss).
Proof. intros H. apply Forall2_app; [by apply Forall2_take|by apply Forall2_drop]. Qed.

Lemma delete_range_loop_rows fuel i todo ql vs :
  represents ql vs -> i + todo <= length vs -> todo < fuel ->
  exists ql', Quicklist.delete_range_loop fuel i todo ql = Some (ql', 0) /\ represents ql' (take i vs ++ drop (i + todo) vs).
Proof.
  revert todo ql vs. induction fuel as [|fuel IH]; intros todo ql vs HR Hle Hf; [lia|]. cbn [Quicklist.delete_range_loop]. case_decide as Hz.
  { subst todo. exists ql. by rewrite Nat.add_0_r, take_drop. }
  pose proof HR as (vss & H & <- & Hc). destruct (locate_spec ql vss i H Hc) as (ni & off & vs & -> & Hvs & Ho & Ei); [lia|].
  destruct (Forall2_lookup_r _ _ _ _ _ H Hvs) as (n & Hn & Hh). rewrite Hn. cbn [fmap option_fmap option_map].
  destruct (cut_at vss ni off vs Hvs) as [Ht Hd]; [lia|].
  assert (forall got vss', 0 < got -> off + got <= length vs -> got <= todo -> concat vss' = concat (take ni vss) ++ (take off vs ++ drop (off + got) vs) ++ concat (drop (S ni) vss) ->
    take i (concat vss') ++ drop (i + (todo - got)) (concat vss') = take i (concat vss) ++ drop (i + todo) (concat vss) /\ length (concat vss') = count ql - got) as Hnext.
  { intros got vss' Hg Hog Hgt ->. rewrite <-app_assoc. assert (length (concat (take ni vss) ++ take off vs) = i) as Hl by (rewrite length_app, length_take; lia).
    rewrite app_assoc. rewrite take_app_length' by done. rewrite <-Hl at 1. rewrite drop_app_add. subst i. rewrite Ht. split.
    - f_equal. transitivity (drop todo (drop off vs ++ concat (drop (S ni) vss))); [|by rewrite <-Hd, drop_drop].
      replace todo with (got + (todo - got)) at 2 by lia. rewrite <-(drop_drop (_ ++ _)), (drop_app_le (drop off vs) _ got), drop_drop by (rewrite length_drop; lia). done.
    - rewrite Hc, (concat_mid _ _ _ Hvs), !length_app, length_take, length_drop. lia. }
  assert (forall got ql' vss', 0 < got -> off + got <= length vs -> got <= todo -> rows ql' vss' -> count ql' = count ql - got ->
    concat vss' = concat (take ni vss) ++ (take off vs ++ drop (off + got) vs) ++ concat (drop (S ni) vss) ->
    exists ql'', Quicklist.delete_range_loop fuel i (todo - got) ql' = Some (ql'', 0) /\ represents ql'' (take i (concat vss) ++ drop (i + todo) (concat vss))) as Hgo.
  { intros got ql' vss' Hg Hog Hgt Hr Hcq E. destruct (Hnext got vss' Hg Hog Hgt E) as [<- Hl]. apply IH; [exists vss'; split; [done|]; split; [done|congruence]| |lia].
    rewrite Hl, Hc. lia. }
  clear Hnext. assert (forall m, concat (take ni vss ++ drop (ni + 1) vss) = concat (take ni vss) ++ (take off vs ++ drop (off + m) vs) ++ concat (drop (S ni) vss) <->
    take off vs ++ drop (off + m) vs = []) as Hgone.
  { intros m. rewrite concat_app, Nat.add_1_r. split; [|by intros ->]. intros E%app_inv_head. by apply (app_inv_tail (concat (drop (S ni) vss)) []) in E. }
  unfold node_holds in Hh. destruct (data n) as [lp|b] eqn:Ed.
  - destruct Hh as [Hp Hne]. rewrite (packed_len Hp). set (here := (length vs - off) `min` todo).
    destruct (packed_delete_range Hp off here) as (lp' & -> & Hp'). cbn [mbind option_bind]. rewrite Nat.min_l by lia. rewrite decide_False by lia.
    rewrite (packed_empty Hp'). case_bool_decide as He; (eapply Hgo; [lia|lia|lia| |done|]).
    + apply rows_remove. exact H.
    + by apply Hgone.
    + unfold rows. cbn [nodes set_count set_nodes]. apply Forall2_insert; [exact H|]. by split.
    + apply (concat_set _ _ _ _ Hvs).
  - destruct Hh as [-> _]. cbn [length] in Ho. assert (off = 0) as -> by lia. eapply (Hgo 1); [lia|cbn; lia|lia|apply rows_remove; exact H|done|by apply Hgone].
Qed.

Lemma delete_range_spec start n ql vs : represents ql vs ->
  exists ql', Quicklist.delete_range start n ql = Some (ql', match index_of (length vs) start with Some i => n `min` (length vs - i) | None => 0 end) /\
    represents ql' (match index_of (length vs) start with Some i => take i vs ++ drop (i + n) vs | None => vs end).
Proof.
  intros HR. pose proof HR as (vss0 & _ & _ & Hc). unfold Quicklist.delete_range. rewrite normalize_spec, Hc. case_decide as Hz.
  { exists ql. destruct (index_of _ _) as [i|] eqn:Hi; [|done]. apply index_of_lt in Hi. destruct Hz as [->|]; [|lia]. by rewrite Nat.add_0_r, take_drop. }
  destruct (index_of (length vs) start) as [i|] eqn:Hi; [|by exists ql]. apply index_of_lt in Hi. set (want := n `min` (length vs - i)).
  destruct (delete_range_loop_rows (S want) i want ql vs HR) as (ql1 & -> & HR1); [lia|lia|]. cbn [mbind option_bind]. rewrite Nat.sub_0_r.
  assert (take i vs ++ drop (i + n) vs = take i vs ++ drop (i + want) vs) as ->.
  { destruct (decide (n <= length vs - i)); [by replace want with n by lia|]. f_equal. by rewrite !drop_ge by lia. }
  pose proof HR1 as (vss & H & E & Hc1). case_decide as Hm; [|by exists ql1].
  destruct (locate (i `min` (count ql1 - 1)) ql1) as [[ni off]|]; [|by exists ql1]. cbn [mbind option_bind].
  destruct (merge_around_spec ni ql1 vss H) as (ql2 & -> & Hc2 & _ & vss' & H' & E'). cbn [mbind option_bind]. exists ql2. split; [done|].
  exists vss'. split; [done|]. split; congruence.
Qed.

(** ** Reading *)

Lemma index_spec i ql vs : represents ql vs -> index i ql = k ← index_of (length vs) i; stored <$> vs !! k.
Proof.
  intros (vss & H & <- & Hc). unfold index. rewrite normalize_spec, Hc. destruct (index_of _ i) as [k|] eqn:Hk; [|done]. apply index_of_lt in Hk. cbn [mbind option_bind].
  destruct (locate_spec ql vss k H Hc) as (ni & off & vs & -> & Hvs & Ho & ->); [lia|]. cbn [mbind option_bind].
  destruct (Forall2_lookup_r _ _ _ _ _ H Hvs) as (n & -> & Hh). cbn [mbind option_bind]. rewrite (node_get _ _ _ Hh Ho). f_equal.
  rewrite (concat_mid _ _ _ Hvs), lookup_app_r by lia. rewrite Nat.add_comm, Nat.add_sub. by rewrite lookup_app_l.
Qed.

Lemma iter_loop_rows fuel ql vss node us :
  rows ql vss -> node <= length vss -> length us + length (concat (drop node vss)) + (length vss - node) < fuel ->
  Quicklist.iter_loop fuel (length us + length (concat (drop node vss))) (stored <$> us) node ql = stored <$> (us ++ concat (drop node vss)).
Proof.
  intros H. revert node us. induction fuel as [|fuel IH]; intros node us Hn Hf; [lia|]. cbn [Quicklist.iter_loop]. case_decide as Hz.
  { destruct us; [|done]. cbn [app] in *. by destruct (concat (drop node vss)). }
  destruct us as [|u us]; cbn [fmap list_fmap].
  - destruct (decide (node < length vss)) as [Hlt|]; [|rewrite drop_ge in Hz by lia; cbn in Hz; lia].
    destruct (lookup_lt_is_Some_2 vss node Hlt) as [vs Hvs]. destruct (Forall2_lookup_r _ _ _ _ _ H Hvs) as (n & -> & Hh).
    rewrite (node_cursor_spec n vs 0 Hh), drop_0 by lia. rewrite (drop_S _ _ _ Hvs) in *. cbn [concat length app] in *. rewrite length_app in *.
    rewrite Nat.add_1_r, Nat.add_0_l, IH by lia. done.
  - cbn [length app fmap list_fmap]. f_equal. cbn in Hf. rewrite <-IH by lia. f_equal. lia.
Qed.

Lemma rows_fuel ql vss : rows ql vss -> count ql = length (concat vss) -> iter_fuel ql = S (length (concat vss) + length vss).
Proof. intros H Hc. unfold iter_fuel. by rewrite Hc, (Forall2_length _ _ _ H). Qed.

Lemma ql_iter_spec ql vs : represents ql vs -> iter ql = stored <$> vs.
Proof.
  intros (vss & H & <- & Hc). unfold iter. rewrite (rows_fuel _ _ H Hc), Hc. apply (iter_loop_rows _ ql vss 0 [] H); rewrite ?drop_0; cbn; lia.
Qed.

Lemma ql_iter_from_spec i ql vs : represents ql vs -> iter_from i ql = match index_of (length vs) i with Some k => stored <$> drop k vs | None => [] end.
Proof.
  intros (vss & H & <- & Hc). unfold iter_from. rewrite normalize_spec, Hc. destruct (index_of _ i) as [k|] eqn:Hk; [|done]. apply index_of_lt in Hk.
  destruct (locate_spec ql vss k H Hc) as (ni & off & vs & -> & Hvs & Ho & ->); [lia|]. destruct (Forall2_lookup_r _ _ _ _ _ H Hvs) as (n & -> & Hh).
  rewrite (node_cursor_spec n vs off Hh) by lia. rewrite (proj2 (cut_at vss ni off vs Hvs ltac:(lia))). pose proof (lookup_lt_Some _ _ _ Hvs).
  rewrite Nat.add_1_r, <-(iter_loop_rows (iter_fuel ql) ql vss (S ni) (drop off vs) H); [|lia|].
  - f_equal. rewrite (concat_mid _ _ _ Hvs), !length_app, length_drop. lia.
  - rewrite (rows_fuel _ _ H Hc), (concat_mid _ _ _ Hvs), !length_app, length_drop. lia.
Qed.

Lemma offsets_loop_spec lp c ds es fuel k : pack lp c ds es -> k <= length ds -> length ds - k < fuel -> offsets_loop fuel (pos ds k) lp = pos ds <$> seq k (length ds - k).
Proof.
  intros Hp. revert k. induction fuel as [|fuel IH]; intros k Hk Hf; [lia|]. cbn [offsets_loop]. pose proof (at_eof Hp k) as He. case_decide as Hd.
  - destruct (step_span Hp k) as (span & Es & E); [lia|]. unfold next_offset. rewrite decide_False by lia. rewrite Es. cbn [mbind option_bind].
    rewrite <-E. pose proof (pos_le Hp (S k)). rewrite decide_False by lia. rewrite IH by lia. replace (length ds - k) with (S (length ds - S k)) by lia. done.
  - by replace (length ds - k) with 0 by lia.
Qed.

(** The offsets lead to the entries of the node. *)
Lemma node_offsets_spec n vs : node_holds n vs ->
  length (node_offsets n) = length vs /\
  forall p v, vs !! p = Some v -> exists off, node_offsets n !! p = Some off /\
    match data n with Packed lp => entry_at off lp | Plain b => Some (Str b) end = Some (stored v).
Proof.
  unfold node_holds, node_offsets. destruct (data n) as [lp|b].
  - intros [Hp _]. destruct Hp as [(c & Hp) _]. pose proof (enough_fuel Hp) as Hf.
    rewrite <-(pos_0 ((fun v => entry_data (Str v)) <$> vs)), (offsets_loop_spec lp c _ _ _ 0 Hp) by lia. rewrite length_fmap, length_seq, length_fmap, Nat.sub_0_r.
    split; [done|]. intros p v Hv. exists (pos ((fun v => entry_data (Str v)) <$> vs) p).
    rewrite list_lookup_fmap, lookup_seq_lt by by eapply lookup_lt_Some. split; [done|]. by rewrite (read_entry Hp), list_lookup_fmap, Hv.
  - intros [-> Hb]. split; [done|]. intros p v Hv. destruct p; [|done]. injection Hv as <-. exists 0. by rewrite long_stored.
Qed.

Lemma iter_rev_loop_rows fuel ql vss node offs pos vs :
  rows ql vss -> node <= length vss -> pos <= length vs ->
  (0 < pos -> exists n, nodes ql !! node = Some n /\ node_holds n vs /\ offs = node_offsets n) ->
  pos + length (concat (take node vss)) + node < fuel ->
  Quicklist.iter_rev_loop fuel (pos + length (concat (take node vss))) offs pos node ql = stored <$> rev (concat (take node vss) ++ take pos vs).
Proof.
  intros H. revert node offs pos vs. induction fuel as [|fuel IH]; intros node offs pos vs Hn Hp Hcur Hf; [lia|]. cbn [Quicklist.iter_rev_loop]. case_decide as Hz.
  { assert (pos = 0) as -> by lia. assert (concat (take node vss) = []) as -> by (apply nil_length_inv; lia). by rewrite take_0. }
  destruct pos as [|pos].
  - rewrite take_0, app_nil_r. destruct node as [|node]; [rewrite take_0 in Hz; cbn in Hz; lia|].
    destruct (lookup_lt_is_Some_2 vss node) as [ws Hws]; [lia|]. destruct (Forall2_lookup_r _ _ _ _ _ H Hws) as (n & Hnode & Hh). rewrite Hnode.
    destruct (node_offsets_spec n ws Hh) as [Hlo _]. rewrite Hlo. rewrite (take_S_r _ _ _ Hws), concat_app in *. cbn [concat] in *. rewrite app_nil_r, length_app in *.
    replace (0 + (length (concat (take node vss)) + length ws)) with (length ws + length (concat (take node vss))) by lia.
    rewrite (IH node _ (length ws) ws); [by rewrite firstn_all|lia|done| |lia]. intros _. eauto.
  - destruct Hcur as (n & Hnode & Hh & ->); [lia|]. rewrite Hnode. destruct (lookup_lt_is_Some_2 vs pos) as [v Hv]; [lia|].
    destruct (node_offsets_spec n vs Hh) as [_ Hoff]. destruct (Hoff pos v Hv) as (off & -> & ->).
    rewrite (take_S_r _ _ _ Hv), app_assoc, rev_app_distr. cbn [rev app fmap list_fmap]. f_equal.
    rewrite <-(IH node (node_offsets n) pos vs) by (lia || eauto). f_equal. lia.
Qed.

Lemma ql_iter_rev_spec ql vs : represents ql vs -> iter_rev ql = stored <$> rev vs.
Proof.
  intros (vss & H & <- & Hc). unfold iter_rev. rewrite (rows_fuel _ _ H Hc), Hc, (Forall2_length _ _ _ H).
  pose proof (iter_rev_loop_rows (S (length (concat vss) + length vss)) ql vss (length vss) [] 0 [] H) as E. rewrite firstn_all, app_nil_r in E. apply E; (done || lia).
Qed.

(** The first value equal to [v]. *)
Definition first_index (v : bytes) (vs : list bytes) : option nat := fst <$> list_find (fun x => x = v) vs.

Lemma position_in_spec v vs : position_in v (stored <$> vs) = first_index v vs.
Proof.
  unfold position_in, first_index. induction vs as [|x vs IH]; [done|]. cbn [fmap list_fmap list_find]. rewrite stored_eq.
  destruct (decide (x = v)) as [->|Hne]; [by rewrite decide_True by by apply bool_decide_eq_true|].
  rewrite decide_False by (rewrite bool_decide_eq_true; done).
  destruct (list_find _ (stored <$> vs)) as [[??]|], (list_find _ vs) as [[??]|]; cbn in *; congruence.
Qed.

(** ** Removal by value *)

Definition del_at {A} (i : nat) (xs : list A) : list A := take i xs ++ drop (i + 1) xs.

(** The list without the first [n] occurrences of [v]. *)
Fixpoint remove_n (n : nat) (v : bytes) (vs : list bytes) : list bytes :=
  match n, vs with
  | S n', x :: xs => if decide (x = v) then remove_n n' v xs else x :: remove_n n v xs
  | _, _ => vs
  end.

Lemma remove_n_0 v vs : remove_n 0 v vs = vs.
Proof. by destruct vs. Qed.

Lemma remove_n_none n v vs : first_index v vs = None -> remove_n n v vs = vs.
Proof.
  unfold first_index. induction vs as [|x vs IH]; [by destruct n|]. cbn [list_find]. destruct n as [|n]; [done|]. cbn [remove_n]. case_decide; [done|].
  intros Hf. f_equal. apply IH. by destruct (list_find _ vs) as [[??]|].
Qed.

Lemma remove_n_first n v vs i : first_index v vs = Some i -> i < length vs /\ remove_n (S n) v vs = remove_n n v (del_at i vs).
Proof.
  unfold first_index. revert i. induction vs as [|x vs IH]; intros i; [done|]. cbn [list_find remove_n length]. case_decide.
  - intros [= <-]. split; [lia|]. unfold del_at. by rewrite take_0.
  - destruct (list_find _ vs) as [[j y]|] eqn:E; [|done]. cbn. intros [= <-]. destruct (IH j eq_refl) as [Hj Hr]. split; [lia|]. rewrite Hr.
    unfold del_at. cbn [take drop Nat.add app]. destruct n as [|n]; [by rewrite !remove_n_0|]. cbn [remove_n]. by rewrite decide_False.
Qed.

Lemma remove_n_all n v vs : length vs <= n -> remove_n n v vs = filter (fun x => x <> v) vs.
Proof.
  revert n. induction vs as [|x vs IH]; intros n Hn; [by destruct n|]. destruct n as [|n]; [cbn in Hn; lia|]. cbn [remove_n]. cbn in Hn. rewrite filter_cons.
  destruct (decide (x = v)) as [->|Hne]; [rewrite decide_False by tauto; apply IH; lia|]. rewrite decide_True by done. f_equal. apply IH. lia.
Qed.

Lemma remove_n_length n v vs : length (remove_n n v vs) <= length vs.
Proof.
  revert n. induction vs as [|x vs IH]; intros n; [by destruct n|]. destruct n as [|n]; [done|]. cbn [remove_n length]. case_decide; [pose proof (IH n); lia|].
  cbn [length]. pose proof (IH (S n)). lia.
Qed.

Lemma del_at_length {A} i (xs : list A) : i < length xs -> length (del_at i xs) = length xs - 1.
Proof. intros. unfold del_at. rewrite length_app, length_take, length_drop. lia. Qed.

Lemma del_at_rev {A} k (xs : list A) : k < length xs -> rev (del_at (length xs - 1 - k) xs) = del_at k (rev xs).
Proof.
  intros Hk. unfold del_at. rewrite rev_app_distr. rewrite <-(rev_involutive xs) at 2 4. rewrite (skipn_rev _ (rev xs)), (firstn_rev _ (rev xs)), !rev_involutive, length_rev.
  f_equal; f_equal; lia.
Qed.

(** What the loop sees: the list, or its reverse. *)
Definition side {A} (backward : bool) (xs : list A) : list A := if backward then rev xs else xs.

Lemma remove_value_loop_spec fuel v limit backward removed ql vs :
  represents ql vs -> length vs < fuel ->
  let vs' := side backward (remove_n (Z.to_nat (limit - Z.of_nat removed)) v (side backward vs)) in
  exists ql', remove_value_loop fuel v limit backward removed ql = Some (ql', removed + (length vs - length vs')) /\ represents ql' vs'.
Proof.
  cbv zeta. revert removed ql vs. induction fuel as [|fuel IH]; intros removed ql vs HR Hf; [lia|]. cbn [remove_value_loop].
  assert (side backward (side backward vs) = vs) as Hss by (destruct backward; [apply rev_involutive|done]).
  case_decide as Hl.
  2:{ exists ql. replace (Z.to_nat (limit - Z.of_nat removed)) with 0 by lia. rewrite remove_n_0, Hss, Nat.sub_diag, Nat.add_0_r. done. }
  replace (Z.to_nat (limit - Z.of_nat removed)) with (S (Z.to_nat (limit - Z.of_nat (removed + 1)))) by lia. set (k := Z.to_nat (limit - Z.of_nat (removed + 1))).
  assert ((if backward then rposition v ql else position v ql) = (fun i => if backward then length vs - 1 - i else i) <$> first_index v (side backward vs)) as ->.
  { pose proof HR as (_ & _ & _ & Hc). unfold rposition, position. destruct backward; cbn [side].
    - rewrite (ql_iter_rev_spec ql vs HR), position_in_spec, Hc. done.
    - rewrite (ql_iter_spec ql vs HR), position_in_spec. by destruct (first_index v vs). }
  destruct (first_index v (side backward vs)) as [i|] eqn:Hi; cbn [fmap option_fmap option_map].
  2:{ exists ql. rewrite remove_n_none, Hss, Nat.sub_diag, Nat.add_0_r by done. done. }
  destruct (remove_n_first k v _ i Hi) as [Hil Hrem]. assert (length (side backward vs) = length vs) as Hsl by (destruct backward; [apply length_rev|done]). rewrite Hsl in Hil.
  set (idx := if backward then length vs - 1 - i else i). assert (idx < length vs) as Hidx by (unfold idx; destruct backward; lia).
  destruct (delete_range_spec (Z.of_nat idx) 1 ql vs HR) as (ql1 & E & HR1). rewrite (index_of_nat _ _ Hidx) in E, HR1. fold (del_at idx vs) in HR1.
  rewrite E. cbn [mbind option_bind]. rewrite Nat.min_l, decide_False by lia.
  assert (side backward (del_at idx vs) = del_at i (side backward vs)) as Hside by (unfold idx; destruct backward; [by apply del_at_rev|done]).
  destruct (IH (removed + 1) ql1 (del_at idx vs) HR1) as (ql' & E' & HR'); [rewrite del_at_length by done; lia|]. fold k in E', HR'. rewrite Hside, <-Hrem in E', HR'.
  exists ql'. split; [|done]. rewrite E'. do 2 f_equal. rewrite del_at_length by done.
  assert (length (side backward (remove_n (S k) v (side backward vs))) <= length vs - 1); [|lia].
  rewrite Hrem. assert (forall xs : list bytes, length (side backward xs) = length xs) as Hlen by (intros; destruct backward; [apply length_rev|done]).
  rewrite Hlen. pose proof (remove_n_length k v (del_at i (side backward vs))). rewrite del_at_length, Hlen in *; rewrite ?Hlen; lia.
Qed.

(** The contract of LREM. *)
Definition lrem (n : Z) (v : bytes) (vs : list bytes) : list bytes :=
  if decide (0 < n)%Z then remove_n (Z.to_nat n) v vs
  else if decide (n < 0)%Z then rev (remove_n (Z.to_nat (- n)) v (rev vs))
  else filter (fun x => x <> v) vs.

Lemma remove_value_spec n v ql vs : represents ql vs -> (Z.of_nat (length vs) < 2 ^ 64)%Z ->
  exists ql', remove_value v n ql = Some (ql', length vs - length (lrem n v vs)) /\ represents ql' (lrem n v vs).
Proof.
  intros HR Hlen. pose proof HR as (_ & _ & _ & Hc). unfold remove_value. rewrite Hc. set (limit := if decide (n = 0)%Z then _ else _).
  destruct (remove_value_loop_spec (S (length vs)) v limit (bool_decide (n < 0)%Z) 0 ql vs HR) as (ql' & E & HR'); [lia|].
  rewrite Nat.add_0_l, Z.sub_0_r in *. assert (side (bool_decide (n < 0)%Z) (remove_n (Z.to_nat limit) v (side (bool_decide (n < 0)%Z) vs)) = lrem n v vs) as El.
  { unfold lrem, limit. destruct (decide (n = 0)%Z) as [->|Hn]; [|destruct (decide (0 < n)%Z)].
    - rewrite !decide_False, bool_decide_eq_false_2 by done. apply remove_n_all. lia.
    - rewrite bool_decide_eq_false_2, Z.abs_eq by lia. done.
    - rewrite decide_True, bool_decide_eq_true_2, Z.abs_neq by lia. done. }
  rewrite El in *. by exists ql'.
Qed.

(** ** Replacement *)

(** The packed nodes have room for the value. *)
Definition roomy (v : bytes) (ql : Quicklist) : Prop :=
  forall n lp, n ∈ nodes ql -> data n = Packed lp -> (Z.of_nat (total_bytes lp + room (Str v)) <= LP_MAX_SAFETY_SIZE)%Z.

Lemma set_spec i v ql vs k : represents ql vs -> index_of (length vs) i = Some k ->
  exists ql' ok, set i v ql = Some (ql', ok) /\ represents ql' (if ok then <[k:=v]> vs else vs) /\ (roomy v ql -> ok = true).
Proof.
  intros HR Hi. pose proof HR as (vss & H & Evs & Hc). unfold set. rewrite normalize_spec, Hc, Hi. pose proof (index_of_lt _ _ _ Hi) as Hk. rewrite <-Evs in Hk.
  assert (forall v0 : bytes, k < length vs -> <[k:=v0]> vs = take k (del_at k vs) ++ v0 :: drop k (del_at k vs)) as Hset.
  { intros v0 Hlt. unfold del_at. rewrite insert_take_drop, take_app_length', drop_app_length', Nat.add_1_r by (done || rewrite length_take; lia). done. }
  destruct (locate_spec ql vss k H ltac:(congruence)) as (ni & off & ws & -> & Hws & Ho & Ek); [rewrite Hc, <-Evs; lia|].
  destruct (Forall2_lookup_r _ _ _ _ _ H Hws) as (n & Hn & Hh). rewrite Hn. cbn [fmap option_fmap option_map].
  assert (forall ws' : list bytes, ws' = <[off:=v]> ws -> concat (<[ni:=ws']> vss) = <[k:=v]> vs) as Hrow.
  { intros ws' ->. rewrite (concat_set _ _ _ _ Hws), <-Evs, (concat_mid _ _ _ Hws), Ek. rewrite insert_app_r. f_equal. by rewrite insert_app_l. }
  assert (exists (ql' : Quicklist) (ok : bool), ('(q, _) ← Quicklist.delete_range (Z.of_nat k) 1 ql; insert_at k v q) = Some (ql', ok) /\
    represents ql' (if ok then <[k:=v]> vs else vs) /\ (roomy v ql -> ok = true)) as Hcross.
  { destruct (delete_range_spec (Z.of_nat k) 1 ql vs HR) as (ql1 & -> & HR1). rewrite index_of_nat in HR1 by (rewrite <-Evs; lia). fold (del_at k vs) in HR1. cbn [mbind option_bind].
    destruct (insert_at_spec k v ql1 _ HR1) as (ql2 & -> & HR2). exists ql2, true. split; [done|]. split; [|done]. rewrite Hset; [done|by rewrite <-Evs]. }
  unfold node_holds in Hh. destruct (data n) as [lp|b] eqn:Ed.
  - destruct (is_large_element _ _); [done|]. destruct Hh as [Hp Hne]. destruct (packed_replace Hp off v Ho) as (lp' & ok & -> & Hok & Hiff). cbn [mbind option_bind].
    eexists _, ok. split; [done|]. split.
    + destruct ok; cbn [count set_nodes]; [exists (<[ni:=<[off:=v]> ws]> vss)|subst lp'; exists vss].
      * split; [apply Forall2_insert; [exact H|]; split; [done|]; intros E%(f_equal length); rewrite length_insert in E; cbn in E; lia|].
        rewrite Hrow by done. by rewrite length_insert.
      * split; [|done]. unfold rows. cbn [nodes set_nodes]. rewrite list_insert_id; [done|]. rewrite Hn. f_equal. destruct n. cbn in *. by rewrite Ed.
    + intros Hr. apply Hiff. specialize (Hr n lp ltac:(by eapply list_elem_of_lookup_2) Ed). unfold total_bytes in Hr. rewrite (packed_bytes Hp) in Hr.
      destruct (lookup_lt_is_Some_2 ws off Ho) as [w Hw]. pose proof (weight_insert (vs := ws) off v w Hw). lia.
  - pose proof (large_bound (length v) (fill ql)) as Hlb. destruct (is_large_element _ _); [|done]. destruct Hh as [-> Hb]. cbn in Ho. assert (off = 0) as -> by lia.
    eexists _, true. split; [done|]. split; [|done]. exists (<[ni:=[v]]> vss). split; [apply Forall2_insert; [exact H|by split]|]. rewrite Hrow by done. by rewrite length_insert.
Qed.

(** ** The theorems *)

Lemma ql_new_represents f : represents (new f) [].
Proof. exists []. split; [constructor|done]. Qed.

Lemma from_values_represents f vs : exists ql, from_values f vs = Some ql /\ represents ql vs.
Proof.
  unfold from_values.
  assert (forall ql us, represents ql us -> exists ql', foldl (fun ql v => ql ← ql; fst <$> push_tail v ql) (Some ql) vs = Some ql' /\ represents ql' (us ++ vs)) as Hg.
  { induction vs as [|v vs IH]; intros ql us HR; [exists ql; by rewrite app_nil_r|]. cbn [foldl mbind option_bind].
    destruct (push_tail_spec v ql us HR) as (ql1 & b & -> & HR1). cbn [fmap option_fmap option_map fst]. destruct (IH ql1 _ HR1) as (ql2 & E & HR2).
    exists ql2. split; [done|]. by rewrite <-app_assoc in HR2. }
  apply (Hg (new f) []), ql_new_represents.
Qed.

(** Both ends of the list: a push adds a value and never fails, the ends
    are read without a copy, and a pop takes the value pushed, as text, off. *)
Theorem quicklist_ends `{ItoaLaws} (ql : Quicklist) (vs : list bytes) :
  represents ql vs ->
  (forall v, exists ql' b, push_head v ql = Some (ql', b) /\ represents ql' (v :: vs)) /\
  (forall v, exists ql' b, push_tail v ql = Some (ql', b) /\ represents ql' (vs ++ [v])) /\
  head ql = stored <$> list.head vs /\ tail ql = stored <$> list.last vs /\
  (exists ql', pop_head ql = Some (ql', list.head vs) /\ represents ql' (list.tail vs)) /\
  (exists ql', pop_tail ql = Some (ql', list.last vs) /\ represents ql' (take (length vs - 1) vs)).
Proof.
  intros HR. pose proof (head_spec ql vs HR) as Eh. pose proof (tail_spec ql vs HR) as Et.
  destruct (drop_head_spec ql vs HR) as (qh & Dh & Rh), (drop_tail_spec ql vs HR) as (qt & Dt & Rt).
  split; [intros; by apply push_head_spec|]. split; [intros; by apply push_tail_spec|]. split; [done|]. split; [done|]. unfold pop_head, pop_tail. rewrite Eh, Et. split.
  - destruct vs as [|v vs]; [by exists ql|]. cbn [list.head fmap option_fmap option_map]. rewrite Dh. cbn [mbind option_bind]. rewrite stored_text. by exists qh.
  - destruct (list.last vs) as [v|] eqn:El; cbn [fmap option_fmap option_map].
    + rewrite Dt. cbn [mbind option_bind]. rewrite stored_text. by exists qt.
    + apply last_None in El as ->. by exists ql.
Qed.

(** Whatever the nodes, a quicklist reads as the list of its values: by an
    index from either end, by iteration from anywhere and backwards, and by
    the first and the last position of a value. *)
Theorem quicklist_reads (ql : Quicklist) (vs : list bytes) :
  represents ql vs ->
  len ql = length vs /\ is_empty ql = bool_decide (vs = []) /\ iter ql = stored <$> vs /\ iter_rev ql = stored <$> rev vs /\
  (forall i, index i ql = k ← index_of (length vs) i; stored <$> vs !! k) /\
  (forall i, iter_from i ql = match index_of (length vs) i with Some k => stored <$> drop k vs | None => [] end) /\
  (forall v, position v ql = first_index v vs /\ rposition v ql = (fun k => length vs - 1 - k) <$> first_index v (rev vs)).
Proof.
  intros HR. pose proof HR as (_ & _ & _ & Hc). split_and!.
  - done.
  - unfold is_empty. rewrite Hc. apply bool_decide_ext. split; [apply nil_length_inv|by intros ->].
  - by apply ql_iter_spec.
  - by apply ql_iter_rev_spec.
  - intros. by apply index_spec.
  - intros. by apply ql_iter_from_spec.
  - intros v. unfold position, rposition. by rewrite (ql_iter_spec ql vs HR), (ql_iter_rev_spec ql vs HR), !position_in_spec, Hc.
Qed.

(** C27: An insertion before or after an index puts the value there, whether it
    goes into a node, a neighbour or a split, and is refused exactly out of
    range. *)
Theorem quicklist_inserts (ql : Quicklist) (vs : list bytes) (i : Z) (v : bytes) :
  represents ql vs ->
  match index_of (length vs) i with
  | Some k =>
      (exists ql', insert_before i v ql = Some (ql', true) /\ represents ql' (take k vs ++ v :: drop k vs)) /\
      (exists ql', insert_after i v ql = Some (ql', true) /\ represents ql' (take (k + 1) vs ++ v :: drop (k + 1) vs))
  | None => insert_before i v ql = Some (ql, false) /\ insert_after i v ql = Some (ql, false)
  end.
Proof.
  intros HR. pose proof HR as (_ & _ & _ & Hc). unfold insert_before, insert_after. rewrite normalize_spec, Hc.
  destruct (index_of (length vs) i) as [k|]; [|done]. split; by apply insert_at_spec.
Qed.

(** C28: A range deletion, which may span nodes, removes exactly the range and
    says how many values went; a removal by value keeps the contract of LREM,
    from either end and for all. *)
Theorem quicklist_deletes (ql : Quicklist) (vs : list bytes) :
  represents ql vs ->
  (forall start n, exists ql',
     Quicklist.delete_range start n ql = Some (ql', match index_of (length vs) start with Some i => n `min` (length vs - i) | None => 0 end) /\
     represents ql' (match index_of (length vs) start with Some i => take i vs ++ drop (i + n) vs | None => vs end)) /\
  ((Z.of_nat (length vs) < 2 ^ 64)%Z -> forall n v, exists ql',
     remove_value v n ql = Some (ql', length vs - length (lrem n v vs)) /\ represents ql' (lrem n v vs)).
Proof. intros HR. split; [intros; by apply delete_range_spec|intros; by apply remove_value_spec]. Qed.

(** LSET replaces the value at the index, also across the boundary between
    packed and plain nodes; out of range nothing changes, and in range it is
    done whenever the packed nodes have room. *)
Theorem quicklist_set (ql : Quicklist) (vs : list bytes) (i : Z) (v : bytes) :
  represents ql vs ->
  match index_of (length vs) i with
  | Some k => exists ql' ok, set i v ql = Some (ql', ok) /\ represents ql' (if ok then <[k:=v]> vs else vs) /\ (roomy v ql -> ok = true)
  | None => set i v ql = Some (ql, false)
  end.
Proof.
  intros HR. destruct (index_of (length vs) i) as [k|] eqn:Hi; [by apply set_spec|].
  pose proof HR as (_ & _ & _ & Hc). unfold set. by rewrite normalize_spec, Hc, Hi.
Qed.

(** ** Concrete lists *)

Definition demo_values : list bytes := [bs "a"; bs "1"; bs "c"; bs "a"; bs "e"].

Lemma demo_represents : exists ql, from_values 2 demo_values = Some ql /\ represents ql demo_values.
Proof. apply from_values_represents. Qed.

Lemma quicklist_ends_witness : exists ql ql', from_values 2 demo_values = Some ql /\ @pop_tail itoa_model ql = Some (ql', Some (bs "e")) /\
  represents ql' [bs "a"; bs "1"; bs "c"; bs "a"].
Proof.
  destruct demo_represents as (ql & E & HR). destruct (@quicklist_ends itoa_model itoa_model_laws ql demo_values HR) as (_ & _ & _ & _ & _ & ql' & E' & HR').
  exists ql, ql'. split; [exact E|]. split; [exact E'|exact HR'].
Defined.

Lemma quicklist_reads_witness : exists ql, from_values 2 demo_values = Some ql /\ index (-4) ql = Some (Int 1) /\ rposition (bs "a") ql = Some 3.
Proof.
  destruct demo_represents as (ql & E & HR). destruct (quicklist_reads ql demo_values HR) as (_ & _ & _ & _ & Hi & _ & Hp).
  exists ql. split; [exact E|]. split; [exact (Hi (-4)%Z)|exact (proj2 (Hp (bs "a")))].
Defined.

Lemma quicklist_inserts_witness : exists ql ql', from_values 2 demo_values = Some ql /\ insert_before 1 (bs "x") ql = Some (ql', true) /\
  represents ql' [bs "a"; bs "x"; bs "1"; bs "c"; bs "a"; bs "e"].
Proof.
  destruct demo_represents as (ql & E & HR). destruct (proj1 (quicklist_inserts ql demo_values 1 (bs "x") HR)) as (ql' & E' & HR').
  exists ql, ql'. split; [exact E|]. split; [exact E'|exact HR'].
Defined.

Lemma quicklist_deletes_witness : exists ql ql', from_values 2 demo_values = Some ql /\ Quicklist.delete_range (-4) 3 ql = Some (ql', 3) /\ represents ql' [bs "a"; bs "e"].
Proof.
  destruct demo_represents as (ql & E & HR). destruct (proj1 (quicklist_deletes ql demo_values HR) (-4)%Z 3) as (ql' & E' & HR').
  exists ql, ql'. split; [exact E|]. split; [exact E'|exact HR'].
Defined.

Lemma quicklist_set_witness : exists ql ql', from_values 2 demo_values = Some ql /\ set 2 (bs "z") ql = Some (ql', true) /\
  represents ql' [bs "a"; bs "1"; bs "z"; bs "a"; bs "e"].
Proof.
  destruct demo_represents as (ql & E & HR). destruct (quicklist_set ql demo_values 2 (bs "z") HR) as (ql' & ok & E' & HR' & Hok).
  exists ql, ql'. split; [exact E|]. assert (ok = true) as ->; [apply Hok|split; [exact E'|exact HR']].
  intros n lp Hn Hd. vm_compute in E. injection E as <-.
  repeat (apply elem_of_cons in Hn as [->|Hn]; [injection Hd as <-; vm_compute; discriminate|]). by apply elem_of_nil in Hn.
Defined.
