(* ===== verification/Rax.v ===== *)
(** * Rax: a compressed radix tree in an arena ([src/encoding/rax.rs])

    The arena of the source, index for index; an index out of bounds, a panic,
    is [None].  Stacks have their top first.  A walk down a key consumes a byte
    of it at each step, so the length of the key and one more is enough fuel;
    the other loops have the size of the arena. *)
From S2P Require Import Prelude Skiplist.
Open Scope nat_scope.

Definition ROOT : N := 0.

Inductive Seek := Ge | Gt | Le | Lt.

Section rax.
Context {V : Type}.

Record RNode := { chars : bytes; children : list N; compressed : bool; value : option V }.
Definition leaf : RNode := {| chars := []; children := []; compressed := false; value := None |}.

(** [node] is the node descended from, [child] the index taken, [klen] the
    length of the key before. *)
Record Frame := { fnode : N; child : nat; klen : nat }.

Record Rax := { rnodes : list RNode; rfree : list N; numele : nat }.

Definition new : Rax := {| rnodes := [leaf]; rfree := []; numele := 0 |}.
Definition len (r : Rax) : nat := numele r.
Definition is_empty (r : Rax) : bool := bool_decide (numele r = 0).
Definition node_count (r : Rax) : nat := length (rnodes r) - length (rfree r).
Definition clear (_ : Rax) : Rax := {| rnodes := [leaf]; rfree := []; numele := 0 |}.

Definition set_nodes (ns : list RNode) (r : Rax) : Rax := {| rnodes := ns; rfree := rfree r; numele := numele r |}.
Definition set_free (f : list N) (r : Rax) : Rax := {| rnodes := rnodes r; rfree := f; numele := numele r |}.
Definition set_numele (n : nat) (r : Rax) : Rax := {| rnodes := rnodes r; rfree := rfree r; numele := n |}.

Definition node (i : N) (r : Rax) : option RNode := rnodes r !! N.to_nat i.
(** Assignments through [node_mut], or to [self.nodes[i]]. *)
Definition node_mut (i : N) (f : RNode -> RNode) (r : Rax) : option Rax :=
  n ← node i r; Some (set_nodes (<[N.to_nat i:=f n]> (rnodes r)) r).
Definition set_value (v : option V) (n : RNode) : RNode :=
  {| chars := chars n; children := children n; compressed := compressed n; value := v |}.
Definition set_edges (cs : bytes) (ks : list N) (b : bool) (n : RNode) : RNode :=
  {| chars := cs; children := ks; compressed := b; value := value n |}.

Definition alloc (n : RNode) (r : Rax) : option (Rax * N) :=
  match rfree r with
  | i :: f => r ← node_mut i (fun _ => n) (set_free f r); Some (r, i)
  | [] => Some (set_nodes (rnodes r ++ [n]) r, Z.to_N (wrapu 32 (Z.of_nat (length (rnodes r)))))
  end.
Definition release (i : N) (r : Rax) : option Rax := r ← node_mut i (fun _ => leaf) r; Some (set_free (i :: rfree r) r).

Definition labelled (label : bytes) (c : N) (r : Rax) : option (Rax * N) :=
  alloc {| chars := label; children := [c]; compressed := bool_decide (1 < length label); value := None |} r.

(** How many bytes of the label the key goes on with. *)
Fixpoint matched (lab key : bytes) : nat :=
  match lab, key with
  | a :: lab, b :: key => if decide (a = b) then S (matched lab key) else 0
  | _, _ => 0
  end.

(** [partition_point] and [binary_search] of a sorted slice. *)
Fixpoint partition_point (p : byte -> bool) (l : bytes) : nat :=
  match l with [] => 0 | c :: l => if p c then S (partition_point p l) else 0 end.
Definition binary_search (c : byte) (l : bytes) : nat + nat :=
  let j := partition_point (fun x => bool_decide (b2z x < b2z c)%Z) l in
  if decide (l !! j = Some c) then inl j else inr j.

(** ** Lookup *)

(** The node, the bytes consumed, the bytes matched inside its label, and the
    path. *)
Fixpoint walk_loop (fuel : nat) (key : bytes) (cur : N) (i : nat) (stack : list Frame) (r : Rax) : option (N * nat * nat * list Frame) :=
  match fuel with
  | O => None
  | S fuel =>
      n ← node cur r;
      if bool_decide (children n = []) || bool_decide (i = length key) then Some (cur, i, 0, stack)
      else if compressed n then
        let lab := chars n in
        let j := matched lab (drop i key) in
        if decide (j <> length lab) then Some (cur, i + j, j, stack)
        else
          c ← children n !! 0;
          walk_loop fuel key c (i + length lab) ({| fnode := cur; child := 0; klen := i |} :: stack) r
      else
        b ← key !! i;
        match binary_search b (chars n) with
        | inr _ => Some (cur, i, 0, stack)
        | inl j => c ← children n !! j; walk_loop fuel key c (i + 1) ({| fnode := cur; child := j; klen := i |} :: stack) r
        end
  end.
Definition walk (key : bytes) (r : Rax) : option (N * nat * nat * list Frame) := walk_loop (S (length key)) key ROOT 0 [] r.

Definition find (key : bytes) (r : Rax) : option (option V) :=
  '(n, consumed, split, _) ← walk key r;
  if decide (consumed <> length key \/ split <> 0) then Some None else value <$> node n r.
Definition contains_key (key : bytes) (r : Rax) : option bool := o ← find key r; Some (bool_decide (is_Some o)).
(** [find_mut]: the value is changed in place by the caller. *)
Definition find_mut (key : bytes) (f : V -> V) (r : Rax) : option Rax :=
  '(n, consumed, split, _) ← walk key r;
  if decide (consumed <> length key \/ split <> 0) then Some r else node_mut n (fun nd => set_value (f <$> value nd) nd) r.

(** ** Insertion *)

Definition split_compressed (nd : N) (m : nat) (r : Rax) : option (Rax * N) :=
  n ← node nd r;
  let label := chars n in
  c ← children n !! 0;
  '(r, tail) ← (if decide (m + 1 < length label) then labelled (drop (m + 1) label) c r else Some (r, c));
  if decide (m = 0) then
    r ← node_mut nd (set_edges (take 1 label) [tail] false) r; Some (r, nd)
  else
    '(r, mid) ← alloc {| chars := take 1 (drop m label); children := [tail]; compressed := false; value := None |} r;
    r ← node_mut nd (set_edges (take m label) [mid] (bool_decide (1 < m))) r; Some (r, mid).

(** The loop of [insert]: the node the key is to be set at or continued from,
    and the bytes consumed. *)
Fixpoint insert_descend (fuel : nat) (key : bytes) (cur : N) (i : nat) (r : Rax) : option (Rax * N * nat) :=
  match fuel with
  | O => None
  | S fuel =>
      if decide (i = length key) then Some (r, cur, i)
      else
        n ← node cur r;
        if decide (children n = []) then Some (r, cur, i)
        else if compressed n then
          let m := matched (chars n) (drop i key) in
          if decide (m = length (chars n)) then c ← children n !! 0; insert_descend fuel key c (i + m) r
          else '(r, cur) ← split_compressed cur m r; Some (r, cur, i + m)
        else
          b ← key !! i;
          match binary_search b (chars n) with
          | inr _ => Some (r, cur, i)
          | inl j => c ← children n !! j; insert_descend fuel key c (i + 1) r
          end
  end.

(** The key goes on below [cur] with [rest]. *)
Definition extend (cur : N) (rest : bytes) (v : V) (r : Rax) : option Rax :=
  '(r, lf) ← alloc leaf r;
  n ← node cur r;
  r ← (if bool_decide (children n = []) && bool_decide (1 < length rest) then node_mut cur (set_edges rest [lf] true) r
       else
         first ← rest !! 0;
         '(r, c) ← (if decide (1 < length rest) then labelled (drop 1 rest) lf r else Some (r, lf));
         n ← node cur r;
         let at_ := partition_point (fun c => bool_decide (b2z c < b2z first)%Z) (chars n) in
         node_mut cur (set_edges (take at_ (chars n) ++ first :: drop at_ (chars n)) (take at_ (children n) ++ c :: drop at_ (children n)) false) r);
  r ← node_mut lf (set_value (Some v)) r;
  Some (set_numele (numele r + 1) r).

Definition insert (key : bytes) (v : V) (r : Rax) : option (Rax * option V) :=
  '(r, cur, i) ← insert_descend (S (length key)) key ROOT 0 r;
  if decide (i = length key) then
    old ← value <$> node cur r;
    r ← node_mut cur (set_value (Some v)) r;
    Some (match old with None => set_numele (numele r + 1) r | Some _ => r end, old)
  else r ← extend cur (drop i key) v r; Some (r, None).

(** ** Removal *)

(** Gives up the dead leaves from [nd] up: the last node kept, and its path. *)
Fixpoint prune (nd : N) (stack : list Frame) (r : Rax) : option (Rax * N * list Frame) :=
  n ← node nd r;
  if bool_decide (nd <> ROOT) && bool_decide (children n = []) && negb (bool_decide (is_Some (value n))) then
    match stack with
    | [] => Some (r, nd, [])
    | f :: stack =>
        p ← node (fnode f) r;
        _ ← chars p !! child f; _ ← children p !! child f;
        let cs := take (child f) (chars p) ++ drop (child f + 1) (chars p) in
        let ks := take (child f) (children p) ++ drop (child f + 1) (children p) in
        r ← node_mut (fnode f) (set_edges (if compressed p then [] else cs) ks false) r;
        r ← release nd r;
        prune (fnode f) stack r
    end
  else Some (r, nd, stack).

Fixpoint try_merge_loop (fuel : nat) (nd : N) (r : Rax) : option Rax :=
  match fuel with
  | O => None
  | S fuel =>
      n ← node nd r;
      match children n with
      | [c] =>
          cn ← node c r;
          match value cn, children cn with
          | None, [cc] =>
              let cs := chars n ++ chars cn in
              r ← node_mut nd (set_edges cs [cc] (bool_decide (1 < length cs))) r;
              r ← release c r;
              try_merge_loop fuel nd r
          | _, _ => Some r
          end
      | _ => Some r
      end
  end.
Definition try_merge (nd : N) (r : Rax) : option Rax := try_merge_loop (S (length (rnodes r))) nd r.

Fixpoint merge_up (stack : list Frame) (r : Rax) : option Rax :=
  match stack with [] => Some r | f :: stack => r ← try_merge (fnode f) r; merge_up stack r end.

Definition remove (key : bytes) (r : Rax) : option (Rax * option V) :=
  '(cur, consumed, split, stack) ← walk key r;
  if decide (consumed <> length key \/ split <> 0) then Some (r, None)
  else
    old ← value <$> node cur r;
    match old with
    | None => Some (r, None)
    | Some v =>
        r ← node_mut cur (set_value None) r;
        '(r, nd, stack) ← prune cur stack (set_numele (numele r - 1) r);
        r ← try_merge nd r;
        r ← merge_up stack r;
        Some (r, Some v)
    end.

(** ** The cursor *)

Record RaxIter := { ikey : bytes; istack : list Frame; icur : N; pending : bool; eof : bool; forward : bool }.

Definition iter_new : RaxIter := {| ikey := []; istack := []; icur := ROOT; pending := false; eof := true; forward := true |}.
Definition set_pos (k : bytes) (st : list Frame) (c : N) (it : RaxIter) : RaxIter :=
  {| ikey := k; istack := st; icur := c; pending := pending it; eof := eof it; forward := forward it |}.
Definition set_flags (p e : bool) (it : RaxIter) : RaxIter :=
  {| ikey := ikey it; istack := istack it; icur := icur it; pending := p; eof := e; forward := forward it |}.
Definition set_forward (b : bool) (it : RaxIter) : RaxIter :=
  {| ikey := ikey it; istack := istack it; icur := icur it; pending := pending it; eof := eof it; forward := b |}.

Definition descend (i : nat) (r : Rax) (it : RaxIter) : option RaxIter :=
  n ← node (icur it) r;
  let st := {| fnode := icur it; child := i; klen := length (ikey it) |} :: istack it in
  let k := if compressed n then ikey it ++ chars n else match chars n !! i with Some c => ikey it ++ [c] | None => ikey it end in
  c ← children n !! i;
  Some (set_pos k st c it).

Definition ascend (it : RaxIter) : option (Frame * RaxIter) :=
  match istack it with [] => None | f :: st => Some (f, set_pos (take (klen f) (ikey it)) st (fnode f) it) end.

Fixpoint descend_rightmost (fuel : nat) (r : Rax) (it : RaxIter) : option RaxIter :=
  match fuel with
  | O => None
  | S fuel =>
      n ← node (icur it) r;
      match children n with [] => Some it | _ => it ← descend (length (children n) - 1) r it; descend_rightmost fuel r it end
  end.

(** The inner loop of [step_forward]: up to the first ancestor with a further
    child, and down to it; the stack is what is left to pop. *)
Fixpoint next_sibling (st : list Frame) (r : Rax) (it : RaxIter) : option (RaxIter * bool) :=
  match st with
  | [] => Some (it, false)
  | f :: st =>
      let it := set_pos (take (klen f) (ikey it)) st (fnode f) it in
      n ← node (icur it) r;
      if decide (child f + 1 < length (children n)) then it ← descend (child f + 1) r it; Some (it, true)
      else next_sibling st r it
  end.

Fixpoint step_forward (fuel : nat) (descend_first : bool) (r : Rax) (it : RaxIter) : option (RaxIter * bool) :=
  match fuel with
  | O => None
  | S fuel =>
      n ← node (icur it) r;
      '(it, moved) ← (if descend_first && negb (bool_decide (children n = [])) then it ← descend 0 r it; Some (it, true)
                      else next_sibling (istack it) r it);
      if negb moved then Some (it, false)
      else n ← node (icur it) r; if bool_decide (is_Some (value n)) then Some (it, true) else step_forward fuel true r it
  end.

Fixpoint step_backward_loop (fuel : nat) (r : Rax) (it : RaxIter) : option (RaxIter * bool) :=
  match fuel with
  | O => None
  | S fuel =>
      match ascend it with
      | None => Some (it, false)
      | Some (f, it) =>
          if decide (0 < child f) then
            it ← descend (child f - 1) r it;
            it ← descend_rightmost (S (length (rnodes r))) r it;
            n ← node (icur it) r;
            if bool_decide (is_Some (value n)) then Some (it, true) else step_backward_loop fuel r it
          else
            n ← node (icur it) r;
            if bool_decide (is_Some (value n)) then Some (it, true) else step_backward_loop fuel r it
      end
  end.
Definition step_backward (check_self : bool) (r : Rax) (it : RaxIter) : option (RaxIter * bool) :=
  n ← node (icur it) r;
  if check_self && bool_decide (is_Some (value n)) then Some (it, true)
  else step_backward_loop (S (length (rnodes r))) r it.

Definition forward_step (d : bool) (r : Rax) (it : RaxIter) : option (RaxIter * bool) := step_forward (S (length (rnodes r))) d r it.

Definition next (r : Rax) (it : RaxIter) : option (RaxIter * option (bytes * V)) :=
  if eof it then Some (it, None)
  else
    '(it, ok) ← (if pending it then Some (set_flags false (eof it) it, true)
                 else if forward it then forward_step true r it else step_backward false r it);
    if negb ok then Some (set_flags (pending it) true it, None)
    else n ← node (icur it) r; Some (it, (fun v => (ikey it, v)) <$> value n).

(** What [collect_pairs] collects. *)
Fixpoint collect_pairs (fuel : nat) (r : Rax) (it : RaxIter) : option (list (bytes * V)) :=
  match fuel with
  | O => None
  | S fuel =>
      '(it, o) ← next r it;
      match o with Some p => out ← collect_pairs fuel r it; Some (p :: out) | None => Some [] end
  end.

(** ** Positioning *)

Definition reset (it : RaxIter) : RaxIter :=
  {| ikey := []; istack := []; icur := ROOT; pending := false; eof := false; forward := forward it |}.
Definition settle (p : RaxIter * bool) : RaxIter := if p.2 then set_flags true (eof p.1) p.1 else set_flags (pending p.1) true p.1.

Definition start_first (r : Rax) (it : RaxIter) : option RaxIter :=
  let it := set_forward true (reset it) in
  n ← node ROOT r;
  if bool_decide (is_Some (value n)) then Some (set_flags true (eof it) it)
  else settle <$> forward_step true r it.
Definition start_last (r : Rax) (it : RaxIter) : option RaxIter :=
  let it := set_forward false (reset it) in
  it ← descend_rightmost (S (length (rnodes r))) r it;
  settle <$> step_backward true r it.

Inductive Outcome := AtTarget | Below | Diverge (above below : option nat).

Fixpoint seek_walk (fuel : nat) (target : bytes) (i : nat) (r : Rax) (it : RaxIter) : option (RaxIter * Outcome) :=
  match fuel with
  | O => None
  | S fuel =>
      n ← node (icur it) r;
      if decide (i = length target) then Some (it, AtTarget)
      else if decide (children n = []) then Some (it, Below)
      else if compressed n then
        let lab := chars n in
        let m := matched lab (drop i target) in
        if decide (m = length lab) then it ← descend 0 r it; seek_walk fuel target (i + m) r it
        else
          above ← (if decide (i + m = length target) then Some true
                   else a ← lab !! m; b ← target !! (i + m); Some (bool_decide (b2z b < b2z a)%Z));
          Some (it, if above : bool then Diverge (Some 0) None else Diverge None (Some 0))
      else
        b ← target !! i;
        match binary_search b (chars n) with
        | inl j => it ← descend j r it; seek_walk fuel target (i + 1) r it
        | inr j => Some (it, Diverge (if decide (j < length (children n)) then Some j else None) (match j with O => None | S j => Some j end))
        end
  end.

Definition is_forward (op : Seek) : bool := match op with Ge | Gt => true | Le | Lt => false end.

Definition seek_found (op : Seek) (o : Outcome) (r : Rax) (it : RaxIter) : option (RaxIter * bool) :=
  n ← node (icur it) r;
  let has := bool_decide (is_Some (value n)) in
  match is_forward op, o with
  | true, AtTarget => if (match op with Ge => true | _ => false end) && has then Some (it, true) else forward_step true r it
  | true, Below => forward_step false r it
  | true, Diverge (Some j) _ =>
      it ← descend j r it;
      n ← node (icur it) r;
      if bool_decide (is_Some (value n)) then Some (it, true) else forward_step true r it
  | true, Diverge None _ => forward_step false r it
  | false, AtTarget => if (match op with Le => true | _ => false end) && has then Some (it, true) else step_backward false r it
  | false, Below => step_backward true r it
  | false, Diverge _ (Some j) =>
      it ← descend j r it;
      it ← descend_rightmost (S (length (rnodes r))) r it;
      step_backward true r it
  | false, Diverge _ None => step_backward true r it
  end.

Definition do_seek (op : Seek) (target : bytes) (r : Rax) (it : RaxIter) : option RaxIter :=
  '(it, o) ← seek_walk (S (length target)) target 0 r (reset it);
  '(it, found) ← seek_found op o r it;
  Some (if found : bool then set_flags true false it else set_flags (pending it) true it).

Definition iter (r : Rax) : option RaxIter := start_first r iter_new.
Definition iter_rev (r : Rax) : option RaxIter := start_last r iter_new.
Definition seek (op : Seek) (key : bytes) (r : Rax) : option RaxIter := set_forward true <$> do_seek op key r iter_new.
Definition seek_rev (op : Seek) (key : bytes) (r : Rax) : option RaxIter := set_forward false <$> do_seek op key r iter_new.
Definition first (r : Rax) : option (option (bytes * V)) := it ← iter r; '(_, o) ← next r it; Some o.
Definition last (r : Rax) : option (option (bytes * V)) := it ← iter_rev r; '(_, o) ← next r it; Some o.

(** All the pairs a cursor yields; one round more than there are keys. *)
Definition collect (r : Rax) (it : option RaxIter) : option (list (bytes * V)) := it ← it; collect_pairs (S (numele r)) r it.
End rax.
Arguments RNode : clear implicits.
Arguments Rax : clear implicits.

Definition rax_of (kvs : list (bytes * Z)) : option (Rax Z) := foldl (fun r '(k, v) => r ← r; fst <$> insert k v r) (Some new) kvs.

Definition demo : option (Rax Z) := rax_of [(bs "foobar", 1); (bs "footer", 2); (bs "foo", 3); (bs "f", 4)]%Z.

Example rax_demo :
  (r ← demo; l ← collect r (iter r); l' ← collect r (iter_rev r); Some (map snd l, map snd l')) = Some ([4; 3; 1; 2], [2; 1; 3; 4])%Z /\
  (r ← demo; l ← collect r (seek Gt (bs "foob") r); l' ← collect r (seek_rev Le (bs "footb") r); Some (map snd l, map snd l')) = Some ([1; 2], [1; 3; 4])%Z /\
  (r ← demo; '(r, o) ← remove (bs "foo") r; '(r, _) ← remove (bs "f") r; v ← find (bs "footer") r; Some (o, v)) = Some (Some 3, Some 2)%Z /\
  (r ← demo; '(r', _) ← remove (bs "foo") r; '(r', _) ← remove (bs "f") r'; Some (node_count r, node_count r')) = Some (8, 6).
Proof. split_and!; vm_compute; reflexivity. Qed.
