(* ===== verification/RaxFacts.v ===== *)
(** * The tree in the arena

    A rax is a tree of labelled edges laid out in the arena: every node where
    its index says, no index twice.  What an allocation, a release and a change
    of one node leave of it. *)
From S2P Require Import Prelude Skiplist SkiplistOrder Rax.
Open Scope nat_scope.

Section tree.
Context {V : Type}.
Implicit Types (r : Rax V) (k lab : bytes) (v : option V).

(** ** Trees *)

Inductive tree := Tree (id : N) (v : option V) (es : list (bytes * tree)).
Implicit Types (t s : tree) (es : list (bytes * tree)).

Definition root t : N := match t with Tree i _ _ => i end.
Definition val t : option V := match t with Tree _ v _ => v end.
Definition edges t : list (bytes * tree) := match t with Tree _ _ es => es end.

Fixpoint tree_rect_edges (P : tree -> Prop) (H : forall i v es, Forall (fun e => P e.2) es -> P (Tree i v es)) (t : tree) : P t :=
  match t with
  | Tree i v es => H i v es ((fix go es : Forall (fun e => P e.2) es :=
      match es with [] => List.Forall_nil _ | e :: es => List.Forall_cons _ _ _ (tree_rect_edges P H e.2) (go es) end) es)
  end.

(** The subtrees, and the indices they take. *)
Fixpoint subs t : list tree := t :: match t with Tree _ _ es => concat (map (fun e => subs e.2) es) end.
Definition kids_subs es : list tree := concat (map (fun e => subs e.2) es).
Definition ids t : list N := root <$> subs t.
Definition kids_ids es : list N := root <$> kids_subs es.

Lemma subs_eq i v es : subs (Tree i v es) = Tree i v es :: kids_subs es.
Proof. done. Qed.
Lemma ids_eq i v es : ids (Tree i v es) = i :: kids_ids es.
Proof. done. Qed.
Lemma kids_cons e es : kids_ids (e :: es) = ids e.2 ++ kids_ids es.
Proof. unfold kids_ids, kids_subs, ids. cbn [map concat]. by rewrite fmap_app. Qed.
Lemma kids_nil : kids_ids [] = [].
Proof. done. Qed.
Lemma ids_one i v lab s : ids (Tree i v [(lab, s)]) = i :: ids s.
Proof. by rewrite ids_eq, kids_cons, kids_nil, app_nil_r. Qed.
Lemma kids_app es es' : kids_ids (es ++ es') = kids_ids es ++ kids_ids es'.
Proof. induction es as [|e es IH]; [done|]. cbn [app]. by rewrite !kids_cons, IH, app_assoc. Qed.

Lemma kids_elem e es j : e ∈ es -> j ∈ ids e.2 -> j ∈ kids_ids es.
Proof. intros He Hj. apply list_elem_of_In, in_split in He as (l1 & l2 & ->). rewrite kids_app, kids_cons. set_solver. Qed.

(** The node of the arena a tree starts with. *)
Definition node_of t : RNode V :=
  {| chars := concat (fst <$> edges t); children := (fun e => root e.2) <$> edges t;
     compressed := match edges t with [(lab, _)] => bool_decide (1 < length lab) | _ => false end; value := val t |}.

(** ** Well-formed trees *)

Definition fb (l : bytes) : Z := match l with b :: _ => b2z b | [] => (-1)%Z end.

(** A single edge with any label, or edges of one byte, in order. *)
Record wf_edges es : Prop := {
  wf_nonempty : Forall (fun e => e.1 <> []) es;
  wf_single : length es <= 1 \/ Forall (fun e => length e.1 = 1) es;
  wf_sorted : forall i j a b, es !! i = Some a -> es !! j = Some b -> i < j -> (fb a.1 < fb b.1)%Z
}.

(** Below the root a leaf has a value. *)
Definition alive t : Prop := is_Some (val t) \/ edges t <> [].
Inductive wf : tree -> Prop :=
  wf_intro i v es : wf_edges es -> Forall (fun e => alive e.2 /\ wf e.2) es -> wf (Tree i v es).

Lemma wf_inv t : wf t -> wf_edges (edges t) /\ Forall (fun e => alive e.2 /\ wf e.2) (edges t).
Proof. by intros [????]. Qed.

Lemma wf_kid t j lab s : wf t -> edges t !! j = Some (lab, s) -> alive s /\ wf s /\ lab <> [].
Proof.
  intros [Hes Hk]%wf_inv He. rewrite Forall_forall in Hk.
  pose proof (wf_nonempty _ Hes) as Hn. rewrite Forall_forall in Hn. apply list_elem_of_lookup_2 in He. destruct (Hk _ He). pose proof (Hn _ He). done.
Qed.

(** ** What a tree maps *)

Fixpoint strip (lab k : bytes) : option bytes :=
  match lab, k with [], _ => Some k | a :: lab, b :: k => if decide (a = b) then strip lab k else None | _ :: _, [] => None end.

Fixpoint look t (k : bytes) : option V :=
  match t with
  | Tree _ v es =>
      match k with
      | [] => v
      | _ => (fix go es := match es with [] => None | (lab, s) :: es => match strip lab k with Some k' => look s k' | None => go es end end) es
      end
  end.

Lemma strip_app lab k : strip lab (lab ++ k) = Some k.
Proof. induction lab as [|a lab IH]; [done|]. cbn. by rewrite decide_True. Qed.

Lemma strip_Some lab k k' : strip lab k = Some k' <-> k = lab ++ k'.
Proof.
  split; [|intros ->; apply strip_app]. revert k. induction lab as [|a lab IH]; intros k; cbn; [by intros [= ->]|].
  destruct k as [|b k]; [done|]. case_decide; [|done]. subst. intros H. by rewrite (IH k H).
Qed.

Lemma look_nil t : look t [] = val t.
Proof. by destruct t. Qed.

(** The value of a key is below the one edge that starts it, if there is one. *)
Definition look_kids es k : option V :=
  (fix go es := match es with [] => None | (lab, s) :: es => match strip lab k with Some k' => look s k' | None => go es end end) es.

Lemma look_kids_eq t k : k <> [] -> look t k = look_kids (edges t) k.
Proof. destruct t, k; done. Qed.

Lemma fb_app lab k : lab <> [] -> fb (lab ++ k) = fb lab.
Proof. by destruct lab. Qed.

Lemma look_kids_at es j lab s k : wf_edges es -> es !! j = Some (lab, s) -> look_kids es (lab ++ k) = look s k.
Proof.
  intros Hw Hj. pose proof (wf_nonempty _ Hw) as Hn. pose proof (wf_sorted _ Hw) as Hs. clear Hw. rewrite Forall_forall in Hn.
  pose proof (Hn _ (list_elem_of_lookup_2 _ _ _ Hj)) as Hl. cbn in Hl.
  revert j Hj Hn Hs. induction es as [|[lab0 s0] es IH]; intros j Hj Hn Hs; [done|]. cbn [look_kids].
  destruct j as [|j]; [injection Hj as -> ->; by rewrite strip_app|].
  destruct (strip lab0 (lab ++ k)) as [k'|] eqn:E.
  - apply strip_Some in E. pose proof (Hs 0 (S j) _ _ eq_refl Hj ltac:(lia)) as Hlt. cbn in Hlt.
    assert (lab0 <> []) as Hl0 by (apply (Hn (lab0, s0)); by left). apply (f_equal fb) in E. rewrite !fb_app in E by done. lia.
  - apply (IH j Hj); [intros x Hx; apply Hn; by right|]. intros i i' a b Ha Hb Hi. by apply (Hs (S i) (S i') a b); [..|lia].
Qed.

Lemma look_kids_none es k : (forall j lab s, es !! j = Some (lab, s) -> strip lab k = None) -> look_kids es k = None.
Proof.
  induction es as [|[lab s] es IH]; intros H; [done|]. cbn [look_kids]. rewrite (H 0 lab s eq_refl). apply IH. intros j. apply (H (S j)).
Qed.

Lemma look_kids_Some es k x : look_kids es k = Some x -> exists j lab s k', es !! j = Some (lab, s) /\ k = lab ++ k' /\ look s k' = Some x.
Proof.
  induction es as [|[lab s] es IH]; [done|]. cbn [look_kids]. destruct (strip lab k) as [k'|] eqn:E.
  - intros H. apply strip_Some in E. by exists 0, lab, s, k'.
  - intros H. destruct (IH H) as (j & l & s' & k' & ? & ? & ?). by exists (S j), l, s', k'.
Qed.

(** ** The arena *)

Definition rep r t : Prop := forall s, s ∈ subs t -> node (root s) r = Some (node_of s).
(** The indices in use and the free ones are apart, in the arena, and all of
    it. *)
Definition own r (ix : list N) : Prop :=
  NoDup (ix ++ rfree r) /\ (forall i, i ∈ ix ++ rfree r -> N.to_nat i < length (rnodes r)) /\
  length (ix ++ rfree r) = length (rnodes r) /\ (Z.of_nat (length (rnodes r)) <= 2 ^ 32)%Z.

Lemma rep_eq r i v es : rep r (Tree i v es) <-> node i r = Some (node_of (Tree i v es)) /\ Forall (fun e => rep r e.2) es.
Proof.
  unfold rep. rewrite subs_eq, Forall_forall. split.
  - intros H. split; [apply (H (Tree i v es)); by left|]. intros e He s Hs. apply H. right. unfold kids_subs.
    apply list_elem_of_In, in_concat. exists (subs e.2). split; [apply in_map_iff; exists e; split; [done|by apply list_elem_of_In]|by apply list_elem_of_In].
  - intros [H0 H] s Hs. apply elem_of_cons in Hs as [->|Hs]; [done|]. unfold kids_subs in Hs. apply list_elem_of_In, in_concat in Hs as (l & Hl & Hs).
    apply in_map_iff in Hl as (e & <- & He). apply (H e); by apply list_elem_of_In.
Qed.

Lemma rep_node r t : rep r t -> node (root t) r = Some (node_of t).
Proof. destruct t. intros H. apply H. by left. Qed.

Lemma rep_kid r t j lab s : rep r t -> edges t !! j = Some (lab, s) -> rep r s.
Proof.
  destruct t as [i v es]. intros [_ H]%rep_eq He. rewrite Forall_forall in H. apply (H (lab, s)). by eapply list_elem_of_lookup_2.
Qed.

Lemma rep_ext r r' t : rep r t -> (forall i, i ∈ ids t -> node i r' = node i r) -> rep r' t.
Proof. intros H E s Hs. rewrite E by by apply list_elem_of_fmap_2. by apply H. Qed.

Lemma own_perm r ix ix' : ix ≡ₚ ix' -> own r ix -> own r ix'.
Proof. intros E (H1 & H2 & H3). unfold own. rewrite <-E. split; [done|]. split; [|done]. intros i Hi. apply H2. by rewrite E. Qed.

Lemma node_mut_spec i f n r : node i r = Some n ->
  exists r', node_mut i f r = Some r' /\ rfree r' = rfree r /\ numele r' = numele r /\ length (rnodes r') = length (rnodes r) /\
    forall j, node j r' = if decide (j = i) then Some (f n) else node j r.
Proof.
  intros Hn. unfold node_mut. rewrite Hn. cbn [mbind option_bind]. eexists. split; [done|]. cbn [rfree numele rnodes set_nodes]. rewrite length_insert. do 3 (split; [done|]).
  intros j. unfold node in *. cbn [rnodes set_nodes]. case_decide as E; [subst j; apply list_lookup_insert_eq; by eapply lookup_lt_Some|].
  rewrite list_lookup_insert_ne; [done|]. intros E'. by apply N2Nat.inj in E'.
Qed.

Lemma alloc_tree n r ix : own r ix -> (Z.of_nat (length (rnodes r)) < 2 ^ 32)%Z ->
  exists r' x, alloc n r = Some (r', x) /\ x ∉ ix /\ own r' (x :: ix) /\ numele r' = numele r /\ length (rnodes r') <= length (rnodes r) + 1 /\
    forall j, node j r' = if decide (j = x) then Some n else node j r.
Proof.
  intros (Hn & Ha & Hl & Hs) Hroom. unfold alloc. destruct (rfree r) as [|x f] eqn:Ef.
  - eexists _, _. split; [done|]. set (x := Z.to_N (wrapu 32 (Z.of_nat (length (rnodes r))))).
    assert (N.to_nat x = length (rnodes r)) as Hx by (unfold x; rewrite wrapu_small; [lia|done|split; cbn; lia]).
    rewrite app_nil_r in *. assert (x ∉ ix) as Hxi by (intros Hi; apply Ha in Hi; lia). split; [done|]. split; [|split; [done|]].
    + split; [cbn [rfree set_nodes]; rewrite Ef, app_nil_r; by constructor|]. cbn [rfree rnodes set_nodes]. rewrite Ef, app_nil_r, length_app. cbn [length]. split; [|lia].
      intros i Hi. apply elem_of_cons in Hi as [->|Hi]; [lia|]. apply Ha in Hi. lia.
    + cbn [rnodes set_nodes]. rewrite length_app. cbn [length]. split; [lia|]. intros j. unfold node. cbn [rnodes set_nodes]. case_decide as E.
      * subst j. by rewrite Hx, lookup_app_r, Nat.sub_diag by lia.
      * destruct (decide (N.to_nat j < length (rnodes r))); [by rewrite lookup_app_l|]. rewrite lookup_app_r by lia. rewrite (lookup_ge_None_2 (rnodes r)) by lia.
        apply lookup_ge_None. cbn. assert (N.to_nat j <> N.to_nat x) by (intros E'; by apply N2Nat.inj in E'). lia.
  - assert (exists m, node x (set_free f r) = Some m) as [m Hm] by (apply lookup_lt_is_Some_2, Ha, elem_of_app; right; by left).
    destruct (node_mut_spec x (fun _ => n) m (set_free f r) Hm) as (r' & -> & E1 & E2 & E3 & E4). cbn [mbind option_bind]. exists r', x. split; [done|].
    cbn [rfree numele rnodes set_free] in *. assert (ix ++ x :: f ≡ₚ x :: ix ++ f) as Hp by (by rewrite Permutation_middle). rewrite Hp in Hn. apply NoDup_cons in Hn as [Hx Hn].
    split; [intros Hi; apply Hx, elem_of_app; by left|]. split; [|split; [done|split; [lia|done]]].
    split; [rewrite E1; cbn [app]; by constructor|]. rewrite E1, E3. split; [|split; [|done]]; [intros i Hi; apply Ha; by rewrite Hp|]. rewrite <-Hl. by rewrite Hp.
Qed.

Lemma release_spec x n r ix : own r (x :: ix) -> node x r = Some n ->
  exists r', release x r = Some r' /\ own r' ix /\ numele r' = numele r /\ length (rnodes r') = length (rnodes r) /\
    forall j, j <> x -> node j r' = node j r.
Proof.
  intros (Hn & Ha & Hl & Hs) Hx. unfold release. destruct (node_mut_spec x (fun _ => leaf) n r Hx) as (r' & -> & E1 & E2 & E3 & E4). cbn [mbind option_bind].
  eexists. split; [done|]. assert ((x :: ix) ++ rfree r ≡ₚ ix ++ x :: rfree r) as Hp by (cbn [app]; apply Permutation_middle). split; [|split; [done|split; [done|]]].
  - unfold own. cbn [rfree rnodes set_free]. rewrite E1, E3. rewrite <-Hp. split; [done|]. split; [|done]. intros i Hi. apply Ha. by rewrite Hp.
  - intros j Hj. change (node j (set_free (x :: rfree r') r')) with (node j r'). by rewrite E4, decide_False.
Qed.
End tree.
Arguments tree : clear implicits.
