(* ===== verification/RaxWalk.v ===== *)
(** * Walking down a key

    How a label is matched, how an edge is searched, and where the walk of a
    key ends. *)
From S2P Require Import Prelude Skiplist SkiplistOrder Rax RaxFacts.
Open Scope nat_scope.

(** ** Labels and searches *)

Lemma matched_le lab k : matched lab k <= length lab /\ matched lab k <= length k.
Proof. revert k. induction lab as [|a lab IH]; intros [|b k]; cbn; [lia..|]. case_decide; cbn; [destruct (IH k); lia|lia]. Qed.

Lemma matched_take lab k : take (matched lab k) lab = take (matched lab k) k.
Proof. revert k. induction lab as [|a lab IH]; intros [|b k]; cbn; [done..|]. case_decide; [subst; cbn; by rewrite IH|done]. Qed.

(** Where the label and the key part. *)
Lemma matched_stop lab k : matched lab k < length lab ->
  (matched lab k = length k) \/ exists a b, lab !! matched lab k = Some a /\ k !! matched lab k = Some b /\ a <> b.
Proof.
  revert k. induction lab as [|a lab IH]; intros [|b k]; cbn; [lia|lia|by left|]. case_decide as E; [|intros _; right; by exists a, b].
  intros H. destruct (IH k) as [?|(x & y & ? & ? & ?)]; [lia|left; lia|right; by exists x, y].
Qed.

Lemma matched_all lab k : matched lab k = length lab -> k = lab ++ drop (length lab) k.
Proof. intros E. pose proof (matched_take lab k) as H. rewrite E, firstn_all in H. rewrite H at 1. by rewrite take_drop. Qed.

Lemma matched_app lab k : matched lab (lab ++ k) = length lab.
Proof. induction lab as [|a lab IH]; cbn; [done|]. by rewrite decide_True, IH. Qed.

Lemma partition_point_spec p l :
  let j := partition_point p l in
  j <= length l /\ (forall i c, l !! i = Some c -> i < j -> p c = true) /\ (forall c, l !! j = Some c -> p c = false).
Proof.
  cbv zeta. induction l as [|c l (H1 & H2 & H3)]; cbn [partition_point]; [split; [done|]; split; [done|]; by intros|].
  destruct (p c) eqn:E; cbn [length].
  - split; [lia|]. split; [|exact H3]. intros [|i] d Hd Hi; [by injection Hd as <-|]. apply (H2 i d Hd). lia.
  - split; [lia|]. split; [lia|]. by intros d [= <-].
Qed.

Definition sorted_bytes (l : bytes) : Prop := forall i j a b, l !! i = Some a -> l !! j = Some b -> i < j -> (b2z a < b2z b)%Z.

Lemma b2z_inj a b : b2z a = b2z b -> a = b.
Proof. intros E. rewrite <-(z2b_b2z a), <-(z2b_b2z b). by f_equal. Qed.

(** Where a byte stands in a sorted slice. *)
Lemma partition_sorted c l : sorted_bytes l ->
  let j := partition_point (fun x => bool_decide (b2z x < b2z c)%Z) l in
  j <= length l /\ forall i x, l !! i = Some x -> bool_decide (b2z x < b2z c)%Z = bool_decide (i < j).
Proof.
  intros Hs. cbv zeta. destruct (partition_point_spec (fun x => bool_decide (b2z x < b2z c)%Z) l) as (H1 & H2 & H3). split; [done|]. intros i x Hx.
  set (j := partition_point _ l) in *. destruct (decide (i < j)) as [Hi|Hi]; [by rewrite (H2 i x Hx Hi), bool_decide_eq_true_2|].
  rewrite (bool_decide_eq_false_2 (i < j)) by done. destruct (lookup_lt_is_Some_2 l j) as [y Hy]; [apply lookup_lt_Some in Hx; lia|].
  pose proof (H3 y Hy) as E. apply bool_decide_eq_false in E. apply bool_decide_eq_false. destruct (decide (i = j)) as [->|]; [congruence|].
  pose proof (Hs j i y x Hy Hx). lia.
Qed.

Lemma binary_search_spec c l : sorted_bytes l ->
  match binary_search c l with
  | inl j => l !! j = Some c
  | inr j => j <= length l /\ forall i x, l !! i = Some x -> x <> c /\ ((b2z x < b2z c)%Z <-> i < j)
  end.
Proof.
  intros Hs. unfold binary_search. destruct (partition_sorted c l Hs) as [H1 H2]. set (j := partition_point _ l) in *. case_decide as E; [done|]. split; [done|].
  intros i x Hx. pose proof (H2 i x Hx) as H. split; [|by rewrite <-(bool_decide_eq_true (i < j)), <-H, bool_decide_eq_true]. intros ->.
  rewrite bool_decide_eq_false_2 in H by lia. symmetry in H. apply bool_decide_eq_false in H.
  destruct (decide (i = j)) as [->|Hne]; [done|]. destruct (lookup_lt_is_Some_2 l j) as [y Hy]; [apply lookup_lt_Some in Hx; lia|].
  pose proof (H2 j y Hy) as Hj. rewrite (bool_decide_eq_false_2 (j < j)) in Hj by lia. apply bool_decide_eq_false in Hj. pose proof (Hs j i y c Hy Hx). lia.
Qed.

Section walk.
Context {V : Type}.
Implicit Types (r : Rax V) (t s : tree V) (es : list (bytes * tree V)).

Definition singles es : Prop := Forall (fun e => length e.1 = 1) es.

Lemma wf_cases es : wf_edges es -> (exists lab s, es = [(lab, s)] /\ 1 < length lab) \/ singles es.
Proof.
  intros Hw. destruct (wf_single _ Hw) as [Hl|H]; [|by right]. pose proof (wf_nonempty _ Hw) as Hn. destruct es as [|[lab s] [|? ?]]; [right; constructor| |cbn in Hl; lia].
  destruct (decide (1 < length lab)); [left; by exists lab, s|right]. constructor; [|constructor]. apply Forall_cons in Hn as [Hn _]. cbn in *. destruct lab as [|? [|? ?]]; cbn in *; (done || lia).
Qed.

Lemma node_long i v lab s : 1 < length lab ->
  node_of (Tree i v [(lab, s)]) = {| chars := lab; children := [root s]; compressed := true; value := v |}.
Proof. intros H. unfold node_of. cbn. by rewrite app_nil_r, bool_decide_eq_true_2. Qed.

Lemma node_singles i v es : singles es ->
  compressed (node_of (Tree i v es)) = false /\ length (chars (node_of (Tree i v es))) = length es /\
  forall j, chars (node_of (Tree i v es)) !! j = e ← es !! j; head e.1.
Proof.
  intros H. split.
  - unfold node_of. cbn. destruct es as [|[lab s] [|? ?]]; [done| |done]. apply Forall_cons in H as [H _]. cbn in H. apply bool_decide_eq_false. lia.
  - unfold node_of. cbn. induction H as [|[lab s] es Hl _ [IH1 IH2]]; [done|]. cbn [fmap list_fmap concat fst] in *. destruct lab as [|b [|? ?]]; [done| |done].
    cbn [app length]. split; [by rewrite IH1|]. intros [|j]; [done|]. apply IH2.
Qed.

Lemma singles_at es j lab s : singles es -> es !! j = Some (lab, s) -> exists b, lab = [b].
Proof.
  intros H Hj. apply list_elem_of_lookup_2 in Hj. unfold singles in H. rewrite Forall_forall in H. pose proof (H _ Hj) as E. cbn in E.
  destruct lab as [|b [|? ?]]; [done|by exists b|done].
Qed.

Lemma chars_at i v es j b : singles es -> chars (node_of (Tree i v es)) !! j = Some b <-> exists s, es !! j = Some ([b], s).
Proof.
  intros H. destruct (node_singles i v es H) as (_ & _ & ->). split.
  - destruct (es !! j) as [[lab s]|] eqn:E; [|done]. cbn. destruct (singles_at es j lab s H E) as [c ->]. cbn. intros [= ->]. eauto.
  - intros [s ->]. done.
Qed.

Lemma chars_sorted i v es : wf_edges es -> singles es -> sorted_bytes (chars (node_of (Tree i v es))).
Proof.
  intros Hw H j k a b Ha Hb Hjk. apply (chars_at i v es j a H) in Ha as [s Ha]. apply (chars_at i v es k b H) in Hb as [s' Hb].
  apply (wf_sorted _ Hw j k _ _ Ha Hb Hjk).
Qed.

(** The edge of a byte, or the place it would have. *)
Lemma search_edge i v es c : wf_edges es -> singles es ->
  match binary_search c (chars (node_of (Tree i v es))) with
  | inl j => exists s, es !! j = Some ([c], s)
  | inr j => j <= length es /\ forall k lab s, es !! k = Some (lab, s) -> exists x, lab = [x] /\ x <> c /\ ((b2z x < b2z c)%Z <-> k < j)
  end.
Proof.
  intros Hw H. pose proof (binary_search_spec c _ (chars_sorted i v es Hw H)) as Hb. destruct (binary_search _ _) as [j|j]; [by apply (chars_at i v es)|].
  destruct (node_singles i v es H) as (_ & El & _). rewrite El in Hb. destruct Hb as [Hj Hb]. split; [done|]. intros k lab s Hk.
  destruct (singles_at es k lab s H Hk) as [x ->]. exists x. split; [done|]. apply Hb. apply (chars_at i v es k x H). eauto.
Qed.

(** No edge starts the key. *)
Lemma look_no_edge es c k : (forall j lab s, es !! j = Some (lab, s) -> exists x, lab = [x] /\ x <> c) -> look_kids es (c :: k) = None.
Proof.
  intros H. apply look_kids_none. intros j lab s Hj. destruct (H j lab s Hj) as (x & -> & Hx). cbn. by rewrite decide_False.
Qed.

Lemma children_at t j lab s : edges t !! j = Some (lab, s) -> children (node_of t) !! j = Some (root s).
Proof. intros H. unfold node_of. cbn. by rewrite list_lookup_fmap, H. Qed.

Lemma no_children t : children (node_of t) = [] <-> edges t = [].
Proof. unfold node_of. cbn. by destruct (edges t). Qed.

(** ** What a tree maps, by its edges *)

Lemma look_iff t k x : wf_edges (edges t) ->
  look t k = Some x <-> (k = [] /\ val t = Some x) \/ exists lab s k', (lab, s) ∈ edges t /\ k = lab ++ k' /\ look s k' = Some x.
Proof.
  intros Hw. pose proof (wf_nonempty _ Hw) as Hn. rewrite Forall_forall in Hn. destruct (decide (k = [])) as [->|Hk].
  - rewrite look_nil. split; [by left|]. intros [[_ ?]|(lab & s & k' & He & E & _)]; [done|]. apply Hn in He. destruct lab; done.
  - rewrite look_kids_eq by done. split.
    + intros (j & lab & s & k' & Hj & -> & H)%look_kids_Some. right. exists lab, s, k'. split; [by eapply list_elem_of_lookup_2|done].
    + intros [[? _]|(lab & s & k' & He & -> & H)]; [done|]. apply list_elem_of_lookup in He as [j Hj]. by rewrite (look_kids_at _ _ _ _ _ Hw Hj).
Qed.

(** Edges with the same labels are as well formed. *)
Lemma wf_edges_labels es es' : fst <$> es = fst <$> es' -> wf_edges es -> wf_edges es'.
Proof.
  intros E [H1 H2 H3].
  assert (forall j lab s, es' !! j = Some (lab, s) -> exists s', es !! j = Some (lab, s')) as Hat.
  { intros j lab s Hj. pose proof (f_equal (lookup j) E) as Ej. rewrite !list_lookup_fmap, Hj in Ej. destruct (es !! j) as [[l s']|]; [|done].
    cbn in Ej. injection Ej as ->. eauto. }
  assert (forall P : bytes -> Prop, Forall (fun e => P e.1) es -> Forall (fun e => P e.1) es') as HF.
  { intros P HP. rewrite Forall_lookup in HP |- *. intros j [lab s] Hj. destruct (Hat j lab s Hj) as [s' Hj']. apply (HP j (lab, s') Hj'). }
  split.
  - by apply (HF (fun l => l <> [])).
  - destruct H2 as [Hl|Hl]; [left|right; by apply (HF (fun l => length l = 1))]. by rewrite <-(length_fmap fst es'), <-E, length_fmap.
  - intros i j [la sa] [lb sb] Ha Hb Hij. apply Hat in Ha as [sa' Ha]. apply Hat in Hb as [sb' Hb]. apply (H3 i j _ _ Ha Hb Hij).
Qed.

Lemma wf_edges_sub es0 x es' : wf_edges (es0 ++ x :: es') -> wf_edges (es0 ++ es').
Proof.
  intros [H1 H2 H3]. split.
  - apply Forall_app in H1 as [? H1]. apply Forall_cons in H1 as [_ H1]. by apply Forall_app.
  - destruct H2 as [Hl|Hl]; [left; rewrite length_app in *; cbn in Hl; lia|right]. apply Forall_app in Hl as [? Hl]. apply Forall_cons in Hl as [_ Hl]. by apply Forall_app.
  - intros i j a b Ha Hb Hij.
    assert (forall k y, (es0 ++ es') !! k = Some y -> (es0 ++ x :: es') !! (if decide (k < length es0) then k else S k) = Some y) as Hat.
    { intros k y Hy. case_decide as Hk; [by rewrite lookup_app_l in * by lia|]. rewrite lookup_app_r in * by lia. by replace (S k - length es0) with (S (k - length es0)) by lia. }
    apply (H3 _ _ _ _ (Hat _ _ Ha) (Hat _ _ Hb)). repeat case_decide; lia.
Qed.

(** ** The place of a subtree *)

Record hole := Hole { hid : N; hval : option V; hleft : list (bytes * tree V); hlab : bytes; hright : list (bytes * tree V) }.
Definition plug1 (c : hole) (t : tree V) : tree V := Tree (hid c) (hval c) (hleft c ++ (hlab c, t) :: hright c).
Fixpoint plug (cs : list hole) (t : tree V) : tree V := match cs with [] => t | c :: cs => plug cs (plug1 c t) end.

(** The key that leads to it, the frames of the path, the other indices. *)
Fixpoint ctx_key (cs : list hole) : bytes := match cs with [] => [] | c :: cs => ctx_key cs ++ hlab c end.
Fixpoint ctx_frames (cs : list hole) : list Frame :=
  match cs with [] => [] | c :: cs => {| fnode := hid c; child := length (hleft c); klen := length (ctx_key cs) |} :: ctx_frames cs end.
Fixpoint ctx_ids (cs : list hole) : list N := match cs with [] => [] | c :: cs => hid c :: kids_ids (hleft c ++ hright c) ++ ctx_ids cs end.

Definition good (e : bytes * tree V) : Prop := alive e.2 /\ wf e.2.
Fixpoint wf_ctx (cs : list hole) : Prop :=
  match cs with
  | [] => True
  | c :: cs => wf_edges (hleft c ++ (hlab c, Tree 0%N None []) :: hright c) /\ Forall good (hleft c) /\ Forall good (hright c) /\ wf_ctx cs
  end.

Lemma plug1_edges c t t' : wf_edges (edges (plug1 c t)) -> wf_edges (edges (plug1 c t')).
Proof. apply wf_edges_labels. cbn. by rewrite !fmap_app. Qed.

Lemma plug1_wf c t : wf (plug1 c t) <-> wf_edges (edges (plug1 c (Tree 0%N None []))) /\ Forall good (hleft c) /\ Forall good (hright c) /\ wf t /\ alive t.
Proof.
  split.
  - intros [He Hk]%wf_inv. split; [by eapply plug1_edges|]. cbn in Hk. apply Forall_app in Hk as [? Hk]. apply Forall_cons in Hk as [[??] ?]. done.
  - intros (He & Hl & Hr & ? & ?). apply wf_intro; [by eapply (plug1_edges c)|]. apply Forall_app. split; [done|]. by constructor.
Qed.

Lemma plug1_alive c t : alive (plug1 c t).
Proof. right. cbn. by destruct (hleft c). Qed.

Lemma wf_plug cs t : wf (plug cs t) <-> wf_ctx cs /\ wf t /\ (cs <> [] -> alive t).
Proof.
  revert t. induction cs as [|c cs IH]; intros t; cbn [plug wf_ctx]; [by split; [|intros (_ & ? & _)]|].
  rewrite IH, plug1_wf. split; [intros (?&(?&?&?&?&?)&_); done|]. intros ((?&?&?&?)&?&Ha). split; [done|]. split; [|intros; apply plug1_alive]. specialize (Ha ltac:(done)). done.
Qed.

Lemma plug_root cs t t' : root t' = root t -> root (plug cs t') = root (plug cs t).
Proof. revert t t'. induction cs as [|c cs IH]; intros t t' E; [done|]. by apply IH. Qed.

Lemma ids_plug cs t : ids (plug cs t) ≡ₚ ids t ++ ctx_ids cs.
Proof.
  revert t. induction cs as [|c cs IH]; intros t; cbn [plug ctx_ids]; [by rewrite app_nil_r|]. rewrite IH. unfold plug1. rewrite ids_eq, !kids_app, kids_cons. cbn.
  solve_Permutation.
Qed.

Lemma rep_plug r cs t : rep r (plug cs t) -> rep r t.
Proof.
  revert t. induction cs as [|c cs IH]; intros t H; [done|]. apply IH in H. apply (rep_kid r (plug1 c t) (length (hleft c)) (hlab c) t H).
  cbn. by rewrite lookup_app_r, Nat.sub_diag by lia.
Qed.

(** Another subtree with the same root, the rest untouched. *)
Lemma rep_plug_ext r r' cs t t' : rep r (plug cs t) -> root t' = root t -> rep r' t' -> (forall i, i ∈ ctx_ids cs -> node i r' = node i r) -> rep r' (plug cs t').
Proof.
  revert t t'. induction cs as [|c cs IH]; intros t t' H E H' Hx; [done|]. cbn [plug ctx_ids] in *. apply (IH (plug1 c t)); [done|done| |].
  - apply rep_plug, rep_eq in H as [Hn Hk]. apply rep_eq. split.
    + rewrite Hx by by left. fold (plug1 c t) in Hn. rewrite Hn. f_equal. unfold node_of. cbn. rewrite !fmap_app. cbn. rewrite E. f_equal.
      by destruct (hleft c) as [|[? ?] [|? ?]].
    + apply Forall_app in Hk as [Hl Hk]. apply Forall_cons in Hk as [_ Hk]. apply Forall_app. split; [|constructor; [done|]].
      * rewrite Forall_forall in Hl |- *. intros e He. apply (rep_ext r); [by apply Hl|]. intros i Hi. apply Hx. right. apply elem_of_app. left. rewrite kids_app. apply elem_of_app. left. by apply (kids_elem e).
      * rewrite Forall_forall in Hk |- *. intros e He. apply (rep_ext r); [by apply Hk|]. intros i Hi. apply Hx. right. apply elem_of_app. left. rewrite kids_app. apply elem_of_app. right. by apply (kids_elem e).
  - intros i Hi. apply Hx. set_solver.
Qed.

Lemma look_plug1_at c t k : wf_edges (edges (plug1 c t)) -> look (plug1 c t) (hlab c ++ k) = look t k.
Proof.
  intros Hw. assert (edges (plug1 c t) !! length (hleft c) = Some (hlab c, t)) as Hj by (cbn; by rewrite lookup_app_r, Nat.sub_diag by lia).
  pose proof (wf_nonempty _ Hw) as Hn. rewrite Forall_forall in Hn. specialize (Hn _ (list_elem_of_lookup_2 _ _ _ Hj)). cbn in Hn.
  rewrite look_kids_eq by by destruct (hlab c). by apply look_kids_at with (length (hleft c)).
Qed.

Lemma look_kids_off es lab t t' es' k : strip lab k = None -> look_kids (es ++ (lab, t) :: es') k = look_kids (es ++ (lab, t') :: es') k.
Proof.
  intros H. induction es as [|[lab0 s] es IH]; cbn [app look_kids]; [by rewrite H|]. destruct (strip lab0 k); [done|]. apply IH.
Qed.

Lemma look_plug_at cs t k : wf_ctx cs -> look (plug cs t) (ctx_key cs ++ k) = look t k.
Proof.
  revert t k. induction cs as [|c cs IH]; intros t k Hw; [done|]. destruct Hw as (He & _ & _ & Hw). cbn [plug ctx_key]. rewrite <-app_assoc, IH by done.
  apply look_plug1_at. by apply (plug1_edges c (Tree 0%N None [])).
Qed.

Lemma look_plug_off cs t t' k : wf_ctx cs -> strip (ctx_key cs) k = None -> look (plug cs t) k = look (plug cs t') k.
Proof.
  revert t t'. induction cs as [|c cs IH]; intros t t' Hw Hk; [done|]. destruct Hw as (He & _ & _ & Hw). cbn [plug ctx_key] in *.
  destruct (strip (ctx_key cs) k) as [k1|] eqn:E; [|by apply IH]. apply strip_Some in E as ->. rewrite !look_plug_at by done.
  assert (strip (hlab c) k1 = None) as H1.
  { destruct (strip (hlab c) k1) as [k2|] eqn:E; [|done]. apply strip_Some in E as ->. by rewrite app_assoc, strip_app in Hk. }
  destruct k1 as [|b k1]; [by rewrite !look_nil|]. rewrite !look_kids_eq by done. by apply look_kids_off.
Qed.

(** A change below shows above at the keys that lead there. *)
Lemma look_plug_ext cs t t' : wf_ctx cs -> (forall k, look t k = look t' k) -> forall k, look (plug cs t) k = look (plug cs t') k.
Proof.
  intros Hw H k. destruct (strip (ctx_key cs) k) as [k1|] eqn:E; [|by apply look_plug_off]. apply strip_Some in E as ->. by rewrite !look_plug_at.
Qed.

(** The hole an edge leaves. *)
Definition hole_at (t : tree V) (j : nat) (lab : bytes) : hole := Hole (root t) (val t) (take j (edges t)) lab (drop (S j) (edges t)).
Lemma hole_plug t j lab s : edges t !! j = Some (lab, s) -> plug1 (hole_at t j lab) s = t.
Proof. destruct t as [i v es]. intros H. unfold plug1. cbn in *. by rewrite take_drop_middle. Qed.
Lemma hole_left t j lab s : edges t !! j = Some (lab, s) -> length (hleft (hole_at t j lab)) = j.
Proof. intros H. cbn. apply lookup_lt_Some in H. rewrite length_take. lia. Qed.

(** One step down. *)
Lemma go_down cs t j lab s : edges t !! j = Some (lab, s) -> exists c,
  plug cs t = plug (c :: cs) s /\ ctx_key (c :: cs) = ctx_key cs ++ lab /\
  ctx_frames (c :: cs) = {| fnode := root t; child := j; klen := length (ctx_key cs) |} :: ctx_frames cs /\ c = hole_at t j lab.
Proof.
  intros H. exists (hole_at t j lab). cbn [plug ctx_key ctx_frames]. rewrite (hole_plug _ _ _ _ H), (hole_left _ _ _ _ H). done.
Qed.

(** A node without edges, with a label, with edges of one byte. *)
Lemma node_cases t : wf t ->
  edges t = [] \/ (exists lab s, edges t = [(lab, s)] /\ 1 < length lab /\ node_of t = {| chars := lab; children := [root s]; compressed := true; value := val t |}) \/
  (edges t <> [] /\ singles (edges t) /\ children (node_of t) <> [] /\ compressed (node_of t) = false).
Proof.
  intros [He _]%wf_inv. destruct t as [i v es]. cbn in *. destruct (decide (es = [])) as [->|Hne]; [by left|right].
  destruct (wf_cases _ He) as [(lab & s & -> & Hl)|Hs]; [left; exists lab, s; split; [done|]; split; [done|]; by apply node_long|right].
  split; [done|]. split; [done|]. split; [|apply (node_singles i v es Hs)]. intros H. by apply (no_children (Tree i v es)) in H.
Qed.

(** ** The walk of a key *)

(** At the place of the key, or where nothing has it. *)
Definition walked (key : bytes) (t : tree V) (x : N * nat * nat * list Frame) : Prop :=
  let '(cur, i, split, stack) := x in
  (exists cs s, t = plug cs s /\ key = ctx_key cs /\ cur = root s /\ i = length key /\ split = 0 /\ stack = ctx_frames cs) \/
  ((i <> length key \/ split <> 0) /\ look t key = None).

Lemma look_none_nil t k : edges t = [] -> k <> [] -> look t k = None.
Proof. intros E Hk. rewrite look_kids_eq, E by done. done. Qed.

Lemma look_none_long t lab s k : edges t = [(lab, s)] -> k <> [] -> matched lab k <> length lab -> look t k = None.
Proof.
  intros E Hk Hm. rewrite look_kids_eq, E by done. cbn. destruct (strip lab k) as [k'|] eqn:H; [|done]. apply strip_Some in H as ->. by rewrite matched_app in Hm.
Qed.

Lemma walk_loop_tree fuel rest cs t r : rep r (plug cs t) -> wf (plug cs t) -> length rest < fuel ->
  exists x, walk_loop fuel (ctx_key cs ++ rest) (root t) (length (ctx_key cs)) (ctx_frames cs) r = Some x /\ walked (ctx_key cs ++ rest) (plug cs t) x.
Proof.
  revert rest cs t. induction fuel as [|fuel IH]; intros rest cs t Hr Hw Hf; [lia|]. cbn [walk_loop].
  pose proof (rep_plug _ _ _ Hr) as Hrt. pose proof (proj1 (wf_plug _ _) Hw) as (Hwc & Hwt & _).
  rewrite (rep_node _ _ Hrt). cbn [mbind option_bind].
  assert (forall j lab s rest', edges t !! j = Some (lab, s) -> rest = lab ++ rest' -> lab <> [] -> exists x,
    walk_loop fuel (ctx_key cs ++ rest) (root s) (length (ctx_key cs) + length lab) ({| fnode := root t; child := j; klen := length (ctx_key cs) |} :: ctx_frames cs) r = Some x /\
    walked (ctx_key cs ++ rest) (plug cs t) x) as Hdown.
  { intros j lab s rest' Hj -> Hl. destruct (go_down cs t j lab s Hj) as (c & E1 & E2 & E3 & _). rewrite E1, app_assoc, <-E2, <-E3, <-length_app, <-E2.
    apply IH; [by rewrite <-E1|by rewrite <-E1|]. rewrite length_app in Hf. destruct lab; [done|]. cbn in Hf. lia. }
  destruct (decide (rest = [])) as [->|Hne].
  { rewrite app_nil_r. rewrite (bool_decide_eq_true_2 (length (ctx_key cs) = length (ctx_key cs))), orb_true_r by done. eexists. split; [done|]. left. exists cs, t. done. }
  rewrite (bool_decide_eq_false_2 (length (ctx_key cs) = _)) by (rewrite length_app; destruct rest; [done|cbn; lia]). rewrite orb_false_r.
  assert (forall i split, i <> length (ctx_key cs ++ rest) \/ split <> 0 -> look t rest = None -> forall cur stack, walked (ctx_key cs ++ rest) (plug cs t) (cur, i, split, stack)) as Hno.
  { intros i split Hi Hl cur stack. right. split; [done|]. by rewrite look_plug_at. }
  assert (length (ctx_key cs) <> length (ctx_key cs ++ rest)) as Hlen by (rewrite length_app; destruct rest; [done|cbn; lia]).
  destruct (node_cases t Hwt) as [E|[(lab & s & E & Hl & En)|(E & Hs & Hc & Hcmp)]].
  - rewrite (bool_decide_eq_true_2 _) by by apply no_children. eexists. split; [done|]. apply Hno; [by left|by apply look_none_nil].
  - rewrite bool_decide_eq_false_2 by by rewrite no_children, E. rewrite En. cbn [chars children compressed]. rewrite drop_app_length. case_decide as Hm.
    + eexists. split; [done|]. apply Hno; [|by eapply look_none_long].
      pose proof (matched_le lab rest). rewrite length_app. destruct (decide (matched lab rest = 0)); [left; destruct rest; [done|cbn; lia]|by right].
    + cbn. apply (Hdown 0 lab s (drop (length lab) rest)); [by rewrite E| |by destruct lab; cbn in Hl; [lia|]]. apply matched_all. lia.
  - rewrite bool_decide_eq_false_2 by done. rewrite Hcmp. destruct rest as [|b rest]; [done|]. rewrite lookup_app_r, Nat.sub_diag by lia. cbn [lookup list_lookup mbind option_bind].
    destruct t as [i v es]. cbn in E, Hs. pose proof (search_edge i v es b (proj1 (wf_inv _ Hwt)) Hs) as Hb. destruct (binary_search b _) as [j|j].
    + destruct Hb as [s Hj]. rewrite (children_at (Tree i v es) j [b] s Hj). cbn [mbind option_bind]. by apply (Hdown j [b] s rest).
    + eexists. split; [done|]. apply Hno; [by left|]. rewrite look_kids_eq by done. apply look_no_edge. intros k lab s Hk. destruct Hb as [_ Hb]. destruct (Hb k lab s Hk) as (x & ? & ? & _). eauto.
Qed.

Lemma walk_tree t r key : rep r t -> wf t -> root t = ROOT -> exists x, walk key r = Some x /\ walked key t x.
Proof. intros Hr Hw E. unfold walk. rewrite <-E. apply (walk_loop_tree (S (length key)) key [] t r); [done..|lia]. Qed.

Lemma find_tree t r key : rep r t -> wf t -> root t = ROOT -> find key r = Some (look t key).
Proof.
  intros Hr Hw E. unfold find. destruct (walk_tree t r key Hr Hw E) as ([[[cur i] split] stack] & -> & Hx). cbn [mbind option_bind].
  destruct Hx as [(cs & s & -> & -> & -> & -> & -> & _)|[Hx ->]]; [|by rewrite decide_True].
  rewrite decide_False by (by intros [?|?]). rewrite (rep_node r s) by by eapply rep_plug. cbn. f_equal.
  pose proof (look_plug_at cs s [] (proj1 (proj1 (wf_plug _ _) Hw))) as Hl. by rewrite app_nil_r, look_nil in Hl.
Qed.
End walk.
Arguments hole : clear implicits.
