(* ===== verification/RaxInsert.v ===== *)
(** * Insertion

    A label is split where the key leaves it and the rest of the key hung below:
    the tree maps the key to the value and every other key as before. *)
From S2P Require Import Prelude Skiplist SkiplistOrder Rax RaxFacts RaxWalk.
Open Scope nat_scope.

Section insert.
Context {V : Type}.
Implicit Types (r : Rax V) (t s : tree V) (es : list (bytes * tree V)) (cs : list (hole V)).

(** The arena holds the tree, with nothing else in use. *)
Record holds r t : Prop := {
  holds_rep : rep r t;
  holds_own : own r (ids t);
  holds_wf : wf t;
  holds_root : root t = ROOT
}.

(** A subtree replaced. *)
Lemma holds_plug r r' cs t t' : holds r (plug cs t) -> root t' = root t -> wf t' -> (cs <> [] -> alive t') -> rep r' t' -> own r' (ids t' ++ ctx_ids cs) ->
  (forall i, i ∈ ctx_ids cs -> node i r' = node i r) -> holds r' (plug cs t').
Proof.
  intros [H1 H2 H3 H4] E Hw Ha Hr Ho Hx. split.
  - by apply (rep_plug_ext r r' cs t).
  - by apply (own_perm _ (ids t' ++ ctx_ids cs)); [rewrite ids_plug|].
  - apply wf_plug. by apply wf_plug in H3 as [? _].
  - by rewrite (plug_root cs t t').
Qed.

Lemma holds_at r cs t : holds r (plug cs t) -> rep r t /\ own r (ids t ++ ctx_ids cs) /\ wf t /\ wf_ctx cs /\ (cs <> [] -> alive t).
Proof.
  intros [H1 H2 H3 H4]. split; [by eapply rep_plug|]. split; [by apply (own_perm _ (ids (plug cs t))); [rewrite ids_plug|]|]. by apply wf_plug in H3 as (? & ? & ?).
Qed.

(** ** Single edges *)

Lemma strip_add l l' k : strip (l ++ l') k = strip l k ≫= strip l'.
Proof. revert k. induction l as [|a l IH]; intros [|b k]; cbn; [done..|]. case_decide; [apply IH|done]. Qed.

Lemma look_single i v lab s k : lab <> [] -> look (Tree i v [(lab, s)]) k = if decide (k = []) then v else strip lab k ≫= look s.
Proof. intros Hl. case_decide as E; [by subst k|]. rewrite look_kids_eq by done. cbn. by destruct (strip lab k). Qed.

Lemma look_chain i lab s k : lab <> [] -> look (Tree i None [(lab, s)]) k = strip lab k ≫= look s.
Proof. intros Hl. rewrite look_single by done. case_decide as E; [|done]. subst k. by destruct lab. Qed.

Lemma wf_one lab s : lab <> [] -> wf_edges [(lab, s)].
Proof. intros Hl. split; [by constructor|left; cbn; lia|]. intros [|i] [|j] a b Ha Hb ?; (lia || done). Qed.

Lemma wf_single_tree i v lab s : lab <> [] -> alive s -> wf s -> wf (Tree i v [(lab, s)]).
Proof. intros. apply wf_intro; [by apply wf_one|by constructor]. Qed.

(** A fresh node above a subtree. *)
Lemma labelled_spec lab s r ix : rep r s -> own r (ids s ++ ix) -> (Z.of_nat (length (rnodes r)) < 2 ^ 32)%Z ->
  exists r' x, labelled lab (root s) r = Some (r', x) /\ rep r' (Tree x None [(lab, s)]) /\ own r' (ids (Tree x None [(lab, s)]) ++ ix) /\ x ∉ ids s ++ ix /\
    numele r' = numele r /\ length (rnodes r') <= length (rnodes r) + 1 /\ forall i, i ∈ ix -> node i r' = node i r.
Proof.
  intros Hr Ho Hroom. unfold labelled. destruct (alloc_tree {| chars := lab; children := [root s]; compressed := bool_decide (1 < length lab); value := None |} r _ Ho Hroom)
    as (r' & x & -> & Hx & Ho' & E1 & E2 & En). exists r', x. split; [done|].
  assert (forall i, i ∈ ids s ++ ix -> node i r' = node i r) as Hsame by (intros i Hi; rewrite En, decide_False; [done|by intros ->]).
  split; [|split; [|split; [done|split; [done|split; [done|]]]]].
  - apply rep_eq. split; [rewrite En, decide_True by done; unfold node_of; cbn; by rewrite app_nil_r|]. constructor; [|constructor]. apply (rep_ext r); [done|]. intros i Hi. apply Hsame. set_solver.
  - rewrite ids_one. done.
  - intros i Hi. apply Hsame. set_solver.
Qed.

Lemma label_cut (lab : bytes) m : m < length lab -> lab = take m lab ++ take 1 (drop m lab) ++ drop (m + 1) lab.
Proof. intros H. rewrite <-drop_drop, (take_drop 1), take_drop. done. Qed.

(** ** The split of a label *)

(** Below the [m]-th byte of the label. *)
Lemma split_tail lab m s r ix : m < length lab -> rep r s -> wf s -> alive s -> own r (ids s ++ ix) -> (Z.of_nat (length (rnodes r)) < 2 ^ 32)%Z ->
  exists r' tl, (if decide (m + 1 < length lab) then labelled (drop (m + 1) lab) (root s) r else Some (r, root s)) = Some (r', root tl) /\
    rep r' tl /\ own r' (ids tl ++ ix) /\ wf tl /\ alive tl /\ (forall k, look tl k = strip (drop (m + 1) lab) k ≫= look s) /\
    numele r' = numele r /\ length (rnodes r') <= length (rnodes r) + 1 /\ (forall i, i ∈ ix -> node i r' = node i r).
Proof.
  intros Hm Hr Hw Ha Ho Hroom. case_decide as Hlen.
  - destruct (labelled_spec (drop (m + 1) lab) s r ix Hr Ho Hroom) as (r' & x & -> & ? & ? & _ & ? & ? & ?).
    assert (drop (m + 1) lab <> []) as Hne by (intros E; apply (f_equal length) in E; rewrite length_drop in E; cbn in E; lia).
    exists r', (Tree x None [(drop (m + 1) lab, s)]). do 3 (split; [done|]). split; [by apply wf_single_tree|]. split; [by right|]. split; [|done]. intros k. by apply look_chain.
  - exists r, s. do 5 (split; [done|]). split; [|split; [done|split; [lia|done]]]. intros k. by rewrite drop_ge by lia.
Qed.

(** A node given a single edge to a subtree that took shape in the arena. *)
Lemma relabel r r1 cs i v es lab s n : holds r (plug cs (Tree i v es)) -> rep r1 s -> own r1 (ids s ++ i :: ctx_ids cs) -> node i r1 = Some n -> value n = v ->
  wf s -> alive s -> lab <> [] -> (forall j, j ∈ ctx_ids cs -> node j r1 = node j r) ->
  exists r2, node_mut i (set_edges lab [root s] (bool_decide (1 < length lab))) r1 = Some r2 /\ holds r2 (plug cs (Tree i v [(lab, s)])) /\
    numele r2 = numele r1 /\ length (rnodes r2) = length (rnodes r1).
Proof.
  intros Hh Hr Ho Hi Hv Hw Ha Hl Hx. destruct (node_mut_spec i (set_edges lab [root s] (bool_decide (1 < length lab))) n r1 Hi) as (r2 & -> & Ef & En & El & Hs).
  exists r2. split; [done|]. split; [|done].
  assert (i ∉ ids s ++ ctx_ids cs) as Hni by (destruct Ho as (Hn & _); apply NoDup_app in Hn as (Hn & _); rewrite <-Permutation_middle in Hn; by apply NoDup_cons in Hn as [? _]).
  apply (holds_plug r r2 cs (Tree i v es)); [done|done|by apply wf_single_tree|by right| | |].
  - apply rep_eq. split; [rewrite Hs, decide_True by done; unfold node_of, set_edges; cbn; by rewrite app_nil_r, Hv|].
    constructor; [|constructor]. apply (rep_ext r1); [done|]. intros j Hj. rewrite Hs, decide_False; [done|]. intros ->. set_solver.
  - rewrite ids_one. apply (own_perm _ (ids s ++ i :: ctx_ids cs)); [by rewrite <-Permutation_middle|].
    unfold own. by rewrite Ef, El.
  - intros j Hj. rewrite Hs, decide_False by (intros ->; set_solver). by apply Hx.
Qed.

Lemma split_compressed_spec cs i v lab s m r : holds r (plug cs (Tree i v [(lab, s)])) -> 1 < length lab -> m < length lab -> (Z.of_nat (length (rnodes r)) + 1 < 2 ^ 32)%Z ->
  exists r' cs' t', split_compressed i m r = Some (r', root t') /\ holds r' (plug cs' t') /\ (forall k, look (plug cs' t') k = look (plug cs (Tree i v [(lab, s)])) k) /\
    ctx_key cs' = ctx_key cs ++ take m lab /\ singles (edges t') /\ (forall b s', ([b], s') ∈ edges t' -> lab !! m = Some b) /\
    numele r' = numele r /\ length (rnodes r') <= length (rnodes r) + 2.
Proof.
  intros Hh Hl Hm Hroom. destruct (holds_at _ _ _ Hh) as (Hr & Ho & Hw & Hwc & _). set (t := Tree i v [(lab, s)]) in *.
  destruct (wf_kid t 0 lab s Hw eq_refl) as (Has & Hws & _). pose proof (rep_kid r t 0 lab s Hr eq_refl) as Hrs.
  unfold split_compressed. rewrite (rep_node r t Hr : node i r = _). unfold t at 1. rewrite node_long by done. cbn [mbind option_bind chars children lookup list_lookup].
  destruct (split_tail lab m s r (i :: ctx_ids cs) Hm Hrs Hws Has) as (r1 & tl & E1 & Hrt & Hot & Hwt & Hat & Hlt & En1 & El1 & Hs1).
  { apply (own_perm _ (ids t ++ ctx_ids cs)); [|done]. unfold t. rewrite ids_one. cbn [app]. by rewrite Permutation_middle. }
  { lia. }
  rewrite E1. cbn [mbind option_bind]. destruct (lookup_lt_is_Some_2 lab m Hm) as [b Hb].
  assert (take 1 (drop m lab) = [b]) as Eb by by rewrite (drop_S _ _ _ Hb).
  assert (node i r1 = Some (node_of t)) as Hi1 by (rewrite (Hs1 i) by (by left); by apply (rep_node r t)).
  assert (forall k, look t k = if decide (k = []) then v else strip (take m lab) k ≫= fun k => strip [b] k ≫= look tl) as Hlook.
  { intros k. unfold t. rewrite look_single by by destruct lab. destruct (decide (k = [])) as [->|Hk]; [done|]. rewrite (label_cut lab m Hm) at 1. rewrite !strip_add, Eb.
    destruct (strip (take m lab) k) as [k1|]; [cbn [mbind option_bind]|done]. rewrite strip_add. destruct (strip [b] k1) as [k2|]; [cbn [mbind option_bind]|done]. by rewrite Hlt. }
  destruct (decide (m = 0)) as [->|Hm0].
  - destruct (relabel r r1 cs i v _ [b] tl _ Hh Hrt Hot Hi1) as (r2 & E2 & Hh2 & En2 & El2); [done..|intros j Hj; apply Hs1; by right|].
    rewrite drop_0 in Eb. rewrite Eb. change (bool_decide (1 < length [b])) with false in E2. rewrite E2. cbn [mbind option_bind].
    exists r2, cs, (Tree i v [([b], tl)]). split; [done|]. split; [done|]. split; [|split; [by rewrite take_0, app_nil_r|split; [by repeat constructor|split; [|lia]]]].
    + apply look_plug_ext; [done|]. intros k. rewrite Hlook, look_single by done. done.
    + cbn. intros b' s' Hin. apply list_elem_of_singleton in Hin. injection Hin as -> ->. done.
  - destruct (labelled_spec [b] tl r1 (i :: ctx_ids cs) Hrt Hot ltac:(lia)) as (r2 & x & E2 & Hr2 & Ho2 & _ & En2 & El2 & Hs2).
    rewrite Eb. unfold labelled in E2. rewrite bool_decide_eq_false_2 in E2 by (cbn; lia). rewrite E2. cbn [mbind option_bind]. set (mid := Tree x None [([b], tl)]) in *.
    assert (take m lab <> []) as Htm by (intros E; apply (f_equal length) in E; rewrite length_take in E; cbn in E; lia).
    destruct (relabel r r2 cs i v _ (take m lab) mid (node_of t) Hh Hr2 Ho2) as (r3 & E3 & Hh3 & En3 & El3);
      [rewrite Hs2 by (by left); done|done|by apply wf_single_tree|by right|done|intros j Hj; rewrite Hs2 by (by right); apply Hs1; by right|].
    rewrite length_take, Nat.min_l in E3 by lia. change (root mid) with x in E3. rewrite E3. cbn [mbind option_bind].
    exists r3, (Hole i v [] (take m lab) [] :: cs), mid. split; [done|]. split; [done|]. split; [|split; [done|split; [by repeat constructor|split; [|lia]]]].
    + apply (look_plug_ext cs (Tree i v [(take m lab, mid)]) t Hwc). intros k. rewrite Hlook, look_single by done. destruct (decide (k = [])) as [->|Hk]; [done|]. destruct (strip (take m lab) k) as [k1|]; [cbn [mbind option_bind]|done]. by apply look_chain.
    + cbn. intros b' s' Hin. apply list_elem_of_singleton in Hin. injection Hin as -> ->. done.
Qed.

(** ** The way down of an insertion *)

(** Where a key would be hung below a node: no label, no edge with its first
    byte. *)
Definition open_at t (rest : bytes) : Prop := singles (edges t) /\ forall b s, head rest = Some b -> ([b], s) ∉ edges t.

Lemma insert_descend_spec fuel rest cs t r : holds r (plug cs t) -> length rest < fuel -> (Z.of_nat (length (rnodes r)) + 1 < 2 ^ 32)%Z ->
  exists r' cs' t' rest', insert_descend fuel (ctx_key cs ++ rest) (root t) (length (ctx_key cs)) r = Some (r', root t', length (ctx_key cs')) /\
    holds r' (plug cs' t') /\ (forall k, look (plug cs' t') k = look (plug cs t) k) /\ ctx_key cs ++ rest = ctx_key cs' ++ rest' /\
    (rest' <> [] -> open_at t' rest') /\ numele r' = numele r /\ length (rnodes r') <= length (rnodes r) + 2.
Proof.
  revert rest cs t. induction fuel as [|fuel IH]; intros rest cs t Hh Hf Hroom; [lia|]. cbn [insert_descend].
  destruct (holds_at _ _ _ Hh) as (Hr & _ & Hw & _).
  assert ((rest <> [] -> open_at t rest) -> exists r' cs' t' rest', Some (r, root t, length (ctx_key cs)) = Some (r', root t', length (ctx_key cs')) /\
    holds r' (plug cs' t') /\ (forall k, look (plug cs' t') k = look (plug cs t) k) /\ ctx_key cs ++ rest = ctx_key cs' ++ rest' /\
    (rest' <> [] -> open_at t' rest') /\ numele r' = numele r /\ length (rnodes r') <= length (rnodes r) + 2) as Hstop.
  { intros Ho. exists r, cs, t, rest. do 6 (split; [done|]). lia. }
  assert (forall j lab s rest', edges t !! j = Some (lab, s) -> rest = lab ++ rest' -> lab <> [] -> exists r' cs' t' rest',
    insert_descend fuel (ctx_key cs ++ rest) (root s) (length (ctx_key cs) + length lab) r = Some (r', root t', length (ctx_key cs')) /\
    holds r' (plug cs' t') /\ (forall k, look (plug cs' t') k = look (plug cs t) k) /\ ctx_key cs ++ rest = ctx_key cs' ++ rest' /\
    (rest' <> [] -> open_at t' rest') /\ numele r' = numele r /\ length (rnodes r') <= length (rnodes r) + 2) as Hdown.
  { intros j lab s rest' Hj -> Hl. destruct (go_down cs t j lab s Hj) as (c & E1 & E2 & _ & _). rewrite E1, app_assoc, <-E2, <-length_app, <-E2.
    apply IH; [by rewrite <-E1| |done]. rewrite length_app in Hf. destruct lab; [done|]. cbn in Hf. lia. }
  case_decide as Hi. { apply Hstop. intros Hne. exfalso. apply Hne. rewrite length_app in Hi. destruct rest; [done|cbn in Hi; lia]. }
  assert (rest <> []) as Hne by (intros ->; by rewrite app_nil_r in Hi).
  rewrite (rep_node _ _ Hr). cbn [mbind option_bind]. destruct (node_cases t Hw) as [E|[(lab & s & E & Hl & En)|(E & Hs & Hc & Hcmp)]].
  - rewrite decide_True by by apply no_children. apply Hstop. intros _. split; rewrite E; [constructor|]. intros b s _. apply not_elem_of_nil.
  - rewrite decide_False by by rewrite no_children, E. rewrite En. cbn [chars children compressed]. rewrite drop_app_length. case_decide as Hm.
    + cbn [lookup list_lookup mbind option_bind]. rewrite Hm. apply (Hdown 0 lab s (drop (length lab) rest)); [by rewrite E|by apply matched_all|by destruct lab; cbn in Hl; [lia|]].
    + pose proof (matched_le lab rest) as [Hml Hmr]. destruct t as [i v es]. cbn in E. subst es.
      destruct (split_compressed_spec cs i v lab s (matched lab rest) r Hh Hl ltac:(lia) Hroom) as (r' & cs' & t' & E1 & H1 & H2 & H3 & H4 & H5 & H6 & H7).
      cbn [root]. rewrite E1. cbn [mbind option_bind]. exists r', cs', t', (drop (matched lab rest) rest). rewrite H3, length_app, length_take, Nat.min_l by lia.
      do 3 (split; [done|]). split; [by rewrite <-app_assoc, matched_take, take_drop|]. split; [|done]. intros Hd. split; [done|]. intros b s' Hb Hin. apply H5 in Hin.
      destruct (matched_stop lab rest ltac:(lia)) as [Hz|(x & y & Hx & Hy & Hxy)]; [by rewrite drop_ge in Hd by lia|].
      rewrite (drop_S _ _ _ Hy) in Hb. cbn in Hb. congruence.
  - rewrite decide_False by done. rewrite Hcmp. destruct rest as [|b rest]; [done|]. rewrite lookup_app_r, Nat.sub_diag by lia. cbn [lookup list_lookup mbind option_bind].
    destruct t as [i v es]. cbn in E, Hs. pose proof (search_edge i v es b (proj1 (wf_inv _ Hw)) Hs) as Hb. destruct (binary_search b _) as [j|j].
    + destruct Hb as [s Hj]. rewrite (children_at (Tree i v es) j [b] s Hj). cbn [mbind option_bind]. by apply (Hdown j [b] s rest).
    + apply Hstop. intros _. split; [done|]. cbn. intros b' s [= <-] Hin. apply list_elem_of_lookup in Hin as [k Hk]. destruct Hb as [_ Hb]. destruct (Hb k _ _ Hk) as (x & [= ->] & ? & _). done.
Qed.

(** ** The new edge *)

Lemma singles_chars es : singles es -> exists l, fst <$> es = (fun b => [b]) <$> l /\ concat (fst <$> es) = l.
Proof.
  induction 1 as [|[lab s] es Hl _ (l & E1 & E2)]; [by exists []|]. cbn in Hl. destruct lab as [|b [|? ?]]; [done| |done]. exists (b :: l). cbn. split; [by rewrite E1|by rewrite E2].
Qed.

(** An edge put in at its place. *)
Definition edge_in at_ b s es : list (bytes * tree V) := take at_ es ++ ([b], s) :: drop at_ es.

Lemma edge_in_node i v es b s at_ : singles es -> node_of (Tree i v (edge_in at_ b s es)) =
  set_edges (take at_ (chars (node_of (Tree i v es))) ++ b :: drop at_ (chars (node_of (Tree i v es))))
    (take at_ (children (node_of (Tree i v es))) ++ root s :: drop at_ (children (node_of (Tree i v es)))) false (node_of (Tree i v es)).
Proof.
  intros Hs. assert (singles (edge_in at_ b s es)) as Hs' by (unfold edge_in; apply Forall_app; split; [by apply Forall_take|constructor; [done|by apply Forall_drop]]).
  pose proof (node_singles i v _ Hs') as (E & _). unfold set_edges. unfold node_of in *. cbn [edges val compressed chars children value] in *. rewrite E.
  destruct (singles_chars es Hs) as (l & E1 & E2). rewrite E2. f_equal; unfold edge_in; rewrite !fmap_app; cbn; rewrite ?fmap_take, ?fmap_drop; [|done].
  rewrite E1, <-fmap_take, <-fmap_drop. change ([b] :: ((fun b => [b]) <$> drop at_ l)) with ((fun b => [b]) <$> (b :: drop at_ l) : list bytes). rewrite <-fmap_app.
  generalize (take at_ l ++ b :: drop at_ l). induction 0 as [|x m IH]; [done|]. cbn. by rewrite <-IH at 2.
Qed.

Lemma edge_in_elem at_ b s es e : e ∈ edge_in at_ b s es <-> e = ([b], s) \/ e ∈ es.
Proof. unfold edge_in. rewrite elem_of_app, elem_of_cons. rewrite <-(take_drop at_ es) at 3. rewrite elem_of_app. tauto. Qed.

Lemma edge_in_at at_ b s es j e : at_ <= length es -> edge_in at_ b s es !! j = Some e ->
  (j < at_ /\ es !! j = Some e) \/ (j = at_ /\ e = ([b], s)) \/ (at_ < j /\ es !! (j - 1) = Some e).
Proof.
  intros Ha H. unfold edge_in in H. destruct (decide (j < at_)); [left; split; [done|]; rewrite lookup_app_l in H by (rewrite length_take; lia); by rewrite lookup_take_lt in H by lia|right].
  rewrite lookup_app_r, length_take, Nat.min_l in H by (rewrite ?length_take; lia). destruct (decide (j = at_)) as [->|]; [left; rewrite Nat.sub_diag in H; by injection H as <-|right].
  split; [lia|]. replace (j - at_) with (S (j - at_ - 1)) in H by lia. change (drop at_ es !! (j - at_ - 1) = Some e) in H. rewrite lookup_drop in H. by replace (at_ + (j - at_ - 1)) with (j - 1) in H by lia.
Qed.

Definition place_of (b : byte) (cs : bytes) : nat := partition_point (fun c => bool_decide (b2z c < b2z b)%Z) cs.

Lemma edge_in_wf i v b s es : wf_edges es -> singles es -> (forall s', ([b], s') ∉ es) ->
  wf_edges (edge_in (place_of b (chars (node_of (Tree i v es)))) b s es).
Proof.
  intros Hw Hs Hn. destruct (partition_sorted b _ (chars_sorted i v es Hw Hs)) as [Ha Hp]. fold (place_of b (chars (node_of (Tree i v es)))) in *.
  set (at_ := place_of _ _) in *. destruct (node_singles i v es Hs) as (_ & El & _). rewrite El in Ha. clearbody at_. split.
  - rewrite Forall_forall. intros e [->|He]%edge_in_elem; [done|]. pose proof (wf_nonempty _ Hw) as H. rewrite Forall_forall in H. by apply H.
  - right. rewrite Forall_forall. intros e [->|He]%edge_in_elem; [done|]. unfold singles in Hs. rewrite Forall_forall in Hs. by apply Hs.
  - assert (forall j e, es !! j = Some e -> (j < at_ -> (fb e.1 < b2z b)%Z) /\ (at_ <= j -> (b2z b < fb e.1)%Z)) as Hfb.
    { intros j [lab s'] Hj. destruct (singles_at es j lab s' Hs Hj) as [x ->]. cbn. pose proof (Hp j x (proj2 (chars_at i v es j x Hs) (ex_intro _ s' Hj))) as E.
      assert (b2z x <> b2z b) as Hne by (intros ->%b2z_inj; apply (Hn s'); by eapply list_elem_of_lookup_2).
      split; intros Hlt; [rewrite (bool_decide_eq_true_2 (j < at_)) in E by done; by apply bool_decide_eq_true in E|].
      rewrite (bool_decide_eq_false_2 (j < at_)) in E by lia. apply bool_decide_eq_false in E. lia. }
    intros j k x y Hx Hy Hjk. apply edge_in_at in Hx; [|done]. apply edge_in_at in Hy; [|done].
    destruct Hx as [[? Hx]|[[? ->]|[? Hx]]], Hy as [[? Hy]|[[? ->]|[? Hy]]]; try lia; cbn [fst fb];
      try (apply (wf_sorted _ Hw _ _ _ _ Hx Hy); lia); try (pose proof (Hfb _ _ Hx) as [??]); try (pose proof (Hfb _ _ Hy) as [??]); lia.
Qed.

(** ** The new leaf *)

(** The leaf, on its own or below a label. *)
Definition hang (up : option (N * bytes)) (lf : N) (o : option V) : tree V :=
  match up with Some (y, lab) => Tree y None [(lab, Tree lf o [])] | None => Tree lf o [] end.
Definition hang_key (up : option (N * bytes)) : bytes := match up with Some (_, lab) => lab | None => [] end.
Definition hang_ok (up : option (N * bytes)) : Prop := match up with Some (_, lab) => lab <> [] | None => True end.

Lemma hang_root up lf o o' : root (hang up lf o) = root (hang up lf o').
Proof. by destruct up as [[??]|]. Qed.
Lemma hang_ids up lf o o' : ids (hang up lf o) = ids (hang up lf o').
Proof. by destruct up as [[??]|]. Qed.

Lemma hang_wf up lf x : hang_ok up -> wf (hang up lf (Some x)) /\ alive (hang up lf (Some x)).
Proof.
  assert (wf (Tree lf (Some x) [])) as Hl by (apply wf_intro; [split; [constructor|left; cbn; lia|by intros ????]|constructor]).
  destruct up as [[y lab]|]; intros Hu; [split; [apply wf_single_tree; [done|by left|done]|by right]|split; [done|by left]].
Qed.

Lemma hang_look up lf x k : hang_ok up -> look (hang up lf (Some x)) k = if decide (k = hang_key up) then Some x else None.
Proof.
  assert (forall k, look (Tree lf (Some x) []) k = if decide (k = []) then Some x else None) as Hl by (by intros []).
  destruct up as [[y lab]|]; intros Hu; [|cbn [hang hang_key]; rewrite Hl; by destruct k]. cbn [hang hang_key]. rewrite look_chain by done. destruct (decide (k = lab)) as [->|Hne].
  - rewrite <-(app_nil_r lab) at 2. by rewrite strip_app.
  - destruct (strip lab k) as [k'|] eqn:E; [|done]. apply strip_Some in E as ->. cbn [mbind option_bind]. rewrite Hl. rewrite decide_False; [done|]. intros ->. by rewrite app_nil_r in Hne.
Qed.

Lemma hang_set up lf x r : rep r (hang up lf None) -> NoDup (ids (hang up lf None)) ->
  exists r', node_mut lf (set_value (Some x)) r = Some r' /\ rep r' (hang up lf (Some x)) /\ rfree r' = rfree r /\ numele r' = numele r /\
    length (rnodes r') = length (rnodes r) /\ forall j, j <> lf -> node j r' = node j r.
Proof.
  intros Hr Hn. assert (node lf r = Some leaf) as Hlf.
  { destruct up as [[y lab]|]; [pose proof (rep_kid r _ 0 lab (Tree lf None []) Hr eq_refl) as Hr'; by apply rep_node in Hr'|by apply rep_node in Hr]. }
  destruct (node_mut_spec lf (set_value (Some x)) _ r Hlf) as (r' & -> & E1 & E2 & E3 & Hs). exists r'. split; [done|].
  assert (forall j, j <> lf -> node j r' = node j r) as Hs' by (intros j Hj; by rewrite Hs, decide_False). split; [|done].
  assert (rep r' (Tree lf (Some x) [])) as Hl by (apply rep_eq; split; [by rewrite Hs, decide_True|constructor]).
  destruct up as [[y lab]|]; [|done]. apply rep_eq. split; [|by constructor]. cbn in Hn. apply NoDup_cons in Hn as [Hn _].
  rewrite Hs' by (intros ->; apply Hn; by left). by apply (rep_node _ _ Hr).
Qed.

(** The leaf with its label is under the node, and gets its value. *)
Lemma extend_finish r r2 cs i v es up lf x lab es' f : holds r (plug cs (Tree i v es)) ->
  rep r2 (hang up lf None) -> Forall (fun e => rep r2 e.2) es -> own r2 (ids (hang up lf None) ++ kids_ids es ++ i :: ctx_ids cs) ->
  node i r2 = Some (node_of (Tree i v es)) -> (forall j, j ∈ ctx_ids cs -> node j r2 = node j r) ->
  es' ≡ₚ (lab, hang up lf (Some x)) :: es -> wf_edges es' -> hang_ok up -> f (node_of (Tree i v es)) = node_of (Tree i v es') ->
  exists r4, (r ← node_mut i f r2; r ← node_mut lf (set_value (Some x)) r; Some (set_numele (numele r + 1) r)) = Some r4 /\
    holds r4 (plug cs (Tree i v es')) /\ numele r4 = numele r2 + 1 /\ length (rnodes r4) = length (rnodes r2).
Proof.
  intros Hh Hrh Hrk Ho Hi Hx Hp Hwe Hu Hf. destruct (holds_at _ _ _ Hh) as (_ & _ & Hw & _).
  destruct Ho as (Hn & Ho2). pose proof Hn as Hnd. apply NoDup_app in Hnd as (Hnd & _). apply NoDup_app in Hnd as (Hnh & Hap & Hnd). apply NoDup_app in Hnd as (Hnk & Hap2 & Hnd).
  apply NoDup_cons in Hnd as [Hni _].
  assert (lf ∈ ids (hang up lf None)) as Hlf by (destruct up as [[y l]|]; cbn; set_solver).
  destruct (node_mut_spec i f _ r2 Hi) as (r3 & -> & F3 & N3 & L3 & S3). cbn [mbind option_bind].
  assert (forall j, j <> i -> node j r3 = node j r2) as S3' by (intros j Hj; by rewrite S3, decide_False).
  destruct (hang_set up lf x r3) as (r4 & -> & Hr4 & F4 & N4 & L4 & S4); [|done|].
  { apply (rep_ext r2); [done|]. intros j Hj. apply S3'. intros ->. apply (Hap i Hj). set_solver. }
  cbn [mbind option_bind]. eexists. split; [done|]. split; [|split; [cbn; lia|by rewrite <-L3, <-L4]].
  change (holds (set_numele (numele r4 + 1) r4) (plug cs (Tree i v es'))).
  assert (ids (Tree i v es') ≡ₚ i :: ids (hang up lf None) ++ kids_ids es) as Hids.
  { rewrite ids_eq. apply perm_skip. rewrite (hang_ids up lf None (Some x)). trans (kids_ids ((lab, hang up lf (Some x)) :: es)); [|by rewrite kids_cons]. unfold kids_ids, kids_subs. apply fmap_Permutation.
    assert (forall l l' : list (bytes * tree V), l ≡ₚ l' -> concat (map (fun e => subs e.2) l) ≡ₚ concat (map (fun e => subs e.2) l')) as Hc; [|by apply Hc].
    intros l l' E. induction E; cbn [map concat]; [done|by apply Permutation_app_head|by rewrite Permutation_app_swap_app|by etrans]. }
  assert (Forall good es') as Hg.
  { rewrite Hp. constructor; [by destruct (hang_wf up lf x Hu)|]. by apply wf_inv in Hw as [_ ?]. }
  apply (holds_plug r _ cs (Tree i v es)); [done|done|by apply wf_intro|right; cbn; intros ->; by apply Permutation_nil_cons in Hp| | |].
  - apply rep_eq. split; [change (node i r4 = Some (node_of (Tree i v es'))); rewrite S4, S3, decide_True by (try done; intros ->; by apply (Hap lf Hlf); set_solver); by rewrite Hf|].
    rewrite Hp. constructor; [exact Hr4|]. rewrite Forall_forall in Hrk |- *. intros e He. apply (rep_ext r2); [by apply Hrk|]. intros j Hj.
    assert (j ∈ kids_ids es) as Hjk by exact (kids_elem e es j He Hj).
    change (node j r4 = node j r2). rewrite S4, S3' by (intros ->; (apply (Hap lf Hlf); set_solver) || (apply (Hap2 i Hjk); set_solver)). done.
  - apply (own_perm _ (ids (hang up lf None) ++ kids_ids es ++ i :: ctx_ids cs)); [rewrite Hids; solve_Permutation|].
    unfold own. cbn [rfree rnodes set_numele]. rewrite F4, F3, L4, L3. done.
  - intros j Hj. change (node j r4 = node j r). rewrite S4, S3' by (intros ->; (apply (Hap lf Hlf); set_solver) || done). by apply Hx.
Qed.

Lemma extend_look i v es up lf x lab es' k : es' ≡ₚ (lab, hang up lf (Some x)) :: es -> wf_edges es -> wf_edges es' -> hang_ok up -> open_at (Tree i v es) (lab ++ hang_key up) -> lab <> [] ->
  look (Tree i v es') k = if decide (k = lab ++ hang_key up) then Some x else look (Tree i v es) k.
Proof.
  intros Hp Hw Hw' Hu [Hs Ho] Hl. apply option_eq. intros z. rewrite look_iff by done. cbn [edges val].
  assert (forall e, e ∈ es' <-> e = (lab, hang up lf (Some x)) \/ e ∈ es) as Hin by (intros e; rewrite Hp; apply elem_of_cons).
  destruct (decide (k = lab ++ hang_key up)) as [->|Hk].
  - split.
    + intros [[E _]|(lab' & s & k' & He & E & Hz)]; [by destruct lab|]. apply Hin in He as [[= -> ->]|He].
      * apply app_inv_head in E as <-. rewrite hang_look, decide_True in Hz by done. done.
      * exfalso. apply list_elem_of_lookup in He as Hj. destruct Hj as [j Hj]. destruct (singles_at es j lab' s Hs Hj) as [b ->]. apply (Ho b s); [|done]. by rewrite E.
    + intros [= ->]. right. exists lab, (hang up lf (Some z)), (hang_key up). split; [apply Hin; by left|]. split; [done|]. by rewrite hang_look, decide_True.
  - rewrite look_iff by done. cbn [edges val]. split; (intros [?|(lab' & s & k' & He & E & Hz)]; [by left|right]).
    + apply Hin in He as [[= -> ->]|He]; [|by exists lab', s, k']. exfalso. rewrite hang_look in Hz by done. case_decide; [by subst k'|done].
    + exists lab', s, k'. split; [apply Hin; by right|done].
Qed.

Lemma extend_spec r cs i v es rest x : holds r (plug cs (Tree i v es)) -> open_at (Tree i v es) rest -> rest <> [] -> (Z.of_nat (length (rnodes r)) + 1 < 2 ^ 32)%Z ->
  exists r' es', extend i rest x r = Some r' /\ holds r' (plug cs (Tree i v es')) /\
    (forall k, look (Tree i v es') k = if decide (k = rest) then Some x else look (Tree i v es) k) /\
    numele r' = numele r + 1 /\ length (rnodes r') <= length (rnodes r) + 2.
Proof.
  intros Hh Hop Hne Hroom. destruct (holds_at _ _ _ Hh) as (Hr & Ho & Hw & _). set (t := Tree i v es) in *. destruct (wf_inv t Hw) as [Hwe _]. cbn in Hwe.
  unfold extend. destruct (alloc_tree leaf r _ Ho ltac:(lia)) as (r1 & lf & -> & Hlf & Ho1 & N1 & L1 & S1). cbn [mbind option_bind].
  assert (forall j, j ∈ ids t ++ ctx_ids cs -> node j r1 = node j r) as S1' by (intros j Hj; rewrite S1, decide_False; [done|by intros ->]).
  assert (node i r1 = Some (node_of t)) as Hi by (rewrite S1' by (by left); by apply (rep_node r t)). rewrite Hi. cbn [mbind option_bind].
  assert (rep r1 (hang None lf None)) as Hrl by (apply rep_eq; split; [by rewrite S1, decide_True|constructor]).
  assert (Forall (fun e => rep r1 e.2) es) as Hrk.
  { apply rep_eq in Hr as [_ Hr]. rewrite Forall_forall in Hr |- *. intros e He. apply (rep_ext r); [by apply Hr|]. intros j Hj. apply S1'. apply elem_of_app. left. right.
    exact (kids_elem e es j He Hj). }
  destruct (bool_decide (children (node_of t) = []) && bool_decide (1 < length rest)) eqn:Eb.
  - apply andb_true_iff in Eb as [Ec%bool_decide_eq_true El%bool_decide_eq_true]. apply no_children in Ec. cbn in Ec. subst es.
    destruct (extend_finish r r1 cs i v [] None lf x rest [(rest, hang None lf (Some x))] (set_edges rest [lf] true)) as (r4 & E4 & H4 & N4 & L4);
      [done..|apply (own_perm _ (lf :: ids t ++ ctx_ids cs)); [done|done]|done|intros j Hj; apply S1'; set_solver|done|by apply wf_one|done| |].
    { unfold t, node_of, set_edges. cbn. by rewrite app_nil_r, bool_decide_eq_true_2. }
    rewrite E4. exists r4, [(rest, hang None lf (Some x))]. split; [done|]. split; [done|]. split; [|lia].
    intros k. pose proof (extend_look i v [] None lf x rest [(rest, hang None lf (Some x))] k) as Hk. cbn [hang_key] in Hk. rewrite app_nil_r in Hk. apply Hk; try done. by apply wf_one.
  - assert (singles es) as Hs by apply Hop. destruct rest as [|b rest]; [done|]. cbn [lookup list_lookup mbind option_bind drop]. rewrite drop_0.
    assert (exists up r2, (if decide (1 < length (b :: rest)) then labelled rest lf r1 else Some (r1, lf)) = Some (r2, root (hang up lf None)) /\ hang_ok up /\ hang_key up = rest /\
      rep r2 (hang up lf None) /\ own r2 (ids (hang up lf None) ++ ids t ++ ctx_ids cs) /\ numele r2 = numele r1 /\ length (rnodes r2) <= length (rnodes r1) + 1 /\
      forall j, j ∈ ids t ++ ctx_ids cs -> node j r2 = node j r1) as (up & r2 & E2 & Hu & Hk & Hr2 & Ho2 & N2 & L2 & S2).
    { case_decide as Hl.
      - destruct (labelled_spec rest (Tree lf None []) r1 (ids t ++ ctx_ids cs) Hrl Ho1 ltac:(lia)) as (r2 & y & E2 & H2 & H3 & _ & H4 & H5 & H6).
        exists (Some (y, rest)), r2. split; [done|]. split; [cbn in *; destruct rest; [cbn in Hl; lia|done]|]. done.
      - exists None, r1. split; [done|]. split; [done|]. split; [destruct rest; [done|cbn in Hl; lia]|]. do 2 (split; [done|]). split; [done|]. split; [lia|done]. }
    rewrite E2. cbn [mbind option_bind]. assert (node i r2 = Some (node_of t)) as Hi2 by (rewrite S2 by (by left); done). rewrite Hi2. cbn [mbind option_bind].
    set (es' := edge_in (place_of b (chars (node_of t))) b (hang up lf (Some x)) es).
    assert (es' ≡ₚ ([b], hang up lf (Some x)) :: es) as Hp by (unfold es', edge_in; rewrite <-Permutation_middle; by rewrite take_drop).
    assert (wf_edges es') as Hwe' by (apply edge_in_wf; [done|done|]; intros s'; by apply Hop).
    match goal with |- context [node_mut i ?f r2] => destruct (extend_finish r r2 cs i v es up lf x [b] es' f) as (r4 & E4 & H4 & N4 & L4) end; try done.
    + rewrite Forall_forall in Hrk |- *. intros e He. apply (rep_ext r1); [by apply Hrk|]. intros j Hj. apply S2. apply elem_of_app. left. right.
      exact (kids_elem e es j He Hj).
    + apply (own_perm _ (ids (hang up lf None) ++ ids t ++ ctx_ids cs)); [|done]. unfold t. rewrite ids_eq. solve_Permutation.
    + intros j Hj. rewrite S2, S1' by set_solver. done.
    + unfold es'. rewrite (edge_in_node i v es) by done. fold t. by rewrite (hang_root up lf None (Some x)).
    + rewrite E4. exists r4, es'. split; [done|]. split; [done|]. split; [|lia]. intros k.
      pose proof (extend_look i v es up lf x [b] es' k Hp Hwe Hwe' Hu) as Hlk. rewrite Hk in Hlk. by apply Hlk.
Qed.

(** ** Insertion *)

Lemma value_set r cs i v es v' : holds r (plug cs (Tree i v es)) ->
  exists r', node_mut i (set_value v') r = Some r' /\ rep r' (plug cs (Tree i v' es)) /\ own r' (ids (plug cs (Tree i v' es))) /\
    numele r' = numele r /\ length (rnodes r') = length (rnodes r).
Proof.
  intros Hh. destruct (holds_at _ _ _ Hh) as (Hr & Ho & _). pose proof (rep_node _ _ Hr) as Hi. cbn [root] in Hi.
  destruct (node_mut_spec i (set_value v') _ r Hi) as (r' & -> & F & N & L & S'). exists r'. split; [done|].
  assert (i ∉ kids_ids es ++ ctx_ids cs) as Hni by (destruct Ho as (Hn & _); apply NoDup_app in Hn as (Hn & _); rewrite ids_eq in Hn; by apply NoDup_cons in Hn as [? _]).
  assert (forall j, j ∈ kids_ids es ++ ctx_ids cs -> node j r' = node j r) as Hs by (intros j Hj; rewrite S', decide_False; [done|by intros ->]).
  split; [|split; [|done]].
  - apply (rep_plug_ext r r' cs (Tree i v es)); [by apply holds_rep|done| |intros j Hj; apply Hs; set_solver]. apply rep_eq. split; [by rewrite S', decide_True|].
    apply rep_eq in Hr as [_ Hr]. rewrite Forall_forall in Hr |- *. intros e He. apply (rep_ext r); [by apply Hr|]. intros j Hj. apply Hs. apply elem_of_app. left.
    exact (kids_elem e es j He Hj).
  - apply (own_perm _ (ids (Tree i v es) ++ ctx_ids cs)); [by rewrite ids_plug|]. unfold own. by rewrite F, L.
Qed.

Lemma look_value cs i v v' es k : wf_ctx cs -> look (plug cs (Tree i v' es)) k = if decide (k = ctx_key cs) then v' else look (plug cs (Tree i v es)) k.
Proof.
  intros Hw. destruct (decide (k = ctx_key cs)) as [->|Hk].
  - pose proof (look_plug_at cs (Tree i v' es) [] Hw) as H. by rewrite app_nil_r in H.
  - destruct (strip (ctx_key cs) k) as [k1|] eqn:E; [|by apply look_plug_off]. apply strip_Some in E as ->. rewrite !look_plug_at by done.
    destruct k1; [by rewrite app_nil_r in Hk|done].
Qed.

Lemma insert_tree r t key x : holds r t -> (Z.of_nat (length (rnodes r)) + 3 < 2 ^ 32)%Z ->
  exists r' t', insert key x r = Some (r', look t key) /\ holds r' t' /\ (forall k, look t' k = if decide (k = key) then Some x else look t k) /\
    numele r' = numele r + (if look t key is Some _ then 0 else 1) /\ length (rnodes r') <= length (rnodes r) + 4.
Proof.
  intros Hh Hroom. unfold insert. destruct (insert_descend_spec (S (length key)) key [] t r Hh ltac:(lia) ltac:(lia)) as (r1 & cs & [i v es] & rest & E1 & H1 & Hl & Hk & Hop & N1 & L1).
  cbn [ctx_key app length] in E1, Hk. rewrite (holds_root _ _ Hh) in E1. rewrite E1. cbn [mbind option_bind]. cbn [plug] in Hl.
  destruct (holds_at _ _ _ H1) as (Hr & _ & Hw & Hwc & _). subst key. cbn [root].
  assert (look t (ctx_key cs ++ rest) = look (Tree i v es) rest) as Hlk by (by rewrite <-Hl, look_plug_at).
  destruct (decide (rest = [])) as [->|Hne].
  - rewrite app_nil_r in *. rewrite decide_True by done. pose proof (rep_node _ _ Hr) as Hi. cbn [root] in Hi. rewrite Hi. cbn [fmap option_fmap option_map mbind option_bind].
    destruct (value_set r1 cs i v es (Some x) H1) as (r2 & -> & R2 & O2 & N2 & L2). cbn [mbind option_bind]. change (value (node_of (Tree i v es))) with v. rewrite Hlk. cbn [look].
    assert (holds r2 (plug cs (Tree i (Some x) es))) as H2.
    { split; [done|done| |]; [|rewrite (plug_root cs (Tree i v es)) by done; by apply (holds_root _ _ H1)]. apply wf_plug. split; [done|]. split; [|by left].
      apply wf_inv in Hw as [??]. by apply wf_intro. }
    exists (match v with Some _ => r2 | None => set_numele (numele r2 + 1) r2 end), (plug cs (Tree i (Some x) es)).
    split; [by destruct v|]. split; [destruct v; [done|]; by destruct H2|]. split; [intros k; rewrite (look_value cs i v) by done; by rewrite Hl|]. destruct v; cbn; lia.
  - rewrite decide_False by (rewrite length_app; destruct rest; [done|cbn; lia]). rewrite drop_app_length.
    destruct (extend_spec r1 cs i v es rest x H1 (Hop Hne) Hne ltac:(lia)) as (r2 & es' & -> & H2 & Hl2 & N2 & L2). cbn [mbind option_bind].
    assert (look (Tree i v es) rest = None) as Hnone.
    { destruct rest as [|b rest]; [done|]. rewrite look_kids_eq by done. apply look_no_edge. intros j lab s Hj. destruct (Hop Hne) as [Hs Hb]. cbn in Hj.
      destruct (singles_at es j lab s Hs Hj) as [c ->]. exists c. split; [done|]. intros ->. apply (Hb b s eq_refl). by eapply list_elem_of_lookup_2. }
    rewrite Hlk, Hnone. exists r2, (plug cs (Tree i v es')). split; [done|]. split; [done|]. split; [|lia]. intros k. rewrite <-Hl.
    destruct (strip (ctx_key cs) k) as [k1|] eqn:E.
    + apply strip_Some in E as ->. rewrite !look_plug_at, Hl2 by done. destruct (decide (k1 = rest)) as [->|Hn]; [by rewrite decide_True|]. rewrite decide_False; [done|]. by intros ?%app_inv_head.
    + rewrite decide_False by (intros ->; by rewrite strip_app in E). by apply look_plug_off.
Qed.
End insert.
