(* ===== verification/RaxRemove.v ===== *)
(** * Removal

    Dead leaves are given up and chains merged: nothing else changes of what the
    tree maps, and the nodes given up are free again. *)
From S2P Require Import Prelude Skiplist SkiplistOrder Rax RaxFacts RaxWalk RaxInsert.
Open Scope nat_scope.

Section remove.
Context {V : Type}.
Implicit Types (r : Rax V) (t s : tree V) (es : list (bytes * tree V)) (cs : list (hole V)).

(** ** Dead leaves *)

Lemma plug_root_in c cs t : root (plug (c :: cs) t) ∈ ctx_ids (c :: cs).
Proof.
  revert c t. induction cs as [|c' cs IH]; intros c t; [by left|]. change (plug (c :: c' :: cs) t) with (plug (c' :: cs) (plug1 c t)).
  cbn [ctx_ids]. pose proof (IH c' (plug1 c t)) as H. cbn [ctx_ids] in H. set_solver.
Qed.

Lemma own_fresh r t ix : own r (ids t ++ ix) -> root t ∉ ix.
Proof. intros (Hn & _) Hx. apply NoDup_app in Hn as (Hn & _). apply NoDup_app in Hn as (_ & Hn & _). apply (Hn (root t)); [destruct t; by left|done]. Qed.

(** A node without its [j]-th edge. *)
Lemma cut_edge c t : wf_edges (edges (plug1 c t)) -> let n := node_of (plug1 c t) in let j := length (hleft c) in
  is_Some (chars n !! j) /\ is_Some (children n !! j) /\
  set_edges (if compressed n then [] else take j (chars n) ++ drop (j + 1) (chars n)) (take j (children n) ++ drop (j + 1) (children n)) false n =
  node_of (Tree (hid c) (hval c) (hleft c ++ hright c)).
Proof.
  intros Hw n j. assert (edges (plug1 c t) !! j = Some (hlab c, t)) as Hj by (cbn; unfold j; by rewrite lookup_app_r, Nat.sub_diag by lia).
  pose proof (children_at _ _ _ _ Hj : children n !! j = _) as Hc.
  assert (take j (children n) ++ drop (j + 1) (children n) = (fun e => root e.2) <$> (hleft c ++ hright c)) as Eks.
  { unfold n, node_of, j. cbn [edges plug1 children]. rewrite !fmap_app. cbn [fmap list_fmap]. rewrite <-(length_fmap (fun e => root e.2) (hleft c)).
    rewrite take_app_length. f_equal. rewrite drop_app_add. done. }
  destruct (wf_cases _ Hw) as [(lab & s & E & Hl)|Hs].
  - unfold plug1 in E. cbn [edges] in E. destruct (hleft c) as [|? [|??]] eqn:El, (hright c) eqn:Er; try done. injection E as <- <-.
    unfold n, plug1 in Hc |- *. rewrite El, Er in Hc |- *. cbn [app] in *. rewrite node_long in Hc |- * by done. unfold j in *. cbn [chars children compressed length] in *.
    split; [destruct (hlab c); [cbn in Hl; lia|by eexists]|]. split; [by eexists|]. done.
  - destruct (node_singles (hid c) (hval c) _ Hs) as (Hcmp & Hlen & _). change (compressed n = false) in Hcmp. change (length (chars n) = length (edges (plug1 c t))) in Hlen. rewrite Hcmp.
    split; [apply lookup_lt_is_Some_2; rewrite Hlen; by apply lookup_lt_Some in Hj|]. split; [by eexists|].
    assert (singles (hleft c ++ hright c)) as Hs'. { unfold singles in *. cbn in Hs. apply Forall_app in Hs as [? Hs]. apply Forall_cons in Hs as [_ ?]. by apply Forall_app. }
    destruct (node_singles (hid c) (hval c) _ Hs') as (Hcmp' & _). unfold node_of in Hcmp' |- *. cbn [compressed edges val] in *. unfold set_edges. rewrite Hcmp', Eks. f_equal.
    unfold n, node_of, j. cbn [edges plug1 chars]. unfold singles in Hs. cbn [edges plug1] in Hs. apply Forall_app in Hs as [Hs1 Hs2]. apply Forall_cons in Hs2 as [Hl Hs2].
    destruct (singles_chars _ Hs1) as (l1 & E1 & E2). rewrite !fmap_app, !concat_app. cbn [fmap list_fmap concat fst]. rewrite E2.
    assert (length (hleft c) = length l1) as -> by (rewrite <-(length_fmap fst), E1; by rewrite length_fmap). cbn [fst] in Hl. destruct (hlab c) as [|b [|??]]; [done| |done].
    rewrite take_app_length, drop_app_add. done.
Qed.

Lemma dead_look t k : val t = None -> edges t = [] -> look t k = None.
Proof. destruct t as [i v es]. cbn. intros -> ->. by destruct k. Qed.

Lemma cut_look c t k : wf_edges (edges (plug1 c t)) -> val t = None -> edges t = [] -> look (plug1 c t) k = look (Tree (hid c) (hval c) (hleft c ++ hright c)) k.
Proof.
  intros Hw Hv He. apply option_eq. intros z. rewrite (look_iff (plug1 c t)) by done. rewrite (look_iff (Tree (hid c) (hval c) (hleft c ++ hright c))) by exact (wf_edges_sub _ _ _ Hw). cbn [edges val plug1].
  split; (intros [?|(lab & s & k' & Hin & ? & Hz)]; [by left|right]).
  - apply elem_of_app in Hin as [Hin|Hin]; [exists lab, s, k'; split; [set_solver|done]|]. apply elem_of_cons in Hin as [[= -> ->]|Hin]; [by rewrite dead_look in Hz|].
    exists lab, s, k'. split; [set_solver|done].
  - exists lab, s, k'. split; [set_solver|done].
Qed.

(** ** Giving up the dead leaves *)

(** The arena holds the tree, though a leaf may be dead. *)
Record seats r t : Prop := { seats_rep : rep r t; seats_own : own r (ids t); seats_root : root t = ROOT }.

Lemma prune_step c cs t r : seats r (plug (c :: cs) t) -> wf_ctx (c :: cs) -> edges t = [] ->
  exists p r1 r2, node (hid c) r = Some p /\ is_Some (chars p !! length (hleft c)) /\ is_Some (children p !! length (hleft c)) /\
    node_mut (hid c) (set_edges (if compressed p then [] else take (length (hleft c)) (chars p) ++ drop (length (hleft c) + 1) (chars p))
      (take (length (hleft c)) (children p) ++ drop (length (hleft c) + 1) (children p)) false) r = Some r1 /\
    release (root t) r1 = Some r2 /\ seats r2 (plug cs (Tree (hid c) (hval c) (hleft c ++ hright c))) /\ numele r2 = numele r /\ length (rnodes r2) = length (rnodes r).
Proof.
  intros [H1 H2 H3] (Hwe & _) Het. assert (own r (ids t ++ ctx_ids (c :: cs))) as Ho by (apply (own_perm _ (ids (plug (c :: cs) t))); [apply ids_plug|done]).
  pose proof (own_fresh _ _ _ Ho) as Hi. set (i := root t) in *. cbn [plug] in H1. pose proof (rep_plug _ _ _ H1) as Hrp. pose proof (rep_node _ _ Hrp) as Hp. change (node (hid c) r = Some (node_of (plug1 c t))) in Hp.
  destruct (cut_edge c t (plug1_edges c _ t Hwe)) as (Hc & Hk & En). exists (node_of (plug1 c t)).
  match goal with |- context [node_mut (hid c) ?f r] => destruct (node_mut_spec (hid c) f _ r Hp) as (r1 & E1 & F1 & N1 & L1 & S1) end.
  assert (hid c <> i) as Hci by (intros E; apply Hi; rewrite <-E; by left).
  assert (node i r1 = Some (node_of t)) as Hi1. { rewrite S1, decide_False by done. apply (rep_node r t). by apply (rep_plug r (c :: cs)). }
  assert (ids t = [i]) as Hit by (destruct t; cbn in Het; by subst).
  destruct (release_spec i (node_of t) r1 (ctx_ids (c :: cs))) as (r2 & E2 & O2 & N2 & L2 & S2); [|done|].
  { rewrite Hit in Ho. unfold own in Ho |- *. rewrite F1, L1. exact Ho. }
  exists r1, r2. do 3 (split; [done|]). split; [exact E1|]. split; [done|]. split; [|split; [by rewrite N2|by rewrite L2]].
  assert (forall j, j ∈ ctx_ids (c :: cs) -> j <> hid c -> node j r2 = node j r) as Hs by (intros j Hj Hjc; rewrite S2, S1, decide_False; [done..|by intros ->]).
  split.
  - apply (rep_plug_ext r r2 cs (plug1 c t)); [done|done| |].
    + apply rep_eq. split; [rewrite S2, S1, decide_True by done; by f_equal|]. apply rep_eq in Hrp as [_ Hrp]. apply Forall_app in Hrp as [Hra Hrb]. apply Forall_cons in Hrb as [_ Hrb].
      assert (Forall (fun e => rep r e.2) (hleft c ++ hright c)) as Hall by by apply Forall_app. rewrite Forall_forall in Hall |- *.
      intros e He. apply (rep_ext r); [by apply Hall|]. intros j Hj. pose proof (kids_elem e _ j He Hj) as Hjk. apply Hs; [cbn; set_solver|]. intros ->.
      destruct Ho as (Hn & _). apply NoDup_app in Hn as (Hn & _). apply NoDup_app in Hn as (_ & _ & Hn). cbn in Hn. apply NoDup_cons in Hn as [Hn _]. apply Hn. set_solver.
    + intros j Hj. apply Hs; [cbn; set_solver|]. intros ->. destruct Ho as (Hn & _). apply NoDup_app in Hn as (Hn & _). apply NoDup_app in Hn as (_ & _ & Hn). cbn in Hn.
      apply NoDup_cons in Hn as [Hn _]. apply Hn. set_solver.
  - apply (own_perm _ (ctx_ids (c :: cs))); [|done]. rewrite ids_plug, ids_eq. done.
  - rewrite <-H3. by apply (plug_root cs (plug1 c t)).
Qed.

Lemma prune_spec cs t r : seats r (plug cs t) -> wf_ctx cs -> wf t ->
  exists r' cs' t', prune (root t) (ctx_frames cs) r = Some (r', root t', ctx_frames cs') /\ holds r' (plug cs' t') /\
    (forall k, look (plug cs' t') k = look (plug cs t) k) /\ numele r' = numele r /\ length (rnodes r') = length (rnodes r).
Proof.
  revert t r. induction cs as [|c cs IH]; intros t r Hs Hwc Hw; pose proof Hs as [H1 H2 H3].
  - cbn [prune ctx_frames]. rewrite (rep_node r t H1). cbn [mbind option_bind plug] in *. rewrite H3, bool_decide_eq_false_2 by (by intros []). cbn [andb].
    exists r, [], t. rewrite <-H3. split; [done|]. split; [by split|done].
  - pose proof (rep_plug _ _ _ H1) as Hr. cbn [ctx_frames prune]. rewrite (rep_node r t Hr). cbn [mbind option_bind].
    assert (own r (ids t ++ ctx_ids (c :: cs))) as Ho by (apply (own_perm _ (ids (plug (c :: cs) t))); [apply ids_plug|done]).
    pose proof (own_fresh _ _ _ Ho) as Hi. rewrite bool_decide_eq_true_2 by (rewrite <-H3; intros E; apply Hi; rewrite E; apply plug_root_in). cbn [andb].
    destruct (bool_decide (children (node_of t) = []) && _) eqn:Eb.
    + apply andb_true_iff in Eb as [Ec%bool_decide_eq_true Ev%negb_true_iff%bool_decide_eq_false]. apply no_children in Ec. destruct t as [i v es]. cbn in Ec, Ev. subst es.
      destruct v; [by destruct Ev|]. destruct (prune_step c cs (Tree i None []) r Hs Hwc eq_refl) as (p & r1 & r2 & Hp & [x Hx] & [y Hy] & E1 & E2 & Hs2 & N2 & L2). cbn [root] in E2. cbn [fnode child root].
      rewrite Hp. cbn [mbind option_bind]. rewrite Hx, Hy. cbn [mbind option_bind]. rewrite E1. cbn [mbind option_bind]. rewrite E2. cbn [mbind option_bind].
      destruct Hwc as (Hwe & Hgl & Hgr & Hwc). destruct (IH (Tree (hid c) (hval c) (hleft c ++ hright c)) r2 Hs2 Hwc) as (r3 & cs' & t' & E3 & H4 & Hl & N3 & L3).
      { apply wf_intro; [by eapply wf_edges_sub|by apply Forall_app]. }
      cbn [root] in E3. rewrite E3. exists r3, cs', t'. split; [done|]. split; [done|]. split; [|split; lia]. intros k. rewrite Hl. cbn [plug]. apply look_plug_ext; [done|].
      intros k'. symmetry. apply cut_look; [by apply (plug1_edges c (Tree 0%N None []))|done..].
    + exists r, (c :: cs), t. split; [done|]. split; [|done]. split; [done|done| |done]. apply wf_plug. split; [done|]. split; [done|]. intros _.
      apply andb_false_iff in Eb as [Eb%bool_decide_eq_false|Eb%negb_false_iff%bool_decide_eq_true]; [right; by rewrite no_children in Eb|by left].
Qed.

(** ** Chains *)

(** A node that its only child carries on. *)
Lemma merge_chain cs i v lab c lab' s r : holds r (plug cs (Tree i v [(lab, Tree c None [(lab', s)])])) ->
  exists r1 r2, node_mut i (set_edges (lab ++ lab') [root s] (bool_decide (1 < length (lab ++ lab')))) r = Some r1 /\ release c r1 = Some r2 /\
    holds r2 (plug cs (Tree i v [(lab ++ lab', s)])) /\ numele r2 = numele r /\ length (rnodes r2) = length (rnodes r).
Proof.
  intros Hh. destruct (holds_at _ _ _ Hh) as (Hr & Ho & Hw & _). set (t := Tree i v _) in *. set (m := Tree c None _) in *.
  destruct (wf_kid t 0 lab m Hw eq_refl) as (_ & Hwm & Hl). destruct (wf_kid m 0 lab' s Hwm eq_refl) as (Has & Hws & Hl').
  pose proof (rep_kid r t 0 lab m Hr eq_refl) as Hrm. pose proof (rep_kid r m 0 lab' s Hrm eq_refl) as Hrs.
  pose proof (rep_node r t Hr) as Hi. pose proof (rep_node r m Hrm) as Hc. cbn [root t m] in Hi, Hc.
  destruct (node_mut_spec i (set_edges (lab ++ lab') [root s] (bool_decide (1 < length (lab ++ lab')))) _ r Hi) as (r1 & -> & F1 & N1 & L1 & S1).
  assert (ids t ++ ctx_ids cs ≡ₚ c :: i :: ids s ++ ctx_ids cs) as Hp.
  { unfold t, m. rewrite !ids_one. apply perm_swap. }
  pose proof (own_perm _ _ _ Hp Ho) as Ho'. pose proof Ho' as (Hn & _). apply NoDup_app in Hn as (Hn & _). apply NoDup_cons in Hn as [Hcn Hn]. apply NoDup_cons in Hn as [Hin _].
  assert (node c r1 = Some (node_of m)) as Hc1 by (rewrite S1, decide_False; [done|intros ->; apply Hcn; by left]).
  destruct (release_spec c (node_of m) r1 (i :: ids s ++ ctx_ids cs)) as (r2 & E2 & O2 & N2 & L2 & S2); [unfold own in Ho' |- *; by rewrite F1, L1|done|].
  exists r1, r2. split; [done|]. split; [done|]. split; [|split; [by rewrite N2|by rewrite L2]].
  assert (forall j, j ∈ ids s ++ ctx_ids cs -> node j r2 = node j r) as Hs.
  { intros j Hj. rewrite S2 by (intros ->; apply Hcn; by right). rewrite S1, decide_False; [done|]. by intros ->. }
  assert (lab ++ lab' <> []) as Hne by by destruct lab.
  apply (holds_plug r r2 cs t); [done|done|by apply wf_single_tree|by right| | |].
  - apply rep_eq. split; [rewrite S2 by (intros ->; apply Hcn; by left); rewrite S1, decide_True by done; unfold t, node_of, set_edges; cbn; by rewrite app_nil_r|].
    constructor; [|constructor]. apply (rep_ext r); [done|]. intros j Hj. apply Hs. set_solver.
  - by rewrite ids_one.
  - intros j Hj. apply Hs. set_solver.
Qed.

(** The chain below a node is gone. *)
Definition unchained t : Prop := forall lab c lab' s, edges t <> [(lab, Tree c None [(lab', s)])].

Lemma try_merge_loop_spec fuel cs t r : holds r (plug cs t) -> length (ids t) < fuel ->
  exists r' t', try_merge_loop fuel (root t) r = Some r' /\ root t' = root t /\ holds r' (plug cs t') /\ (forall k, look t' k = look t k) /\ unchained t' /\
    numele r' = numele r /\ length (rnodes r') = length (rnodes r).
Proof.
  revert t r. induction fuel as [|fuel IH]; intros t r Hh Hf; [lia|]. destruct (holds_at _ _ _ Hh) as (Hr & _ & Hw & _). cbn [try_merge_loop].
  rewrite (rep_node r t Hr). cbn [mbind option_bind].
  assert (unchained t -> exists r' t', Some r = Some r' /\ root t' = root t /\ holds r' (plug cs t') /\ (forall k, look t' k = look t k) /\ unchained t' /\
    numele r' = numele r /\ length (rnodes r') = length (rnodes r)) as Hstop by (intros Hu; by exists r, t).
  destruct t as [i v es]. destruct es as [|[lab m] [|e es]]; [apply Hstop; by intros ????| |apply Hstop; by intros ????]. cbn [children node_of edges fmap list_fmap snd].
  rewrite (rep_node r m) by by apply (rep_kid r (Tree i v [(lab, m)]) 0 lab m). cbn [mbind option_bind].
  destruct m as [c [w|] ms]; [apply Hstop; by intros ????|]. destruct ms as [|[lab' s] [|e ms]]; [apply Hstop; by intros ????| |apply Hstop; by intros ????].
  cbn [value node_of val children edges fmap list_fmap snd chars concat fst root]. rewrite !app_nil_r.
  destruct (merge_chain cs i v lab c lab' s r Hh) as (r1 & r2 & -> & E2 & H2 & N2 & L2). cbn [mbind option_bind]. rewrite E2. cbn [mbind option_bind].
  destruct (IH (Tree i v [(lab ++ lab', s)]) r2 H2) as (r' & t' & E' & Hroot & H' & Hl & Hu & N' & L').
  { rewrite (ids_one i), (ids_one c) in Hf. rewrite ids_one. cbn [length] in *. lia. }
  exists r', t'. split; [done|]. split; [done|]. split; [done|]. split; [|split; [done|split; lia]]. intros k. rewrite Hl.
  destruct (wf_kid (Tree i v [(lab, Tree c None [(lab', s)])]) 0 _ _ Hw eq_refl) as (_ & Hwm & Hne). destruct (wf_kid _ 0 _ _ Hwm eq_refl) as (_ & _ & Hne').
  rewrite !look_single by (try done; by destruct lab). destruct (decide (k = [])) as [->|]; [done|]. rewrite strip_add.
  destruct (strip lab k) as [k'|]; [|done]. cbn [mbind option_bind]. by rewrite look_chain.
Qed.

Lemma merge_chains cs t r : holds r (plug cs t) ->
  exists r' t', try_merge (root t) r = Some r' /\ root t' = root t /\ holds r' (plug cs t') /\ (forall k, look t' k = look t k) /\ unchained t' /\
    numele r' = numele r /\ length (rnodes r') = length (rnodes r).
Proof.
  intros Hh. apply try_merge_loop_spec; [done|]. destruct (holds_at _ _ _ Hh) as (_ & (_ & _ & <- & _) & _). rewrite !length_app. lia.
Qed.

Lemma merge_up_spec cs t r : holds r (plug cs t) ->
  exists r' t', merge_up (ctx_frames cs) r = Some r' /\ holds r' t' /\ (forall k, look t' k = look (plug cs t) k) /\ numele r' = numele r /\ length (rnodes r') = length (rnodes r).
Proof.
  revert t r. induction cs as [|c cs IH]; intros t r Hh; [by exists r, t|]. cbn [ctx_frames merge_up fnode plug]. destruct (holds_at _ _ _ Hh) as (_ & _ & _ & (_ & _ & _ & Hwc) & _).
  destruct (merge_chains cs (plug1 c t) r Hh) as (r1 & t1 & E1 & _ & H1 & Hl & _ & N1 & L1). cbn [root plug1] in E1. rewrite E1. cbn [mbind option_bind].
  destruct (IH t1 r1 H1) as (r2 & t2 & E2 & H2 & Hl2 & N2 & L2). exists r2, t2. split; [done|]. split; [done|]. split; [|split; lia]. intros k. rewrite Hl2. by apply look_plug_ext.
Qed.

(** ** Removal *)

Lemma remove_tree r t key : holds r t ->
  exists r' t', remove key r = Some (r', look t key) /\ holds r' t' /\ (forall k, look t' k = if decide (k = key) then None else look t k) /\
    numele r' = numele r - (if look t key is Some _ then 1 else 0) /\ length (rnodes r') = length (rnodes r).
Proof.
  intros Hh. unfold remove. destruct (walk_tree t r key (holds_rep _ _ Hh) (holds_wf _ _ Hh) (holds_root _ _ Hh)) as ([[[cur n] split] stack] & -> & Hx). cbn [mbind option_bind].
  assert (look t key = None -> exists r' t', Some (r, None) = Some (r', look t key) /\ holds r' t' /\ (forall k, look t' k = if decide (k = key) then None else look t k) /\
    numele r' = numele r - (if look t key is Some _ then 1 else 0) /\ length (rnodes r') = length (rnodes r)) as Hnone.
  { intros E. exists r, t. rewrite E. split; [done|]. split; [done|]. split; [|split; [lia|done]]. intros k. case_decide; [by subst|done]. }
  destruct Hx as [(cs & [i v es] & -> & -> & -> & -> & -> & ->)|[Hx E]]; [|rewrite decide_True by done; by apply Hnone].
  rewrite decide_False by (by intros [?|?]). destruct (holds_at _ _ _ Hh) as (Hr & _ & Hw & Hwc & _). cbn [root].
  pose proof (rep_node _ _ Hr) as Hi. cbn [root] in Hi. rewrite Hi. cbn [fmap option_fmap option_map mbind option_bind]. change (value (node_of (Tree i v es))) with v.
  pose proof (look_plug_at cs (Tree i v es) [] Hwc) as Hlk. rewrite app_nil_r, look_nil in Hlk. cbn [val] in Hlk. destruct v as [x|]; [|by apply Hnone].
  destruct (value_set r cs i (Some x) es None Hh) as (r1 & -> & R1 & O1 & N1 & L1). cbn [mbind option_bind].
  destruct (prune_spec cs (Tree i None es) (set_numele (numele r1 - 1) r1)) as (r2 & cs2 & t2 & E2 & H2 & Hl2 & N2 & L2).
  { split; [done|done|]. rewrite (plug_root cs (Tree i (Some x) es)) by done. by apply holds_root in Hh. }
  { done. }
  { apply wf_inv in Hw as [??]. by apply wf_intro. }
  cbn [root] in E2. rewrite E2. cbn [mbind option_bind]. destruct (merge_chains cs2 t2 r2 H2) as (r3 & t3 & -> & Hroot & H3 & Hl3 & _ & N3 & L3). cbn [mbind option_bind].
  destruct (merge_up_spec cs2 t3 r3 H3) as (r4 & t4 & -> & H4 & Hl4 & N4 & L4). cbn [mbind option_bind]. rewrite Hlk. exists r4, t4. split; [done|]. split; [done|].
  cbn [numele rnodes set_numele] in *. split; [|split; lia]. intros k. rewrite Hl4. destruct (holds_at _ _ _ H2) as (_ & _ & _ & Hwc2 & _).
  rewrite (look_plug_ext cs2 t3 t2) by done. rewrite Hl2. by apply look_value.
Qed.
End remove.
