(* ===== verification/RaxListing.v ===== *)
(** * The pairs of a tree, in the order of their keys

    The listing of a tree, and how it falls into what comes before a place of
    it, what is below, and what comes after. *)
From S2P Require Import Prelude Skiplist SkiplistOrder Rax RaxFacts RaxWalk RaxInsert.
From stdpp Require Import sorting.
Open Scope nat_scope.

(** ** The order of the keys *)

Lemma cmp_app p a b : cmp (p ++ a) (p ++ b) = cmp a b.
Proof. induction p as [|x p IH]; [done|]. cbn. by rewrite Z.compare_refl. Qed.

Lemma cmp_refl a : cmp a a = Datatypes.Eq.
Proof. by apply cmp_eq. Qed.

Lemma cmp_longer p a : a <> [] -> cmp p (p ++ a) = Datatypes.Lt.
Proof. intros Ha. rewrite <-(app_nil_r p) at 1. rewrite cmp_app. by destruct a. Qed.

Lemma cmp_fb a b : (fb a < fb b)%Z -> cmp a b = Datatypes.Lt.
Proof. destruct a as [|x a], b as [|y b]; cbn; intros H; [lia|done|pose proof (b2z_range x); lia|]. rewrite (proj2 (Z.compare_lt_iff _ _)) by lia. done. Qed.

Section listing.
Context {V : Type}.
Implicit Types (t s : tree V) (es : list (bytes * tree V)) (cs : list (hole V)) (l : list (bytes * V)).

Definition pre (lab : bytes) l : list (bytes * V) := (fun p => (lab ++ p.1, p.2)) <$> l.
Definition self (v : option V) : list (bytes * V) := match v with Some x => [([], x)] | None => [] end.
Fixpoint entries t : list (bytes * V) := match t with Tree _ v es => self v ++ concat (map (fun e => pre e.1 (entries e.2)) es) end.
Definition below es : list (bytes * V) := concat (map (fun e => pre e.1 (entries e.2)) es).

Lemma entries_eq t : entries t = self (val t) ++ below (edges t).
Proof. by destruct t. Qed.
Lemma below_cons e es : below (e :: es) = pre e.1 (entries e.2) ++ below es.
Proof. done. Qed.
Lemma below_app es es' : below (es ++ es') = below es ++ below es'.
Proof. unfold below. by rewrite map_app, concat_app. Qed.
Lemma pre_app lab l l' : pre lab (l ++ l') = pre lab l ++ pre lab l'.
Proof. apply fmap_app. Qed.
Lemma pre_pre lab lab' l : pre lab (pre lab' l) = pre (lab ++ lab') l.
Proof. unfold pre. rewrite <-list_fmap_compose. apply list_fmap_ext. intros i [k v] _. cbn. by rewrite app_assoc. Qed.
Lemma pre_nil l : pre [] l = l.
Proof. unfold pre. rewrite <-(list_fmap_id l) at 2. apply list_fmap_ext. by intros i [k v] _. Qed.
Lemma elem_pre k v lab l : (k, v) ∈ pre lab l <-> exists k', k = lab ++ k' /\ (k', v) ∈ l.
Proof.
  unfold pre. rewrite list_elem_of_fmap. split; [intros ([k' v'] & [= -> ->] & H); eauto|]. intros (k' & -> & H). by exists (k', v).
Qed.
Lemma elem_below k v es : (k, v) ∈ below es <-> exists lab s k', (lab, s) ∈ es /\ k = lab ++ k' /\ (k', v) ∈ entries s.
Proof.
  unfold below. rewrite list_elem_of_In, in_concat. split.
  - intros (l & Hl & Hk). apply in_map_iff in Hl as ([lab s] & <- & He). apply list_elem_of_In in He, Hk. apply elem_pre in Hk as (k' & -> & Hk). by exists lab, s, k'.
  - intros (lab & s & k' & He & -> & Hk). exists (pre lab (entries s)). split; [apply in_map_iff; exists (lab, s); split; [done|by apply list_elem_of_In]|].
    apply list_elem_of_In, elem_pre. eauto.
Qed.
Lemma elem_self k v o : (k, v) ∈ self o <-> k = [] /\ o = Some v.
Proof. destruct o as [x|]; cbn; [rewrite list_elem_of_singleton; naive_solver|split; [by intros ?%elem_of_nil|naive_solver]]. Qed.

(** The listing is what the tree maps. *)
Lemma elem_entries t k v : wf t -> (k, v) ∈ entries t <-> look t k = Some v.
Proof.
  revert k v. induction t as [i o es IH] using tree_rect_edges. intros k v [Hw Hk]%wf_inv. cbn [edges] in *. rewrite look_iff by done. rewrite entries_eq, elem_of_app, elem_self, elem_below.
  rewrite Forall_forall in IH, Hk. cbn [val edges]. split; (intros [?|(lab & s & k' & He & ? & H)]; [by left|right; exists lab, s, k'; split; [done|]; split; [done|]]);
    destruct (Hk _ He) as [_ Hws]; by apply (IH (lab, s) He).
Qed.

(** ** The order of the listing *)

Definition key_lt (p q : bytes * V) : Prop := cmp p.1 q.1 = Datatypes.Lt.

Lemma pre_sorted lab l : StronglySorted key_lt l -> StronglySorted key_lt (pre lab l).
Proof.
  induction 1 as [|p l _ IH Hp]; [constructor|]. cbn. constructor; [done|]. rewrite Forall_forall in Hp |- *. intros [k v] (k' & -> & H)%elem_pre.
  unfold key_lt in *. cbn. rewrite cmp_app. by apply Hp in H.
Qed.

Lemma fb_below lab k : lab <> [] -> fb (lab ++ k) = fb lab.
Proof. by destruct lab. Qed.

Lemma edges_lt es j j' lab s lab' s' k k' : wf_edges es -> es !! j = Some (lab, s) -> es !! j' = Some (lab', s') -> j < j' -> cmp (lab ++ k) (lab' ++ k') = Datatypes.Lt.
Proof.
  intros Hw H H' Hj. pose proof (wf_nonempty _ Hw) as Hn. rewrite Forall_forall in Hn.
  pose proof (Hn _ (list_elem_of_lookup_2 _ _ _ H)). pose proof (Hn _ (list_elem_of_lookup_2 _ _ _ H')). apply cmp_fb. rewrite !fb_below by done. apply (wf_sorted _ Hw _ _ _ _ H H' Hj).
Qed.

Lemma entries_sorted t : wf t -> StronglySorted key_lt (entries t).
Proof.
  induction t as [i o es IH] using tree_rect_edges. intros [Hw Hk]%wf_inv. cbn [edges] in *. rewrite entries_eq. cbn [val edges].
  assert (StronglySorted key_lt (below es)) as Hb.
  { clear o. pose proof Hw as Hw'. revert IH Hk.  induction es as [|[lab s] es IHes]; intros IH Hk; [constructor|].
    apply Forall_cons in IH as [IH IH']. apply Forall_cons in Hk as [[_ Hws] Hk]. rewrite below_cons. apply StronglySorted_app. split; [|split].
    - intros [k v] [k' v'] (k1 & -> & _)%elem_pre (lab' & s' & k2 & He & -> & _)%elem_below. apply list_elem_of_lookup in He as [j Hj].
      apply (edges_lt ((lab, s) :: es) 0 (S j) lab s lab' s'); [done..|lia].
    - apply pre_sorted. by apply IH.
    - pose proof (wf_edges_sub [] (lab, s) es Hw) as Hw2. by apply IHes. }
  destruct o as [x|]; [|done]. cbn. constructor; [done|]. rewrite Forall_forall. intros [k v] (lab & s & k' & He & -> & _)%elem_below. unfold key_lt. cbn.
  pose proof (wf_nonempty _ Hw) as Hn. rewrite Forall_forall in Hn. apply Hn in He. cbn in He. by destruct lab.
Qed.

(** ** Before and after a place *)

Fixpoint before cs : list (bytes * V) := match cs with [] => [] | c :: cs => before cs ++ pre (ctx_key cs) (self (hval c) ++ below (hleft c)) end.
Fixpoint after cs : list (bytes * V) := match cs with [] => [] | c :: cs => pre (ctx_key cs) (below (hright c)) ++ after cs end.

Lemma entries_plug cs t : entries (plug cs t) = before cs ++ pre (ctx_key cs) (entries t) ++ after cs.
Proof.
  revert t. induction cs as [|c cs IH]; intros t; cbn [plug before after ctx_key]; [by rewrite pre_nil, app_nil_r|]. rewrite IH, entries_eq. cbn [plug1 val edges].
  rewrite below_app, below_cons. cbn [fst snd]. rewrite !pre_app, pre_pre, <-!app_assoc. done.
Qed.

Lemma wf_hole c cs : wf_ctx (c :: cs) -> hlab c <> [] /\ (forall lab s k k', (lab, s) ∈ hleft c -> cmp (lab ++ k) (hlab c ++ k') = Datatypes.Lt) /\
  (forall lab s k k', (lab, s) ∈ hright c -> cmp (hlab c ++ k') (lab ++ k) = Datatypes.Lt) /\ Forall (fun e => e.1 <> []) (hleft c).
Proof.
  intros (Hw & _). assert ((hleft c ++ (hlab c, Tree 0%N None []) :: hright c) !! length (hleft c) = Some (hlab c, Tree 0%N None [])) as Hc by (by rewrite lookup_app_r, Nat.sub_diag by lia).
  pose proof (wf_nonempty _ Hw) as Hn. apply Forall_app in Hn as [Hn Hn']. apply Forall_cons in Hn' as [Hn' _]. split; [done|]. split; [|split; [|done]]; intros lab s k k' He; apply list_elem_of_lookup in He as [j Hj].
  - apply (edges_lt _ j (length (hleft c)) lab s _ (Tree 0%N None []) _ _ Hw); [rewrite lookup_app_l; [done|by eapply lookup_lt_Some]|done|by eapply lookup_lt_Some].
  - apply (edges_lt _ (length (hleft c)) (length (hleft c) + S j) _ (Tree 0%N None []) lab s _ _ Hw); [done| |lia]. rewrite lookup_app_r by lia. by replace (length (hleft c) + S j - length (hleft c)) with (S j) by lia.
Qed.

(** What comes before a place is less than every key there, what comes after
    greater. *)
Lemma before_lt cs k v x : wf_ctx cs -> (k, v) ∈ before cs -> cmp k (ctx_key cs ++ x) = Datatypes.Lt.
Proof.
  revert x. induction cs as [|c cs IH]; intros x Hw; [by intros ?%elem_of_nil|]. cbn [before ctx_key]. destruct (wf_hole c cs Hw) as (Hl & Hlt & _). destruct Hw as (_ & _ & _ & Hw).
  rewrite <-app_assoc. intros [H|(k' & -> & H)%elem_pre]%elem_of_app; [by apply IH|]. rewrite cmp_app. apply elem_of_app in H as [[-> _]%elem_self|(lab & s & k1 & He & -> & _)%elem_below]; [|by eapply Hlt].
  by destruct (hlab c).
Qed.

Lemma after_gt cs k v x : wf_ctx cs -> (k, v) ∈ after cs -> cmp (ctx_key cs ++ x) k = Datatypes.Lt.
Proof.
  revert x. induction cs as [|c cs IH]; intros x Hw; [by intros ?%elem_of_nil|]. cbn [after ctx_key]. destruct (wf_hole c cs Hw) as (_ & _ & Hgt & _). destruct Hw as (_ & _ & _ & Hw).
  rewrite <-app_assoc. intros [(k' & -> & (lab & s & k1 & He & -> & _)%elem_below)%elem_pre|H]%elem_of_app; [|by apply IH]. rewrite cmp_app. by eapply Hgt.
Qed.
End listing.
