(* ===== verification/RaxCursor.v ===== *)
(** * The cursor

    Every position of a cursor is a place of the tree; a step forward goes to
    the first pair after it, a step back to the last before. *)
From S2P Require Import Prelude Skiplist SkiplistOrder Rax RaxFacts RaxWalk RaxInsert RaxListing.
From stdpp Require Import sorting.
Open Scope nat_scope.

Section cursor.
Context {V : Type}.
Implicit Types (t s : tree V) (es : list (bytes * tree V)) (cs : list (hole V)) (p q f d b : bool).

Definition cursor p q f cs t : RaxIter :=
  {| ikey := ctx_key cs; istack := ctx_frames cs; icur := root t; pending := p; eof := q; forward := f |}.

(** What comes after a node but its own value, and with it; what comes before
    the rest of its subtree. *)
Definition rest_at cs t : list (bytes * V) := pre (ctx_key cs) (below (edges t)) ++ after cs.
Definition from_at cs t : list (bytes * V) := pre (ctx_key cs) (self (val t)) ++ rest_at cs t.
Definition upto_at cs t : list (bytes * V) := before cs ++ pre (ctx_key cs) (self (val t)).

Lemma upto_rest cs t : entries (plug cs t) = upto_at cs t ++ rest_at cs t.
Proof. unfold upto_at, rest_at. by rewrite entries_plug, entries_eq, pre_app, <-!app_assoc. Qed.
Lemma before_from cs t : entries (plug cs t) = before cs ++ from_at cs t.
Proof. unfold from_at. rewrite upto_rest. unfold upto_at. by rewrite app_assoc. Qed.

(** How many nodes are ahead. *)
Fixpoint ahead cs : nat := match cs with [] => 0 | c :: cs => length (kids_ids (hright c)) + ahead cs end.
Definition remaining cs t : nat := length (kids_ids (edges t)) + ahead cs.

Lemma ahead_le cs : ahead cs + length cs <= length (ctx_ids cs).
Proof. induction cs as [|c cs IH]; cbn [ahead ctx_ids length]; [lia|]. rewrite kids_app, !length_app. lia. Qed.

Lemma ids_length cs t : remaining cs t + length cs < length (ids (plug cs t)).
Proof.
  rewrite ids_plug, length_app. pose proof (ahead_le cs). unfold remaining. destruct t as [i v es]. rewrite ids_eq. cbn [edges length]. lia.
Qed.

(** The tree of the arena, fixed. *)
Context (r : Rax V) (T : tree V).
Hypothesis Hrep : rep r T.
Hypothesis Hwf : wf T.
Hypothesis Hsize : length (ids T) <= length (rnodes r).

Lemma at_node cs t : plug cs t = T -> node (root t) r = Some (node_of t) /\ rep r t /\ wf t /\ wf_ctx cs /\ (cs <> [] -> alive t).
Proof. intros E. pose proof Hrep as Hr. rewrite <-E in Hr. apply rep_plug in Hr. split; [by apply rep_node|]. split; [done|]. rewrite <-E in Hwf. by apply wf_plug in Hwf as (? & ? & ?). Qed.

Lemma cursor_descend p q f cs t j lab s : plug cs t = T -> edges t !! j = Some (lab, s) ->
  descend j r (cursor p q f cs t) = Some (cursor p q f (hole_at t j lab :: cs) s) /\ plug (hole_at t j lab :: cs) s = T.
Proof.
  intros E Hj. destruct (at_node cs t E) as (Hn & _ & Hw & _). split; [|cbn [plug]; by rewrite (hole_plug _ _ _ _ Hj)].
  unfold descend. cbn [icur cursor]. rewrite Hn. cbn [mbind option_bind]. rewrite (children_at t j lab s Hj). cbn [mbind option_bind].
  unfold set_pos, cursor. cbn [ikey istack pending eof forward ctx_key ctx_frames]. rewrite (hole_left _ _ _ _ Hj). do 2 f_equal.
  destruct (node_cases t Hw) as [E'|[(lab' & s' & E' & Hl & ->)|(E' & Hs & _ & Hc)]]; [by rewrite E' in Hj| |].
  - rewrite E' in Hj. destruct j as [|j]; [|done]. injection Hj as -> ->. done.
  - rewrite Hc. destruct t as [i v es]. cbn [edges] in *. destruct (singles_at es j lab s Hs Hj) as [b ->]. by rewrite (proj2 (chars_at i v es j b Hs) (ex_intro _ s Hj)).
Qed.

(** ** Forward *)

Lemma next_sibling_spec p q f cs t : plug cs t = T -> exists it ok, next_sibling (ctx_frames cs) r (cursor p q f cs t) = Some (it, ok) /\
  if ok : bool then exists cs' s, it = cursor p q f cs' s /\ plug cs' s = T /\ from_at cs' s = after cs /\ S (remaining cs' s) = ahead cs
  else pending it = p /\ forward it = f /\ after cs = [].
Proof.
  revert t. induction cs as [|c cs IH]; intros t E; [by exists (cursor p q f [] t), false|]. cbn [ctx_frames next_sibling].
  destruct (at_node cs (plug1 c t) E) as (Hn & _). cbn [fnode child klen].
  assert (set_pos (take (length (ctx_key cs)) (ikey (cursor p q f (c :: cs) t))) (ctx_frames cs) (hid c) (cursor p q f (c :: cs) t) = cursor p q f cs (plug1 c t)) as ->.
  { unfold set_pos, cursor. cbn [ikey pending eof forward ctx_key]. by rewrite take_app_length. }
  change (icur (cursor p q f cs (plug1 c t))) with (root (plug1 c t)). rewrite Hn. cbn [mbind option_bind].
  change (children _) with ((fun e => root e.2) <$> edges (plug1 c t)). rewrite length_fmap. cbn [edges plug1]. rewrite length_app. cbn [length].
  destruct (hright c) as [|[lab s] rt] eqn:Er.
  - rewrite decide_False by (cbn; lia). destruct (IH (plug1 c t) E) as (it & ok & -> & H). exists it, ok. split; [done|]. cbn [after ahead]. rewrite Er. exact H.
  - rewrite decide_True by (cbn; lia).
    assert (edges (plug1 c t) !! (length (hleft c) + 1) = Some (lab, s)) as Hj by (cbn; rewrite Er, lookup_app_r by lia; by replace (length (hleft c) + 1 - length (hleft c)) with 1 by lia).
    destruct (cursor_descend p q f cs (plug1 c t) _ lab s E Hj) as [Hd Hp]. rewrite Hd. cbn [mbind option_bind].
    eexists _, true. split; [done|]. eexists _, s. split; [done|]. split; [done|].
    assert (hright (hole_at (plug1 c t) (length (hleft c) + 1) lab) = rt) as Ert.
    { cbn. rewrite Er. replace (S (length (hleft c) + 1)) with (length (hleft c) + 2) by lia. by rewrite drop_app_add. }
    unfold from_at, rest_at, remaining. cbn [ctx_key after ahead hlab hole_at]. rewrite Ert, Er. cbn [hright hole_at] in Ert. split.
    + rewrite below_cons. cbn [fst snd]. rewrite entries_eq, pre_app, pre_pre, <-!pre_pre, <-!pre_app, !app_assoc, <-!pre_app. by rewrite !pre_app, <-!app_assoc.
    + rewrite kids_cons. cbn [snd]. rewrite length_app. destruct s. rewrite ids_eq. cbn [edges length]. lia.
Qed.

(** A step forward: to the first pair of what is ahead, or none. *)
Definition arrives p q f (it : RaxIter) (ok : bool) (l : list (bytes * V)) : Prop :=
  if ok then exists cs t, it = cursor p q f cs t /\ plug cs t = T /\ is_Some (val t) /\ from_at cs t = l
  else pending it = p /\ forward it = f /\ l = [].

Lemma step_forward_spec fuel d p q f cs t : plug cs t = T -> (if d then remaining cs t else ahead cs) < fuel ->
  exists it ok, step_forward fuel d r (cursor p q f cs t) = Some (it, ok) /\ arrives p q f it ok (if d then rest_at cs t else after cs).
Proof.
  revert d cs t. induction fuel as [|fuel IH]; intros d cs t E Hf; [lia|]. cbn [step_forward]. destruct (at_node cs t E) as (Hn & _).
  change (icur (cursor p q f cs t)) with (root t). rewrite Hn. cbn [mbind option_bind].
  assert (forall it ok l, (if ok : bool then exists cs' s, it = cursor p q f cs' s /\ plug cs' s = T /\ from_at cs' s = l /\ remaining cs' s < fuel
    else pending it = p /\ forward it = f /\ l = []) ->
    exists it' ok', (if negb ok then Some (it, false) else n ← node (icur it) r; if bool_decide (is_Some (value n)) then Some (it, true) else step_forward fuel true r it) = Some (it', ok') /\
      arrives p q f it' ok' l) as Hgo.
  { intros it ok l H. destruct ok; cbn [negb]; [|by exists it, false]. destruct H as (cs' & s & -> & E' & Hl & Hr). destruct (at_node cs' s E') as (Hn' & _).
    change (icur (cursor p q f cs' s)) with (root s). rewrite Hn'. cbn [mbind option_bind]. change (value (node_of s)) with (val s). case_bool_decide as Hv.
    - eexists _, true. split; [done|]. by exists cs', s.
    - destruct (IH true cs' s E' Hr) as (it' & ok' & -> & H). exists it', ok'. split; [done|]. rewrite <-Hl. unfold from_at. destruct (val s); [by destruct Hv|]. exact H. }
  destruct (d && negb (bool_decide (children (node_of t) = []))) eqn:Ed.
  - apply andb_true_iff in Ed as [-> Hc%negb_true_iff%bool_decide_eq_false]. rewrite no_children in Hc. destruct (edges t) as [|[lab s] es] eqn:Ees; [done|].
    destruct (cursor_descend p q f cs t 0 lab s E) as [-> E']; [by rewrite Ees|]. cbn [mbind option_bind]. apply Hgo. eexists _, s. split; [done|]. split; [done|]. unfold remaining, from_at, rest_at in *.
    assert (hright (hole_at t 0 lab) = es) as Er by (cbn [hright hole_at]; by rewrite Ees). cbn [ctx_key after ahead]. rewrite Er. change (hlab (hole_at t 0 lab)) with lab. rewrite Ees in *. split.
    + rewrite below_cons. cbn [fst snd]. by rewrite entries_eq, !pre_app, !pre_pre, <-!app_assoc.
    + rewrite kids_cons in Hf. cbn [snd] in Hf. rewrite length_app in Hf. destruct s. rewrite ids_eq in Hf. cbn [edges length] in *. lia.
  - destruct (next_sibling_spec p q f cs t E) as (it & ok & E1 & H). change (istack (cursor p q f cs t)) with (ctx_frames cs). rewrite E1. cbn [mbind option_bind].
    assert ((if d then rest_at cs t else after cs) = after cs) as ->.
    { destruct d; [|done]. cbn [andb] in Ed. apply negb_false_iff, bool_decide_eq_true, no_children in Ed. unfold rest_at. by rewrite Ed. }
    apply Hgo. destruct ok; [|done]. destruct H as (cs' & s & -> & ? & ? & Hr). exists cs', s. split; [done|]. split; [done|]. split; [done|]. destruct d; unfold remaining in *; lia.
Qed.

Lemma forward_step_spec d p q f cs t : plug cs t = T ->
  exists it ok, forward_step d r (cursor p q f cs t) = Some (it, ok) /\ arrives p q f it ok (if d then rest_at cs t else after cs).
Proof.
  intros E. apply step_forward_spec; [done|]. pose proof (ids_length cs t) as H. rewrite E in H. unfold remaining in *. destruct d; lia.
Qed.

(** ** Backward *)

Lemma descend_rightmost_spec fuel p q f cs t : plug cs t = T -> length (ids t) <= fuel ->
  exists cs' s, descend_rightmost fuel r (cursor p q f cs t) = Some (cursor p q f cs' s) /\ plug cs' s = T /\ edges s = [] /\
    upto_at cs' s = before cs ++ pre (ctx_key cs) (entries t) /\ (cs <> [] -> cs' <> []) /\ (edges t <> [] -> cs' <> []) /\ (edges t = [] -> cs' = cs /\ s = t).
Proof.
  revert cs t. induction fuel as [|fuel IH]; intros cs t E Hf; [destruct t; rewrite ids_eq in Hf; cbn in Hf; lia|]. cbn [descend_rightmost].
  destruct (at_node cs t E) as (Hn & _). change (icur (cursor p q f cs t)) with (root t). rewrite Hn. cbn [mbind option_bind].
  destruct (decide (edges t = [])) as [Ee|Ee].
  - rewrite (proj2 (no_children t) Ee). exists cs, t. split; [done|]. split; [done|]. split; [done|]. split; [|done]. unfold upto_at. by rewrite entries_eq, Ee, app_nil_r.
  - destruct (children (node_of t)) as [|x l] eqn:Ec; [by apply no_children in Ec|]. rewrite <-Ec. clear Ec. change (children (node_of t)) with ((fun e => root e.2) <$> edges t). rewrite length_fmap.
    destruct (exists_last Ee) as (es & [lab s] & Ees). assert (edges t !! (length (edges t) - 1) = Some (lab, s)) as Hj.
    { rewrite Ees, length_app. cbn. by rewrite lookup_app_r, Nat.add_sub, Nat.sub_diag by lia. }
    destruct (cursor_descend p q f cs t _ lab s E Hj) as [-> E']. cbn [mbind option_bind].
    destruct (IH _ s E') as (cs' & u & -> & Hp & Hu & Hl & Hc & _).
    { destruct t as [i v es0]. cbn in Ees. subst es0. rewrite ids_eq, kids_app, kids_cons in Hf. cbn [length] in Hf. rewrite !length_app in Hf. cbn [snd] in Hf. lia. }
    exists cs', u. split; [done|]. split; [done|]. split; [done|]. split; [|split; [intros _; by apply Hc|split; [intros _; by apply Hc|by intros ?]]]. rewrite Hl. cbn [before ctx_key hval hleft hlab hole_at].
    rewrite Ees, length_app, take_app_le by (cbn; lia). cbn [length]. rewrite Nat.add_sub, firstn_all, (entries_eq t), Ees, below_app, below_cons. cbn [fst snd].
    change (below []) with (@nil (bytes * V)). by rewrite app_nil_r, !pre_app, !pre_pre, <-!app_assoc.
Qed.

(** A step back: to the last pair of what is behind, or none. *)
Definition arrives_back p q f (it : RaxIter) (ok : bool) (l : list (bytes * V)) : Prop :=
  if ok then exists cs t, it = cursor p q f cs t /\ plug cs t = T /\ is_Some (val t) /\ upto_at cs t = l
  else pending it = p /\ forward it = f /\ l = [].

Lemma ascend_spec p q f c cs t :
  ascend (cursor p q f (c :: cs) t) = Some ({| fnode := hid c; child := length (hleft c); klen := length (ctx_key cs) |}, cursor p q f cs (plug1 c t)).
Proof. unfold ascend, cursor, set_pos. cbn [istack ctx_frames fnode klen ikey ctx_key pending eof forward]. by rewrite take_app_length. Qed.

Lemma step_backward_loop_spec fuel p q f cs t : plug cs t = T -> length cs < fuel ->
  exists it ok, step_backward_loop fuel r (cursor p q f cs t) = Some (it, ok) /\ arrives_back p q f it ok (before cs).
Proof.
  revert cs t. induction fuel as [|fuel IH]; intros cs t E Hf; [lia|]. cbn [step_backward_loop]. destruct cs as [|c cs]; [by exists (cursor p q f [] t), false|].
  rewrite ascend_spec. cbn [child]. cbn [plug] in E. destruct (at_node cs (plug1 c t) E) as (Hn & _). change (icur (cursor p q f cs (plug1 c t))) with (root (plug1 c t)).
  destruct (decide (0 < length (hleft c))) as [Hl|Hl].
  - destruct (exists_last (l := hleft c)) as (es & [lab s] & Ees); [by destruct (hleft c); cbn in Hl; [lia|]|].
    assert (edges (plug1 c t) !! (length (hleft c) - 1) = Some (lab, s)) as Hj.
    { cbn. rewrite lookup_app_l by lia. rewrite Ees, length_app. cbn. by rewrite lookup_app_r, Nat.add_sub, Nat.sub_diag by lia. }
    destruct (cursor_descend p q f cs (plug1 c t) _ lab s E Hj) as [-> E']. cbn [mbind option_bind].
    destruct (descend_rightmost_spec (S (length (rnodes r))) p q f _ s E') as (cs' & u & -> & Hp & Hu & Hb & Hc & _).
    { etrans; [|apply Nat.lt_le_incl, Nat.lt_succ_r, Hsize]. rewrite <-E', ids_plug, length_app. lia. }
    cbn [mbind option_bind]. destruct (at_node cs' u Hp) as (Hnu & _ & _ & _ & Ha). change (icur (cursor p q f cs' u)) with (root u). rewrite Hnu. cbn [mbind option_bind].
    change (value (node_of u)) with (val u). rewrite bool_decide_eq_true_2 by (destruct (Ha ltac:(by apply Hc)); done). eexists _, true. split; [done|]. exists cs', u. split; [done|]. split; [done|].
    split; [destruct (Ha ltac:(by apply Hc)); done|]. rewrite Hb. cbn [before ctx_key hval hleft hlab hole_at edges plug1 val]. rewrite take_app_le by lia. rewrite Ees, length_app, take_app_le by (cbn; lia). cbn [length].
    rewrite Nat.add_sub, firstn_all, below_app, below_cons. cbn [fst snd]. change (below []) with (@nil (bytes * V)). by rewrite app_nil_r, !pre_app, !pre_pre, <-!app_assoc.
  - rewrite Hn. cbn [mbind option_bind]. change (value (node_of (plug1 c t))) with (hval c).
    assert (before (c :: cs) = upto_at cs (plug1 c t)) as Eb by (cbn [before]; destruct (hleft c); [|cbn in Hl; lia]; change (below []) with (@nil (bytes * V)); by rewrite app_nil_r).
    rewrite Eb. case_bool_decide as Hv; [eexists _, true; split; [done|]; by exists cs, (plug1 c t)|]. destruct (IH cs (plug1 c t) E ltac:(cbn in Hf; lia)) as (it & ok & -> & H). exists it, ok. split; [done|].
    unfold upto_at. cbn [val plug1]. destruct (hval c); [by destruct Hv|]. by rewrite app_nil_r.
Qed.

Lemma step_backward_spec b p q f cs t : plug cs t = T ->
  exists it ok, step_backward b r (cursor p q f cs t) = Some (it, ok) /\ arrives_back p q f it ok (if b then upto_at cs t else before cs).
Proof.
  intros E. unfold step_backward. destruct (at_node cs t E) as (Hn & _). change (icur (cursor p q f cs t)) with (root t). rewrite Hn. cbn [mbind option_bind]. change (value (node_of t)) with (val t).
  destruct (step_backward_loop_spec (S (length (rnodes r))) p q f cs t E) as (it & ok & E1 & H). { pose proof (ids_length cs t) as H. rewrite E in H. lia. }
  destruct b; cbn [andb]; [|by exists it, ok]. case_bool_decide as Hv; [eexists _, true; split; [done|]; by exists cs, t|]. exists it, ok. split; [done|].
  unfold upto_at. destruct (val t); [by destruct Hv|]. by rewrite app_nil_r.
Qed.
End cursor.
