(* ===== verification/RaxSeek.v ===== *)
(** * Seeking

    What a cursor yields from where it stands, and where a seek puts it: at the
    pair of the listing the operator and the target ask for. *)
From S2P Require Import Prelude Skiplist SkiplistOrder Rax RaxFacts RaxWalk RaxInsert RaxListing RaxCursor.
From stdpp Require Import sorting.
Open Scope nat_scope.

(** ** The reference *)

(** The keys a seek leaves behind it, or stops at when it looks back. *)
Definition passed (op : Seek) (target k : bytes) : bool :=
  match op with Ge | Lt => bool_decide (cmp k target = Datatypes.Lt) | Gt | Le => bool_decide (cmp k target <> Datatypes.Gt) end.
Definition index_forward {A} (n : nat) (l : list A) : option nat := if decide (n < length l) then Some n else None.
Definition index_backward (n : nat) : option nat := match n with O => None | S n => Some n end.
(** The place in a listing where a seek stops. *)
Definition seek_index {A} (op : Seek) (target : bytes) (l : list (bytes * A)) : option nat :=
  let n := length (filter (fun p => passed op target p.1 = true) l) in
  if is_forward op then index_forward n l else index_backward n.
(** What a cursor yields from a place. *)
Definition yields {A} (f : bool) (o : option nat) (l : list A) : list A :=
  match o with Some j => if f then drop j l else rev (take (S j) l) | None => [] end.

Section seek.
Context {V : Type}.
Implicit Types (t s : tree V) (es : list (bytes * tree V)) (cs : list (hole V)) (p q f d b : bool).

Context (r : Rax V) (T : tree V) (Hh : holds r T).

Lemma held : rep r T /\ wf T /\ length (ids T) <= length (rnodes r) /\ root T = ROOT.
Proof. destruct Hh as [H1 (_ & _ & H2 & _) H3 H4]. rewrite length_app in H2. repeat split; (done || lia). Qed.

(** ** What a cursor yields *)

Lemma pair_from cs t x : val t = Some x -> from_at cs t = (ctx_key cs, x) :: rest_at cs t /\ upto_at cs t = before cs ++ [(ctx_key cs, x)].
Proof. intros E. unfold from_at, upto_at, pre. rewrite E. cbn. by rewrite app_nil_r. Qed.

Lemma collect_step fuel p f cs t : plug cs t = T -> is_Some (val t) -> collect_pairs (S fuel) r (cursor true false f cs t) =
  ('x ← (fun v => (ctx_key cs, v)) <$> val t; out ← collect_pairs fuel r (cursor false false f cs t); Some (x :: out)).
Proof.
  intros E [x Ex]. destruct held as (Hrep & Hwf & _). destruct (at_node r T Hrep Hwf cs t E) as (Hn & _). cbn [collect_pairs]. unfold next. cbn [eof pending cursor]. unfold set_flags. cbn.
  rewrite Hn. cbn. by rewrite Ex.
Qed.

(** The rest of the listing, forward or backward. *)
Definition left_from f cs t : list (bytes * V) := if f then rest_at cs t else rev (before cs).

Lemma collect_spec fuel f cs t : plug cs t = T -> length (left_from f cs t) < fuel -> collect_pairs fuel r (cursor false false f cs t) = Some (left_from f cs t).
Proof.
  revert cs t. induction fuel as [|fuel IH]; intros cs t E Hf; [lia|]. destruct held as (Hrep & Hwf & Hsize & _). cbn [collect_pairs]. unfold next. cbn [eof pending forward cursor].
  assert (exists it ok, (if f then forward_step true r (cursor false false f cs t) else step_backward false r (cursor false false f cs t)) = Some (it, ok) /\
    if ok : bool then exists cs' t' x, it = cursor false false f cs' t' /\ plug cs' t' = T /\ val t' = Some x /\ left_from f cs t = (ctx_key cs', x) :: left_from f cs' t'
    else left_from f cs t = []) as (it & ok & -> & H).
  { destruct f.
    - destruct (forward_step_spec r T Hrep Hwf Hsize true false false true cs t E) as (it & ok & E1 & H). exists it, ok. split; [done|]. destruct ok; [|by destruct H as (_ & _ & H)].
      destruct H as (cs' & t' & -> & E' & [x Hx] & Hl). exists cs', t', x. do 3 (split; [done|]). unfold left_from. rewrite <-Hl. by apply pair_from.
    - destruct (step_backward_spec r T Hrep Hwf Hsize false false false false cs t E) as (it & ok & E1 & H). exists it, ok. split; [done|].
      destruct ok; [|destruct H as (_ & _ & H); unfold left_from; by rewrite H].
      destruct H as (cs' & t' & -> & E' & [x Hx] & Hl). exists cs', t', x. do 3 (split; [done|]). unfold left_from. rewrite <-Hl, (proj2 (pair_from cs' t' x Hx)), rev_app_distr. done. }
  cbn [mbind option_bind]. destruct ok; cbn [negb]; [|by rewrite H]. destruct H as (cs' & t' & x & -> & E' & Hx & Hl).
  destruct (at_node r T Hrep Hwf cs' t' E') as (Hn & _). change (icur (cursor false false f cs' t')) with (root t'). rewrite Hn. cbn [mbind option_bind]. change (value (node_of t')) with (val t').
  rewrite Hx. cbn [fmap option_fmap option_map]. rewrite (IH cs' t' E') by (rewrite Hl in Hf; cbn in Hf; lia). by rewrite Hl.
Qed.

(** A cursor that stands at the [j]-th pair, or at the end. *)
Definition stands f (it : RaxIter) (o : option nat) : Prop :=
  match o with
  | Some j => exists cs t, it = cursor true false f cs t /\ plug cs t = T /\ is_Some (val t) /\ length (before cs) = j
  | None => eof it = true
  end.

Lemma stands_turn f b it o : stands f it o -> stands b (set_forward b it) o.
Proof. destruct o as [j|]; [|done]. intros (cs & t & -> & H). by exists cs, t. Qed.

Lemma stands_yields f it o fuel : stands f it o -> length (entries T) < fuel -> collect_pairs fuel r it = Some (yields f o (entries T)).
Proof.
  destruct fuel as [|fuel]; intros H Hf; [lia|]. destruct o as [j|]; [|cbn [collect_pairs stands] in *; unfold next; by rewrite H].
  destruct H as (cs & t & -> & E & [x Hx] & Hj). rewrite collect_step by (try done; exact true). rewrite Hx. cbn [fmap option_fmap option_map mbind option_bind].
  destruct (pair_from cs t x Hx) as [H1 H2]. pose proof (before_from cs t) as Hb. pose proof (upto_rest cs t) as Hu. rewrite E, H1 in Hb. rewrite E, H2 in Hu.
  rewrite collect_spec; [|done|unfold left_from; destruct f; [rewrite Hb in Hf|rewrite length_rev; rewrite Hb in Hf]; rewrite length_app in Hf; cbn in Hf; lia]. cbn [mbind option_bind yields left_from]. f_equal.
  destruct f.
  - rewrite Hb, <-Hj. by rewrite drop_app_length.
  - rewrite Hu, take_app_le by (rewrite length_app; cbn; lia). rewrite take_ge by (rewrite length_app; cbn; lia). by rewrite rev_app_distr.
Qed.

(** Where a step ends. *)
Lemma arrives_stands f it ok l A : arrives T false false f it ok l -> entries T = A ++ l ->
  stands f (if ok then set_flags true false it else set_flags (pending it) true it) (index_forward (length A) (entries T)).
Proof.
  intros H E. unfold index_forward. rewrite E, length_app. destruct ok.
  - destruct H as (cs & t & -> & Hp & [x Hx] & <-). rewrite decide_True by (rewrite (proj1 (pair_from cs t x Hx)); cbn; lia). exists cs, t. split; [done|]. split; [done|]. split; [done|].
    pose proof (before_from cs t) as Hb. rewrite Hp, E in Hb. by apply app_inv_tail in Hb as ->.
  - destruct H as (_ & _ & ->). rewrite decide_False by (cbn; lia). done.
Qed.

Lemma arrives_back_stands f it ok l : arrives_back T false false f it ok l ->
  stands f (if ok then set_flags true false it else set_flags (pending it) true it) (index_backward (length l)).
Proof.
  intros H. destruct ok.
  - destruct H as (cs & t & -> & Hp & [x Hx] & <-). rewrite (proj2 (pair_from cs t x Hx)), length_app, Nat.add_1_r. cbn. by exists cs, t.
  - by destruct H as (_ & _ & ->).
Qed.

(** ** Where a target falls *)

(** The edges before the [j0]-th lead to keys before the target, the others
    past it. *)
Definition parts t (rest : bytes) (j0 : nat) : Prop :=
  j0 <= length (edges t) /\ forall k lab s x, edges t !! k = Some (lab, s) -> cmp (lab ++ x) rest = if decide (k < j0) then Datatypes.Lt else Datatypes.Gt.

Definition ends (target : bytes) cs t (o : Outcome) : Prop :=
  match o with
  | AtTarget => target = ctx_key cs
  | Below => edges t = [] /\ exists rest, rest <> [] /\ target = ctx_key cs ++ rest
  | Diverge above below => exists rest j0, rest <> [] /\ target = ctx_key cs ++ rest /\ parts t rest j0 /\
      above = (if decide (j0 < length (edges t)) then Some j0 else None) /\ below = index_backward j0
  end.

Lemma parts_label t lab s rest : edges t = [(lab, s)] -> rest <> [] -> matched lab rest < length lab ->
  exists above, (if decide (matched lab rest = length rest) then Some true
    else a ← lab !! matched lab rest; b ← rest !! matched lab rest; Some (bool_decide (b2z b < b2z a)%Z)) = Some above /\ parts t rest (if above : bool then 0 else 1).
Proof.
  intros E Hne Hm. pose proof (matched_take lab rest) as Ht. set (m := matched lab rest) in *.
  assert (forall c : comparison, (forall x, cmp (drop m lab ++ x) (drop m rest) = c) -> c = Datatypes.Lt \/ c = Datatypes.Gt -> parts t rest (if c is Datatypes.Lt then 1 else 0)) as Hp.
  { intros c Hc Hcc. split; [rewrite E; cbn; destruct c; lia|]. intros [|k] lab' s' x Hk; rewrite E in Hk; [|done]. injection Hk as <- <-.
    rewrite <-(take_drop m lab), <-(take_drop m rest) at 1. rewrite <-Ht, <-app_assoc, cmp_app, Hc. by destruct Hcc as [->| ->]. }
  destruct (matched_stop lab rest Hm) as [Hz|(a & b & Ha & Hb & Hab)].
  - fold m in Hz. rewrite decide_True by done. exists true. split; [done|]. apply (Hp Datatypes.Gt); [|by right]. intros x. rewrite (drop_ge rest) by lia. destruct (lookup_lt_is_Some_2 lab m Hm) as [a Ha]. by rewrite (drop_S _ _ _ Ha).
  - fold m in Ha, Hb. rewrite decide_False by (apply lookup_lt_Some in Hb; lia). rewrite Ha, Hb. cbn [mbind option_bind]. eexists. split; [done|].
    assert (b2z a <> b2z b) as Hne' by (intros ?%b2z_inj; done). case_bool_decide as Hlt.
    + apply (Hp Datatypes.Gt); [|by right]. intros x. rewrite (drop_S _ _ _ Ha), (drop_S _ _ _ Hb). cbn. by rewrite (proj2 (Z.compare_gt_iff _ _)).
    + apply (Hp Datatypes.Lt); [|by left]. intros x. rewrite (drop_S _ _ _ Ha), (drop_S _ _ _ Hb). cbn. rewrite (proj2 (Z.compare_lt_iff _ _)) by lia. done.
Qed.

Lemma seek_walk_spec fuel rest f cs t : plug cs t = T -> length rest < fuel ->
  exists cs' t' o, seek_walk fuel (ctx_key cs ++ rest) (length (ctx_key cs)) r (cursor false false f cs t) = Some (cursor false false f cs' t', o) /\
    plug cs' t' = T /\ ends (ctx_key cs ++ rest) cs' t' o.
Proof.
  revert rest cs t. induction fuel as [|fuel IH]; intros rest cs t E Hf; [lia|]. destruct held as (Hrep & Hwf & _). destruct (at_node r T Hrep Hwf cs t E) as (Hn & _ & Hw & _). cbn [seek_walk].
  change (icur (cursor false false f cs t)) with (root t). rewrite Hn. cbn [mbind option_bind].
  case_decide as Hi. { exists cs, t, AtTarget. split; [done|]. split; [done|]. cbn. rewrite length_app in Hi. destruct rest; [by rewrite app_nil_r|cbn in Hi; lia]. }
  assert (rest <> []) as Hne by (intros ->; by rewrite app_nil_r in Hi).
  assert (forall j lab s rest', edges t !! j = Some (lab, s) -> rest = lab ++ rest' -> lab <> [] -> exists cs' t' o,
    (it ← descend j r (cursor false false f cs t); seek_walk fuel (ctx_key cs ++ rest) (length (ctx_key cs) + length lab) r it) = Some (cursor false false f cs' t', o) /\
    plug cs' t' = T /\ ends (ctx_key cs ++ rest) cs' t' o) as Hdown.
  { intros j lab s rest' Hj -> Hl. destruct (cursor_descend r T Hrep Hwf false false f cs t j lab s E Hj) as [-> E']. cbn [mbind option_bind].
    rewrite app_assoc, <-length_app. change (ctx_key cs ++ lab) with (ctx_key (hole_at t j lab :: cs)). apply IH; [done|]. rewrite length_app in Hf. destruct lab; [done|cbn in Hf; lia]. }
  destruct (node_cases t Hw) as [Ee|[(lab & s & Ee & Hl & En)|(Ee & Hs & Hc & Hcmp)]].
  - rewrite decide_True by by apply no_children. exists cs, t, Below. split; [done|]. split; [done|]. split; [done|]. by exists rest.
  - rewrite decide_False by by rewrite no_children, Ee. rewrite En. cbn [chars children compressed]. rewrite drop_app_length. pose proof (matched_le lab rest) as [Hml Hmr]. case_decide as Hm.
    + rewrite Hm. apply (Hdown 0 lab s (drop (length lab) rest)); [by rewrite Ee|by apply matched_all|by destruct lab; cbn in Hl; [lia|]].
    + destruct (parts_label t lab s rest Ee Hne ltac:(lia)) as (above & Ea & Hp).
      assert ((if decide (length (ctx_key cs) + matched lab rest = length (ctx_key cs ++ rest)) then Some true
        else a ← lab !! matched lab rest; b ← (ctx_key cs ++ rest) !! (length (ctx_key cs) + matched lab rest); Some (bool_decide (b2z b < b2z a)%Z)) = Some above) as ->.
      { rewrite <-Ea. rewrite length_app, lookup_app_r, Nat.add_sub' by lia. destruct (decide (matched lab rest = length rest)); [by rewrite decide_True by lia|by rewrite decide_False by lia]. }
      cbn [mbind option_bind]. eexists cs, t, _. split; [done|]. split; [done|]. destruct above; cbn [ends]; [exists rest, 0|exists rest, 1]; rewrite Ee; done.
  - rewrite decide_False by done. rewrite Hcmp. destruct rest as [|b rest]; [done|]. rewrite lookup_app_r, Nat.sub_diag by lia. cbn [lookup list_lookup mbind option_bind].
    destruct t as [i v es]. cbn [edges] in Ee, Hs. pose proof (search_edge i v es b (proj1 (wf_inv _ Hw)) Hs) as Hb. destruct (binary_search b _) as [j|j].
    + destruct Hb as [s Hj]. by apply (Hdown j [b] s rest).
    + eexists cs, (Tree i v es), _. split; [done|]. split; [done|]. exists (b :: rest), j. split; [done|]. split; [done|]. destruct Hb as [Hj Hb]. split; [split; [done|]|].
      * intros k lab s x Hk. destruct (Hb k lab s Hk) as (y & -> & Hyb & Hiff). assert (b2z y <> b2z b) as Hyb' by (intros ?%b2z_inj; done). cbn. destruct (decide (k < j)) as [Hkj|Hkj].
        -- apply Hiff in Hkj. by rewrite (proj2 (Z.compare_lt_iff _ _)).
        -- rewrite (proj2 (Z.compare_gt_iff _ _)); [done|]. destruct (Z_lt_le_dec (b2z y) (b2z b)) as [Hlt|]; [by apply Hiff in Hlt|lia].
      * change (children _) with ((fun e => root e.2) <$> es). rewrite length_fmap. done.
Qed.

(** The listing on both sides of the target. *)
Lemma cut_filter op target l lw gw : l = lw ++ gw -> (forall k v, (k, v) ∈ lw -> passed op target k = true) -> (forall k v, (k, v) ∈ gw -> passed op target k = false) ->
  length (filter (fun p : bytes * V => passed op target p.1 = true) l) = length lw.
Proof.
  intros -> Hl Hg. rewrite filter_app, length_app, filter_all, filter_none; [cbn; lia| |]; intros [k v] H; cbn; [by rewrite (Hg k v H)|by apply (Hl k v H)].
Qed.

Lemma passed_lt op target k : cmp k target = Datatypes.Lt -> passed op target k = true.
Proof. intros H. unfold passed. rewrite H. by destruct op. Qed.
Lemma passed_gt op target k : cmp target k = Datatypes.Lt -> passed op target k = false.
Proof. intros H. unfold passed. rewrite cmp_opp, H. by destruct op. Qed.

Lemma passed_self op k : passed op k k = match op with Ge | Lt => false | Gt | Le => true end.
Proof. unfold passed. rewrite cmp_refl. by destruct op. Qed.

(** Past the subtree of a place, or before it. *)
Lemma below_gt k v key es : (forall lab s, (lab, s) ∈ es -> lab <> []) -> (k, v) ∈ pre key (below es) -> cmp key k = Datatypes.Lt.
Proof. intros Hl (k' & -> & (lab & s & k1 & He & -> & _)%elem_below)%elem_pre. apply cmp_longer. apply Hl in He. by destruct lab. Qed.

Lemma wf_labels t : wf t -> forall lab s, (lab, s) ∈ edges t -> lab <> [].
Proof. intros [Hw _]%wf_inv lab s He. pose proof (wf_nonempty _ Hw) as Hn. rewrite Forall_forall in Hn. by apply Hn in He. Qed.

Lemma cut_here op cs t : plug cs t = T ->
  length (filter (fun p : bytes * V => passed op (ctx_key cs) p.1 = true) (entries T)) = if passed op (ctx_key cs) (ctx_key cs) then length (upto_at cs t) else length (before cs).
Proof.
  intros E. destruct held as (Hrep & Hwf & _). destruct (at_node r T Hrep Hwf cs t E) as (_ & _ & Hw & Hwc & _).
  assert (forall k v, (k, v) ∈ before cs -> passed op (ctx_key cs) k = true) as Hb by (intros k v H; apply passed_lt; rewrite <-(app_nil_r (ctx_key cs)); by eapply before_lt).
  assert (forall k v, (k, v) ∈ rest_at cs t -> passed op (ctx_key cs) k = false) as Hr.
  { intros k v H. apply passed_gt. apply elem_of_app in H as [H|H]; [eapply below_gt; [by apply wf_labels|done]|]. rewrite <-(app_nil_r (ctx_key cs)). by eapply after_gt. }
  assert (forall k v, (k, v) ∈ pre (ctx_key cs) (self (val t)) -> k = ctx_key cs) as Hs by (intros k v (k' & -> & [-> _]%elem_self)%elem_pre; by rewrite app_nil_r).
  destruct (passed op (ctx_key cs) (ctx_key cs)) eqn:Ep.
  - apply cut_filter with (rest_at cs t); [rewrite <-E; apply upto_rest| |done]. intros k v [H|H]%elem_of_app; [by eapply Hb|]. by rewrite (Hs k v H).
  - apply cut_filter with (from_at cs t); [rewrite <-E; apply before_from|done|]. intros k v [H|H]%elem_of_app; [by rewrite (Hs k v H)|by eapply Hr].
Qed.

Lemma cut_parts op cs t rest j0 : plug cs t = T -> rest <> [] -> parts t rest j0 ->
  let lw := before cs ++ pre (ctx_key cs) (self (val t) ++ below (take j0 (edges t))) in
  entries T = lw ++ pre (ctx_key cs) (below (drop j0 (edges t))) ++ after cs /\
  length (filter (fun p : bytes * V => passed op (ctx_key cs ++ rest) p.1 = true) (entries T)) = length lw.
Proof.
  intros E Hne [Hj Hp] lw. destruct held as (Hrep & Hwf & _). destruct (at_node r T Hrep Hwf cs t E) as (_ & _ & Hw & Hwc & _).
  assert (entries T = lw ++ pre (ctx_key cs) (below (drop j0 (edges t))) ++ after cs) as El.
  { rewrite <-E, entries_plug, entries_eq. unfold lw. rewrite <-(take_drop j0 (edges t)) at 1. by rewrite below_app, !pre_app, <-!app_assoc. }
  split; [done|]. eapply cut_filter; [exact El| |].
  - intros k v [H|(k' & -> & H)%elem_pre]%elem_of_app; apply passed_lt; [by eapply before_lt|]. rewrite cmp_app.
    apply elem_of_app in H as [[-> _]%elem_self|(lab & s & k1 & He & -> & _)%elem_below]; [by destruct rest|].
    apply list_elem_of_lookup in He as [i Hi]. apply lookup_take_Some in Hi as [Hi Hlt]. rewrite (Hp i lab s k1 Hi). by rewrite decide_True.
  - intros k v [(k' & -> & (lab & s & k1 & He & -> & _)%elem_below)%elem_pre|H]%elem_of_app; apply passed_gt; [|by eapply after_gt]. rewrite cmp_app, cmp_opp.
    apply list_elem_of_lookup in He as [i Hi]. rewrite lookup_drop in Hi. rewrite (Hp _ lab s k1 Hi). by rewrite decide_False by lia.
Qed.

Lemma has_none {A} (o : option A) : bool_decide (is_Some o) = false -> o = None.
Proof. intros H%bool_decide_eq_false. destruct o; [by destruct H|done]. Qed.

(** The cursor a seek leaves, looking forward. *)
Lemma seek_forward op target f cs t o : is_forward op = true -> plug cs t = T -> ends target cs t o ->
  exists it ok l lw, seek_found op o r (cursor false false f cs t) = Some (it, ok) /\ arrives T false false f it ok l /\ entries T = lw ++ l /\
    length (filter (fun p : bytes * V => passed op target p.1 = true) (entries T)) = length lw.
Proof.
  intros Hf E Ho. destruct held as (Hrep & Hwf & Hsize & _). destruct (at_node r T Hrep Hwf cs t E) as (Hn & _). unfold seek_found.
  change (icur (cursor false false f cs t)) with (root t). rewrite Hn. cbn [mbind option_bind]. rewrite Hf. change (value (node_of t)) with (val t).
  assert (forall d rest j0, rest <> [] -> target = ctx_key cs ++ rest -> parts t rest j0 -> drop j0 (edges t) = [] -> exists it ok l lw,
    forward_step false r (cursor false false f cs t) = Some (it, ok) /\ arrives T false false f it ok l /\ entries T = lw ++ l /\
    length (filter (fun p : bytes * V => passed op target p.1 = true) (entries T)) = length lw) as Hpast.
  { intros _ rest j0 Hne -> Hp Hd. destruct (forward_step_spec r T Hrep Hwf Hsize false false false f cs t E) as (it & ok & E1 & H).
    destruct (cut_parts op cs t rest j0 E Hne Hp) as [El Ec]. rewrite Hd in El. exists it, ok, (after cs), (before cs ++ pre (ctx_key cs) (self (val t) ++ below (take j0 (edges t)))). done. }
  destruct o as [| |[j|] bl]; cbn [ends] in Ho.
  - subst target. pose proof (cut_here op cs t E) as Hc. destruct (match op with Ge => true | _ => false end && bool_decide (is_Some (val t))) eqn:Eh.
    + apply andb_true_iff in Eh as [Hop Hv%bool_decide_eq_true]. destruct op; try done. rewrite passed_self in Hc.
      eexists _, true, (from_at cs t), (before cs). split; [done|]. split; [by exists cs, t|]. split; [rewrite <-E; apply before_from|done].
    + destruct (forward_step_spec r T Hrep Hwf Hsize true false false f cs t E) as (it & ok & E1 & H). exists it, ok, (rest_at cs t), (upto_at cs t). split; [done|]. split; [done|].
      split; [rewrite <-E; apply upto_rest|]. rewrite Hc, passed_self. destruct op; try done. cbn in Eh |- *. apply has_none in Eh. unfold upto_at. by rewrite Eh, app_nil_r.
  - destruct Ho as (Ee & rest & Hne & ->). apply (Hpast true rest 0); [done|done| |by rewrite Ee]. split; [lia|]. intros k lab s x Hk. by rewrite Ee in Hk.
  - destruct Ho as (rest & j0 & Hne & -> & Hp & Ha & _). destruct (decide (j0 < length (edges t))) as [Hj|]; [|done]. injection Ha as ->.
    destruct (lookup_lt_is_Some_2 _ _ Hj) as [[lab s] Hs]. destruct (cursor_descend r T Hrep Hwf false false f cs t j0 lab s E Hs) as [-> E']. cbn [mbind option_bind].
    destruct (at_node r T Hrep Hwf _ s E') as (Hn' & _). change (icur (cursor false false f _ s)) with (root s). rewrite Hn'. cbn [mbind option_bind]. change (value (node_of s)) with (val s).
    destruct (cut_parts op cs t rest j0 E Hne Hp) as [El Ec].
    assert (pre (ctx_key cs) (below (drop j0 (edges t))) ++ after cs = from_at (hole_at t j0 lab :: cs) s) as Efrom.
    { rewrite (drop_S _ _ _ Hs). unfold from_at, rest_at. cbn [ctx_key after hlab hright hole_at]. rewrite below_cons. cbn [fst snd]. by rewrite entries_eq, !pre_app, !pre_pre, <-!app_assoc. }
    rewrite Efrom in El. destruct (bool_decide (is_Some (val s))) eqn:Ev.
    + apply bool_decide_eq_true in Ev. eexists _, true, (from_at (hole_at t j0 lab :: cs) s), _. split; [done|]. split; [by exists (hole_at t j0 lab :: cs), s|]. split; [exact El|done].
    + apply has_none in Ev. destruct (forward_step_spec r T Hrep Hwf Hsize true false false f _ s E') as (it & ok & E1 & H). eexists it, ok, (rest_at (hole_at t j0 lab :: cs) s), _. split; [done|]. split; [exact H|].
      unfold from_at in El. rewrite Ev in El. split; [exact El|done].
  - destruct Ho as (rest & j0 & Hne & -> & Hp & Ha & _). destruct (decide (j0 < length (edges t))) as [Hj|Hj]; [done|]. apply (Hpast true rest j0); [done|done|done|]. apply drop_ge. lia.
Qed.

(** And looking back. *)
Lemma seek_backward op target f cs t o : is_forward op = false -> plug cs t = T -> ends target cs t o ->
  exists it ok l, seek_found op o r (cursor false false f cs t) = Some (it, ok) /\ arrives_back T false false f it ok l /\
    length (filter (fun p : bytes * V => passed op target p.1 = true) (entries T)) = length l.
Proof.
  intros Hf E Ho. destruct held as (Hrep & Hwf & Hsize & _). destruct (at_node r T Hrep Hwf cs t E) as (Hn & _). unfold seek_found.
  change (icur (cursor false false f cs t)) with (root t). rewrite Hn. cbn [mbind option_bind]. rewrite Hf. change (value (node_of t)) with (val t).
  assert (forall rest, rest <> [] -> target = ctx_key cs ++ rest -> parts t rest 0 -> exists it ok l,
    step_backward true r (cursor false false f cs t) = Some (it, ok) /\ arrives_back T false false f it ok l /\
    length (filter (fun p : bytes * V => passed op target p.1 = true) (entries T)) = length l) as Hback.
  { intros rest Hne -> Hp. destruct (step_backward_spec r T Hrep Hwf Hsize true false false f cs t E) as (it & ok & E1 & H).
    destruct (cut_parts op cs t rest 0 E Hne Hp) as [_ Ec]. exists it, ok, (upto_at cs t). split; [done|]. split; [done|]. rewrite Ec, take_0. change (below []) with (@nil (bytes * V)). by rewrite app_nil_r. }
  destruct o as [| |ab [j|]]; cbn [ends] in Ho.
  - subst target. pose proof (cut_here op cs t E) as Hc. destruct (match op with Le => true | _ => false end && bool_decide (is_Some (val t))) eqn:Eh.
    + apply andb_true_iff in Eh as [Hop Hv%bool_decide_eq_true]. destruct op; try done. rewrite passed_self in Hc.
      eexists _, true, (upto_at cs t). split; [done|]. split; [by exists cs, t|done].
    + destruct (step_backward_spec r T Hrep Hwf Hsize false false false f cs t E) as (it & ok & E1 & H). exists it, ok, (before cs). split; [by destruct op|]. split; [done|].
      rewrite Hc, passed_self. destruct op; try done. cbn in Eh |- *. apply has_none in Eh. unfold upto_at. by rewrite Eh, app_nil_r.
  - destruct Ho as (Ee & rest & Hne & ->). apply (Hback rest); [done|done|]. split; [lia|]. intros k lab s x Hk. by rewrite Ee in Hk.
  - destruct Ho as (rest & j0 & Hne & -> & Hp & _ & Hb). destruct j0 as [|j0]; [done|]. injection Hb as ->. pose proof Hp as [Hj _].
    destruct (lookup_lt_is_Some_2 (edges t) j0) as [[lab s] Hs]; [lia|]. destruct (cursor_descend r T Hrep Hwf false false f cs t j0 lab s E Hs) as [-> E']. cbn [mbind option_bind].
    destruct (descend_rightmost_spec r T Hrep Hwf Hsize (S (length (rnodes r))) false false f _ s E') as (cs' & u & -> & Hpu & _ & Hb' & _).
    { etrans; [|apply Nat.lt_le_incl, Nat.lt_succ_r, Hsize]. rewrite <-E', ids_plug, length_app. lia. }
    cbn [mbind option_bind]. destruct (step_backward_spec r T Hrep Hwf Hsize true false false f cs' u Hpu) as (it & ok & E1 & H). exists it, ok, (upto_at cs' u). split; [done|]. split; [done|].
    destruct (cut_parts op cs t rest (S j0) E Hne Hp) as [_ Ec]. rewrite Ec, Hb'. cbn [before ctx_key hval hleft hlab hole_at]. rewrite (take_S_r _ _ _ Hs), below_app, below_cons. cbn [fst snd].
    change (below []) with (@nil (bytes * V)). by rewrite app_nil_r, !pre_app, !pre_pre, <-!app_assoc.
  - destruct Ho as (rest & j0 & Hne & -> & Hp & _ & Hb). destruct j0 as [|j0]; [|done]. by apply (Hback rest).
Qed.

Lemma do_seek_spec op target it0 : exists it, do_seek op target r it0 = Some it /\ stands (forward it0) it (seek_index op target (entries T)).
Proof.
  destruct held as (_ & _ & _ & Hroot). unfold do_seek. assert (reset it0 = cursor false false (forward it0) [] T) as -> by (unfold reset, cursor; by rewrite Hroot).
  destruct (seek_walk_spec (S (length target)) target (forward it0) [] T eq_refl ltac:(lia)) as (cs & t & o & E1 & E2 & Ho). cbn [ctx_key app length] in E1, Ho. rewrite E1. cbn [mbind option_bind].
  unfold seek_index. destruct (is_forward op) eqn:Ef.
  - destruct (seek_forward op target (forward it0) cs t o Ef E2 Ho) as (it & ok & l & lw & -> & Ha & El & Ec). cbn [mbind option_bind]. eexists. split; [done|]. rewrite Ec. by eapply arrives_stands.
  - destruct (seek_backward op target (forward it0) cs t o Ef E2 Ho) as (it & ok & l & -> & Ha & Ec). cbn [mbind option_bind]. eexists. split; [done|]. rewrite Ec. by apply arrives_back_stands.
Qed.

(** The first pair and the last. *)
Lemma settle_eq p f it ok : eof it = false \/ ok = false -> settle (it, ok) = if ok then set_flags true false it else set_flags (pending it) true it.
Proof. unfold settle. cbn. destruct ok; intros [H|H]; (by rewrite ?H) || done. Qed.

Lemma start_first_spec it0 : exists it, start_first r it0 = Some it /\ stands true it (index_forward 0 (entries T)).
Proof.
  destruct held as (Hrep & Hwf & Hsize & Hroot). unfold start_first. assert (set_forward true (reset it0) = cursor false false true [] T) as -> by (unfold set_forward, reset, cursor; cbn; by rewrite Hroot).
  rewrite <-Hroot. rewrite (rep_node r T Hrep). cbn [mbind option_bind]. change (value (node_of T)) with (val T).
  pose proof (before_from [] T) as Hb. cbn [plug before app] in Hb. destruct (bool_decide (is_Some (val T))) eqn:Ev.
  - apply bool_decide_eq_true in Ev. eexists. split; [done|]. apply (arrives_stands true (cursor false false true [] T) true (entries T) []); [|done]. rewrite Hb. by exists [], T.
  - apply has_none in Ev. destruct (forward_step_spec r T Hrep Hwf Hsize true false false true [] T eq_refl) as (it & ok & -> & H). eexists. split; [done|].
    rewrite (settle_eq true true) by (destruct ok; [left; by destruct H as (? & ? & -> & _)|by right]). apply (arrives_stands true it ok (entries T) []); [|done]. rewrite Hb. unfold from_at. rewrite Ev. exact H.
Qed.

Lemma start_last_spec it0 : exists it, start_last r it0 = Some it /\ stands false it (index_backward (length (entries T))).
Proof.
  destruct held as (Hrep & Hwf & Hsize & Hroot). unfold start_last. assert (set_forward false (reset it0) = cursor false false false [] T) as -> by (unfold set_forward, reset, cursor; cbn; by rewrite Hroot).
  destruct (descend_rightmost_spec r T Hrep Hwf Hsize (S (length (rnodes r))) false false false [] T eq_refl ltac:(lia)) as (cs' & u & -> & Hpu & _ & Hb & _). cbn [mbind option_bind].
  destruct (step_backward_spec r T Hrep Hwf Hsize true false false false cs' u Hpu) as (it & ok & -> & H). eexists. split; [done|].
  rewrite (settle_eq true true) by (destruct ok; [left; by destruct H as (? & ? & -> & _)|by right]). cbn [before ctx_key app] in Hb. rewrite pre_nil in Hb. rewrite <-Hb. by apply arrives_back_stands.
Qed.
End seek.
