(* ===== verification/RaxRefine.v ===== *)
(** * The rax as a map

    What the arena holds is a finite map from keys: lookup, insertion and
    removal are those of the map, and a cursor reads it in the order of the
    keys. *)
From stdpp Require Import sorting.
From S2P Require Import Prelude Skiplist SkiplistOrder Rax RaxFacts RaxWalk RaxInsert RaxRemove RaxListing RaxCursor RaxSeek.
Open Scope nat_scope.

Section refine.
Context {V : Type}.
Implicit Types (r : Rax V) (t : tree V) (m : gmap bytes V) (l : list (bytes * V)).

Definition represents r m : Prop := exists t, holds r t /\ (forall k, look t k = m !! k) /\ numele r = size m.
(** The allocations of an insertion fit in the 32-bit indices. *)
Definition room r : Prop := (Z.of_nat (length (rnodes r)) + 4 <= 2 ^ 32)%Z.

Lemma represents_new : represents new ∅.
Proof.
  exists (Tree ROOT None []). split; [|split; [by intros []|by rewrite map_size_empty]]. split.
  - apply rep_eq. split; [done|constructor].
  - split; [apply NoDup_singleton|]. split; [|by split]. intros i Hi. apply list_elem_of_singleton in Hi as ->. apply Nat.lt_0_1.
  - apply wf_intro; [|constructor]. split; [constructor|left; cbn; lia|by intros ????].
  - done.
Qed.

Lemma find_map r m key : represents r m -> find key r = Some (m !! key).
Proof. intros (t & Hh & Hl & _). rewrite <-Hl. by apply find_tree; destruct Hh. Qed.

Lemma insert_map r m key v : represents r m -> room r ->
  exists r', insert key v r = Some (r', m !! key) /\ represents r' (<[key:=v]> m) /\ length (rnodes r') <= length (rnodes r) + 4.
Proof.
  intros (t & Hh & Hl & Hn) Hroom. unfold room in Hroom. destruct (insert_tree r t key v Hh ltac:(lia)) as (r' & t' & -> & Hh' & Hl' & Hn' & Hlen). exists r'. rewrite Hl in Hn' |- *. split; [done|]. split; [|done].
  exists t'. split; [done|]. split.
  - intros k. rewrite Hl'. destruct (decide (k = key)) as [->|Hk]; [by rewrite lookup_insert_eq|by rewrite lookup_insert_ne, Hl].
  - rewrite Hn', Hn. destruct (m !! key) eqn:E; [by rewrite map_size_insert_Some, Nat.add_0_r|]. by rewrite map_size_insert_None, Nat.add_1_r.
Qed.

Lemma remove_map r m key : represents r m ->
  exists r', remove key r = Some (r', m !! key) /\ represents r' (base.delete key m) /\ length (rnodes r') = length (rnodes r).
Proof.
  intros (t & Hh & Hl & Hn). destruct (remove_tree r t key Hh) as (r' & t' & -> & Hh' & Hl' & Hn' & Hlen). exists r'. rewrite Hl in Hn' |- *. split; [done|]. split; [|done].
  exists t'. split; [done|]. split.
  - intros k. rewrite Hl'. destruct (decide (k = key)) as [->|Hk]; [by rewrite lookup_delete_eq|by rewrite lookup_delete_ne, Hl].
  - rewrite Hn', Hn. destruct (m !! key) as [x|] eqn:E; [rewrite map_size_delete_Some by (by exists x); lia|]. by rewrite map_size_delete_None, Nat.sub_0_r.
Qed.

(** A value changed in place. *)
Lemma find_mut_map r m key f : represents r m ->
  exists r', find_mut key f r = Some r' /\ represents r' (alter f key m) /\ length (rnodes r') = length (rnodes r).
Proof.
  intros (t & Hh & Hl & Hn). unfold find_mut. destruct (walk_tree t r key (holds_rep _ _ Hh) (holds_wf _ _ Hh) (holds_root _ _ Hh)) as ([[[cur n] split] stack] & -> & Hx). cbn [mbind option_bind].
  destruct Hx as [(cs & [i v es] & -> & -> & -> & -> & -> & ->)|[Hx E]].
  - rewrite decide_False by (by intros [?|?]). destruct (holds_at _ _ _ Hh) as (Hr & _ & Hw & Hwc & Ha).
    destruct (value_set r cs i v es (f <$> v) Hh) as (r1 & E1 & R1 & O1 & N1 & L1). exists r1. pose proof (rep_node _ _ Hr) as Hi. cbn [root] in Hi |- *.
    split; [rewrite <-E1; unfold node_mut; by rewrite Hi|]. split; [|done]. exists (plug cs (Tree i (f <$> v) es)).
    split; [split; [done|done| |]|split].
    + apply wf_plug. split; [done|]. split; [apply wf_inv in Hw as [??]; by apply wf_intro|]. intros Hne. destruct (Ha Hne) as [[x Hv]|He]; [left; cbn in *; by rewrite Hv|by right].
    + rewrite (plug_root cs (Tree i v es)) by done. apply (holds_root _ _ Hh).
    + intros k. rewrite (look_value cs i v) by done. destruct (decide (k = ctx_key cs)) as [->|Hk]; [|by rewrite lookup_alter_ne].
      rewrite lookup_alter_eq, <-Hl. pose proof (look_plug_at cs (Tree i v es) [] Hwc) as H. rewrite app_nil_r in H. by rewrite H.
    + rewrite N1, Hn. by rewrite <-!size_dom, (dom_alter_L (D := gset bytes)).
  - rewrite decide_True by done. exists r. split; [done|]. split; [|done]. exists t. split; [done|].
    assert (alter f key m = m) as ->; [|done]. apply map_eq. intros k. destruct (decide (k = key)) as [->|Hk]; [rewrite lookup_alter_eq, <-Hl, E; done|by rewrite lookup_alter_ne].
Qed.

(** ** The order *)

(** The pairs of a map, by their keys. *)
Definition listing m l : Prop := StronglySorted key_lt l /\ forall k v, (k, v) ∈ l <-> m !! k = Some v.

Lemma key_lt_irrefl (x : bytes * V) : ~ key_lt x x.
Proof. unfold key_lt. by rewrite cmp_refl. Qed.

Lemma listing_length m l : listing m l -> length l = size m.
Proof.
  intros [Hs Hl]. assert (NoDup l) as Hnd.
  { clear Hl. induction Hs as [|x l _ IH Hx]; constructor; [|done]. intros Hin. rewrite Forall_forall in Hx. by apply Hx, key_lt_irrefl in Hin. }
  assert (l ≡ₚ map_to_list m) as Hp by (apply NoDup_Permutation; [done|apply NoDup_map_to_list|]; intros [k v]; by rewrite Hl, elem_of_map_to_list).
  by rewrite Hp, length_map_to_list.
Qed.

Lemma listed r m : represents r m -> exists t, holds r t /\ listing m (entries t) /\ numele r = length (entries t).
Proof.
  intros (t & Hh & Hl & Hn). exists t. assert (listing m (entries t)) as H.
  { split; [apply entries_sorted, holds_wf with r, Hh|]. intros k v. rewrite elem_entries, Hl by (by apply holds_wf with r). done. }
  split; [done|]. split; [done|]. by rewrite (listing_length m _ H).
Qed.

Lemma collect_head fuel r it l : collect_pairs (S fuel) r it = Some l -> exists it', next r it = Some (it', head l).
Proof.
  cbn [collect_pairs]. destruct (next r it) as [[it' [x|]]|]; [|intros [= <-]; by exists it'|done]. cbn [mbind option_bind].
  destruct (collect_pairs fuel r it') as [out|]; [|done]. cbn. intros [= <-]. by exists it'.
Qed.

Lemma head_yields r it f o l : collect_pairs (S (length l)) r it = Some (yields f o l) -> (x ← Some it; '(_, o) ← next r x; Some o) = Some (head (yields f o l)).
Proof. intros H. destruct (collect_head _ _ _ _ H) as [it' E]. cbn. by rewrite E. Qed.

Lemma seek_map r m : represents r m -> exists l, listing m l /\
  collect r (iter r) = Some l /\ collect r (iter_rev r) = Some (rev l) /\ first r = Some (head l) /\ last r = Some (list.last l) /\
  forall op key, collect r (seek op key r) = Some (yields true (seek_index op key l) l) /\ collect r (seek_rev op key r) = Some (yields false (seek_index op key l) l).
Proof.
  intros Hr. destruct (listed r m Hr) as (t & Hh & Hl & Hn). exists (entries t). split; [done|].
  assert (forall f it o, stands t f it o -> collect_pairs (S (numele r)) r it = Some (yields f o (entries t))) as Hc by (intros f it o H; apply (stands_yields r t Hh f it o _ H); lia).
  destruct (start_first_spec r t Hh iter_new) as (it1 & E1 & H1). destruct (start_last_spec r t Hh iter_new) as (it2 & E2 & H2).
  assert (yields true (index_forward 0 (entries t)) (entries t) = entries t) as Y1 by (unfold index_forward; case_decide as Hd; [done|]; by destruct (entries t); [|cbn in Hd; lia]).
  assert (yields false (index_backward (length (entries t))) (entries t) = rev (entries t)) as Y2 by (unfold index_backward; destruct (entries t) as [|x l]; [done|]; cbn [length yields]; by rewrite take_ge by (cbn; lia)).
  split; [|split; [|split; [|split]]].
  - unfold collect, iter. rewrite E1. cbn [mbind option_bind]. by rewrite (Hc _ _ _ H1), Y1.
  - unfold collect, iter_rev. rewrite E2. cbn [mbind option_bind]. by rewrite (Hc _ _ _ H2), Y2.
  - unfold first, iter. rewrite E1. cbn [mbind option_bind]. pose proof (Hc _ _ _ H1) as H. rewrite Hn in H. apply head_yields in H. by rewrite Y1 in H.
  - unfold last, iter_rev. rewrite E2. cbn [mbind option_bind]. pose proof (Hc _ _ _ H2) as H. rewrite Hn in H. apply head_yields in H. rewrite Y2 in H. cbn [mbind option_bind] in H. rewrite H. f_equal.
    rewrite rev_alt. apply head_reverse.
  - intros op key. unfold seek, seek_rev. destruct (do_seek_spec r t Hh op key iter_new) as (it & E & H). unfold collect. rewrite E. cbn [fmap option_fmap option_map mbind option_bind].
    split; apply Hc; by eapply stands_turn.
Qed.

(** ** The nodes *)

Lemma alive_entries t : wf t -> alive t -> entries t <> [].
Proof.
  induction t as [i v es IH] using tree_rect_edges. intros [_ Hk]%wf_inv Ha. rewrite entries_eq. cbn [val edges] in *. destruct Ha as [[x Hv]|He]; [cbn in Hv; by rewrite Hv|].
  destruct es as [|[lab s] es]; [done|]. apply Forall_cons in IH as [IH _]. apply Forall_cons in Hk as [[Hs Hws] _]. specialize (IH Hws Hs). cbn [snd] in IH.
  rewrite below_cons. cbn [fst snd]. destruct (entries s) as [|[k w] l]; [done|]. by destruct v.
Qed.

Lemma empty_nodes r : represents r ∅ -> node_count r = 1.
Proof.
  intros (t & Hh & Hl & _). destruct Hh as [_ (_ & _ & Hlen & _) Hw _]. unfold node_count. rewrite length_app in Hlen.
  assert (edges t = []) as He.
  { destruct (edges t) as [|[lab s] es] eqn:E; [done|exfalso]. destruct (wf_kid t 0 lab s Hw) as (Ha & Hws & _); [by rewrite E|]. apply (alive_entries s Hws) in Ha.
    destruct (entries s) as [|[k v] l] eqn:Ee; [done|]. assert ((lab ++ k, v) ∈ entries t) as Hin.
    { rewrite entries_eq, E. apply elem_of_app. right. apply elem_below. exists lab, s, k. split; [by left|]. split; [done|]. rewrite Ee. by left. }
    apply elem_entries in Hin; [|done]. by rewrite Hl in Hin. }
  destruct t as [i v es]. cbn in He. subst es. cbn in Hlen. lia.
Qed.
End refine.

(** * The theorems *)

(** A rax reads as the map it stands for: [find] gives the value of the
    key, [contains_key] whether it has one, [len] and [is_empty] the number of
    keys; a new or cleared rax is the empty map, and one whose keys are all
    gone is back to the root alone. *)
Theorem rax_reads {V} (r : Rax V) (m : gmap bytes V) (key : bytes) : represents r m ->
  find key r = Some (m !! key) /\ contains_key key r = Some (bool_decide (is_Some (m !! key))) /\ len r = size m /\ is_empty r = bool_decide (size m = 0) /\
  represents (V := V) new ∅ /\ represents (clear r) ∅ /\ (m = ∅ -> node_count r = 1).
Proof.
  intros H. pose proof (find_map r m key H) as Hf. split; [done|]. split; [unfold contains_key; by rewrite Hf|].
  split; [by destruct H as (? & ? & ? & ?)|]. split; [unfold is_empty; by destruct H as (? & ? & ? & ->)|].
  split; [apply represents_new|]. split; [apply represents_new|]. intros ->. by apply empty_nodes.
Qed.

(** C6: [insert] stores the value under the key and gives the one it replaces,
    whichever label it has to split; every other key keeps its value.
    [find_mut] changes the value of a key that is there. *)
Theorem rax_insert {V} (r : Rax V) (m : gmap bytes V) (key : bytes) : represents r m ->
  (forall v, room r -> exists r', insert key v r = Some (r', m !! key) /\ represents r' (<[key:=v]> m) /\ length (rnodes r') <= length (rnodes r) + 4) /\
  (forall f, exists r', find_mut key f r = Some r' /\ represents r' (alter f key m) /\ length (rnodes r') = length (rnodes r)).
Proof. intros H. split; [intros v Hr; by apply insert_map|intros f; by apply find_mut_map]. Qed.

(** C7: [remove] takes the key out and gives its value, [None] when it is not
    there; pruning and merging change nothing of the other keys, end, and leave
    the arena no larger. *)
Theorem rax_remove {V} (r : Rax V) (m : gmap bytes V) (key : bytes) : represents r m ->
  exists r', remove key r = Some (r', m !! key) /\ represents r' (base.delete key m) /\ length (rnodes r') = length (rnodes r).
Proof. apply remove_map. Qed.

(** C8: The cursors read the map in the order of the keys: [iter] all the
    pairs, [iter_rev] the same backwards, [first] and [last] its ends; a seek
    stops at the first key not before the target ([Ge], [Gt]) or the last not
    after it ([Le], [Lt]), [seek] goes on from there and [seek_rev] back. *)
Theorem rax_order {V} (r : Rax V) (m : gmap bytes V) : represents r m -> exists l, listing m l /\
  collect r (iter r) = Some l /\ collect r (iter_rev r) = Some (rev l) /\ first r = Some (head l) /\ last r = Some (list.last l) /\
  forall op key, collect r (seek op key r) = Some (yields true (seek_index op key l) l) /\ collect r (seek_rev op key r) = Some (yields false (seek_index op key l) l).
Proof. apply seek_map. Qed.

(** ** Witnesses *)

Definition demo_map : gmap bytes Z := (<[bs "f":=4]> (<[bs "foo":=3]> (<[bs "footer":=2]> (<[bs "foobar":=1]> ∅))))%Z.

Lemma rax_demo_represents : exists r, demo = Some r /\ represents r demo_map /\ room r.
Proof.
  unfold demo, rax_of, demo_map. cbn [foldl mbind option_bind].
  destruct (insert_map new ∅ (bs "foobar") 1%Z represents_new) as (r1 & -> & H1 & L1); [by vm_compute|]. cbn [fmap option_fmap option_map fst mbind option_bind].
  change (length (rnodes new)) with 1 in L1.
  destruct (insert_map r1 _ (bs "footer") 2%Z H1) as (r2 & -> & H2 & L2); [unfold room; lia|]. cbn [fmap option_fmap option_map fst mbind option_bind].
  destruct (insert_map r2 _ (bs "foo") 3%Z H2) as (r3 & -> & H3 & L3); [unfold room; lia|]. cbn [fmap option_fmap option_map fst mbind option_bind].
  destruct (insert_map r3 _ (bs "f") 4%Z H3) as (r4 & -> & H4 & L4); [unfold room; lia|]. exists r4. split; [done|]. split; [done|]. unfold room. lia.
Qed.

Lemma rax_reads_witness : exists r, demo = Some r /\ represents r demo_map /\ find (bs "foo") r = Some (Some 3%Z) /\ find (bs "fo") r = Some None /\ len r = 4.
Proof.
  destruct rax_demo_represents as (r & E & H & _). exists r. split; [done|]. split; [done|].
  destruct (rax_reads r demo_map (bs "foo") H) as (-> & _ & -> & _). destruct (rax_reads r demo_map (bs "fo") H) as (-> & _). split_and!; by vm_compute.
Defined.

Lemma rax_insert_witness : exists r r', demo = Some r /\ insert (bs "fo") 5%Z r = Some (r', None) /\ represents r' (<[bs "fo":=5]> demo_map)%Z.
Proof.
  destruct rax_demo_represents as (r & E & H & Hr). destruct (rax_insert r demo_map (bs "fo") H) as [Hi _]. destruct (Hi 5%Z Hr) as (r' & E' & H' & _).
  exists r, r'. split; [done|]. split; [rewrite E'; by vm_compute|done].
Defined.

Lemma rax_remove_witness : exists r r', demo = Some r /\ remove (bs "foo") r = Some (r', Some 3%Z) /\ represents r' (base.delete (bs "foo") demo_map).
Proof.
  destruct rax_demo_represents as (r & E & H & _). destruct (rax_remove r demo_map (bs "foo") H) as (r' & E' & H' & _).
  exists r, r'. split; [done|]. split; [rewrite E'; by vm_compute|done].
Defined.

Lemma rax_order_witness : exists r l, demo = Some r /\ listing demo_map l /\ collect r (iter r) = Some l /\ collect r (iter_rev r) = Some (rev l).
Proof.
  destruct rax_demo_represents as (r & E & H & _). destruct (rax_order r demo_map H) as (l & Hl & H1 & H2 & _). exists r, l. exact (conj E (conj Hl (conj H1 H2))).
Defined.
