(* ===== verification/Output.v ===== *)
(** * The output buffer ([src/net/output.rs])

    The staging buffer, the queue of sealed frames, the write loop and the
    accounting of [client-output-buffer-limit].  The socket is a parameter: any
    [AsyncWrite] that accepts some prefix of what it is given.  Capacities are
    left out, and with them [memory_usage] and the shrinking of idle buffers. *)
From S2P Require Import Prelude.
Open Scope nat_scope.

Definition MAX_IOVECS : nat := 64.
Definition VECTORED_MIN_BYTES : nat := 2048.

Inductive ClientClass := Normal | PubSub | Replica.

(** [u64] fields. *)
Record ClassLimit := { hard : Z; soft : Z; soft_seconds : Z }.
Definition UNLIMITED : ClassLimit := {| hard := 0; soft := 0; soft_seconds := 0 |}.

Record OutputLimits := { normal : ClassLimit; pubsub : ClassLimit; replica : ClassLimit }.
Definition limits_default : OutputLimits :=
  {| normal := UNLIMITED;
     pubsub := {| hard := Z.shiftl 32 20; soft := Z.shiftl 8 20; soft_seconds := 60 |};
     replica := {| hard := Z.shiftl 256 20; soft := Z.shiftl 64 20; soft_seconds := 60 |} |}.
Definition for_class (class : ClientClass) (l : OutputLimits) : ClassLimit :=
  match class with Normal => normal l | PubSub => pubsub l | Replica => replica l end.

Inductive LimitBreach := Hard | Soft.
#[export] Instance breach_eq_dec : EqDecision LimitBreach.
Proof. solve_decision. Defined.

Record OutputBuffer := {
  staging : bytes;
  queued : list bytes;
  queued_bytes : nat;
  head_off : nat;
  peak_pending : nat;
  soft_limit_since_ms : option Z
}.

Definition output_new : OutputBuffer :=
  {| staging := []; queued := []; queued_bytes := 0; head_off := 0; peak_pending := 0; soft_limit_since_ms := None |}.

(** What is done through [staging()]. *)
Definition set_staging (s : bytes) (o : OutputBuffer) : OutputBuffer :=
  {| staging := s; queued := queued o; queued_bytes := queued_bytes o; head_off := head_off o; peak_pending := peak_pending o;
     soft_limit_since_ms := soft_limit_since_ms o |}.
Definition set_queue (q : list bytes) (n off : nat) (o : OutputBuffer) : OutputBuffer :=
  {| staging := staging o; queued := q; queued_bytes := n; head_off := off; peak_pending := peak_pending o; soft_limit_since_ms := soft_limit_since_ms o |}.
Definition set_peak (n : nat) (o : OutputBuffer) : OutputBuffer :=
  {| staging := staging o; queued := queued o; queued_bytes := queued_bytes o; head_off := head_off o; peak_pending := n;
     soft_limit_since_ms := soft_limit_since_ms o |}.
Definition set_since (s : option Z) (o : OutputBuffer) : OutputBuffer :=
  {| staging := staging o; queued := queued o; queued_bytes := queued_bytes o; head_off := head_off o; peak_pending := peak_pending o;
     soft_limit_since_ms := s |}.

Definition pending (o : OutputBuffer) : nat := length (staging o) + queued_bytes o - head_off o.
Definition is_empty (o : OutputBuffer) : bool := bool_decide (pending o = 0).
Definition queued_frames (o : OutputBuffer) : nat := length (queued o).

Definition seal (o : OutputBuffer) : OutputBuffer :=
  match staging o with
  | [] => o
  | frame => set_staging [] (set_queue (queued o ++ [frame]) (queued_bytes o + length frame) (head_off o) o)
  end.

Definition should_queue (len : nat) : bool := bool_decide (VECTORED_MIN_BYTES <= len).

Definition note_pending (o : OutputBuffer) : OutputBuffer := if decide (peak_pending o < pending o) then set_peak (pending o) o else o.

Definition push_bytes (b : bytes) (o : OutputBuffer) : OutputBuffer :=
  match b with
  | [] => o
  | _ => let o := seal o in note_pending (set_queue (queued o ++ [b]) (queued_bytes o + length b) (head_off o) o)
  end.

Definition saturating_mul (a b : Z) : Z := Z.min U64_MAX (a * b).
Definition check_limit (limit : ClassLimit) (now_ms : Z) (o : OutputBuffer) : OutputBuffer * option LimitBreach :=
  let p := Z.of_nat (pending o) in
  if bool_decide (0 < hard limit)%Z && bool_decide (hard limit < p)%Z then (o, Some Hard)
  else if bool_decide (0 < soft limit)%Z && bool_decide (soft limit < p)%Z then
    match soft_limit_since_ms o with
    | None => (set_since (Some now_ms) o, None)
    | Some since => if bool_decide (saturating_mul (soft_seconds limit) 1000 <= Z.max 0 (now_ms - since))%Z then (o, Some Soft) else (o, None)
    end
  else (set_since None o, None).

(** Accounts for [n] bytes accepted: the queue, its bytes, the head offset. *)
Fixpoint advance_loop (n : nat) (q : list bytes) (qb off : nat) : list bytes * nat * nat :=
  match n, q with
  | O, _ | _, [] => (q, qb, off)
  | _, front :: q' =>
      let left := length front - off in
      if decide (n < left) then (q, qb, off + n) else advance_loop (n - left) q' (qb - length front) 0
  end.
Definition advance (n : nat) (o : OutputBuffer) : OutputBuffer :=
  let '(q, qb, off) := advance_loop n (queued o) (queued_bytes o) (head_off o) in set_queue q qb off o.

Definition discard (o : OutputBuffer) : OutputBuffer := set_staging [] (set_queue [] 0 0 o).

(** ** The socket *)

Inductive IoError := WriteZero | OtherError (kind : nat).

(** [tokio::io::AsyncWrite], a call to its end. *)
Class AsyncWrite (W : Type) := {
  write : W -> bytes -> W * (IoError + nat);
  write_vectored : W -> list bytes -> W * (IoError + nat);
  is_write_vectored : W -> bool;
  received : W -> bytes
}.
(** A write takes a prefix, and says how long; an error takes nothing. *)
Class AsyncWriteLaws (W : Type) `{AsyncWrite W} := {
  write_prefix w b w' r : write w b = (w', r) ->
    match r with inr n => n <= length b /\ received w' = received w ++ take n b | inl _ => received w' = received w end;
  write_vectored_prefix w l w' r : write_vectored w l = (w', r) ->
    match r with inr n => n <= length (concat l) /\ received w' = received w ++ take n (concat l) | inl _ => received w' = received w end
}.

Section flush.
Context {W : Type} `{AsyncWrite W}.

Definition write_some (w : W) (o : OutputBuffer) : W * (IoError + nat) :=
  match queued o with
  | [] => (w, inr 0)
  | head :: rest =>
      let head := drop (head_off o) head in
      if bool_decide (length (queued o) = 1) || negb (is_write_vectored w) then write w head
      else write_vectored w (take MAX_IOVECS (head :: filter (fun f => f <> []) rest))
  end.

Fixpoint flush_loop (fuel : nat) (w : W) (o : OutputBuffer) (total : nat) : option (W * OutputBuffer * (IoError + nat)) :=
  match fuel with
  | O => None
  | S fuel =>
      match queued o with
      | [] => Some (w, o, inr total)
      | _ =>
          match write_some w o with
          | (w, inl e) => Some (w, o, inl e)
          | (w, inr O) => Some (w, o, inl WriteZero)
          | (w, inr n) => flush_loop fuel w (advance n o) (total + n)
          end
      end
  end.

(** Every round writes a byte, so there are no more rounds than bytes. *)
Definition flush (w : W) (o : OutputBuffer) : option (W * OutputBuffer * (IoError + nat)) :=
  let o := seal (note_pending o) in
  '(w, o, r) ← flush_loop (S (S (pending o))) w o 0;
  Some (w, match r with inr _ => set_queue (queued o) 0 0 o | inl _ => o end, r).
End flush.

(** * Facts *)

(** What is on its way, in order. *)
Definition content (o : OutputBuffer) : bytes := drop (head_off o) (concat (queued o)) ++ staging o.

Record ok (o : OutputBuffer) : Prop := {
  ok_bytes : queued_bytes o = length (concat (queued o));
  ok_frames : Forall (fun f => f <> []) (queued o);
  ok_head : match queued o with [] => head_off o = 0 | f :: _ => head_off o < length f end
}.

Lemma ok_new : ok output_new.
Proof. by split. Qed.

Lemma head_le o : ok o -> head_off o <= length (concat (queued o)).
Proof. intros [_ _ H]. destruct (queued o); cbn; [lia|]. rewrite length_app. lia. Qed.

Lemma pending_content o : ok o -> pending o = length (content o).
Proof. intros Ho. pose proof (head_le o Ho). unfold pending, content. rewrite (ok_bytes o Ho), length_app, length_drop. lia. Qed.

Lemma ok_more o f : ok o -> f <> [] -> ok (set_queue (queued o ++ [f]) (queued_bytes o + length f) (head_off o) o).
Proof.
  intros [H1 H2 H3] Hf. split; cbn.
  - by rewrite concat_app, length_app, H1; cbn; rewrite app_nil_r.
  - apply Forall_app. split; [done|by constructor].
  - destruct (queued o); cbn; [rewrite H3; by destruct f; cbn; [|lia]|done].
Qed.

Lemma ok_same o o' : queued o' = queued o -> queued_bytes o' = queued_bytes o -> head_off o' = head_off o -> ok o -> ok o'.
Proof. intros E1 E2 E3 [H1 H2 H3]. by split; rewrite E1, ?E2, ?E3. Qed.

Lemma content_more o f : ok o -> content (set_queue (queued o ++ [f]) (queued_bytes o + length f) (head_off o) o) = drop (head_off o) (concat (queued o)) ++ f ++ staging o.
Proof. intros Ho. pose proof (head_le o Ho). unfold content. cbn. rewrite concat_app, drop_app_le by done. cbn. by rewrite app_nil_r, <-app_assoc. Qed.

Lemma seal_spec o : ok o -> ok (seal o) /\ content (seal o) = content o /\ staging (seal o) = [] /\ peak_pending (seal o) = peak_pending o.
Proof.
  intros Ho. unfold seal. destruct (staging o) as [|b s] eqn:E; [done|]. rewrite <-E. assert (staging o <> []) as Hne by (by rewrite E).
  pose proof (ok_more o (staging o) Ho Hne) as Hok. pose proof (content_more o (staging o) Ho) as Hc. split; [by eapply ok_same; [..|exact Hok]|]. split; [|done].
  unfold content in *. cbn in *. rewrite app_nil_r. rewrite app_assoc in Hc. by apply app_inv_tail in Hc.
Qed.

Lemma note_pending_spec o : ok o -> ok (note_pending o) /\ content (note_pending o) = content o /\ peak_pending (note_pending o) = max (peak_pending o) (pending o).
Proof. intros Ho. unfold note_pending. case_decide; (split; [by apply (ok_same o)|split; [done|cbn; lia]]). Qed.

Lemma push_bytes_spec b o : ok o -> ok (push_bytes b o) /\ content (push_bytes b o) = content o ++ b.
Proof.
  intros Ho. destruct b as [|c b]; [by rewrite app_nil_r|]. unfold push_bytes. destruct (seal_spec o Ho) as (Hs & Hc & Hst & _). set (o' := seal o) in *.
  destruct (note_pending_spec _ (ok_more o' (c :: b) Hs ltac:(done))) as (H1 & H2 & _). split; [done|]. rewrite H2, content_more, Hst, app_nil_r by done.
  rewrite <-Hc. unfold content. by rewrite Hst, app_nil_r.
Qed.

(** ** The write loop *)

Lemma advance_loop_spec n q qb off : n <= length (drop off (concat q)) -> qb = length (concat q) -> Forall (fun f => f <> []) q ->
  match q with [] => off = 0 | f :: _ => off < length f end ->
  let '(q', qb', off') := advance_loop n q qb off in
  drop off' (concat q') = drop n (drop off (concat q)) /\ qb' = length (concat q') /\ Forall (fun f => f <> []) q' /\
  match q' with [] => off' = 0 | f :: _ => off' < length f end.
Proof.
  revert n qb off. induction q as [|f q IH]; intros n qb off Hn Hqb Hf Hoff.
  - subst off. destruct n; [done|]. cbn in Hn. lia.
  - destruct n as [|n]; [done|]. cbn [advance_loop]. case_decide as Hlt.
    + cbn [concat] in *. rewrite drop_drop. split; [f_equal; lia|]. split; [done|]. split; [done|lia].
    + apply Forall_cons in Hf as [_ Hf]. cbn [concat] in *. rewrite length_app in Hqb.
      assert (drop off (f ++ concat q) = drop off f ++ concat q) as Ed by (by rewrite drop_app_le by lia). rewrite Ed in *. rewrite length_app, length_drop in Hn.
      specialize (IH (S n - (length f - off)) (qb - length f) 0 ltac:(rewrite drop_0; lia) ltac:(lia) Hf ltac:(destruct q as [|g q]; [done|]; apply Forall_cons in Hf as [Hg _]; by destruct g; cbn; [|lia])).
      destruct (advance_loop _ q _ 0) as [[q' qb'] off']. rewrite drop_0 in IH. destruct IH as (IH1 & IH2 & IH3 & IH4). split; [|done].
      rewrite IH1. rewrite drop_app_ge by (rewrite length_drop; lia). f_equal. rewrite length_drop. lia.
Qed.

Lemma advance_spec n o : ok o -> n <= length (drop (head_off o) (concat (queued o))) ->
  ok (advance n o) /\ drop (head_off (advance n o)) (concat (queued (advance n o))) = drop n (drop (head_off o) (concat (queued o))) /\
  staging (advance n o) = staging o.
Proof.
  intros [H1 H2 H3] Hn. unfold advance. pose proof (advance_loop_spec n (queued o) (queued_bytes o) (head_off o) Hn H1 H2 H3) as H.
  destruct (advance_loop _ _ _ _) as [[q qb] off]. destruct H as (E1 & E2 & E3 & E4). cbn. split; [by split|done].
Qed.

Section facts.
Context {W : Type} `{AsyncWriteLaws W}.

Lemma concat_filter (l : list bytes) : concat (filter (fun f => f <> []) l) = concat l.
Proof. induction l as [|f l IH]; [done|]. destruct (decide (f <> [])) as [Hf|Hf]; [rewrite filter_cons_True by done|rewrite filter_cons_False by done]; cbn; rewrite IH; [done|]. by destruct f; [|destruct Hf]. Qed.

Lemma prefix_take (l : list bytes) k n : n <= length (concat (take k l)) -> take n (concat (take k l)) = take n (concat l) /\ n <= length (concat l).
Proof.
  intros Hn. assert (concat l = concat (take k l) ++ concat (drop k l)) as -> by (by rewrite <-concat_app, take_drop).
  rewrite take_app_le by done. split; [done|]. rewrite length_app. lia.
Qed.

(** One call writes a prefix of the queue. *)
Lemma write_some_spec w o w' r : ok o -> queued o <> [] -> write_some w o = (w', r) ->
  match r with
  | inr n => n <= length (drop (head_off o) (concat (queued o))) /\ received w' = received w ++ take n (drop (head_off o) (concat (queued o)))
  | inl _ => received w' = received w
  end.
Proof.
  intros [_ _ Hoff] Hq. unfold write_some. destruct (queued o) as [|f q]; [done|]. cbn [concat]. rewrite drop_app_le by lia.
  destruct (bool_decide _ || _); intros Hw.
  - apply write_prefix in Hw. destruct r as [|n]; [done|]. destruct Hw as [Hn ->]. rewrite take_app_le by done. split; [rewrite length_app; lia|done].
  - apply write_vectored_prefix in Hw. destruct r as [|n]; [done|]. destruct Hw as [Hn ->].
    destruct (prefix_take (drop (head_off o) f :: filter (fun f => f <> []) q) MAX_IOVECS n Hn) as [-> Hn']. cbn [concat] in *. rewrite concat_filter in *. done.
Qed.

Lemma flush_loop_spec fuel w o total : ok o -> staging o = [] -> length (content o) < fuel -> exists w' o' r,
  flush_loop fuel w o total = Some (w', o', r) /\ ok o' /\ staging o' = [] /\ received w' ++ content o' = received w ++ content o /\
  match r with inr n => content o' = [] /\ queued o' = [] /\ n = total + length (content o) | inl _ => True end.
Proof.
  revert w o total. induction fuel as [|fuel IH]; intros w o total Ho Hs Hf; [lia|]. cbn [flush_loop].
  destruct (decide (queued o = [])) as [Eq|Hq].
  - rewrite Eq. exists w, o, (inr total). assert (content o = []) as Ec by (unfold content; rewrite Eq, Hs; cbn; by destruct (head_off o)). rewrite Ec. cbn. do 4 (split; [done|]). split; [done|]. split; [done|lia].
  - assert (content o = drop (head_off o) (concat (queued o))) as Ec by (unfold content; by rewrite Hs, app_nil_r).
    destruct (queued o) as [|f q] eqn:Eq; [done|]. rewrite <-Eq in *. destruct (write_some w o) as [w1 r] eqn:Ew. pose proof (write_some_spec w o w1 r Ho ltac:(by rewrite Eq) Ew) as Hr.
    destruct r as [e|[|n]]; [by exists w1, o, (inl e); rewrite Hr|destruct Hr as [_ Hr]; rewrite take_0, app_nil_r in Hr; by exists w1, o, (inl WriteZero); rewrite Hr|].
    destruct Hr as [Hn Hr]. destruct (advance_spec (S n) o Ho Hn) as (Ho' & Hc & Hs'). rewrite Hs in Hs'.
    assert (content (advance (S n) o) = drop (S n) (content o)) as Ec' by (unfold content at 1; by rewrite Hs', app_nil_r, Hc, Ec).
    destruct (IH w1 (advance (S n) o) (total + S n) Ho' Hs') as (w' & o' & r & -> & H1 & H2 & H3 & H4). { rewrite Ec', length_drop. rewrite <-Ec in Hn. lia. }
    exists w', o', r. split; [done|]. split; [done|]. split; [done|]. split; [rewrite H3, Hr, Ec', <-Ec, <-app_assoc, take_drop; done|].
    destruct r as [|n']; [done|]. destruct H4 as (H4 & H5 & H6). split; [done|]. split; [done|]. rewrite H6, Ec', length_drop. rewrite <-Ec in Hn. lia.
Qed.

Lemma flush_spec w o : ok o -> exists w' o' r, flush w o = Some (w', o', r) /\ ok o' /\ received w' ++ content o' = received w ++ content o /\ staging o' = [] /\
  match r with inr n => content o' = [] /\ n = length (content o) | inl _ => True end.
Proof.
  intros Ho. unfold flush. destruct (note_pending_spec o Ho) as (Hn & Hc & _). destruct (seal_spec _ Hn) as (Hs & Hcs & Hst & _).
  destruct (flush_loop_spec (S (S (pending (seal (note_pending o))))) w (seal (note_pending o)) 0 Hs Hst) as (w' & o' & r & -> & H1 & H2 & H3 & H4); [rewrite pending_content by done; lia|].
  cbn [mbind option_bind]. eexists _, _, r. split; [done|]. rewrite Hcs, Hc in *. destruct r as [e|n]; [done|]. destruct H4 as (H4 & H5 & H6).
  assert (set_queue (queued o') 0 0 o' = o') as ->; [|done]. destruct H1 as [E1 _ E3]. rewrite H5 in E1, E3. destruct o'. cbn in *. by subst.
Qed.

Lemma flush_loop_extends fuel w o total w' o' r : ok o -> flush_loop fuel w o total = Some (w', o', r) -> received w `prefix_of` received w'.
Proof.
  revert w o total. induction fuel as [|fuel IH]; intros w o total Ho; [done|]. cbn [flush_loop].
  destruct (decide (queued o = [])) as [->|Hq]; [by intros [= <- _ _]|]. destruct (write_some w o) as [w1 q] eqn:Ew.
  pose proof (write_some_spec w o w1 q Ho Hq Ew) as Hr. destruct (queued o) as [|f fs] eqn:Eq; [done|]. rewrite <-Eq in *.
  destruct q as [e|[|n]]; [intros [= <- _ _]; by rewrite Hr|intros [= <- _ _]; rewrite (proj2 Hr); by apply prefix_app_r|].
  destruct Hr as [Hn Hr]. intros E. transitivity (received w1); [rewrite Hr; by apply prefix_app_r|].
  eapply IH; [|exact E]. by destruct (advance_spec (S n) o Ho Hn) as (? & _).
Qed.

(** A flush only adds to what the socket received. *)
Lemma flush_sent w o : ok o -> exists w' o' r, flush w o = Some (w', o', r) /\ ok o' /\ received w' ++ content o' = received w ++ content o /\
  received w `prefix_of` received w' /\ match r with inr n => content o' = [] /\ n = length (content o) | inl _ => True end.
Proof.
  intros Ho. destruct (flush_spec w o Ho) as (w' & o' & r & E & H1 & H2 & _ & H3). exists w', o', r. split_and!; try done.
  unfold flush in E. destruct (flush_loop _ _ _ _) as [[[w1 o1] r1]|] eqn:El; [|done]. injection E as <- _ _.
  eapply flush_loop_extends; [|exact El]. destruct (note_pending_spec o Ho) as (Hn & _). by destruct (seal_spec _ Hn) as (? & _).
Qed.
End facts.

(** ** The order of the output *)

Inductive OutOp := OpStage (b : bytes) | OpSeal | OpPush (b : bytes) | OpDiscard.
Definition run_out (op : OutOp) (o : OutputBuffer) : OutputBuffer :=
  match op with
  | OpStage b => set_staging (staging o ++ b) o
  | OpSeal => seal o
  | OpPush b => push_bytes b o
  | OpDiscard => discard o
  end.
Definition run_outs (ops : list OutOp) (o : OutputBuffer) : OutputBuffer := foldl (fun o op => run_out op o) o ops.
(** The stream a consumer is owed. *)
Definition owed (c : bytes) (op : OutOp) : bytes := match op with OpStage b | OpPush b => c ++ b | OpSeal => c | OpDiscard => [] end.

Lemma run_out_spec op o : ok o -> ok (run_out op o) /\ content (run_out op o) = owed (content o) op.
Proof.
  intros Ho. destruct op as [b| |b|]; cbn [run_out owed].
  - split; [by apply (ok_same o)|]. unfold content. cbn. by rewrite app_assoc.
  - by destruct (seal_spec o Ho) as (? & ? & _).
  - by apply push_bytes_spec.
  - done.
Qed.

(** ** The soft limit *)

(** A check moves no byte. *)
Lemma check_keeps limit now o o' v : check_limit limit now o = (o', v) ->
  queued o' = queued o /\ queued_bytes o' = queued_bytes o /\ head_off o' = head_off o /\ staging o' = staging o.
Proof.
  unfold check_limit. destruct (_ && _); [by intros [= <- _]|]. destruct (_ && _); [|by intros [= <- _]].
  destruct (soft_limit_since_ms o); [destruct (bool_decide _)|]; by intros [= <- _].
Qed.

Definition over (limit : ClassLimit) (p : Z) : bool := bool_decide (0 < soft limit)%Z && bool_decide (soft limit < p)%Z.
Definition over_hard (limit : ClassLimit) (p : Z) : bool := bool_decide (0 < hard limit)%Z && bool_decide (hard limit < p)%Z.

(** When the current streak of samples over the limit began; latest first. *)
Fixpoint streak (limit : ClassLimit) (h : list (Z * Z)) : option Z :=
  match h with
  | [] => None
  | (p, t) :: h => if over limit p then match streak limit h with Some s => Some s | None => Some t end else None
  end.

(** A streak: samples over the limit back to [t0], and not before. *)
Definition streak_from (limit : ClassLimit) (h : list (Z * Z)) (t0 : Z) : Prop :=
  exists run p0 rest, h = run ++ (p0, t0) :: rest /\ Forall (fun s => over limit s.1 = true) (run ++ [(p0, t0)]) /\
    match rest with [] => True | (p, _) :: _ => over limit p = false end.

Lemma streak_spec limit h t0 : streak limit h = Some t0 <-> streak_from limit h t0.
Proof.
  revert t0. induction h as [|[p t] h IH]; intros t0; cbn [streak].
  - split; [done|]. intros ([|? ?] & p0 & rest & E & _); done.
  - destruct (over limit p) eqn:Eo.
    + destruct (streak limit h) as [s|] eqn:Es.
      * split.
        -- intros [= ->]. destruct (proj1 (IH t0) eq_refl) as (run & p0 & rest & -> & Hf & Hr). exists ((p, t) :: run), p0, rest. split; [done|]. split; [by constructor|done].
        -- intros ([|[p1 t1] run] & p0 & rest & E & Hf & Hr).
           ++ injection E as <- <- ->. destruct rest as [|[p2 t2] rest]; [done|]. cbn [streak] in Es. by rewrite Hr in Es.
           ++ injection E as <- <- ->. f_equal. assert (Some s = Some t0) as [= ->]; [|done]. apply IH. exists run, p0, rest. split; [done|]. by apply Forall_cons in Hf as [_ Hf].
      * split.
        -- intros [= ->]. exists [], p, h. split; [done|]. split; [by repeat constructor|]. destruct h as [|[p2 t2] h]; [done|]. cbn [streak] in Es. destruct (over limit p2); [|done]. by destruct (streak limit h).
        -- intros ([|[p1 t1] run] & p0 & rest & E & Hf & Hr); [by injection E as <- <- ->|]. injection E as <- <- ->. exfalso. assert (None = Some t0); [|done]. apply IH. exists run, p0, rest. split; [done|].
           split; [by apply Forall_cons in Hf as [_ Hf]|done].
    + split; [done|]. intros ([|[p1 t1] run] & p0 & rest & E & Hf & _); injection E as <- <- ->; apply Forall_cons in Hf as [Hf _]; cbn in Hf; congruence.
Qed.

Section limit.
Context {W : Type} `{AsyncWriteLaws W} (limit : ClassLimit).

(** A buffer and the samples [check_limit] has taken of it, latest first; one
    over the hard limit ends the connection. *)
Inductive history : OutputBuffer -> list (Z * Z) -> Prop :=
  | history_new : history output_new []
  | history_op op o h : history o h -> history (run_out op o) h
  | history_flush (w w' : W) o o' r h : history o h -> flush w o = Some (w', o', r) -> history o' h
  | history_check now o o' v h : history o h -> check_limit limit now o = (o', v) -> v <> Some Hard -> history o' ((Z.of_nat (pending o), now) :: h).

Lemma since_seal o : soft_limit_since_ms (seal o) = soft_limit_since_ms o.
Proof. unfold seal. by destruct (staging o). Qed.
Lemma since_note o : soft_limit_since_ms (note_pending o) = soft_limit_since_ms o.
Proof. unfold note_pending. by case_decide. Qed.

Lemma since_op op o : soft_limit_since_ms (run_out op o) = soft_limit_since_ms o.
Proof. destruct op as [b| |[|c b]|]; [done|apply since_seal|done| |done]. cbn [run_out push_bytes]. rewrite since_note. cbn. apply since_seal. Qed.

Lemma since_flush (w w' : W) o o' r : flush w o = Some (w', o', r) -> soft_limit_since_ms o' = soft_limit_since_ms o.
Proof.
  unfold flush. assert (forall fuel (w : W) o total w' o' r, flush_loop fuel w o total = Some (w', o', r) -> soft_limit_since_ms o' = soft_limit_since_ms o) as Hl.
  { clear. induction fuel as [|fuel IH]; intros w o total w' o' r; [done|]. cbn [flush_loop]. destruct (queued o) as [|f q]; [by intros [= _ <- _]|].
    destruct (write_some w o) as [w1 [e|[|n]]]; [by intros [= _ <- _]..|]. intros E. apply IH in E as ->. unfold advance. by destruct (advance_loop _ _ _ _) as [[??]?]. }
  destruct (flush_loop _ _ _ _) as [[[w1 o1] r1]|] eqn:E; [|done]. apply Hl in E. cbn [mbind option_bind]. intros [= _ <- _]. rewrite since_seal, since_note in E. by destruct r1.
Qed.

Lemma check_eq now o : check_limit limit now o =
  let p := Z.of_nat (pending o) in
  if over_hard limit p then (o, Some Hard)
  else if over limit p then
    match soft_limit_since_ms o with
    | None => (set_since (Some now) o, None)
    | Some since => if bool_decide (saturating_mul (soft_seconds limit) 1000 <= Z.max 0 (now - since))%Z then (o, Some Soft) else (o, None)
    end
  else (set_since None o, None).
Proof. done. Qed.

Lemma history_since o h : history o h -> soft_limit_since_ms o = streak limit h.
Proof.
  induction 1 as [|op o h _ IH|w w' o o' r h _ IH E|now o o' v h _ IH E Hv]; [done|by rewrite since_op|by rewrite (since_flush _ _ _ _ _ E)|].
  rewrite check_eq in E. cbv zeta in E. destruct (over_hard limit _); [by injection E as <- <-|]. cbn [streak]. destruct (over limit _); [|by injection E as <- <-].
  rewrite <-IH. destruct (soft_limit_since_ms o) as [s|] eqn:Es; [|by injection E as <- <-]. destruct (bool_decide _); by injection E as <- <-.
Qed.
End limit.

(** * The theorems *)

(** Replies and out-of-band frames leave in the order they were produced,
    whichever of the two tiers they went through: after any operations what is
    pending is exactly the stream owed, and [pending] its length. *)
Theorem output_order ops : let o := run_outs ops output_new in
  ok o /\ content o = foldl owed [] ops /\ pending o = length (foldl owed [] ops).
Proof.
  cbv zeta. assert (forall o, ok o -> ok (run_outs ops o) /\ content (run_outs ops o) = foldl owed (content o) ops) as H.
  { induction ops as [|op ops IH]; intros o Ho; [done|]. destruct (run_out_spec op o Ho) as [H1 H2]. cbn [run_outs foldl]. rewrite <-H2. by apply IH. }
  destruct (H output_new ok_new) as [H1 H2]. split; [done|]. split; [done|]. by rewrite pending_content, H2.
Qed.

(** C39: A flush ends, whatever the socket accepts of each write.  When it
    succeeds the socket has received everything pending, in order, and nothing
    is left; when it fails, what was received and what is left are together
    what there was: no byte is lost and none is sent twice. *)
Theorem output_flush {W} `{AsyncWriteLaws W} (w : W) (o : OutputBuffer) : ok o ->
  exists w' o' r, flush w o = Some (w', o', r) /\ ok o' /\ received w' ++ content o' = received w ++ content o /\
    match r with inr n => content o' = [] /\ received w' = received w ++ content o /\ n = length (content o) | inl _ => True end.
Proof.
  intros Ho. destruct (flush_spec w o Ho) as (w' & o' & r & E & H1 & H2 & _ & H3). exists w', o', r. split; [done|]. split; [done|]. split; [done|].
  destruct r as [|n]; [done|]. destruct H3 as [H3 ->]. split; [done|]. rewrite H3, app_nil_r in H2. done.
Qed.

(** C40: The output limits of a connection, as [check_limit] decides them: by
    what it finds at the moments it is called and nothing else.  The hard one
    breaks as soon as a check finds more pending; the soft one exactly when
    every check since a check at least [soft_seconds] ago has found more.
    What was queued, flushed or discarded between two checks does not count,
    so a buffer that was drained and filled again in between breaks the soft
    limit too, although the comments of [OutputLimit] and [check_limit] say
    that it has to be exceeded continuously. *)
Theorem output_limit {W} `{AsyncWriteLaws W} limit o h now o' v : history (W := W) limit o h -> check_limit limit now o = (o', v) ->
  let p := Z.of_nat (pending o) in
  (v = Some Hard <-> over_hard limit p = true) /\
  (v = Some Soft <-> over_hard limit p = false /\ over limit p = true /\
     exists t0, streak_from limit h t0 /\ (saturating_mul (soft_seconds limit) 1000 <= Z.max 0 (now - t0))%Z).
Proof.
  intros Hh. rewrite check_eq. cbv zeta. pose proof (history_since limit o h Hh) as Hs. destruct (over_hard limit _).
  { intros [= <- <-]. split; [done|]. split; [done|]. by intros (? & _). }
  destruct (over limit _); [|intros [= <- <-]; split; [done|]; split; [done|]; by intros (_ & ? & _)].
  rewrite Hs. destruct (streak limit h) as [s|] eqn:Es.
  - apply streak_spec in Es as Hf. destruct (bool_decide _) eqn:Eb; intros [= <- <-]; (split; [done|]); split; try done.
    + apply bool_decide_eq_true in Eb. intros _. split; [done|]. split; [done|]. by exists s.
    + apply bool_decide_eq_false in Eb. intros (_ & _ & t0 & Ht%streak_spec & Hle). rewrite Ht in Es. by injection Es as ->.
  - intros [= <- <-]. split; [done|]. split; [done|]. intros (_ & _ & t0 & Ht%streak_spec & _). congruence.
Qed.

(** ** Witnesses: a socket that accepts a few bytes at a time *)

Record Trickle := { got : bytes; chunk : nat; vectored : bool }.
Definition accept (b : bytes) (w : Trickle) : Trickle * (IoError + nat) :=
  let n := min (chunk w) (length b) in ({| got := got w ++ take n b; chunk := chunk w; vectored := vectored w |}, inr n).
#[export] Instance trickle_write : AsyncWrite Trickle :=
  {| write w b := accept b w; write_vectored w l := accept (concat l) w; is_write_vectored := vectored; received := got |}.
#[export] Instance trickle_laws : AsyncWriteLaws Trickle.
Proof. split; intros w b w' r [= <- <-]; (split; [lia|done]). Qed.

Definition demo_ops : list OutOp := [OpStage (bs "one"); OpPush (bs "two"); OpStage (bs "three")].

Lemma output_flush_witness : exists w' o', flush {| got := []; chunk := 2; vectored := true |} (run_outs demo_ops output_new) = Some (w', o', inr 11) /\ got w' = bs "onetwothree".
Proof.
  destruct (output_flush {| got := []; chunk := 2; vectored := true |} (run_outs demo_ops output_new)) as (w' & o' & r & E & _ & _ & Hr).
  { by repeat constructor. }
  vm_compute in E. injection E as <- <- <-. eexists _, _. split; [vm_compute; reflexivity|]. exact (proj1 (proj2 Hr)).
Defined.

Lemma output_limit_witness : exists o, history (W := Trickle) {| hard := 0; soft := 5; soft_seconds := 10 |} o [(11, 1000)]%Z /\
  (check_limit {| hard := 0; soft := 5; soft_seconds := 10 |} 11000 o).2 = Some Soft.
Proof.
  set (limit := {| hard := 0; soft := 5; soft_seconds := 10 |}). set (o := set_since (Some 1000%Z) (run_outs demo_ops output_new)).
  assert (history (W := Trickle) limit o [(11, 1000)]%Z) as Hh.
  { apply (history_check limit 1000 (run_outs demo_ops output_new) o None []); [|by vm_compute|done]. repeat apply history_op. constructor. }
  exists o. split; [exact Hh|]. destruct (check_limit limit 11000 o) as [o' v] eqn:E.
  apply (output_limit limit o _ 11000 o' v Hh E). split; [by vm_compute|]. split; [by vm_compute|]. exists 1000%Z. split; [|by vm_compute].
  apply streak_spec. by vm_compute.
Defined.
