(* ===== verification/Object.v ===== *)
(** * Values and their metadata ([src/object.rs], [src/types/*.rs])

    The value enum, the string object with its integer encoding, the entry
    with its expiry and the LRU/LFU word.  The aggregate types are still
    empty placeholders in the source ([_placeholder: ()]); they are the unit
    payloads here.  The random draw of the LFU counter is an argument. *)
From S2P Require Import Prelude Strnum Dtoa.
From Stdlib Require Import Floats.SpecFloat.
Open Scope Z_scope.

(** ** [types/string.rs] *)

Definition EMBSTR_LIMIT : Z := 44.
Definition INT_ENCODING_MAX_LEN : Z := 20.

Inductive StrObj :=
| Int (v : Z)
| Str_ (data : bytes) (embstr : bool).

Definition from_bytes (data : bytes) : StrObj :=
  let str := Str_ data (bool_decide (blen data <= EMBSTR_LIMIT)) in
  if decide (blen data <= INT_ENCODING_MAX_LEN) then
    match string2ll data with Some v => Int v | None => str end
  else str.

Definition raw (data : bytes) : StrObj := Str_ data false.
Definition from_i64 (v : Z) : StrObj := Int v.

Definition as_slice (s : StrObj) : option bytes := match s with Int _ => None | Str_ data _ => Some data end.
Definition as_i64 (s : StrObj) : option Z := match s with Int v => Some v | Str_ data _ => string2ll data end.

Section str_obj.
Context `{Itoa}.
Definition to_bytes (s : StrObj) : bytes := match s with Int v => itoa_format v | Str_ data _ => data end.
Definition str_len (s : StrObj) : Z := match s with Int v => blen (itoa_format v) | Str_ data _ => blen data end.
Definition str_is_empty (s : StrObj) : bool := bool_decide (str_len s = 0).
End str_obj.

Definition str_encoding (s : StrObj) : bytes :=
  match s with Int _ => bs "int" | Str_ _ true => bs "embstr" | Str_ _ false => bs "raw" end.

(** ** The placeholder aggregates *)

Inductive ListObj := list_obj.
Inductive HashObj := hash_obj.
Inductive SetObj := set_obj.
Inductive ZSetObj := zset_obj.
Inductive StreamObj := stream_obj.

(** [len()] of each placeholder. *)
Definition list_len (_ : ListObj) : Z := 0.
Definition hash_len (_ : HashObj) : Z := 0.
Definition set_obj_len (_ : SetObj) : Z := 0.
Definition zset_len (_ : ZSetObj) : Z := 0.

(** ** [object.rs] *)

Inductive Robj :=
| Str (o : StrObj) | List (o : ListObj) | Hash (o : HashObj) | Set_ (o : SetObj) | ZSet (o : ZSetObj) | Stream (o : StreamObj).

Definition type_name (o : Robj) : bytes :=
  match o with
  | Str _ => bs "string" | List _ => bs "list" | Hash _ => bs "hash" | Set_ _ => bs "set"
  | ZSet _ => bs "zset" | Stream _ => bs "stream"
  end.

Definition encoding (o : Robj) : bytes :=
  match o with
  | Str s => str_encoding s
  | List _ | Hash _ | Set_ _ | ZSet _ => bs "listpack"
  | Stream _ => bs "stream"
  end.

Definition type_id (o : Robj) : Z :=
  match o with Str _ => 0 | List _ => 1 | Set_ _ => 2 | ZSet _ => 3 | Hash _ => 4 | Stream _ => 6 end.

Definition is_empty_collection (o : Robj) : bool :=
  match o with
  | Str _ | Stream _ => false
  | List o => bool_decide (list_len o = 0)
  | Hash o => bool_decide (hash_len o = 0)
  | Set_ o => bool_decide (set_obj_len o = 0)
  | ZSet o => bool_decide (zset_len o = 0)
  end.

Abbreviation Key := bytes.

(** ** LRU and LFU *)

Definition LRU_BITS : Z := 24.
Definition LRU_CLOCK_MAX : Z := Z.shiftl 1 LRU_BITS - 1.
Definition LFU_INIT_VAL : Z := 5.

Definition clock (now_ms : Z) : Z := Z.land (wrapu 32 (now_ms / 1000)) LRU_CLOCK_MAX.
Definition lfu_clock (now_ms : Z) : Z := Z.land (wrapu 32 (now_ms / 60000)) 65535.

Definition initial (now_ms : Z) (lfu : bool) : Z :=
  if lfu then Z.lor (Z.shiftl (lfu_clock now_ms) 8) LFU_INIT_VAL else clock now_ms.

Definition idle_ms (value now_ms : Z) : Z :=
  let now := clock now_ms in
  let then_ := Z.land value LRU_CLOCK_MAX in
  (if decide (then_ <= now) then now - then_ else LRU_CLOCK_MAX - then_ + now + 1) * 1000.

Definition lfu_counter (value : Z) : Z := Z.land value 255.

(** [f64::from] of a [u32], and the probability of an increment. *)
Definition f64_of_u32 (n : Z) : f64 := f64_of_i64 n.
Definition bump_probability (baseval log_factor : Z) : f64 :=
  SFdiv F64_PREC F64_EMAX (f64_of_u32 1)
    (SFadd F64_PREC F64_EMAX (SFmul F64_PREC F64_EMAX (f64_of_u32 baseval) (f64_of_u32 log_factor)) (f64_of_u32 1)).

(** [unit] is the random draw of [crate::util::rand::unit()]. *)
Definition lfu_bump (unit : f64) (value now_ms log_factor decay_minutes : Z) : Z :=
  let ldt := Z.land (Z.shiftr value 8) 65535 in
  let counter := Z.land value 255 in
  let now := lfu_clock now_ms in
  let elapsed_min := if decide (ldt <= now) then now - ldt else 65535 - ldt + now in
  let counter :=
    if decide (0 < decay_minutes) then Z.max 0 (counter - elapsed_min / decay_minutes) else counter in
  let counter :=
    if decide (counter < 255) then
      let baseval := Z.max 0 (counter - LFU_INIT_VAL) in
      if SFltb unit (bump_probability baseval log_factor) then counter + 1 else counter
    else counter in
  Z.lor (Z.shiftl now 8) counter.

Definition touch (unit : f64) (cell now_ms : Z) (lfu : bool) (log_factor decay_minutes : Z) : Z :=
  if lfu then lfu_bump unit cell now_ms log_factor decay_minutes else clock now_ms.

(** ** Entries *)

Record Entry := { obj : Robj; expire_at_ms : option Z; lru : Z }.

Definition entry_new (obj : Robj) (expire_at_ms : option Z) (now_ms : Z) (lfu : bool) : Entry :=
  {| obj := obj; expire_at_ms := expire_at_ms; lru := initial now_ms lfu |}.

Definition is_expired (e : Entry) (now_ms : Z) : bool :=
  match expire_at_ms e with Some at_ => bool_decide (at_ <= now_ms) | None => false end.

Definition ttl_ms (e : Entry) (now_ms : Z) : option Z :=
  (fun at_ => Z.max 0 (at_ - now_ms)) <$> expire_at_ms e.

(** ** Facts *)

Lemma string2ll_format `{ItoaLaws} (data : bytes) (v : Z) : string2ll data = Some v -> itoa_format v = data.
Proof. intros [Hv ->]%string2ll_sound. apply itoa_decimal. unfold I64_MIN, I64_MAX, U64_MAX in *. lia. Qed.

Lemma to_from_bytes `{ItoaLaws} (data : bytes) : to_bytes (from_bytes data) = data.
Proof.
  unfold from_bytes. case_decide; [|done]. destruct (string2ll data) as [v|] eqn:E; [|done]. by apply string2ll_format.
Qed.

Lemma str_len_bytes `{Itoa} (s : StrObj) : str_len s = blen (to_bytes s).
Proof. by destruct s. Qed.

(** Encoding a string value loses nothing: the bytes and the length read
    back are those stored, whichever representation was chosen, and the
    integer representation is chosen exactly for the canonical spelling of a
    64-bit integer. *)
Theorem str_obj_round_trip `{ItoaLaws} (data : bytes) :
  to_bytes (from_bytes data) = data /\ str_len (from_bytes data) = blen data /\
  (forall v, from_bytes data = Int v <-> I64_MIN <= v <= I64_MAX /\ data = decimal v).
Proof.
  rewrite str_len_bytes, to_from_bytes. split_and!; [done..|]. intros v. unfold from_bytes. case_decide as Hl.
  - destruct (string2ll data) as [w|] eqn:E.
    + apply string2ll_sound in E as E'. split; [intros [= <-]; naive_solver|].
      intros [Hv ->]. rewrite string2ll_complete in E by done. congruence.
    + split; [done|]. intros [Hv ->]. by rewrite string2ll_complete in E.
  - split; [done|]. intros [Hv ->]. pose proof (decimal_length v Hv). unfold blen, INT_ENCODING_MAX_LEN in Hl. lia.
Qed.

Lemma clock_mod (now_ms : Z) : 0 <= now_ms -> clock now_ms = (now_ms / 1000) mod 2 ^ 24.
Proof.
  intros. unfold clock, LRU_CLOCK_MAX, LRU_BITS. change (Z.shiftl 1 24 - 1) with (Z.ones 24).
  rewrite Z.land_ones, wrapu_mod by lia. change (2 ^ 32) with (2 ^ 24 * 2 ^ 8).
  rewrite Z.rem_mul_r, Z.mul_comm, Z.mod_add by lia. by rewrite Z.mod_mod by lia.
Qed.

(** The idle time read from a 24-bit LRU clock is the real one, to the
    second, across a wrap of the clock, as long as the key was used within
    the last 2^24 seconds (194 days). *)
Theorem idle_ms_spec (used now : Z) :
  0 <= used <= now -> now / 1000 - used / 1000 < 2 ^ 24 ->
  idle_ms (clock used) now = (now / 1000 - used / 1000) * 1000.
Proof.
  intros Hu Hd. unfold idle_ms.
  assert (Z.land (clock used) LRU_CLOCK_MAX = clock used) as ->.
  { rewrite clock_mod by lia. change LRU_CLOCK_MAX with (Z.ones 24). rewrite Z.land_ones by lia. by apply Z.mod_mod. }
  rewrite !clock_mod by lia. change LRU_CLOCK_MAX with (2 ^ 24 - 1).
  pose proof (Z.div_le_mono used now 1000 ltac:(lia) ltac:(lia)).
  set (a := used / 1000) in *. set (b := now / 1000) in *. clearbody a b.
  pose proof (Z.div_mod a (2 ^ 24) ltac:(lia)). pose proof (Z.div_mod b (2 ^ 24) ltac:(lia)).
  pose proof (Z.mod_pos_bound a (2 ^ 24) ltac:(lia)). pose proof (Z.mod_pos_bound b (2 ^ 24) ltac:(lia)).
  f_equal. assert (b / 2 ^ 24 = a / 2 ^ 24 \/ b / 2 ^ 24 = a / 2 ^ 24 + 1) as [E|E] by nia; rewrite E in *;
    case_decide; lia.
Qed.

Lemma lfu_clock_range (now_ms : Z) : in_unsigned 16 (lfu_clock now_ms).
Proof. unfold lfu_clock. change 65535 with (Z.ones 16). apply (wrapu_range 16). lia. Qed.

(** An access never breaks the LFU word: the counter stays within 8 bits
    and grows by at most one, whatever the draw and the configuration, and
    the word still fits its 24 bits with the current minute in its high
    part. *)
Theorem lfu_bump_bounds (unit : f64) (value now_ms log_factor decay : Z) :
  0 <= value ->
  let v := lfu_bump unit value now_ms log_factor decay in
  0 <= lfu_counter v <= Z.min 255 (lfu_counter value + 1) /\ in_unsigned 24 v /\
  Z.shiftr v 8 = lfu_clock now_ms.
Proof.
  intros Hv. cbn zeta. unfold lfu_bump. cbn zeta.
  pose proof (wrapu_range 8 value ltac:(lia)) as Hc0. change (wrapu 8 value) with (Z.land value 255) in Hc0.
  pose proof (wrapu_range 16 (Z.shiftr value 8) ltac:(lia)) as Hl.
  change (wrapu 16 (Z.shiftr value 8)) with (Z.land (Z.shiftr value 8) 65535) in Hl.
  pose proof (lfu_clock_range now_ms) as Hn. unfold lfu_counter, in_unsigned in *.
  set (c0 := Z.land value 255) in *. set (ldt := Z.land _ 65535) in *. set (now := lfu_clock now_ms) in *.
  set (el := if decide (ldt <= now) then _ else _).
  assert (0 <= el) as He by (subst el; case_decide; lia).
  set (c1 := if decide (0 < decay) then _ else c0).
  assert (0 <= c1 <= c0) as H1.
  { subst c1. case_decide; [|lia]. pose proof (Z.div_pos el decay He). lia. }
  set (c2 := if decide (c1 < 255) then _ else c1).
  assert (0 <= c2 <= Z.min 255 (c0 + 1)) as H2 by (subst c2; case_decide; [case_match|]; lia).
  assert (in_unsigned 8 c2) as H3 by (unfold in_unsigned; lia).
  rewrite (lor_shiftl_add now c2 8) by (done || lia). unfold in_unsigned in H3.
  change 255 with (Z.ones 8) at 1 2. rewrite !Z.land_ones, Z.shiftr_div_pow2 by lia.
  rewrite Z.add_comm, Z.mod_add, Z.mod_small by lia. rewrite Z.div_add, Z.div_small by lia. lia.
Qed.

Lemma str_obj_round_trip_witness :
  @to_bytes itoa_model (from_bytes (bs "-42")) = bs "-42" /\ from_bytes (bs "-42") = Int (-42) /\
  from_bytes (bs "042") = Str_ (bs "042") true.
Proof.
  split; [exact (proj1 (@str_obj_round_trip itoa_model itoa_model_laws (bs "-42")))|split; reflexivity].
Defined.

Lemma idle_ms_spec_witness : idle_ms (clock 16777215000) 16777217000 = 2000.
Proof. exact (idle_ms_spec 16777215000 16777217000 ltac:(split; vm_compute; discriminate) ltac:(vm_compute; reflexivity)). Defined.

Lemma lfu_bump_bounds_witness :
  let v := lfu_bump (S754_zero false) 255 0 10 1 in
  0 <= lfu_counter v <= 255 /\ in_unsigned 24 v /\ Z.shiftr v 8 = 0.
Proof. exact (lfu_bump_bounds (S754_zero false) 255 0 10 1 ltac:(vm_compute; discriminate)). Defined.
