(* ===== verification/Shard.v ===== *)
(** * The sharded keyspace ([src/shard/mod.rs])

    One [Db] is a slice of a logical database: the dictionary, the index of
    keys with a TTL and the WATCH counters.  A [Shard] is everything behind
    one mutex, a [ShardMap] the array of them.  Hash maps are finite maps; a
    mutex's content is the shard, and what taking locks can do between
    threads is modelled in [Engine].  Counters are unbounded here (a [u64]
    counter does not wrap in the life of a server). *)
From S2P Require Import Prelude Crc Object.
Open Scope Z_scope.

(** ** Third-party: the iteration order of a [hashbrown] map *)

Class HashIter := hash_iter : forall V, gmap Key V -> list (Key * V).
Arguments hash_iter {_ V} _.
(** Iteration visits every entry once. *)
Class HashIterLaws `{HashIter} : Prop := hash_iter_perm : forall V (m : gmap Key V), hash_iter m ≡ₚ map_to_list m.

Definition hash_iter_model : HashIter := fun V m => map_to_list m.
Lemma hash_iter_model_laws : @HashIterLaws hash_iter_model.
Proof. by intros V m. Qed.

Section hash_iter.
Context `{HashIterLaws}.

Lemma hash_iter_elem {V} (m : gmap Key V) k v : (k, v) ∈ hash_iter m <-> m !! k = Some v.
Proof. by rewrite (hash_iter_perm V m), elem_of_map_to_list. Qed.

Lemma hash_iter_nodup {V} (m : gmap Key V) : NoDup (fst <$> hash_iter m).
Proof. rewrite (hash_iter_perm V m). apply NoDup_fst_map_to_list. Qed.

Lemma hash_iter_length {V} (m : gmap Key V) : length (hash_iter m) = size m.
Proof. by rewrite (hash_iter_perm V m), length_map_to_list. Qed.

End hash_iter.

Definition DEFAULT_DATABASES : nat := 16.

Record Propagation := { prop_db : nat; prop_argv : list bytes }.

Record Db := {
  index : nat;
  dict : gmap Key Entry;
  expires : gmap Key Z;
  watch : gmap Key Z;
  watch_seq : Z
}.

Definition db_new (index : nat) : Db :=
  {| index := index; dict := ∅; expires := ∅; watch := ∅; watch_seq := 0 |}.

Definition with_dict (d : gmap Key Entry) (x : gmap Key Z) (db : Db) : Db :=
  {| index := index db; dict := d; expires := x; watch := watch db; watch_seq := watch_seq db |}.

Definition with_watch (w : gmap Key Z) (seq : Z) (db : Db) : Db :=
  {| index := index db; dict := dict db; expires := expires db; watch := w; watch_seq := seq |}.

Definition db_len (db : Db) : nat := size (dict db).
Definition db_is_empty (db : Db) : bool := bool_decide (dict db = ∅).
Definition expires_len (db : Db) : nat := size (expires db).

(** [expires.insert(key, at)] or [expires.remove(key)]. *)
Definition index_expiry (key : Key) (at_ms : option Z) (x : gmap Key Z) : gmap Key Z :=
  match at_ms with Some at_ => <[key := at_]> x | None => delete key x end.

Definition set_entry (key : Key) (entry : Entry) (db : Db) : Db :=
  with_dict (<[key := entry]> (dict db)) (index_expiry key (expire_at_ms entry) (expires db)) db.

Definition remove_entry (key : Key) (db : Db) : Db * option Entry :=
  (with_dict (delete key (dict db)) (delete key (expires db)) db, dict db !! key).

Definition set_expire (key : Key) (at_ms : option Z) (db : Db) : Db * bool :=
  match dict db !! key with
  | None => (db, false)
  | Some entry =>
      let entry := {| obj := obj entry; expire_at_ms := at_ms; lru := lru entry |} in
      (with_dict (<[key := entry]> (dict db)) (index_expiry key at_ms (expires db)) db, true)
  end.

Definition db_is_expired (key : Key) (now_ms : Z) (db : Db) : bool :=
  match dict db !! key with Some e => is_expired e now_ms | None => false end.

Definition signal_watch (key : Key) (db : Db) : Db :=
  if decide (watch db = ∅) then db
  else
    let seq := watch_seq db + 1 in
    match watch db !! key with
    | Some _ => with_watch (<[key := seq]> (watch db)) seq db
    | None => with_watch (watch db) seq db
    end.

Definition watch_key (key : Key) (db : Db) : Db * Z :=
  match watch db !! key with
  | Some v => (db, v)
  | None => (with_watch (<[key := 0]> (watch db)) (watch_seq db) db, 0)
  end.

Definition watch_version (key : Key) (db : Db) : option Z := watch db !! key.

Definition unwatch_key (key : Key) (db : Db) : Db :=
  with_watch (delete key (watch db)) (watch_seq db) db.

Definition clear (db : Db) : Db :=
  let db :=
    if decide (watch db = ∅) then db
    else let seq := watch_seq db + 1 in with_watch ((fun _ => seq) <$> watch db) seq db in
  with_dict ∅ ∅ db.

(** ** Shards *)

Record Shard := {
  shard_index_ : nat;
  dbs : list Db;
  dirty : Z;
  repl_buf : list Propagation;
  seq_ : Z
}.

Definition shard_new (index : nat) (databases : nat) : Shard :=
  {| shard_index_ := index; dbs := db_new <$> seq 0 databases; dirty := 0; repl_buf := []; seq_ := 0 |}.

(** [shard.db(n)]; [upd_db] is what is done through the returned reference. *)
Definition db (n : nat) (s : Shard) : option Db := dbs s !! n.
Definition upd_db (n : nat) (f : Db -> Db) (s : Shard) : Shard :=
  {| shard_index_ := shard_index_ s; dbs := alter f n (dbs s); dirty := dirty s; repl_buf := repl_buf s; seq_ := seq_ s |}.
Definition bump_dirty (s : Shard) : Shard :=
  {| shard_index_ := shard_index_ s; dbs := dbs s; dirty := dirty s + 1; repl_buf := repl_buf s; seq_ := seq_ s |}.

Definition propagate (db : nat) (argv : list bytes) (s : Shard) : Shard :=
  {| shard_index_ := shard_index_ s; dbs := dbs s; dirty := dirty s;
     repl_buf := repl_buf s ++ [{| prop_db := db; prop_argv := argv |}]; seq_ := seq_ s + 1 |}.

Definition drain_propagation (s : Shard) : Shard * list Propagation :=
  ({| shard_index_ := shard_index_ s; dbs := dbs s; dirty := dirty s; repl_buf := []; seq_ := seq_ s |}, repl_buf s).

Definition key_count (s : Shard) : nat := sum_list_with db_len (dbs s).

(** The lock with its lock-free mirrors. *)
Record ShardHandle := { lock : Shard; h_dirty : Z; h_keys : Z; h_expires : Z; h_mem : Z }.

Definition sync_stats (s : Shard) (h : ShardHandle) : ShardHandle :=
  {| lock := lock h; h_dirty := dirty s;
     h_keys := Z.of_nat (sum_list_with db_len (dbs s)); h_expires := Z.of_nat (sum_list_with expires_len (dbs s));
     h_mem := h_mem h |}.

Record ShardMap := { shards : list ShardHandle; mask : Z; databases : nat }.

Definition next_power_of_two (n : nat) : nat := 2 ^ Nat.log2_up n.

Definition shard_map_new (count databases : nat) : ShardMap :=
  let n := next_power_of_two (Nat.max count 1) in
  let ds := Nat.max databases 1 in
  {| shards := (fun i => {| lock := shard_new i ds; h_dirty := 0; h_keys := 0; h_expires := 0; h_mem := 0 |}) <$> seq 0 n;
     mask := Z.of_nat n - 1; databases := ds |}.

Definition map_len (m : ShardMap) : nat := length (shards m).
Definition map_get (m : ShardMap) (i : nat) : option ShardHandle := shards m !! i.

Definition db_size (n : nat) (m : ShardMap) : nat :=
  sum_list_with (fun h => match db n (lock h) with Some d => db_len d | None => 0%nat end) (shards m).

Section shard_map.
Context `{Memchr}.

Definition shard_index (m : ShardMap) (key : bytes) : nat := Z.to_nat (Z.land (key_hash_slot key) (mask m)).

Definition shard_for (m : ShardMap) (key : bytes) : option ShardHandle := map_get m (shard_index m key).
End shard_map.

(** ** Shard sets: [u16] indices *)

Abbreviation ShardSet := (list Z).

Definition set_insert (i : nat) (s : ShardSet) : ShardSet := s ++ [wrapu 16 (Z.of_nat i)].
Definition single (i : nat) : ShardSet := [wrapu 16 (Z.of_nat i)].
Definition set_all (m : ShardMap) : ShardSet :=
  Z.of_nat <$> seq 0 (Z.to_nat (wrapu 16 (Z.of_nat (map_len m)))).

(** [Vec::dedup]: runs of equal neighbours collapse. *)
Fixpoint dedup (l : list Z) : list Z :=
  match l with
  | x :: l' => match l' with y :: _ => if decide (x = y) then dedup l' else x :: dedup l' | [] => [x] end
  | [] => []
  end.

Definition finish (s : ShardSet) : ShardSet := dedup (merge_sort Z.le s).

(** [iter()]: the indices as [usize]. *)
Definition set_iter (s : ShardSet) : list nat := Z.to_nat <$> s.

Definition is_sorted_and_unique (s : ShardSet) : bool :=
  forallb (fun '(a, b) => bool_decide (a < b)) (zip s (tail s)).

(** ** Guards *)

(** The shards a command has locked, in the order they were locked. *)
Record ShardGuards := { guards : list (nat * Shard); g_mask : Z }.

(** What [lock_set] locks, once every lock has been granted. *)
Definition lock_set (m : ShardMap) (s : ShardSet) : ShardGuards :=
  {| guards := omap (fun i => (fun h => (i, lock h)) <$> map_get m i) (set_iter s); g_mask := mask m |}.

Definition lock_all (m : ShardMap) : ShardGuards :=
  {| guards := imap (fun i h => (i, lock h)) (shards m); g_mask := mask m |}.

Definition primary_index (g : ShardGuards) : option nat := fst <$> head (guards g).
Definition primary (g : ShardGuards) : option Shard := snd <$> head (guards g).

Definition guard_shard (i : nat) (g : ShardGuards) : option Shard :=
  '(_, (_, s)) ← list_find (fun p => p.1 = i) (guards g); Some s.

(** What is done through the [&mut Shard] of index [i]. *)
Definition upd_guard (i : nat) (f : Shard -> Shard) (g : ShardGuards) : ShardGuards :=
  {| guards := (fun p => if decide (p.1 = i) then (p.1, f p.2) else p) <$> guards g; g_mask := g_mask g |}.

Section guards.
Context `{Memchr}.
Definition key_index (g : ShardGuards) (key : bytes) : nat := Z.to_nat (Z.land (key_hash_slot key) (g_mask g)).
Definition for_key (key : bytes) (g : ShardGuards) : option Shard := guard_shard (key_index g key) g.
Definition upd_for_key (key : bytes) (f : Shard -> Shard) (g : ShardGuards) : ShardGuards := upd_guard (key_index g key) f g.
End guards.

(** Publish the statistics and put the shards back under their mutexes. *)
Definition release (g : ShardGuards) (m : ShardMap) : ShardMap :=
  {| shards := foldl (fun hs '(i, s) =>
       alter (fun h => sync_stats s {| lock := s; h_dirty := h_dirty h; h_keys := h_keys h;
                                       h_expires := h_expires h; h_mem := h_mem h |}) i hs) (shards m) (guards g);
     mask := mask m; databases := databases m |}.

(** ** The database invariant *)

(** The expiry index mirrors the entries, and every WATCH counter has been
    handed out. *)
Record db_ok (d : Db) : Prop := {
  ok_expires : forall k, expires d !! k = dict d !! k ≫= expire_at_ms;
  ok_watch : forall k v, watch d !! k = Some v -> 0 <= v <= watch_seq d;
  ok_seq : 0 <= watch_seq d
}.

(** Everything that is ever done to a [Db]. *)
Inductive DbOp :=
| OpSet (k : Key) (e : Entry) | OpRemove (k : Key) | OpExpire (k : Key) (at_ms : option Z)
| OpSignal (k : Key) | OpWatch (k : Key) | OpUnwatch (k : Key) | OpClear.

Definition run_op (op : DbOp) (d : Db) : Db :=
  match op with
  | OpSet k e => set_entry k e d
  | OpRemove k => (remove_entry k d).1
  | OpExpire k a => (set_expire k a d).1
  | OpSignal k => signal_watch k d
  | OpWatch k => (watch_key k d).1
  | OpUnwatch k => unwatch_key k d
  | OpClear => clear d
  end.

Definition run_ops (ops : list DbOp) (d : Db) : Db := foldl (fun d op => run_op op d) d ops.

Lemma index_expiry_lookup (k k' : Key) (a : option Z) (x : gmap Key Z) :
  index_expiry k a x !! k' = if decide (k = k') then a else x !! k'.
Proof. unfold index_expiry. destruct a; simplify_map_eq; case_decide; by simplify_map_eq. Qed.

Lemma mirror_insert (d : Db) (k : Key) (e : Entry) (a : option Z) :
  (forall k', expires d !! k' = dict d !! k' ≫= expire_at_ms) -> expire_at_ms e = a ->
  forall k', index_expiry k a (expires d) !! k' = <[k := e]> (dict d) !! k' ≫= expire_at_ms.
Proof. intros H <- k'. rewrite index_expiry_lookup, lookup_insert. by case_decide. Qed.

Lemma signal_watch_ok (k : Key) (d : Db) : db_ok d -> db_ok (signal_watch k d).
Proof.
  intros [H1 H2 H3]. unfold signal_watch. case_decide; [by constructor|].
  destruct (watch d !! k) as [v|]; constructor; simpl; try done; try lia; intros k' v'.
  - rewrite lookup_insert. case_decide; [intros [= <-]; lia|]. intros Hv%H2. lia.
  - intros Hv%H2. lia.
Qed.

Lemma run_op_ok (op : DbOp) (d : Db) : db_ok d -> db_ok (run_op op d).
Proof.
  intros Hok. pose proof Hok as [H1 H2 H3].
  destruct op as [k e|k|k a|k|k|k|]; simpl.
  - constructor; simpl; [by apply mirror_insert|done..].
  - constructor; simpl; [|done..]. intros k'. rewrite !lookup_delete, H1. by case_decide.
  - unfold set_expire. destruct (dict d !! k); [|done]. constructor; simpl; [by apply mirror_insert|done..].
  - by apply signal_watch_ok.
  - unfold watch_key. destruct (watch d !! k); [done|]. constructor; simpl; [done| |done].
    intros k' v'. rewrite lookup_insert. case_decide; [intros [= <-]; lia|apply H2].
  - constructor; simpl; [done| |done]. intros k' v'. rewrite lookup_delete. case_decide; [done|apply H2].
  - unfold clear. case_decide; constructor; simpl; try done; try lia.
    intros k v. rewrite lookup_fmap. destruct (watch d !! k); [intros [= <-]; lia|done].
Qed.

Lemma run_ops_ok (ops : list DbOp) (d : Db) : db_ok d -> db_ok (run_ops ops d).
Proof. revert d. induction ops as [|op ops IH]; intros d Hd; [done|]. by apply IH, run_op_ok. Qed.

Lemma db_new_ok (i : nat) : db_ok (db_new i).
Proof. constructor; simpl; [|done|done]. intros k. by rewrite !lookup_empty. Qed.

(** C21: The expiry index never drifts from the dictionary: after any sequence
    of operations, a key is in it exactly when it exists and has a TTL, with
    that TTL; so sampling the index (the active expire cycle) sees all and
    only the volatile keys. *)
Theorem expires_mirror_dict (i : nat) (ops : list DbOp) (k : Key) :
  let d := run_ops ops (db_new i) in expires d !! k = dict d !! k ≫= expire_at_ms.
Proof. apply ok_expires, run_ops_ok, db_new_ok. Qed.

(** ** WATCH *)

Definition touches (k : Key) (op : DbOp) : bool :=
  match op with OpSignal k' => bool_decide (k' = k) | OpClear => true | _ => false end.

Definition unwatches (k : Key) (op : DbOp) : bool :=
  match op with OpUnwatch k' => bool_decide (k' = k) | _ => false end.

Lemma run_op_watch (k : Key) (v : Z) (op : DbOp) (d : Db) :
  db_ok d -> watch d !! k = Some v -> unwatches k op = false ->
  exists v', watch (run_op op d) !! k = Some v' /\
    (if touches k op then v < v' else v' = v).
Proof.
  intros [H1 H2 H3] Hv Hu. pose proof (H2 k v Hv) as Hb.
  assert (watch d <> ∅) as Hne by (intros E; rewrite E in Hv; by rewrite lookup_empty in Hv).
  destruct op as [k' e|k'|k' a|k'|k'|k'|]; simpl in *.
  - by exists v.
  - by exists v.
  - unfold set_expire. destruct (dict d !! k'); by exists v.
  - unfold signal_watch. rewrite decide_False by done. case_bool_decide as E; [subst k'|].
    + rewrite Hv. simpl. exists (watch_seq d + 1). rewrite lookup_insert_eq. split; [done|lia].
    + exists v. split; [|done]. destruct (watch d !! k'); simpl; [by rewrite lookup_insert_ne|done].
  - exists v. split; [|done]. unfold watch_key. destruct (watch d !! k') eqn:E; [done|]. simpl.
    rewrite lookup_insert_ne; [done|]. intros ->. congruence.
  - case_bool_decide; [done|]. exists v. split; [|done]. simpl. by rewrite lookup_delete_ne.
  - unfold clear. rewrite decide_False by done. simpl. exists (watch_seq d + 1).
    rewrite lookup_fmap, Hv. split; [done|lia].
Qed.

Lemma run_ops_watch (k : Key) (v : Z) (ops : list DbOp) (d : Db) :
  db_ok d -> watch d !! k = Some v -> existsb (unwatches k) ops = false ->
  exists v', watch (run_ops ops d) !! k = Some v' /\ (if existsb (touches k) ops then v < v' else v' = v).
Proof.
  revert v d. induction ops as [|op ops IH]; intros v d Hok Hv Hu; simpl; [by exists v|].
  simpl in Hu. apply orb_false_iff in Hu as [Hu1 Hu2].
  destruct (run_op_watch k v op d Hok Hv Hu1) as (v1 & Hv1 & Ht1).
  destruct (IH v1 (run_op op d) (run_op_ok op d Hok) Hv1 Hu2) as (v2 & Hv2 & Ht2).
  exists v2. split; [done|]. destruct (touches k op), (existsb (touches k) ops); simpl in *; lia.
Qed.

(** WATCH detects every modification while the registration lasts: from
    the moment a client reads the counter with [watch_key], and as long as
    nobody drops the registration, the counter differs from what it read if
    and only if the key was touched or the database flushed. *)
Theorem watch_detects (i : nat) (before after : list DbOp) (k : Key) :
  existsb (unwatches k) after = false ->
  let d := run_ops before (db_new i) in
  let '(d1, v) := watch_key k d in
  (watch_version k (run_ops after d1) <> Some v) <-> existsb (touches k) after = true.
Proof.
  intros Hu. cbn zeta. set (d := run_ops before (db_new i)).
  assert (db_ok d) as Hok by (apply run_ops_ok, db_new_ok).
  destruct (watch_key k d) as [d1 v] eqn:Ew.
  assert (db_ok d1) as Hok1 by (pose proof (run_op_ok (OpWatch k) d Hok) as H'; simpl in H'; by rewrite Ew in H').
  assert (watch d1 !! k = Some v) as Hv.
  { unfold watch_key in Ew. destruct (watch d !! k) eqn:E; injection Ew as <- <-; [done|]. simpl. apply lookup_insert_eq. }
  destruct (run_ops_watch k v after d1 Hok1 Hv Hu) as (v' & Hv' & Ht). unfold watch_version. rewrite Hv'.
  destruct (existsb (touches k) after); split; intros; try done; naive_solver lia.
Qed.

(** The registration is not counted, so it does not last: after one
    client's [unwatch_key], a modification followed by another client's
    [watch_key] leaves the counter where a first watcher had read it, and the
    modification goes unnoticed. *)
Theorem watch_aba (i : nat) (k : Key) :
  let '(d1, v) := watch_key k (db_new i) in
  let ops := [OpUnwatch k; OpSignal k; OpWatch k] in
  existsb (touches k) ops = true /\ watch_version k (run_ops ops d1) = Some v.
Proof.
  unfold watch_key, db_new. simpl. rewrite lookup_empty. simpl.
  rewrite bool_decide_true by done. split; [done|].
  unfold unwatch_key, signal_watch, watch_key, watch_version, with_watch. simpl.
  rewrite delete_insert_eq, delete_empty. simpl. rewrite decide_True by done. simpl.
  rewrite lookup_empty. simpl. apply lookup_insert_eq.
Qed.

(** ** Shard sets *)

Lemma dedup_spec (l : list Z) :
  StronglySorted Z.le l ->
  StronglySorted Z.lt (dedup l) /\ (forall x, x ∈ dedup l <-> x ∈ l) /\ head (dedup l) = head l.
Proof.
  induction l as [|x l IH]; intros Hs; [split_and!; [constructor|done|done]|].
  apply StronglySorted_cons in Hs as [Hx Hs]. destruct (IH Hs) as (H1 & H2 & H3). simpl.
  destruct l as [|y l']; [split_and!; [repeat constructor|done|done]|].
  destruct (decide (x = y)) as [->|Hne].
  - split_and!; [done| |done]. intros z. rewrite H2. set_solver.
  - split_and!; [| |done].
    + apply StronglySorted_cons. split; [|done]. rewrite Forall_forall in *. intros z Hz%H2.
      pose proof (Hx z Hz). assert (x <> z); [|lia]. intros ->.
      apply elem_of_cons in Hz as [->|Hz]; [done|]. apply StronglySorted_cons in Hs as [Hy _].
      rewrite Forall_forall in Hy. pose proof (Hy z Hz). pose proof (Hx y ltac:(left)). lia.
    + intros z. rewrite !elem_of_cons, H2, elem_of_cons. done.
Qed.

Lemma finish_sorted (s : ShardSet) :
  StronglySorted Z.lt (finish s) /\ (forall x, x ∈ finish s <-> x ∈ s).
Proof.
  unfold finish. destruct (dedup_spec (merge_sort Z.le s)) as (H1 & H2 & _).
  { apply (StronglySorted_merge_sort Z.le). }
  split; [done|]. intros x. by rewrite H2, (merge_sort_Permutation Z.le s).
Qed.

Lemma sorted_unique_check (s : ShardSet) : StronglySorted Z.lt s -> is_sorted_and_unique s = true.
Proof.
  unfold is_sorted_and_unique. induction s as [|x s IH]; intros Hs; [done|].
  apply StronglySorted_cons in Hs as [Hx Hs]. destruct s as [|y s]; [done|]. simpl in *.
  rewrite bool_decide_true by (by apply Forall_inv in Hx). by apply IH.
Qed.

(** [finish] establishes the lock-ordering precondition for any collected
    indices: the result is strictly ascending (so [lock_set]'s assertion
    passes), contains exactly the collected indices, and [finish] changes
    nothing the second time. *)
Theorem finish_spec (s : ShardSet) :
  is_sorted_and_unique (finish s) = true /\ StronglySorted Z.lt (finish s) /\
  (forall x, x ∈ finish s <-> x ∈ s) /\ finish (finish s) = finish s.
Proof.
  destruct (finish_sorted s) as [H1 H2]. split_and!; [by apply sorted_unique_check|done..|].
  assert (forall l, StronglySorted Z.lt l -> finish l = l) as Hid; [|by apply Hid].
  clear. intros l Hl. unfold finish.
  assert (merge_sort Z.le l = l) as ->.
  { apply (StronglySorted_unique Z.le); [apply (StronglySorted_merge_sort Z.le)| |apply merge_sort_Permutation].
    clear -Hl. induction Hl as [|x l _ IH Hx]; constructor; [done|]. eapply Forall_impl; [exact Hx|]. simpl. lia. }
  induction Hl as [|x l Hl IH Hx]; [done|]. simpl. destruct l as [|y l]; [done|].
  rewrite decide_False by (apply Forall_inv in Hx; lia). by rewrite IH.
Qed.

(** ** Placement *)

Lemma next_power_of_two_spec (n : nat) : (1 <= n)%nat -> exists k, next_power_of_two n = (2 ^ k)%nat /\ (n <= 2 ^ k)%nat.
Proof.
  intros Hn. exists (Nat.log2_up n). split; [done|].
  destruct (decide (n = 1%nat)) as [->|]; [simpl; lia|]. apply Nat.log2_up_spec. lia.
Qed.

Lemma land_mask (z : Z) (k : nat) : Z.land z (Z.of_nat (2 ^ k) - 1) = z mod Z.of_nat (2 ^ k).
Proof.
  rewrite Nat2Z.inj_pow. change (Z.of_nat 2) with 2.
  replace (2 ^ Z.of_nat k - 1) with (Z.ones (Z.of_nat k)) by (rewrite Z.ones_equiv; lia).
  apply Z.land_ones. lia.
Qed.

Lemma shard_index_bound `{Memchr} (count databases : nat) (key : bytes) :
  let m := shard_map_new count databases in
  (shard_index m key < map_len m)%nat /\ Z.of_nat (shard_index m key) = key_hash_slot key mod Z.of_nat (map_len m) /\
  (exists k, map_len m = (2 ^ k)%nat /\ (count <= 2 ^ k)%nat).
Proof.
  cbn zeta. unfold shard_index, map_len, shard_map_new. cbn [shards mask]. rewrite length_fmap, length_seq.
  destruct (next_power_of_two_spec (Nat.max count 1) ltac:(lia)) as (k & -> & Hk).
  rewrite land_mask. pose proof (Nat.pow_nonzero 2 k ltac:(lia)).
  pose proof (Z.mod_pos_bound (key_hash_slot key) (Z.of_nat (2 ^ k)) ltac:(lia)) as Hb.
  split_and!; [lia|lia|]. exists k. split; [done|lia].
Qed.

(** Every key has exactly one shard and it exists: in a map built for any
    requested count, the index is the key's slot modulo the number of
    shards, which is a power of two no smaller than the request; and it does
    not depend on the database. *)
Theorem shard_index_spec `{Memchr} (count databases : nat) (key : bytes) :
  let m := shard_map_new count databases in
  (shard_index m key < map_len m)%nat /\ is_Some (shard_for m key) /\
  Z.of_nat (shard_index m key) = key_hash_slot key mod Z.of_nat (map_len m) /\
  (exists k, map_len m = (2 ^ k)%nat) /\ (count <= map_len m)%nat.
Proof.
  intros m. destruct (shard_index_bound count databases key) as (H1 & H2 & k & H3 & H4). fold m in H1, H2, H3.
  split_and!; [done|by apply lookup_lt_is_Some_2|done|by exists k|by rewrite H3].
Qed.

Lemma watch_detects_witness :
  existsb (unwatches [x61]) [OpSignal [x61]] = false /\
  (watch_version [x61] (run_ops [OpSignal [x61]] (watch_key [x61] (db_new 0)).1) <> Some 0).
Proof.
  split; [reflexivity|].
  exact (proj2 (watch_detects 0 [] [OpSignal [x61]] [x61] eq_refl) eq_refl).
Defined.
