(* ===== verification/Commands.v ===== *)
(** * Command specifications and the command table ([src/command/mod.rs])

    Flags, arity, key positions, registration and the case-insensitive
    lookup.  The type of handlers is a parameter of the table. *)
From S2P Require Import Prelude Strnum Errors.
Open Scope Z_scope.

(** ** Flags *)

Abbreviation CmdFlags := Z.
Definition WRITE : CmdFlags := Z.shiftl 1 0.
Definition READONLY : CmdFlags := Z.shiftl 1 1.
Definition DENYOOM : CmdFlags := Z.shiftl 1 2.
Definition ADMIN : CmdFlags := Z.shiftl 1 3.
Definition PUBSUB : CmdFlags := Z.shiftl 1 4.
Definition NOSCRIPT : CmdFlags := Z.shiftl 1 5.
Definition BLOCKING : CmdFlags := Z.shiftl 1 6.
Definition FAST : CmdFlags := Z.shiftl 1 7.
Definition LOADING : CmdFlags := Z.shiftl 1 8.
Definition STALE : CmdFlags := Z.shiftl 1 9.
Definition NO_MULTI : CmdFlags := Z.shiftl 1 10.
Definition MOVABLE_KEYS : CmdFlags := Z.shiftl 1 11.
Definition ALL_SHARDS : CmdFlags := Z.shiftl 1 12.
Definition NO_SHARDS : CmdFlags := Z.shiftl 1 13.

Definition has_flag (flags f : CmdFlags) : bool := bool_decide (Z.land flags f = f).

Abbreviation Args := (list bytes).

Record CommandSpec {Handler : Type} := {
  name : bytes;
  arity : Z;
  flags : CmdFlags;
  first_key : Z;
  last_key : Z;
  key_step : Z;
  handler : Handler;
  get_keys : option (Args -> list nat)
}.
Arguments CommandSpec : clear implicits.

Definition MAX_CMD_NAME : nat := 32.

Section specs.
Context {Handler : Type}.
Abbreviation spec := (CommandSpec Handler).

Definition arity_ok (s : spec) (argc : nat) : bool :=
  if decide (0 <= arity s) then bool_decide (Z.of_nat argc = arity s) else bool_decide (- arity s <= Z.of_nat argc).

Definition is_write (s : spec) : bool := has_flag (flags s) WRITE.
Definition is_readonly (s : spec) : bool := has_flag (flags s) READONLY.

(** The positions [i], [i + step], ... up to [last], inside the arguments. *)
Fixpoint key_positions_loop (fuel : nat) (i last argc step : Z) : list nat :=
  match fuel with
  | O => []
  | S fuel =>
      if decide (i <= last /\ i < argc) then
        (if decide (0 < i) then [Z.to_nat i] else []) ++ key_positions_loop fuel (i + step) last argc step
      else []
  end.

Definition key_positions (s : spec) (args : Args) : list nat :=
  if has_flag (flags s) MOVABLE_KEYS then
    match get_keys s with
    | Some f => filter (fun pos => (pos < length args)%nat) (f args)
    | None => []
    end
  else if decide (first_key s <= 0 \/ key_step s <= 0) then []
  else
    let argc := blen args in
    let last := if decide (last_key s < 0) then argc + last_key s else last_key s in
    key_positions_loop (S (length args)) (first_key s) last argc (key_step s).

(** ** The table *)

Record CommandTable := { specs : list spec; index : gmap bytes nat }.

Definition table_new : CommandTable := {| specs := []; index := ∅ |}.

Definition is_ascii_uppercase (c : byte) : bool := bool_decide (65 <= b2z c <= 90).

(** [None] where the registration panics. *)
Definition add (s : spec) (t : CommandTable) : option CommandTable :=
  if decide (length (name s) <= MAX_CMD_NAME)%nat then
    if forallb (fun b => negb (is_ascii_uppercase b)) (name s) then
      if negb (has_flag (flags s) MOVABLE_KEYS) || bool_decide (is_Some (get_keys s)) then
        if decide (first_key s <= 0 \/ 0 < key_step s) then
          match index t !! name s with
          | Some _ => None
          | None => Some {| specs := specs t ++ [s]; index := <[name s := length (specs t)]> (index t) |}
          end
        else None
      else None
    else None
  else None.

Definition lowercase_into (nm : bytes) : option bytes :=
  if decide (nm = [] \/ (MAX_CMD_NAME < length nm)%nat) then None else Some (to_ascii_lowercase <$> nm).

Definition lookup (nm : bytes) (t : CommandTable) : option spec :=
  lowered ← lowercase_into nm; i ← index t !! lowered; specs t !! i.

Fixpoint add_all (l : list spec) (t : CommandTable) : option CommandTable :=
  match l with [] => Some t | s :: l => t ← add s t; add_all l t end.
End specs.

(** ** Argument helpers *)

Definition arg_name (args : Args) : bytes := match args with b :: _ => b | [] => [] end.
Definition at_ (args : Args) (i : nat) : CmdError + bytes := match args !! i with Some b => inr b | None => inl Syntax end.
Definition i64_at (args : Args) (i : nat) : CmdError + Z :=
  match at_ args i with
  | inl e => inl e
  | inr b => match string2ll b with Some v => inr v | None => inl NotAnInteger end
  end.
Definition kw_at (args : Args) (i : nat) (kw : bytes) : bool :=
  match args !! i with Some a => eq_ignore_ascii_case a kw | None => false end.

(** ** Facts *)

Section facts.
Context {Handler : Type}.
Implicit Types (s : CommandSpec Handler) (t : @CommandTable Handler).

Lemma key_positions_loop_spec (fuel : nat) (i last argc step : Z) (p : nat) :
  0 < i -> 0 < step -> argc - i < Z.of_nat fuel ->
  p ∈ key_positions_loop fuel i last argc step <->
  exists j, 0 <= j /\ Z.of_nat p = i + j * step /\ Z.of_nat p <= last /\ Z.of_nat p < argc.
Proof.
  revert i. induction fuel as [|fuel IH]; intros i Hi Hs Hf; simpl.
  { split; [intros H; inversion H|]. intros (j & ? & ? & ? & ?). nia. }
  case_decide as Hd.
  - rewrite decide_True by done. cbn [app]. rewrite elem_of_cons, IH by lia. split.
    + intros [->|(j & ? & ? & ? & ?)]; [exists 0; lia|exists (j + 1); lia].
    + intros (j & ? & ? & ? & ?). destruct (decide (j = 0)) as [->|]; [left; lia|right; exists (j - 1); lia].
  - split; [intros H; inversion H|]. intros (j & ? & ? & ? & ?). exfalso. apply Hd. nia.
Qed.

(** The key positions derived from a spec are those [COMMAND GETKEYS]
    means: every [key_step]-th argument from [first_key] to [last_key]
    (counted from the end when negative) that the client really sent - never
    the command name, never an argument that is not there. *)
Theorem key_positions_spec s (args : Args) (p : nat) :
  has_flag (flags s) MOVABLE_KEYS = false -> 0 < first_key s -> 0 < key_step s ->
  p ∈ key_positions s args <->
  exists j, 0 <= j /\ Z.of_nat p = first_key s + j * key_step s /\
    Z.of_nat p <= (if decide (last_key s < 0) then blen args + last_key s else last_key s) /\
    (0 < p < length args)%nat.
Proof.
  intros Hm Hf Hs. unfold key_positions. rewrite Hm. rewrite decide_False by lia. cbn zeta.
  rewrite key_positions_loop_spec by (unfold blen; lia). unfold blen.
  split; intros (j & ? & ? & ? & ?); exists j; split_and!; lia || nia.
Qed.

(** Positions are always inside the arguments, movable keys included. *)
Lemma key_positions_bound s (args : Args) (p : nat) : p ∈ key_positions s args -> (p < length args)%nat.
Proof.
  unfold key_positions. destruct (has_flag _ _).
  { destruct (get_keys s); [|intros H; inversion H]. by intros [? _]%list_elem_of_filter. }
  case_decide as Hd; [intros H; inversion H|].
  rewrite key_positions_loop_spec by (unfold blen; lia). unfold blen. intros (j & ?). lia.
Qed.

(** The index finds each registered spec under its name. *)
Definition table_ok t : Prop :=
  forall n i, index t !! n = Some i <-> exists s, specs t !! i = Some s /\ name s = n.

Lemma table_new_ok : table_ok table_new.
Proof. intros n i. simpl. rewrite lookup_empty. split; [done|]. intros (s & H & _). done. Qed.

Lemma add_ok s t t' : table_ok t -> add s t = Some t' -> table_ok t' /\ specs t' = specs t ++ [s].
Proof.
  intros Hok. unfold add. repeat (case_decide || case_match); try done. intros [= <-]. split; [|done].
  intros n i. simpl. rewrite lookup_insert. case_decide as En.
  - subst n. split.
    + intros [= <-]. exists s. split; [|done]. by rewrite lookup_app_r, Nat.sub_diag by lia.
    + intros (s' & Hs' & Hn). apply lookup_app_Some in Hs' as [Hs'|[Hle Hs']].
      * assert (index t !! name s = Some i) by (apply Hok; eauto). congruence.
      * apply lookup_lt_Some in Hs' as Hlt. simpl in Hlt. f_equal. lia.
  - rewrite (Hok n i). split; intros (s' & Hs' & Hn); exists s'; (split; [|done]).
    + by apply lookup_app_Some_l.
    + apply lookup_app_Some in Hs' as [Hs'|[Hle Hs']]; [done|].
      destruct (i - length (specs t))%nat; simpl in Hs'; [congruence|done].
Qed.

Lemma add_all_ok (l : list (CommandSpec Handler)) t t' :
  table_ok t -> add_all l t = Some t' -> table_ok t' /\ specs t' = specs t ++ l.
Proof.
  revert t. induction l as [|s l IH]; intros t Hok; simpl; [intros [= <-]; by rewrite app_nil_r|].
  intros (t1 & H1 & H2)%bind_Some. destruct (add_ok s t t1 Hok H1) as [Hok1 E1].
  destruct (IH t1 Hok1 H2) as [Hok' E']. split; [done|]. by rewrite E', E1, <-app_assoc.
Qed.

Lemma lookup_iff (l : list (CommandSpec Handler)) t (nm : bytes) s :
  add_all l table_new = Some t ->
  lookup nm t = Some s <-> s ∈ l /\ nm <> [] /\ (length nm <= MAX_CMD_NAME)%nat /\ name s = to_ascii_lowercase <$> nm.
Proof.
  intros Ha. destruct (add_all_ok l table_new t table_new_ok Ha) as [Hok E]. simpl in E. unfold lookup, lowercase_into.
  case_decide as Hd; simpl; [split; [done|]; intros (_ & ? & ? & _); destruct Hd; [done|lia]|].
  split.
  - intros (i & Hi & Hs)%bind_Some. apply Hok in Hi as (s' & Hs' & Hn). rewrite Hs in Hs'. injection Hs' as <-.
    split_and!; [rewrite <-E; by eapply list_elem_of_lookup_2|tauto|lia|done].
  - intros (Hin & _ & _ & Hn). rewrite <-E in Hin. apply list_elem_of_lookup in Hin as [i Hi].
    assert (index t !! (to_ascii_lowercase <$> nm) = Some i) as -> by (apply Hok; eauto). done.
Qed.

(** Once the registration list has been accepted, a lookup finds a
    command under any capitalisation of its name and nothing else: it returns
    [s] exactly when [s] is registered and the name, lowercased, is its. *)
Theorem lookup_spec (l : list (CommandSpec Handler)) t (nm : bytes) s :
  add_all l table_new = Some t ->
  lookup nm t = Some s <-> s ∈ l /\ nm <> [] /\ (length nm <= MAX_CMD_NAME)%nat /\ name s = to_ascii_lowercase <$> nm.
Proof. apply lookup_iff. Qed.
End facts.

Definition demo_mset : CommandSpec unit :=
  {| name := bs "mset"; arity := -3; flags := Z.lor WRITE DENYOOM; first_key := 1; last_key := -1; key_step := 2;
     handler := tt; get_keys := None |}.

Lemma key_positions_spec_witness :
  3%nat ∈ key_positions demo_mset [bs "MSET"; bs "a"; bs "1"; bs "b"; bs "2"] /\
  2%nat ∉ key_positions demo_mset [bs "MSET"; bs "a"; bs "1"; bs "b"; bs "2"].
Proof.
  split.
  - apply (key_positions_spec demo_mset [bs "MSET"; bs "a"; bs "1"; bs "b"; bs "2"] 3); [reflexivity..|].
    exists 1. vm_compute. repeat split; first [discriminate|repeat constructor].
  - intros H. apply (key_positions_spec demo_mset [bs "MSET"; bs "a"; bs "1"; bs "b"; bs "2"] 2) in H;
      [|reflexivity..]. destruct H as (j & _ & H & _). cbn in H. lia.
Defined.

Lemma lookup_spec_witness :
  exists t, add_all [demo_mset] table_new = Some t /\ lookup (bs "MSet") t = Some demo_mset.
Proof.
  eexists. split; [reflexivity|].
  apply (lookup_spec [demo_mset] _ (bs "MSet") demo_mset eq_refl).
  split; [left|]. split; [discriminate|]. split; [vm_compute; repeat constructor|reflexivity].
Defined.
