(* ===== verification/Engine.v ===== *)
(** * Key resolution and lock ordering ([src/engine.rs])

    [shard_set_for], and the deadlock argument of the file's header made a
    theorem: threads executing commands are a step relation over the lists of
    shards they hold and still want, in which a lock is granted only while
    nobody holds it. *)
From S2P Require Import Prelude Crc Object Shard Commands.
Open Scope nat_scope.

Section shard_sets.
Context `{Memchr} {Handler : Type}.

Definition shard_set_for (spec : CommandSpec Handler) (args : Args) (m : ShardMap) : ShardSet :=
  if has_flag (flags spec) ALL_SHARDS then finish (set_all m)
  else
    finish (foldl (fun set pos =>
      match args !! pos with Some key => set_insert (shard_index m key) set | None => set end) []
      (key_positions spec args)).

(** The mutexes a command locks, in order. *)
Definition lock_order (spec : CommandSpec Handler) (args : Args) (m : ShardMap) : list nat :=
  fst <$> guards (lock_set m (shard_set_for spec args m)).
End shard_sets.

(** ** Threads *)

(** A thread of the server: the shards it holds, those it has still to lock
    for the command it is running, and the commands it will run after. *)
Record Thread := { held : list nat; todo : list nat; queue : list (list nat) }.

Definition idle (t : Thread) : Prop := held t = [] /\ todo t = [] /\ queue t = [].

Inductive lock_step (st : list Thread) : list Thread -> Prop :=
| step_begin i t c q :
    st !! i = Some t -> held t = [] -> todo t = [] -> queue t = c :: q ->
    lock_step st (<[i := {| held := []; todo := c; queue := q |}]> st)
| step_acquire i t x r :
    st !! i = Some t -> todo t = x :: r -> Forall (fun u => x ∉ held u) st ->
    lock_step st (<[i := {| held := held t ++ [x]; todo := r; queue := queue t |}]> st)
| step_release i t :
    st !! i = Some t -> todo t = [] -> held t <> [] ->
    lock_step st (<[i := {| held := []; todo := []; queue := queue t |}]> st).

(** The states a server can be in, from threads that have everything to do. *)
Inductive reachable (work : list (list (list nat))) : list Thread -> Prop :=
| reach_start : reachable work ((fun q => {| held := []; todo := []; queue := q |}) <$> work)
| reach_step st st' : reachable work st -> lock_step st st' -> reachable work st'.

(** ** Invariants *)

Definition ascending : list nat -> Prop := StronglySorted lt.

Definition thread_ok (t : Thread) : Prop := ascending (held t ++ todo t) /\ Forall ascending (queue t).

(** No shard is held twice. *)
Definition exclusive (st : list Thread) : Prop :=
  forall i j t u x, st !! i = Some t -> st !! j = Some u -> x ∈ held t -> x ∈ held u -> i = j.

Lemma step_threads_ok (st st' : list Thread) : lock_step st st' -> Forall thread_ok st -> Forall thread_ok st'.
Proof.
  intros Hstep Hok. destruct Hstep as [i t c q Hi Hh Ht Hq|i t x r Hi Ht Hx|i t Hi Ht Hh];
    pose proof (proj1 (Forall_lookup _ _) Hok i t Hi) as [H1 H2]; apply Forall_insert; try done.
  - rewrite Hq in H2. apply Forall_cons in H2 as [H2 H3]. by split.
  - rewrite Ht in H1. split; simpl; [by rewrite <-app_assoc|done].
  - split; simpl; [constructor|done].
Qed.

Lemma step_exclusive (st st' : list Thread) : lock_step st st' -> exclusive st -> exclusive st'.
Proof.
  intros Hstep Hex. destruct Hstep as [i t c q Hi Hh Ht Hq|i t x r Hi Ht Hx|i t Hi Ht Hh];
    intros j k u v y Hj Hk Hyu Hyv;
    apply list_lookup_insert_Some in Hj as [(-> & <- & _)|[Hij Hj]];
    apply list_lookup_insert_Some in Hk as [(-> & <- & _)|[Hik Hk]]; simpl in *; try done;
    try (by eapply Hex); try (by inversion Hyu); try (by inversion Hyv).
  - apply elem_of_app in Hyu as [Hyu|Hyu]; [by eapply Hex|]. apply list_elem_of_singleton in Hyu as ->.
    destruct (proj1 (Forall_lookup _ _) Hx k v Hk Hyv).
  - apply elem_of_app in Hyv as [Hyv|Hyv]; [by eapply Hex|]. apply list_elem_of_singleton in Hyv as ->.
    destruct (proj1 (Forall_lookup _ _) Hx j u Hj Hyu).
Qed.

Lemma reachable_ok (work : list (list (list nat))) (st : list Thread) :
  Forall (Forall ascending) work -> reachable work st -> Forall thread_ok st /\ exclusive st.
Proof.
  intros Hw. induction 1 as [|st st' _ [IH1 IH2] Hs].
  - split.
    + apply Forall_fmap. eapply Forall_impl; [exact Hw|]. intros q Hq. split; [constructor|done].
    + intros i j t u x Hi _ Hx. apply list_lookup_fmap_Some in Hi as (q & -> & _). inversion Hx.
  - split; [by eapply step_threads_ok|by eapply step_exclusive].
Qed.

(** ** Progress *)

Lemma elem_max_list (l : list nat) (x : nat) : x ∈ l -> x <= max_list l.
Proof. induction 1; simpl; lia. Qed.

Lemma ascending_app (l k : list nat) (x y : nat) : ascending (l ++ k) -> x ∈ l -> y ∈ k -> x < y.
Proof. intros (H & _ & _)%StronglySorted_app. apply H. Qed.

(** A thread that waits is behind a thread that can move. *)
Lemma waiting_progress (st : list Thread) :
  Forall thread_ok st -> forall i t x r, st !! i = Some t -> todo t = x :: r -> exists st', lock_step st st'.
Proof.
  intros Hok. set (M := max_list (concat (todo <$> st))).
  assert (forall j u y s, st !! j = Some u -> todo u = y :: s -> y <= M) as HM.
  { intros j u y s Hj Hu. apply elem_max_list, list_elem_of_In, in_concat. exists (todo u).
    split; [apply list_elem_of_In, list_elem_of_fmap; exists u; split; [done|by eapply list_elem_of_lookup_2]|].
    rewrite Hu. by left. }
  intros i t x r Hi Ht. remember (M - x) as n eqn:En. revert i t x r Hi Ht En.
  induction (lt_wf n) as [n _ IH]. intros i t x r Hi Ht ->.
  destruct (decide (Forall (fun u => x ∉ held u) st)) as [Hf|Hf]; [eexists; by eapply step_acquire|].
  apply not_Forall_Exists in Hf; [|apply _]. apply Exists_exists in Hf as (u & Hu & Hx). simpl in Hx.
  apply dec_stable in Hx. apply list_elem_of_lookup in Hu as [j Hj].
  destruct (todo u) as [|y s] eqn:Et.
  - eexists. eapply step_release; [exact Hj|done|]. intros E. rewrite E in Hx. inversion Hx.
  - pose proof (proj1 (Forall_lookup _ _) Hok j u Hj) as [Hs _]. rewrite Et in Hs.
    pose proof (ascending_app _ _ x y Hs Hx ltac:(by left)).
    pose proof (HM i t x r Hi Ht). pose proof (HM j u y s Hj Et).
    eapply (IH (M - y)); [lia|exact Hj|exact Et|done].
Qed.

Lemma progress (st : list Thread) (i : nat) (t : Thread) :
  Forall thread_ok st -> st !! i = Some t -> ~ idle t -> exists st', lock_step st st'.
Proof.
  intros Hok Hi Hn. destruct (todo t) as [|x r] eqn:Et; [|by eapply waiting_progress].
  destruct (held t) as [|y h] eqn:Eh.
  - destruct (queue t) as [|c q] eqn:Eq; [by destruct Hn|]. eexists. by eapply step_begin.
  - eexists. eapply step_release; [done..|]. by rewrite Eh.
Qed.

(** What is left to do. *)
Definition thread_work (t : Thread) : nat :=
  length (held t) + 2 * length (todo t) + sum_list_with (fun c => 2 * length c + 1) (queue t).
Definition total_work (st : list Thread) : nat := sum_list_with thread_work st.

Lemma sum_list_insert (f : Thread -> nat) (st : list Thread) (i : nat) (t t' : Thread) :
  st !! i = Some t -> sum_list_with f (<[i := t']> st) + f t = sum_list_with f st + f t'.
Proof.
  revert i. induction st as [|u st IH]; intros [|i] Hi; simplify_eq/=; [lia|]. specialize (IH i Hi). lia.
Qed.

Lemma step_work (st st' : list Thread) : lock_step st st' -> total_work st' < total_work st.
Proof.
  unfold total_work.
  destruct 1 as [i t c q Hi Hh Ht Hq|i t x r Hi Ht Hx|i t Hi Ht Hh];
    match goal with |- context [<[_ := ?t']> _] => pose proof (sum_list_insert thread_work st i t t' Hi) as E end;
    unfold thread_work in E at 2 4; simpl in E; rewrite ?length_app in E.
  - rewrite Hh, Ht, Hq in E. simpl in E. lia.
  - rewrite Ht in E. simpl in E. lia.
  - rewrite Ht in E. assert (0 < length (held t)) by (destruct (held t); [done|simpl; lia]). simpl in E. lia.
Qed.

(** ** The lock order of commands *)

Section lock_orders.
Context `{Memchr} {Handler : Type}.
#[local] Set Default Proof Using "Type*".

Lemma shard_set_for_sorted (spec : CommandSpec Handler) (args : Args) (m : ShardMap) :
  StronglySorted Z.lt (shard_set_for spec args m) /\
  Forall (fun x => in_unsigned 16 x) (shard_set_for spec args m).
Proof.
  assert (forall s, Forall (in_unsigned 16) s ->
    StronglySorted Z.lt (finish s) /\ Forall (fun x => in_unsigned 16 x) (finish s)) as Hf.
  { intros s Hs. destruct (finish_sorted s) as [H1 H2]. split; [done|].
    rewrite Forall_forall in *. intros x Hx%H2. by apply Hs. }
  unfold shard_set_for. case_match; apply Hf.
  - unfold set_all. apply Forall_fmap, Forall_seq. intros j Hj. simpl in *.
    pose proof (wrapu_range 16 (Z.of_nat (map_len m)) ltac:(lia)) as Hr. unfold in_unsigned in *. lia.
  - assert (forall l acc, Forall (in_unsigned 16) acc -> Forall (in_unsigned 16)
      (foldl (fun set pos => match args !! pos with Some key => set_insert (shard_index m key) set | None => set end) acc l)) as Hl.
    { induction l as [|p l IH]; intros acc Ha; simpl; [done|]. apply IH. destruct (args !! p); [|done].
      apply Forall_app. split; [done|]. constructor; [|constructor]. apply wrapu_range. lia. }
    apply Hl. constructor.
Qed.

Lemma omap_guards (m : ShardMap) (l : list nat) :
  fst <$> omap (fun i => (fun h => (i, lock h)) <$> map_get m i) l = filter (fun i => i < map_len m) l.
Proof.
  induction l as [|i l IH]; [done|]. rewrite filter_cons.
  cbn [omap list_omap].
  unfold map_get, map_len in *.
  destruct (shards m !! i) as [h|] eqn:E; cbn [fmap option_fmap option_map].
  - rewrite decide_True by (by eapply lookup_lt_Some). by rewrite fmap_cons, IH.
  - rewrite decide_False by (apply lookup_ge_None in E; lia). done.
Qed.

Lemma lock_order_ascending (spec : CommandSpec Handler) (args : Args) (m : ShardMap) : ascending (lock_order spec args m).
Proof.
  unfold lock_order, lock_set. cbn [guards]. rewrite omap_guards.
  destruct (shard_set_for_sorted spec args m) as [Hs Hf].
  assert (ascending (set_iter (shard_set_for spec args m))) as Ha.
  { unfold set_iter. induction Hs as [|x s Hs IH Hx]; [constructor|]. apply Forall_cons in Hf as [Hx0 Hf].
    rewrite fmap_cons. constructor; [by apply IH|]. apply Forall_fmap. rewrite Forall_forall in *.
    intros y Hy. simpl. pose proof (Hx y Hy). pose proof (Hf y Hy). unfold in_unsigned in *. lia. }
  clear -Ha. induction Ha as [|i l Ha IH Hi]; [constructor|]. rewrite filter_cons. case_decide; [|done].
  constructor; [done|]. rewrite Forall_forall in *. intros j [_ Hj]%list_elem_of_filter. by apply Hi.
Qed.

(** The locks of a server's threads, each running its commands in turn. *)
Definition workload (m : ShardMap) (threads : list (list (CommandSpec Handler * Args))) : list (list (list nat)) :=
  (fun cmds : list (CommandSpec Handler * Args) => (fun '(spec, args) => lock_order spec args m) <$> cmds) <$> threads.

Lemma workload_ascending (m : ShardMap) (threads : list (list (CommandSpec Handler * Args))) :
  Forall (Forall ascending) (workload m threads).
Proof.
  unfold workload. apply Forall_fmap, Forall_true. intros cmds. apply Forall_fmap, Forall_true.
  intros [spec args]. apply lock_order_ascending.
Qed.

(** C3: No set of threads executing commands can deadlock on shard mutexes:
    in every state they can reach, in any interleaving and whatever keys the
    commands name, no shard is held twice, every thread holds and wants its
    shards in ascending order, and unless every thread is done some thread
    can take a step.  (The locks are those [dispatch] takes; the single lock
    SCAN takes and drops inside its handler, holding no other, is not part of
    the workload.) *)
Theorem deadlock_free (m : ShardMap) (threads : list (list (CommandSpec Handler * Args))) (st : list Thread) :
  reachable (workload m threads) st ->
  exclusive st /\ Forall (fun t => ascending (held t ++ todo t)) st /\
  (Forall idle st \/ exists st', lock_step st st').
Proof.
  intros Hr. destruct (reachable_ok _ _ (workload_ascending m threads) Hr) as [Hok Hex]. split_and!; [done| |].
  - eapply Forall_impl; [exact Hok|]. by intros t [? _].
  - destruct (decide (Forall (fun t => held t = [] /\ todo t = [] /\ queue t = []) st)) as [Hd|Hd]; [by left|right].
    apply not_Forall_Exists in Hd; [|apply _]. apply Exists_exists in Hd as (t & Ht & Hn).
    apply list_elem_of_lookup in Ht as [i Hi]. by eapply progress.
Qed.

(** Nor can they livelock: every step leaves strictly less to do, so any
    execution is finite and (by progress) ends with every command served. *)
Theorem lock_steps_terminate (st st' : list Thread) : lock_step st st' -> total_work st' < total_work st.
Proof. apply step_work. Qed.

(** ** A command finds the keys it declares *)

Lemma list_find_fst (l : list (nat * Shard)) (i : nat) (s : Shard) :
  NoDup (fst <$> l) -> (i, s) ∈ l -> exists k, list_find (fun p => p.1 = i) l = Some (k, (i, s)).
Proof.
  induction l as [|[j u] l IH]; intros Hnd Hin; [inversion Hin|].
  rewrite fmap_cons in Hnd. apply NoDup_cons in Hnd as [Hj Hnd]. simpl. simpl in Hj.
  apply elem_of_cons in Hin as [[= <- <-]|Hin]; [rewrite decide_True by done; by exists 0|].
  rewrite decide_False; [|intros ->; apply Hj, list_elem_of_fmap; by exists (i, s)].
  destruct (IH Hnd Hin) as [k ->]. by exists (S k).
Qed.

Lemma ascending_nodup (l : list nat) : ascending l -> NoDup l.
Proof.
  induction 1 as [|x l _ IH Hx]; constructor; [|done]. rewrite Forall_forall in Hx. intros Hin%Hx. lia.
Qed.

Lemma collected (m : ShardMap) (args : Args) (pos : nat) (key : bytes) (l : list nat) (acc : ShardSet) :
  pos ∈ l -> args !! pos = Some key ->
  wrapu 16 (Z.of_nat (shard_index m key)) ∈ foldl (fun set pos =>
    match args !! pos with Some key => set_insert (shard_index m key) set | None => set end) acc l.
Proof.
  intros Hin Hk. assert (forall l acc x, x ∈ acc -> x ∈ foldl (fun set pos =>
    match args !! pos with Some key => set_insert (shard_index m key) set | None => set end) acc l) as Hmono.
  { clear. induction l as [|p l IH]; intros acc x Hx; simpl; [done|]. apply IH.
    destruct (args !! p); [|done]. apply elem_of_app. by left. }
  revert acc. induction l as [|p l IH]; intros acc; [inversion Hin|]. simpl.
  apply elem_of_cons in Hin as [<-|Hin]; [|by apply IH]. rewrite Hk. apply Hmono, elem_of_app. right. by left.
Qed.

Lemma lock_set_guard (m : ShardMap) (s : ShardSet) (i : nat) (h : ShardHandle) :
  ascending (fst <$> guards (lock_set m s)) -> Z.of_nat i ∈ s -> map_get m i = Some h ->
  guard_shard i (lock_set m s) = Some (lock h).
Proof.
  intros Ha Hi Hh. unfold guard_shard.
  destruct (list_find_fst (guards (lock_set m s)) i (lock h)) as [k Hk].
  - by apply ascending_nodup.
  - unfold lock_set. cbn [guards]. apply list_elem_of_omap. exists i. split; [|by rewrite Hh].
    unfold set_iter. apply list_elem_of_fmap. exists (Z.of_nat i). split; [by rewrite Nat2Z.id|done].
  - by rewrite Hk.
Qed.

(** The locks taken cover the keys declared: every key at a position the
    spec declares is owned by a shard the command holds, so a handler's
    [for_key] never misses one, and the shard it reaches is the one the map
    assigns to the key.  (Shard indices are [u16]s.) *)
Theorem declared_keys_locked (spec : CommandSpec Handler) (args : Args) (count databases pos : nat) (key : bytes) :
  let m := shard_map_new count databases in
  (Z.of_nat (map_len m) <= 65536)%Z -> has_flag (flags spec) ALL_SHARDS = false ->
  pos ∈ key_positions spec args -> args !! pos = Some key ->
  for_key key (lock_set m (shard_set_for spec args m)) = lock <$> shard_for m key /\
  is_Some (shard_for m key).
Proof.
  intros m Hm Hall Hpos Hk. unfold for_key, key_index. cbn [g_mask lock_set].
  destruct (shard_index_bound count databases key) as (Hlt & _ & _).
  change (Z.to_nat (Z.land (key_hash_slot key) (mask m))) with (shard_index m key).
  destruct (lookup_lt_is_Some_2 (shards m) (shard_index m key) Hlt) as [h Hh].
  unfold shard_for, map_get. rewrite Hh. split; [|done]. simpl.
  apply lock_set_guard; [apply lock_order_ascending| |done].
  unfold shard_set_for. rewrite Hall. apply finish_sorted.
  rewrite <-(wrapu_small 16 (Z.of_nat (shard_index m key))); [by apply (collected m args pos)|done|].
  unfold in_unsigned. unfold map_len in Hm. fold m in Hlt. unfold map_len in Hlt. lia.
Qed.
End lock_orders.

(** Two commands naming the same two keys in opposite orders. *)
Definition two_keys : CommandSpec unit :=
  {| name := bs "mget"; arity := -2; flags := READONLY; first_key := 1; last_key := -1; key_step := 1;
     handler := tt; get_keys := None |}.

Definition adversaries : list (list (CommandSpec unit * Args)) :=
  [[(two_keys, [bs "MGET"; bs "a"; bs "b"])]; [(two_keys, [bs "MGET"; bs "b"; bs "a"])]].

Lemma deadlock_free_witness :
  let m := shard_map_new 4 1 in
  let st := (fun q => {| held := []; todo := []; queue := q |}) <$> workload (H := memchr_find) m adversaries in
  exclusive st /\ Forall (fun t => ascending (held t ++ todo t)) st /\
  (Forall idle st \/ exists st', lock_step st st').
Proof.
  cbn zeta. exact (deadlock_free (H := memchr_find) (shard_map_new 4 1) adversaries _ (reach_start _)).
Defined.

Lemma lock_steps_terminate_witness :
  lock_step [{| held := []; todo := [3]; queue := [] |}] [{| held := [3]; todo := []; queue := [] |}] /\ 1 < 2.
Proof.
  assert (lock_step [{| held := []; todo := [3]; queue := [] |}] [{| held := [3]; todo := []; queue := [] |}]) as Hs.
  { refine (step_acquire [{| held := []; todo := [3]; queue := [] |}] 0 _ 3 [] eq_refl eq_refl _).
    repeat constructor. intros Hin. inversion Hin. }
  split; [exact Hs|]. exact (lock_steps_terminate _ _ Hs).
Defined.

Lemma declared_keys_locked_witness :
  is_Some (shard_for (H := memchr_find) (shard_map_new 4 1) (bs "b")).
Proof.
  refine (proj2 (declared_keys_locked (H := memchr_find) two_keys [bs "MGET"; bs "a"; bs "b"] 4 1 2 (bs "b") _ _ _ _));
    [vm_compute; discriminate|reflexivity| |reflexivity].
  right. left.
Defined.
