(* ===== verification/Client.v ===== *)
(** * The state of a client ([ClientState] and its flags of [src/ctx.rs])

    What a connection carries from one command to the next, with the
    transaction state of [src/command/transaction.rs].  Subscriptions and the
    blocking state have no operation at this commit and are left out. *)
From S2P Require Import Prelude Crc Object Notify Reply.
Open Scope Z_scope.

(** ** Transactions: the state and the hook ([src/command/transaction.rs]) *)

Record MultiState := { queue : list (list bytes); watched : list (nat * Key * Z) }.

Definition multi_default : MultiState := {| queue := []; watched := [] |}.
Definition is_queuing (m : MultiState) : bool := bool_decide (queue m <> []).
Definition multi_reset (_ : MultiState) : MultiState := multi_default.

(** ** Clients *)

Abbreviation ClientFlags := Z.
Definition CLOSE_AFTER_REPLY : ClientFlags := Z.shiftl 1 0.
Definition MULTI : ClientFlags := Z.shiftl 1 1.
Definition DIRTY_CAS : ClientFlags := Z.shiftl 1 2.
Definition DIRTY_EXEC : ClientFlags := Z.shiftl 1 3.
Definition MONITOR : ClientFlags := Z.shiftl 1 4.
Definition REPLY_OFF : ClientFlags := Z.shiftl 1 5.
Definition REPLY_SKIP_NEXT : ClientFlags := Z.shiftl 1 6.
Definition REPLY_SKIP : ClientFlags := Z.shiftl 1 7.
Definition NO_EVICT : ClientFlags := Z.shiftl 1 8.
Definition NO_TOUCH : ClientFlags := Z.shiftl 1 9.
Definition UNIX_SOCKET : ClientFlags := Z.shiftl 1 10.

Record ClientState := {
  client_id : Z; client_name : bytes; client_db : nat; client_proto : Z; client_flags : ClientFlags;
  authenticated : bool; addr : bytes; laddr : bytes; fd : Z; created_ms : Z; last_interaction_ms : Z;
  lib_name : bytes; lib_ver : bytes; last_command : bytes; multi : MultiState
}.

Definition client_new (id : Z) (addr laddr : bytes) (now_ms : Z) (requires_auth : bool) : ClientState :=
  {| client_id := id; client_name := []; client_db := 0; client_proto := RESP2; client_flags := 0;
     authenticated := negb requires_auth; addr := addr; laddr := laddr; fd := -1; created_ms := now_ms;
     last_interaction_ms := now_ms; lib_name := []; lib_ver := []; last_command := []; multi := multi_default |}.

Definition with_flags (f : ClientFlags) (c : ClientState) : ClientState :=
  {| client_id := client_id c; client_name := client_name c; client_db := client_db c; client_proto := client_proto c;
     client_flags := f; authenticated := authenticated c; addr := addr c; laddr := laddr c; fd := fd c;
     created_ms := created_ms c; last_interaction_ms := last_interaction_ms c; lib_name := lib_name c;
     lib_ver := lib_ver c; last_command := last_command c; multi := multi c |}.

Definition with_last_command (n : bytes) (c : ClientState) : ClientState :=
  {| client_id := client_id c; client_name := client_name c; client_db := client_db c; client_proto := client_proto c;
     client_flags := client_flags c; authenticated := authenticated c; addr := addr c; laddr := laddr c; fd := fd c;
     created_ms := created_ms c; last_interaction_ms := last_interaction_ms c; lib_name := lib_name c;
     lib_ver := lib_ver c; last_command := n; multi := multi c |}.

Definition should_close (c : ClientState) : bool := contains (client_flags c) CLOSE_AFTER_REPLY.
Definition close_after_reply (c : ClientState) : ClientState :=
  with_flags (Z.lor (client_flags c) CLOSE_AFTER_REPLY) c.
Definition reply_suppressed (c : ClientState) : bool :=
  intersects (client_flags c) (Z.lor REPLY_OFF REPLY_SKIP).

(** [client.subs.in_subscribe_mode()]: no command subscribes yet. *)
Definition in_subscribe_mode (_ : ClientState) : bool := false.
