(* ===== verification/Registry.v ===== *)
(** * The connection registry ([src/net/registry.rs])

    What [CLIENT LIST], [CLIENT INFO] and [CLIENT KILL] see of the other
    connections.  The table is keyed by the server and the client; the model
    keeps the table of one server, under client ids.  The channel back to a
    connection is the list of what was sent on it and whether it is still
    read. *)
From S2P Require Import Prelude Object Notify Strnum Client.
Open Scope Z_scope.

Record ConnSnapshot := {
  s_id : Z; s_addr : bytes; s_laddr : bytes; s_fd : Z; s_name : bytes; s_created_ms : Z; s_last_interaction_ms : Z;
  s_db : nat; s_resp : Z; s_flags : ClientFlags; s_sub : Z; s_psub : Z; s_ssub : Z; s_multi : Z; s_watch : Z;
  qbuf : Z; qbuf_free : Z; argv_mem : Z; multi_mem : Z; s_net_in : Z; s_net_out : Z; rbs : Z; rbp : Z;
  obl : Z; oll : Z; omem : Z; tot_mem : Z; s_last_command : bytes; s_lib_name : bytes; s_lib_ver : bytes
}.

Definition snapshot_new (c : ClientState) (fd_ : Z) : ConnSnapshot :=
  {| s_id := client_id c; s_addr := addr c; s_laddr := laddr c; s_fd := fd_; s_name := client_name c; s_created_ms := created_ms c;
     s_last_interaction_ms := last_interaction_ms c; s_db := client_db c; s_resp := client_proto c; s_flags := client_flags c;
     s_sub := 0; s_psub := 0; s_ssub := 0; s_multi := -1; s_watch := 0; qbuf := 0; qbuf_free := 0; argv_mem := 0; multi_mem := 0;
     s_net_in := 0; s_net_out := 0; rbs := 0; rbp := 0; obl := 0; oll := 0; omem := 0; tot_mem := 0;
     s_last_command := last_command c; s_lib_name := lib_name c; s_lib_ver := lib_ver c |}.

(** [ClientSubs::count]: no command subscribes yet. *)
Definition subs_count (_ : ClientState) : Z := 0.

Definition refresh_from (c : ClientState) (s : ConnSnapshot) : ConnSnapshot :=
  {| s_id := s_id s; s_addr := s_addr s; s_laddr := s_laddr s; s_fd := s_fd s; s_name := client_name c; s_created_ms := s_created_ms s;
     s_last_interaction_ms := last_interaction_ms c; s_db := client_db c; s_resp := client_proto c; s_flags := client_flags c;
     s_sub := subs_count c; s_psub := s_psub s; s_ssub := s_ssub s; s_multi := s_multi s; s_watch := s_watch s; qbuf := qbuf s; qbuf_free := qbuf_free s;
     argv_mem := argv_mem s; multi_mem := multi_mem s; s_net_in := s_net_in s; s_net_out := s_net_out s; rbs := rbs s; rbp := rbp s;
     obl := obl s; oll := oll s; omem := omem s; tot_mem := tot_mem s;
     s_last_command := last_command c; s_lib_name := lib_name c; s_lib_ver := lib_ver c |}.

Definition flag_letters : list (ClientFlags * byte) :=
  [(UNIX_SOCKET, "U"); (MULTI, "x"); (DIRTY_CAS, "d"); (CLOSE_AFTER_REPLY, "c"); (MONITOR, "O"); (NO_EVICT, "e"); (NO_TOUCH, "T")]%byte.
Definition flag_string (s : ConnSnapshot) : bytes :=
  match omap (fun p => if contains (s_flags s) p.1 then Some p.2 else None) flag_letters with [] => bs "N" | l => l end.

Definition events (s : ConnSnapshot) : bytes := if bool_decide (0 < oll s) || bool_decide (0 < obl s) then bs "rw" else bs "r".

(** ** The table *)

(** [OutOfBand] of [src/ctx.rs]. *)
Inductive OutOfBand := Frame (f : bytes) | Unblock (error : bool) | Kill.
Record ConnEntry := { snap : ConnSnapshot; inbox : list OutOfBand; reachable : bool }.
Definition Registry : Type := gmap Z ConnEntry.

Definition entry_id (e : ConnEntry) : Z := s_id (snap e).
Definition conn_entry_new (s : ConnSnapshot) : ConnEntry := {| snap := s; inbox := []; reachable := true |}.
Definition update_entry (f : ConnSnapshot -> ConnSnapshot) (e : ConnEntry) : ConnEntry := {| snap := f (snap e); inbox := inbox e; reachable := reachable e |}.
Definition kill (e : ConnEntry) : ConnEntry * bool :=
  if reachable e then ({| snap := snap e; inbox := inbox e ++ [Kill]; reachable := true |}, true) else (e, false).

Definition register_conn (e : ConnEntry) (r : Registry) : Registry := <[entry_id e := e]> r.
Definition unregister_conn (n : Z) (r : Registry) : Registry := base.delete n r.
Definition get_conn (n : Z) (r : Registry) : option ConnEntry := r !! n.

Definition id_le (a b : Z * ConnEntry) : Prop := a.1 <= b.1.
#[export] Instance id_le_dec : RelDecision id_le.
Proof. intros a b. unfold id_le. apply _. Defined.
Definition snapshot_conns (r : Registry) : list ConnEntry := snd <$> merge_sort id_le (map_to_list r).
Definition count_conns (r : Registry) : Z := Z.of_nat (size r).

(** ** Facts *)

(** Every entry is under the id it carries. *)
Definition registry_ok (r : Registry) : Prop := forall n e, r !! n = Some e -> entry_id e = n.

Lemma register_ok e r : registry_ok r -> registry_ok (register_conn e r).
Proof. unfold registry_ok, register_conn, Registry. intros Hr n e'. rewrite lookup_insert_Some. intros [[<- <-]|[_ He]]; [done|by apply Hr]. Qed.
Lemma unregister_ok n r : registry_ok r -> registry_ok (unregister_conn n r).
Proof. unfold Registry. intros Hr m e He. unfold unregister_conn in He. apply lookup_delete_Some in He as [_ He]. by apply Hr. Qed.

Lemma snapshot_perm r : snapshot_conns r ≡ₚ snd <$> map_to_list r.
Proof. unfold Registry in *. unfold snapshot_conns. by rewrite merge_sort_Permutation. Qed.

Lemma elem_of_snapshot r e : registry_ok r -> e ∈ snapshot_conns r <-> r !! entry_id e = Some e.
Proof.
  unfold Registry. intros Hr. rewrite snapshot_perm, list_elem_of_fmap. split.
  - intros ([n e'] & -> & Hin%elem_of_map_to_list). cbn [snd]. by rewrite (Hr n).
  - intros Hl. exists (entry_id e, e). split; [done|]. by apply elem_of_map_to_list.
Qed.

Lemma snapshot_ids r : registry_ok r -> entry_id <$> snapshot_conns r = (merge_sort id_le (map_to_list r)).*1.
Proof.
  unfold Registry. intros Hr. unfold snapshot_conns. rewrite <-list_fmap_compose. apply list_fmap_ext. intros i [n e] Hl. cbn.
  apply Hr, elem_of_map_to_list. apply list_elem_of_lookup_2 in Hl. by rewrite merge_sort_Permutation in Hl.
Qed.

(** Oldest first: ids are given out in order. *)
Lemma snapshot_sorted r : registry_ok r -> StronglySorted Z.lt (entry_id <$> snapshot_conns r).
Proof.
  unfold Registry. intros Hr. rewrite snapshot_ids by done.
  assert (Hs : StronglySorted id_le (merge_sort id_le (map_to_list r))).
  { apply StronglySorted_merge_sort; [intros x y z; unfold id_le; lia|intros x y; unfold id_le; lia]. }
  assert (Hn : NoDup ((merge_sort id_le (map_to_list r)).*1)) by (rewrite merge_sort_Permutation; apply NoDup_fst_map_to_list).
  induction Hs as [|p l Hs IH Hp]; [constructor|]. rewrite fmap_cons in *. apply NoDup_cons in Hn as [Hni Hn].
  constructor; [by apply IH|]. apply Forall_fmap, Forall_forall. intros q Hq. rewrite Forall_forall in Hp. specialize (Hp q Hq).
  unfold id_le in Hp. cbn. assert (p.1 <> q.1) by (intros E; apply Hni; rewrite E; by apply list_elem_of_fmap_2). lia.
Qed.
