(* ===== verification/Ctx.v ===== *)
(** * The handler context ([src/ctx.rs], [src/blocking.rs])

    Everything a command handler may touch, with one definition per method.
    [ServerShared] is split in two: [Shared] is the part the context's
    methods read and write, the shard map and the command table are with
    [Dispatch]; the client is in [Client].  The iteration and timing of other threads is not visible
    here: a context owns its locked shards ([ShardGuards]) until [finish].

    What the methods promise is stated on [view], the map from keys to live
    values that a handler can observe: an expired key is not in it. *)
From S2P Require Import Prelude Config Crc Object Shard Errors Reply Notify Dtoa Strnum Client Registry.
Open Scope Z_scope.

(** ** Third-party randomness *)

(** [fastrand]'s thread-local generator: the draws by their position. *)
Class Fastrand := {
  fastrand_f64 : nat -> f64;
  fastrand_usize : nat -> nat -> nat;
  fastrand_u64 : nat -> Z
}.

(** [fastrand::usize(..n)] is below [n]. *)
Class FastrandLaws `{Fastrand} := {
  fastrand_usize_lt (i n : nat) : (0 < n -> fastrand_usize i n < n)%nat;
  fastrand_u64_range (i : nat) : in_unsigned 64 (fastrand_u64 i)
}.

(** ** [src/util/rand.rs] *)

Section rand.
Context `{FastrandLaws}.

Definition below (i n : nat) : nat := if decide (n = 0%nat) then 0%nat else fastrand_usize i n.

Lemma below_one i : below i 1 = 0%nat.
Proof. unfold below. case_decide; [done|]. pose proof (fastrand_usize_lt i 1). lia. Qed.

Lemma below_lt i n : (0 < n)%nat -> (below i n < n)%nat.
Proof. intros Hn. unfold below. rewrite decide_False by lia. by apply fastrand_usize_lt. Qed.
End rand.

(** ** Statistics ([src/info.rs]) *)

Inductive Counter :=
| connections_received | commands_processed | net_input_bytes | net_output_bytes | rejected_connections
| expired_keys | evicted_keys | keyspace_hits | keyspace_misses | pubsub_channels | pubsub_patterns
| total_reads_processed | total_writes_processed | unexpected_error_replies | total_error_replies.

#[export] Instance counter_eq_dec : EqDecision Counter.
Proof. solve_decision. Defined.

(** Each counter is an [AtomicU64]. *)
Definition Stats : Type := Counter -> Z.
Definition stats_new : Stats := fun _ => 0.
Definition stats_add (c : Counter) (n : Z) (st : Stats) : Stats :=
  fun c' => if decide (c = c') then wrapu 64 (st c' + n) else st c'.
Definition bump (c : Counter) (st : Stats) : Stats := stats_add c 1 st.

(** ** Blocking requests ([src/blocking.rs]) *)

Inductive BlockKind := BlockList | ListMove | ListMPop | BlockZSet | ZSetMPop | BlockStream | Wait.

Definition timeout_is_null_array (k : BlockKind) : bool := match k with Wait => false | _ => true end.

Record BlockRequest := {
  kind : BlockKind; block_keys : list Key; deadline_ms : option Z; block_db : nat; extra : list bytes
}.

(** ** The context *)

Inductive PropMode := Default | Explicit | Suppressed.

(** The shared state a context's methods reach, and the [publish] calls made
    on the notification sink. *)
Record Shared := {
  stats : Stats;
  server_dirty : Z;
  propagation_enabled : bool;
  sink_installed : bool;
  published : list Publish;
  draws : nat;
  config_handle : Config;
  registry : Registry
}.

Definition is_propagating (s : Shared) : bool := propagation_enabled s.

Definition bump_stat (c : Counter) (s : Shared) : Shared :=
  {| stats := bump c (stats s); server_dirty := server_dirty s; propagation_enabled := propagation_enabled s;
     sink_installed := sink_installed s; published := published s; draws := draws s; config_handle := config_handle s; registry := registry s |}.
(** [self.server.dirty.fetch_add(n)] *)
Definition add_server_dirty (n : Z) (s : Shared) : Shared :=
  {| stats := stats s; server_dirty := wrapu 64 (server_dirty s + n); propagation_enabled := propagation_enabled s;
     sink_installed := sink_installed s; published := published s; draws := draws s; config_handle := config_handle s; registry := registry s |}.
Definition draw (s : Shared) : Shared :=
  {| stats := stats s; server_dirty := server_dirty s; propagation_enabled := propagation_enabled s;
     sink_installed := sink_installed s; published := published s; draws := S (draws s); config_handle := config_handle s; registry := registry s |}.

(** [ConfigHandle::store] *)
Definition set_handle (c : Config) (s : Shared) : Shared :=
  {| stats := stats s; server_dirty := server_dirty s; propagation_enabled := propagation_enabled s;
     sink_installed := sink_installed s; published := published s; draws := draws s; config_handle := c; registry := registry s |}.

Record Ctx := {
  out : ReplyWriter;
  client : ClientState;
  server : Shared;
  shards : ShardGuards;
  now_ms : Z;
  cfg : Config;
  dirty : Z;
  prop : PropMode;
  prop_buf : list (list bytes);
  block : option BlockRequest;
  lfu : bool;
  server_shards : ShardMap
}.

Definition ctx_new (out : ReplyWriter) (client : ClientState) (server : Shared) (shards : ShardGuards)
    (cfg : Config) (now_ms : Z) (m : ShardMap) : Ctx :=
  {| out := out; client := client; server := server; shards := shards; now_ms := now_ms; cfg := cfg; dirty := 0;
     prop := Default; prop_buf := []; block := None; lfu := is_lfu (maxmemory_policy cfg);
     server_shards := m |}.

Definition db_index (c : Ctx) : nat := client_db (client c).

(** Field updates. *)
Definition set_out (f : ReplyWriter -> ReplyWriter) (c : Ctx) : Ctx :=
  {| out := f (out c); client := client c; server := server c; shards := shards c; now_ms := now_ms c; cfg := cfg c;
     dirty := dirty c; prop := prop c; prop_buf := prop_buf c; block := block c; lfu := lfu c;
     server_shards := server_shards c |}.
Definition set_server (f : Shared -> Shared) (c : Ctx) : Ctx :=
  {| out := out c; client := client c; server := f (server c); shards := shards c; now_ms := now_ms c; cfg := cfg c;
     dirty := dirty c; prop := prop c; prop_buf := prop_buf c; block := block c; lfu := lfu c;
     server_shards := server_shards c |}.
Definition set_shards (f : ShardGuards -> ShardGuards) (c : Ctx) : Ctx :=
  {| out := out c; client := client c; server := server c; shards := f (shards c); now_ms := now_ms c; cfg := cfg c;
     dirty := dirty c; prop := prop c; prop_buf := prop_buf c; block := block c; lfu := lfu c;
     server_shards := server_shards c |}.
Definition set_prop (p : PropMode) (b : list (list bytes)) (c : Ctx) : Ctx :=
  {| out := out c; client := client c; server := server c; shards := shards c; now_ms := now_ms c; cfg := cfg c;
     dirty := dirty c; prop := p; prop_buf := b; block := block c; lfu := lfu c;
     server_shards := server_shards c |}.
Definition set_block (b : option BlockRequest) (c : Ctx) : Ctx :=
  {| out := out c; client := client c; server := server c; shards := shards c; now_ms := now_ms c; cfg := cfg c;
     dirty := dirty c; prop := prop c; prop_buf := prop_buf c; block := b; lfu := lfu c;
     server_shards := server_shards c |}.
(** [self.dirty += 1; self.server.dirty.fetch_add(1)] *)
Definition count_dirty (c : Ctx) : Ctx :=
  {| out := out c; client := client c; server := add_server_dirty 1 (server c); shards := shards c; now_ms := now_ms c;
     cfg := cfg c; dirty := dirty c + 1; prop := prop c; prop_buf := prop_buf c; block := block c; lfu := lfu c;
     server_shards := server_shards c |}.

Section ctx.
Context `{Memchr, Itoa, Fastrand}.

(** [for_each_db]: over the current database of every locked shard. *)
Definition for_each_db (f : Db -> Db) (c : Ctx) : Ctx :=
  set_shards (fun g => {| guards := (fun '(i, s) => (i, upd_db (db_index c) f s)) <$> guards g; g_mask := g_mask g |}) c.

(** [self.shards.for_key(key).and_then(|s| s.db(db_idx))] and what is done
    through the reference. *)
Definition key_db (key : Key) (c : Ctx) : option Db := for_key key (shards c) ≫= db (db_index c).
Definition upd_key_db (key : Key) (f : Db -> Db) (c : Ctx) : Ctx :=
  set_shards (upd_for_key key (upd_db (db_index c) f)) c.

(** The same for any database [n] of the key's shard. *)
Definition db_at (n : nat) (key : Key) (c : Ctx) : option Db := for_key key (shards c) ≫= db n.
Definition upd_db_at (n : nat) (key : Key) (f : Db -> Db) (c : Ctx) : Ctx := set_shards (upd_for_key key (upd_db n f)) c.

(** [crate::notify::dispatch] on the installed sink. *)
Definition notify_dispatch (configured class : NotifyClass) (event : bytes) (db : nat) (key : bytes) (s : Shared) :
    Shared :=
  {| stats := stats s; server_dirty := server_dirty s; propagation_enabled := propagation_enabled s;
     sink_installed := sink_installed s;
     published := published s ++ dispatch (if sink_installed s then Some tt else None) configured class event
                                          (Z.of_nat db) key;
     draws := draws s; config_handle := config_handle s; registry := registry s |}.

Definition expire_if_needed (key : Key) (c : Ctx) : Ctx * bool :=
  match key_db key c with
  | None => (c, false)
  | Some d =>
      if negb (db_is_expired key (now_ms c) d) then (c, false)
      else
        let c := upd_key_db key (fun d => signal_watch key (remove_entry key d).1) c in
        let c := set_shards (upd_for_key key (fun s =>
          let s := bump_dirty s in
          if is_propagating (server c) then propagate (db_index c) [bs "DEL"; key] s else s)) c in
        (set_server (fun s =>
           notify_dispatch (notify_keyspace_events (cfg c)) EXPIRED (bs "expired") (db_index c) key
             (bump_stat expired_keys (add_server_dirty 1 s))) c, true)
  end.

(** [lru::touch] on the entry of [key], unless the client opted out. *)
Definition touch_entry (key : Key) (c : Ctx) : Ctx :=
  if contains (client_flags (client c)) NO_TOUCH then c
  else
    let f e := {| obj := obj e; expire_at_ms := expire_at_ms e;
                  lru := touch (fastrand_f64 (draws (server c))) (lru e) (now_ms c) (lfu c)
                           (lfu_log_factor (cfg c)) (lfu_decay_time (cfg c)) |} in
    let c := upd_key_db key (fun d => with_dict (alter f key (dict d)) (expires d) d) c in
    if lfu c then set_server draw c else c.

Definition lookup_read (key : Key) (c : Ctx) : Ctx * option Robj :=
  let c := (expire_if_needed key c).1 in
  match key_db key c ≫= fun d => dict d !! key with
  | None => (set_server (bump_stat keyspace_misses) c, None)
  | Some e => (touch_entry key (set_server (bump_stat keyspace_hits) c), Some (obj e))
  end.

Definition exists_now (key : Key) (c : Ctx) : bool :=
  match key_db key c with Some d => bool_decide (is_Some (dict d !! key)) | None => false end.

Definition exists_ (key : Key) (c : Ctx) : Ctx * bool :=
  let c := (expire_if_needed key c).1 in (c, exists_now key c).

(** Bump the dirty counters and invalidate any WATCH on the key. *)
Definition signal_modified (key : Key) (c : Ctx) : Ctx :=
  let c := count_dirty c in
  set_shards (upd_for_key key (fun s => upd_db (db_index c) (signal_watch key) (bump_dirty s))) c.

(** [lookup_write]; the reference it returns is used with [upd_obj]. *)
Definition lookup_write (key : Key) (c : Ctx) : Ctx * option Robj :=
  let c := (expire_if_needed key c).1 in
  if negb (exists_now key c) then (c, None)
  else
    let c := signal_modified key c in
    match key_db key c ≫= fun d => dict d !! key with
    | None => (c, None)
    | Some e => (touch_entry key c, Some (obj e))
    end.

Definition ctx_type_name (key : Key) (c : Ctx) : Ctx * option bytes :=
  let '(c, o) := lookup_read key c in (c, type_name <$> o).

Definition expire_at (key : Key) (c : Ctx) : Ctx * option Z :=
  let c := (expire_if_needed key c).1 in
  (c, key_db key c ≫= fun d => dict d !! key ≫= expire_at_ms).

Definition ctx_set_expire (key : Key) (at_ms : option Z) (c : Ctx) : Ctx * bool :=
  let c := (expire_if_needed key c).1 in
  let ok := match key_db key c with Some d => (set_expire key at_ms d).2 | None => false end in
  let c := upd_key_db key (fun d => (set_expire key at_ms d).1) c in
  (if ok then signal_modified key c else c, ok).

Definition insert (key : Key) (obj : Robj) (expire_at_ms : option Z) (c : Ctx) : Ctx :=
  let c := count_dirty c in
  set_shards (upd_for_key key (fun s =>
    upd_db (db_index c) (fun d =>
      set_entry key (entry_new obj expire_at_ms (now_ms c) (lfu c)) (signal_watch key d)) (bump_dirty s))) c.

Definition remove (key : Key) (c : Ctx) : Ctx * bool :=
  let c := (expire_if_needed key c).1 in
  let removed := match key_db key c with Some d => bool_decide (is_Some (remove_entry key d).2) | None => false end in
  let c := upd_key_db key (fun d => (remove_entry key d).1) c in
  if removed then
    (count_dirty (set_shards (upd_for_key key (fun s =>
       upd_db (db_index c) (signal_watch key) (bump_dirty s))) c), true)
  else (c, false).

(** ** Typed accessors *)

Definition peek_type (key : Key) (c : Ctx) : option Z :=
  (fun e => type_id (obj e)) <$> (key_db key c ≫= fun d => dict d !! key).

(** [touch_for_write]: the touch of [lookup_write] on its own. *)
Definition touch_for_write (key : Key) (c : Ctx) : Ctx :=
  match key_db key c ≫= fun d => dict d !! key with Some _ => touch_entry key c | None => c end.

(** The macro's two accessors, for the variant [ty] with its projection. *)
Definition get_typed {T} (ty : Z) (proj : Robj -> option T) (key : Key) (c : Ctx) :
    Ctx * (CmdError + option T) :=
  let c := (expire_if_needed key c).1 in
  match peek_type key c with
  | None => (c, inr None)
  | Some t =>
      if decide (t = ty) then
        let c := touch_for_write key (signal_modified key c) in
        match key_db key c ≫= fun d => dict d !! key with
        | Some e => match proj (obj e) with Some o => (c, inr (Some o)) | None => (c, inl WrongType) end
        | None => (c, inr None)
        end
      else (c, inl WrongType)
  end.

Definition get_typed_read {T} (proj : Robj -> option T) (key : Key) (c : Ctx) : Ctx * (CmdError + option T) :=
  let '(c, o) := lookup_read key c in
  (c, match o with
      | None => inr None
      | Some o => match proj o with Some t => inr (Some t) | None => inl WrongType end
      end).

Definition proj_str (o : Robj) : option StrObj := match o with Str s => Some s | _ => None end.
Definition proj_list (o : Robj) : option ListObj := match o with List s => Some s | _ => None end.
Definition proj_set (o : Robj) : option SetObj := match o with Set_ s => Some s | _ => None end.
Definition proj_zset (o : Robj) : option ZSetObj := match o with ZSet s => Some s | _ => None end.
Definition proj_hash (o : Robj) : option HashObj := match o with Hash s => Some s | _ => None end.
Definition proj_stream (o : Robj) : option StreamObj := match o with Stream s => Some s | _ => None end.

Definition get_str := get_typed 0 proj_str.
Definition get_list := get_typed 1 proj_list.
Definition get_set := get_typed 2 proj_set.
Definition get_zset := get_typed 3 proj_zset.
Definition get_hash := get_typed 4 proj_hash.
Definition get_stream := get_typed 6 proj_stream.
Definition get_str_read := get_typed_read proj_str.
Definition get_list_read := get_typed_read proj_list.
Definition get_set_read := get_typed_read proj_set.
Definition get_zset_read := get_typed_read proj_zset.
Definition get_hash_read := get_typed_read proj_hash.
Definition get_stream_read := get_typed_read proj_stream.

(** ** Side effects *)

Definition notify (class : NotifyClass) (event : bytes) (key : Key) (c : Ctx) : Ctx :=
  let configured := notify_keyspace_events (cfg c) in
  if negb (is_enabled_by class configured) then c
  else set_server (notify_dispatch configured class event (db_index c) key) c.

Definition propagate_argv (argv : list bytes) (c : Ctx) : Ctx :=
  if negb (is_propagating (server c)) then set_prop Explicit (prop_buf c) c
  else set_prop Explicit (prop_buf c ++ [argv]) c.

(** [propagate] copies its arguments. *)
Definition ctx_propagate (args : list bytes) (c : Ctx) : Ctx := propagate_argv args c.

Definition propagate_none (c : Ctx) : Ctx := set_prop Suppressed [] c.

Definition block_on (keys : list Key) (timeout_ms : Z) (on : BlockKind) (c : Ctx) : Ctx :=
  let deadline := if decide (timeout_ms = 0) then None else Some (Z.min U64_MAX (now_ms c + timeout_ms)) in
  set_block (Some {| kind := on; block_keys := keys; deadline_ms := deadline; block_db := db_index c; extra := [] |}) c.

Definition is_blocking (c : Ctx) : bool := bool_decide (is_Some (block c)).
Definition dirty_count (c : Ctx) : Z := dirty c.

End ctx.

Record CtxOutcome := {
  o_shards : ShardGuards; o_dirty : Z; o_prop : PropMode; o_prop_buf : list (list bytes);
  o_block : option BlockRequest
}.

Definition ctx_finish (c : Ctx) : CtxOutcome :=
  {| o_shards := shards c; o_dirty := dirty c; o_prop := prop c; o_prop_buf := prop_buf c; o_block := block c |}.

(** ** Observations *)

Section facts.
Context `{Memchr, Itoa, Fastrand}.

(** The entry of a key, expired or not, and its WATCH counter. *)
Definition entry (k : Key) (c : Ctx) : option Entry := key_db k c ≫= fun d => dict d !! k.
Definition version (k : Key) (c : Ctx) : option Z := key_db k c ≫= watch_version k.

Definition entry_at (n : nat) (k : Key) (c : Ctx) : option Entry := db_at n k c ≫= fun d => dict d !! k.

(** The context can reach the key: its shard is locked and the database exists. *)
Definition covered (k : Key) (c : Ctx) : Prop := is_Some (key_db k c).

(** What a handler can see of a key. *)
Definition live (now : Z) (e : Entry) : option (Robj * option Z) :=
  if is_expired e now then None else Some (obj e, expire_at_ms e).
Definition view (k : Key) (c : Ctx) : option (Robj * option Z) := entry k c ≫= live (now_ms c).

Definition dbs_ok (s : Shard) : Prop := Forall db_ok (dbs s).
Definition guards_ok (g : ShardGuards) : Prop := Forall (fun p => dbs_ok p.2) (guards g).

(** Every key is on the shard it hashes to. *)
Definition placed (c : Ctx) : Prop := forall i s n d k,
  (i, s) ∈ guards (shards c) -> db n s = Some d -> is_Some (dict d !! k) -> key_index (shards c) k = i.

(** [f] edits a database at [k] only, and keeps its invariant. *)
Record local_to (k : Key) (f : Db -> Db) : Prop := {
  local_dict d k' : k <> k' -> dict (f d) !! k' = dict d !! k';
  local_watch d k' : k <> k' -> watch (f d) !! k' = watch d !! k';
  local_ok d : db_ok d -> db_ok (f d)
}.

(** The shards that are locked, and how many databases each has. *)
Definition shape (g : ShardGuards) : list (nat * nat) := (fun p => (p.1, length (dbs p.2))) <$> guards g.

(** [c'] differs from [c] at [k] only, and by nothing a later method reads. *)
Record same_but (k : Key) (c c' : Ctx) : Prop := {
  sb_now : now_ms c' = now_ms c;
  sb_client : client c' = client c;
  sb_cfg : cfg c' = cfg c;
  sb_map : server_shards c' = server_shards c;
  sb_mask : g_mask (shards c') = g_mask (shards c);
  sb_shape : shape (shards c') = shape (shards c);
  sb_entry k' : k <> k' -> entry k' c' = entry k' c;
  sb_other n k' : n <> db_index c -> entry_at n k' c' = entry_at n k' c;
  sb_version k' : k <> k' -> version k' c' = version k' c;
  sb_covered k' : covered k' c' <-> covered k' c;
  sb_ok : guards_ok (shards c) -> guards_ok (shards c');
  sb_placed : placed c -> placed c'
}.

#[export] Instance same_but_preorder k : PreOrder (same_but k).
Proof.
  split; [by constructor|]. intros x y z [a1 a2 a3 as_ am al a4 ao a5 a6 a7 a8] [b1 b2 b3 bs_ bm bl b4 bo b5 b6 b7 b8].
  split; [by etrans|by etrans|by etrans|by etrans|by etrans|by etrans|..].
  - intros k' Hk. by rewrite b4, a4.
  - intros n k' Hn. rewrite bo, ao; [done..|]. unfold db_index in *. by rewrite a2.
  - intros k' Hk. by rewrite b5, a5.
  - intros k'. by rewrite b6, a6.
  - auto.
  - auto.
Qed.

Lemma key_db_ok k c d : guards_ok (shards c) -> key_db k c = Some d -> db_ok d.
Proof.
  unfold key_db, for_key, guard_shard. intros Hg (s & Hs & Hd)%bind_Some.
  apply bind_Some in Hs as ([j [i s']] & Hl & [= ->]).
  apply list_find_Some in Hl as (Hl & _ & _). unfold guards_ok in Hg. rewrite Forall_lookup in Hg.
  specialize (Hg _ _ Hl). unfold dbs_ok in Hg. rewrite Forall_lookup in Hg. by eapply Hg.
Qed.

Lemma shape_locked g : fst <$> guards g = fst <$> shape g.
Proof. unfold shape. by rewrite <-list_fmap_compose. Qed.

Lemma sb_locked k c c' : same_but k c c' -> fst <$> guards (shards c') = fst <$> guards (shards c).
Proof. intros Hs. by rewrite !shape_locked, (sb_shape _ _ _ Hs). Qed.

Lemma local_compose k f g : local_to k f -> local_to k g -> local_to k (g ∘ f).
Proof.
  intros [Hd Hw Ho] [Hd' Hw' Ho']. split; unfold compose; intros.
  - by rewrite Hd', Hd.
  - by rewrite Hw', Hw.
  - auto.
Qed.

Lemma run_op_local k op :
  match op with
  | OpSet k' _ | OpRemove k' | OpExpire k' _ | OpSignal k' => k' = k
  | _ => False
  end -> local_to k (run_op op).
Proof.
  intros Hop. split; [..|by intros; apply run_op_ok].
  - intros d k' Hk. destruct op; simplify_eq/=; try done;
      unfold remove_entry, set_expire, signal_watch, with_dict, with_watch; simpl; try (by rewrite lookup_insert_ne);
      try (by rewrite lookup_delete_ne); repeat case_match; simpl; try done; by rewrite lookup_insert_ne.
  - intros d k' Hk. destruct op; simplify_eq/=; try done;
      unfold remove_entry, set_expire, signal_watch, with_dict, with_watch; simpl; try done;
      repeat case_match; simpl; try done; by rewrite lookup_insert_ne.
Qed.

Lemma guard_shard_cons i n s l m :
  guard_shard i {| guards := (n, s) :: l; g_mask := m |} =
  if decide (n = i) then Some s else guard_shard i {| guards := l; g_mask := m |}.
Proof.
  unfold guard_shard. simpl. destruct (decide (n = i)); [done|].
  by destruct (list_find _ l) as [[? [??]]|].
Qed.

Lemma guard_shard_upd i j F g :
  guard_shard j (upd_guard i F g) = if decide (i = j) then F <$> guard_shard j g else guard_shard j g.
Proof.
  destruct g as [l m]. unfold upd_guard. cbn [guards g_mask].
  induction l as [|[n s] l IH]; [by case_decide|]. rewrite fmap_cons, guard_shard_cons. cbn [fst snd].
  destruct (decide (n = i)) as [->|Hn]; rewrite guard_shard_cons, IH; repeat case_decide; by simplify_eq.
Qed.

(** An edit of database [n] on the shard of [k], seen through any key. *)
Lemma db_at_upd n k F f c n' k' :
  (forall s, dbs (F s) = alter f n (dbs s)) ->
  db_at n' k' (set_shards (upd_for_key k F) c) =
  if decide (n = n' /\ key_index (shards c) k = key_index (shards c) k') then f <$> db_at n' k' c else db_at n' k' c.
Proof.
  intros HF. unfold db_at, for_key. change (key_index (shards (set_shards _ c)) k') with (key_index (shards c) k').
  change (shards (set_shards _ c)) with (upd_for_key k F (shards c)). unfold upd_for_key. rewrite guard_shard_upd.
  destruct (decide (key_index _ k = _)) as [->|Hne]; [|by rewrite decide_False by tauto].
  destruct (guard_shard _ _) as [s|]; simpl; [|by case_decide]. unfold db. rewrite HF, list_lookup_alter.
  destruct (decide (n = n')) as [->|Hn]; [by rewrite decide_True|by rewrite decide_False by tauto].
Qed.

Lemma placed_upd n k F f c :
  (forall s, dbs (F s) = alter f n (dbs s)) -> (forall d k', k <> k' -> dict (f d) !! k' = dict d !! k') ->
  placed c -> placed (set_shards (upd_for_key k F) c).
Proof.
  intros HF Hl Hp i s m d k' Hin Hd Hk. change (key_index (shards c) k' = i). cbn [shards set_shards] in Hin.
  unfold upd_for_key, upd_guard in Hin. cbn [guards] in Hin. apply list_elem_of_fmap in Hin as ([j s0] & E & Hin). cbn [fst snd] in E.
  destruct (decide (j = key_index (shards c) k)) as [->|Hj]; injection E as -> ->; [|by eapply Hp].
  unfold db in Hd. rewrite HF, list_lookup_alter in Hd. destruct (decide (k = k')) as [<-|Hne]; [done|].
  case_decide; [subst|by eapply Hp]. destruct (dbs s0 !! m) as [d0|] eqn:E0; [|done]. injection Hd as <-.
  rewrite Hl in Hk by done. by eapply Hp.
Qed.

Section update.
Context (k : Key) (F : Shard -> Shard) (f : Db -> Db) (c : Ctx).
Hypothesis HF : forall s, dbs (F s) = alter f (db_index c) (dbs s).
#[local] Abbreviation c' := (set_shards (upd_for_key k F) c).

Lemma key_db_upd k' :
  key_db k' c' = if decide (key_index (shards c) k = key_index (shards c) k') then f <$> key_db k' c else key_db k' c.
Proof using HF.
  change (key_db k' c') with (db_at (db_index c) k' c'). change (key_db k' c) with (db_at (db_index c) k' c).
  rewrite (db_at_upd (db_index c) k F f c (db_index c) k' HF). by repeat case_decide; try tauto.
Qed.

Lemma key_db_upd_same : key_db k c' = f <$> key_db k c.
Proof using HF. rewrite key_db_upd. by rewrite decide_True. Qed.

Lemma upd_same_but : local_to k f -> same_but k c c'.
Proof using HF.
  intros [Hd Hw Ho]. split; try done.
  - unfold shape. simpl. rewrite <-list_fmap_compose. apply list_fmap_ext. intros _ [n s] _. simpl.
    case_decide; [|done]. simpl. by rewrite HF, length_alter.
  - intros k' Hk. unfold entry. rewrite key_db_upd. case_decide; [|done].
    destruct (key_db k' c); simpl; [by apply Hd|done].
  - intros n k' Hn. unfold entry_at. by rewrite (db_at_upd _ k F f c n k' HF), decide_False by naive_solver.
  - intros k' Hk. unfold version, watch_version. rewrite key_db_upd. case_decide; [|done].
    destruct (key_db k' c); simpl; [by apply Hw|done].
  - intros k'. unfold covered. rewrite key_db_upd. case_decide; [|done]. by rewrite fmap_is_Some.
  - unfold guards_ok, dbs_ok. simpl. rewrite Forall_fmap. intros Hg.
    eapply Forall_impl; [exact Hg|]. intros [n s] Hs. simpl in *.
    case_decide; simpl; [|done]. rewrite HF. apply Forall_alter; [done|auto].
  - by eapply placed_upd.
Qed.

Lemma entry_upd : entry k c' = key_db k c ≫= fun d => dict (f d) !! k.
Proof using HF. unfold entry. rewrite key_db_upd_same. by destruct (key_db k c). Qed.

Lemma version_upd : version k c' = key_db k c ≫= fun d => watch (f d) !! k.
Proof using HF. unfold version, watch_version. rewrite key_db_upd_same. by destruct (key_db k c). Qed.
End update.

(** The shard-level edits of the context's methods. *)
Lemma upd_db_dbs n f s : dbs (upd_db n f s) = alter f n (dbs s).
Proof. done. Qed.

Lemma alter_id n (l : list Db) : alter id n l = l.
Proof. by apply list_alter_id. Qed.

Lemma local_id k : local_to k id.
Proof. by split. Qed.

Lemma same_but_view k k' c c' : same_but k c c' -> k <> k' -> view k' c' = view k' c.
Proof. intros [] Hk. unfold view. by rewrite sb_entry0, sb_now0. Qed.

Lemma set_server_same k f c : same_but k c (set_server f c).
Proof. by constructor. Qed.

#[local] Hint Resolve set_server_same : core.

Lemma count_dirty_same k c : same_but k c (count_dirty c).
Proof. by constructor. Qed.

(** What a step that only reads leaves alone. *)
Record quiet (c c' : Ctx) : Prop := {
  q_out : out c' = out c; q_dirty : dirty c' = dirty c; q_prop : prop c' = prop c;
  q_prop_buf : prop_buf c' = prop_buf c; q_block : block c' = block c; q_lfu : lfu c' = lfu c;
  q_propagating : is_propagating (server c') = is_propagating (server c)
}.

#[export] Instance quiet_preorder : PreOrder quiet.
Proof. split; [by constructor|]. intros x y z [] []. constructor; congruence. Qed.

Lemma expire_if_needed_spec k c :
  let c' := (expire_if_needed k c).1 in
  same_but k c c' /\ quiet c c' /\
  entry k c' = (e ← entry k c; if is_expired e (now_ms c) then None else Some e) /\
  ((expire_if_needed k c).2 = false -> c' = c) /\
  ((expire_if_needed k c).2 = true <-> exists e, entry k c = Some e /\ is_expired e (now_ms c) = true).
Proof.
  unfold expire_if_needed, entry at 2 3. destruct (key_db k c) as [d|] eqn:Ed; simpl.
  2: { split_and!; try reflexivity; [unfold entry; by rewrite Ed|naive_solver]. }
  unfold db_is_expired. destruct (dict d !! k) as [e|] eqn:Ee; simpl.
  2: { split_and!; try reflexivity; [|naive_solver..]. unfold entry. rewrite Ed. simpl. by rewrite Ee. }
  destruct (is_expired e (now_ms c)) eqn:Ex; simpl.
  2: { split_and!; try reflexivity; [|naive_solver..]. unfold entry. rewrite Ed. simpl. by rewrite Ee. }
  set (f := fun d => signal_watch k (remove_entry k d).1).
  set (c1 := upd_key_db k f c).
  assert (same_but k c c1) as Hs1.
  { apply upd_same_but with f; [done|]. apply (local_compose k (run_op (OpRemove k)) (run_op (OpSignal k)));
      by apply run_op_local. }
  set (F := fun s => if is_propagating (server c1) then propagate (db_index c1) [bs "DEL"; k] (bump_dirty s) else bump_dirty s).
  set (c2 := set_shards (upd_for_key k F) c1).
  assert (HF : forall s, dbs (F s) = alter id (db_index c1) (dbs s)).
  { intros s. unfold F. rewrite alter_id. by destruct (is_propagating _). }
  assert (same_but k c1 c2) as Hs2 by (by eapply upd_same_but; [exact HF|apply local_id]).
  split_and!.
  - etrans; [exact Hs1|]. etrans; [exact Hs2|]. apply set_server_same.
  - by constructor.
  - change (entry k c2 = None). unfold c2. rewrite entry_upd with (f := id) by exact HF. unfold c1.
    change (key_db k (upd_key_db k f c) ≫= (fun d => dict d !! k) = None). fold (entry k (upd_key_db k f c)).
    unfold upd_key_db. rewrite entry_upd with (f := f) by done. rewrite Ed. simpl. unfold f, signal_watch.
    repeat case_match; simpl; by rewrite lookup_delete_eq.
  - done.
  - split; [naive_solver|done].
Qed.

(** [touch_for_write] and the touch of a lookup: the entry's clock word moves. *)
Lemma upd_entry_local k f :
  (forall e, expire_at_ms (f e) = expire_at_ms e) ->
  local_to k (fun d => with_dict (alter f k (dict d)) (expires d) d).
Proof.
  intros Hf. split; [by intros; apply lookup_alter_ne|done|].
  intros d [He Hw Hq]. split; [|done..]. intros k'. simpl. rewrite He. destruct (decide (k = k')) as [<-|Hk].
  - rewrite lookup_alter_eq. destruct (dict d !! k); simpl; [by rewrite Hf|done].
  - by rewrite lookup_alter_ne.
Qed.

Lemma touch_entry_spec k c :
  let c' := touch_entry k c in
  same_but k c c' /\ quiet c c' /\ version k c' = version k c /\
  exists f, entry k c' = f <$> entry k c /\ forall e, obj (f e) = obj e /\ expire_at_ms (f e) = expire_at_ms e.
Proof.
  unfold touch_entry. destruct (contains _ NO_TOUCH).
  { split_and!; try reflexivity. exists (fun e => e). by destruct (entry k c). }
  set (f e := {| obj := obj e; expire_at_ms := expire_at_ms e; lru := _ |}).
  assert (forall e, obj (f e) = obj e /\ expire_at_ms (f e) = expire_at_ms e) as Hf by done. clearbody f.
  set (g d := with_dict (alter f k (dict d)) (expires d) d).
  set (c1 := upd_key_db k g c).
  assert (same_but k c c1) as Hs by (apply upd_same_but with g; [done|]; apply upd_entry_local; naive_solver).
  assert (entry k c1 = f <$> entry k c) as He.
  { unfold c1, upd_key_db. rewrite entry_upd with (f := g) by done. unfold entry. destruct (key_db k c); [|done]. simpl.
    apply lookup_alter_eq. }
  assert (version k c1 = version k c) as Hv.
  { unfold c1, upd_key_db. by rewrite version_upd with (f := g). }
  assert (quiet c c1) as Hq by done. clearbody c1. clear g.
  assert (forall c2, same_but k c1 c2 -> quiet c1 c2 -> entry k c2 = entry k c1 -> version k c2 = version k c1 ->
    same_but k c c2 /\ quiet c c2 /\ version k c2 = version k c /\
    exists f, entry k c2 = f <$> entry k c /\ forall e, obj (f e) = obj e /\ expire_at_ms (f e) = expire_at_ms e) as Hc.
  { intros c2 Hs2 Hq2 He2 Hv2. split_and!; [by etrans|by etrans|congruence|exists f; split; [congruence|done]]. }
  destruct (lfu c1); by apply Hc.
Qed.

(** The edit that [signal_modified], [insert] and [remove] make to a shard. *)
Lemma signal_modified_spec k c :
  let c' := signal_modified k c in
  same_but k c c' /\ entry k c' = entry k c /\ dirty c' = dirty c + 1 /\
  (guards_ok (shards c) -> forall v, version k c = Some v -> exists v', version k c' = Some v' /\ v < v').
Proof.
  unfold signal_modified. set (F s := upd_db _ (signal_watch k) (bump_dirty s)).
  set (c1 := count_dirty c). assert (HF : forall s, dbs (F s) = alter (signal_watch k) (db_index c1) (dbs s)) by done.
  split_and!.
  - etrans; [apply count_dirty_same|]. eapply upd_same_but; [exact HF|].
    by apply (run_op_local k (OpSignal k)).
  - rewrite entry_upd with (f := signal_watch k) by exact HF. change (key_db k c1) with (key_db k c). unfold entry.
    destruct (key_db k c) as [d|]; simpl; [|done]. unfold signal_watch. by repeat case_match.
  - done.
  - intros Hok v Hv. rewrite version_upd with (f := signal_watch k) by exact HF. change (key_db k c1) with (key_db k c).
    unfold version in Hv. destruct (key_db k c) as [d|] eqn:Ed; [|done]. simpl in *.
    assert (db_ok d) as Hd by (eapply key_db_ok; eauto). unfold watch_version in Hv. destruct Hd as [_ Hw _].
    specialize (Hw k v Hv). unfold signal_watch. case_decide as E; [by rewrite E in Hv|].
    rewrite Hv. simpl. rewrite lookup_insert_eq. eexists; split; [done|lia].
Qed.

(** An edit through the key's shard that leaves [out], [dirty] and the rest alone. *)
Lemma upd_quiet k F c : quiet c (set_shards (upd_for_key k F) c).
Proof. done. Qed.

Lemma entry_view k c c' :
  now_ms c' = now_ms c -> entry k c' = (e ← entry k c; if is_expired e (now_ms c) then None else Some e) ->
  view k c' = view k c.
Proof.
  unfold view. intros -> ->. unfold live. destruct (entry k c) as [e|]; simpl; [|done].
  destruct (is_expired e (now_ms c)) eqn:E; simpl; [done|by rewrite E].
Qed.

Lemma expire_view k k' c : view k' (expire_if_needed k c).1 = view k' c.
Proof.
  destruct (expire_if_needed_spec k c) as (Hs & _ & He & _). destruct (decide (k = k')) as [<-|Hk].
  - apply entry_view; [apply Hs|done].
  - by eapply same_but_view.
Qed.

(** After lazy expiry an entry is there iff the key is live, and the view is the entry. *)
Lemma expired_entry k c :
  let c1 := (expire_if_needed k c).1 in
  view k c = (fun e => (obj e, expire_at_ms e)) <$> entry k c1 /\
  forall e, entry k c1 = Some e -> is_expired e (now_ms c) = false.
Proof.
  destruct (expire_if_needed_spec k c) as (Hs & _ & He & _). simpl. rewrite He. unfold view, live.
  destruct (entry k c) as [e|]; simpl; [|naive_solver]. destruct (is_expired e (now_ms c)) eqn:E; simpl; naive_solver.
Qed.

Lemma covered_expire k k' c : covered k' (expire_if_needed k c).1 <-> covered k' c.
Proof. apply (expire_if_needed_spec k c). Qed.

Lemma touch_view k k' c : view k' (touch_entry k c) = view k' c.
Proof.
  destruct (touch_entry_spec k c) as (Hs & _ & _ & f & He & Hf). destruct (decide (k = k')) as [<-|Hk].
  - unfold view. rewrite He, (sb_now _ _ _ Hs). destruct (entry k c) as [e|]; simpl; [|done].
    destruct (Hf e) as [Ho Hx]. unfold live, is_expired. by rewrite Hx, Ho.
  - by eapply same_but_view.
Qed.

(** The key's entry is past its deadline and not reaped yet. *)
Definition stale k c : Prop := exists e, entry k c = Some e /\ is_expired e (now_ms c) = true.

Lemma expire_version k k' c : ~ stale k c -> version k' (expire_if_needed k c).1 = version k' c.
Proof.
  intros Hs. destruct (expire_if_needed_spec k c) as (_ & _ & _ & Hc & Hi).
  destruct (expire_if_needed k c).2; [by destruct Hs; apply Hi|by rewrite Hc].
Qed.

Lemma lookup_read_eq k c :
  let c1 := (expire_if_needed k c).1 in
  lookup_read k c = match entry k c1 with
                    | None => (set_server (bump_stat keyspace_misses) c1, None)
                    | Some e => (touch_entry k (set_server (bump_stat keyspace_hits) c1), Some (obj e))
                    end.
Proof. done. Qed.

Lemma lookup_read_frame k c : let c' := (lookup_read k c).1 in same_but k c c' /\ quiet c c'.
Proof.
  rewrite lookup_read_eq. destruct (expire_if_needed_spec k c) as (Hs & Hq & _).
  destruct (entry k _) as [e|]; simpl; [|by split; (etrans; [eassumption|])].
  destruct (touch_entry_spec k (set_server (bump_stat keyspace_hits) (expire_if_needed k c).1)) as (Hs2 & Hq2 & _).
  split; (etrans; [eassumption|etrans; [|eassumption]]); done.
Qed.

Lemma lookup_read_result k c : (lookup_read k c).2 = fst <$> view k c.
Proof. rewrite lookup_read_eq. destruct (expired_entry k c) as [-> _]. by destruct (entry k _). Qed.

Lemma lookup_read_view k k' c : view k' (lookup_read k c).1 = view k' c.
Proof.
  rewrite lookup_read_eq. pose proof (expire_view k k' c) as Hv. destruct (entry k _); [|exact Hv].
  cbn [fst]. rewrite touch_view. exact Hv.
Qed.

Lemma lookup_read_version k k' c : ~ stale k c -> version k' (lookup_read k c).1 = version k' c.
Proof.
  intros Hst. pose proof (expire_version k k' c Hst) as Hv. rewrite lookup_read_eq. destruct (entry k _); [|exact Hv].
  cbn [fst]. etrans; [|exact Hv].
  destruct (touch_entry_spec k (set_server (bump_stat keyspace_hits) (expire_if_needed k c).1)) as (Hs & _ & Hv2 & _).
  destruct (decide (k = k')) as [<-|Hk]; [exact Hv2|by apply Hs].
Qed.

(** A read returns the live value of the key, nothing for a key past its
    deadline, and changes nothing a handler can observe: every key's view, the
    command's dirty count, its reply and its propagation stay, and no watcher
    is invalidated unless the read reaped an expired key. *)
Theorem lookup_read_spec k c :
  let '(c', r) := lookup_read k c in
  r = fst <$> view k c /\ (forall k', view k' c' = view k' c) /\ quiet c c' /\
  (~ stale k c -> forall k', version k' c' = version k' c).
Proof.
  pose proof (lookup_read_frame k c) as [_ Hq]. pose proof (lookup_read_result k c) as Hr.
  pose proof (fun k' => lookup_read_view k k' c) as Hv. pose proof (fun Hs k' => lookup_read_version k k' c Hs) as Hver.
  by destruct (lookup_read k c).
Qed.

(** Setting an entry under a fresh WATCH signal, as [insert] does. *)
Lemma insert_local k e : local_to k (fun d => set_entry k e (signal_watch k d)).
Proof. apply (local_compose k (run_op (OpSignal k)) (run_op (OpSet k e))); by apply run_op_local. Qed.

Lemma signal_dict k d : dict (signal_watch k d) = dict d.
Proof. unfold signal_watch. by repeat case_match. Qed.

Lemma signal_version k d v :
  db_ok d -> watch d !! k = Some v -> exists v', watch (signal_watch k d) !! k = Some v' /\ v < v'.
Proof.
  intros [_ Hw _] Hv. specialize (Hw k v Hv). unfold signal_watch. case_decide as E; [by rewrite E in Hv|].
  rewrite Hv. simpl. rewrite lookup_insert_eq. eexists; split; [done|lia].
Qed.

Lemma insert_frame k o e c : same_but k c (insert k o e c).
Proof. etrans; [apply count_dirty_same|]. eapply upd_same_but; [intros s; by rewrite upd_db_dbs|apply insert_local]. Qed.

(** The watchers of [k] will see that it changed. *)
Definition watchers_told k c c' : Prop :=
  guards_ok (shards c) -> forall v, version k c = Some v -> exists v', version k c' = Some v' /\ v < v'.

Lemma insert_view k o e c k' :
  covered k c ->
  view k' (insert k o e c) = if decide (k = k') then live (now_ms c) (entry_new o e (now_ms c) (lfu c)) else view k' c.
Proof.
  intros [d Hd]. destruct (decide (k = k')) as [<-|Hk]; [|by apply (same_but_view k k' c); [apply insert_frame|]].
  unfold view, insert. erewrite entry_upd by (intros s; by rewrite upd_db_dbs).
  change (key_db k (count_dirty c)) with (key_db k c). rewrite Hd. simpl. by rewrite lookup_insert_eq.
Qed.

(** Inserting a key makes its view the new object and deadline (nothing,
    when the deadline has passed), leaves every other key as it was, counts
    one modification and invalidates the key's watchers. *)
Theorem ctx_insert_spec k o e c k' :
  covered k c ->
  let c' := insert k o e c in
  view k' c' = (if decide (k = k') then live (now_ms c) (entry_new o e (now_ms c) (lfu c)) else view k' c) /\
  dirty c' = dirty c + 1 /\ out c' = out c /\ watchers_told k c c'.
Proof.
  intros Hc. cbv zeta. split_and!; [by apply insert_view|done|done|].
  destruct Hc as [d Hd]. intros Hok v Hv. unfold insert. erewrite version_upd by (intros s; by rewrite upd_db_dbs).
  change (key_db k (count_dirty c)) with (key_db k c). unfold version in Hv. rewrite Hd in *. simpl in *.
  apply signal_version; [by eapply key_db_ok|done].
Qed.

(** Removing a key answers whether it was live, leaves it absent and every
    other key as it was; a removal counts one modification and invalidates
    the key's watchers, a miss counts nothing. *)
Theorem ctx_remove_spec k c k' :
  let '(c', r) := remove k c in
  r = bool_decide (is_Some (view k c)) /\
  view k' c' = (if decide (k = k') then None else view k' c) /\
  dirty c' = dirty c + (if r then 1 else 0) /\ out c' = out c.
Proof.
  unfold remove. set (c1 := (expire_if_needed k c).1).
  destruct (expire_if_needed_spec k c) as (Hs & Hq & _). destruct (expired_entry k c) as [Hv _]. fold c1 in Hs, Hq, Hv.
  assert (match key_db k c1 with Some d => bool_decide (is_Some (remove_entry k d).2) | None => false end
          = bool_decide (is_Some (view k c))) as Hr.
  { rewrite Hv, (bool_decide_ext _ _ (fmap_is_Some _ _)). unfold entry. by destruct (key_db k c1). }
  rewrite Hr. set (c2 := upd_key_db k (fun d => (remove_entry k d).1) c1).
  assert (same_but k c1 c2) as Hs2 by (by eapply upd_same_but; [done|]; apply (run_op_local k (OpRemove k))).
  assert (entry k c2 = None) as He.
  { unfold c2, upd_key_db. erewrite entry_upd by done. destruct (key_db k c1); [|done]. simpl. apply lookup_delete_eq. }
  destruct (bool_decide (is_Some (view k c))); split_and!; try (apply Hq || done).
  - set (c3 := set_shards _ c2).
    assert (same_but k c2 c3) as Hs3 by (eapply upd_same_but; [done|by apply (run_op_local k (OpSignal k))]).
    destruct (decide (k = k')) as [<-|Hk].
    + unfold view. change (entry k (count_dirty c3)) with (entry k c3). unfold c3. erewrite entry_upd by done.
      unfold entry in He. destruct (key_db k c2) as [d|]; [|done]. simpl in *. by rewrite signal_dict, He.
    + change (view k' c3 = view k' c). by rewrite (same_but_view k k' c2 c3), (same_but_view k k' c1 c2), (same_but_view k k' c c1).
  - change (dirty c1 + 1 = dirty c + 1). by rewrite (q_dirty _ _ Hq).
  - destruct (decide (k = k')) as [<-|Hk]; [unfold view; by rewrite He|].
    by rewrite (same_but_view k k' c1 c2), (same_but_view k k' c c1).
  - change (dirty c1 = dirty c + 0). rewrite (q_dirty _ _ Hq). lia.
Qed.

Lemma signal_modified_view k k' c : view k' (signal_modified k c) = view k' c.
Proof.
  destruct (signal_modified_spec k c) as (Hs & He & _). destruct (decide (k = k')) as [<-|Hk].
  - unfold view. by rewrite He.
  - by apply (same_but_view k k' c).
Qed.

(** Setting or clearing a deadline answers whether the key was live; it
    then has its object with the new deadline (and is gone if that has
    passed), every other key stays, and it counts as one modification; on a
    missing key nothing changes. *)
Theorem ctx_set_expire_spec k a c k' :
  let '(c', r) := ctx_set_expire k a c in
  r = bool_decide (is_Some (view k c)) /\
  view k' c' = (if decide (k = k') then
                  '(o, _) ← view k c;
                  if match a with Some at_ => bool_decide (at_ <= now_ms c) | None => false end then None else Some (o, a)
                else view k' c) /\
  dirty c' = dirty c + (if r then 1 else 0) /\ out c' = out c.
Proof.
  unfold ctx_set_expire. set (c1 := (expire_if_needed k c).1).
  destruct (expire_if_needed_spec k c) as (Hs & Hq & _). destruct (expired_entry k c) as [Hv _]. fold c1 in Hs, Hq, Hv.
  assert (match key_db k c1 with Some d => (set_expire k a d).2 | None => false end
          = bool_decide (is_Some (view k c))) as Hr.
  { rewrite Hv, (bool_decide_ext _ _ (fmap_is_Some _ _)). unfold entry. destruct (key_db k c1) as [d|]; simpl; [|done].
    unfold set_expire. by destruct (dict d !! k). }
  rewrite Hr. set (c2 := upd_key_db k (fun d => (set_expire k a d).1) c1).
  assert (same_but k c1 c2) as Hs2 by (by eapply upd_same_but; [done|]; apply (run_op_local k (OpExpire k a))).
  assert (entry k c2 = (fun e => {| obj := obj e; expire_at_ms := a; lru := lru e |}) <$> entry k c1) as He.
  { unfold c2, upd_key_db. erewrite entry_upd by done. unfold entry. destruct (key_db k c1) as [d|]; simpl; [|done].
    unfold set_expire. destruct (dict d !! k) eqn:E; simpl; [by rewrite lookup_insert_eq|done]. }
  assert (forall k', view k' c2 = if decide (k = k') then
                  '(o, _) ← view k c;
                  if match a with Some at_ => bool_decide (at_ <= now_ms c) | None => false end then None else Some (o, a)
                else view k' c) as Hv2.
  { intros k2. case_decide as Hk; [subst k2|by rewrite (same_but_view k k2 c1 c2), (same_but_view k k2 c c1)].
    rewrite Hv. unfold view. rewrite He, (sb_now _ _ _ Hs2), (sb_now _ _ _ Hs). by destruct (entry k c1). }
  destruct (bool_decide (is_Some (view k c))); split_and!; try (apply Hq || done).
  - by rewrite signal_modified_view.
  - change (dirty c1 + 1 = dirty c + 1). by rewrite (q_dirty _ _ Hq).
  - change (dirty c1 = dirty c + 0). rewrite (q_dirty _ _ Hq). lia.
Qed.

Lemma peek_type_entry k c : peek_type k c = (fun e => type_id (obj e)) <$> entry k c.
Proof. done. Qed.

(** The mutable typed accessor finds the live object of its type, nothing
    for a missing key, and [WRONGTYPE] otherwise; a modification is counted
    only when it hands an object out, and no key's view changes. *)
Theorem get_typed_spec {T} (ty : Z) (proj : Robj -> option T) k c :
  (forall o, is_Some (proj o) <-> type_id o = ty) ->
  let '(c', r) := get_typed ty proj k c in
  r = match view k c with
      | None => inr None
      | Some (o, _) => match proj o with Some t => inr (Some t) | None => inl WrongType end
      end /\
  (forall k', view k' c' = view k' c) /\
  dirty c' = dirty c + match r with inr (Some _) => 1 | _ => 0 end.
Proof.
  intros Hp. unfold get_typed. set (c1 := (expire_if_needed k c).1).
  destruct (expire_if_needed_spec k c) as (_ & Hq & _). destruct (expired_entry k c) as [Hv _]. fold c1 in Hq, Hv.
  assert (forall k', view k' c1 = view k' c) as Hv1 by (intros; apply expire_view).
  rewrite peek_type_entry, Hv. destruct (entry k c1) as [e|] eqn:He; simpl.
  2: { split_and!; [done|done|]. rewrite (q_dirty _ _ Hq). lia. }
  destruct (decide (type_id (obj e) = ty)) as [Ht|Ht].
  2: { destruct (proj (obj e)) eqn:E; [by destruct Ht; apply Hp|].
       split_and!; [done|done|]. rewrite (q_dirty _ _ Hq). lia. }
  set (c2 := signal_modified k c1). destruct (signal_modified_spec k c1) as (_ & He2 & Hd2 & _). fold c2 in He2, Hd2.
  assert (touch_for_write k c2 = touch_entry k c2) as ->.
  { unfold touch_for_write. fold (entry k c2). by rewrite He2, He. }
  destruct (touch_entry_spec k c2) as (_ & Hq3 & _ & f & He3 & Hf). set (c3 := touch_entry k c2) in *.
  fold (entry k c3). rewrite He3, He2, He. simpl. destruct (Hf e) as [-> _].
  destruct (proj (obj e)) eqn:E; [|by apply Hp in Ht as [? ?]; congruence].
  split_and!; [done| |].
  - intros k'. unfold c3. rewrite touch_view. unfold c2. rewrite signal_modified_view. apply Hv1.
  - rewrite (q_dirty _ _ Hq3), Hd2, (q_dirty _ _ Hq). lia.
Qed.

(** ** Everything a handler can do to the keyspace *)

Inductive CtxOp :=
| DoRead (k : Key) | DoWrite (k : Key) | DoExists (k : Key) | DoExpireAt (k : Key)
| DoSetExpire (k : Key) (at_ms : option Z) | DoInsert (k : Key) (o : Robj) (at_ms : option Z) | DoRemove (k : Key)
| DoGetStr (k : Key) | DoSignal (k : Key) | DoNotify (class : NotifyClass) (event : bytes) (k : Key)
| DoPropagate (argv : list bytes) | DoPropagateNone | DoReply (f : ReplyWriter -> ReplyWriter) | DoFlush.

Definition run_ctx_op (op : CtxOp) (c : Ctx) : Ctx :=
  match op with
  | DoRead k => (lookup_read k c).1
  | DoWrite k => (lookup_write k c).1
  | DoExists k => (exists_ k c).1
  | DoExpireAt k => (expire_at k c).1
  | DoSetExpire k a => (ctx_set_expire k a c).1
  | DoInsert k o a => insert k o a c
  | DoRemove k => (remove k c).1
  | DoGetStr k => (get_str k c).1
  | DoSignal k => signal_modified k c
  | DoNotify class event k => notify class event k c
  | DoPropagate argv => propagate_argv argv c
  | DoPropagateNone => propagate_none c
  | DoReply f => set_out f c
  | DoFlush => for_each_db clear c
  end.

Definition run_ctx_ops (ops : list CtxOp) (c : Ctx) : Ctx := foldl (fun c op => run_ctx_op op c) c ops.

Lemma upd_ok k F c :
  (forall s, dbs_ok s -> dbs_ok (F s)) -> guards_ok (shards c) -> guards_ok (upd_for_key k F (shards c)).
Proof.
  intros HF. unfold guards_ok. simpl. rewrite Forall_fmap. intros Hg. eapply Forall_impl; [exact Hg|].
  intros [n s] Hs. simpl in *. case_decide; simpl; auto.
Qed.

Lemma upd_db_ok n f s : (forall d, db_ok d -> db_ok (f d)) -> dbs_ok s -> dbs_ok (upd_db n f s).
Proof. intros Hf Hs. unfold dbs_ok. rewrite upd_db_dbs. by apply Forall_alter; [|auto]. Qed.

Lemma signal_modified_ok k c : guards_ok (shards c) -> guards_ok (shards (signal_modified k c)).
Proof. apply (signal_modified_spec k c). Qed.

Lemma touch_entry_ok k c : guards_ok (shards c) -> guards_ok (shards (touch_entry k c)).
Proof. apply (touch_entry_spec k c). Qed.

Lemma expire_ok k c : guards_ok (shards c) -> guards_ok (shards (expire_if_needed k c).1).
Proof. apply (expire_if_needed_spec k c). Qed.

Lemma lookup_read_ok k c : guards_ok (shards c) -> guards_ok (shards (lookup_read k c).1).
Proof. apply (lookup_read_frame k c). Qed.

Lemma insert_ok k o a c : guards_ok (shards c) -> guards_ok (shards (insert k o a c)).
Proof. apply (insert_frame k o a c). Qed.

#[local] Hint Resolve signal_modified_ok touch_entry_ok expire_ok lookup_read_ok insert_ok : ctx_ok.

Lemma lookup_write_ok k c : guards_ok (shards c) -> guards_ok (shards (lookup_write k c).1).
Proof.
  intros Hc%(expire_ok k). unfold lookup_write. revert Hc. generalize (expire_if_needed k c).1 as c1. intros c1 Hc.
  destruct (negb _); [done|]. cbv zeta. destruct (_ ≫= _); cbn [fst]; eauto with ctx_ok.
Qed.

Lemma get_str_ok k c : guards_ok (shards c) -> guards_ok (shards (get_str k c).1).
Proof.
  intros Hc%(expire_ok k). unfold get_str, get_typed. revert Hc. generalize (expire_if_needed k c).1 as c1. intros c1 Hc.
  destruct (peek_type k c1); [|done]. destruct (decide _); [|done]. cbv zeta.
  assert (guards_ok (shards (touch_for_write k (signal_modified k c1)))) as Ht.
  { unfold touch_for_write. destruct (_ ≫= _); eauto with ctx_ok. }
  destruct (_ ≫= _); [|done]. by destruct (proj_str _).
Qed.

Lemma remove_ok k c : guards_ok (shards c) -> guards_ok (shards (remove k c).1).
Proof.
  intros Hc%(expire_ok k). unfold remove.
  assert (guards_ok (shards (upd_key_db k (fun d => (remove_entry k d).1) (expire_if_needed k c).1))) as Hr.
  { apply upd_ok; [|done]. intros s. apply upd_db_ok. intros d. apply (run_op_ok (OpRemove k)). }
  revert Hr. generalize (upd_key_db k (fun d => (remove_entry k d).1) (expire_if_needed k c).1) as c2. intros c2 Hr.
  case_match; cbn [fst]; [|done].
  apply (upd_ok k _ c2); [|done]. intros s Hs. apply upd_db_ok; [apply signal_watch_ok|done].
Qed.

Lemma set_expire_ok k a c : guards_ok (shards c) -> guards_ok (shards (ctx_set_expire k a c).1).
Proof.
  intros Hc%(expire_ok k). unfold ctx_set_expire.
  assert (guards_ok (shards (upd_key_db k (fun d => (set_expire k a d).1) (expire_if_needed k c).1))) as Hr.
  { apply upd_ok; [|done]. intros s. apply upd_db_ok. intros d. apply (run_op_ok (OpExpire k a)). }
  cbn [fst]. case_match; eauto with ctx_ok.
Qed.

Lemma flush_ok c : guards_ok (shards c) -> guards_ok (shards (for_each_db clear c)).
Proof.
  unfold guards_ok. simpl. rewrite Forall_fmap. intros Hg. eapply Forall_impl; [exact Hg|].
  intros [n s] Hs. apply upd_db_ok; [|done]. intros d. apply (run_op_ok OpClear).
Qed.

#[local] Hint Resolve lookup_write_ok get_str_ok remove_ok set_expire_ok flush_ok : ctx_ok.

(** Whatever a handler does with the context, every locked database keeps
    its invariant: the expiry index is the deadlines of the entries and no
    WATCH counter is ahead of the sequence it was drawn from. *)
Theorem ctx_ops_db_ok (ops : list CtxOp) c : guards_ok (shards c) -> guards_ok (shards (run_ctx_ops ops c)).
Proof.
  revert c. induction ops as [|op ops IH]; intros c Hc; [done|]. apply IH. clear IH.
  destruct op; cbn [run_ctx_op]; try done; eauto with ctx_ok.
  - by apply expire_ok.
  - by apply expire_ok.
  - unfold notify. by case_match.
  - unfold propagate_argv. by case_match.
Qed.

(** The shards of a fresh server satisfy the invariant. *)
Lemma fresh_ok count databases : guards_ok (lock_all (shard_map_new count databases)).
Proof.
  unfold guards_ok. apply Forall_lookup. intros i p. simpl. rewrite list_lookup_imap, list_lookup_fmap.
  intros (h & (j & _ & ->)%fmap_Some & ->)%fmap_Some. simpl. unfold dbs_ok. simpl. apply Forall_fmap, Forall_forall.
  intros n _. apply db_new_ok.
Qed.
End facts.

(** ** Witnesses *)

Section witnesses.
#[local] Existing Instances memchr_find itoa_model.
#[local] Instance no_draws : Fastrand := {| fastrand_f64 _ := f64_of_i64 0; fastrand_usize _ _ := 0%nat; fastrand_u64 _ := 0 |}.

Definition demo_config : Config := config_default.
Definition demo_shared : Shared :=
  {| stats := stats_new; server_dirty := 0; propagation_enabled := true; sink_installed := false; published := []; draws := 0; config_handle := demo_config; registry := ∅ |}.
Definition demo_ctx : Ctx :=
  ctx_new {| buf := []; proto := RESP2 |} (client_new 1 [] [] 0 false) demo_shared
    (lock_all (shard_map_new 4 16)) demo_config 1000 (shard_map_new 4 16).

Lemma ctx_insert_spec_witness :
  covered (bs "k") demo_ctx /\
  view (bs "k") (insert (bs "k") (Str (Int 7)) (Some 1001) demo_ctx) = Some (Str (Int 7), Some 1001).
Proof.
  assert (covered (bs "k") demo_ctx) as Hc by (vm_compute; eauto). split; [exact Hc|].
  destruct (ctx_insert_spec (bs "k") (Str (Int 7)) (Some 1001) demo_ctx (bs "k") Hc) as [E _].
  etrans; [exact E|reflexivity].
Defined.

Lemma get_typed_spec_witness :
  (get_typed 0 proj_str (bs "k") (insert (bs "k") (List list_obj) None demo_ctx)).2 = inl WrongType.
Proof.
  pose proof (get_typed_spec 0 proj_str (bs "k") (insert (bs "k") (List list_obj) None demo_ctx)) as E.
  destruct (get_typed _ _ _ _) as [c' r]. destruct E as [-> _]; [|reflexivity].
  intros []; simpl; split; naive_solver.
Defined.

Lemma ctx_ops_db_ok_witness :
  guards_ok (shards (run_ctx_ops [DoInsert (bs "k") (Str (Int 7)) (Some 1001); DoRead (bs "k"); DoRemove (bs "k")] demo_ctx)).
Proof.
  apply ctx_ops_db_ok. apply fresh_ok.
Defined.
End witnesses.
