(* ===== verification/StringCmd.v ===== *)
(** * String commands ([src/command/string.rs])

    [SET] with its full option set, [GET], [STRLEN], [MGET] and [MSET], as
    programs of a small state-and-error monad over the context: a handler that
    fails keeps what it had already done to the context, and the engine
    discards its reply. *)
From S2P Require Import Prelude Config Crc Strnum Object Shard Errors Reply Notify Commands Dtoa Client Registry Ctx.
Open Scope Z_scope.

(** ** The handlers' monad *)

Definition M (A : Type) : Type := Ctx -> Ctx * (CmdError + A).

#[export] Instance M_ret : MRet M := fun A x c => (c, inr x).
#[export] Instance M_bind : MBind M := fun A B f m c =>
  let '(c, r) := m c in match r with inl e => (c, inl e) | inr x => f x c end.

(** [?] on a pure [Result]; methods of the context that always succeed. *)
Definition try_ {A} (r : CmdError + A) : M A := fun c => (c, r).
Definition call {A} (f : Ctx -> Ctx * A) : M A := fun c => let '(c, x) := f c in (c, inr x).
Definition do_ (f : Ctx -> Ctx) : M unit := fun c => (f c, inr tt).
Definition ask {A} (f : Ctx -> A) : M A := fun c => (c, inr (f c)).

(** A handler: what a [CommandSpec] runs. *)
Definition CmdHandler : Type := Args -> M unit.

(** ** Values detached from the keyspace *)

Inductive StrValue := RawValue (b : bytes) | IntValue (v : Z).

Definition detach (o : StrObj) : StrValue :=
  match as_slice o with Some b => RawValue b | None => IntValue (default 0 (as_i64 o)) end.

Record SetOptions := {
  nx : bool; xx : bool; get_ : bool; keepttl : bool; opt_expire_at_ms : option Z; has_expire : bool
}.

Definition default_options : SetOptions :=
  {| nx := false; xx := false; get_ := false; keepttl := false; opt_expire_at_ms := None; has_expire := false |}.

Definition is_tok (tok : bytes) (kw : bytes) : bool := eq_ignore_ascii_case tok kw.

Definition invalid_expire : CmdError := err (bs "invalid expire time in 'set' command").

(** [i64]: [checked_mul] and [saturating_add]. *)
Definition checked_mul (a b : Z) : option Z := if decide (I64_MIN <= a * b <= I64_MAX) then Some (a * b) else None.
Definition saturating_add (a b : Z) : Z := Z.max I64_MIN (Z.min I64_MAX (a + b)).

(** The deadline an expiry option stands for. *)
Definition resolve_expire (tok raw : bytes) (now_ms : Z) : CmdError + Z :=
  match string2ll raw with
  | None => inl NotAnInteger
  | Some v =>
      let is_relative := is_tok tok (bs "EX") || is_tok tok (bs "PX") in
      let is_seconds := is_tok tok (bs "EX") || is_tok tok (bs "EXAT") in
      if is_relative && bool_decide (v <= 0) then inl invalid_expire
      else
        match (if is_seconds then checked_mul v 1000 else Some v) with
        | None => inl invalid_expire
        | Some ms =>
            let at_ := if is_relative then saturating_add (wraps 64 now_ms) ms else ms in
            inr (Z.max at_ 0)
        end
  end.

(** The loop of [parse_set_options], on the arguments from position [i]. *)
Fixpoint parse_options_from (toks : list bytes) (now_ms : Z) (o : SetOptions) : CmdError + SetOptions :=
  match toks with
  | [] => inr o
  | tok :: toks =>
      if is_tok tok (bs "NX") then
        if xx o then inl Syntax
        else parse_options_from toks now_ms
               {| nx := true; xx := xx o; get_ := get_ o; keepttl := keepttl o;
                  opt_expire_at_ms := opt_expire_at_ms o; has_expire := has_expire o |}
      else if is_tok tok (bs "XX") then
        if nx o then inl Syntax
        else parse_options_from toks now_ms
               {| nx := nx o; xx := true; get_ := get_ o; keepttl := keepttl o;
                  opt_expire_at_ms := opt_expire_at_ms o; has_expire := has_expire o |}
      else if is_tok tok (bs "GET") then
        parse_options_from toks now_ms
          {| nx := nx o; xx := xx o; get_ := true; keepttl := keepttl o;
             opt_expire_at_ms := opt_expire_at_ms o; has_expire := has_expire o |}
      else if is_tok tok (bs "KEEPTTL") then
        if has_expire o then inl Syntax
        else parse_options_from toks now_ms
               {| nx := nx o; xx := xx o; get_ := get_ o; keepttl := true;
                  opt_expire_at_ms := opt_expire_at_ms o; has_expire := has_expire o |}
      else if is_tok tok (bs "EX") || is_tok tok (bs "PX") || is_tok tok (bs "EXAT") || is_tok tok (bs "PXAT") then
        if has_expire o || keepttl o then inl Syntax
        else
          match toks with
          | [] => inl Syntax
          | raw :: toks =>
              match resolve_expire tok raw now_ms with
              | inl e => inl e
              | inr at_ =>
                  parse_options_from toks now_ms
                    {| nx := nx o; xx := xx o; get_ := get_ o; keepttl := keepttl o;
                       opt_expire_at_ms := Some at_; has_expire := true |}
              end
          end
      else inl Syntax
  end.

Definition parse_set_options (args : Args) (now_ms : Z) : CmdError + SetOptions :=
  parse_options_from (drop 3 args) now_ms default_options.

Section handlers.
Context `{Memchr, Itoa, Ryu, Fastrand}.

Definition write_value (v : option StrValue) (w : ReplyWriter) : ReplyWriter :=
  match v with
  | None => null w
  | Some (RawValue b) => bulk_from b w
  | Some (IntValue i) => bulk_i64 i w
  end.
Definition write_opt (v : option StrValue) : M unit := do_ (set_out (write_value v)).

Definition read_str (key : Key) : M (option StrObj) := get_str_read key.

Definition cmd_get : CmdHandler := fun args =>
  key ← try_ (at_ args 1);
  value ← read_str key;
  write_opt (detach <$> value).

Definition cmd_strlen : CmdHandler := fun args =>
  key ← try_ (at_ args 1);
  o ← read_str key;
  do_ (set_out (int (wraps 64 (match o with Some o => str_len o | None => 0 end)))).

Definition cmd_set : CmdHandler := fun args =>
  key ← try_ (at_ args 1);
  value ← try_ (at_ args 2);
  now ← ask now_ms;
  opts ← try_ (parse_set_options args now);
  old ← (if get_ opts then v ← read_str key; mret (Some (detach <$> v)) else mret None);
  ex ← call (exists_ key);
  if (nx opts && ex) || (xx opts && negb ex) then
    do_ propagate_none;;
    match old with Some v => write_opt v | None => do_ (set_out null) end
  else
    expire_at ← (if keepttl opts then call (expire_at key) else mret (opt_expire_at_ms opts));
    do_ (insert key (Str (from_bytes value)) expire_at);;
    do_ (notify STRING (bs "set") key);;
    (match expire_at with
     | Some at_ => do_ (propagate_argv [bs "SET"; key; value; bs "PXAT"; itoa_format at_])
     | None => mret tt
     end);;
    match old with Some v => write_opt v | None => do_ (set_out ok) end.

(** The loop of [MGET]: a wrong type replies nil. *)
Fixpoint mget_loop (keys : list bytes) : M unit :=
  match keys with
  | [] => mret tt
  | key :: keys =>
      r ← (fun c => let '(c, r) := read_str key c in (c, inr r) : Ctx * (CmdError + (CmdError + option StrObj)));
      write_opt (detach <$> match r with inr o => o | inl _ => None end);;
      mget_loop keys
  end.

Definition cmd_mget : CmdHandler := fun args =>
  do_ (set_out (array (Z.max 0 (blen args - 1))));;
  mget_loop (drop 1 args).

(** The loop of [MSET], on the arguments from position [i]. *)
Fixpoint mset_loop (kvs : list bytes) : M unit :=
  match kvs with
  | key :: value :: kvs =>
      do_ (insert key (Str (from_bytes value)) None);;
      do_ (notify STRING (bs "set") key);;
      mset_loop kvs
  | _ => mret tt
  end.

Definition cmd_mset : CmdHandler := fun args =>
  if decide (blen args < 3 \/ (blen args - 1) mod 2 <> 0) then try_ (inl (WrongArity (bs "mset")))
  else mset_loop (drop 1 args);; do_ (set_out ok).

(** [register] *)
Definition set_spec : CommandSpec CmdHandler :=
  {| name := bs "set"; arity := -3; flags := Z.lor WRITE DENYOOM; first_key := 1; last_key := 1; key_step := 1;
     handler := cmd_set; get_keys := None |}.
Definition get_spec : CommandSpec CmdHandler :=
  {| name := bs "get"; arity := 2; flags := Z.lor READONLY FAST; first_key := 1; last_key := 1; key_step := 1;
     handler := cmd_get; get_keys := None |}.
Definition strlen_spec : CommandSpec CmdHandler :=
  {| name := bs "strlen"; arity := 2; flags := Z.lor READONLY FAST; first_key := 1; last_key := 1; key_step := 1;
     handler := cmd_strlen; get_keys := None |}.
Definition mget_spec : CommandSpec CmdHandler :=
  {| name := bs "mget"; arity := -2; flags := Z.lor READONLY FAST; first_key := 1; last_key := -1; key_step := 1;
     handler := cmd_mget; get_keys := None |}.
Definition mset_spec : CommandSpec CmdHandler :=
  {| name := bs "mset"; arity := -3; flags := Z.lor WRITE DENYOOM; first_key := 1; last_key := -1; key_step := 2;
     handler := cmd_mset; get_keys := None |}.
Definition register (t : CommandTable) : option (CommandTable (Handler := CmdHandler)) :=
  add_all [set_spec; get_spec; strlen_spec; mget_spec; mset_spec] t.
End handlers.

(** ** Facts *)

Section facts.
Context `{Memchr, ItoaLaws, Ryu, Fastrand}.

Lemma bind_eq {A B} (m : M A) (f : A -> M B) c :
  (m ≫= f) c = let '(c', r) := m c in match r with inl e => (c', inl e) | inr x => f x c' end.
Proof. done. Qed.

(** The value a string object is reported as. *)
Lemma detach_bulk (o : StrObj) (w : ReplyWriter) : write_value (Some (detach o)) w = bulk (to_bytes o) w.
Proof. by destruct o. Qed.

(** How a reply shows a key that must hold a string. *)
Definition reply_value (v : option (Robj * option Z)) : option bytes :=
  '(o, _) ← v; to_bytes <$> proj_str o.
Definition wrong_type (v : option (Robj * option Z)) : bool :=
  match v with Some (o, _) => negb (bool_decide (is_Some (proj_str o))) | None => false end.
Definition write_bulk (b : option bytes) (w : ReplyWriter) : ReplyWriter :=
  match b with Some b => bulk b w | None => null w end.


(** [get_str_read] on the view. *)
Lemma read_str_spec k c :
  let '(c', r) := read_str k c in
  (forall k', view k' c' = view k' c) /\ quiet c c' /\ same_but k c c' /\
  r = (if wrong_type (view k c) then inl WrongType else inr ('(o, _) ← view k c; proj_str o)).
Proof.
  unfold read_str, get_str_read, get_typed_read.
  pose proof (lookup_read_frame k c) as [Hs Hq]. pose proof (lookup_read_result k c) as Hr.
  pose proof (fun k' => lookup_read_view k k' c) as Hv. destruct (lookup_read k c) as [c' r]. simpl in *. subst r.
  split_and!; try done. unfold wrong_type. destruct (view k c) as [[o x]|]; simpl; [|done]. by destruct o.
Qed.

Lemma exists_spec k c :
  let '(c', r) := exists_ k c in
  (forall k', view k' c' = view k' c) /\ quiet c c' /\ same_but k c c' /\ r = bool_decide (is_Some (view k c)).
Proof.
  unfold exists_. destruct (expire_if_needed_spec k c) as (Hs & Hq & _). destruct (expired_entry k c) as [Hv _].
  split_and!; [intros; apply expire_view|done..|]. rewrite Hv, (bool_decide_ext _ _ (fmap_is_Some _ _)).
  unfold exists_now, entry. by destruct (key_db _ _).
Qed.

Lemma expire_at_spec k c :
  let '(c', r) := expire_at k c in
  (forall k', view k' c' = view k' c) /\ quiet c c' /\ same_but k c c' /\ r = view k c ≫= snd.
Proof.
  unfold expire_at. destruct (expire_if_needed_spec k c) as (Hs & Hq & _). destruct (expired_entry k c) as [Hv _].
  split_and!; [intros; apply expire_view|done..|]. rewrite Hv. unfold entry.
  destruct (key_db _ _) as [d|]; simpl; [|done]. by destruct (dict d !! k).
Qed.

(** [GET] replies the live value's bytes as one bulk string, the null of
    the protocol in force when the key is missing or past its deadline, and
    fails with [WRONGTYPE], writing nothing, on any other type; it changes no
    key and counts no modification. *)
Theorem cmd_get_spec args key c :
  args !! 1%nat = Some key ->
  let '(c', r) := cmd_get args c in
  (forall k, view k c' = view k c) /\ dirty c' = dirty c /\
  (if wrong_type (view key c) then r = inl WrongType /\ out c' = out c
   else r = inr tt /\ out c' = write_bulk (reply_value (view key c)) (out c)).
Proof.
  intros Hk. unfold cmd_get. rewrite bind_eq. unfold try_, at_. rewrite Hk, bind_eq.
  pose proof (read_str_spec key c) as Hr. destruct (read_str key c) as [c' r].
  destruct Hr as (Hv & Hq & _ & ->). destruct (wrong_type (view key c)); cbn.
  { split_and!; [done|apply Hq|done|apply Hq]. }
  split_and!; [done|apply Hq|done|]. rewrite (q_out _ _ Hq). unfold reply_value.
  destruct (view key c) as [[o x]|]; cbn; [|done]. destruct (proj_str o) as [s|]; [|done]. apply detach_bulk.
Qed.

Lemma wrong_type_reply v : wrong_type v = false -> write_value (detach <$> ('(o, _) ← v; proj_str o)) = write_bulk (reply_value v).
Proof. unfold reply_value. destruct v as [[[] x]|]; cbn; try done. by destruct o. Qed.

(** The deadline [SET] gives the key: the old one under [KEEPTTL]. *)
Definition set_deadline (o : SetOptions) (v : option (Robj * option Z)) : option Z :=
  if keepttl o then v ≫= snd else opt_expire_at_ms o.
(** [NX] or [XX] says no. *)
Definition set_refused (o : SetOptions) (v : option (Robj * option Z)) : bool :=
  (nx o && bool_decide (is_Some v)) || (xx o && negb (bool_decide (is_Some v))).

(** The argument vector a [SET] with a deadline leaves for the AOF and replicas. *)
Definition set_pxat (key value : bytes) (t : Z) : list bytes := [bs "SET"; key; value; bs "PXAT"; itoa_format t].

Lemma write_opt_eq v c : write_opt v c = (set_out (write_value v) c, inr tt).
Proof. done. Qed.

(** The part of [SET] after the options and the old value are known. *)
Definition set_core key value (o : SetOptions) (old : option (option StrValue)) : M unit :=
  ex ← call (exists_ key);
  if (nx o && ex) || (xx o && negb ex) then
    do_ propagate_none;;
    match old with Some v => write_opt v | None => do_ (set_out null) end
  else
    expire_at ← (if keepttl o then call (expire_at key) else mret (opt_expire_at_ms o));
    do_ (insert key (Str (from_bytes value)) expire_at);;
    do_ (notify STRING (bs "set") key);;
    (match expire_at with
     | Some at_ => do_ (propagate_argv [bs "SET"; key; value; bs "PXAT"; itoa_format at_])
     | None => mret tt
     end);;
    match old with Some v => write_opt v | None => do_ (set_out ok) end.

Lemma set_core_refused key value o old c :
  set_refused o (view key c) = true ->
  exists c', set_core key value o old c = (c', inr tt) /\ same_but key c c' /\ (forall k, view k c' = view k c) /\
    dirty c' = dirty c /\ prop c' = Suppressed /\
    out c' = (match old with Some v => write_value v (out c) | None => null (out c) end).
Proof.
  intros Hr. unfold set_core. rewrite bind_eq. unfold call. pose proof (exists_spec key c) as He.
  destruct (exists_ key c) as [c1 ex]. destruct He as (Hv & Hq & Hs & ->). fold (set_refused o (view key c)). rewrite Hr.
  rewrite bind_eq. unfold do_. rewrite <-(q_out _ _ Hq), <-(q_dirty _ _ Hq).
  destruct old as [v|]; [rewrite write_opt_eq|]; (eexists; split; [done|]);
    (split_and!; [etrans; [exact Hs|by constructor]|intros k; apply Hv|done..]).
Qed.

Lemma notify_same k class event k0 c : view k (notify class event k0 c) = view k c /\ quiet c (notify class event k0 c).
Proof. unfold notify. by case_match. Qed.

Lemma notify_entry k class event k0 c : entry k (notify class event k0 c) = entry k c.
Proof. unfold notify. by case_match. Qed.

Lemma notify_frame k class event k0 c : same_but k c (notify class event k0 c).
Proof. unfold notify. case_match; [done|apply set_server_same]. Qed.

Lemma propagate_argv_same argv c :
  let c' := propagate_argv argv c in
  shards c' = shards c /\ client c' = client c /\ now_ms c' = now_ms c /\ cfg c' = cfg c /\
  server_shards c' = server_shards c /\ block c' = block c.
Proof. unfold propagate_argv. by case_match. Qed.

Lemma propagate_argv_view k argv c : view k (propagate_argv argv c) = view k c.
Proof. unfold propagate_argv. by case_match. Qed.

Lemma set_core_done key value o old c :
  covered key c -> set_refused o (view key c) = false ->
  let t := set_deadline o (view key c) in
  exists c', set_core key value o old c = (c', inr tt) /\ same_but key c c' /\ block c' = block c /\
    (exists e, entry key c' = Some e /\ obj e = Str (from_bytes value) /\ expire_at_ms e = t) /\
    (forall k, view k c' = if decide (key = k) then live (now_ms c) (entry_new (Str (from_bytes value)) t (now_ms c) (lfu c))
                           else view k c) /\
    dirty c' = dirty c + 1 /\
    out c' = (match old with Some v => write_value v (out c) | None => ok (out c) end) /\
    match t with
    | Some t => prop c' = Explicit /\
        prop_buf c' = prop_buf c ++ if is_propagating (server c) then [set_pxat key value t] else []
    | None => prop c' = prop c /\ prop_buf c' = prop_buf c
    end.
Proof.
  intros Hc Hr. cbv zeta. unfold set_core. rewrite bind_eq. unfold call at 1. pose proof (exists_spec key c) as He.
  destruct (exists_ key c) as [c1 ex]. destruct He as (Hv & Hq & Hs & ->). fold (set_refused o (view key c)). rewrite Hr.
  rewrite bind_eq.
  assert (exists c2, (if keepttl o then call (expire_at key) else mret (opt_expire_at_ms o)) c1
    = (c2, inr (set_deadline o (view key c))) /\ (forall k, view k c2 = view k c) /\ quiet c c2 /\ same_but key c c2)
    as (c2 & -> & Hv2 & Hq2 & Hs2).
  { unfold set_deadline. destruct (keepttl o); [|by exists c1]. unfold call. pose proof (expire_at_spec key c1) as He.
    destruct (expire_at key c1) as [c2 t]. destruct He as (Hv2 & Hq2 & Hs2 & ->). exists c2. rewrite Hv.
    split_and!; [done|intros k; by rewrite Hv2|by etrans|by etrans]. }
  clear c1 Hv Hq Hs. rewrite !bind_eq. unfold do_ at 1. set (t := set_deadline o (view key c)) in *.
  assert (covered key c2) as Hc2 by by apply (sb_covered _ _ _ Hs2).
  set (c3 := insert key (Str (from_bytes value)) t c2). cbn iota beta. rewrite bind_eq. unfold do_ at 1.
  set (c4 := notify STRING (bs "set") key c3). cbn iota beta. rewrite bind_eq.
  assert (Hv4 : forall k, view k c4 = if decide (key = k)
    then live (now_ms c) (entry_new (Str (from_bytes value)) t (now_ms c) (lfu c)) else view k c).
  { intros k. unfold c4. rewrite (proj1 (notify_same _ _ _ _ _)). unfold c3. rewrite insert_view by done.
    by rewrite (sb_now _ _ _ Hs2), (q_lfu _ _ Hq2), Hv2. }
  assert (out c4 = out c /\ dirty c4 = dirty c + 1 /\ prop c4 = prop c /\ prop_buf c4 = prop_buf c /\
    is_propagating (server c4) = is_propagating (server c) /\ block c4 = block c) as (Ho & Hd & Hp & Hb & Hi & Hbl).
  { destruct (notify_same key STRING (bs "set") key c3) as [_ Hq4]. fold c4 in Hq4.
    destruct Hq4 as [-> -> -> -> -> _ ->]. destruct Hq2 as [<- <- <- <- <- _ <-]. done. }
  assert (same_but key c c4) as Hs4.
  { etrans; [exact Hs2|]. etrans; [apply insert_frame|]. apply notify_frame. }
  assert (exists e, entry key c4 = Some e /\ obj e = Str (from_bytes value) /\ expire_at_ms e = t) as He4.
  { subst c4. rewrite notify_entry. destruct Hc2 as [d Hkd]. unfold c3, insert.
    erewrite entry_upd by (intros s; by rewrite upd_db_dbs). change (key_db key (count_dirty c2)) with (key_db key c2).
    rewrite Hkd. simpl. rewrite lookup_insert_eq. by eexists. }
  assert (forall c5 f, shards c5 = shards c4 -> client c5 = client c4 -> now_ms c5 = now_ms c4 -> cfg c5 = cfg c4 ->
    server_shards c5 = server_shards c4 -> same_but key c (set_out f c5) /\ entry key (set_out f c5) = entry key c4) as Hs5.
  { intros c5 f E1 E2 E3 E4 E5. split; [|unfold entry, key_db, db_index; cbn; by rewrite E1, E2]. etrans; [exact Hs4|].
    constructor; unfold entry, entry_at, db_at, version, covered, placed, key_db, db_index; cbn; by rewrite ?E1, ?E2, ?E3, ?E4, ?E5. }
  clearbody c4. clear c3. destruct t as [at_|].
  - unfold do_. cbn iota beta.
    assert (out (propagate_argv (set_pxat key value at_) c4) = out c4 /\
      dirty (propagate_argv (set_pxat key value at_) c4) = dirty c4 /\
      prop (propagate_argv (set_pxat key value at_) c4) = Explicit /\
      prop_buf (propagate_argv (set_pxat key value at_) c4) =
        prop_buf c4 ++ if is_propagating (server c4) then [set_pxat key value at_] else []) as (Ho5 & Hd5 & Hp5 & Hb5).
    { unfold propagate_argv. destruct (is_propagating (server c4)); cbn; by rewrite ?app_nil_r. }
    rewrite Hd, Hb, Hi, Ho in *. rewrite <-Ho5, <-Hd5, <-Hb5.
    destruct old as [v|]; [rewrite write_opt_eq|]; (eexists; split; [done|]);
      destruct (propagate_argv_same (set_pxat key value at_) c4) as (E1 & E2 & E3 & E4 & E5 & E6);
      (split_and!; [by apply Hs5|by rewrite <-Hbl, <-E6|by rewrite (proj2 (Hs5 _ _ E1 E2 E3 E4 E5))
                   |intros k; rewrite <-Hv4; apply (propagate_argv_view k _ c4)|done..]).
  - cbn. rewrite <-Ho, <-Hd, <-Hp, <-Hb.
    destruct old as [v|]; [rewrite write_opt_eq|]; (eexists; split; [done|]);
      (split_and!; [by apply Hs5|done|exact He4|intros k; by rewrite <-Hv4|done..]).
Qed.

Lemma cmd_set_eq args key value o c :
  args !! 1%nat = Some key -> args !! 2%nat = Some value -> parse_set_options args (now_ms c) = inr o ->
  cmd_set args c =
  ((old ← (if get_ o then v ← read_str key; mret (Some (detach <$> v)) else mret None); set_core key value o old) : M unit) c.
Proof.
  intros Hk Hv Ho. unfold cmd_set. rewrite bind_eq. unfold try_ at 1, at_ at 1. rewrite Hk, bind_eq.
  unfold try_ at 1, at_. rewrite Hv, bind_eq. unfold ask. rewrite bind_eq. unfold try_. by rewrite Ho.
Qed.

(** C22: [SET] on any option set: with [GET] on a key of another type it fails
    and does nothing; refused by [NX]/[XX] it changes no key, asks for nothing
    to be propagated and replies the old value or null; otherwise the key holds
    exactly the value with the deadline the options give it ([KEEPTTL]: the old
    one), every other key stays, the reply is the old value or OK, and a
    deadline is propagated as an absolute [PXAT].  Keys are those of the
    client's database as clients see them; an old value that was past its
    deadline is reaped on the way, which logs a DEL of its own. *)
Theorem cmd_set_spec args key value o c :
  args !! 1%nat = Some key -> args !! 2%nat = Some value -> parse_set_options args (now_ms c) = inr o ->
  covered key c ->
  let '(c', r) := cmd_set args c in
  let v := view key c in let t := set_deadline o v in
  if get_ o && wrong_type v then
    r = inl WrongType /\ (forall k, view k c' = view k c) /\ dirty c' = dirty c /\ out c' = out c
  else if set_refused o v then
    r = inr tt /\ (forall k, view k c' = view k c) /\ dirty c' = dirty c /\ prop c' = Suppressed /\
    out c' = write_bulk (if get_ o then reply_value v else None) (out c)
  else
    r = inr tt /\
    (forall k, view k c' = if decide (key = k) then live (now_ms c) (entry_new (Str (from_bytes value)) t (now_ms c) (lfu c))
                           else view k c) /\
    dirty c' = dirty c + 1 /\
    out c' = (if get_ o then write_bulk (reply_value v) (out c) else ok (out c)) /\
    match t with
    | Some t => prop c' = Explicit /\
        prop_buf c' = prop_buf c ++ if is_propagating (server c) then [set_pxat key value t] else []
    | None => prop c' = prop c /\ prop_buf c' = prop_buf c
    end.
Proof.
  intros Hk Hval Ho Hc. rewrite (cmd_set_eq args key value o c Hk Hval Ho), bind_eq. cbv zeta. destruct (get_ o); cbn [andb].
  - rewrite bind_eq. pose proof (read_str_spec key c) as Hr. destruct (read_str key c) as [c1 r].
    destruct Hr as (Hv & Hq & Hs & ->). destruct (wrong_type (view key c)) eqn:Ew.
    { split_and!; [done|done|apply Hq|apply Hq]. }
    cbn [mret M_ret]. apply wrong_type_reply in Ew. rewrite <-(Hv key) in *.
    rewrite <-(q_out _ _ Hq), <-(q_dirty _ _ Hq), <-(q_prop _ _ Hq), <-(q_prop_buf _ _ Hq), <-(q_propagating _ _ Hq),
      <-(q_lfu _ _ Hq), <-(sb_now _ _ _ Hs). rewrite <-Ew. destruct (set_refused o (view key c1)) eqn:Er.
    + destruct (set_core_refused key value o (Some (detach <$> ('(o, _) ← view key c1; proj_str o))) c1 Er)
        as (c' & -> & _ & Hv' & ?). split_and!; try tauto. intros k. by rewrite Hv', Hv.
    + destruct (set_core_done key value o (Some (detach <$> ('(o, _) ← view key c1; proj_str o))) c1) as (c' & -> & _ & _ & _ & Hv' & ?);
        [by apply (sb_covered _ _ _ Hs)|done|]. split_and!; try tauto.
      intros k. rewrite Hv'. case_decide; [done|apply Hv].
  - cbn [mret M_ret]. destruct (set_refused o (view key c)) eqn:Er.
    + by destruct (set_core_refused key value o None c Er) as (c' & -> & _ & ?).
    + by destruct (set_core_done key value o None c Hc Er) as (c' & -> & _ & _ & _ & ?).
Qed.

(** [GET] on a key that is missing or a string, with all it leaves alone. *)
Lemma cmd_get_run args key c :
  args !! 1%nat = Some key -> wrong_type (view key c) = false ->
  exists c', cmd_get args c = (c', inr tt) /\ same_but key c c' /\ block c' = block c /\
    (forall k, view k c' = view k c) /\ out c' = write_bulk (reply_value (view key c)) (out c).
Proof.
  intros Hk Hw. unfold cmd_get. rewrite bind_eq. unfold try_, at_. rewrite Hk, bind_eq.
  pose proof (read_str_spec key c) as Hr. destruct (read_str key c) as [c' r].
  destruct Hr as (Hv & Hq & Hs & ->). rewrite Hw, write_opt_eq. eexists. split; [done|].
  split_and!; [etrans; [exact Hs|by constructor]|apply Hq|done|].
  cbn [out set_out]. rewrite (q_out _ _ Hq). by rewrite (wrong_type_reply _ Hw).
Qed.

(** ** Options *)

Definition options_ok (o : SetOptions) : Prop :=
  nx o && xx o = false /\ keepttl o && has_expire o = false /\
  match opt_expire_at_ms o with Some t => has_expire o = true /\ 0 <= t <= I64_MAX | None => has_expire o = false end.

Lemma resolve_expire_range tok raw now t : resolve_expire tok raw now = inr t -> 0 <= t <= I64_MAX.
Proof.
  unfold resolve_expire. destruct (string2ll raw) as [v|] eqn:Ev; [|done]. apply string2ll_sound in Ev as [Hv _].
  destruct (_ && bool_decide _); [done|].
  destruct (if is_tok tok (bs "EX") || is_tok tok (bs "EXAT") then checked_mul v 1000 else Some v) as [ms|] eqn:Em; [|done].
  assert (ms <= I64_MAX) as Hms.
  { revert Em. unfold checked_mul. destruct (is_tok tok (bs "EX") || _); [case_decide|]; intros [= <-]; lia. }
  clear Em. intros [= <-]. unfold saturating_add, I64_MIN, I64_MAX in *.
  destruct (is_tok tok (bs "EX") || _); lia.
Qed.

Lemma parse_options_ok toks now o o' : options_ok o -> parse_options_from toks now o = inr o' -> options_ok o'.
Proof.
  enough (forall n, (length toks <= n)%nat -> options_ok o -> parse_options_from toks now o = inr o' -> options_ok o')
    by eauto.
  intros n. revert toks o. induction n as [|n IH]; intros [|tok toks] o Hn Ho; simpl in Hn; try lia;
    cbn [parse_options_from]; try (by intros [= <-]).
  repeat match goal with |- context [if is_tok tok ?k then _ else _] => destruct (is_tok tok k) end.
  all: destruct Ho as (Ho1 & Ho2 & Ho3).
  - destruct (xx o) eqn:E; [done|]. apply IH; [lia|]. by repeat split; cbn.
  - destruct (nx o) eqn:E; [done|]. apply IH; [lia|]. by repeat split; cbn.
  - apply IH; [lia|]. by repeat split; cbn.
  - destruct (has_expire o) eqn:E; [done|]. apply IH; [lia|]. by repeat split; cbn.
  - destruct (_ || is_tok tok (bs "PXAT")); [|done]. destruct (has_expire o) eqn:E, (keepttl o) eqn:E2; try done.
    destruct toks as [|raw toks]; [done|]. cbn [orb]. destruct (resolve_expire tok raw now) as [e|t] eqn:Er; [done|].
    apply IH; [simpl in Hn; lia|]. split_and!; cbn; try done. split; [done|by eapply resolve_expire_range].
Qed.

Lemma parse_set_options_facts args now o : parse_set_options args now = inr o -> options_ok o.
Proof. apply parse_options_ok. by repeat split. Qed.

(** An option list that [SET] accepts never asks for both [NX] and [XX]
    nor for both [KEEPTTL] and a deadline, and a deadline it gives is a
    non-negative 64-bit time. *)
Theorem set_options_consistent args now o :
  parse_set_options args now = inr o ->
  nx o && xx o = false /\ keepttl o && has_expire o = false /\
  has_expire o = bool_decide (is_Some (opt_expire_at_ms o)) /\
  forall t, opt_expire_at_ms o = Some t -> 0 <= t <= I64_MAX.
Proof.
  intros (H3 & H4 & H5)%parse_set_options_facts. split_and!; [done..| |]; destruct (opt_expire_at_ms o); naive_solver.
Qed.

(** Evaluate keyword tests on literal tokens. *)
Ltac eval_tok :=
  repeat match goal with |- context [is_tok ?a ?b] =>
    let v := eval vm_compute in (is_tok a b) in
    let E := fresh in assert (is_tok a b = v) as E by (vm_compute; reflexivity); rewrite E; clear E
  end.

Lemma parse_pxat key value t now :
  0 <= t <= I64_MAX ->
  parse_set_options (set_pxat key value t) now =
  inr {| nx := false; xx := false; get_ := false; keepttl := false; opt_expire_at_ms := Some t; has_expire := true |}.
Proof.
  intros Ht. unfold parse_set_options, set_pxat. cbn [drop parse_options_from].
  unfold resolve_expire. rewrite itoa_decimal by (unfold I64_MIN, U64_MAX, I64_MAX in *; lia).
  rewrite string2ll_complete by (unfold I64_MIN; lia). eval_tok. cbn -[Z.max]. by rewrite Z.max_l by lia.
Qed.

(** What [SET] propagates is independent of when it is replayed: run at
    any later moment on any state that covers the key, the propagated command
    succeeds and leaves the key with the same object and the same absolute
    deadline, and every other key alone. *)
Theorem set_replay key value t c k :
  covered key c -> 0 <= t <= I64_MAX ->
  let '(c', r) := cmd_set (set_pxat key value t) c in
  r = inr tt /\
  view k c' = if decide (key = k) then (if decide (t <= now_ms c) then None else Some (Str (from_bytes value), Some t))
              else view k c.
Proof.
  intros Hc Ht. rewrite (cmd_set_eq (set_pxat key value t) key value _ c eq_refl eq_refl (parse_pxat key value t (now_ms c) Ht)), bind_eq.
  cbn [get_ mret M_ret]. destruct (set_core_done key value {| nx := false; xx := false; get_ := false; keepttl := false;
    opt_expire_at_ms := Some t; has_expire := true |} None c Hc eq_refl) as (c' & -> & _ & _ & _ & Hv & _).
  split; [done|]. rewrite Hv. case_decide; [|done]. unfold live, is_expired. cbn. by repeat case_decide; case_bool_decide.
Qed.

(** ** MGET and MSET *)

Lemma foldl_ext_eq {A B} (f g : B -> A -> B) (l : list A) (b : B) :
  (forall b a, f b a = g b a) -> foldl f b l = foldl g b l.
Proof. intros Hfg. revert b. induction l as [|a l IH]; intros b; simpl; [done|]. by rewrite Hfg, IH. Qed.

Lemma mget_loop_spec keys c :
  exists c', mget_loop keys c = (c', inr tt) /\ (forall k, view k c' = view k c) /\ dirty c' = dirty c /\
    out c' = foldl (fun w k => write_bulk (reply_value (view k c)) w) (out c) keys.
Proof.
  revert c. induction keys as [|key keys IH]; intros c; [by exists c|]. cbn [mget_loop foldl]. rewrite bind_eq.
  pose proof (read_str_spec key c) as Hr. destruct (read_str key c) as [c1 r]. destruct Hr as (Hv & Hq & _ & ->).
  cbn iota beta. rewrite bind_eq, write_opt_eq.
  set (w := write_value _). destruct (IH (set_out w c1)) as (c' & E & Hv' & Hd & Ho). exists c'.
  split_and!; [exact E| |by rewrite Hd; apply Hq|].
  - intros k. rewrite Hv'. apply Hv.
  - rewrite Ho. cbn [out set_out]. rewrite (q_out _ _ Hq).
    assert (w = write_bulk (reply_value (view key c))) as ->.
    { subst w. destruct (wrong_type (view key c)) eqn:Ew; [|by apply wrong_type_reply].
      unfold reply_value. destruct (view key c) as [[[] x]|]; done. }
    apply foldl_ext_eq. intros w' k. by change (view k (set_out _ c1)) with (view k c1); rewrite Hv.
Qed.

(** [MGET] never fails and replies one array with an element per key, in
    order: the value's bytes, or null for a key that is missing or not a
    string. *)
Theorem cmd_mget_spec name keys c :
  let '(c', r) := cmd_mget (name :: keys) c in
  r = inr tt /\ (forall k, view k c' = view k c) /\ dirty c' = dirty c /\
  out c' = foldl (fun w k => write_bulk (reply_value (view k c)) w) (array (blen keys) (out c)) keys.
Proof.
  unfold cmd_mget. rewrite bind_eq. unfold do_.
  destruct (mget_loop_spec keys (set_out (array (Z.max 0 (blen (name :: keys) - 1))) c)) as (c' & E & Hv & Hd & Ho).
  cbn iota beta. change (drop 1 (name :: keys)) with keys. rewrite E.
  assert (Z.max 0 (blen (name :: keys) - 1) = blen keys) as Hl by (unfold blen; simpl length; lia).
  rewrite Hl in *. split_and!; try done.
Qed.

(** The pairs of an [MSET], and the value the last of them gives a key. *)
Fixpoint pairs (kvs : list bytes) : list (bytes * bytes) :=
  match kvs with k :: v :: kvs => (k, v) :: pairs kvs | _ => [] end.
Definition last_value (k : bytes) (kvs : list bytes) : option bytes :=
  snd <$> last (filter (fun p => p.1 = k) (pairs kvs)).

Lemma pairs_count kvs : Nat.even (length kvs) = true -> length kvs = (2 * length (pairs kvs))%nat.
Proof.
  enough (forall n, (length kvs <= n)%nat -> Nat.even (length kvs) = true -> length kvs = (2 * length (pairs kvs))%nat) by eauto.
  intros n. revert kvs. induction n as [|n IH]; intros [|k [|v kvs]] Hn He; simpl in *; try done; try lia.
  rewrite (IH kvs) at 1 by (done || lia). lia.
Qed.

Lemma mset_loop_spec n kvs c k :
  (length kvs <= n)%nat -> Forall (fun p => covered p.1 c) (pairs kvs) ->
  exists c', mset_loop kvs c = (c', inr tt) /\
    view k c' = (match last_value k kvs with Some v => Some (Str (from_bytes v), None) | None => view k c end) /\
    dirty c' = dirty c + blen (pairs kvs) /\ out c' = out c.
Proof.
  revert kvs c. induction n as [|n IH]; intros [|key [|value kvs]] c Hn Hc; simpl in Hn; try lia;
    try (exists c; split_and!; [done|done|unfold blen; cbn; lia|done]).
  cbn [pairs] in Hc. apply Forall_cons in Hc as [Hk Hc]. cbn [mset_loop]. rewrite bind_eq. unfold do_ at 1.
  set (c1 := insert key (Str (from_bytes value)) None c). cbn iota beta. rewrite bind_eq. unfold do_ at 1. cbn iota beta.
  set (c2 := notify STRING (bs "set") key c1).
  assert (Hcov : forall k', covered k' c2 <-> covered k' c).
  { intros k'. transitivity (covered k' c1); [|apply (sb_covered key), insert_frame]. subst c2. unfold notify. by case_match. }
  destruct (IH kvs c2) as (c' & E & Hv & Hd & Ho); [lia|by eapply Forall_impl; [exact Hc|]; intros p; apply Hcov|].
  destruct (notify_same k STRING (bs "set") key c1) as [Hv2 Hq2]. fold c2 in Hv2, Hq2.
  exists c'. split_and!; [done| |rewrite Hd, (q_dirty _ _ Hq2); unfold blen; cbn; lia|by rewrite Ho, (q_out _ _ Hq2)].
  rewrite Hv, Hv2. unfold c1. rewrite insert_view by done. unfold last_value. cbn [pairs]. rewrite filter_cons. cbn [fst].
  destruct (decide (key = k)) as [->|Hne]; [|done]. rewrite last_cons.
  by destruct (last (filter _ (pairs kvs))).
Qed.

(** [MSET] with a whole number of pairs makes every named key a string
    without a deadline, holding the last value it was given, leaves every
    other key alone, counts a modification per pair and replies OK; any other
    argument count is refused before anything is written. *)
Theorem cmd_mset_spec name kvs c k :
  Forall (fun p => covered p.1 c) (pairs kvs) ->
  let '(c', r) := cmd_mset (name :: kvs) c in
  if decide (2 <= length kvs /\ Nat.even (length kvs) = true)%nat then
    r = inr tt /\ view k c' = (match last_value k kvs with Some v => Some (Str (from_bytes v), None) | None => view k c end) /\
    dirty c' = dirty c + blen kvs / 2 /\ out c' = ok (out c)
  else r = inl (WrongArity (bs "mset")) /\ c' = c.
Proof.
  intros Hc. unfold cmd_mset.
  assert ((2 <= length kvs /\ Nat.even (length kvs) = true)%nat <->
          ~ (blen (name :: kvs) < 3 \/ (blen (name :: kvs) - 1) mod 2 <> 0)) as Hargs.
  { unfold blen. cbn [length]. replace (Z.of_nat (S (length kvs)) - 1) with (Z.of_nat (length kvs)) by lia.
    rewrite Nat.even_spec. split; [intros [? [m Hm]]|intros H'; split; [lia|]].
    - rewrite Hm. intros [?|?]; [lia|]. replace (Z.of_nat (2 * m)) with (Z.of_nat m * 2) in * by lia. by rewrite Z.mod_mul in *.
    - exists (Z.to_nat (Z.of_nat (length kvs) / 2)). assert (Z.of_nat (length kvs) mod 2 = 0) as Hm by (apply dec_stable; tauto). clear H'.
      pose proof (Z.div_mod (Z.of_nat (length kvs)) 2 ltac:(lia)). lia. }
  destruct (decide (blen (name :: kvs) < 3 \/ _)) as [Hbad|Hgood].
  { unfold try_. cbn iota beta. rewrite decide_False by tauto. done. }
  apply Hargs in Hgood as [Hl He]. rewrite bind_eq. change (drop 1 (name :: kvs)) with kvs.
  destruct (mset_loop_spec (length kvs) kvs c k) as (c' & -> & Hv & Hd & Ho); [done..|]. unfold do_. cbn iota beta.
  rewrite decide_True by done.
  split_and!; [done|exact Hv| |by cbn; rewrite Ho]. change (dirty (set_out ok c')) with (dirty c'). rewrite Hd. f_equal.
  apply pairs_count in He. unfold blen. rewrite He. replace (Z.of_nat (2 * length (pairs kvs))) with (Z.of_nat (length (pairs kvs)) * 2) by lia.
  by rewrite Z.div_mul.
Qed.
End facts.

(** ** Witnesses *)

Section witnesses.
#[local] Existing Instances memchr_find itoa_model itoa_model_laws ryu_model no_draws.

Definition stored : Ctx := insert (bs "k") (Str (from_bytes (bs "old"))) None demo_ctx.
Lemma stored_covers : covered (bs "k") stored.
Proof. vm_compute. eauto. Qed.

Definition set_args : Args := [bs "set"; bs "k"; bs "v"; bs "EX"; bs "10"; bs "get"].

Lemma cmd_get_spec_witness :
  let '(c', r) := cmd_get [bs "get"; bs "k"] stored in r = inr tt /\ out c' = bulk (bs "old") (out stored).
Proof.
  pose proof (cmd_get_spec [bs "get"; bs "k"] (bs "k") stored eq_refl) as E.
  destruct (cmd_get _ _) as [c' r]. exact (proj2 (proj2 E)).
Defined.

Lemma cmd_set_spec_witness :
  let '(c', r) := cmd_set set_args stored in
  r = inr tt /\ view (bs "k") c' = Some (Str (from_bytes (bs "v")), Some 11000) /\
  prop_buf c' = [set_pxat (bs "k") (bs "v") 11000].
Proof.
  pose proof (cmd_set_spec set_args (bs "k") (bs "v")
    {| nx := false; xx := false; get_ := true; keepttl := false; opt_expire_at_ms := Some 11000; has_expire := true |}
    stored eq_refl eq_refl ltac:(vm_compute; reflexivity) stored_covers) as E.
  destruct (cmd_set _ _) as [c' r]. destruct E as (Hr & Hv & _ & _ & _ & Hb).
  split; [exact Hr|split; [etrans; [exact (Hv (bs "k"))|vm_compute; reflexivity]|exact Hb]].
Defined.

Lemma set_options_consistent_witness :
  match parse_set_options set_args 1000 with inr o => has_expire o = true | inl _ => False end.
Proof.
  destruct (parse_set_options set_args 1000) as [e|o] eqn:E; [vm_compute in E; discriminate|].
  destruct (set_options_consistent set_args 1000 o E) as (_ & _ & -> & _). revert E. vm_compute. by intros [= <-].
Defined.

Lemma set_replay_witness :
  let '(c', r) := cmd_set (set_pxat (bs "k") (bs "v") 999) stored in r = inr tt /\ view (bs "k") c' = None.
Proof.
  pose proof (set_replay (bs "k") (bs "v") 999 stored (bs "k") stored_covers ltac:(unfold I64_MAX; lia)) as E.
  destruct (cmd_set _ _) as [c' r]. destruct E as [Hr Hv]. split; [exact Hr|etrans; [exact Hv|reflexivity]].
Defined.

Lemma cmd_mset_spec_witness :
  let '(c', r) := cmd_mset [bs "mset"; bs "k"; bs "1"; bs "k"; bs "2"] stored in
  r = inr tt /\ view (bs "k") c' = Some (Str (Int 2), None) /\ dirty c' = 3.
Proof.
  pose proof (cmd_mset_spec (bs "mset") [bs "k"; bs "1"; bs "k"; bs "2"] stored (bs "k")
    ltac:(repeat constructor; exact stored_covers)) as E.
  destruct (cmd_mset _ _) as [c' r]. destruct E as (Hr & Hv & Hd & _).
  split; [exact Hr|split; [etrans; [exact Hv|reflexivity]|exact Hd]].
Defined.
End witnesses.
