(* ===== verification/Views.v ===== *)
(** * What handlers can observe ([src/ctx.rs])

    The methods of [Ctx], restated for handlers that work on several keys and
    databases: each is described by what it does to the view of every key of
    every database of the locked shards, to the reply, to the count of
    modifications and to what is propagated.  Also the rules that run the
    handlers' monad. *)
From S2P Require Import Prelude Config Crc Strnum Object Shard Errors Reply Notify Commands Dtoa Client Registry Ctx StringCmd.
Open Scope Z_scope.

(** ** Running a handler *)

Section running.
Context {A B : Type}.
Implicit Types (c : Ctx).

Lemma run_ask (f : Ctx -> A) (g : A -> M B) c : (ask f ≫= g) c = g (f c) c.
Proof. done. Qed.
Lemma run_do (f : Ctx -> Ctx) (g : unit -> M B) c : (do_ f ≫= g) c = g tt (f c).
Proof. done. Qed.
Lemma run_call (f : Ctx -> Ctx * A) (g : A -> M B) c : (call f ≫= g) c = g (f c).2 (f c).1.
Proof. unfold mbind, M_bind, call. by destruct (f c). Qed.
Lemma run_ok (x : A) (g : A -> M B) c : (try_ (inr x) ≫= g) c = g x c.
Proof. done. Qed.
Lemma run_ret (x : A) (g : A -> M B) c : (mret x ≫= g) c = g x c.
Proof. done. Qed.
End running.

#[export] Hint Rewrite @run_ask @run_do @run_call @run_ok @run_ret : handlers.

Section views.
Context `{Memchr, Itoa, Fastrand}.

Definition view_at (n : nat) (k : Key) (c : Ctx) : option (Robj * option Z) := entry_at n k c ≫= live (now_ms c).
Definition covered_at (n : nat) (k : Key) (c : Ctx) : Prop := is_Some (db_at n k c).

(** ** Frames *)

(** The context is still the same command on the same locked shards. *)
Record framed (c c' : Ctx) : Prop := {
  f_now : now_ms c' = now_ms c; f_client : client c' = client c; f_cfg : cfg c' = cfg c;
  f_map : server_shards c' = server_shards c; f_mask : g_mask (shards c') = g_mask (shards c);
  f_shape : shape (shards c') = shape (shards c); f_lfu : lfu c' = lfu c;
  f_propagating : is_propagating (server c') = is_propagating (server c);
  f_ok : guards_ok (shards c) -> guards_ok (shards c');
  f_placed : placed c -> placed c'
}.

#[export] Instance framed_preorder : PreOrder framed.
Proof. split; [by constructor|]. intros x y z [] []. constructor; (congruence || auto). Qed.

(** ... and [d] more modifications were counted, nothing replied or propagated. *)
Record moved (d : Z) (c c' : Ctx) : Prop := {
  m_framed : framed c c';
  m_out : out c' = out c; m_dirty : dirty c' = dirty c + d; m_prop : prop c' = prop c;
  m_prop_buf : prop_buf c' = prop_buf c; m_block : block c' = block c
}.

Lemma moved_trans d1 d2 c1 c2 c3 : moved d1 c1 c2 -> moved d2 c2 c3 -> moved (d1 + d2) c1 c3.
Proof. intros [] []. constructor; [by etrans|congruence|lia|congruence..]. Qed.

(** Nothing observable happened. *)
Record settled (c c' : Ctx) : Prop := {
  st_moved : moved 0 c c';
  st_view n k : view_at n k c' = view_at n k c
}.

#[export] Instance settled_preorder : PreOrder settled.
Proof.
  split; [intros c; split; [|done]; by constructor; [|..|lia| | |]|].
  intros x y z [Hm1 Hv1] [Hm2 Hv2]. split; [exact (moved_trans 0 0 _ _ _ Hm1 Hm2)|]. intros n k. by rewrite Hv2.
Qed.

Lemma db_index_framed c c' : framed c c' -> db_index c' = db_index c.
Proof. intros Hf. unfold db_index. by rewrite (f_client _ _ Hf). Qed.

(** Which databases the context reaches depends on its frame only. *)
Lemma covered_shape n k c :
  covered_at n k c <->
  exists i p, list_find (fun p => p.1 = key_index (shards c) k) (shape (shards c)) = Some (i, p) /\ (n < p.2)%nat.
Proof.
  unfold covered_at, db_at, for_key, guard_shard, shape. rewrite list_find_fmap. unfold compose. cbn [fst].
  destruct (list_find _ (guards (shards c))) as [[i [j s]]|]; simpl.
  - unfold db. rewrite lookup_lt_is_Some. split; [intros Hn; by exists i, (j, length (dbs s))|].
    by intros (? & ? & [= <- <-] & Hn).
  - split; [by intros []|by intros (? & ? & ? & _)].
Qed.

Lemma covered_framed n k c c' : framed c c' -> covered_at n k c' <-> covered_at n k c.
Proof.
  intros Hf. rewrite !covered_shape. unfold key_index. by rewrite (f_mask _ _ Hf), (f_shape _ _ Hf).
Qed.

Lemma view_current k c : view_at (db_index c) k c = view k c.
Proof. done. Qed.

(** ** From the facts about one key of the current database *)

Lemma same_framed k c c' : same_but k c c' -> quiet c c' -> framed c c'.
Proof. intros [] []. by constructor. Qed.

Lemma same_moved k c c' : same_but k c c' -> quiet c c' -> moved 0 c c'.
Proof.
  intros Hs Hq. constructor; [by eapply same_framed|..|apply Hq|apply Hq|apply Hq]; [apply Hq|].
  rewrite (q_dirty _ _ Hq). lia.
Qed.

Lemma same_view_at k c c' n k' :
  same_but k c c' -> view_at n k' c' = if decide (n = db_index c /\ k = k') then view k c' else view_at n k' c.
Proof.
  intros Hs. unfold view_at. destruct (decide (n = db_index c)) as [->|Hn].
  - assert (db_index c' = db_index c) as Hi by (unfold db_index; by rewrite (sb_client _ _ _ Hs)).
    assert (entry_at (db_index c) k' c' = entry k' c') as -> by (unfold entry, key_db; by rewrite Hi).
    destruct (decide (k = k')) as [<-|Hk]; [by rewrite decide_True|]. rewrite decide_False by tauto.
    by rewrite (sb_entry _ _ _ Hs k' Hk), (sb_now _ _ _ Hs).
  - rewrite decide_False by tauto. by rewrite (sb_other _ _ _ Hs n k' Hn), (sb_now _ _ _ Hs).
Qed.

Lemma same_settled k c c' : same_but k c c' -> quiet c c' -> view k c' = view k c -> settled c c'.
Proof.
  intros Hs Hq Hv. split; [by eapply same_moved|]. intros n k'. rewrite (same_view_at k c c') by done.
  case_decide as E; [|done]. destruct E as [-> <-]. by rewrite Hv.
Qed.

(** ** Reads *)

(** Lazy expiry leaves the entry of a live key and removes that of a dead one. *)
Lemma exists_run k c :
  settled c (exists_ k c).1 /\ (exists_ k c).2 = bool_decide (is_Some (view k c)) /\
  entry k (exists_ k c).1 = (e ← entry k c; if is_expired e (now_ms c) then None else Some e).
Proof.
  pose proof (exists_spec k c) as Hx. destruct (expire_if_needed_spec k c) as (_ & _ & He & _).
  unfold exists_ in *. destruct Hx as (Hv & Hq & Hs & Hr). split_and!; [by eapply same_settled|exact Hr|exact He].
Qed.

Lemma expire_at_run k c : settled c (expire_at k c).1 /\ (expire_at k c).2 = view k c ≫= snd.
Proof.
  pose proof (expire_at_spec k c) as Hx. destruct (expire_at k c) as [c' r]. destruct Hx as (Hv & Hq & Hs & Hr).
  split; [by eapply same_settled|exact Hr].
Qed.

Lemma lookup_read_run k c : settled c (lookup_read k c).1 /\ (lookup_read k c).2 = fst <$> view k c.
Proof.
  destruct (lookup_read_frame k c) as [Hs Hq]. split; [|apply lookup_read_result].
  eapply same_settled; [done..|apply lookup_read_view].
Qed.

Lemma type_name_run k c : settled c (ctx_type_name k c).1 /\ (ctx_type_name k c).2 = (fun v => type_name v.1) <$> view k c.
Proof.
  destruct (lookup_read_run k c) as [Hs Hr]. unfold ctx_type_name. destruct (lookup_read k c) as [c' r]. simpl in *.
  split; [done|]. rewrite Hr. by destruct (view k c).
Qed.

Lemma read_str_run k c :
  settled c (read_str k c).1 /\
  (read_str k c).2 = (if wrong_type (view k c) then inl WrongType else inr ('(o, _) ← view k c; proj_str o)).
Proof.
  pose proof (read_str_spec k c) as Hx. destruct (read_str k c) as [c' r]. destruct Hx as (Hv & Hq & Hs & Hr).
  split; [by eapply same_settled|exact Hr].
Qed.

(** ** Edits *)

(** An edit of database [n] at key [k] and nowhere else. *)
Lemma edit_framed n k F f c :
  (forall s, dbs (F s) = alter f n (dbs s)) -> local_to k f -> framed c (set_shards (upd_for_key k F) c).
Proof.
  intros HF [Hl _ Ho]. constructor; try done.
  - unfold shape. simpl. rewrite <-list_fmap_compose. apply list_fmap_ext. intros _ [i s] _. simpl.
    case_decide; [|done]. simpl. by rewrite HF, length_alter.
  - apply upd_ok. intros s Hs. unfold dbs_ok. rewrite HF. by apply Forall_alter; [|auto].
  - by eapply placed_upd.
Qed.

Lemma edit_entry n k F f c n' k' :
  (forall s, dbs (F s) = alter f n (dbs s)) -> local_to k f ->
  entry_at n' k' (set_shards (upd_for_key k F) c) =
  if decide (n' = n /\ k = k') then d ← db_at n k c; dict (f d) !! k else entry_at n' k' c.
Proof.
  intros HF [Hl _ _]. unfold entry_at. rewrite (db_at_upd n k F f c n' k' HF).
  destruct (decide (n' = n)) as [->|Hn].
  2: { by rewrite !decide_False by naive_solver. }
  destruct (decide (k = k')) as [<-|Hk].
  - rewrite !decide_True by done. by destruct (db_at n k c).
  - rewrite (decide_False (P := n = n /\ k = k')) by tauto. case_decide; [|done].
    destruct (db_at n k' c); simpl; [by apply Hl|done].
Qed.

Lemma edit_moved n k f c : local_to k f -> moved 0 c (upd_db_at n k f c).
Proof.
  intros Hf. constructor; [by apply (edit_framed n k _ f)|try done..]. simpl. lia.
Qed.

Lemma view_entry_at n k c e : entry_at n k c = Some e -> view_at n k c = live (now_ms c) e.
Proof. intros E. unfold view_at. by rewrite E. Qed.

Lemma signal_modified_run k c :
  moved 1 c (signal_modified k c) /\ forall n k', entry_at n k' (signal_modified k c) = entry_at n k' c.
Proof.
  unfold signal_modified. set (c1 := count_dirty c). set (F s := upd_db _ _ _).
  assert (forall s, dbs (F s) = alter (signal_watch k) (db_index c1) (dbs s)) as HF by done.
  assert (local_to k (signal_watch k)) as Hl by by apply (run_op_local k (OpSignal k)). split.
  - constructor; try done. transitivity c1; [by constructor|]. by apply (edit_framed (db_index c1) k F (signal_watch k)).
  - intros n k'. rewrite (edit_entry _ k F _ c1 n k' HF Hl). change (entry_at n k' c1) with (entry_at n k' c).
    case_decide as E; [|done]. destruct E as [-> <-]. unfold entry_at. change (db_at (db_index c1) k c1) with (db_at (db_index c1) k c).
    destruct (db_at _ k c); simpl; [|done]. by rewrite signal_dict.
Qed.

Lemma insert_run k o a c :
  covered_at (db_index c) k c ->
  moved 1 c (insert k o a c) /\
  forall n k', view_at n k' (insert k o a c) =
    if decide (n = db_index c /\ k = k') then live (now_ms c) (entry_new o a (now_ms c) (lfu c)) else view_at n k' c.
Proof.
  intros Hc. pose proof (insert_frame k o a c) as Hs. split.
  - constructor; try done. destruct Hs. constructor; try done.
  - intros n k'. rewrite (same_view_at k c) by done. case_decide as E; [|done].
    rewrite insert_view, decide_True by done. done.
Qed.

Lemma expire_settled k c :
  settled c (expire_if_needed k c).1 /\
  entry k (expire_if_needed k c).1 = (e ← entry k c; if is_expired e (now_ms c) then None else Some e).
Proof. destruct (exists_run k c) as (Hs & _ & He). exact (conj Hs He). Qed.

(** The live entry of [k], and the view it stands for. *)
Lemma live_entry k c :
  view k c = (fun e => (obj e, expire_at_ms e)) <$> entry k (expire_if_needed k c).1.
Proof. apply (expired_entry k c). Qed.

Lemma remove_run k c :
  let r := bool_decide (is_Some (view k c)) in
  (remove k c).2 = r /\ moved (if r then 1 else 0) c (remove k c).1 /\
  forall n k', view_at n k' (remove k c).1 = if decide (n = db_index c /\ k = k') then None else view_at n k' c.
Proof.
  cbv zeta. destruct (expire_settled k c) as [Hst _]. pose proof (live_entry k c) as Hlive. unfold remove.
  set (c1 := (expire_if_needed k c).1) in *.
  assert (match key_db k c1 with Some d => bool_decide (is_Some (remove_entry k d).2) | None => false end
          = bool_decide (is_Some (view k c))) as ->.
  { rewrite Hlive, (bool_decide_ext _ _ (fmap_is_Some _ _)). unfold entry. by destruct (key_db k c1). }
  assert (local_to k (fun d => (remove_entry k d).1)) as Hl by (apply (run_op_local k (OpRemove k)); done).
  set (c2 := upd_key_db k (fun d => (remove_entry k d).1) c1).
  pose proof (db_index_framed _ _ (m_framed _ _ _ (st_moved _ _ Hst))) as Hi.
  assert (moved 0 c1 c2) as Hm2 by by apply (edit_moved (db_index c1)).
  assert (forall n k', entry_at n k' c2 = if decide (n = db_index c /\ k = k') then None else entry_at n k' c1) as He2.
  { intros n k'. rewrite <-Hi. unfold c2, upd_key_db.
    rewrite (edit_entry (db_index c1) k _ (fun d => (remove_entry k d).1) c1 n k') by done. case_decide; [|done].
    destruct (db_at _ k c1); simpl; [apply lookup_delete_eq|done]. }
  assert (moved 0 c c2) as Hm by exact (moved_trans 0 0 _ _ _ (st_moved _ _ Hst) Hm2).
  assert (forall n k', entry_at n k' c2 ≫= live (now_ms c) = if decide (n = db_index c /\ k = k') then None else view_at n k' c) as Hv.
  { intros n k'. rewrite He2. case_decide; [done|]. rewrite <-(st_view _ _ Hst). unfold view_at.
    by rewrite (f_now _ _ (m_framed _ _ _ (st_moved _ _ Hst))). }
  destruct (bool_decide (is_Some (view k c))); cbn [fst snd]; (split; [done|]).
  - set (c3 := set_shards _ c2). assert (local_to k (signal_watch k)) as Hl3 by by apply (run_op_local k (OpSignal k)).
    assert (framed c2 c3) as Hf3 by by eapply (edit_framed (db_index c2) k _ (signal_watch k)).
    assert (forall n k', entry_at n k' c3 = entry_at n k' c2) as He3.
    { intros n k'. unfold c3. rewrite (edit_entry (db_index c2) k _ (signal_watch k) c2 n k') by done.
      case_decide as E; [|done]. destruct E as [-> <-]. unfold entry_at. destruct (db_at _ k c2); simpl; [|done]. by rewrite signal_dict. }
    split.
    + destruct Hm as [Hf ? Hd ? ? ?]. constructor; try done; [etrans; [exact Hf|etrans; [exact Hf3|by constructor]]|].
      change (dirty (count_dirty c3)) with (dirty c2 + 1). rewrite Hd. lia.
    + intros n k'. unfold view_at. change (entry_at n k' (count_dirty c3)) with (entry_at n k' c3). rewrite He3.
      change (now_ms (count_dirty c3)) with (now_ms c2). by rewrite (f_now _ _ (m_framed _ _ _ Hm)), Hv.
  - split; [exact Hm|]. intros n k'. unfold view_at. by rewrite (f_now _ _ (m_framed _ _ _ Hm)), Hv.
Qed.

(** What a new deadline makes of a live key. *)
Definition redated (a : option Z) (now : Z) (v : option (Robj * option Z)) : option (Robj * option Z) :=
  '(o, _) ← v; if match a with Some at_ => bool_decide (at_ <= now) | None => false end then None else Some (o, a).

Lemma set_expire_run k a c :
  let r := bool_decide (is_Some (view k c)) in
  (ctx_set_expire k a c).2 = r /\ moved (if r then 1 else 0) c (ctx_set_expire k a c).1 /\
  forall n k', view_at n k' (ctx_set_expire k a c).1 =
    if decide (n = db_index c /\ k = k') then redated a (now_ms c) (view k c) else view_at n k' c.
Proof.
  cbv zeta. destruct (expire_settled k c) as [Hst _]. pose proof (live_entry k c) as Hlive. unfold ctx_set_expire.
  set (c1 := (expire_if_needed k c).1) in *.
  assert (match key_db k c1 with Some d => (set_expire k a d).2 | None => false end
          = bool_decide (is_Some (view k c))) as ->.
  { rewrite Hlive, (bool_decide_ext _ _ (fmap_is_Some _ _)). unfold entry. destruct (key_db k c1) as [d|]; simpl; [|done].
    unfold set_expire. by destruct (dict d !! k). }
  assert (local_to k (fun d => (set_expire k a d).1)) as Hl by (apply (run_op_local k (OpExpire k a)); done).
  set (c2 := upd_key_db k (fun d => (set_expire k a d).1) c1).
  pose proof (m_framed _ _ _ (st_moved _ _ Hst)) as Hf. pose proof (db_index_framed _ _ Hf) as Hi.
  assert (moved 0 c c2) as Hm.
  { apply (moved_trans 0 0 _ c1); [apply Hst|]. by apply (edit_moved (db_index c1)). }
  assert (forall n k', entry_at n k' c2 ≫= live (now_ms c) =
    if decide (n = db_index c /\ k = k') then redated a (now_ms c) (view k c) else view_at n k' c) as Hv.
  { intros n k'. rewrite <-Hi. unfold c2, upd_key_db.
    rewrite (edit_entry (db_index c1) k _ (fun d => (set_expire k a d).1) c1 n k') by done. case_decide as E.
    - rewrite Hlive. change (entry k c1) with (db_at (db_index c1) k c1 ≫= fun d => dict d !! k).
      destruct (db_at _ k c1) as [d|]; simpl; [|done]. unfold set_expire.
      destruct (dict d !! k) eqn:Ed; cbn; [by rewrite lookup_insert_eq|by rewrite Ed].
    - rewrite <-(st_view _ _ Hst). unfold view_at. by rewrite (f_now _ _ Hf). }
  destruct (bool_decide (is_Some (view k c))); cbn [fst snd]; (split; [done|]).
  - destruct (signal_modified_run k c2) as [Hm3 He3]. split; [exact (moved_trans 0 1 _ _ _ Hm Hm3)|].
    intros n k'. unfold view_at. rewrite He3, (f_now _ _ (m_framed _ _ _ Hm3)), (f_now _ _ (m_framed _ _ _ Hm)). apply Hv.
  - split; [exact Hm|]. intros n k'. unfold view_at. rewrite (f_now _ _ (m_framed _ _ _ Hm)). apply Hv.
Qed.

(** ** Side effects *)

Lemma notify_run class event k0 c :
  moved 0 c (notify class event k0 c) /\ forall n k, entry_at n k (notify class event k0 c) = entry_at n k c.
Proof. unfold notify. case_match; (split; [constructor; [by constructor|try done..]; simpl; lia|done]). Qed.

Lemma moved_views d c c' : moved d c c' -> (forall n k, entry_at n k c' = entry_at n k c) -> forall n k, view_at n k c' = view_at n k c.
Proof. intros Hm He n k. unfold view_at. by rewrite He, (f_now _ _ (m_framed _ _ _ Hm)). Qed.

Lemma notify_settled class event k0 c : settled c (notify class event k0 c).
Proof. destruct (notify_run class event k0 c) as [Hm He]. split; [exact Hm|by eapply moved_views]. Qed.

Lemma propagate_run argv c :
  let c' := ctx_propagate argv c in
  framed c c' /\ (forall n k, view_at n k c' = view_at n k c) /\ out c' = out c /\ dirty c' = dirty c /\ block c' = block c /\
  prop c' = Explicit /\ prop_buf c' = prop_buf c ++ (if is_propagating (server c) then [argv] else []).
Proof.
  unfold ctx_propagate, propagate_argv. destruct (is_propagating (server c)) eqn:E; cbn;
    (split_and!; [by constructor|done..|by rewrite ?app_nil_r]).
Qed.
End views.
