(* ===== verification/Dispatch.v ===== *)
(** * Executing a command ([src/engine.rs], the gate of [src/shard/evict.rs])

    [ServerShared] whole, the [DENYOOM] gate, and [dispatch]: lookup, arity,
    authentication, the transaction hook, the memory gate, locking, the
    handler, propagation, release and reply, in the source's order.  The shard
    locks make the body one atomic step on the locked shards, so it is a
    function of the state it starts from. *)
From S2P Require Import Prelude Config Crc Strnum Object Shard Errors Reply Notify Commands Engine Dtoa Client Registry Ctx StringCmd.
Open Scope Z_scope.

Record ServerShared := {
  shard_map : ShardMap;
  clock_ms : Z;
  commands : CommandTable (Handler := CmdHandler);
  shared : Shared
}.

(** [ConfigHandle::load] *)
Definition config (s : ServerShared) : Config := config_handle (shared s).

Definition with_shared (f : Shared -> Shared) (s : ServerShared) : ServerShared :=
  {| shard_map := shard_map s; clock_ms := clock_ms s; commands := commands s; shared := f (shared s) |}.
Definition with_map (f : ShardMap -> ShardMap) (s : ServerShared) : ServerShared :=
  {| shard_map := f (shard_map s); clock_ms := clock_ms s; commands := commands s; shared := shared s |}.

(** ** The memory gate: lock-free reads of the handles' mirrors *)

Definition used_memory (m : ShardMap) : Z := foldr Z.add 0 (h_mem <$> Shard.shards m).
Definition volatile_keys (m : ShardMap) : Z := foldr Z.add 0 (h_expires <$> Shard.shards m).

Definition over_limit (m : ShardMap) (cfg : Config) : bool :=
  bool_decide (maxmemory cfg <> 0) && bool_decide (maxmemory cfg < used_memory m).

Definition check_oom (m : ShardMap) (cfg : Config) : CmdError + unit :=
  if negb (over_limit m cfg) then inr tt
  else
    let hopeless :=
      match maxmemory_policy cfg with
      | NoEviction => true
      | VolatileLru | VolatileLfu | VolatileRandom | VolatileTtl => bool_decide (volatile_keys m = 0)
      | _ => false
      end in
    if hopeless then inl Oom else inr tt.

(** ** Outcomes *)

Inductive Outcome := Done | Blocked (req : BlockRequest) | Close.

(** [crate::command::transaction::intercept] *)
Definition intercept (s : ServerShared) (client : ClientState) (out : bytes) (args : Args) : bool := false.

Definition reply_error (out : bytes) (proto : Z) (e : CmdError) (s : ServerShared) : ServerShared * bytes :=
  (with_shared (bump_stat total_error_replies) s, buf (error e {| buf := out; proto := proto |})).

Definition no_auth_command (n : bytes) : bool :=
  bool_decide (n = bs "auth" \/ n = bs "hello" \/ n = bs "quit" \/ n = bs "reset").

(** [guards.primary()] and what is done through the reference. *)
Definition upd_primary (f : Shard -> Shard) (g : ShardGuards) : ShardGuards :=
  {| guards := match guards g with (i, s) :: l => (i, f s) :: l | [] => [] end; g_mask := g_mask g |}.

Section dispatch.
Context `{Memchr, Itoa, Ryu, Fastrand}.

(** Propagation of a successful command, onto the lowest-indexed locked shard. *)
Definition propagate_outcome (is_write : bool) (db : nat) (args : Args) (o : CtxOutcome) : ShardGuards :=
  match o_prop o with
  | Suppressed => o_shards o
  | Explicit => upd_primary (fun s => foldl (fun s argv => propagate db argv s) s (o_prop_buf o)) (o_shards o)
  | Default =>
      if is_write && bool_decide (0 < o_dirty o) then upd_primary (propagate db args) (o_shards o) else o_shards o
  end.

(** The part of [dispatch] between taking the locks and releasing them. *)
Definition run_locked (spec : CommandSpec CmdHandler) (s : ServerShared) (client : ClientState) (out_ : bytes)
    (args : Args) : ServerShared * ClientState * bytes * (CmdError + option BlockRequest) :=
  let guards := lock_set (shard_map s) (shard_set_for spec args (shard_map s)) in
  let ctx := ctx_new {| buf := out_; proto := client_proto client |} client (shared s) guards (config s) (clock_ms s) (shard_map s) in
  let '(ctx, result) := handler spec args ctx in
  let o := ctx_finish ctx in
  let guards :=
    match result with
    | inr _ => if is_propagating (server ctx) then propagate_outcome (is_write spec) (client_db client) args o else o_shards o
    | inl _ => o_shards o
    end in
  (with_shared (fun _ => server ctx) (with_map (release guards) s), Ctx.client ctx, buf (out ctx),
   match result with inl e => inl e | inr _ => inr (o_block o) end).

Definition dispatch (s : ServerShared) (client : ClientState) (out : bytes) (args : Args) :
    ServerShared * ClientState * bytes * Outcome :=
  if decide (args = []) then (s, client, out, Done)
  else
    let s := with_shared (bump_stat commands_processed) s in
    let proto := client_proto client in
    match Commands.lookup (arg_name args) (commands s) with
    | None =>
        let '(s, out) := reply_error out proto (unknown_command (arg_name args) (drop 1 args)) s in (s, client, out, Done)
    | Some spec =>
        let client := with_last_command (name spec) client in
        if negb (arity_ok spec (length args)) then
          let '(s, out) := reply_error out proto (WrongArity (name spec)) s in (s, client, out, Done)
        else if negb (authenticated client) && negb (no_auth_command (name spec)) then
          let '(s, out) := reply_error out proto Unauthenticated s in (s, client, out, Done)
        else if intercept s client out args then (s, client, out, Done)
        else
          match (if has_flag (flags spec) DENYOOM then check_oom (shard_map s) (config s) else inr tt) with
          | inl e => let '(s, out) := reply_error out proto e s in (s, client, out, Done)
          | inr _ =>
              let mark := length out in
              match run_locked spec s client out args with
              | (s, client, out, inl e) =>
                  let out := if decide (mark < length out)%nat then take mark out else out in
                  let '(s, out) := reply_error out proto e s in (s, client, out, Done)
              | (s, client, out, inr (Some req)) => (s, client, out, Blocked req)
              | (s, client, out, inr None) => (s, client, out, if should_close client then Close else Done)
              end
          end
    end.

(** Called by the connection loop after each command. *)
Definition post_command (client : ClientState) : ClientState :=
  let client := if contains (client_flags client) REPLY_SKIP
                then with_flags (Z.ldiff (client_flags client) REPLY_SKIP) client else client in
  if contains (client_flags client) REPLY_SKIP_NEXT
  then with_flags (Z.lor (Z.ldiff (client_flags client) REPLY_SKIP_NEXT) REPLY_SKIP) client else client.

Definition total_dirty (s : ServerShared) : Z := server_dirty (shared s).
End dispatch.

(** ** The server as a map *)

Section facts.
Context `{Memchr, ItoaLaws, Ryu, Fastrand}.

(** A map that [ShardMap::new] can have built, whatever has run since. *)
Record map_ok (m : ShardMap) : Prop := {
  ok_index key : (shard_index m key < map_len m)%nat;
  ok_len : Z.of_nat (map_len m) <= 65536;
  ok_dbs : Forall (fun h => length (dbs (lock h)) = databases m) (Shard.shards m)
}.

(** The entry of a key in database [n], and what a client sees of it at [now]. *)
Definition server_entry (m : ShardMap) (n : nat) (k : Key) : option Entry :=
  h ← shard_for m k; d ← db n (lock h); dict d !! k.
Definition server_view (m : ShardMap) (n : nat) (now : Z) (k : Key) : option (Robj * option Z) :=
  server_entry m n k ≫= live now.

Lemma map_ok_new count databases : (Z.of_nat (map_len (shard_map_new count databases)) <= 65536) -> map_ok (shard_map_new count databases).
Proof.
  intros Hl. split; [intros key; apply shard_index_bound|done|]. apply Forall_fmap, Forall_true. intros i. simpl.
  by rewrite length_fmap, length_seq.
Qed.

Lemma guard_shard_in g i s : NoDup (fst <$> guards g) -> (i, s) ∈ guards g -> guard_shard i g = Some s.
Proof. intros Hnd Hin. unfold guard_shard. by destruct (list_find_fst _ i s Hnd Hin) as [k ->]. Qed.

Lemma guard_shard_out g i : i ∉ (fst <$> guards g) -> guard_shard i g = None.
Proof.
  intros Hn. unfold guard_shard. destruct (list_find _ (guards g)) as [[k [j s]]|] eqn:E; [|done].
  apply list_find_Some in E as (E & Hj & _). simpl in Hj. subst j. destruct Hn. apply list_elem_of_fmap.
  exists (i, s). split; [done|]. by eapply list_elem_of_lookup_2.
Qed.

Lemma lock_set_shard m s i :
  ascending (fst <$> guards (lock_set m s)) ->
  guard_shard i (lock_set m s) = if decide (i ∈ (fst <$> guards (lock_set m s))) then lock <$> map_get m i else None.
Proof.
  intros Ha%ascending_nodup. case_decide as Hi; [|by apply guard_shard_out].
  apply list_elem_of_fmap in Hi as ([j u] & -> & Hin). simpl. rewrite (guard_shard_in _ j u Ha Hin).
  unfold lock_set in Hin. cbn [guards] in Hin. apply list_elem_of_omap in Hin as (i & _ & E).
  destruct (map_get m i) as [h|] eqn:Eh; [|done]. injection E as -> <-. by rewrite Eh.
Qed.

Lemma release_get g m i :
  NoDup (fst <$> guards g) ->
  lock <$> map_get (release g m) i = (h ← map_get m i; Some (default (lock h) (guard_shard i g))).
Proof.
  unfold release, map_get. cbn [Shard.shards]. destruct g as [l w]. cbn [guards].
  generalize (Shard.shards m) as hs. induction l as [|[j s] l IH]; intros hs Hnd.
  - simpl. by destruct (hs !! i).
  - rewrite fmap_cons in Hnd. apply NoDup_cons in Hnd as [Hj Hnd]. simpl foldl. rewrite IH by done.
    rewrite guard_shard_cons, list_lookup_alter. cbn [fst] in Hj. destruct (decide (j = i)) as [->|Hne]; [|done].
    destruct (hs !! i) as [h|]; [|done]. simpl. by rewrite guard_shard_out.
Qed.

(** Guards that hold the same databases. *)
Record same_dbs (g g' : ShardGuards) : Prop := {
  sd_fst : fst <$> guards g' = fst <$> guards g;
  sd_dbs i : dbs <$> guard_shard i g' = dbs <$> guard_shard i g
}.

Lemma upd_primary_dbs f g : (forall s, dbs (f s) = dbs s) -> same_dbs g (upd_primary f g).
Proof.
  intros Hf. destruct g as [[|[j s] l] w]; [by split|]. split; [done|]. intros i. unfold upd_primary. cbn [guards g_mask].
  rewrite !guard_shard_cons. case_decide; [|done]. simpl. by rewrite Hf.
Qed.

Lemma propagate_outcome_dbs w n args o : same_dbs (o_shards o) (propagate_outcome w n args o).
Proof.
  unfold propagate_outcome. destruct (o_prop o); [case_match; [by apply upd_primary_dbs|done]|apply upd_primary_dbs|done].
  intros s. revert s. induction (o_prop_buf o) as [|a l IH]; intros s; simpl; [done|by rewrite IH].
Qed.

Section run.
Context (spec : CommandSpec CmdHandler) (args : Args) (m : ShardMap) (w : ReplyWriter) (client : ClientState)
        (sh : Shared) (cfg : Config) (now : Z).
#[local] Abbreviation g0 := (lock_set m (shard_set_for spec args m)).
#[local] Abbreviation c0 := (ctx_new w client sh g0 cfg now m).
#[local] Abbreviation locked k := (shard_index m k ∈ (fst <$> guards g0)).

Lemma guards_nodup : NoDup (fst <$> guards g0).
Proof. apply ascending_nodup, (lock_order_ascending spec args m). Qed.

Lemma key_db_locked k : locked k -> key_db k c0 = shard_for m k ≫= fun h => db (client_db client) (lock h).
Proof.
  intros Hk. unfold key_db, for_key. change (shards c0) with g0. change (db_index c0) with (client_db client).
  change (key_index g0 k) with (shard_index m k). rewrite lock_set_shard by apply (lock_order_ascending spec args m).
  rewrite decide_True by done. unfold shard_for. by destruct (map_get m _).
Qed.

Lemma entry_locked k : locked k -> entry k c0 = server_entry m (client_db client) k.
Proof.
  intros Hk. unfold entry, server_entry. rewrite key_db_locked by done. by destruct (shard_for m k).
Qed.

Lemma view_locked k : locked k -> view k c0 = server_view m (client_db client) now k.
Proof. intros Hk. unfold view, server_view. by rewrite entry_locked. Qed.

Lemma covered_locked k : map_ok m -> (client_db client < databases m)%nat -> locked k -> covered k c0.
Proof.
  intros [Hi _ Hd] Hn Hk. unfold covered. rewrite key_db_locked by done. unfold shard_for, map_get.
  destruct (lookup_lt_is_Some_2 (Shard.shards m) (shard_index m k) (Hi k)) as [h Hh]. rewrite Hh. simpl.
  rewrite Forall_lookup in Hd. apply lookup_lt_is_Some_2. by rewrite (Hd _ _ Hh).
Qed.

(** What the server shows once the handler's context has been released. *)
Lemma release_entry_at n c' g k :
  g_mask (shards c') = mask m ->
  fst <$> guards (shards c') = fst <$> guards g0 -> same_dbs (shards c') g ->
  server_entry (release g m) n k = if decide (locked k) then entry_at n k c' else server_entry m n k.
Proof.
  intros Hm Hl [Hf Hd]. unfold server_entry, shard_for. change (shard_index (release g m) k) with (shard_index m k).
  assert (NoDup (fst <$> guards g)) as Hnd by (rewrite Hf, Hl; apply guards_nodup).
  pose proof (release_get g m (shard_index m k) Hnd) as Hr. specialize (Hd (shard_index m k)).
  unfold entry_at, db_at, for_key.
  assert (key_index (shards c') k = shard_index m k) as -> by (unfold key_index; by rewrite Hm).
  case_decide as Hk.
  - rewrite <-Hl in Hk. apply list_elem_of_fmap in Hk as ([j s] & E & Hin). cbn [fst] in E. rewrite E in *.
    assert (j < length (Shard.shards m))%nat as Hj.
    { assert (j ∈ (fst <$> guards g0)) as Hj by (rewrite <-Hl; apply list_elem_of_fmap; by exists (j, s)).
      unfold lock_set in Hj. cbn [guards] in Hj. rewrite omap_guards in Hj. by apply list_elem_of_filter in Hj as [? _]. }
    apply lookup_lt_is_Some_2 in Hj as [h Hh]. change (map_get m j = Some h) in Hh.
    rewrite Hh in Hr. simpl in Hr.
    rewrite (guard_shard_in (shards c') j s) in * by (rewrite ?Hl; auto using guards_nodup).
    destruct (guard_shard j g) as [s'|]; [|done]. simpl in Hr, Hd. injection Hd as Hd.
    destruct (map_get (release g m) j) as [h'|]; [|done]. simpl in *. injection Hr as ->. unfold db. by rewrite Hd.
  - rewrite (guard_shard_out g) in Hr by by rewrite Hf, Hl. simpl in Hr.
    destruct (map_get m _) as [h|], (map_get (release g m) _) as [h'|]; simpl in *; try done.
    by injection Hr as ->.
Qed.

Lemma entry_at_locked n k : locked k -> entry_at n k c0 = server_entry m n k.
Proof.
  intros Hk. unfold entry_at, db_at, for_key, server_entry. change (shards c0) with g0.
  change (key_index g0 k) with (shard_index m k). rewrite lock_set_shard by apply (lock_order_ascending spec args m).
  rewrite decide_True by done. unfold shard_for. by destruct (map_get m _).
Qed.
End run.

Lemma declared_locked (spec : CommandSpec CmdHandler) args m pos key :
  map_ok m -> has_flag (flags spec) ALL_SHARDS = false -> pos ∈ key_positions spec args -> args !! pos = Some key ->
  shard_index m key ∈ (fst <$> guards (lock_set m (shard_set_for spec args m))).
Proof.
  intros [Hi Hl _] Ha Hp Hk. unfold lock_set. cbn [guards]. rewrite omap_guards. apply list_elem_of_filter.
  split; [apply Hi|]. unfold set_iter. apply list_elem_of_fmap. exists (Z.of_nat (shard_index m key)).
  split; [by rewrite Nat2Z.id|]. unfold shard_set_for. rewrite Ha. apply finish_sorted.
  rewrite <-(wrapu_small 16 (Z.of_nat (shard_index m key))); [by apply (collected m args pos)|done|].
  specialize (Hi key). unfold in_unsigned. lia.
Qed.

(** A command that passes every gate of [dispatch]. *)
Record admitted (s : ServerShared) (client : ClientState) (args : Args) (spec : CommandSpec CmdHandler) : Prop := {
  ad_lookup : Commands.lookup (arg_name args) (commands s) = Some spec;
  ad_arity : arity_ok spec (length args) = true;
  ad_auth : authenticated client = true;
  ad_oom : has_flag (flags spec) DENYOOM = true -> check_oom (shard_map s) (config s) = inr tt;
  ad_map : map_ok (shard_map s);
  ad_db : (client_db client < databases (shard_map s))%nat
}.

Lemma dispatch_admitted s client out_ args spec :
  admitted s client args spec ->
  dispatch s client out_ args =
  match run_locked spec (with_shared (bump_stat commands_processed) s) (with_last_command (name spec) client) out_ args with
  | (s, client, out, inl e) =>
      let out := if decide (length out_ < length out)%nat then take (length out_) out else out in
      let '(s, out) := reply_error out (client_proto (with_last_command (name spec) client)) e s in (s, client, out, Done)
  | (s, client, out, inr (Some req)) => (s, client, out, Blocked req)
  | (s, client, out, inr None) => (s, client, out, if should_close client then Close else Done)
  end.
Proof.
  intros [Hl Har Hau Ho Hm Hd]. unfold dispatch. case_decide as E; [by subst args; vm_compute in Hl|].
  cbv zeta. change (commands (with_shared _ s)) with (commands s). rewrite Hl, Har.
  change (authenticated (with_last_command (name spec) client)) with (authenticated client). rewrite Hau.
  cbn [negb andb intercept].
  change (shard_map (with_shared _ s)) with (shard_map s). change (config (with_shared _ s)) with (config s).
  destruct (has_flag _ DENYOOM); [by rewrite Ho|done].
Qed.

Lemma upd_primary_length f g n :
  (forall s, dbs (f s) = dbs s) -> Forall (fun p => length (dbs p.2) = n) (guards g) ->
  Forall (fun p => length (dbs p.2) = n) (guards (upd_primary f g)).
Proof.
  intros Hf Hg. unfold upd_primary. cbn [guards]. destruct (guards g) as [|[i s] l]; [done|].
  apply Forall_cons in Hg as [Hs Hg]. constructor; [simpl in *; by rewrite Hf|done].
Qed.

Lemma propagate_outcome_length w n args o d :
  Forall (fun p => length (dbs p.2) = d) (guards (o_shards o)) ->
  Forall (fun p => length (dbs p.2) = d) (guards (propagate_outcome w n args o)).
Proof.
  intros Hg. unfold propagate_outcome.
  destruct (o_prop o); [case_match; [by apply upd_primary_length|done]|apply upd_primary_length; [|done]|done].
  intros s. revert s. induction (o_prop_buf o) as [|a l IH]; intros s; simpl; [done|by rewrite IH].
Qed.

(** Releasing shards keeps the map's shape. *)
Lemma release_ok g m :
  map_ok m -> Forall (fun p => length (dbs p.2) = databases m) (guards g) -> map_ok (release g m).
Proof.
  intros Hm Hg.
  assert (length (Shard.shards (release g m)) = length (Shard.shards m) /\
    Forall (fun h => length (dbs (lock h)) = databases m) (Shard.shards (release g m))) as [Hl Hd].
  { unfold release. cbn [Shard.shards]. destruct Hm as [_ _ Hd]. revert Hd. generalize (Shard.shards m) as hs.
    induction Hg as [|[i s] l Hs Hg IH]; intros hs Hd; simpl; [done|].
    destruct (IH (alter (fun h => sync_stats s {| lock := s; h_dirty := h_dirty h; h_keys := h_keys h;
       h_expires := h_expires h; h_mem := h_mem h |}) i hs)) as [E Hf]; [by apply Forall_alter|].
    by rewrite E, length_alter. }
  destruct Hm as [Hi Hn _]. unfold map_len in *. split; [|by unfold map_len; rewrite Hl|done].
  intros key. unfold map_len. rewrite Hl. apply Hi.
Qed.

(** A handler's run on the shards it has locked, seen from the server. *)
Lemma run_locked_entry (spec : CommandSpec CmdHandler) args s client out_ :
  let n := client_db client in
  let g := lock_set (shard_map s) (shard_set_for spec args (shard_map s)) in
  let c0 := ctx_new {| buf := out_; proto := client_proto client |} client (shared s) g (config s) (clock_ms s) (shard_map s) in
  forall c' r k0, handler spec args c0 = (c', r) -> same_but k0 c0 c' ->
  exists s', run_locked spec s client out_ args =
    (s', Ctx.client c', buf (out c'), match r with inl e => inl e | inr _ => inr (block c') end) /\
    commands s' = commands s /\
    (map_ok (shard_map s) -> map_ok (shard_map s') /\ databases (shard_map s') = databases (shard_map s)) /\
    (forall m k, m <> n -> server_entry (shard_map s') m k = server_entry (shard_map s) m k) /\
    forall k, server_entry (shard_map s') n k =
      if decide (shard_index (shard_map s) k ∈ (fst <$> guards g)) then entry k c' else server_entry (shard_map s) n k.
Proof.
  cbv zeta. intros c' r k0 Hh Hs. unfold run_locked. cbv zeta. rewrite Hh. eexists. do 2 (split; [done|]). split.
  { intros Hm. split; [|done]. apply release_ok; [done|]. set (g := lock_set _ _) in *.
    assert (Forall (fun p => length (dbs p.2) = databases (shard_map s)) (guards g)) as Hg.
    { subst g. apply Forall_forall. intros [i u] Hin. unfold lock_set in Hin. cbn [guards] in Hin.
      apply list_elem_of_omap in Hin as (j & _ & E). destruct (map_get (shard_map s) j) as [h|] eqn:Eh; [|done].
      injection E as _ <-. destruct Hm as [_ _ Hd]. rewrite Forall_lookup in Hd. by apply (Hd j). }
    assert (Forall (fun p => length (dbs p.2) = databases (shard_map s)) (guards (shards c'))) as Hg'.
    { apply (Forall_fmap (fun p : nat * Shard => (p.1, length (dbs p.2))) (fun q => q.2 = databases (shard_map s))).
      change (Forall (fun q => q.2 = databases (shard_map s)) (shape (shards c'))). rewrite (sb_shape _ _ _ Hs).
      by apply Forall_fmap. }
    destruct r; [done|]. cbn [o_shards ctx_finish]. case_match; [|done]. by apply propagate_outcome_length. }
  set (c0 := ctx_new _ _ _ _ _ _ _) in *.
  assert (Hi : db_index c' = client_db client) by (unfold db_index; by rewrite (sb_client _ _ _ Hs)).
  lazymatch goal with |- context [release ?g] =>
    assert (same_dbs (shards c') g) as Hg
      by (destruct r; [done|]; cbn [o_shards ctx_finish]; case_match; [apply (propagate_outcome_dbs _ _ _ (ctx_finish c'))|done]) end.
  pose proof (fun n k => release_entry_at spec args (shard_map s) n c' _ k (sb_mask _ _ _ Hs) (sb_locked _ _ _ Hs) Hg) as Hr.
  split; [intros m k Hm|intros k].
  - etrans; [exact (Hr m k)|]. case_decide as Hk; [|done]. rewrite (sb_other _ _ _ Hs) by by rewrite (eq_refl : db_index c0 = client_db client).
    by apply (entry_at_locked spec args (shard_map s)).
  - pose proof (Hr (client_db client) k) as E. rewrite <-Hi in E |- *. exact E.
Qed.

(** A single-key command and the key it locks. *)
Lemma one_key (spec : CommandSpec CmdHandler) (args : Args) key :
  has_flag (flags spec) MOVABLE_KEYS = false -> first_key spec = 1 -> last_key spec = 1 -> key_step spec = 1 ->
  args !! 1%nat = Some key -> 1%nat ∈ key_positions spec args.
Proof.
  intros Hm Hf Hl Hst Hk. unfold key_positions. rewrite Hm, Hf, Hl, Hst. rewrite decide_False by lia.
  rewrite decide_False by lia. cbn [key_positions_loop]. apply lookup_lt_Some in Hk.
  rewrite decide_True by (unfold blen; lia). rewrite decide_True by lia. by left.
Qed.

(** [SET] without [GET], not refused: the server's map changes at the key. *)
Lemma dispatch_set s client out_ args key value o :
  admitted s client args set_spec ->
  args !! 1%nat = Some key -> args !! 2%nat = Some value -> parse_set_options args (clock_ms s) = inr o -> get_ o = false ->
  let n := client_db client in let v := server_view (shard_map s) n (clock_ms s) key in
  set_refused o v = false ->
  exists s' client', dispatch s client out_ args =
    (s', client', out_ ++ bs "+OK" ++ CRLF, if should_close client then Close else Done) /\
  client_db client' = n /\ commands s' = commands s /\ map_ok (shard_map s') /\
  databases (shard_map s') = databases (shard_map s) /\
  (exists e, server_entry (shard_map s') n key = Some e /\ obj e = Str (from_bytes value) /\ expire_at_ms e = set_deadline o v) /\
  forall m k, (m, k) <> (n, key) -> server_entry (shard_map s') m k = server_entry (shard_map s) m k.
Proof.
  intros Had Hk Hval Ho Hg. cbv zeta. intros Hr. pose proof Had as [_ _ _ _ Hm Hd].
  rewrite (dispatch_admitted s client out_ args set_spec Had).
  set (s1 := with_shared (bump_stat commands_processed) s). set (client1 := with_last_command (name set_spec) client).
  pose proof (declared_locked set_spec args (shard_map s) 1 key Hm eq_refl
    (one_key set_spec args key eq_refl eq_refl eq_refl eq_refl Hk) Hk) as Hlk.
  set (w := {| buf := out_; proto := client_proto client1 |}).
  set (c0 := ctx_new w client1 (shared s1) (lock_set (shard_map s1) (shard_set_for set_spec args (shard_map s1)))
    (config s1) (clock_ms s1) (shard_map s1)).
  assert (Hv0 : view key c0 = server_view (shard_map s) (client_db client) (clock_ms s) key)
    by exact (view_locked set_spec args (shard_map s) w client1 (shared s1) (config s) (clock_ms s) key Hlk).
  assert (Hc0 : covered key c0)
    by exact (covered_locked set_spec args (shard_map s) w client1 (shared s1) (config s) (clock_ms s) key Hm Hd Hlk).
  pose proof (cmd_set_eq args key value o c0 Hk Hval Ho) as Hh. rewrite bind_eq, Hg in Hh. cbn [mret M_ret] in Hh.
  destruct (set_core_done key value o None c0 Hc0) as (c' & Ec & Hs & Hb & He & _ & _ & Hout & _); [by rewrite Hv0|].
  rewrite Ec in Hh. rewrite Hv0 in He.
  destruct (run_locked_entry set_spec args s1 client1 out_ c' (inr tt) key Hh Hs) as (s' & E & Hcmd & Hmap & Hdb & Hse).
  destruct (Hmap Hm) as [Hm' Hdb'].
  change (client_db client1) with (client_db client) in Hse. change (shard_map s1) with (shard_map s) in Hse.
  exists s', (Ctx.client c'). rewrite E, Hb, Hout, (sb_client _ _ _ Hs). split_and!; try done.
  - by rewrite Hse, decide_True.
  - intros m k Hne. destruct (decide (m = client_db client)) as [->|Hm2]; [|by apply Hdb].
    assert (key <> k) as Hk2 by congruence. rewrite Hse. case_decide as Hin; [|done]. rewrite (sb_entry _ _ _ Hs k Hk2).
    exact (entry_locked set_spec args (shard_map s) w client1 (shared s1) (config s) (clock_ms s) k Hin).
Qed.

Lemma dispatch_get s client out_ args key :
  admitted s client args get_spec -> args !! 1%nat = Some key ->
  let v := server_view (shard_map s) (client_db client) (clock_ms s) key in
  wrong_type v = false ->
  exists s' client', dispatch s client out_ args =
    (s', client', buf (write_bulk (reply_value v) {| buf := out_; proto := client_proto client |}),
     if should_close client then Close else Done).
Proof.
  intros Had Hk. cbv zeta. intros Hw. pose proof Had as [_ _ _ _ Hm Hd].
  rewrite (dispatch_admitted s client out_ args get_spec Had).
  set (s1 := with_shared (bump_stat commands_processed) s). set (client1 := with_last_command (name get_spec) client).
  pose proof (declared_locked get_spec args (shard_map s) 1 key Hm eq_refl
    (one_key get_spec args key eq_refl eq_refl eq_refl eq_refl Hk) Hk) as Hlk.
  set (w := {| buf := out_; proto := client_proto client1 |}).
  set (c0 := ctx_new w client1 (shared s1) (lock_set (shard_map s1) (shard_set_for get_spec args (shard_map s1)))
    (config s1) (clock_ms s1) (shard_map s1)).
  assert (Hv0 : view key c0 = server_view (shard_map s) (client_db client) (clock_ms s) key)
    by exact (view_locked get_spec args (shard_map s) w client1 (shared s1) (config s) (clock_ms s) key Hlk).
  destruct (cmd_get_run args key c0 Hk) as (c' & Hh & Hs & Hb & _ & Hout); [by rewrite Hv0|].
  destruct (run_locked_entry get_spec args s1 client1 out_ c' (inr tt) key Hh Hs) as (s' & E & _).
  exists s', (Ctx.client c'). by rewrite E, Hb, Hout, Hv0, (sb_client _ _ _ Hs).
Qed.

Definition at_clock (now : Z) (s : ServerShared) : ServerShared :=
  {| shard_map := shard_map s; clock_ms := now; commands := commands s; shared := shared s |}.

(** C1: End to end, through every gate and lock of [dispatch]: an accepted
    [SET] (any options but [GET], not refused by [NX]/[XX]) replies OK and
    leaves every other key of the server, of that database or of another, as
    it was, and whatever client then
    asks for the key in that database, at any later clock and in either
    protocol, is answered with exactly the bytes that were set, or with null
    once the deadline the options gave has passed. *)
Theorem set_then_get s client out_ args key value o :
  admitted s client args set_spec ->
  args !! 1%nat = Some key -> args !! 2%nat = Some value -> parse_set_options args (clock_ms s) = inr o -> get_ o = false ->
  let v := server_view (shard_map s) (client_db client) (clock_ms s) key in
  set_refused o v = false ->
  exists s' client', dispatch s client out_ args =
    (s', client', out_ ++ bs "+OK" ++ CRLF, if should_close client then Close else Done) /\
  (forall n k, (n, k) <> (client_db client, key) -> server_entry (shard_map s') n k = server_entry (shard_map s) n k) /\
  forall now2 client2 out2 nm,
    client_db client2 = client_db client -> authenticated client2 = true ->
    Commands.lookup nm (commands s) = Some get_spec ->
    let expired := match set_deadline o v with Some t => bool_decide (t <= now2) | None => false end in
    exists s2 client2', dispatch (at_clock now2 s') client2 out2 [nm; key] =
      (s2, client2', buf (write_bulk (if expired then None else Some value) {| buf := out2; proto := client_proto client2 |}),
       if should_close client2 then Close else Done).
Proof.
  intros Had Hk Hv Ho Hg. cbv zeta. intros Hr.
  destruct (dispatch_set s client out_ args key value o Had Hk Hv Ho Hg Hr) as (s' & client' & E & _ & Hcmd & Hm' & Hdbs & (e & He & Hobj & Hx) & Hoth).
  exists s', client'. split_and!; [done|done|]. intros now2 client2 out2 nm Hdb Hau Hl.
  assert (admitted (at_clock now2 s') client2 [nm; key] get_spec) as Had2.
  { split; [cbn; by rewrite Hcmd|done|done|done|done|]. cbn. rewrite Hdb, Hdbs. apply Had. }
  assert (server_view (shard_map (at_clock now2 s')) (client_db client2) (clock_ms (at_clock now2 s')) key =
    if match set_deadline o (server_view (shard_map s) (client_db client) (clock_ms s) key) with
       | Some t => bool_decide (t <= now2) | None => false end
    then None else Some (Str (from_bytes value), expire_at_ms e)) as Hview.
  { unfold server_view at 1. rewrite Hdb. change (shard_map (at_clock now2 s')) with (shard_map s'). rewrite He. simpl.
    unfold live, is_expired. by rewrite Hx, Hobj. }
  destruct (dispatch_get (at_clock now2 s') client2 out2 [nm; key] key Had2 eq_refl) as (s2 & c2 & E2).
  { rewrite Hview. by case_match. }
  exists s2, c2. rewrite E2, Hview. do 3 f_equal. unfold reply_value.
  destruct (match set_deadline o _ with Some t => _ | None => _ end); [done|]. simpl. by rewrite to_from_bytes.
Qed.

(** ** Refusals and failures *)

Definition error_line (e : CmdError) : bytes := bs "-" ++ display e ++ CRLF.

Lemma read_error_line e more : x0d ∉ display e -> read_wire (error_line e ++ more) = Some (WLine "-"%byte (display e), more).
Proof.
  intros Hcr. unfold read_wire, error_line. change (bs "-") with ["-"%byte]. rewrite <-!app_assoc. cbn [app length read_frame].
  rewrite read_line_crlf by done. cbn [mbind option_bind]. by rewrite decide_True by (unfold line_tags; set_solver).
Qed.

Lemma reply_error_eq out proto e s :
  reply_error out proto e s = (with_shared (bump_stat total_error_replies) s, out ++ error_line e).
Proof. unfold reply_error, error_line, error, put_u8, extend_from_slice. cbn. by rewrite <-!app_assoc. Qed.

(** Why a command is turned away before it touches a shard, in the order the gates are tried. *)
Definition gate_error (s : ServerShared) (client : ClientState) (args : Args) : option CmdError :=
  match Commands.lookup (arg_name args) (commands s) with
  | None => Some (unknown_command (arg_name args) (drop 1 args))
  | Some spec =>
      if negb (arity_ok spec (length args)) then Some (WrongArity (name spec))
      else if negb (authenticated client) && negb (no_auth_command (name spec)) then Some Unauthenticated
      else if has_flag (flags spec) DENYOOM then
        match check_oom (shard_map s) (config s) with inl e => Some e | inr _ => None end
      else None
  end.

(** The text of a gate's error holds no line break that the request did not. *)
Lemma gate_error_unbroken s client args e :
  gate_error s client args = Some e -> Forall unbroken args ->
  (forall spec, Commands.lookup (arg_name args) (commands s) = Some spec -> unbroken (name spec)) -> unbroken (display e).
Proof.
  intros Hg Ha Hn. unfold gate_error in Hg. destruct (Commands.lookup _ _) as [spec|].
  2: { injection Hg as <-. apply unbroken_unknown; [|by apply Forall_drop]. destruct Ha; [apply unbroken_nil|done]. }
  specialize (Hn spec eq_refl). destruct (negb (arity_ok _ _)).
  { injection Hg as <-. cbn [display]. rewrite !unbroken_app.
    split_and!; [apply unbroken_by_check; vm_compute; reflexivity|done|apply unbroken_by_check; vm_compute; reflexivity]. }
  destruct (_ && _); [injection Hg as <-; apply unbroken_by_check; vm_compute; reflexivity|].
  destruct (has_flag _ _); [|done]. unfold check_oom in Hg. destruct (negb _); [done|].
  destruct (match maxmemory_policy _ with NoEviction => _ | _ => _ end); [|done].
  injection Hg as <-. apply unbroken_by_check; vm_compute; reflexivity.
Qed.

(** C23: A command that fails a gate (unknown, wrong arity, not authenticated,
    out of memory) is answered, after whatever was already in the buffer, with
    the error's text between [-] and CRLF, and no shard, clock, table or
    configuration is touched: in particular an unauthenticated client changes
    nothing except through AUTH, HELLO, QUIT and RESET.  The client reads that
    answer as one error reply when the words of the request (which
    [unknown_command] echoes) and the command's name hold no CR or LF; without
    that it may not, see [error_splits]. *)
Theorem dispatch_gates s client out_ args e :
  args <> [] -> gate_error s client args = Some e ->
  let '(s', client', out', o) := dispatch s client out_ args in
  shard_map s' = shard_map s /\ config s' = config s /\ clock_ms s' = clock_ms s /\ commands s' = commands s /\
  server_dirty (shared s') = server_dirty (shared s) /\ published (shared s') = published (shared s) /\
  out' = out_ ++ error_line e /\ o = Done /\ client_db client' = client_db client /\
  authenticated client' = authenticated client /\
  (Forall unbroken args -> (forall spec, Commands.lookup (arg_name args) (commands s) = Some spec -> unbroken (name spec)) ->
    forall more, read_wire (error_line e ++ more) = Some (WLine "-"%byte (display e), more)).
Proof.
  intros Hne Hg. assert (Hline : Forall unbroken args -> (forall spec, Commands.lookup (arg_name args) (commands s) = Some spec -> unbroken (name spec)) ->
    forall more, read_wire (error_line e ++ more) = Some (WLine "-"%byte (display e), more)).
  { intros Ha Hn more. apply read_error_line. by apply (gate_error_unbroken s client args e Hg Ha Hn). }
  unfold dispatch. rewrite decide_False by done. cbv zeta.
  change (commands (with_shared _ s)) with (commands s). unfold gate_error in Hg.
  destruct (Commands.lookup _ _) as [spec|]; [|injection Hg as <-; by rewrite reply_error_eq].
  destruct (arity_ok spec (length args)); cbn [negb] in *; [|injection Hg as <-; by rewrite reply_error_eq].
  change (authenticated (with_last_command _ client)) with (authenticated client).
  destruct (negb (authenticated client) && _); [injection Hg as <-; by rewrite reply_error_eq|].
  unfold intercept. destruct (has_flag _ DENYOOM); [|done].
  change (shard_map (with_shared _ s)) with (shard_map s). change (config (with_shared _ s)) with (config s).
  destruct (check_oom _ _) as [e'|]; [|done]. injection Hg as <-. by rewrite reply_error_eq.
Qed.

(** When a handler fails, everything it had written is discarded and the
    client gets one error line in its place, so a reply is never half of one
    answer followed by an error. *)
Theorem failure_reply s client out_ args spec e :
  admitted s client args spec ->
  (forall c, buf (out c) `prefix_of` buf (out (handler spec args c).1)) ->
  (run_locked spec (with_shared (bump_stat commands_processed) s) (with_last_command (name spec) client) out_ args).2 = inl e ->
  let '(s', client', out', o) := dispatch s client out_ args in
  out' = out_ ++ error_line e /\ o = Done.
Proof.
  intros Had Hpre. rewrite (dispatch_admitted s client out_ args spec Had).
  set (s1 := with_shared _ s). set (client1 := with_last_command _ client).
  assert (out_ `prefix_of` (run_locked spec s1 client1 out_ args).1.2) as Hp.
  { unfold run_locked. set (c0 := ctx_new _ _ _ _ _ _ _). specialize (Hpre c0).
    destruct (handler spec args c0) as [c' r]. exact Hpre. }
  destruct (run_locked spec s1 client1 out_ args) as [[[s' c'] o'] r]. cbn [fst snd] in *. intros ->. cbv zeta.
  rewrite reply_error_eq. split; [|done]. f_equal. destruct Hp as [k ->]. rewrite length_app. case_decide.
  - by rewrite take_app_length.
  - destruct k; [by rewrite app_nil_r|simpl in *; lia].
Qed.

Definition backlog (g : ShardGuards) : list (nat * list Propagation) := prod_map id repl_buf <$> guards g.

(** What a successful command leaves for the AOF and replicas is appended
    once, to the first shard it locked and to no other: what the handler
    queued, or the command itself when it is a write that modified something,
    or nothing. *)
Theorem propagated_once w n args o i s l :
  guards (o_shards o) = (i, s) :: l ->
  backlog (propagate_outcome w n args o) =
  (i, repl_buf s ++ ((fun a => {| prop_db := n; prop_argv := a |}) <$>
        match o_prop o with
        | Suppressed => []
        | Explicit => o_prop_buf o
        | Default => if w && bool_decide (0 < o_dirty o) then [args] else []
        end)) :: (prod_map id repl_buf <$> l).
Proof.
  intros Hg. unfold backlog, propagate_outcome, upd_primary.
  assert (forall argvs s, repl_buf (foldl (fun s argv => propagate n argv s) s argvs) =
    repl_buf s ++ ((fun a => {| prop_db := n; prop_argv := a |}) <$> argvs)) as Hf.
  { induction argvs as [|a argvs IH]; intros s'; [by rewrite app_nil_r|]. simpl. rewrite IH. simpl. by rewrite <-app_assoc. }
  destruct (o_prop o); cbn [guards].
  - destruct (w && _); cbn [guards]; rewrite Hg; simpl; [done|by rewrite app_nil_r].
  - rewrite Hg. simpl. by rewrite Hf.
  - rewrite Hg. simpl. by rewrite app_nil_r.
Qed.

(** The [DENYOOM] gate refuses exactly when a limit is set, the estimate is
    above it, and eviction cannot help: under [noeviction], or under a
    volatile policy with no volatile key left. *)
Theorem check_oom_spec m cfg :
  check_oom m cfg = inl Oom <->
  maxmemory cfg <> 0 /\ maxmemory cfg < used_memory m /\
  (maxmemory_policy cfg = NoEviction \/
   maxmemory_policy cfg ∈ [VolatileLru; VolatileLfu; VolatileRandom; VolatileTtl] /\ volatile_keys m = 0).
Proof.
  unfold check_oom, over_limit. destruct (bool_decide (maxmemory cfg <> 0)) eqn:E1; cbn [andb negb].
  2: { apply bool_decide_eq_false in E1. split; [done|tauto]. }
  apply bool_decide_eq_true in E1. destruct (bool_decide (maxmemory cfg < used_memory m)) eqn:E2; cbn [negb].
  2: { apply bool_decide_eq_false in E2. split; [done|tauto]. }
  apply bool_decide_eq_true in E2. rewrite !elem_of_cons, elem_of_nil.
  destruct (decide (volatile_keys m = 0)) as [E3|E3];
    [rewrite (bool_decide_true _ E3)|rewrite (bool_decide_false _ E3)];
    destruct (maxmemory_policy cfg); intuition congruence.
Qed.
End facts.

(** ** Witnesses *)

Section witnesses.
#[local] Existing Instances memchr_find itoa_model itoa_model_laws ryu_model no_draws.

Definition demo_table : CommandTable := default table_new (register table_new).
Definition demo_server : ServerShared :=
  {| shard_map := shard_map_new 4 16; clock_ms := 1000; commands := demo_table; shared := demo_shared |}.
Definition demo_client (auth : bool) : ClientState := client_new 1 [] [] 0 (negb auth).

Lemma demo_lookup nm spec :
  nm <> [] /\ (length nm <= MAX_CMD_NAME)%nat /\ name spec = to_ascii_lowercase <$> nm ->
  spec ∈ [set_spec; get_spec; strlen_spec; mget_spec; mset_spec] ->
  Commands.lookup nm demo_table = Some spec.
Proof.
  intros Hn Hin. unfold demo_table.
  assert ((if register table_new then true else false) = true) as Hok by (vm_compute; reflexivity).
  destruct (register table_new) as [t|] eqn:Ht; [clear Hok|done]. simpl. by apply (lookup_iff _ t nm spec Ht).
Qed.

Lemma demo_map_ok : map_ok (shard_map_new 4 16).
Proof. apply map_ok_new. vm_compute. discriminate. Qed.

Definition set_ex : Args := [bs "SET"; bs "k"; bs "v"; bs "EX"; bs "10"].

Lemma demo_set_admitted : admitted demo_server (demo_client true) set_ex set_spec.
Proof.
  split; [apply demo_lookup; [split_and!; [done|vm_compute; lia|reflexivity]|left]|reflexivity..|exact demo_map_ok|simpl; lia].
Qed.

Lemma set_then_get_witness :
  exists s' client', dispatch demo_server (demo_client true) [] set_ex = (s', client', bs "+OK" ++ CRLF, Done) /\
  (exists s2 c2, dispatch (at_clock 10999 s') (demo_client true) [] [bs "get"; bs "k"] =
     (s2, c2, bs "$1" ++ CRLF ++ bs "v" ++ CRLF, Done)) /\
  (exists s2 c2, dispatch (at_clock 11000 s') (demo_client true) [] [bs "get"; bs "k"] =
     (s2, c2, bs "$-1" ++ CRLF, Done)).
Proof.
  destruct (set_then_get demo_server (demo_client true) [] set_ex (bs "k") (bs "v")
    {| nx := false; xx := false; get_ := false; keepttl := false; opt_expire_at_ms := Some 11000; has_expire := true |}
    demo_set_admitted eq_refl eq_refl ltac:(vm_compute; reflexivity) eq_refl eq_refl) as (s' & c' & E & _ & Hget).
  exists s', c'. split; [exact E|].
  assert (Hl : Commands.lookup (bs "get") (commands demo_server) = Some get_spec).
  { apply demo_lookup; [split_and!; [done|vm_compute; lia|reflexivity]|right; left]. }
  split.
  - exact (Hget 10999 (demo_client true) [] (bs "get") eq_refl eq_refl Hl).
  - exact (Hget 11000 (demo_client true) [] (bs "get") eq_refl eq_refl Hl).
Defined.

Lemma dispatch_gates_witness :
  let '(s', _, out', o) := dispatch demo_server (demo_client false) [] set_ex in
  shard_map s' = shard_map demo_server /\ out' = bs "-NOAUTH Authentication required." ++ CRLF /\
  read_wire out' = Some (WLine "-"%byte (bs "NOAUTH Authentication required."), []).
Proof.
  assert (gate_error demo_server (demo_client false) set_ex = Some Unauthenticated) as Hg.
  { unfold gate_error. change (commands demo_server) with demo_table.
    rewrite (demo_lookup _ set_spec); [reflexivity|split_and!; [done|vm_compute; lia|reflexivity]|left]. }
  pose proof (dispatch_gates demo_server (demo_client false) [] set_ex Unauthenticated ltac:(done) Hg) as E.
  destruct (dispatch _ _ _ _) as [[[s' c'] out'] o]. destruct E as (Hm & _ & _ & _ & _ & _ & Ho & _ & _ & _ & Hr).
  split; [exact Hm|]. split; [exact Ho|]. rewrite Ho, app_nil_l, <-(app_nil_r (error_line _)). apply Hr.
  - repeat constructor; apply unbroken_by_check; vm_compute; reflexivity.
  - intros spec. change (commands demo_server) with demo_table.
    rewrite (demo_lookup _ set_spec); [intros [= <-]; apply unbroken_by_check; vm_compute; reflexivity|split_and!; [done|vm_compute; lia|reflexivity]|left].
Defined.

(** A command whose handler writes half a reply and fails. *)
Definition half_spec : CommandSpec CmdHandler :=
  {| name := bs "half"; arity := 1; flags := 0; first_key := 0; last_key := 0; key_step := 0;
     handler := fun _ c => (set_out (array 2) c, inl NoSuchKey); get_keys := None |}.
Definition half_server : ServerShared :=
  {| shard_map := shard_map_new 4 16; clock_ms := 1000;
     commands := default table_new (Commands.add half_spec table_new); shared := demo_shared |}.

Lemma half_appends c : buf (out c) `prefix_of` buf (out (handler half_spec [bs "half"] c).1).
Proof. unfold half_spec, array, put_usize, put_u8, extend_from_slice. cbn. rewrite <-!app_assoc. by eexists. Qed.

Lemma failure_reply_witness :
  let '(_, _, out', _) := dispatch half_server (demo_client true) (bs "+OK" ++ CRLF) [bs "half"] in
  out' = bs "+OK" ++ CRLF ++ bs "-ERR no such key" ++ CRLF.
Proof.
  assert (admitted half_server (demo_client true) [bs "half"] half_spec) as Had.
  { split; [vm_compute; reflexivity|reflexivity..|exact demo_map_ok|simpl; lia]. }
  pose proof (failure_reply half_server (demo_client true) (bs "+OK" ++ CRLF) [bs "half"] half_spec NoSuchKey Had
    half_appends eq_refl) as E.
  destruct (dispatch _ _ _ _) as [[[s' c'] out'] o]. exact (proj1 E).
Defined.

Lemma propagated_once_witness :
  backlog (propagate_outcome true 0 set_ex {| o_shards := lock_all (shard_map_new 2 1); o_dirty := 1; o_prop := Default;
    o_prop_buf := []; o_block := None |}) = [(0%nat, [{| prop_db := 0; prop_argv := set_ex |}]); (1%nat, [])].
Proof.
  exact (propagated_once true 0 set_ex {| o_shards := lock_all (shard_map_new 2 1); o_dirty := 1; o_prop := Default;
    o_prop_buf := []; o_block := None |} 0 (shard_new 0 1) [(1%nat, shard_new 1 1)] eq_refl).
Defined.
End witnesses.
