(* ===== verification/Expire.v ===== *)
(** * The active expiry cycle ([src/shard/expire.rs])

    One sampling round over one database under the shard lock, what it
    publishes afterwards, and the sweep of a shard.  The iteration order of
    the hash map, the random window, and the moments at which the budget turns
    out to be spent are arbitrary.  The sweep is modelled without other
    threads between its rounds (a round is atomic: it holds the lock). *)
From S2P Require Import Prelude Config Crc Strnum Object Shard Errors Reply Notify Commands Engine Dtoa Client Registry Ctx StringCmd Dispatch.
Open Scope Z_scope.

(** ** Constants; durations are in nanoseconds *)

Definition KEYS_PER_LOOP : nat := 20.
Definition ACTIVE_EXPIRE_CYCLE_SLOW_TIME_PERC : Z := 25.
Definition CYCLE_CONTINUE_PCT : Z := 25.
Definition CYCLE_PERIOD : Z := 100 * 1000 * 1000.
Definition MIN_SHARD_BUDGET : Z := 100 * 1000.

Record CycleStats := { sampled : Z; expired : Z; rounds : Z; timed_out : bool }.
Definition cycle_stats_default : CycleStats := {| sampled := 0; expired := 0; rounds := 0; timed_out := false |}.

Definition merge (a b : CycleStats) : CycleStats :=
  {| sampled := sampled a + sampled b; expired := expired a + expired b; rounds := rounds a + rounds b;
     timed_out := timed_out a || timed_out b |}.

Definition shard_budget (shard_count : Z) : Z :=
  let total := CYCLE_PERIOD * ACTIVE_EXPIRE_CYCLE_SLOW_TIME_PERC / 100 in
  let each := total / wrapu 32 (Z.max shard_count 1) in
  if decide (each < MIN_SHARD_BUDGET) then MIN_SHARD_BUDGET else each.

Section expire.
Context `{Memchr, Itoa, Ryu, Fastrand, HashIter}.

(** The window of the expiry index that a round looks at; [i] is the draw. *)
Definition window (i : nat) (d : Db) (want : nat) : list (Key * Z) :=
  let n := size (expires d) in
  let want := Nat.min want n in
  take want (drop (below i (n - want + 1)) (hash_iter (expires d))).

Definition reap (d : Db) (victims : list Key) : Db :=
  foldl (fun d k => signal_watch k (remove_entry k d).1) d victims.

Definition sample_round (i : nat) (d : Db) (now_ms : Z) (want : nat) : Db * (nat * list Key) :=
  if decide (size (expires d) = 0%nat) then (d, (0%nat, []))
  else
    let w := window i d want in
    let victims := fst <$> filter (fun p => p.2 <= now_ms) w in
    (reap d victims, (length w, victims)).

Definition add_dirty (n : Z) (s : Shard) : Shard :=
  {| shard_index_ := shard_index_ s; dbs := dbs s; Shard.dirty := Shard.dirty s + n; repl_buf := repl_buf s; seq_ := seq_ s |}.

Definition propagate_all (verb : bytes) (n : nat) (keys : list Key) (s : Shard) : Shard :=
  foldl (fun s k => propagate n [verb; k] s) s keys.

Definition with_lock (s : Shard) (h : ShardHandle) : ShardHandle :=
  {| lock := s; h_dirty := h_dirty h; h_keys := h_keys h; h_expires := h_expires h; h_mem := h_mem h |}.

Definition put_handle (i : nat) (h : ShardHandle) (m : ShardMap) : ShardMap :=
  {| Shard.shards := <[i := h]> (Shard.shards m); mask := mask m; databases := databases m |}.

(** The body of the loop of [cycle_shard]: one round under the lock, then the
    counters and the notifications.  [None]: the database does not exist. *)
Definition expire_round (i db_idx : nat) (s : ServerShared) : ServerShared * option (nat * nat) :=
  match map_get (shard_map s) i with
  | None => (s, None)
  | Some h =>
      match db db_idx (lock h) with
      | None => (s, None)
      | Some d =>
          let del_verb := if lazyfree_lazy_expire (config s) then bs "UNLINK" else bs "DEL" in
          let '(d', (n, victims)) := sample_round (draws (shared s)) d (clock_ms s) KEYS_PER_LOOP in
          let shard := upd_db db_idx (fun _ => d') (lock h) in
          let h' :=
            if decide (victims = []) then with_lock shard h
            else
              let shard := add_dirty (blen victims) shard in
              let shard := if is_propagating (shared s) then propagate_all del_verb db_idx victims shard else shard in
              sync_stats shard (with_lock shard h) in
          let s := with_map (put_handle i h') s in
          let s := if decide (n = 0%nat) then s else with_shared draw s in
          let s := if decide (victims = []) then s
                   else with_shared (fun sh =>
                     let sh := add_server_dirty (blen victims)
                       {| stats := stats_add expired_keys (blen victims) (stats sh); server_dirty := server_dirty sh;
                          propagation_enabled := propagation_enabled sh; sink_installed := sink_installed sh;
                          published := published sh; draws := draws sh; config_handle := config_handle sh; registry := registry sh |} in
                     foldl (fun sh k => notify_dispatch (notify_keyspace_events (config s)) EXPIRED (bs "expired") db_idx k sh)
                       sh victims) s in
          (s, Some (n, length victims))
      end
  end.

(** The loop over one database.  [late t] says whether the [t]-th look at the
    time finds the deadline passed, and [clock t] is what the server's clock
    says right after it, by which that round judges the deadlines; the boolean
    of the result is the early [return]. *)
Fixpoint cycle_db (fuel : nat) (clock : nat -> Z) (late : nat -> bool) (t i db_idx : nat) (s : ServerShared) (total : CycleStats) :
    option (ServerShared * CycleStats * nat * bool) :=
  match fuel with
  | O => None
  | S fuel =>
      if late t then
        Some (s, {| sampled := sampled total; expired := expired total; rounds := rounds total; timed_out := true |}, S t, true)
      else
        match expire_round i db_idx (at_clock (clock t) s) with
        | (s, None) => Some (s, total, S t, false)
        | (s, Some (n, e)) =>
            let total := {| sampled := sampled total + Z.of_nat n; expired := expired total + Z.of_nat e;
                            rounds := rounds total + 1; timed_out := timed_out total |} in
            if decide (n = 0%nat) then Some (s, total, S t, false)
            else if decide (Z.of_nat e * 100 <= Z.of_nat n * CYCLE_CONTINUE_PCT) then Some (s, total, S t, false)
            else cycle_db fuel clock late (S t) i db_idx s total
        end
  end.

(** The loop over the databases. *)
Fixpoint cycle_dbs (fuel : nat) (clock : nat -> Z) (late : nat -> bool) (t i : nat) (idxs : list nat) (s : ServerShared) (total : CycleStats) :
    option (ServerShared * CycleStats) :=
  match idxs with
  | [] => Some (s, total)
  | n :: idxs =>
      match cycle_db fuel clock late t i n s total with
      | None => None
      | Some (s, total, _, true) => Some (s, total)
      | Some (s, total, t, false) => cycle_dbs fuel clock late t i idxs s total
      end
  end.

Definition cycle_shard (fuel : nat) (clock : nat -> Z) (late : nat -> bool) (i : nat) (s : ServerShared) : option (ServerShared * CycleStats) :=
  if negb (activeexpire (config s)) then Some (s, cycle_stats_default)
  else
    match map_get (shard_map s) i with
    | None => Some (s, cycle_stats_default)
    | Some h =>
        if decide (h_expires h = 0) then Some (s, cycle_stats_default)
        else cycle_dbs fuel clock late 0 i (seq 0 (databases (shard_map s))) s cycle_stats_default
    end.
End expire.

(** ** Facts *)

Section facts.
Context `{Memchr, Itoa, Ryu, FastrandLaws, HashIterLaws}.

Lemma sublist_map {A B} (f : A -> B) (l k : list A) : sublist l k -> sublist (f <$> l) (f <$> k).
Proof. induction 1; simpl; by constructor. Qed.

Lemma sublist_in {A} (l k : list A) (x : A) : sublist l k -> x ∈ l -> x ∈ k.
Proof. intros Hs. induction Hs as [|y l k _ IH|y l k _ IH]; rewrite ?elem_of_cons; naive_solver. Qed.

Lemma window_sublist i d want : sublist (window i d want) (hash_iter (expires d)).
Proof. unfold window. etrans; [apply sublist_take|apply sublist_drop]. Qed.

(** The keys a round reaps. *)
Definition round_victims (i : nat) (d : Db) (now : Z) (want : nat) : list Key :=
  fst <$> filter (fun p => p.2 <= now) (window i d want).

Lemma round_victims_spec i d now want :
  NoDup (round_victims i d now want) /\
  forall k, k ∈ round_victims i d now want -> exists t, expires d !! k = Some t /\ t <= now.
Proof.
  pose proof (window_sublist i d want) as Hs. split.
  - eapply sublist_NoDup; [apply (hash_iter_nodup (expires d))|]. apply (sublist_map fst).
    etrans; [apply sublist_filter|done].
  - intros k ([k' t] & -> & [Ht Hin]%list_elem_of_filter)%list_elem_of_fmap. exists t. split; [|done].
    apply hash_iter_elem. by eapply sublist_in.
Qed.

Lemma reap_dict ks d k : dict (reap d ks) !! k = if decide (k ∈ ks) then None else dict d !! k.
Proof.
  revert d. induction ks as [|k' ks IH]; intros d; [done|]. unfold reap in *. cbn [foldl]. rewrite IH, signal_dict.
  change (dict (remove_entry k' d).1) with (delete k' (dict d)).
  destruct (decide (k = k')) as [->|Hne].
  - rewrite lookup_delete_eq. rewrite (decide_True (P := k' ∈ k' :: ks)) by by left. by case_decide.
  - rewrite lookup_delete_ne by done. assert (k ∈ k' :: ks <-> k ∈ ks) as E by (rewrite elem_of_cons; naive_solver).
    by rewrite (decide_ext _ _ _ _ E).
Qed.

Lemma reap_ok ks d : db_ok d -> db_ok (reap d ks).
Proof.
  revert d. induction ks as [|k ks IH]; intros d Hd; [done|]. apply IH. apply signal_watch_ok, (run_op_ok (OpRemove k) d Hd).
Qed.

Lemma sample_round_eq i d now want :
  (0 < want)%nat ->
  sample_round i d now want = (reap d (round_victims i d now want), (length (window i d want), round_victims i d now want)).
Proof.
  intros Hw. unfold sample_round. case_decide as E; [|done].
  assert (window i d want = []) as Hwin.
  { unfold window. rewrite E. by rewrite Nat.min_0_r. }
  unfold round_victims. by rewrite Hwin.
Qed.

(** A round's reap keeps the dictionary and the index of every other key. *)
Lemma reap_expires ks d : forall k, expires (reap d ks) !! k = if decide (k ∈ ks) then None else expires d !! k.
Proof.
  revert d. induction ks as [|k' ks IH]; intros d k; [done|]. unfold reap in *. cbn [foldl]. rewrite IH.
  assert (expires (signal_watch k' (remove_entry k' d).1) = delete k' (expires d)) as ->
    by (unfold signal_watch; by repeat case_match).
  destruct (decide (k = k')) as [->|Hne].
  - rewrite lookup_delete_eq. rewrite (decide_True (P := k' ∈ k' :: ks)) by by left. by case_decide.
  - rewrite lookup_delete_ne by done. assert (k ∈ k' :: ks <-> k ∈ ks) as E by (rewrite elem_of_cons; naive_solver).
    by rewrite (decide_ext _ _ _ _ E).
Qed.

Lemma propagate_all_same verb n ks s :
  dbs (propagate_all verb n ks s) = dbs s /\ Shard.dirty (propagate_all verb n ks s) = Shard.dirty s /\
  repl_buf (propagate_all verb n ks s) = repl_buf s ++ ((fun k => {| prop_db := n; prop_argv := [verb; k] |}) <$> ks).
Proof.
  unfold propagate_all. revert s. induction ks as [|k ks IH]; intros s; [by rewrite app_nil_r|]. cbn [foldl].
  destruct (IH (propagate n [verb; k] s)) as (-> & -> & ->). split_and!; [done..|]. simpl. by rewrite <-app_assoc.
Qed.

Definition del_verb (s : ServerShared) : bytes := if lazyfree_lazy_expire (config s) then bs "UNLINK" else bs "DEL".

(** The DELs a round leaves for the AOF and replicas. *)
Definition round_log (s : ServerShared) (n : nat) (vs : list Key) : list Propagation :=
  if is_propagating (shared s) then (fun k => {| prop_db := n; prop_argv := [del_verb s; k] |}) <$> vs else [].

Lemma notify_all_handle configured class event n (vs : list Key) sh :
  config_handle (foldl (fun sh k => notify_dispatch configured class event n k sh) sh vs) = config_handle sh.
Proof. revert sh. by induction vs as [|k vs IH]; intros sh; simpl; [|rewrite IH]. Qed.

Lemma expire_round_effect i n s h d :
  map_get (shard_map s) i = Some h -> db n (lock h) = Some d ->
  let vs := round_victims (draws (shared s)) d (clock_ms s) KEYS_PER_LOOP in
  exists s' h', expire_round i n s =
    (s', Some (length (window (draws (shared s)) d KEYS_PER_LOOP), length vs)) /\
  config s' = config s /\ clock_ms s' = clock_ms s /\ shard_map s' = put_handle i h' (shard_map s) /\
  dbs (lock h') = alter (fun _ => reap d vs) n (dbs (lock h)) /\
  Shard.dirty (lock h') = Shard.dirty (lock h) + blen vs /\
  repl_buf (lock h') = repl_buf (lock h) ++ round_log s n vs.
Proof.
  intros Hh Hd. cbv zeta. unfold expire_round. rewrite Hh, Hd, sample_round_eq by (unfold KEYS_PER_LOOP; lia).
  set (vs := round_victims _ _ _ _). destruct (decide (vs = [])) as [E|E].
  - rewrite E. do 2 eexists. split; [done|]. unfold round_log. destruct (decide (length _ = 0%nat));
      (split_and!; [done..|by rewrite Z.add_0_r|]); case_match; by rewrite app_nil_r.
  - do 2 eexists. split; [done|].
    unfold round_log. fold (del_verb s). destruct (decide (length _ = 0%nat)); (split_and!; [apply notify_all_handle|done..| | |]); simpl;
      destruct (is_propagating (shared s)); simpl;
      destruct (propagate_all_same (del_verb s) n vs (add_dirty (blen vs) (upd_db n (fun _ => reap d vs) (lock h)))) as (Ed1 & Ed2 & Ed3);
      rewrite ?Ed1, ?Ed2, ?Ed3; simpl; by rewrite ?app_nil_r.
Qed.

(** ** A round seen from the server *)

(** Every database of every shard satisfies its invariant. *)
Definition server_ok (m : ShardMap) : Prop := Forall (fun h => dbs_ok (lock h)) (Shard.shards m).

Lemma server_db_ok m i n h d : server_ok m -> map_get m i = Some h -> db n (lock h) = Some d -> db_ok d.
Proof.
  intros Hm Hh Hd. unfold server_ok in Hm. rewrite Forall_lookup in Hm. specialize (Hm i h Hh).
  unfold dbs_ok in Hm. rewrite Forall_lookup in Hm. by apply (Hm n).
Qed.

(** What one handle and one of its databases look like after an edit. *)
Lemma put_handle_entry m i n h h' d f k n' :
  map_get m i = Some h -> db n (lock h) = Some d -> dbs (lock h') = alter f n (dbs (lock h)) ->
  server_entry (put_handle i h' m) n' k =
  if decide (shard_index m k = i /\ n = n') then dict (f d) !! k else server_entry m n' k.
Proof.
  intros Hh Hd Hdbs. unfold server_entry, shard_for. change (shard_index (put_handle i h' m) k) with (shard_index m k).
  unfold map_get in *. cbn [put_handle Shard.shards]. destruct (decide (shard_index m k = i)) as [->|Hne].
  - rewrite list_lookup_insert_eq by (by eapply lookup_lt_Some). rewrite Hh. simpl. unfold db in *. rewrite Hdbs.
    rewrite list_lookup_alter. destruct (decide (n = n')) as [<-|Hn]; [by rewrite decide_True, Hd|by rewrite decide_False by tauto].
  - rewrite list_lookup_insert_ne by done. by rewrite decide_False by tauto.
Qed.

Lemma put_handle_ok m i n h h' d f :
  server_ok m -> map_get m i = Some h -> db n (lock h) = Some d -> dbs (lock h') = alter f n (dbs (lock h)) ->
  (db_ok d -> db_ok (f d)) -> server_ok (put_handle i h' m).
Proof.
  intros Hm Hh Hd Hdbs Hf. unfold server_ok in *. cbn [put_handle Shard.shards]. apply Forall_insert; [done|].
  unfold dbs_ok. rewrite Hdbs. apply Forall_alter.
  - rewrite Forall_lookup in Hm. by apply (Hm i).
  - unfold db in Hd. intros x Hx _. rewrite Hd in Hx. injection Hx as <-. apply Hf. by eapply server_db_ok.
Qed.

(** A round removes nothing a client could still see. *)
Lemma round_view i n s h d :
  server_ok (shard_map s) -> map_get (shard_map s) i = Some h -> db n (lock h) = Some d ->
  let s' := (expire_round i n s).1 in
  server_ok (shard_map s') /\
  forall T k n', clock_ms s <= T -> server_view (shard_map s') n' T k = server_view (shard_map s) n' T k.
Proof.
  intros Hm Hh Hd. destruct (expire_round_effect i n s h d Hh Hd) as (s' & h' & -> & Hc & Hclk & Hmap & Hdbs & _).
  cbn [fst]. rewrite Hmap. pose proof (server_db_ok _ _ _ _ _ Hm Hh Hd) as Hdok.
  set (vs := round_victims _ _ _ _) in *. split.
  { eapply put_handle_ok; [done..|]. apply reap_ok. }
  intros T k n' HT. unfold server_view. rewrite (put_handle_entry _ _ _ _ _ _ _ k n' Hh Hd Hdbs).
  case_decide as E; [|done]. destruct E as [Ei <-]. rewrite reap_dict.
  assert (server_entry (shard_map s) n k = dict d !! k) as ->.
  { unfold server_entry, shard_for. rewrite Ei. rewrite Hh. simpl. by rewrite Hd. }
  case_decide as Hv; [|done]. apply round_victims_spec in Hv as (t & Ht & Hle).
  rewrite (ok_expires _ Hdok) in Ht. destruct (dict d !! k) as [e|]; [|done]. simpl in Ht. simpl.
  unfold live, is_expired. rewrite Ht. by rewrite bool_decide_true by lia.
Qed.

Lemma expire_round_none i n s : (forall h, map_get (shard_map s) i = Some h -> db n (lock h) = None) -> expire_round i n s = (s, None).
Proof. intros Hn. unfold expire_round. destruct (map_get _ i) as [h|]; [|done]. by rewrite Hn. Qed.

(** No reading of the clock among the [len] from the [t]-th on is after [T]. *)
Definition clock_until (clock : nat -> Z) (t len : nat) (T : Z) : Prop := forall u, (t <= u < t + len)%nat -> clock u <= T.

Lemma cycle_db_view fuel clock late t i n s tot s' tot' t' b :
  server_ok (shard_map s) -> cycle_db fuel clock late t i n s tot = Some (s', tot', t', b) ->
  server_ok (shard_map s') /\ (t <= t' <= t + fuel)%nat /\
  forall T k n', clock_until clock t fuel T -> server_view (shard_map s') n' T k = server_view (shard_map s) n' T k.
Proof.
  revert t s tot. induction fuel as [|fuel IH]; intros t s tot Hm; cbn [cycle_db]; [done|].
  assert (Hstay : forall t', S t = t' -> server_ok (shard_map s) /\ (t <= t' <= t + S fuel)%nat /\
    forall T k n', clock_until clock t (S fuel) T -> server_view (shard_map s) n' T k = server_view (shard_map s) n' T k)
    by (intros t2 <-; split_and!; [done|lia..|done]).
  destruct (late t); [intros [= <- _ <- _]; by apply Hstay|]. set (s0 := at_clock (clock t) s).
  destruct (map_get (shard_map s) i) as [h|] eqn:Hh.
  2: { rewrite expire_round_none by (change (shard_map s0) with (shard_map s); by rewrite Hh). intros [= <- _ <- _]. by apply Hstay. }
  destruct (db n (lock h)) as [d|] eqn:Hd.
  2: { rewrite expire_round_none by (change (shard_map s0) with (shard_map s); rewrite Hh; by intros ? [= <-]). intros [= <- _ <- _]. by apply Hstay. }
  destruct (round_view i n s0 h d Hm Hh Hd) as [Hok Hv].
  assert (Hnow : forall T, clock_until clock t (S fuel) T -> clock_ms s0 <= T) by (intros T HT; apply (HT t); lia).
  assert (Hlast : forall s1 t', (expire_round i n s0).1 = s1 -> S t = t' -> server_ok (shard_map s1) /\ (t <= t' <= t + S fuel)%nat /\
    forall T k n', clock_until clock t (S fuel) T -> server_view (shard_map s1) n' T k = server_view (shard_map s) n' T k).
  { intros s1 t2 <- <-. split_and!; [done|lia..|]. intros T k n' HT. by apply Hv, Hnow. }
  destruct (expire_round i n s0) as [s1 [[a e]|]]; cbn [fst] in *; [|intros [= <- _ <- _]; by apply Hlast].
  destruct (decide (a = 0%nat)); [intros [= <- _ <- _]; by apply Hlast|].
  destruct (decide (_ <= _)); [intros [= <- _ <- _]; by apply Hlast|].
  intros E. destruct (IH _ _ _ Hok E) as (Hok' & Ht & Hv'). split_and!; [done|lia..|]. intros T k n' HT.
  rewrite Hv'; [by apply Hv, Hnow|]. intros u Hu. apply HT. lia.
Qed.

Lemma cycle_dbs_view fuel clock late t i idxs s tot s' tot' :
  server_ok (shard_map s) -> cycle_dbs fuel clock late t i idxs s tot = Some (s', tot') ->
  server_ok (shard_map s') /\
  forall T k n', clock_until clock t (fuel * length idxs) T -> server_view (shard_map s') n' T k = server_view (shard_map s) n' T k.
Proof.
  revert t s tot. induction idxs as [|n idxs IH]; intros t s tot Hm; cbn [cycle_dbs length]; [by intros [= <- _]|].
  destruct (cycle_db fuel clock late t i n s tot) as [[[[s1 tot1] t1] b]|] eqn:E; [|done].
  destruct (cycle_db_view _ _ _ _ _ _ _ _ _ _ _ _ Hm E) as (Hok & Ht & Hv).
  assert (Hv1 : forall T k n', clock_until clock t (fuel * S (length idxs)) T -> server_view (shard_map s1) n' T k = server_view (shard_map s) n' T k).
  { intros T k n' HT. apply Hv. intros u Hu. apply HT. lia. }
  destruct b; [by intros [= <- _]|]. intros E2. destruct (IH t1 s1 tot1 Hok E2) as [Hok' Hv']. split; [done|].
  intros T k n' HT. rewrite Hv'; [by apply Hv1|]. intros u Hu. apply HT. lia.
Qed.

(** ** Termination *)

Lemma reap_shrinks ks d : (exists k, k ∈ ks /\ is_Some (expires d !! k)) -> (size (expires (reap d ks)) < size (expires d))%nat.
Proof.
  intros (k & Hk & [t Ht]). apply map_subset_size. split.
  - apply map_subseteq_spec. intros k' v. rewrite reap_expires. by case_decide.
  - rewrite map_subseteq_spec. intros Hs. specialize (Hs k t Ht). rewrite reap_expires, decide_True in Hs by done. done.
Qed.

Definition shard_db (s : ServerShared) (i n : nat) : option Db := map_get (shard_map s) i ≫= fun h => db n (lock h).

Lemma round_db i n s d :
  shard_db s i n = Some d ->
  let vs := round_victims (draws (shared s)) d (clock_ms s) KEYS_PER_LOOP in
  exists s', expire_round i n s = (s', Some (length (window (draws (shared s)) d KEYS_PER_LOOP), length vs)) /\
    (forall n', shard_db s' i n' = if decide (n = n') then Some (reap d vs) else shard_db s i n') /\
    config s' = config s /\ clock_ms s' = clock_ms s.
Proof.
  unfold shard_db. intros (h & Hh & Hd)%bind_Some.
  destruct (expire_round_effect i n s h d Hh Hd) as (s' & h' & E & Hc & Hclk & Hmap & Hdbs & _). exists s'.
  split_and!; [exact E| |done|done]. intros n'. rewrite Hmap. unfold map_get in *. cbn [put_handle Shard.shards].
  rewrite list_lookup_insert_eq by (by eapply lookup_lt_Some). rewrite Hh. simpl. unfold db in *.
  rewrite Hdbs, list_lookup_alter. case_decide; [|done]. subst n'. by rewrite Hd.
Qed.

Lemma round_none i n s : shard_db s i n = None -> expire_round i n s = (s, None).
Proof. unfold shard_db. intros E. apply expire_round_none. intros h Hh. by rewrite Hh in E. Qed.

Lemma cycle_db_total fuel clock late t i n s tot :
  (0 < fuel)%nat -> (forall d, shard_db s i n = Some d -> size (expires d) < fuel)%nat ->
  exists s' tot' t' b, cycle_db fuel clock late t i n s tot = Some (s', tot', t', b) /\
    forall n', n <> n' -> shard_db s' i n' = shard_db s i n'.
Proof.
  revert t s tot. induction fuel as [|fuel IH]; intros t s tot Hf Hsz; [lia|]. cbn [cycle_db].
  destruct (late t); [by repeat eexists|]. destruct (shard_db s i n) as [d|] eqn:Hd.
  2: { rewrite round_none by done. by repeat eexists. }
  destruct (round_db i n (at_clock (clock t) s) d Hd) as (s1 & -> & Hdb & _ & _). set (vs := round_victims _ _ _ _) in *.
  set (w := window _ _ _) in *.
  assert (forall n', n <> n' -> shard_db s1 i n' = shard_db s i n') as Hoth by (intros n' Hn; by rewrite Hdb, decide_False).
  case_decide as Hz; [by repeat eexists|]. case_decide as Hst; [by repeat eexists|].
  assert (exists k, k ∈ vs) as [k Hk].
  { destruct vs as [|k vs']; [|exists k; by left]. unfold CYCLE_CONTINUE_PCT in Hst. simpl in Hst. lia. }
  assert (size (expires (reap d vs)) < size (expires d))%nat as Hlt.
  { apply reap_shrinks. exists k. split; [done|]. apply round_victims_spec in Hk as (x & Hx & _). by exists x. }
  specialize (Hsz d eq_refl). destruct (IH (S t) s1 {| sampled := sampled tot + Z.of_nat (length w);
    expired := expired tot + Z.of_nat (length vs); rounds := rounds tot + 1; timed_out := timed_out tot |})
    as (s' & tot' & t' & b & E & Ho); [lia| |].
  - intros d' Hd'. rewrite Hdb, decide_True in Hd' by done. injection Hd' as <-. lia.
  - exists s', tot', t', b. split; [exact E|]. intros n' Hn. by rewrite Ho, Hoth.
Qed.

Lemma cycle_dbs_total fuel clock late t i idxs s tot :
  (0 < fuel)%nat -> NoDup idxs -> (forall n d, n ∈ idxs -> shard_db s i n = Some d -> size (expires d) < fuel)%nat ->
  is_Some (cycle_dbs fuel clock late t i idxs s tot).
Proof.
  intros Hf Hnd. revert t s tot. induction Hnd as [|n idxs Hn Hnd IH]; intros t s tot Hsz; cbn [cycle_dbs]; [done|].
  destruct (cycle_db_total fuel clock late t i n s tot Hf) as (s' & tot' & t' & b & -> & Ho); [intros d; apply Hsz; by left|].
  destruct b; [done|]. apply IH. intros n' d Hin. rewrite Ho by (by intros ->). apply Hsz. by right.
Qed.

(** A sweep ends by itself, without its time budget: every round that asks
    for another removes at least one key from the expiry index, so as many
    rounds per database as it has keys with a deadline, and one more, are
    enough. *)
Theorem cycle_terminates fuel clock late i s :
  (forall n d, shard_db s i n = Some d -> size (expires d) < fuel)%nat -> (0 < fuel)%nat ->
  is_Some (cycle_shard fuel clock late i s).
Proof.
  intros Hsz Hf. unfold cycle_shard. destruct (negb _); [done|]. destruct (map_get _ i) as [h|]; [|done].
  case_decide; [done|]. apply cycle_dbs_total; [done|apply NoDup_seq|]. intros n d _. apply Hsz.
Qed.

(** C10: The active expiry cycle is invisible.  A sweep of a shard ends, with
    or without its time budget (as many rounds per database as it has keys
    with a deadline, and one more, are enough), whatever windows are sampled,
    whenever the budget runs out and whatever the clock says at each round;
    it keeps the invariants of the databases, and a client that looks at any
    time not before the clock readings of the sweep sees every key of every
    database of the server exactly as it would have without it. *)
Theorem cycle_invisible fuel clock late i s :
  server_ok (shard_map s) -> (0 < fuel)%nat -> (forall n d, shard_db s i n = Some d -> size (expires d) < fuel)%nat ->
  exists s' tot, cycle_shard fuel clock late i s = Some (s', tot) /\ server_ok (shard_map s') /\
    forall now, (forall t, (t < fuel * databases (shard_map s))%nat -> clock t <= now) ->
    forall n k, server_view (shard_map s') n now k = server_view (shard_map s) n now k.
Proof.
  intros Hm Hf Hsz. destruct (cycle_terminates fuel clock late i s Hsz Hf) as [[s' tot] E]. exists s', tot. split; [done|].
  unfold cycle_shard in E. destruct (negb _); [by injection E as <- _|]. destruct (map_get _ i); [|by injection E as <- _].
  case_decide; [by injection E as <- _|]. apply cycle_dbs_view in E as [Hok Hv]; [|done]. split; [done|].
  intros now HT n k. apply Hv. rewrite length_seq. intros u [_ Hu]. by apply HT.
Qed.

(** One round reaps keys that were past their deadline and nothing else,
    each once; every other key of the database is untouched; the shard counts
    as many modifications as keys reaped and, when propagation is on, logs one
    DEL (or UNLINK) per key in the order they were found; and a database with
    at most twenty deadlines is left with none that has passed. *)
Theorem expire_round_spec i n s d h :
  map_get (shard_map s) i = Some h -> db n (lock h) = Some d -> db_ok d ->
  exists s' w vs h' d', expire_round i n s = (s', Some (w, length vs)) /\
    map_get (shard_map s') i = Some h' /\ db n (lock h') = Some d' /\ NoDup vs /\
    (forall k, k ∈ vs -> exists e t, dict d !! k = Some e /\ expire_at_ms e = Some t /\ t <= clock_ms s) /\
    (forall k, dict d' !! k = if decide (k ∈ vs) then None else dict d !! k) /\
    Shard.dirty (lock h') = Shard.dirty (lock h) + blen vs /\ repl_buf (lock h') = repl_buf (lock h) ++ round_log s n vs /\
    ((size (expires d) <= KEYS_PER_LOOP)%nat -> forall k, db_is_expired k (clock_ms s) d' = false).
Proof.
  intros Hh Hd Hok. destruct (expire_round_effect i n s h d Hh Hd) as (s' & h' & E & _ & _ & Hmap & Hdbs & Hdir & Hlog).
  set (vs := round_victims _ _ _ _) in *. destruct (round_victims_spec (draws (shared s)) d (clock_ms s) KEYS_PER_LOOP) as [Hnd Hvs].
  fold vs in Hnd, Hvs. exists s', (length (window (draws (shared s)) d KEYS_PER_LOOP)), vs, h', (reap d vs). split_and!; try done.
  - rewrite Hmap. unfold map_get in *. cbn [put_handle Shard.shards]. by apply list_lookup_insert_eq, (lookup_lt_Some _ _ _ Hh).
  - unfold db in *. rewrite Hdbs, list_lookup_alter, decide_True by done. by rewrite Hd.
  - intros k (t & Ht & Hle)%Hvs. rewrite (ok_expires _ Hok) in Ht. destruct (dict d !! k) as [e|] eqn:Ee; [|done].
    by exists e, t.
  - intros k. apply reap_dict.
  - intros Hsz k. unfold db_is_expired. rewrite reap_dict. case_decide as Hk; [done|].
    destruct (dict d !! k) as [e|] eqn:Ee; [|done]. unfold is_expired. destruct (expire_at_ms e) as [t|] eqn:Et; [|done].
    apply bool_decide_false. intros Hle. apply Hk. unfold vs, round_victims. apply list_elem_of_fmap. exists (k, t).
    split; [done|]. apply list_elem_of_filter. split; [done|]. unfold window.
    rewrite Nat.min_r by done. rewrite Nat.sub_diag. cbn [Nat.add].
    assert (below (draws (shared s)) 1 = 0)%nat as -> by apply below_one.
    rewrite drop_0, take_ge by (by rewrite hash_iter_length). apply hash_iter_elem. by rewrite (ok_expires _ Hok), Ee.
Qed.
End facts.

(** ** Witnesses *)

Section witnesses.
#[local] Existing Instances memchr_find itoa_model ryu_model no_draws hash_iter_model hash_iter_model_laws.

#[local] Instance no_draws_laws : FastrandLaws.
Proof. split; [intros; simpl; lia|intros; unfold in_unsigned; simpl; lia]. Qed.

(** One shard with one database: a key past its deadline, one that is not. *)
Definition expiring_db : Db :=
  run_ops [OpSet (bs "a") (entry_new (Str (Int 1)) (Some 5) 0 false);
           OpSet (bs "b") (entry_new (Str (Int 2)) (Some 5000) 0 false)] (db_new 0).
Definition expiring_handle : ShardHandle :=
  {| lock := {| shard_index_ := 0; dbs := [expiring_db]; Shard.dirty := 0; repl_buf := []; seq_ := 0 |};
     h_dirty := 0; h_keys := 2; h_expires := 2; h_mem := 0 |}.
Definition expiring_server : ServerShared :=
  {| shard_map := {| Shard.shards := [expiring_handle]; mask := 0; databases := 1 |};
     clock_ms := 1000; commands := table_new; shared := demo_shared |}.

Lemma expiring_db_ok : db_ok expiring_db.
Proof. apply run_ops_ok, db_new_ok. Qed.

Lemma expiring_server_ok : server_ok (shard_map expiring_server).
Proof. constructor; [|constructor]. constructor; [exact expiring_db_ok|constructor]. Qed.

Lemma expiring_size n d : shard_db expiring_server 0 n = Some d -> (size (expires d) < 3)%nat.
Proof. unfold shard_db. destruct n as [|n]; [intros [= <-]; vm_compute; lia|by destruct n]. Qed.

(** The clock moves on between the rounds. *)
Definition ticking (t : nat) : Z := 1000 + Z.of_nat t.

Lemma cycle_invisible_witness :
  exists s' tot, cycle_shard 5 ticking (fun _ => false) 0 expiring_server = Some (s', tot) /\
    server_view (shard_map s') 0 2000 (bs "b") = Some (Str (Int 2), Some 5000) /\ server_ok (shard_map s').
Proof.
  destruct (cycle_invisible 5 ticking (fun _ => false) 0 expiring_server expiring_server_ok ltac:(lia)
    (fun n d Hd => Nat.lt_le_trans _ 3 5 (expiring_size n d Hd) ltac:(lia))) as (s' & tot & E & Hok & Hv).
  exists s', tot. split; [exact E|]. split; [|exact Hok]. etrans; [apply Hv|vm_compute; reflexivity].
  intros t Ht. change (databases (shard_map expiring_server)) with 1%nat in Ht. unfold ticking. lia.
Defined.

Lemma cycle_terminates_witness : is_Some (cycle_shard 3 ticking (fun _ => false) 0 expiring_server).
Proof. apply cycle_terminates; [exact expiring_size|lia]. Defined.

Lemma expire_round_spec_witness :
  exists s' w (vs : list Key) h' d', expire_round 0 0 expiring_server = (s', Some (w, length vs)) /\
    map_get (shard_map s') 0 = Some h' /\ db 0 (lock h') = Some d' /\
    (forall k, db_is_expired k 1000 d' = false) /\ dict d' !! bs "b" = dict expiring_db !! bs "b".
Proof.
  destruct (expire_round_spec 0 0 expiring_server expiring_db expiring_handle eq_refl eq_refl expiring_db_ok)
    as (s' & w & vs & h' & d' & E & Hh & Hd & _ & Hvs & Hdict & _ & _ & Hall).
  exists s', w, vs, h', d'. split; [exact E|]. split; [exact Hh|]. split; [exact Hd|]. split.
  - apply Hall. vm_compute. lia.
  - rewrite Hdict. destruct (decide (bs "b" ∈ vs)) as [Hb|]; [|reflexivity]. exfalso.
    destruct (Hvs _ Hb) as (e & t & He & Ht & Hle). vm_compute in He. injection He as <-. injection Ht as <-.
    vm_compute in Hle. by apply Hle.
Defined.
End witnesses.
