(* ===== verification/Evict.v ===== *)
(** * Eviction ([src/shard/evict.rs])

    The memory estimate, the scoring of victims, the bounded pool of
    candidates, one batch under a shard lock and the whole sweep.  The order of
    hash iteration, the random draws, the sizes of Rust types and the moment
    the time budget runs out are arbitrary.  As in [Expire], a batch is atomic
    and the sweep is modelled without other threads between its batches.
    Byte counts are unbounded (a [usize] of bytes does not wrap), except where
    the source saturates. *)
From S2P Require Import Prelude Config Crc Strnum Object Shard Errors Reply Notify Commands Engine Dtoa Client Registry Ctx StringCmd Dispatch Expire.
Open Scope Z_scope.

(** ** Third-party: the layout of Rust types, [core::mem::size_of] *)

Inductive RustType := TKey | TEntry | TRobj | TU64 | TStrObj | TListObj | THashObj | TSetObj | TZSetObj | TStreamObj.
Class Layout := size_of : RustType -> Z.
Class LayoutLaws `{Layout} : Prop := size_of_pos : forall t, 0 < size_of t.

Definition DEFAULT_SAMPLES : Z := 5.
Definition EVICTION_POOL_SIZE : nat := 16.
Definition DICT_ENTRY_OVERHEAD : Z := 16.
Definition ESTIMATE_SAMPLE : nat := 128.
Definition MAX_EVICTIONS_PER_LOCK : nat := 16.
Definition MAX_ROUNDS_PER_CYCLE : nat := 512.

Record Candidate := { c_key : Key; c_score : Z }.

(** ** The pool of the best candidates, sorted by falling score *)

Fixpoint position (score : Z) (v : list Candidate) : nat :=
  match v with [] => 0 | e :: v => if decide (c_score e < score) then 0 else S (position score v) end.

Definition push (c : Candidate) (v : list Candidate) : list Candidate :=
  let at_ := position (c_score c) v in
  if decide (EVICTION_POOL_SIZE <= at_)%nat then v
  else take EVICTION_POOL_SIZE (take at_ v ++ c :: drop at_ v).

Definition is_volatile_policy (p : MaxmemoryPolicy) : bool :=
  match p with VolatileLru | VolatileLfu | VolatileRandom | VolatileTtl => true | _ => false end.

Section evict.
Context `{Memchr, Itoa, Ryu, Fastrand, HashIter, Layout}.

(** ** Accounting *)

Definition mem_usage (o : Robj) : Z :=
  match o with
  | Str s => size_of TStrObj + match s with Int _ => 0 | Str_ data _ => blen data end
  | List _ => size_of TListObj
  | Hash _ => size_of THashObj
  | Set_ _ => size_of TSetObj
  | ZSet _ => size_of TZSetObj
  | Stream _ => size_of TStreamObj
  end.

Definition entry_cost (key : Key) (e : Entry) : Z :=
  let slot := size_of TKey + size_of TEntry + DICT_ENTRY_OVERHEAD in
  let payload := Z.max 0 (mem_usage (obj e) - size_of TRobj) in
  let expires_slot := match expire_at_ms e with
                      | Some _ => size_of TKey + size_of TU64 + DICT_ENTRY_OVERHEAD + blen key
                      | None => 0
                      end in
  slot + blen key + payload + expires_slot.

Definition sum_cost (l : list (Key * Entry)) : Z := foldr (fun p acc => entry_cost p.1 p.2 + acc) 0 l.

(** [u64]: [total.saturating_mul(len) / sampled]. *)
Definition db_cost (d : Db) : Z :=
  let len := size (dict d) in
  if decide (len = 0%nat) then 0
  else
    let sample := take ESTIMATE_SAMPLE (hash_iter (dict d)) in
    let total := sum_cost sample in
    if decide (length sample = 0%nat) then 0
    else if decide (len <= length sample)%nat then total
    else Z.min U64_MAX (total * Z.of_nat len) / blen sample.

Definition with_mem (m : Z) (h : ShardHandle) : ShardHandle :=
  {| lock := lock h; h_dirty := h_dirty h; h_keys := h_keys h; h_expires := h_expires h; h_mem := m |}.

Definition shard_cost (s : Shard) : Z := foldr (fun d acc => db_cost d + acc) 0 (dbs s).

Definition refresh_shard_estimate (h : ShardHandle) : ShardHandle := with_mem (shard_cost (lock h)) h.

Definition refresh_all (m : ShardMap) : ShardMap :=
  {| Shard.shards := refresh_shard_estimate <$> Shard.shards m; mask := mask m; databases := databases m |}.

(** ** Candidates; [i] is the position in the stream of random draws *)

Definition score (policy : MaxmemoryPolicy) (e : Entry) (now_ms : Z) (i : nat) : Z :=
  match policy with
  | AllkeysLru | VolatileLru => idle_ms (lru e) now_ms
  | AllkeysLfu | VolatileLfu => 255 - lfu_counter (lru e)
  | VolatileTtl => U64_MAX - default U64_MAX (expire_at_ms e)
  | AllkeysRandom | VolatileRandom | NoEviction => fastrand_u64 i
  end.

(** The keys one walk looks at: a window of the index or of the dictionary. *)
Definition sample_keys {V} (m : gmap Key V) (i want : nat) : list Key :=
  let n := size m in
  let want := Nat.min want n in
  fst <$> take want (drop (below i (n - want + 1)) (hash_iter m)).

Definition draws_score (p : MaxmemoryPolicy) : bool :=
  match p with AllkeysRandom | VolatileRandom | NoEviction => true | _ => false end.

Definition push_key (policy : MaxmemoryPolicy) (now_ms : Z) (d : Db) (acc : nat * list Candidate) (k : Key) :
    nat * list Candidate :=
  match dict d !! k with
  | Some e => (if draws_score policy then S acc.1 else acc.1, push {| c_key := k; c_score := score policy e now_ms acc.1 |} acc.2)
  | None => acc
  end.

(** Returns the stream position after the draws and the pool. *)
Definition fill_pool (d : Db) (policy : MaxmemoryPolicy) (now_ms : Z) (want i : nat) (pool : list Candidate) :
    nat * list Candidate :=
  let volatile := is_volatile_policy policy in
  let n := if volatile then size (expires d) else size (dict d) in
  if decide (n = 0%nat \/ want = 0%nat) then (i, pool)
  else
    let keys := if volatile then sample_keys (expires d) i want else sample_keys (dict d) i want in
    foldl (push_key policy now_ms d) (S i, pool) keys.

(** ** One batch *)

(** The inner loop over the pool of one database. *)
Fixpoint evict_pool (pool : list Candidate) (max_keys : nat) (db_idx : nat) (d : Db)
    (victims : list (nat * Key)) (freed : Z) : Db * list (nat * Key) * Z :=
  match pool with
  | [] => (d, victims, freed)
  | c :: pool =>
      if decide (max_keys <= length victims)%nat then (d, victims, freed)
      else
        match dict d !! c_key c with
        | None => evict_pool pool max_keys db_idx d victims freed
        | Some e =>
            evict_pool pool max_keys db_idx (signal_watch (c_key c) (remove_entry (c_key c) d).1)
              (victims ++ [(db_idx, c_key c)]) (freed + entry_cost (c_key c) e)
        end
  end.

(** The loop over the databases of the locked shard. *)
Fixpoint evict_dbs (idxs : list nat) (cfg : Config) (now_ms : Z) (max_keys samples i : nat) (s : Shard)
    (victims : list (nat * Key)) (freed : Z) : nat * Shard * list (nat * Key) * Z :=
  match idxs with
  | [] => (i, s, victims, freed)
  | n :: idxs =>
      if decide (max_keys <= length victims)%nat then (i, s, victims, freed)
      else
        match db n s with
        | None => evict_dbs idxs cfg now_ms max_keys samples i s victims freed
        | Some d =>
            if decide (dict d = ∅) then evict_dbs idxs cfg now_ms max_keys samples i s victims freed
            else
              let '(i, pool) := fill_pool d (maxmemory_policy cfg) now_ms (samples * 4) i [] in
              let '(d, victims, freed) := evict_pool pool max_keys n d victims freed in
              evict_dbs idxs cfg now_ms max_keys samples i (upd_db n (fun _ => d) s) victims freed
        end
  end.

Definition evict_verb (cfg : Config) : bytes := if lazyfree_lazy_eviction cfg then bs "UNLINK" else bs "DEL".

Definition propagate_victims (verb : bytes) (victims : list (nat * Key)) (s : Shard) : Shard :=
  foldl (fun s '(n, k) => propagate n [verb; k] s) s victims.

(** [evict_batch]: the handle afterwards, the stream position, the bytes freed and the victims. *)
Definition evict_batch (databases : nat) (now_ms : Z) (propagating : bool) (cfg : Config) (max_keys i : nat)
    (h : ShardHandle) : ShardHandle * nat * Z * list (nat * Key) :=
  let samples := Nat.min (Z.to_nat (Z.max (maxmemory_samples cfg) 1)) 64 in
  let '(i, shard, victims, freed) := evict_dbs (seq 0 databases) cfg now_ms max_keys samples i (lock h) [] 0 in
  let h :=
    if decide (victims = []) then with_lock shard h
    else
      let shard := add_dirty (blen victims) shard in
      let shard := if propagating then propagate_victims (evict_verb cfg) victims shard else shard in
      sync_stats shard (with_lock shard h) in
  (with_mem (Z.max 0 (h_mem h - freed)) h, i, freed, victims).

(** The first shard with the largest positive estimate. *)
Fixpoint fattest_from (i : nat) (hs : list ShardHandle) (best : option (nat * Z)) : option (nat * Z) :=
  match hs with
  | [] => best
  | h :: hs =>
      let m := h_mem h in
      let better := match best with None => true | Some (_, b) => bool_decide (b < m) end in
      fattest_from (S i) hs (if bool_decide (0 < m) && better then Some (i, m) else best)
  end.
Definition fattest_shard (m : ShardMap) : option nat := fst <$> fattest_from 0 (Shard.shards m) None.

(** ** The sweep *)

Record EvictStats := { evicted : Z; freed_bytes : Z; ev_rounds : Z; ev_over_limit : bool; exhausted : bool }.
Definition evict_stats_default : EvictStats :=
  {| evicted := 0; freed_bytes := 0; ev_rounds := 0; ev_over_limit := false; exhausted := false |}.

Definition set_exhausted (st : EvictStats) : EvictStats :=
  {| evicted := evicted st; freed_bytes := freed_bytes st; ev_rounds := ev_rounds st; ev_over_limit := ev_over_limit st;
     exhausted := true |}.
Definition set_over_limit (b : bool) (st : EvictStats) : EvictStats :=
  {| evicted := evicted st; freed_bytes := freed_bytes st; ev_rounds := ev_rounds st; ev_over_limit := b;
     exhausted := exhausted st |}.
Definition count_batch (n freed : Z) (st : EvictStats) : EvictStats :=
  {| evicted := evicted st + n; freed_bytes := freed_bytes st + freed; ev_rounds := ev_rounds st;
     ev_over_limit := ev_over_limit st; exhausted := exhausted st |}.
Definition count_round (st : EvictStats) : EvictStats :=
  {| evicted := evicted st; freed_bytes := freed_bytes st; ev_rounds := ev_rounds st + 1;
     ev_over_limit := ev_over_limit st; exhausted := exhausted st |}.

(** The counters and notifications of a batch, after the lock is dropped. *)
Definition publish_victims (cfg : Config) (victims : list (nat * Key)) (sh : Shared) : Shared :=
  let sh := add_server_dirty (blen victims)
    {| stats := stats_add evicted_keys (blen victims) (stats sh); server_dirty := server_dirty sh;
       propagation_enabled := propagation_enabled sh; sink_installed := sink_installed sh;
       published := published sh; draws := draws sh; config_handle := config_handle sh; registry := registry sh |} in
  foldl (fun sh '(n, k) => notify_dispatch (notify_keyspace_events cfg) EVICTED (bs "evicted") n k sh) sh victims.

Definition set_draws (i : nat) (sh : Shared) : Shared :=
  {| stats := stats sh; server_dirty := server_dirty sh; propagation_enabled := propagation_enabled sh;
     sink_installed := sink_installed sh; published := published sh; draws := i; config_handle := config_handle sh; registry := registry sh |}.

(** The loop of [evict_cycle], [fuel] rounds at most; [late] as in [Expire].
    The boolean of the result is [return] with no final [over_limit] check. *)
Fixpoint evict_rounds (fuel : nat) (late : nat -> bool) (t : nat) (cfg : Config) (s : ServerShared) (st : EvictStats) :
    ServerShared * EvictStats * bool :=
  match fuel with
  | O => (s, st, false)
  | S fuel =>
      if decide (used_memory (shard_map s) <= maxmemory cfg) then (s, st, true)
      else if late t then (s, st, false)
      else
        match fattest_shard (shard_map s) with
        | None => (s, set_exhausted st, false)
        | Some idx =>
            match map_get (shard_map s) idx with
            | None => (s, st, false)
            | Some h =>
                let '(h, i, freed, victims) :=
                  evict_batch (databases (shard_map s)) (clock_ms s) (is_propagating (shared s)) cfg
                    MAX_EVICTIONS_PER_LOCK (draws (shared s)) h in
                let s := with_shared (set_draws i) (with_map (put_handle idx h) s) in
                let st := count_round st in
                if decide (victims = []) then
                  let s := with_map (put_handle idx (refresh_shard_estimate h)) s in
                  if is_volatile_policy (maxmemory_policy cfg) && bool_decide (volatile_keys (shard_map s) = 0)
                  then (s, set_exhausted st, false)
                  else if decide (Z.of_nat (map_len (shard_map s)) < ev_rounds st) then (s, set_exhausted st, false)
                  else evict_rounds fuel late (S t) cfg s st
                else
                  evict_rounds fuel late (S t) cfg (with_shared (publish_victims cfg victims) s)
                    (count_batch (blen victims) freed st)
            end
        end
  end.

Definition evict_cycle (late : nat -> bool) (s : ServerShared) : ServerShared * EvictStats :=
  let cfg := config s in
  if decide (maxmemory cfg = 0) then (s, evict_stats_default)
  else
    let s := with_map refresh_all s in
    if decide (maxmemory_policy cfg = NoEviction) then
      let over := bool_decide (maxmemory cfg < used_memory (shard_map s)) in
      (s, if over then set_exhausted (set_over_limit true evict_stats_default) else evict_stats_default)
    else
      let '(s, st, returned) := evict_rounds MAX_ROUNDS_PER_CYCLE late 0 cfg s evict_stats_default in
      if returned then (s, st) else (s, set_over_limit (bool_decide (maxmemory cfg < used_memory (shard_map s))) st).
End evict.

(** ** The pool *)

Abbreviation falling := (StronglySorted (fun a b : Candidate => c_score b <= c_score a)).

Lemma position_le sc v : (position sc v <= length v)%nat.
Proof. induction v as [|e v IH]; simpl; [lia|]. case_decide; simpl; lia. Qed.

Lemma position_split sc v :
  falling v ->
  Forall (fun e => sc <= c_score e) (take (position sc v) v) /\ Forall (fun e => c_score e < sc) (drop (position sc v) v).
Proof.
  induction 1 as [|e v Hs IH He]; simpl; [done|]. case_decide as Hlt; simpl.
  - split; [done|]. constructor; [done|]. eapply Forall_impl; [exact He|]. simpl. lia.
  - destruct IH as [H1 H2]. split; [|done]. constructor; [lia|done].
Qed.

Lemma falling_insert c v :
  falling v -> falling (take (position (c_score c) v) v ++ c :: drop (position (c_score c) v) v).
Proof.
  induction 1 as [|e v Hs IH He]; simpl; [by repeat constructor|]. case_decide as Hlt; simpl.
  - constructor; [by constructor|]. constructor; [lia|]. eapply Forall_impl; [exact He|]. simpl. lia.
  - constructor; [done|]. apply Forall_app. rewrite <-(take_drop (position (c_score c) v) v) in He.
    apply Forall_app in He as [H1 H2]. split; [done|]. constructor; [lia|done].
Qed.

Lemma falling_take n v : falling v -> falling (take n v).
Proof.
  intros Hs. revert n. induction Hs as [|e v Hs IH He]; intros [|n]; simpl; constructor; [done|]. by apply Forall_take.
Qed.

Lemma falling_app l k x y : falling (l ++ k) -> x ∈ l -> y ∈ k -> c_score y <= c_score x.
Proof.
  induction l as [|e l IH]; intros Hs Hx Hy; [by apply not_elem_of_nil in Hx|].
  apply StronglySorted_cons in Hs as [He Hs]. apply elem_of_cons in Hx as [->|Hx]; [|by apply IH].
  rewrite Forall_forall in He. apply He, elem_of_app. by right.
Qed.

(** What one [push] keeps and drops. *)
Lemma push_spec c v :
  falling v -> (length v <= EVICTION_POOL_SIZE)%nat ->
  falling (push c v) /\ (length (push c v) <= EVICTION_POOL_SIZE)%nat /\
  exists r, c :: v ≡ₚ push c v ++ r /\ (forall x y, x ∈ push c v -> y ∈ r -> c_score y <= c_score x) /\
    (r <> [] -> length (push c v) = EVICTION_POOL_SIZE).
Proof.
  intros Hs Hl. unfold push. pose proof (position_le (c_score c) v) as Hp. destruct (position_split (c_score c) v Hs) as [H1 H2].
  pose proof (falling_insert c v Hs) as Hi. set (p := position (c_score c) v) in *. case_decide as Hge.
  - split_and!; [done|done|]. exists [c]. split_and!; [by rewrite Permutation_app_comm| |lia].
    intros x y Hx ->%list_elem_of_singleton. rewrite take_ge in H1 by lia. rewrite Forall_forall in H1. by apply H1.
  - set (l := take p v ++ c :: drop p v) in *. split_and!; [by apply falling_take|rewrite length_take; lia|].
    exists (drop EVICTION_POOL_SIZE l). rewrite take_drop. split_and!.
    + unfold l. rewrite <-Permutation_middle. by rewrite take_drop.
    + intros x y. apply falling_app. by rewrite take_drop.
    + intros Hne. rewrite length_take. destruct (decide (EVICTION_POOL_SIZE <= length l)%nat) as [|Hlt]; [lia|].
      destruct Hne. apply drop_ge. lia.
Qed.

Definition push_all (cs : list Candidate) (v : list Candidate) : list Candidate := foldl (fun v c => push c v) v cs.

Lemma push_all_gen cs v r :
  falling v -> (length v <= EVICTION_POOL_SIZE)%nat ->
  (forall x y, x ∈ v -> y ∈ r -> c_score y <= c_score x) -> (r <> [] -> length v = EVICTION_POOL_SIZE) ->
  let w := foldl (fun v c => push c v) v cs in
  falling w /\ (length w <= EVICTION_POOL_SIZE)%nat /\
  exists r', v ++ r ++ cs ≡ₚ w ++ r' /\ (forall x y, x ∈ w -> y ∈ r' -> c_score y <= c_score x) /\
    (r' <> [] -> length w = EVICTION_POOL_SIZE).
Proof.
  revert v r. induction cs as [|c cs IH]; intros v r Hs Hl Hd Hf; simpl.
  { split_and!; [done..|]. exists r. by rewrite app_nil_r. }
  destruct (push_spec c v Hs Hl) as (Hs' & Hl' & r1 & Hp & Hd' & Hf').
  assert (r <> [] -> r1 <> []) as Hr1.
  { intros Hlv%Hf ->. rewrite app_nil_r in Hp. apply Permutation_length in Hp. simpl in Hp. lia. }
  destruct (IH (push c v) (r1 ++ r) Hs' Hl') as (H1 & H2 & r' & H3 & H4 & H5).
  - intros x y Hx [Hy|Hy]%elem_of_app; [by apply Hd'|].
    enough (exists z, z ∈ v /\ c_score z <= c_score x) as (z & Hz & Hle) by (specialize (Hd z y Hz Hy); lia).
    assert (x ∈ c :: v) as Hxv by (rewrite Hp; apply elem_of_app; by left).
    apply elem_of_cons in Hxv as [->|]; [|by exists x].
    apply elem_of_Permutation in Hx as [p' Hp']. rewrite Hp' in Hp. simpl in Hp. apply Permutation_cons_inv in Hp.
    destruct r1 as [|z r1]; [by destruct Hr1; [intros ->; apply elem_of_nil in Hy|]|].
    exists z. split; [rewrite Hp; apply elem_of_app; right; by left|]. apply Hd'; [rewrite Hp'|]; by left.
  - intros Hne. apply Hf'. intros ->. by apply Hr1.
  - split_and!; [done..|]. exists r'. split_and!; [|done..]. rewrite <-H3, <-!app_assoc, (app_assoc (push c v)), <-Hp.
    simpl. by rewrite <-!Permutation_middle.
Qed.

(** The pool keeps the best candidates of a sweep: however many are pushed,
    it stays sorted by falling score and at most sixteen long, it holds only
    what was pushed, and anything that was left out scores no better than
    everything that was kept, with nothing left out until it is full. *)
Theorem pool_keeps_best (cs : list Candidate) :
  let v := push_all cs [] in
  falling v /\ (length v <= EVICTION_POOL_SIZE)%nat /\
  exists r, cs ≡ₚ v ++ r /\ (forall x y, x ∈ v -> y ∈ r -> c_score y <= c_score x) /\
    (r <> [] -> length v = EVICTION_POOL_SIZE).
Proof.
  cbv zeta. unfold push_all.
  destruct (push_all_gen cs [] []) as (H1 & H2 & r & H3 & H4 & H5); [constructor|simpl; lia| |done|].
  { by intros ? ? ?%elem_of_nil. }
  split_and!; [done..|]. by exists r.
Qed.

(** ** One batch *)

Section facts.
Context `{Memchr, Itoa, Ryu, FastrandLaws, HashIterLaws, Layout}.

Lemma push_in c v x : x ∈ push c v -> x = c \/ x ∈ v.
Proof.
  unfold push. case_decide; [by right|]. intros Hx%(sublist_in _ _ x (sublist_take _ _)).
  apply elem_of_app in Hx as [Hx|[->|Hx]%elem_of_cons]; [right|by left|right].
  - by eapply sublist_in; [apply sublist_take|].
  - by eapply sublist_in; [apply sublist_drop|].
Qed.

(** What the policy allows to be removed from [d]. *)
Definition eligible (p : MaxmemoryPolicy) (d : Db) (k : Key) : Prop :=
  is_Some (dict d !! k) /\ (is_volatile_policy p = true -> is_Some (expires d !! k)).

Lemma sample_keys_in {V} (m : gmap Key V) i want k : k ∈ sample_keys m i want -> is_Some (m !! k).
Proof.
  unfold sample_keys. intros ([k' v] & -> & Hin)%list_elem_of_fmap. exists v. apply hash_iter_elem.
  by eapply sublist_in, Hin; etrans; [apply sublist_take|apply sublist_drop].
Qed.

Lemma push_keys_in p now d ks acc c :
  c ∈ (foldl (push_key p now d) acc ks).2 -> c_key c ∈ ks \/ c ∈ acc.2.
Proof.
  revert acc. induction ks as [|k ks IH]; intros acc; simpl; [by right|]. intros [Hc|Hc]%IH; [left; by right|].
  unfold push_key in Hc. destruct (dict d !! k); [|by right]. apply push_in in Hc as [->|]; [left; by left|by right].
Qed.

Lemma fill_pool_eligible d p now want i c :
  c ∈ (fill_pool d p now want i []).2 -> is_volatile_policy p = true -> is_Some (expires d !! c_key c).
Proof.
  unfold fill_pool. intros Hc Hv. rewrite Hv in Hc. case_decide; [by apply elem_of_nil in Hc|].
  apply push_keys_in in Hc as [Hc|Hc%elem_of_nil]; [by eapply sample_keys_in|done].
Qed.

(** The bytes credited for removing [ks]. *)
Definition keys_cost (d : Db) (ks : list Key) : Z :=
  foldr (fun k acc => default 0 (entry_cost k <$> dict d !! k) + acc) 0 ks.

Lemma keys_cost_reap d k ks : k ∉ ks -> keys_cost (reap d [k]) ks = keys_cost d ks.
Proof.
  induction ks as [|k' ks IH]; [done|]. intros [Hne Hk]%not_elem_of_cons.
  unfold keys_cost in *. cbn [foldr]. rewrite IH by done. rewrite (reap_dict [k] d k'), decide_False; [done|]. by intros ->%list_elem_of_singleton.
Qed.

Lemma evict_pool_spec pool max n d vs freed :
  (length vs <= max)%nat ->
  exists ks, evict_pool pool max n d vs freed = (reap d ks, vs ++ (pair n <$> ks), freed + keys_cost d ks) /\
    (length vs + length ks <= max)%nat /\ NoDup ks /\
    Forall (fun k => k ∈ c_key <$> pool /\ is_Some (dict d !! k)) ks.
Proof.
  revert d vs freed. induction pool as [|c pool IH]; intros d vs freed Hl; cbn [evict_pool].
  { exists []. rewrite app_nil_r, Z.add_0_r. split_and!; [done|simpl; lia|constructor..]. }
  case_decide as Hm.
  { exists []. rewrite app_nil_r, Z.add_0_r. split_and!; [done|simpl; lia|constructor..]. }
  destruct (dict d !! c_key c) as [e|] eqn:E.
  - change (signal_watch (c_key c) (remove_entry (c_key c) d).1) with (reap d [c_key c]).
    destruct (IH (reap d [c_key c]) (vs ++ [(n, c_key c)]) (freed + entry_cost (c_key c) e)) as (ks & -> & Hk & Hnd & Hf).
    { rewrite length_app. simpl. lia. }
    assert (c_key c ∉ ks) as Hnin.
    { rewrite Forall_forall in Hf. intros [_ [x Hx]]%Hf. rewrite reap_dict, decide_True in Hx by by left. done. }
    exists (c_key c :: ks). split_and!.
    + rewrite <-app_assoc, keys_cost_reap by done. unfold keys_cost. cbn [foldr]. rewrite E. cbn. by rewrite Z.add_assoc.
    + rewrite length_app in Hk. simpl in *. lia.
    + by constructor.
    + constructor; [split; [by left|done]|]. eapply Forall_impl; [exact Hf|]. intros k [Hp [x Hx]].
      split; [by right|]. rewrite reap_dict in Hx. case_decide; [done|]. by exists x.
  - destruct (IH d vs freed Hl) as (ks & -> & Hk & Hnd & Hf). exists ks. split_and!; [done..|].
    eapply Forall_impl; [exact Hf|]. intros k [Hp Hs]. split; [by right|done].
Qed.

(** The victims of database [n]. *)
Definition keys_of (n : nat) (vs : list (nat * Key)) : list Key := snd <$> filter (fun p => p.1 = n) vs.

Definition victims_cost (s : Shard) (vs : list (nat * Key)) : Z :=
  foldr (fun p acc => default 0 (d ← db p.1 s; entry_cost p.2 <$> dict d !! p.2) + acc) 0 vs.

Lemma keys_of_pair n n' ks vs : keys_of n' ((pair n <$> ks) ++ vs) = (if decide (n = n') then ks else []) ++ keys_of n' vs.
Proof.
  unfold keys_of. rewrite filter_app, fmap_app. f_equal. induction ks as [|k ks IH]; [by case_decide|].
  cbn [fmap list_fmap]. destruct (decide (n = n')) as [<-|Hn].
  - rewrite filter_cons_True by done. cbn [fmap list_fmap]. by f_equal.
  - rewrite filter_cons_False by done. exact IH.
Qed.

Lemma keys_of_in n vs k : k ∈ keys_of n vs <-> (n, k) ∈ vs.
Proof.
  unfold keys_of. rewrite list_elem_of_fmap. split.
  - intros ([n' k'] & -> & [Hn Hin]%list_elem_of_filter). simpl in *. by subst.
  - intros Hin. exists (n, k). split; [done|]. by apply list_elem_of_filter.
Qed.

Lemma victims_cost_pair s n d ks vs :
  db n s = Some d -> victims_cost s ((pair n <$> ks) ++ vs) = keys_cost d ks + victims_cost s vs.
Proof. intros Hd. induction ks as [|k ks IH]; [done|]. unfold victims_cost, keys_cost in *.
  cbn [fmap list_fmap app foldr fst snd]. rewrite IH, Hd. cbn [mbind option_bind]. by rewrite Z.add_assoc.
Qed.

Lemma victims_cost_ext s s' vs : (forall n k, (n, k) ∈ vs -> db n s = db n s') -> victims_cost s vs = victims_cost s' vs.
Proof.
  induction vs as [|[n k] vs IH]; intros Hs; [done|]. unfold victims_cost in *. cbn [foldr fst snd].
  rewrite (Hs n k) by by left. f_equal. apply IH. intros n' k' Hin. apply (Hs n' k'). by right.
Qed.

Lemma evict_dbs_spec idxs cfg now max samples i s vs freed :
  NoDup idxs -> (length vs <= max)%nat ->
  exists i' s' new, evict_dbs idxs cfg now max samples i s vs freed = (i', s', vs ++ new, freed + victims_cost s new) /\
    (length vs + length new <= max)%nat /\ NoDup new /\
    Forall (fun p => p.1 ∈ idxs /\ exists d, db p.1 s = Some d /\ eligible (maxmemory_policy cfg) d p.2) new /\
    (forall n, db n s' = (fun d => reap d (keys_of n new)) <$> db n s) /\
    Shard.dirty s' = Shard.dirty s /\ repl_buf s' = repl_buf s.
Proof.
  intros Hnd. revert i s vs freed. induction Hnd as [|n idxs Hn Hnd IH]; intros i s vs freed Hl; cbn [evict_dbs].
  1: idtac.
  2: destruct (decide (max <= length vs)%nat) as [Hm|Hm].
  1, 2: (exists i, s, []; rewrite app_nil_r, Z.add_0_r; split_and!; [done|simpl; lia|constructor|constructor| |done..];
    intros n'; change (keys_of n' []) with (@nil Key); by destruct (db n' s)).
  assert (exists i' s' new, evict_dbs idxs cfg now max samples i s vs freed = (i', s', vs ++ new, freed + victims_cost s new) /\
    (length vs + length new <= max)%nat /\ NoDup new /\
    Forall (fun p => p.1 ∈ n :: idxs /\ exists d, db p.1 s = Some d /\ eligible (maxmemory_policy cfg) d p.2) new /\
    (forall n, db n s' = (fun d => reap d (keys_of n new)) <$> db n s) /\
    Shard.dirty s' = Shard.dirty s /\ repl_buf s' = repl_buf s) as Hskip.
  { destruct (IH i s vs freed Hl) as (i' & s' & new & -> & H1' & H2' & H3' & H4'). exists i', s', new.
    split_and!; [done..| |by apply H4'|by apply H4'|by apply H4']. eapply Forall_impl; [exact H3'|].
    intros p [Hp He]. split; [by right|done]. }
  destruct (db n s) as [d|] eqn:Hd; [|exact Hskip]. case_decide as Hemp; [exact Hskip|]. clear Hskip.
  pose proof (fill_pool_eligible d (maxmemory_policy cfg) now (samples * 4) i) as Helig.
  destruct (fill_pool d (maxmemory_policy cfg) now (samples * 4) i []) as [i1 pool].
  destruct (evict_pool_spec pool max n d vs freed Hl) as (ks & -> & Hk & Hksnd & Hks).
  set (s1 := upd_db n (fun _ => reap d ks) s).
  assert (forall n', db n' s1 = if decide (n = n') then Some (reap d ks) else db n' s) as Hs1.
  { intros n'. unfold db, s1. rewrite upd_db_dbs, list_lookup_alter. case_decide; [subst|done].
    unfold db in Hd. by rewrite Hd. }
  destruct (IH i1 s1 (vs ++ (pair n <$> ks)) (freed + keys_cost d ks)) as (i' & s' & new & -> & Hlen & Hnew & Hall & Hdb & Hdirty & Hbuf).
  { rewrite length_app, length_fmap. lia. }
  rewrite Forall_forall in Hall. rewrite length_app, length_fmap in Hlen.
  assert (forall n' k, (n', k) ∈ new -> n' ≠ n) as Hne by (intros n' k [Hin _]%Hall ->; done).
  exists i', s', ((pair n <$> ks) ++ new). split_and!.
  - rewrite (victims_cost_pair s n d ks new Hd), app_assoc, Z.add_assoc.
    rewrite (victims_cost_ext s1 s new); [done|]. intros n' k Hin. rewrite Hs1, decide_False; [done|].
    intros ->. by apply (Hne n' k).
  - rewrite length_app, length_fmap. lia.
  - apply NoDup_app. split_and!; [by apply NoDup_fmap_2; [intros ? ? [=]|]| |done].
    intros [n' k] (k' & [= -> ->] & _)%list_elem_of_fmap Hin. by apply (Hne n k').
  - apply Forall_app. split.
    + apply Forall_fmap. eapply Forall_impl; [exact Hks|]. intros k [Hpool Hex]. split; [by left|]. exists d. split; [done|].
      split; [done|]. intros Hv. apply list_elem_of_fmap in Hpool as (c & -> & Hc). by apply Helig.
    + apply Forall_forall. intros [n' k] Hin. destruct (Hall _ Hin) as [Hin' (d' & Hd' & He)]. split; [by right|].
      exists d'. split; [|done]. cbn [fst] in *. rewrite Hs1, decide_False in Hd'; [done|]. intros ->. by apply (Hne n' k).
  - intros n'. rewrite Hdb, Hs1, keys_of_pair. case_decide as E; [subst n'|done]. rewrite Hd. cbn [fmap option_fmap option_map].
    assert (keys_of n new = []) as ->.
    { destruct (keys_of n new) as [|k l] eqn:Ek; [done|]. assert (k ∈ keys_of n new) as Hin by (rewrite Ek; by left).
      apply keys_of_in in Hin. by destruct (Hne _ _ Hin). }
    by rewrite app_nil_r.
  - by rewrite Hdirty.
  - by rewrite Hbuf.
Qed.

Lemma batch_ok s s' vs : dbs_ok s -> (forall n, db n s' = (fun d => reap d (keys_of n vs)) <$> db n s) -> dbs_ok s'.
Proof.
  unfold dbs_ok, db. rewrite !Forall_lookup. intros Hok Hdb n d'. rewrite Hdb. destruct (dbs s !! n) as [d|] eqn:E; [|done].
  intros [= <-]. by eapply reap_ok, Hok.
Qed.

Definition victims_log (cfg : Config) (vs : list (nat * Key)) : list Propagation :=
  (fun p => {| prop_db := p.1; prop_argv := [evict_verb cfg; p.2] |}) <$> vs.

Lemma propagate_victims_same verb vs s :
  dbs (propagate_victims verb vs s) = dbs s /\ Shard.dirty (propagate_victims verb vs s) = Shard.dirty s /\
  repl_buf (propagate_victims verb vs s) = repl_buf s ++ ((fun p => {| prop_db := p.1; prop_argv := [verb; p.2] |}) <$> vs).
Proof.
  unfold propagate_victims. revert s. induction vs as [|[n k] vs IH]; intros s; [by rewrite app_nil_r|]. cbn [foldl].
  destruct (IH (propagate n [verb; k] s)) as (-> & -> & ->). split_and!; [done..|]. simpl. by rewrite <-app_assoc.
Qed.

Lemma evict_batch_effect databases now propagating cfg max i h :
  exists h' i' vs, evict_batch databases now propagating cfg max i h = (h', i', victims_cost (lock h) vs, vs) /\
    (length vs <= max)%nat /\ NoDup vs /\
    Forall (fun p => p.1 ∈ seq 0 databases /\ exists d, db p.1 (lock h) = Some d /\ eligible (maxmemory_policy cfg) d p.2) vs /\
    (forall n, db n (lock h') = (fun d => reap d (keys_of n vs)) <$> db n (lock h)) /\
    Shard.dirty (lock h') = Shard.dirty (lock h) + blen vs /\
    repl_buf (lock h') = repl_buf (lock h) ++ (if propagating then victims_log cfg vs else []) /\
    h_mem h' = Z.max 0 (h_mem h - victims_cost (lock h) vs) /\
    (vs = [] -> h_expires h' = h_expires h).
Proof.
  unfold evict_batch. set (samples := Nat.min _ 64).
  destruct (evict_dbs_spec (seq 0 databases) cfg now max samples i (lock h) [] 0)
    as (i' & s' & vs & -> & Hlen & Hnd & Hall & Hdb & Hdirty & Hbuf); [apply NoDup_seq|simpl; lia|].
  cbn [app]. rewrite Z.add_0_l. unfold victims_log. case_decide as E.
  - do 3 eexists. split; [done|]. rewrite E in *. split_and!; try done.
    + simpl. by rewrite Hdirty, Z.add_0_r.
    + simpl. rewrite Hbuf. destruct propagating; by rewrite app_nil_r.
  - do 3 eexists. split; [done|]. cbn [lock with_mem sync_stats with_lock h_mem].
    destruct (propagate_victims_same (evict_verb cfg) vs (add_dirty (blen vs) s')) as (E1 & E2 & E3).
    destruct propagating; unfold db; rewrite ?E1, ?E2, ?E3; simpl; rewrite ?Hdirty, ?Hbuf, ?app_nil_r; (split_and!; done).
Qed.

(** One batch of eviction under a shard lock does what its policy allows
    and no more: it removes at most [max_keys] distinct keys, each of which
    existed and, under a volatile policy, had a TTL; every other key of the
    shard is as it was, the expiry index still mirrors the dictionary, each
    removal is counted and logged as one DEL or UNLINK in order, and the memory
    estimate goes down by exactly the cost of the victims, stopping at zero. *)
Theorem evict_batch_spec databases now propagating cfg max i h h' i' freed vs :
  dbs_ok (lock h) -> evict_batch databases now propagating cfg max i h = (h', i', freed, vs) ->
  (length vs <= max)%nat /\ NoDup vs /\
  (forall n k, (n, k) ∈ vs -> exists d, db n (lock h) = Some d /\ eligible (maxmemory_policy cfg) d k) /\
  (forall n d, db n (lock h) = Some d -> exists d', db n (lock h') = Some d' /\
     forall k, dict d' !! k = if decide ((n, k) ∈ vs) then None else dict d !! k) /\
  dbs_ok (lock h') /\ Shard.dirty (lock h') = Shard.dirty (lock h) + blen vs /\
  repl_buf (lock h') = repl_buf (lock h) ++ (if propagating then victims_log cfg vs else []) /\
  freed = victims_cost (lock h) vs /\ h_mem h' = Z.max 0 (h_mem h - freed).
Proof.
  intros Hok Hb. destruct (evict_batch_effect databases now propagating cfg max i h)
    as (h1 & i1 & vs1 & E & Hlen & Hnd & Hall & Hdb & Hdirty & Hbuf & Hmem & _).
  rewrite E in Hb. injection Hb as <- <- <- <-. rewrite Forall_forall in Hall.
  split_and!; try done.
  - intros n k [_ He]%Hall. exact He.
  - intros n d Hd. exists (reap d (keys_of n vs1)). rewrite Hdb, Hd. split; [done|]. intros k. rewrite reap_dict.
    by rewrite (decide_ext _ _ _ _ (keys_of_in n vs1 k)).
  - by apply (batch_ok (lock h) _ vs1).
Qed.

(** ** The sweep *)

(** What a sweep may do to the keyspace: remove eligible keys. *)
Definition swept (p : MaxmemoryPolicy) (m m' : ShardMap) : Prop :=
  forall n k, server_entry m' n k = server_entry m n k \/
    server_entry m' n k = None /\ exists e, server_entry m n k = Some e /\
      p <> NoEviction /\ (is_volatile_policy p = true -> is_Some (expire_at_ms e)).

Lemma swept_refl p m : swept p m m.
Proof. by left. Qed.

Lemma swept_trans p m1 m2 m3 : swept p m1 m2 -> swept p m2 m3 -> swept p m1 m3.
Proof.
  intros H12 H23 n k. destruct (H12 n k) as [E1|(E1 & e & He)], (H23 n k) as [E2|(E2 & e' & He')]; rewrite ?E2, ?E1 in *.
  - by left.
  - right. split; [done|]. by exists e'.
  - right. split; [done|]. by exists e.
  - right. split; [done|]. by exists e.
Qed.

Lemma put_handle_lookup m i h h' k :
  map_get m i = Some h ->
  shard_for (put_handle i h' m) k = if decide (shard_index m k = i) then Some h' else shard_for m k.
Proof.
  intros Hh. unfold shard_for, map_get in *. change (shard_index (put_handle i h' m) k) with (shard_index m k).
  cbn [put_handle Shard.shards]. rewrite list_lookup_insert. apply lookup_lt_Some in Hh.
  destruct (decide (shard_index m k = i)) as [->|Hne]; [by rewrite decide_True|by rewrite decide_False by naive_solver].
Qed.

Lemma put_handle_entry_of m i h h' n k :
  map_get m i = Some h ->
  server_entry (put_handle i h' m) n k =
    if decide (shard_index m k = i) then d ← db n (lock h'); dict d !! k else server_entry m n k.
Proof. intros Hh. unfold server_entry. rewrite (put_handle_lookup m i h h' k Hh). by case_decide. Qed.

Lemma put_handle_server_ok m i h' : server_ok m -> dbs_ok (lock h') -> server_ok (put_handle i h' m).
Proof. intros Hm Hh'. unfold server_ok. cbn [put_handle Shard.shards]. by apply Forall_insert. Qed.

Lemma server_handle_ok m i h : server_ok m -> map_get m i = Some h -> dbs_ok (lock h).
Proof. unfold server_ok. rewrite Forall_lookup. intros Hm. apply Hm. Qed.

Lemma batch_swept (cfg : Config) m i h h' vs :
  server_ok m -> maxmemory_policy cfg <> NoEviction -> map_get m i = Some h ->
  Forall (fun p => p.1 ∈ seq 0 (databases m) /\ exists d, db p.1 (lock h) = Some d /\ eligible (maxmemory_policy cfg) d p.2) vs ->
  (forall n, db n (lock h') = (fun d => reap d (keys_of n vs)) <$> db n (lock h)) ->
  swept (maxmemory_policy cfg) m (put_handle i h' m).
Proof.
  intros Hok Hpol Hh Hall Hdb n k. rewrite (put_handle_entry_of m i h h' n k Hh). case_decide as Hi; [|by left].
  assert (server_entry m n k = db n (lock h) ≫= fun d => dict d !! k) as He.
  { unfold server_entry, shard_for. rewrite Hi, Hh. done. }
  rewrite He, Hdb. destruct (db n (lock h)) as [d|] eqn:Hd; [|by left].
  cbn [fmap option_fmap option_map mbind option_bind]. rewrite reap_dict. case_decide as Hk; [|by left].
  right. split; [done|]. apply keys_of_in in Hk. rewrite Forall_forall in Hall.
  destruct (Hall _ Hk) as [_ (d0 & Hd0 & [e Ee] & Hv)]. cbn [fst snd] in *. rewrite Hd in Hd0. injection Hd0 as <-.
  exists e. split_and!; [done..|]. intros Hvol. pose proof (server_db_ok m i n h d Hok Hh Hd) as Hdok.
  specialize (Hv Hvol). rewrite (ok_expires d Hdok), Ee in Hv. exact Hv.
Qed.

Lemma with_mem_swept p m i h x : map_get m i = Some h -> swept p m (put_handle i (with_mem x h) m).
Proof.
  intros Hh n k. left. rewrite (put_handle_entry_of m i h _ n k Hh). case_decide as Hi; [|done].
  unfold server_entry, shard_for. by rewrite Hi, Hh.
Qed.

Lemma put_put i h h' m : put_handle i h (put_handle i h' m) = put_handle i h m.
Proof. unfold put_handle. simpl. by rewrite list_insert_insert_eq. Qed.

Lemma put_handle_get i h m x : map_get m i = Some x -> map_get (put_handle i h m) i = Some h.
Proof. intros Hx. unfold map_get, put_handle in *. simpl. apply list_lookup_insert_eq. by eapply lookup_lt_Some. Qed.

Lemma refresh_all_entry m n k : server_entry (refresh_all m) n k = server_entry m n k.
Proof.
  unfold server_entry, shard_for, map_get. change (shard_index (refresh_all m) k) with (shard_index m k).
  unfold refresh_all. cbn [Shard.shards]. rewrite list_lookup_fmap. by destruct (Shard.shards m !! shard_index m k).
Qed.

Lemma refresh_all_ok m : server_ok m -> server_ok (refresh_all m).
Proof. unfold server_ok, refresh_all. cbn [Shard.shards]. rewrite Forall_fmap. done. Qed.

(** One round changes the map by [swept], keeps the invariant, and leaves the
    configuration alone. *)
Lemma evict_rounds_spec fuel late t cfg s st s' st' returned :
  server_ok (shard_map s) -> maxmemory_policy cfg <> NoEviction ->
  evict_rounds fuel late t cfg s st = (s', st', returned) ->
  server_ok (shard_map s') /\ swept (maxmemory_policy cfg) (shard_map s) (shard_map s') /\ ev_over_limit st' = ev_over_limit st /\
  (returned = true -> used_memory (shard_map s') <= maxmemory cfg).
Proof.
  intros Hok Hpol. revert t s st Hok. induction fuel as [|fuel IH]; intros t s st Hok; cbn [evict_rounds].
  { intros [= <- <- <-]. split_and!; first [done|apply swept_refl]. }
  case_decide as Hu; [intros [= <- <- <-]; split_and!; first [done|apply swept_refl]|].
  destruct (late t); [intros [= <- <- <-]; split_and!; first [done|apply swept_refl]|].
  destruct (fattest_shard (shard_map s)) as [i|]; [|intros [= <- <- <-]; split_and!; first [done|apply swept_refl]].
  destruct (map_get (shard_map s) i) as [h|] eqn:Hh; [|intros [= <- <- <-]; split_and!; first [done|apply swept_refl]].
  destruct (evict_batch_effect (databases (shard_map s)) (clock_ms s) (is_propagating (shared s)) cfg MAX_EVICTIONS_PER_LOCK
    (draws (shared s)) h) as (h' & i' & vs & -> & _ & _ & Hall & Hdb & _).
  pose proof (batch_swept cfg (shard_map s) i h h' vs Hok Hpol Hh Hall Hdb) as Hsw.
  assert (dbs_ok (lock h')) as Hh'ok by (eapply batch_ok, Hdb; by eapply server_handle_ok).
  pose proof (put_handle_server_ok (shard_map s) i h' Hok Hh'ok) as Hok1.
  case_decide as Evs.
  - set (s1 := with_map _ (with_shared _ _)).
    assert (shard_map s1 = put_handle i (refresh_shard_estimate h') (shard_map s)) as Es1 by apply put_put. clearbody s1.
    assert (server_ok (shard_map s1)) as Hok2 by (rewrite Es1; by apply put_handle_server_ok).
    assert (swept (maxmemory_policy cfg) (shard_map s) (shard_map s1)) as Hsw2.
    { eapply swept_trans; [exact Hsw|]. rewrite Es1, <-(put_put i (refresh_shard_estimate h') h').
      eapply with_mem_swept. by eapply put_handle_get. }
    destruct (_ && _); [intros [= <- <- <-]; by split_and!|]. case_decide; [intros [= <- <- <-]; by split_and!|].
    intros Hr. apply IH in Hr as (Hr1 & Hr2 & Hr3 & Hr4); [|done]. split_and!; [done| |done..]. by eapply swept_trans.
  - intros Hr. apply IH in Hr as (Hr1 & Hr2 & Hr3 & Hr4); [|done]. split_and!; [done| |done..]. by eapply swept_trans.
Qed.

(** C19: A sweep removes only what the policy allows, whatever the random
    draws and the clock: [noeviction] removes nothing, a volatile policy never
    removes a key without a TTL, no surviving entry is changed and the
    keyspace invariant is kept; and when a limit is set the sweep reports being
    over it exactly when it ends over it. *)
Theorem evict_cycle_safe late s s' st :
  server_ok (shard_map s) -> evict_cycle late s = (s', st) ->
  let p := maxmemory_policy (config s) in
  server_ok (shard_map s') /\
  (forall n k e, server_entry (shard_map s) n k = Some e ->
     (p = NoEviction \/ (is_volatile_policy p = true /\ expire_at_ms e = None)) ->
     server_entry (shard_map s') n k = Some e) /\
  (forall n k e, server_entry (shard_map s') n k = Some e -> server_entry (shard_map s) n k = Some e) /\
  (maxmemory (config s) <> 0 -> ev_over_limit st = bool_decide (maxmemory (config s) < used_memory (shard_map s'))).
Proof.
  intros Hok Hc p.
  enough (server_ok (shard_map s') /\ swept p (shard_map s) (shard_map s') /\
    (maxmemory (config s) <> 0 -> ev_over_limit st = bool_decide (maxmemory (config s) < used_memory (shard_map s')))) as (Hp1 & Hp2 & Hp3).
  { split_and!; [done| | |done].
    - intros n k e He Hp. destruct (Hp2 n k) as [->|(_ & e' & He' & Hne & Hv)]; [done|]. rewrite He in He'. injection He' as <-.
      destruct Hp as [|[Hvol Hnone]]; [done|]. apply Hv in Hvol as [x Hx]. congruence.
    - intros n k e He. destruct (Hp2 n k) as [<-|(E & _)]; [done|]. congruence. }
  assert (swept p (shard_map s) (refresh_all (shard_map s))) as Hsw by (intros n k; left; apply refresh_all_entry).
  unfold evict_cycle in Hc. case_decide as Hm; [injection Hc as <- <-; split_and!; first [done|apply swept_refl]|].
  fold p in Hc. case_decide as Hp.
  - injection Hc as <- <-. split_and!; [by apply refresh_all_ok|done|]. intros _. cbn [with_map shard_map].
    by case_bool_decide.
  - destruct (evict_rounds _ _ _ _ _ _) as [[s1 st1] ret] eqn:E.
    apply evict_rounds_spec in E as (E1 & E2 & E3 & E4); [|by apply refresh_all_ok|done]. cbn [with_map shard_map] in E2.
    destruct ret; injection Hc as <- <-; (split_and!; [done|by eapply swept_trans|]); intros _; [|done].
    rewrite E3. specialize (E4 eq_refl). by rewrite bool_decide_false by lia.
Qed.

(** ** Volatile policies and the fattest shard *)

(** No key of the shard has a TTL. *)
Definition no_volatile (s : Shard) : Prop := Forall (fun d => expires d = ∅) (dbs s).

Lemma fattest_from_ext i hs hs' best : h_mem <$> hs = h_mem <$> hs' -> fattest_from i hs best = fattest_from i hs' best.
Proof.
  revert i hs' best. induction hs as [|h hs IH]; intros i [|h' hs'] best; simpl; try done.
  intros [= Hm Hms]. rewrite Hm. by apply IH.
Qed.

(** The maps a stuck sweep goes through: the estimates are those of [m0], and
    shard [i] still has the databases it had. *)
Definition stalled (m0 : ShardMap) (i : nat) (h0 : ShardHandle) (m : ShardMap) : Prop :=
  h_mem <$> Shard.shards m = h_mem <$> Shard.shards m0 /\
  exists h, map_get m i = Some h /\ dbs (lock h) = dbs (lock h0).

Lemma stalled_round m0 i h0 m h' :
  map_get m0 i = Some h0 -> h_mem h0 = shard_cost (lock h0) -> dbs (lock h') = dbs (lock h0) ->
  stalled m0 i h0 m -> stalled m0 i h0 (put_handle i (refresh_shard_estimate h') m).
Proof.
  intros Hh0 Hcost Hdbs [Hmem (h & Hh & Hd)]. split.
  - rewrite <-Hmem. unfold put_handle. cbn [Shard.shards]. rewrite list_fmap_insert. apply list_insert_id.
    rewrite Hmem, list_lookup_fmap. unfold map_get in Hh0. rewrite Hh0. cbn. rewrite Hcost. unfold shard_cost. by rewrite Hdbs.
  - exists (refresh_shard_estimate h'). split; [|done]. by eapply put_handle_get.
Qed.

Lemma no_victims databases now propagating cfg max i h :
  is_volatile_policy (maxmemory_policy cfg) = true -> no_volatile (lock h) ->
  exists h' i' freed, evict_batch databases now propagating cfg max i h = (h', i', freed, []) /\ dbs (lock h') = dbs (lock h).
Proof.
  intros Hv Hno. destruct (evict_batch_effect databases now propagating cfg max i h)
    as (h' & i' & vs & -> & _ & _ & Hall & Hdb & _).
  assert (vs = []) as ->.
  { destruct vs as [|[n k] vs]; [done|]. apply Forall_cons in Hall as [[_ (d & Hd & [_ He])] _]. cbn [fst snd] in *.
    unfold no_volatile in Hno. rewrite Forall_lookup in Hno. specialize (Hno n d Hd). specialize (He Hv).
    rewrite Hno, lookup_empty in He. by destruct He. }
  do 3 eexists. split; [done|]. apply list_eq. intros n. specialize (Hdb n). unfold db in Hdb. rewrite Hdb.
  change (keys_of n []) with (@nil Key). by destruct (dbs (lock h) !! n).
Qed.

Lemma stalled_rounds m0 i h0 fuel late t cfg s st s' st' returned :
  is_volatile_policy (maxmemory_policy cfg) = true -> no_volatile (lock h0) -> map_get m0 i = Some h0 ->
  h_mem h0 = shard_cost (lock h0) -> fattest_shard m0 = Some i -> maxmemory cfg < used_memory m0 ->
  stalled m0 i h0 (shard_map s) -> evicted st = 0 ->
  evict_rounds fuel late t cfg s st = (s', st', returned) ->
  stalled m0 i h0 (shard_map s') /\ evicted st' = 0 /\ returned = false /\ (forall n k, server_entry (shard_map s') n k = server_entry (shard_map s) n k).
Proof.
  intros Hv Hno Hh0 Hcost Hfat Hover. revert t s st. induction fuel as [|fuel IH]; intros t s st Hst Hev; cbn [evict_rounds].
  { by intros [= <- <- <-]. }
  pose proof Hst as [Hmem (h & Hh & Hd)].
  assert (used_memory (shard_map s) = used_memory m0) as Hu by (unfold used_memory; by rewrite Hmem).
  assert (fattest_shard (shard_map s) = Some i) as Hf.
  { rewrite <-Hfat. unfold fattest_shard. by rewrite (fattest_from_ext 0 _ _ None Hmem). }
  rewrite decide_False by lia. destruct (late t); [by intros [= <- <- <-]|]. rewrite Hf, Hh.
  destruct (no_victims (databases (shard_map s)) (clock_ms s) (is_propagating (shared s)) cfg MAX_EVICTIONS_PER_LOCK
    (draws (shared s)) h Hv) as (h' & i' & freed & -> & Hd'); [unfold no_volatile; by rewrite Hd|].
  rewrite decide_True by done. set (s1 := with_map _ (with_shared _ _)).
  assert (shard_map s1 = put_handle i (refresh_shard_estimate h') (shard_map s)) as Es1 by apply put_put. clearbody s1.
  assert (stalled m0 i h0 (shard_map s1)) as Hst1 by (rewrite Es1; apply stalled_round; congruence).
  assert (forall n k, server_entry (shard_map s1) n k = server_entry (shard_map s) n k) as Hs1.
  { intros n k. rewrite Es1, (put_handle_entry_of _ i h _ n k Hh). case_decide as Hi; [|done].
    unfold server_entry, shard_for, db. rewrite Hi, Hh. cbn. by rewrite Hd'. }
  destruct (_ && _); [intros [= <- <- <-]; by split_and!|]. case_decide; [intros [= <- <- <-]; by split_and!|].
  intros Hr. apply IH in Hr as (Hr1 & Hr2 & Hr3 & Hr4); [|done..]. split_and!; [done..|]. intros n k. by rewrite Hr4.
Qed.

(** A volatile policy gives up on the whole keyspace when the shard with
    the largest estimate holds no key with a TTL: re-estimating that shard
    does not change its estimate, so every round picks it again, and the sweep
    ends over the limit with nothing evicted and every entry in place, however
    many evictable keys the other shards hold and however much time is left. *)
Theorem evict_cycle_stalls late s s' st i h :
  is_volatile_policy (maxmemory_policy (config s)) = true -> maxmemory (config s) <> 0 ->
  maxmemory (config s) < used_memory (refresh_all (shard_map s)) ->
  fattest_shard (refresh_all (shard_map s)) = Some i -> map_get (refresh_all (shard_map s)) i = Some h -> no_volatile (lock h) ->
  evict_cycle late s = (s', st) ->
  evicted st = 0 /\ ev_over_limit st = true /\
  forall n k, server_entry (shard_map s') n k = server_entry (shard_map s) n k.
Proof.
  intros Hv Hmax Hover Hfat Hh Hno. unfold evict_cycle. rewrite decide_False by done.
  rewrite decide_False by (intros E; by rewrite E in Hv).
  destruct (evict_rounds _ _ _ _ _ _) as [[s1 st1] ret] eqn:E.
  assert (h_mem h = shard_cost (lock h)) as Hcost.
  { unfold map_get, refresh_all in Hh. cbn [Shard.shards] in Hh. rewrite list_lookup_fmap in Hh.
    destruct (Shard.shards (shard_map s) !! i) as [h1|]; [|done]. by injection Hh as <-. }
  apply (stalled_rounds (refresh_all (shard_map s)) i h) in E as ([E1 _] & E2 & -> & E4);
    [|done..|split; [done|by exists h]|done].
  intros [= <- <-]. cbn [ev_over_limit evicted set_over_limit]. split_and!; [done| |].
  - assert (used_memory (shard_map s1) = used_memory (refresh_all (shard_map s))) as -> by (unfold used_memory; by rewrite E1).
    by apply bool_decide_eq_true.
  - intros n k. rewrite E4. apply refresh_all_entry.
Qed.
End facts.

(** ** Witnesses *)

Section witnesses.
#[local] Existing Instances memchr_find itoa_model ryu_model no_draws hash_iter_model hash_iter_model_laws.

#[local] Instance no_draws_laws : FastrandLaws.
Proof. split; [intros; simpl; lia|intros; unfold in_unsigned; simpl; lia]. Qed.

#[local] Instance word_layout : Layout := fun _ => 8.

Definition with_policy (p : MaxmemoryPolicy) (limit : Z) : Config :=
  set_switch LazyfreeLazyEviction true (set_num Maxmemory limit (set_policy p config_default)).

Definition one_db (d : Db) (volatile : Z) : ShardHandle :=
  {| lock := {| shard_index_ := 0; dbs := [d]; Shard.dirty := 0; repl_buf := []; seq_ := 0 |};
     h_dirty := 0; h_keys := 0; h_expires := volatile; h_mem := 0 |}.

(** A fat shard without TTLs and a thin one whose only key has one. *)
Definition fat_db : Db :=
  run_ops [OpSet (bs "b") (entry_new (Str (Int 1)) None 0 false);
           OpSet (bs "d") (entry_new (Str (Int 2)) None 0 false)] (db_new 0).
Definition thin_db : Db := run_ops [OpSet (bs "v") (entry_new (Str (Int 3)) (Some 5000) 0 false)] (db_new 0).
Definition lopsided : ServerShared :=
  {| shard_map := {| Shard.shards := [one_db fat_db 0; one_db thin_db 1]; mask := 1; databases := 1 |};
     clock_ms := 1000; commands := table_new; shared := set_handle (with_policy VolatileTtl 10) demo_shared |}.

Lemma one_db_ok d v : db_ok d -> dbs_ok (lock (one_db d v)).
Proof. intros Hd. by apply Forall_singleton. Qed.

Lemma lopsided_ok : server_ok (shard_map lopsided).
Proof. constructor; [|constructor; [|constructor]]; apply one_db_ok, run_ops_ok, db_new_ok. Qed.

Lemma evict_batch_spec_witness :
  let '(h', _, freed, vs) := evict_batch 1 1000 true (with_policy VolatileTtl 10) 16 0 (one_db thin_db 1) in
  vs = [(0%nat, bs "v")] /\ freed = 66 /\
  repl_buf (lock h') = [{| prop_db := 0; prop_argv := [bs "UNLINK"; bs "v"] |}].
Proof.
  destruct (evict_batch 1 1000 true (with_policy VolatileTtl 10) 16 0 (one_db thin_db 1)) as [[[h' i'] freed] vs] eqn:E.
  assert (dbs_ok (lock (one_db thin_db 1))) as Hok by apply one_db_ok, run_ops_ok, db_new_ok.
  destruct (evict_batch_spec 1 1000 true (with_policy VolatileTtl 10) 16 0 (one_db thin_db 1) h' i' freed vs Hok E)
    as (_ & _ & _ & _ & _ & _ & Hlog & Hfreed & _).
  assert (vs = [(0%nat, bs "v")]) as -> by (vm_compute in E; injection E as _ _ _ <-; reflexivity).
  split; [reflexivity|]. split; [rewrite Hfreed; vm_compute; reflexivity|]. rewrite Hlog. reflexivity.
Defined.

Lemma evict_cycle_safe_witness :
  let '(s', _) := evict_cycle (fun _ => false) lopsided in
  server_entry (shard_map s') 0 (bs "b") = Some (entry_new (Str (Int 1)) None 0 false).
Proof.
  destruct (evict_cycle (fun _ => false) lopsided) as [s' st] eqn:E.
  destruct (evict_cycle_safe (fun _ => false) lopsided s' st lopsided_ok E) as (_ & Hkeep & _ & _).
  apply (Hkeep 0%nat (bs "b") (entry_new (Str (Int 1)) None 0 false)); [vm_compute; reflexivity|].
  right. split; reflexivity.
Defined.

Lemma evict_cycle_stalls_witness :
  let '(s', st) := evict_cycle (fun _ => false) lopsided in
  evicted st = 0 /\ ev_over_limit st = true /\ is_Some (expires thin_db !! bs "v").
Proof.
  destruct (evict_cycle (fun _ => false) lopsided) as [s' st] eqn:E.
  destruct (evict_cycle_stalls (fun _ => false) lopsided s' st 0 (refresh_shard_estimate (one_db fat_db 0)))
    as (H1 & H2 & _); [reflexivity|vm_compute; discriminate|vm_compute; reflexivity|vm_compute; reflexivity|reflexivity
      |constructor; [vm_compute; reflexivity|constructor]|exact E|].
  split; [exact H1|]. split; [exact H2|]. vm_compute. eexists. reflexivity.
Defined.
End witnesses.
