(* ===== verification/Generic.v ===== *)
(** * Commands on keys of any type ([src/command/generic.rs])

    DEL, UNLINK, EXISTS, TYPE, TOUCH, the TTL and EXPIRE families, PERSIST,
    RENAME, COPY, MOVE, KEYS, RANDOMKEY and OBJECT, as programs of the
    handlers' monad of [StringCmd].  SCAN is in [Scan], DUMP and RESTORE in
    [Dump], the pattern matcher in [Glob]; SORT in [Sort].  The value
    codec of COPY is whatever is installed, if anything is. *)
From S2P Require Import Prelude Config Crc Strnum Glob Object Shard Errors Reply Notify Commands Dtoa Client Registry Ctx StringCmd Dispatch.
Open Scope Z_scope.

(** [trait ValueCodec]: [codec_dump] is [None] where [dump] returns false,
    and otherwise what it appends. *)
Record ValueCodec := {
  codec_dump : Robj -> option bytes;
  codec_restore : bytes -> option Robj;
  codec_duplicate : Robj -> option Robj
}.

(** What the trait documents: [restore] inverts [dump], and [duplicate] copies. *)
Record codec_laws (c : ValueCodec) : Prop := {
  restore_dump o b : codec_dump c o = Some b -> codec_restore c b = Some o;
  duplicate_copies o o' : codec_duplicate c o = Some o' -> o' = o
}.

(** The trait's default [duplicate]. *)
Definition default_duplicate (dump : Robj -> option bytes) (restore : bytes -> option Robj) (o : Robj) : option Robj :=
  b ← dump o; restore b.

Section generic.
Context `{Memchr, Itoa, Ryu, Fastrand, HashIter} (value_codec : option ValueCodec).

Definition key_at (args : Args) (i : nat) : CmdError + Key := at_ args i.

Definition invalid_expire_in (nm : bytes) : CmdError := err (bs "invalid expire time in '" ++ nm ++ bs "' command").

(** ** Access to any database of a locked shard *)

(** Lazy expiry and nothing else. *)
Definition with_entry {R} (key : Key) (f : Entry -> R) (c : Ctx) : Ctx * option R :=
  let '(c, ex) := exists_ key c in
  if negb ex then (c, None) else (c, f <$> (db_at (db_index c) key c ≫= fun d => dict d !! key)).

Definition signal_db_watch (key : Key) (n : nat) (c : Ctx) : Ctx := upd_db_at n key (signal_watch key) c.

Definition take_entry (key : Key) (n : nat) (c : Ctx) : Ctx * option Entry :=
  let e := db_at n key c ≫= fun d => (remove_entry key d).2 in
  let c := upd_db_at n key (fun d => (remove_entry key d).1) c in
  (match e with Some _ => signal_db_watch key n c | None => c end, e).

Definition put_entry (key : Key) (e : Entry) (n : nat) (c : Ctx) : Ctx :=
  upd_db_at n key (fun d => set_entry key e (signal_watch key d)) c.

Definition exists_in_db (key : Key) (n : nat) (c : Ctx) : bool :=
  match db_at n key c ≫= fun d => dict d !! key with Some e => negb (is_expired e (now_ms c)) | None => false end.

Definition duplicate_value (o : Robj) : option Robj :=
  match o with Str s => Some (Str s) | o => k ← value_codec; codec_duplicate k o end.

Definition reply (f : ReplyWriter -> ReplyWriter) : M unit := do_ (set_out f).
Definition fail {A} (e : CmdError) : M A := try_ (inl e).

(** ** DEL, UNLINK, EXISTS, TYPE, TOUCH *)

Fixpoint del_loop (keys : list bytes) (removed : Z) : M Z :=
  match keys with
  | [] => mret removed
  | key :: keys =>
      gone ← call (remove key);
      if gone : bool then do_ (notify GENERIC (bs "del") key);; del_loop keys (removed + 1) else del_loop keys removed
  end.
Definition cmd_del : CmdHandler := fun args => removed ← del_loop (drop 1 args) 0; reply (int removed).

Fixpoint exists_loop (keys : list bytes) (found : Z) : M Z :=
  match keys with
  | [] => mret found
  | key :: keys => ex ← call (exists_ key); exists_loop keys (if ex : bool then found + 1 else found)
  end.
Definition cmd_exists : CmdHandler := fun args => found ← exists_loop (drop 1 args) 0; reply (int found).

Definition cmd_type : CmdHandler := fun args =>
  key ← try_ (key_at args 1);
  t ← call (ctx_type_name key);
  reply (simple (default (bs "none") t)).

Fixpoint touch_loop (keys : list bytes) (touched : Z) : M Z :=
  match keys with
  | [] => mret touched
  | key :: keys => o ← call (lookup_read key); touch_loop keys (match o with Some _ => touched + 1 | None => touched end)
  end.
Definition cmd_touch : CmdHandler := fun args => touched ← touch_loop (drop 1 args) 0; reply (int touched).

(** ** TTL, PTTL, EXPIRETIME, PEXPIRETIME, PERSIST *)

Definition ttl_generic (millis : bool) : CmdHandler := fun args =>
  key ← try_ (key_at args 1);
  ex ← call (exists_ key);
  if negb ex then reply (int (-2))
  else
    at_ ← call (expire_at key);
    now ← ask now_ms;
    match at_ with
    | None => reply (int (-1))
    | Some at_ =>
        let remaining := Z.max 0 (at_ - now) in
        reply (int (wraps 64 (if millis : bool then remaining else wrapu 64 (remaining + 500) / 1000)))
    end.
Definition cmd_ttl := ttl_generic false.
Definition cmd_pttl := ttl_generic true.

Definition expiretime_generic (millis : bool) : CmdHandler := fun args =>
  key ← try_ (key_at args 1);
  ex ← call (exists_ key);
  if negb ex then reply (int (-2))
  else
    at_ ← call (expire_at key);
    match at_ with
    | None => reply (int (-1))
    | Some at_ => reply (int (wraps 64 (if millis : bool then at_ else wrapu 64 (at_ + 500) / 1000)))
    end.
Definition cmd_expiretime := expiretime_generic false.
Definition cmd_pexpiretime := expiretime_generic true.

Definition cmd_persist : CmdHandler := fun args =>
  key ← try_ (key_at args 1);
  ex ← call (exists_ key);
  at_ ← (if ex : bool then call (expire_at key) else mret None);
  match at_ with
  | None => do_ propagate_none;; reply (int 0)
  | Some _ =>
      _ ← call (ctx_set_expire key None);
      do_ (notify GENERIC (bs "persist") key);;
      reply (int 1)
  end.

(** ** EXPIRE, PEXPIRE, EXPIREAT, PEXPIREAT *)

Inductive ExpireCond := Always | Nx | Xx | Gt | Lt.

(** The four flags of the parser's loop: [nx], [xx], [gt], [lt]. *)
Fixpoint expire_flags (toks : list bytes) (f : bool * bool * bool * bool) : CmdError + (bool * bool * bool * bool) :=
  match toks with
  | [] => inr f
  | tok :: toks =>
      let '(n, x, g, l) := f in
      if is_tok tok (bs "NX") then expire_flags toks (true, x, g, l)
      else if is_tok tok (bs "XX") then expire_flags toks (n, true, g, l)
      else if is_tok tok (bs "GT") then expire_flags toks (n, x, true, l)
      else if is_tok tok (bs "LT") then expire_flags toks (n, x, g, true)
      else inl (err (bs "Unsupported option " ++ concat (utf8_lossy_chars (length tok) tok)))
  end.

Definition parse_expire_cond (args : Args) (from : nat) : CmdError + ExpireCond :=
  match expire_flags (drop from args) (false, false, false, false) with
  | inl e => inl e
  | inr (n, x, g, l) =>
      if g && l then inl (err (bs "GT and LT options at the same time are not compatible"))
      else if n && (x || g || l) then inl (err (bs "NX and XX, GT or LT options at the same time are not compatible"))
      else inr (if n then Nx else if x then Xx else if g then Gt else if l then Lt else Always)
  end.

Definition cond_allows (cond : ExpireCond) (current : option Z) (when_ms : Z) : bool :=
  match cond, current with
  | Always, _ => true
  | Nx, Some _ => false
  | Nx, None => true
  | Xx, None => false
  | Xx, Some _ => true
  | Gt, None => false
  | Gt, Some cur => bool_decide (wraps 64 cur < when_ms)
  | Lt, None => true
  | Lt, Some cur => bool_decide (when_ms < wraps 64 cur)
  end.

(** The deadline the arguments ask for, checked for overflow. *)
Definition expire_when (unit_ms absolute : bool) (nm : bytes) (raw now : Z) : CmdError + Z :=
  if negb unit_ms && bool_decide (raw < Z.quot I64_MIN 1000 \/ Z.quot I64_MAX 1000 < raw) then inl (invalid_expire_in nm)
  else
    let when := if unit_ms then raw else raw * 1000 in
    let basetime := if absolute then 0 else wraps 64 now in
    if decide (I64_MAX - basetime < when) then inl (invalid_expire_in nm) else inr (when + basetime).

Definition expire_generic (unit_ms absolute : bool) (nm : bytes) : CmdHandler := fun args =>
  key ← try_ (key_at args 1);
  raw ← try_ (i64_at args 2);
  cond ← try_ (parse_expire_cond args 3);
  now ← ask now_ms;
  when ← try_ (expire_when unit_ms absolute nm raw now);
  ex ← call (exists_ key);
  if negb ex then do_ propagate_none;; reply (int 0)
  else
    current ← call (expire_at key);
    if negb (cond_allows cond current when) then do_ propagate_none;; reply (int 0)
    else if decide (when <= wraps 64 now) then
      lazy ← ask (fun c => lazyfree_lazy_expire (cfg c));
      _ ← call (remove key);
      do_ (notify GENERIC (bs "del") key);;
      do_ (ctx_propagate [if lazy : bool then bs "UNLINK" else bs "DEL"; key]);;
      reply (int 1)
    else
      _ ← call (ctx_set_expire key (Some (wrapu 64 when)));
      do_ (notify GENERIC (bs "expire") key);;
      do_ (ctx_propagate [bs "PEXPIREAT"; key; itoa_format when]);;
      reply (int 1).

Definition cmd_expire := expire_generic false false (bs "expire").
Definition cmd_pexpire := expire_generic true false (bs "pexpire").
Definition cmd_expireat := expire_generic false true (bs "expireat").
Definition cmd_pexpireat := expire_generic true true (bs "pexpireat").

(** ** RENAME, RENAMENX *)

Definition rename_generic (only_new : bool) : CmdHandler := fun args =>
  src ← try_ (key_at args 1);
  dst ← try_ (key_at args 2);
  n ← ask db_index;
  ex ← call (exists_ src);
  if negb ex then fail NoSuchKey
  else if decide (src = dst) then do_ propagate_none;; (if only_new then reply (int 0) else reply ok)
  else
    taken ← ask (exists_in_db dst n);
    if taken && only_new then do_ propagate_none;; reply (int 0)
    else
      e ← call (take_entry src n);
      match e with
      | None => fail NoSuchKey
      | Some e =>
          do_ (put_entry dst e n);;
          do_ (signal_modified src);;
          do_ (signal_modified dst);;
          do_ (notify GENERIC (bs "rename_from") src);;
          do_ (notify GENERIC (bs "rename_to") dst);;
          (if only_new then reply (int 1) else reply ok)
      end.
Definition cmd_rename := rename_generic false.
Definition cmd_renamenx := rename_generic true.

(** ** COPY, MOVE *)

Definition db_out_of_range : CmdError := err (bs "DB index is out of range").
Definition same_object : CmdError := err (bs "source and destination objects are the same").

(** The option loop of COPY: the target database and REPLACE. *)
Fixpoint copy_options (toks : list bytes) (databases dst_db : Z) (replace : bool) : CmdError + (Z * bool) :=
  match toks with
  | [] => inr (dst_db, replace)
  | tok :: toks =>
      if is_tok tok (bs "REPLACE") then copy_options toks databases dst_db true
      else if is_tok tok (bs "DB") then
        match toks with
        | [] => inl Syntax
        | arg :: toks =>
            match i64_at [arg] 0 with
            | inl e => inl e
            | inr n => if decide (n < 0 \/ databases <= n) then inl db_out_of_range else copy_options toks databases n replace
            end
        end
      else inl Syntax
  end.

Definition cmd_copy : CmdHandler := fun args =>
  src ← try_ (key_at args 1);
  dst ← try_ (key_at args 2);
  src_db ← ask db_index;
  m ← ask server_shards;
  '(dst_db, replace) ← try_ (copy_options (drop 3 args) (Z.of_nat (databases m)) (Z.of_nat src_db) false);
  let dst_db := Z.to_nat dst_db in
  if decide (src = dst /\ src_db = dst_db) then fail same_object
  else
    conf ← ask cfg;
    try_ (check_oom m conf);;
    ex ← call (exists_ src);
    if negb ex then do_ propagate_none;; reply (int 0)
    else
      taken ← ask (exists_in_db dst dst_db);
      if taken && negb replace then do_ propagate_none;; reply (int 0)
      else
        at_ ← call (expire_at src);
        o ← call (lookup_read src);
        match o with
        | None => do_ propagate_none;; reply (int 0)
        | Some o =>
            match duplicate_value o with
            | None => fail (err (bs "COPY of this type requires the RDB serializer, which is not loaded"))
            | Some copied =>
                now ← ask now_ms;
                do_ (put_entry dst (entry_new copied at_ now (is_lfu (maxmemory_policy conf))) dst_db);;
                do_ (signal_modified dst);;
                (if decide (dst_db = src_db) then mret tt else do_ (signal_db_watch dst dst_db));;
                do_ (notify GENERIC (bs "copy_to") dst);;
                reply (int 1)
            end
        end.

Definition cmd_move : CmdHandler := fun args =>
  key ← try_ (key_at args 1);
  target ← try_ (i64_at args 2);
  src_db ← ask db_index;
  m ← ask server_shards;
  if decide (target < 0 \/ Z.of_nat (databases m) <= target) then fail db_out_of_range
  else
    let dst_db := Z.to_nat target in
    if decide (dst_db = src_db) then fail same_object
    else
      ex ← call (exists_ key);
      taken ← ask (exists_in_db key dst_db);
      if negb ex || taken then do_ propagate_none;; reply (int 0)
      else
        e ← call (take_entry key src_db);
        match e with
        | None => do_ propagate_none;; reply (int 0)
        | Some e =>
            do_ (put_entry key e dst_db);;
            do_ (signal_modified key);;
            do_ (signal_db_watch key dst_db);;
            do_ (notify GENERIC (bs "move_from") key);;
            conf ← ask cfg;
            do_ (set_server (notify_dispatch (notify_keyspace_events conf) GENERIC (bs "move_to") dst_db key));;
            reply (int 1)
        end.

(** ** KEYS, RANDOMKEY *)

(** The current database of every locked shard, in locking order. *)
Definition locked_dbs (c : Ctx) : list Db := omap (fun p => db (db_index c) p.2) (guards (shards c)).

Definition key_matches (pattern key : bytes) : bool :=
  bool_decide (pattern = bs "*") || default false (glob_match pattern key).

Definition db_keys (pattern : bytes) (now : Z) (d : Db) : list Key :=
  fst <$> filter (fun p => negb (is_expired p.2 now) && key_matches pattern p.1 = true) (hash_iter (dict d)).

Definition cmd_keys : CmdHandler := fun args =>
  pattern ← try_ (key_at args 1);
  now ← ask now_ms;
  dbs ← ask locked_dbs;
  let found := dbs ≫= db_keys pattern now in
  reply (array (blen found));;
  reply (fun w => foldl (fun w k => bulk_from k w) w found).

Definition RANDOMKEY_TRIES : nat := 16.

(** One pass over the locked databases: the key at position [target] of their
    concatenation, unless it is expired.  [target] becomes [usize::MAX] once
    the pick is consumed. *)
Fixpoint pick (dbs : list Db) (now target : Z) (picked : option Key) : option Key :=
  match dbs with
  | [] => picked
  | d :: dbs =>
      match picked with
      | Some _ => pick dbs now target picked
      | None =>
          let len := Z.of_nat (db_len d) in
          if decide (len <= target) then pick dbs now (target - len) picked
          else
            let hit := match hash_iter (dict d) !! Z.to_nat target with
                       | Some (key, e) => if is_expired e now then None else Some key
                       | None => None
                       end in
            pick dbs now U64_MAX hit
      end
  end.

Fixpoint randomkey_loop (tries : nat) (dbs : list Db) (now : Z) (total : nat) : M (option Key) :=
  match tries with
  | O => mret None
  | S tries =>
      i ← ask (fun c => draws (server c));
      do_ (set_server draw);;
      match pick dbs now (Z.of_nat (below i total)) None with
      | Some key => mret (Some key)
      | None => randomkey_loop tries dbs now total
      end
  end.

Definition cmd_randomkey : CmdHandler := fun _ =>
  now ← ask now_ms;
  dbs ← ask locked_dbs;
  let total := sum_list_with db_len dbs in
  if decide (total = 0%nat) then reply null
  else
    k ← randomkey_loop RANDOMKEY_TRIES dbs now total;
    reply (match k with Some key => bulk_from key | None => null end).

(** ** OBJECT *)

Definition SHARED_INTEGER_REFCOUNT : Z := 2147483647.

Definition object_help : list bytes := [
  bs "OBJECT <subcommand> [<arg> [value] [opt] ...]. Subcommands are:";
  bs "ENCODING <key>";
  bs "    Return the kind of internal representation used in order to store the value associated with <key>.";
  bs "FREQ <key>";
  bs "    Return the access frequency index of the <key>. The returned integer is proportional to the logarithm of the real access frequency.";
  bs "IDLETIME <key>";
  bs "    Return the idle time of the <key>, that is the approximated number of seconds elapsed since the last access to the value.";
  bs "REFCOUNT <key>";
  bs "    Return the number of references of the value associated with <key>.";
  bs "HELP";
  bs "    Print this help."].

Definition refcount (e : Entry) : Z :=
  match obj e with
  | Str s =>
      match as_i64 s with
      | Some v => if bool_decide (0 <= v < 10000) && negb (bool_decide (is_Some (as_slice s))) then SHARED_INTEGER_REFCOUNT else 1
      | None => 1
      end
  | _ => 1
  end.

(** A subcommand that reports on an entry. *)
Definition object_report {R} (key : Key) (f : Entry -> R) (show : R -> ReplyWriter -> ReplyWriter) : M unit :=
  r ← call (with_entry key f);
  match r with Some v => reply (show v) | None => fail NoSuchKey end.

Definition cmd_object : CmdHandler := fun args =>
  sub ← try_ (at_ args 1);
  if is_tok sub (bs "HELP") then
    reply (array (blen object_help));;
    reply (fun w => foldl (fun w l => simple l w) w object_help)
  else if decide (length args <> 3%nat) then fail (WrongArity (bs "object"))
  else
    key ← try_ (key_at args 2);
    now ← ask now_ms;
    conf ← ask cfg;
    let policy := maxmemory_policy conf in
    if is_tok sub (bs "ENCODING") then object_report key (fun e => encoding (obj e)) bulk
    else if is_tok sub (bs "REFCOUNT") then object_report key refcount int
    else if is_tok sub (bs "IDLETIME") then
      if is_lfu policy then
        fail (err (bs "An LFU maxmemory policy is selected, access time not tracked. Please note that when switching between maxmemory policies at runtime LFU and LRU data will take some time to adjust."))
      else object_report key (fun e => idle_ms (lru e) now / 1000) (fun v => int (wraps 64 v))
    else if is_tok sub (bs "FREQ") then
      if negb (is_lfu policy) then
        fail (err (bs "An LFU maxmemory policy is not selected, access frequency not tracked. Please note that when switching between maxmemory policies at runtime LFU and LRU data will take some time to adjust."))
      else object_report key (fun e => lfu_counter (lru e)) int
    else fail (err (bs "Unknown subcommand or wrong number of arguments for '" ++ concat (utf8_lossy_chars (length sub) sub) ++
                    bs "'. Try OBJECT HELP.")).
End generic.
