(* ===== verification/GenericFacts.v ===== *)
(** * The commands of [Generic], specified

    Each handler against the views of [Views]: the reply, the keys it changes
    and those it leaves, and what it propagates. *)
From S2P Require Import Prelude Config Crc Strnum Glob Object Shard Errors Reply Notify Commands Dtoa Client Registry Ctx StringCmd Views Dispatch Generic.
Open Scope Z_scope.

(** Run the next bind of a handler. *)
Ltac run := repeat first [rewrite run_ask | rewrite run_do | rewrite run_ok | rewrite run_ret | rewrite run_call].

Section facts.
Context `{Memchr, ItoaLaws, Ryu, FastrandLaws, HashIterLaws}.

Lemma run_reply f c : reply f c = (set_out f c, inr tt).
Proof. done. Qed.

Lemma run_fail {A} e c : (fail e : M A) c = (c, inl e).
Proof. done. Qed.

Lemma reply_moved f c : framed c (set_out f c) /\ (forall n k, view_at n k (set_out f c) = view_at n k c).
Proof. split; [by constructor|done]. Qed.

(** ** DEL and EXISTS *)

(** The distinct live keys among [keys]. *)
Definition live_keys (keys : list Key) (c : Ctx) : gset Key := filter (fun k => is_Some (view k c)) (list_to_set keys).

Lemma live_keys_cons key keys c :
  live_keys (key :: keys) c = (if decide (is_Some (view key c)) then {[key]} else ∅) ∪ live_keys keys c.
Proof.
  unfold live_keys. apply set_eq. intros k. rewrite elem_of_union, !elem_of_filter. simpl.
  rewrite elem_of_union, elem_of_singleton. split.
  - intros [Hk [->|Hin]]; [left; rewrite decide_True by done; by apply elem_of_singleton|by right].
  - case_decide; intros [Hk|[Hk Hin]]; try set_solver.
Qed.

Lemma del_loop_run keys removed c :
  exists c', let n := Z.of_nat (size (live_keys keys c)) in
    del_loop keys removed c = (c', inr (removed + n)) /\ moved n c c' /\
    forall m k, view_at m k c' = if decide (m = db_index c /\ k ∈ keys) then None else view_at m k c.
Proof.
  revert removed c. induction keys as [|key keys IH]; intros removed c.
  { exists c. cbv zeta. change (live_keys [] c) with (∅ : gset Key). rewrite size_empty. split_and!.
    - cbn. by rewrite Z.add_0_r.
    - apply (st_moved c c). reflexivity.
    - intros m k. by rewrite decide_False by (by intros [_ E%elem_of_nil]). }
  cbn [del_loop]. run. destruct (remove_run key c) as (-> & Hm & Hv). set (c1 := (remove key c).1) in *.
  pose proof (db_index_framed _ _ (m_framed _ _ _ Hm)) as Hi.
  assert (forall m k, view_at m k c1 = if decide (m = db_index c /\ k = key) then None else view_at m k c) as Hv1.
  { intros m k. rewrite Hv. by apply decide_ext; naive_solver. }
  assert (forall k, view k c1 = if decide (k = key) then None else view k c) as Hvk.
  { intros k. rewrite <-!view_current, Hi, Hv1. apply decide_ext. naive_solver. }
  assert (live_keys keys c1 = live_keys keys c ∖ {[key]}) as Hl.
  { apply set_eq. intros k. unfold live_keys. rewrite elem_of_difference, !elem_of_filter, Hvk.
    case_decide; [|set_solver]. subst. split; [by intros [[] _]|set_solver]. }
  rewrite live_keys_cons.
  assert (forall c2 c' s, moved 0 c1 c2 -> (forall m k, view_at m k c2 = view_at m k c1) ->
    (forall m k, view_at m k c' = if decide (m = db_index c2 /\ k ∈ keys) then None else view_at m k c2) ->
    moved s c2 c' -> forall d, moved d c c1 ->
    moved (d + s) c c' /\
    forall m k, view_at m k c' = if decide (m = db_index c /\ k ∈ key :: keys) then None else view_at m k c) as Hend.
  { intros c2 c' s Hm2 Hv2 Hv' Hm' d Hd. split; [exact (moved_trans _ _ _ _ _ Hd (moved_trans 0 s _ _ _ Hm2 Hm'))|].
    intros m k. rewrite Hv', (db_index_framed _ _ (m_framed _ _ _ Hm2)), Hi, Hv2, Hv1. repeat case_decide; set_solver. }
  case_bool_decide as Hlive; [rewrite decide_True by done|rewrite decide_False by done].
  - rewrite run_do. destruct (notify_settled GENERIC (bs "del") key c1) as [Hm2 Hv2].
    set (c2 := notify GENERIC (bs "del") key c1) in *. destruct (IH (removed + 1) c2) as (c' & -> & Hm' & Hv').
    assert (live_keys keys c2 = live_keys keys c1) as E2.
    { unfold live_keys. apply set_eq. intros k. rewrite !elem_of_filter, <-!view_current,
        (db_index_framed _ _ (m_framed _ _ _ Hm2)), Hv2. done. }
    exists c'. destruct (Hend c2 c' _ Hm2 Hv2 Hv' Hm' 1 Hm) as [Hm3 Hv3]. cbv zeta.
    assert (Z.of_nat (size ({[key]} ∪ live_keys keys c : gset Key)) = 1 + Z.of_nat (size (live_keys keys c2))) as ->.
    { rewrite E2, Hl. assert ({[key]} ∪ live_keys keys c = {[key]} ∪ (live_keys keys c ∖ {[key]})) as ->.
      { apply set_eq. intros k. destruct (decide (k = key)); set_solver. }
      rewrite size_union by set_solver. rewrite size_singleton. lia. }
    split_and!; [by rewrite Z.add_assoc|exact Hm3|exact Hv3].
  - destruct (IH removed c1) as (c' & -> & Hm' & Hv'). exists c'. cbv zeta.
    destruct (Hend c1 c' _ (st_moved c1 c1 ltac:(reflexivity)) ltac:(done) Hv' Hm' 0 Hm) as [Hm3 Hv3].
    assert (live_keys keys c1 = ∅ ∪ live_keys keys c) as <-.
    { rewrite Hl. apply set_eq. intros k. unfold live_keys. rewrite elem_of_difference, elem_of_union, !elem_of_filter. set_solver. }
    split_and!; [done|exact Hm3|exact Hv3].
Qed.

(** DEL (and UNLINK) removes exactly the named keys: it replies how many
    distinct live keys there were among them, counts one modification each,
    and leaves every other key of every database as it was. *)
Theorem cmd_del_spec name keys c :
  let n := Z.of_nat (size (live_keys keys c)) in
  let '(c', r) := cmd_del (name :: keys) c in
  r = inr tt /\ out c' = int n (out c) /\ dirty c' = dirty c + n /\
  forall m k, view_at m k c' = if decide (m = db_index c /\ k ∈ keys) then None else view_at m k c.
Proof.
  cbv zeta. unfold cmd_del. rewrite bind_eq. change (drop 1 (name :: keys)) with keys. destruct (del_loop_run keys 0 c) as (c' & -> & Hm & Hv).
  cbn. rewrite (m_out _ _ _ Hm). split_and!; [done|by rewrite Z.add_0_l|apply Hm|exact Hv].
Qed.

Lemma exists_loop_run keys found c :
  exists c', exists_loop keys found c = (c', inr (found + blen (filter (fun k => is_Some (view k c)) keys))) /\ settled c c'.
Proof.
  revert found c. induction keys as [|key keys IH]; intros found c.
  { exists c. split; [cbn; by rewrite Z.add_0_r|reflexivity]. }
  cbn [exists_loop]. run. destruct (exists_run key c) as (Hs & -> & _). set (c1 := (exists_ key c).1) in *.
  assert (forall k, view k c1 = view k c) as Hv.
  { intros k. by rewrite <-!view_current, (db_index_framed _ _ (m_framed _ _ _ (st_moved _ _ Hs))), (st_view _ _ Hs). }
  destruct (IH (if bool_decide (is_Some (view key c)) then found + 1 else found) c1) as (c' & -> & Hs').
  exists c'. split; [|by etrans]. do 2 f_equal.
  assert (filter (fun k => is_Some (view k c1)) keys = filter (fun k => is_Some (view k c)) keys) as ->.
  { apply list_filter_iff. intros k. by rewrite Hv. }
  rewrite filter_cons. case_bool_decide; case_decide; try done. unfold blen. simpl. lia.
Qed.

(** EXISTS counts its live arguments, repeats included, and changes nothing. *)
Theorem cmd_exists_spec name keys c :
  let '(c', r) := cmd_exists (name :: keys) c in
  r = inr tt /\ out c' = int (blen (filter (fun k => is_Some (view k c)) keys)) (out c) /\ dirty c' = dirty c /\
  forall m k, view_at m k c' = view_at m k c.
Proof.
  unfold cmd_exists. rewrite bind_eq. change (drop 1 (name :: keys)) with keys. destruct (exists_loop_run keys 0 c) as (c' & -> & [Hm Hv]).
  cbn. rewrite (m_out _ _ _ Hm). split_and!; [done|by rewrite Z.add_0_l|rewrite (m_dirty _ _ _ Hm); lia|exact Hv].
Qed.

(** ** The TTL family *)

Lemma settled_view k c c' : settled c c' -> view k c' = view k c.
Proof. intros [Hm Hv]. by rewrite <-!view_current, (db_index_framed _ _ (m_framed _ _ _ Hm)), Hv. Qed.

Lemma live_deadline now e o t : live now e = Some (o, Some t) -> now < t.
Proof. unfold live, is_expired. destruct (expire_at_ms e); [|done]. case_bool_decide; [done|]. intros [= _ <-]. lia. Qed.

Lemma view_deadline k c o t : view k c = Some (o, Some t) -> now_ms c < t.
Proof. unfold view. destruct (entry k c); [|done]. apply live_deadline. Qed.

(** What TTL and PTTL answer for a view. *)
Definition ttl_reply (millis : bool) (now : Z) (v : option (Robj * option Z)) : Z :=
  match v with
  | None => -2
  | Some (_, None) => -1
  | Some (_, Some t) => if millis then t - now else (t - now + 500) / 1000
  end.

(** TTL and PTTL answer -2 for a key that is missing or past its deadline,
    -1 for a key without one, and otherwise the time left, in milliseconds or
    rounded to the nearest second; they change nothing. *)
Theorem ttl_generic_spec millis args key c :
  args !! 1%nat = Some key -> 0 <= now_ms c ->
  (forall o t, view key c = Some (o, Some t) -> t <= I64_MAX) ->
  let '(c', r) := ttl_generic millis args c in
  r = inr tt /\ out c' = int (ttl_reply millis (now_ms c) (view key c)) (out c) /\ dirty c' = dirty c /\
  forall n k, view_at n k c' = view_at n k c.
Proof.
  intros Hk Hnow Hmax. unfold ttl_generic, key_at, at_. rewrite Hk. run.
  destruct (exists_run key c) as (Hs & -> & _). set (c1 := (exists_ key c).1) in *.
  destruct (view key c) as [[o a]|] eqn:Ev; cbn [bool_decide negb].
  2: { rewrite bool_decide_false by (by intros []). cbn [negb]. rewrite run_reply. cbn [out dirty set_out]. destruct Hs as [Hm Hv].
       rewrite (m_out _ _ _ Hm). split_and!; [done..|rewrite (m_dirty _ _ _ Hm); lia|exact Hv]. }
  rewrite bool_decide_true by done. cbn [negb]. run. destruct (expire_at_run key c1) as [Hs2 ->].
  rewrite (settled_view key _ _ Hs), Ev. cbn [mbind option_bind snd].
  assert (settled c (expire_at key c1).1) as [Hm Hv] by by etrans. set (c2 := (expire_at key c1).1) in *.
  pose proof (f_now _ _ (m_framed _ _ _ Hm)) as En.
  destruct a as [t|]; rewrite run_reply; cbn [out dirty set_out]; rewrite (m_out _ _ _ Hm); (split_and!; [done| |rewrite (m_dirty _ _ _ Hm); lia|exact Hv]); [|done].
  f_equal. rewrite En. pose proof (view_deadline key c o t Ev) as Hlt. specialize (Hmax o t eq_refl).
  unfold ttl_reply, I64_MAX in *. rewrite Z.max_r by lia.
  rewrite (wrapu_small 64) by (unfold in_unsigned; lia). destruct millis; apply wraps_small; unfold in_signed; [lia..|dlia].
Qed.

(** ** The EXPIRE family *)

Lemma expire_when_range u a nm raw now t :
  expire_when u a nm raw now = inr t -> 0 <= now <= I64_MAX -> I64_MIN <= raw <= I64_MAX ->
  I64_MIN <= t <= I64_MAX /\ t = (if u then raw else raw * 1000) + (if a then 0 else now).
Proof.
  unfold expire_when. change (Z.quot I64_MIN 1000) with (-9223372036854775). change (Z.quot I64_MAX 1000) with 9223372036854775.
  intros Ht Hnow Hraw. rewrite (wraps_small 64 now) in Ht by (unfold in_signed, I64_MAX in *; lia).
  unfold I64_MIN, I64_MAX in *. destruct u; cbn [negb andb] in Ht.
  - destruct a; case_decide; try done; injection Ht as <-; lia.
  - case_bool_decide as Hq; [done|]. destruct a; case_decide; try done; injection Ht as <-; lia.
Qed.

(** The reply of a refused change: 0, and nothing is propagated. *)
Definition refused (c c' : Ctx) : Prop :=
  prop c' = Suppressed /\ out c' = int 0 (out c) /\ dirty c' = dirty c /\ forall n k, view_at n k c' = view_at n k c.

Lemma refused_run c c1 : settled c c1 -> refused c (set_out (int 0) (propagate_none c1)).
Proof.
  intros [Hm Hv]. unfold refused. cbn [prop out dirty set_out set_prop propagate_none]. rewrite (m_out _ _ _ Hm), (m_dirty _ _ _ Hm).
  split_and!; [done|done|lia|exact Hv].
Qed.

(** The handler once its arguments are read: [when] is the deadline. *)
Lemma expire_generic_run u a nm args key raw cond when c :
  args !! 1%nat = Some key -> i64_at args 2 = inr raw -> parse_expire_cond args 3 = inr cond ->
  expire_when u a nm raw (now_ms c) = inr when -> 0 <= now_ms c <= I64_MAX -> when <= I64_MAX ->
  exists c', expire_generic u a nm args c = (c', inr tt) /\
  match view key c with
  | Some (o, cur) =>
      if cond_allows cond cur when then
        let gone := bool_decide (when <= now_ms c) in
        let log := if gone then [if lazyfree_lazy_expire (cfg c) then bs "UNLINK" else bs "DEL"; key]
                   else [bs "PEXPIREAT"; key; itoa_format when] in
        out c' = int 1 (out c) /\ dirty c' = dirty c + 1 /\ prop c' = Explicit /\
        prop_buf c' = prop_buf c ++ (if is_propagating (server c) then [log] else []) /\
        forall n k, view_at n k c' = if decide (n = db_index c /\ key = k) then (if gone then None else Some (o, Some when))
                                     else view_at n k c
      else refused c c'
  | None => refused c c'
  end.
Proof.
  intros Hk Hraw Hcond Hwhen Hnow Hmax. unfold expire_generic, key_at, at_. rewrite Hk. run. rewrite Hraw. run. rewrite Hcond. run.
  rewrite Hwhen. run. destruct (exists_run key c) as (Hs & -> & _). set (c1 := (exists_ key c).1) in *.
  destruct (view key c) as [[o cur]|] eqn:Ev.
  2: { rewrite bool_decide_false by (by intros []). cbn [negb]. run. rewrite run_reply. eexists. split; [done|]. by apply refused_run. }
  rewrite bool_decide_true by done. cbn [negb]. run. destruct (expire_at_run key c1) as [Hs2 ->].
  rewrite (settled_view key _ _ Hs), Ev. cbn [mbind option_bind snd].
  assert (settled c (expire_at key c1).1) as Hst by by etrans. set (c2 := (expire_at key c1).1) in *. clearbody c2. clear Hs2 Hs c1.
  destruct (cond_allows cond cur when); cbn [negb]; run.
  2: { rewrite run_reply. eexists. split; [done|]. by apply refused_run. }
  pose proof (settled_view key _ _ Hst) as Ev2. rewrite Ev in Ev2. destruct Hst as [Hm Hv].
  pose proof (db_index_framed _ _ (m_framed _ _ _ Hm)) as Hi. pose proof (f_now _ _ (m_framed _ _ _ Hm)) as Hn.
  rewrite (wraps_small 64 (now_ms c)) by (unfold in_signed, I64_MAX in *; lia).
  assert (forall c3 e argv (v : option (Robj * option Z)), moved 1 c2 c3 ->
    (forall n k, view_at n k c3 = if decide (n = db_index c2 /\ key = k) then v else view_at n k c2) ->
    let c' := set_out (int 1) (ctx_propagate argv (notify GENERIC e key c3)) in
    out c' = int 1 (out c) /\ dirty c' = dirty c + 1 /\ prop c' = Explicit /\
    prop_buf c' = prop_buf c ++ (if is_propagating (server c) then [argv] else []) /\
    forall n k, view_at n k c' = if decide (n = db_index c /\ key = k) then v else view_at n k c) as Hend.
  { intros c3 e argv v Hm3 Hv3. destruct (notify_settled GENERIC e key c3) as [Hm4 Hv4]. set (c4 := notify _ _ _ _) in *.
    destruct (propagate_run argv c4) as (_ & Hv5 & Ho5 & Hd5 & _ & Hp5 & Hb5). cbv zeta.
    pose proof (moved_trans _ _ _ _ _ (moved_trans _ _ _ _ _ Hm Hm3) Hm4) as Hm6.
    cbn [out dirty prop prop_buf set_out]. rewrite Ho5, Hd5, Hp5, Hb5, (m_out _ _ _ Hm6), (m_prop_buf _ _ _ Hm6),
      (f_propagating _ _ (m_framed _ _ _ Hm6)), (m_dirty _ _ _ Hm6). split_and!; [done|lia|done..|].
    intros n k. change (view_at n k (set_out _ ?x)) with (view_at n k x). by rewrite Hv5, Hv4, Hv3, Hi, Hv. }
  case_decide as Hgone; [rewrite bool_decide_true by done|rewrite bool_decide_false by done]; run.
  - destruct (remove_run key c2) as (_ & Hm3 & Hv3). rewrite Ev2, bool_decide_true in Hm3 by done. rewrite run_reply.
    eexists. split; [done|]. rewrite (f_cfg _ _ (m_framed _ _ _ Hm)). by apply Hend.
  - destruct (set_expire_run key (Some (wrapu 64 when)) c2) as (_ & Hm3 & Hv3). rewrite Ev2, bool_decide_true in Hm3 by done.
    rewrite run_reply. eexists. split; [done|]. apply Hend; [done|]. intros n k. rewrite Hv3. case_decide; [|done].
    rewrite (wrapu_small 64) by (unfold in_unsigned, I64_MAX in *; lia). rewrite Ev2. cbn.
    rewrite bool_decide_false by lia. done.
Qed.

(** C33: EXPIRE, PEXPIRE, EXPIREAT and PEXPIREAT: on a key that is missing, or
    when the NX, XX, GT or LT condition says no, they reply 0 and neither
    change nor ask to propagate anything; otherwise they reply 1, give the key
    the deadline asked for, or delete it when that has passed, leave every
    other key alone, and propagate the absolute deadline, or the deletion.
    (The DEL of a key that lazy expiry reaps first is not the handler's.) *)
Theorem expire_generic_spec u a nm args key raw cond when c :
  args !! 1%nat = Some key -> i64_at args 2 = inr raw -> parse_expire_cond args 3 = inr cond ->
  expire_when u a nm raw (now_ms c) = inr when -> 0 <= now_ms c <= I64_MAX ->
  when = (if u then raw else raw * 1000) + (if a then 0 else now_ms c) /\
  let '(c', r) := expire_generic u a nm args c in
  r = inr tt /\
  match view key c with
  | Some (o, cur) =>
      if cond_allows cond cur when then
        let gone := bool_decide (when <= now_ms c) in
        let log := if gone then [if lazyfree_lazy_expire (cfg c) then bs "UNLINK" else bs "DEL"; key]
                   else [bs "PEXPIREAT"; key; itoa_format when] in
        out c' = int 1 (out c) /\ dirty c' = dirty c + 1 /\ prop c' = Explicit /\
        prop_buf c' = prop_buf c ++ (if is_propagating (server c) then [log] else []) /\
        forall n k, view_at n k c' = if decide (n = db_index c /\ key = k) then (if gone then None else Some (o, Some when))
                                     else view_at n k c
      else refused c c'
  | None => refused c c'
  end.
Proof.
  intros Hk Hraw Hcond Hwhen Hnow.
  assert (I64_MIN <= raw <= I64_MAX) as Hr.
  { unfold i64_at in Hraw. destruct (at_ args 2) as [|b]; [done|]. destruct (string2ll b) as [v|] eqn:E; [|done].
    injection Hraw as <-. by apply string2ll_sound in E as [? _]. }
  destruct (expire_when_range u a nm raw (now_ms c) when Hwhen Hnow Hr) as [Ht Heq]. split; [exact Heq|].
  destruct (expire_generic_run u a nm args key raw cond when c Hk Hraw Hcond Hwhen Hnow (proj2 Ht)) as (c' & -> & Hc). done.
Qed.

(** What the EXPIRE family propagates does not depend on when it is
    replayed: [PEXPIREAT] with an absolute deadline, run at any later moment
    on a live key, leaves it with that deadline, or gone if it has passed, and
    every other key alone. *)
Theorem expire_replay key when c :
  0 <= when <= I64_MAX -> 0 <= now_ms c <= I64_MAX -> is_Some (view key c) ->
  let '(c', r) := cmd_pexpireat [bs "PEXPIREAT"; key; itoa_format when] c in
  r = inr tt /\
  forall n k, view_at n k c' = if decide (n = db_index c /\ key = k) then redated (Some when) (now_ms c) (view key c)
                               else view_at n k c.
Proof.
  intros Hw Hnow [[o cur] Ev].
  assert (i64_at [bs "PEXPIREAT"; key; itoa_format when] 2 = inr when) as Hraw.
  { unfold i64_at, at_. cbn. rewrite itoa_decimal by (unfold I64_MIN, U64_MAX, I64_MAX in *; lia).
    by rewrite string2ll_complete by (unfold I64_MIN; lia). }
  assert (expire_when true true (bs "pexpireat") when (now_ms c) = inr when) as Hwhen.
  { unfold expire_when. cbn [negb andb]. rewrite decide_False by lia. f_equal. lia. }
  destruct (expire_generic_run true true (bs "pexpireat") [bs "PEXPIREAT"; key; itoa_format when] key when Always when c
    eq_refl Hraw eq_refl Hwhen Hnow (proj2 Hw)) as (c' & E & Hc).
  unfold cmd_pexpireat. rewrite E. split; [done|]. rewrite Ev in *. cbn [cond_allows] in Hc. cbv zeta in Hc.
  destruct Hc as (_ & _ & _ & _ & Hv). intros n k. rewrite Hv. destruct (decide (n = _ /\ _)); [|done]. cbn [redated mbind option_bind]. case_bool_decide; done.
Qed.

Lemma cmd_persist_run args key c :
  args !! 1%nat = Some key ->
  exists c', cmd_persist args c = (c', inr tt) /\
  match view key c with
  | Some (o, Some _) =>
      out c' = int 1 (out c) /\ dirty c' = dirty c + 1 /\
      forall n k, view_at n k c' = if decide (n = db_index c /\ key = k) then Some (o, None) else view_at n k c
  | _ => refused c c'
  end.
Proof.
  intros Hk. unfold cmd_persist, key_at, at_. rewrite Hk. run. destruct (exists_run key c) as (Hs & -> & _).
  set (c1 := (exists_ key c).1) in *. rewrite bind_eq.
  assert (exists c2, (if bool_decide (is_Some (view key c)) then call (expire_at key) else mret None) c1
    = (c2, inr (view key c ≫= snd)) /\ settled c c2) as (c2 & -> & Hst).
  { destruct (view key c) as [v|] eqn:Ev.
    - rewrite bool_decide_true by done. destruct (expire_at_run key c1) as [Hs2 Hr]. unfold call.
      destruct (expire_at key c1) as [c2 r]. cbn [fst snd] in *. exists c2. rewrite Hr, (settled_view key _ _ Hs), Ev.
      split; [done|by etrans].
    - rewrite bool_decide_false by (by intros []). by exists c1. }
  clearbody c1. clear Hs c1. destruct (view key c) as [[o [t|]]|] eqn:Ev; cbn [mbind option_bind snd]; run.
  2, 3: (rewrite run_reply; eexists; split; [done|]; by apply refused_run).
  destruct (set_expire_run key None c2) as (_ & Hm3 & Hv3). rewrite (settled_view key _ _ Hst), Ev in *.
  rewrite bool_decide_true in Hm3 by done. destruct (notify_settled GENERIC (bs "persist") key (ctx_set_expire key None c2).1) as [Hm4 Hv4].
  rewrite run_reply. eexists. split; [done|]. destruct Hst as [Hm Hv].
  pose proof (moved_trans _ _ _ _ _ (moved_trans _ _ _ _ _ Hm Hm3) Hm4) as Hm6. cbn [out dirty set_out].
  rewrite (m_out _ _ _ Hm6), (m_dirty _ _ _ Hm6). split_and!; [done|lia|].
  intros n k. change (view_at n k (set_out _ ?x)) with (view_at n k x).
  by rewrite Hv4, Hv3, (db_index_framed _ _ (m_framed _ _ _ Hm)), Hv.
Qed.

(** PERSIST removes the deadline of a live key that has one and replies 1;
    otherwise it replies 0 and neither changes nor propagates anything. *)
Theorem cmd_persist_spec args key c :
  args !! 1%nat = Some key ->
  let '(c', r) := cmd_persist args c in
  r = inr tt /\
  match view key c with
  | Some (o, Some _) =>
      out c' = int 1 (out c) /\ dirty c' = dirty c + 1 /\
      forall n k, view_at n k c' = if decide (n = db_index c /\ key = k) then Some (o, None) else view_at n k c
  | _ => refused c c'
  end.
Proof. intros Hk. destruct (cmd_persist_run args key c Hk) as (c' & -> & Hc). done. Qed.

(** ** RENAME, COPY and MOVE *)

Lemma take_entry_run key n c :
  let c' := (take_entry key n c).1 in
  (take_entry key n c).2 = entry_at n key c /\ moved 0 c c' /\
  forall m k, entry_at m k c' = if decide (m = n /\ key = k) then None else entry_at m k c.
Proof.
  cbv zeta. unfold take_entry. assert (local_to key (fun d => (remove_entry key d).1)) as Hl by by apply (run_op_local key (OpRemove key)).
  assert (local_to key (signal_watch key)) as Hs by by apply (run_op_local key (OpSignal key)).
  set (c1 := upd_db_at n key (fun d => (remove_entry key d).1) c).
  assert (moved 0 c c1) as Hm1 by by apply edit_moved.
  assert (forall m k, entry_at m k c1 = if decide (m = n /\ key = k) then None else entry_at m k c) as He1.
  { intros m k. unfold c1, upd_db_at. rewrite (edit_entry n key _ (fun d => (remove_entry key d).1)) by done. case_decide; [|done].
    destruct (db_at n key c); simpl; [apply lookup_delete_eq|done]. }
  assert (db_at n key c ≫= (fun d => (remove_entry key d).2) = entry_at n key c) as -> by done.
  split_and!; [done|destruct (entry_at n key c); [|done]..].
  - exact (moved_trans 0 0 _ _ _ Hm1 (edit_moved n key _ _ Hs)).
  - intros m k. cbn [fst]. unfold signal_db_watch, upd_db_at. rewrite (edit_entry n key _ (signal_watch key)) by done. rewrite <-He1.
    case_decide as E; [|done]. destruct E as [-> <-]. unfold entry_at. destruct (db_at n key c1); simpl; [|done]. by rewrite signal_dict.
Qed.

Lemma put_entry_run key e n c :
  covered_at n key c ->
  moved 0 c (put_entry key e n c) /\
  forall m k, entry_at m k (put_entry key e n c) = if decide (m = n /\ key = k) then Some e else entry_at m k c.
Proof.
  intros [d Hd]. assert (local_to key (fun d => set_entry key e (signal_watch key d))) as Hl by apply insert_local. split.
  - by apply edit_moved.
  - intros m k. unfold put_entry, upd_db_at. rewrite (edit_entry n key _ (fun d => set_entry key e (signal_watch key d))) by done.
    case_decide; [|done]. rewrite Hd. simpl. apply lookup_insert_eq.
Qed.

Lemma signal_db_run key n c :
  moved 0 c (signal_db_watch key n c) /\ forall m k, entry_at m k (signal_db_watch key n c) = entry_at m k c.
Proof.
  assert (local_to key (signal_watch key)) as Hs by by apply (run_op_local key (OpSignal key)). split; [by apply edit_moved|].
  intros m k. unfold signal_db_watch, upd_db_at. rewrite (edit_entry n key _ (signal_watch key)) by done.
  case_decide as E; [|done]. destruct E as [-> <-]. unfold entry_at. destruct (db_at n key c); simpl; [|done]. by rewrite signal_dict.
Qed.

Lemma exists_in_db_view key n c : exists_in_db key n c = bool_decide (is_Some (view_at n key c)).
Proof.
  unfold exists_in_db, view_at, live. fold (entry_at n key c). destruct (entry_at n key c) as [e|]; simpl; [|done].
  by destruct (is_expired e (now_ms c)).
Qed.

Lemma live_view k c o a : view k c = Some (o, a) -> exists e, entry k c = Some e /\ is_expired e (now_ms c) = false /\ obj e = o /\ expire_at_ms e = a.
Proof.
  unfold view, live. destruct (entry k c) as [e|]; simpl; [|done]. destruct (is_expired e (now_ms c)) eqn:E; [done|].
  intros [= <- <-]. by exists e.
Qed.

(** RENAME and RENAMENX move a key with everything it has: they fail when
    the source is missing, do nothing when both names are the same or when
    RENAMENX finds the destination alive, and otherwise the destination holds
    the source's whole entry, deadline and access clock included, the source
    is gone, and every other key of every database is as it was. *)
Theorem rename_generic_spec only_new args src dst c :
  args !! 1%nat = Some src -> args !! 2%nat = Some dst -> covered_at (db_index c) dst c ->
  let '(c', r) := rename_generic only_new args c in
  if decide (view src c = None) then r = inl NoSuchKey /\ forall n k, view_at n k c' = view_at n k c
  else if decide (src = dst) then
    r = inr tt /\ out c' = (if only_new then int 0 else ok) (out c) /\ dirty c' = dirty c /\ forall n k, view_at n k c' = view_at n k c
  else if only_new && bool_decide (is_Some (view dst c)) then r = inr tt /\ refused c c'
  else
    r = inr tt /\ out c' = (if only_new then int 1 else ok) (out c) /\ dirty c' = dirty c + 2 /\
    entry dst c' = entry src c /\
    forall n k, view_at n k c' =
      if decide (n = db_index c) then (if decide (k = dst) then view src c else if decide (k = src) then None else view_at n k c)
      else view_at n k c.
Proof.
  intros Hs Hd Hcov. unfold rename_generic, key_at, at_. rewrite Hs, Hd. run.
  destruct (exists_run src c) as (Hst & -> & Hent). set (c1 := (exists_ src c).1) in *.
  pose proof (m_framed _ _ _ (st_moved _ _ Hst)) as Hf. pose proof (db_index_framed _ _ Hf) as Hi.
  destruct (decide (view src c = None)) as [En|En].
  { rewrite En, bool_decide_false by (by intros []). cbn [negb]. rewrite run_fail. split; [done|apply Hst]. }
  destruct (view src c) as [[o a]|] eqn:Ev; [|done]. rewrite bool_decide_true by done. cbn [negb].
  destruct (decide (src = dst)) as [->|Hne].
  { run. destruct Hst as [Hm Hv]. destruct only_new; rewrite run_reply; cbn [out dirty set_out propagate_none set_prop];
      rewrite (m_out _ _ _ Hm), (m_dirty _ _ _ Hm); (split_and!; [done|done|lia|exact Hv]). }
  run. rewrite exists_in_db_view, (st_view _ _ Hst), view_current. rewrite (andb_comm (bool_decide _)).
  destruct (only_new && bool_decide (is_Some (view dst c))) eqn:Ex.
  { run. rewrite run_reply. split; [done|]. by apply refused_run. }
  run. destruct (take_entry_run src (db_index c) c1) as (-> & Hm2 & He2).
  destruct (live_view src c o a Ev) as (e & He & Hex & Ho & Ha).
  assert (entry_at (db_index c) src c1 = Some e) as ->.
  { rewrite <-Hi. change (entry_at (db_index c1) src c1) with (entry src c1). rewrite Hent, He. cbn. by rewrite Hex. }
  set (c2 := (take_entry src (db_index c) c1).1) in *. run.
  pose proof (moved_trans 0 0 _ _ _ (st_moved _ _ Hst) Hm2) as Hm02.
  destruct (put_entry_run dst e (db_index c) c2) as [Hm3 He3]; [by apply (covered_framed _ _ _ _ (m_framed _ _ _ Hm02))|].
  set (c3 := put_entry dst e (db_index c) c2) in *.
  destruct (signal_modified_run src c3) as [Hm4 He4]. set (c4 := signal_modified src c3) in *.
  destruct (signal_modified_run dst c4) as [Hm5 He5]. set (c5 := signal_modified dst c4) in *.
  destruct (notify_run GENERIC (bs "rename_from") src c5) as [Hm6 He6]. set (c6 := notify _ _ _ c5) in *.
  destruct (notify_run GENERIC (bs "rename_to") dst c6) as [Hm7 He7]. set (c7 := notify _ _ _ c6) in *.
  pose proof (moved_trans _ _ _ _ _ (moved_trans _ _ _ _ _ (moved_trans _ _ _ _ _ (moved_trans _ _ _ _ _ (moved_trans _ _ _ _ _ Hm02 Hm3) Hm4) Hm5) Hm6) Hm7) as Hm.
  assert (forall n k, entry_at n k c7 = if decide (n = db_index c /\ dst = k) then Some e
    else if decide (n = db_index c /\ src = k) then None else entry_at n k c1) as Hall.
  { intros n k. by rewrite He7, He6, He5, He4, He3, He2. }
  assert (forall f, out (set_out f c7) = f (out c) /\ dirty (set_out f c7) = dirty c + 2 /\ entry dst (set_out f c7) = entry src c /\
    forall n k, view_at n k (set_out f c7) =
      if decide (n = db_index c) then (if decide (k = dst) then Some (o, a) else if decide (k = src) then None else view_at n k c)
      else view_at n k c) as Hend.
  { intros f. cbn [out dirty set_out]. rewrite (m_out _ _ _ Hm), (m_dirty _ _ _ Hm). split_and!; [done|lia| |].
    - change (entry dst (set_out f c7)) with (entry_at (db_index c7) dst c7). rewrite (db_index_framed _ _ (m_framed _ _ _ Hm)), Hall, He.
      by rewrite decide_True.
    - intros n k. unfold view_at at 1. change (entry_at n k (set_out f c7)) with (entry_at n k c7). cbn [now_ms set_out].
      rewrite (f_now _ _ (m_framed _ _ _ Hm)), Hall.
      destruct (decide (n = db_index c)) as [->|Hn].
      + destruct (decide (k = dst)) as [->|Hk1]; [rewrite decide_True by done; cbn [mbind option_bind]; unfold live; by rewrite Hex, Ho, Ha|].
        rewrite decide_False by naive_solver. destruct (decide (k = src)) as [->|Hk2]; [by rewrite decide_True|].
        rewrite decide_False by naive_solver. rewrite <-(st_view _ _ Hst). unfold view_at. by rewrite (f_now _ _ Hf).
      + rewrite !decide_False by naive_solver. rewrite <-(st_view _ _ Hst). unfold view_at. by rewrite (f_now _ _ Hf). }
  destruct only_new; rewrite run_reply; (split; [done|apply Hend]).
Qed.

(** MOVE carries a live key to another database, entry and all, unless it
    is already alive there: then, or when the key is missing, it replies 0 and
    neither changes nor propagates anything.  An index that is not a database
    and the current one are refused. *)
Theorem cmd_move_spec args key target c :
  args !! 1%nat = Some key -> i64_at args 2 = inr target -> (forall n, (n < databases (server_shards c))%nat -> covered_at n key c) ->
  let '(c', r) := cmd_move args c in
  let dst := Z.to_nat target in
  if decide (target < 0 \/ Z.of_nat (databases (server_shards c)) <= target) then r = inl db_out_of_range /\ c' = c
  else if decide (dst = db_index c) then r = inl same_object /\ c' = c
  else
    r = inr tt /\
    if bool_decide (is_Some (view key c)) && negb (bool_decide (is_Some (view_at dst key c))) then
      out c' = int 1 (out c) /\ dirty c' = dirty c + 1 /\ entry_at dst key c' = entry key c /\
      forall n k, view_at n k c' =
        if decide (n = dst /\ key = k) then view key c
        else if decide (n = db_index c /\ key = k) then None else view_at n k c
    else refused c c'.
Proof.
  intros Hk Ht Hcov. unfold cmd_move, key_at, at_. rewrite Hk. run. rewrite Ht. run.
  destruct (decide (target < 0 \/ _)) as [Hbad|Hgood]; [done|]. cbv zeta.
  destruct (decide (Z.to_nat target = db_index c)) as [Heq|Hne]; [done|]. set (dst := Z.to_nat target) in *.
  run. destruct (exists_run key c) as (Hst & -> & Hent). set (c1 := (exists_ key c).1) in *.
  rewrite exists_in_db_view, (st_view _ _ Hst).
  assert (negb (bool_decide (is_Some (view key c))) || bool_decide (is_Some (view_at dst key c)) =
    negb (bool_decide (is_Some (view key c)) && negb (bool_decide (is_Some (view_at dst key c))))) as ->.
  { by rewrite negb_andb, negb_involutive. }
  destruct (_ && _) eqn:Ego; cbn [negb].
  2: { run. rewrite run_reply. split; [done|]. by apply refused_run. }
  apply andb_true_iff in Ego as [Elive _]. apply bool_decide_eq_true in Elive as [[o a] Ev].
  pose proof (m_framed _ _ _ (st_moved _ _ Hst)) as Hf. pose proof (db_index_framed _ _ Hf) as Hi.
  destruct (live_view key c o a Ev) as (e & He & Hex & Ho & Ha). run.
  destruct (take_entry_run key (db_index c) c1) as (-> & Hm2 & He2).
  assert (entry_at (db_index c) key c1 = Some e) as ->.
  { rewrite <-Hi. change (entry_at (db_index c1) key c1) with (entry key c1). rewrite Hent, He. cbn. by rewrite Hex. }
  set (c2 := (take_entry key (db_index c) c1).1) in *. run.
  pose proof (moved_trans 0 0 _ _ _ (st_moved _ _ Hst) Hm2) as Hm02.
  destruct (put_entry_run key e dst c2) as [Hm3 He3].
  { apply (covered_framed _ _ _ _ (m_framed _ _ _ Hm02)), Hcov. lia. }
  set (c3 := put_entry key e dst c2) in *.
  destruct (signal_modified_run key c3) as [Hm4 He4]. set (c4 := signal_modified key c3) in *.
  destruct (signal_db_run key dst c4) as [Hm5 He5]. set (c5 := signal_db_watch key dst c4) in *.
  destruct (notify_run GENERIC (bs "move_from") key c5) as [Hm6 He6]. set (c6 := notify _ _ _ c5) in *.
  set (c7 := set_server _ c6). assert (moved 0 c6 c7) as Hm7 by (constructor; [by constructor|try done..]; simpl; lia).
  pose proof (moved_trans _ _ _ _ _ (moved_trans _ _ _ _ _ (moved_trans _ _ _ _ _ (moved_trans _ _ _ _ _ (moved_trans _ _ _ _ _ Hm02 Hm3) Hm4) Hm5) Hm6) Hm7) as Hm.
  assert (forall n k, entry_at n k c7 = if decide (n = dst /\ key = k) then Some e
    else if decide (n = db_index c /\ key = k) then None else entry_at n k c1) as Hall.
  { intros n k. change (entry_at n k c7) with (entry_at n k c6). by rewrite He6, He5, He4, He3, He2. }
  rewrite run_reply. split; [done|]. cbn [out dirty set_out]. rewrite (m_out _ _ _ Hm), (m_dirty _ _ _ Hm). split_and!; [done|lia| |].
  - change (entry_at dst key (set_out _ c7)) with (entry_at dst key c7). rewrite Hall, He. by rewrite decide_True.
  - intros n k. unfold view_at at 1. change (entry_at n k (set_out _ c7)) with (entry_at n k c7). cbn [now_ms set_out].
    rewrite (f_now _ _ (m_framed _ _ _ Hm)), Hall, Ev. repeat case_decide; [|done|].
    + cbn [mbind option_bind]. unfold live. by rewrite Hex, Ho, Ha.
    + rewrite <-(st_view _ _ Hst). unfold view_at. by rewrite (f_now _ _ Hf).
Qed.

Lemma duplicate_value_same vc o o' :
  (forall k, vc = Some k -> codec_laws k) -> duplicate_value vc o = Some o' -> o' = o.
Proof.
  intros Hc. unfold duplicate_value. destruct o; [by intros [= <-]|..];
    (destruct vc as [k|]; [|done]; cbn; intros E; by eapply duplicate_copies; [apply Hc|]).
Qed.

(** COPY gives the destination, in the database named, the source's value
    and deadline, leaving the source and every other key alone, unless the
    source is missing or the destination is alive and REPLACE was not given:
    then it replies 0 and neither changes nor propagates anything.  It refuses
    to copy a key onto itself, and a value that cannot be duplicated. *)
Theorem cmd_copy_spec vc args src dst target replace c :
  (forall k, vc = Some k -> codec_laws k) ->
  args !! 1%nat = Some src -> args !! 2%nat = Some dst ->
  copy_options (drop 3 args) (Z.of_nat (databases (server_shards c))) (Z.of_nat (db_index c)) false = inr (target, replace) ->
  let n := Z.to_nat target in covered_at n dst c -> check_oom (server_shards c) (cfg c) = inr tt ->
  let '(c', r) := cmd_copy vc args c in
  if decide (src = dst /\ db_index c = n) then r = inl same_object /\ c' = c
  else
    match view src c with
    | Some (o, a) =>
        if bool_decide (is_Some (view_at n dst c)) && negb replace then r = inr tt /\ refused c c'
        else if decide (duplicate_value vc o = None) then
          (exists e, r = inl e) /\ forall m k, view_at m k c' = view_at m k c
        else
          r = inr tt /\ out c' = int 1 (out c) /\ dirty c' = dirty c + 1 /\
          forall m k, view_at m k c' = if decide (m = n /\ dst = k) then Some (o, a) else view_at m k c
    | None => r = inr tt /\ refused c c'
    end.
Proof.
  intros Hcodec Hs Hd Hopt n Hcov Hoom. unfold cmd_copy, key_at, at_. rewrite Hs, Hd. run. rewrite Hopt. run.
  fold n. destruct (decide (src = dst /\ db_index c = n)) as [Heq|Hne]; [done|]. run. rewrite Hoom. run.
  destruct (exists_run src c) as (Hst & -> & _). set (c1 := (exists_ src c).1) in *.
  destruct (view src c) as [[o a]|] eqn:Ev.
  2: { rewrite bool_decide_false by (by intros []). cbn [negb]. run. rewrite run_reply. split; [done|]. by apply refused_run. }
  rewrite bool_decide_true by done. cbn [negb]. run. rewrite exists_in_db_view, (st_view _ _ Hst).
  destruct (_ && negb replace).
  { run. rewrite run_reply. split; [done|]. by apply refused_run. }
  run. destruct (expire_at_run src c1) as [Hst2 ->]. set (c2 := (expire_at src c1).1) in *.
  destruct (lookup_read_run src c2) as [Hst3 ->]. set (c3 := (lookup_read src c2).1) in *.
  rewrite (settled_view src _ _ Hst2), (settled_view src _ _ Hst), Ev. cbn [fmap option_fmap option_map fst snd mbind option_bind].
  assert (settled c c3) as Hst13 by (etrans; [exact Hst|by etrans]). clearbody c3. clear Hst Hst2 Hst3 c1 c2.
  destruct (duplicate_value vc o) as [o'|] eqn:Edup.
  2: { rewrite run_fail, decide_True by done. split; [by eexists|apply Hst13]. }
  destruct (decide (Some o' = None)) as [|_]; [done|]. apply duplicate_value_same in Edup as ->; [|done]. run.
  pose proof (m_framed _ _ _ (st_moved _ _ Hst13)) as Hf. rewrite (f_now _ _ Hf).
  set (e := entry_new o a (now_ms c) _).
  destruct (put_entry_run dst e n c3) as [Hm4 He4]; [by apply (covered_framed _ _ _ _ Hf)|]. set (c4 := put_entry dst e n c3) in *.
  destruct (signal_modified_run dst c4) as [Hm5 He5]. set (c5 := signal_modified dst c4) in *. rewrite bind_eq.
  assert (exists c6, (if decide (n = db_index c) then mret tt else do_ (signal_db_watch dst n)) c5 = (c6, inr tt) /\ moved 0 c5 c6 /\
    forall m k, entry_at m k c6 = entry_at m k c5) as (c6 & -> & Hm6 & He6).
  { case_decide; [exists c5; split_and!; [done|apply (st_moved c5 c5); reflexivity|done]|].
    destruct (signal_db_run dst n c5). eexists. by split_and!. }
  run. destruct (notify_run GENERIC (bs "copy_to") dst c6) as [Hm7 He7]. set (c7 := notify _ _ _ c6) in *.
  pose proof (moved_trans _ _ _ _ _ (moved_trans _ _ _ _ _ (moved_trans _ _ _ _ _ (moved_trans _ _ _ _ _ (st_moved _ _ Hst13) Hm4) Hm5) Hm6) Hm7) as Hm.
  rewrite run_reply. split; [done|]. cbn [out dirty set_out]. rewrite (m_out _ _ _ Hm), (m_dirty _ _ _ Hm). split_and!; [done|lia|].
  intros m k. unfold view_at at 1. change (entry_at m k (set_out _ c7)) with (entry_at m k c7). cbn [now_ms set_out].
  rewrite (f_now _ _ (m_framed _ _ _ Hm)), He7, He6, He5, He4. case_decide as E; cbn [mbind option_bind].
  - destruct (live_view src c o a Ev) as (e0 & He0 & Hex0 & Ho0 & Ha0).
    unfold live, is_expired in *. subst e. cbn [expire_at_ms entry_new obj]. rewrite Ha0 in Hex0. by rewrite Hex0.
  - rewrite <-(st_view _ _ Hst13). unfold view_at. by rewrite (f_now _ _ Hf).
Qed.

(** ** KEYS and RANDOMKEY *)

(** The guards are the shards of distinct indices. *)
Definition distinct (c : Ctx) : Prop := NoDup (fst <$> guards (shards c)).

Lemma locked_elem d c : d ∈ locked_dbs c <-> exists i s, (i, s) ∈ guards (shards c) /\ db (db_index c) s = Some d.
Proof.
  unfold locked_dbs. rewrite list_elem_of_omap. split; [intros ([i s] & Hin & E); by exists i, s|].
  intros (i & s & Hin & E). by exists (i, s).
Qed.

(** An entry is in some locked database exactly when the key's own shard shows it. *)
Lemma locked_entry k e c :
  placed c -> distinct c -> (exists d, d ∈ locked_dbs c /\ dict d !! k = Some e) <-> entry k c = Some e.
Proof.
  intros Hp Hd. unfold entry, key_db, for_key. split.
  - intros (d & (i & s & Hin & Hdb)%locked_elem & He).
    assert (key_index (shards c) k = i) as -> by (eapply Hp; [exact Hin|exact Hdb|by rewrite He]).
    rewrite (guard_shard_in _ i s Hd Hin). simpl. by rewrite Hdb.
  - intros (d & (s & Hs & Hdb)%bind_Some & He)%bind_Some. exists d. split; [|done]. apply locked_elem.
    exists (key_index (shards c) k), s. split; [|done]. unfold guard_shard in Hs.
    apply bind_Some in Hs as ([j [i s']] & Hl & [= ->]). apply list_find_Some in Hl as (Hl & Hi & _). cbn in Hi. subst i.
    by eapply list_elem_of_lookup_2.
Qed.

(** No key occurs in two locked databases. *)
Lemma locked_keys_nodup c :
  placed c -> distinct c -> forall f : Db -> list Key,
  (forall d, d ∈ locked_dbs c -> NoDup (f d) /\ forall k, k ∈ f d -> is_Some (dict d !! k)) -> NoDup (locked_dbs c ≫= f).
Proof.
  intros Hp Hd f Hf. unfold locked_dbs in *. unfold placed, distinct in *.
  generalize dependent (guards (shards c)). intros l. induction l as [|[i s] l IH]; intros Hp Hd Hf; [constructor|].
  cbn [fmap list_fmap fst] in Hd. apply NoDup_cons in Hd as [Hi Hd].
  assert (NoDup (omap (fun p => db (db_index c) p.2) l ≫= f)) as Hrest.
  { apply IH; [|done|].
    - intros j s' n d k Hin. apply Hp. by right.
    - intros d Hin. apply Hf. simpl. destruct (db _ s); [by right|done]. }
  simpl. destruct (db (db_index c) s) as [d|] eqn:Edb; [|exact Hrest]. simpl.
  destruct (Hf d) as [Hnd Hdom]; [simpl; rewrite Edb; by left|].
  apply NoDup_app. split_and!; [exact Hnd| |exact Hrest]. intros k Hk (d' & Hk' & Hd')%list_elem_of_bind.
  apply list_elem_of_omap in Hd' as ([j s'] & Hin & Edb').
  assert (is_Some (dict d' !! k)) as Hs'.
  { apply Hf; [|done]. simpl. rewrite Edb. right. apply list_elem_of_omap. by exists (j, s'). }
  assert (key_index (shards c) k = i) as Ei by (eapply Hp; [by left|exact Edb|by apply Hdom]).
  assert (key_index (shards c) k = j) as Ej by (eapply Hp; [by right|exact Edb'|exact Hs']).
  apply Hi. apply list_elem_of_fmap. exists (j, s'). split; [cbn; congruence|done].
Qed.

Lemma key_matches_spec pattern k : key_matches pattern k = true <-> globs pattern 0 k.
Proof.
  unfold key_matches. destruct (glob_match_run pattern k) as (b & -> & Hb). cbn.
  rewrite orb_true_iff, bool_decide_eq_true, Hb. split; [intros [->|]; [apply globs_all|done]|by right].
Qed.

Lemma db_keys_elem pattern now d k :
  k ∈ db_keys pattern now d <-> exists e, dict d !! k = Some e /\ is_expired e now = false /\ globs pattern 0 k.
Proof.
  unfold db_keys. rewrite list_elem_of_fmap. split.
  - intros ([k' e] & -> & [Hm Hin]%list_elem_of_filter). apply hash_iter_elem in Hin. cbn [fst snd] in *.
    apply andb_true_iff in Hm as [Hx Hm]. exists e. split_and!; [done|by apply negb_true_iff|by apply key_matches_spec].
  - intros (e & He & Hx & Hm). exists (k, e). split; [done|]. apply list_elem_of_filter. cbn [fst snd]. rewrite Hx.
    split; [by apply key_matches_spec|by apply hash_iter_elem].
Qed.

Lemma db_keys_nodup pattern now d : NoDup (db_keys pattern now d).
Proof.
  unfold db_keys. eapply sublist_NoDup; [apply (hash_iter_nodup (dict d))|].
  assert (forall l : list (Key * Entry), sublist (fst <$> filter (fun p => negb (is_expired p.2 now) && key_matches pattern p.1 = true) l) (fst <$> l)) as Hs.
  { intros l. induction l as [|p l IH]; [constructor|]. rewrite filter_cons. case_decide; simpl; by constructor. }
  apply Hs.
Qed.

(** KEYS replies every live key of the locked databases that matches the
    pattern, each exactly once, and nothing else: no expired key, no key twice
    although it may be reachable through several shards. *)
Theorem cmd_keys_spec args pattern c :
  args !! 1%nat = Some pattern -> placed c -> distinct c ->
  let '(c', r) := cmd_keys args c in
  r = inr tt /\ exists found,
    out c' = foldl (fun w k => bulk k w) (array (blen found) (out c)) found /\ NoDup found /\
    (forall k, k ∈ found <-> is_Some (view k c) /\ globs pattern 0 k) /\
    dirty c' = dirty c /\ forall n k, view_at n k c' = view_at n k c.
Proof.
  intros Hp Hpl Hd. unfold cmd_keys, key_at, at_. rewrite Hp. run. rewrite bind_eq, !run_reply. split; [done|].
  exists (locked_dbs c ≫= db_keys pattern (now_ms c)). split_and!; [done| | |done|done].
  - apply locked_keys_nodup; [done..|]. intros d _. split; [apply db_keys_nodup|]. intros k (e & -> & _)%db_keys_elem. done.
  - intros k. rewrite list_elem_of_bind. unfold view, live. split.
    + intros (d & (e & He & Hx & Hm)%db_keys_elem & Hd'). split; [|done].
      assert (entry k c = Some e) as -> by (apply locked_entry; [done..|by exists d]). simpl. by rewrite Hx.
    + intros [[v Hv] Hm]. destruct (entry k c) as [e|] eqn:He; [|done]. simpl in Hv. destruct (is_expired e (now_ms c)) eqn:Hx; [done|].
      apply locked_entry in He as (d & Hd' & He); [|done..]. exists d. split; [|done]. apply db_keys_elem. by exists e.
Qed.

(** RANDOMKEY only ever answers a live key of a locked database. *)
Lemma pick_spec dbs now target picked k :
  pick dbs now target picked = Some k ->
  picked = Some k \/ exists d e, d ∈ dbs /\ dict d !! k = Some e /\ is_expired e now = false.
Proof.
  revert target picked. induction dbs as [|d dbs IH]; intros target picked; cbn [pick]; [by left|].
  destruct picked as [k0|].
  { intros [?|(d' & e & Hin & He)]%IH; [by left|]. right. exists d', e. split; [by right|done]. }
  case_decide.
  { intros [?|(d' & e & Hin & He)]%IH; [by left|]. right. exists d', e. split; [by right|done]. }
  intros [Hhit|(d' & e & Hin & He)]%IH; right; [|exists d', e; split; [by right|done]].
  destruct (hash_iter (dict d) !! Z.to_nat target) as [[k' e]|] eqn:Eh; [|done]. destruct (is_expired e now) eqn:Ex; [done|].
  injection Hhit as ->. exists d, e. split_and!; [by left| |done]. apply hash_iter_elem. by eapply list_elem_of_lookup_2.
Qed.

Lemma randomkey_loop_run tries dbs now total c :
  exists c' k, randomkey_loop tries dbs now total c = (c', inr k) /\ settled c c' /\
    (forall key, k = Some key -> exists d e, d ∈ dbs /\ dict d !! key = Some e /\ is_expired e now = false).
Proof.
  revert c. induction tries as [|tries IH]; intros c; cbn [randomkey_loop]; [by exists c, None|]. run.
  assert (settled c (set_server draw c)) as Hs by (split; [constructor; [by constructor|try done..]; simpl; lia|done]).
  destruct (pick dbs now _ None) as [k|] eqn:Ep.
  - exists (set_server draw c), (Some k). split_and!; [done|exact Hs|]. intros key [= ->].
    apply pick_spec in Ep as [|Hp]; [done|exact Hp].
  - destruct (IH (set_server draw c)) as (c' & k & -> & Hs' & Hk). exists c', k. split_and!; [done|by etrans|exact Hk].
Qed.

Theorem cmd_randomkey_spec args c :
  placed c -> distinct c ->
  let '(c', r) := cmd_randomkey args c in
  r = inr tt /\ dirty c' = dirty c /\ (forall n k, view_at n k c' = view_at n k c) /\
  (out c' = null (out c) \/ exists k, out c' = bulk k (out c) /\ is_Some (view k c)).
Proof.
  intros Hp Hd. unfold cmd_randomkey. run. case_decide; [rewrite run_reply; split_and!; [done..|by left]|].
  rewrite bind_eq. destruct (randomkey_loop_run RANDOMKEY_TRIES (locked_dbs c) (now_ms c) (sum_list_with db_len (locked_dbs c)) c)
    as (c' & k & -> & [Hm Hv] & Hk).
  rewrite run_reply. cbn [out dirty set_out]. rewrite (m_out _ _ _ Hm), (m_dirty _ _ _ Hm).
  split_and!; [done|lia|exact Hv|]. destruct k as [key|]; [|by left]. right. exists key. split; [done|].
  destruct (Hk key eq_refl) as (d & e & Hin & He & Hx). unfold view, live.
  assert (entry key c = Some e) as -> by (apply locked_entry; [done..|by exists d]). simpl. by rewrite Hx.
Qed.
End facts.

(** ** Witnesses *)

Section witnesses.
#[local] Existing Instances memchr_find itoa_model itoa_model_laws ryu_model no_draws hash_iter_model hash_iter_model_laws.
#[local] Instance no_draws_laws : FastrandLaws.
Proof. split; [intros; simpl; lia|intros; by vm_compute]. Qed.

(** The demo context has every shard locked and every database in reach. *)
Lemma stored_reaches n k : (n < 16)%nat -> covered_at n k stored.
Proof.
  intros Hn. apply covered_shape. unfold key_index. set (h := Z.land _ _).
  assert (0 <= h < 4) as Hh.
  { unfold h. change (g_mask (shards stored)) with (Z.ones 2). rewrite Z.land_ones by done. by apply Z.mod_pos_bound. }
  assert (h = 0 \/ h = 1 \/ h = 2 \/ h = 3) as Hc by lia.
  destruct Hc as [->|[->|[->| ->]]]; do 2 eexists; (split; [vm_compute; reflexivity|exact Hn]).
Qed.

Lemma rename_generic_spec_witness :
  out (cmd_rename [bs "rename"; bs "k"; bs "q"] stored).1 = ok (out stored) /\
  view_at 0 (bs "q") (cmd_rename [bs "rename"; bs "k"; bs "q"] stored).1 = Some (Str (from_bytes (bs "old")), None).
Proof.
  pose proof (rename_generic_spec false [bs "rename"; bs "k"; bs "q"] (bs "k") (bs "q") stored eq_refl eq_refl
    (stored_reaches 0 (bs "q") ltac:(lia))) as E.
  fold cmd_rename in E. destruct (cmd_rename _ _) as [c' r].
  destruct (decide (view (bs "k") stored = None)) as [Hn|_]; [vm_compute in Hn; discriminate Hn|].
  destruct (decide (bs "k" = bs "q")) as [Hq|_]; [discriminate Hq|]. cbn [andb] in E.
  destruct E as (_ & Ho & _ & _ & Hv). split; [exact Ho|]. cbn [fst]. rewrite Hv. vm_compute. reflexivity.
Defined.

Lemma cmd_move_spec_witness :
  view_at 3 (bs "k") (cmd_move [bs "move"; bs "k"; bs "3"] stored).1 = Some (Str (from_bytes (bs "old")), None).
Proof.
  pose proof (cmd_move_spec [bs "move"; bs "k"; bs "3"] (bs "k") 3 stored eq_refl eq_refl
    (fun n Hn => stored_reaches n (bs "k") Hn)) as E.
  destruct (cmd_move _ _) as [c' r]. cbv zeta in E.
  destruct (decide (_ \/ _)) as [Hb|_]; [change (databases (server_shards stored)) with 16%nat in Hb; lia|].
  destruct (decide (Z.to_nat 3 = _)) as [Hb|_]; [discriminate Hb|].
  destruct E as [_ E]. destruct (bool_decide (is_Some (view (bs "k") stored)) && _) eqn:Eb; [|vm_compute in Eb; discriminate Eb].
  destruct E as (_ & _ & _ & Hv). cbn [fst]. etrans; [exact (Hv 3%nat (bs "k"))|]. vm_compute. reflexivity.
Defined.

Lemma cmd_copy_spec_witness :
  view_at 2 (bs "q") (cmd_copy None [bs "copy"; bs "k"; bs "q"; bs "DB"; bs "2"] stored).1 = Some (Str (from_bytes (bs "old")), None).
Proof.
  pose proof (cmd_copy_spec None [bs "copy"; bs "k"; bs "q"; bs "DB"; bs "2"] (bs "k") (bs "q") 2 false stored
    ltac:(done) eq_refl eq_refl ltac:(vm_compute; reflexivity) (stored_reaches 2 (bs "q") ltac:(lia)) ltac:(vm_compute; reflexivity)) as E.
  destruct (cmd_copy _ _ _) as [c' r]. destruct (decide (_ /\ _)) as [[Hb _]|_]; [discriminate Hb|].
  assert (view (bs "k") stored = Some (Str (from_bytes (bs "old")), None)) as Hk by (vm_compute; reflexivity). rewrite Hk in E.
  destruct (bool_decide (is_Some (view_at (Z.to_nat 2) (bs "q") stored)) && negb false) eqn:Eb; [vm_compute in Eb; discriminate Eb|].
  destruct (decide (duplicate_value None _ = None)) as [Hd|_]; [discriminate Hd|].
  destruct E as (_ & _ & _ & Hv). cbn [fst]. etrans; [exact (Hv 2%nat (bs "q"))|]. vm_compute. reflexivity.
Defined.

Lemma expire_generic_spec_witness :
  out (cmd_expire [bs "expire"; bs "k"; bs "10"; bs "NX"] stored).1 = int 1 (out stored) /\
  view_at 0 (bs "k") (cmd_expire [bs "expire"; bs "k"; bs "10"; bs "NX"] stored).1 = Some (Str (from_bytes (bs "old")), Some 11000).
Proof.
  pose proof (expire_generic_spec false false (bs "expire") [bs "expire"; bs "k"; bs "10"; bs "NX"] (bs "k") 10 Nx 11000 stored
    eq_refl eq_refl eq_refl ltac:(vm_compute; reflexivity) ltac:(vm_compute; split; discriminate)) as [_ E].
  fold cmd_expire in E. destruct (cmd_expire _ _) as [c' r].
  assert (view (bs "k") stored = Some (Str (from_bytes (bs "old")), None)) as Hk by (vm_compute; reflexivity). rewrite Hk in E.
  destruct E as (_ & Ho & _ & _ & _ & Hv). split; [exact Ho|]. cbn [fst]. etrans; [exact (Hv 0%nat (bs "k"))|]. vm_compute. reflexivity.
Defined.

Lemma expire_replay_witness :
  view_at 0 (bs "k") (cmd_pexpireat [bs "PEXPIREAT"; bs "k"; bs "999"] stored).1 = None.
Proof.
  pose proof (expire_replay (bs "k") 999 stored ltac:(unfold I64_MAX; lia) ltac:(vm_compute; split; discriminate) ltac:(vm_compute; eauto)) as E.
  change (itoa_format 999) with (bs "999") in E. destruct (cmd_pexpireat _ _) as [c' r].
  cbn [fst]. etrans; [exact (proj2 E 0%nat (bs "k"))|]. vm_compute. reflexivity.
Defined.

Lemma stored_placed : placed stored /\ distinct stored.
Proof.
  assert (forallb (fun p => forallb (fun d => match map_to_list (dict d) with [] => true | _ => false end) (dbs p.2))
    (guards (shards demo_ctx)) = true) as He by (vm_compute; reflexivity).
  assert (placed demo_ctx) as Hp.
  { intros i s n d k Hin Hd [e Hk]. exfalso. rewrite forallb_forall in He. specialize (He (i, s) (proj1 (list_elem_of_In _ _) Hin)).
    cbn [snd] in He. rewrite forallb_forall in He. specialize (He d (proj1 (list_elem_of_In _ _) (list_elem_of_lookup_2 _ _ _ Hd))).
    destruct (map_to_list (dict d)) as [|? l] eqn:El; [|discriminate He]. apply map_to_list_empty_iff in El. by rewrite El in Hk. }
  split; [|unfold distinct; vm_compute; by repeat (constructor; [set_solver|]); constructor].
  apply (f_placed demo_ctx stored); [|exact Hp]. apply (insert_run (bs "k") (Str (from_bytes (bs "old"))) None demo_ctx). vm_compute. eauto.
Qed.

Lemma cmd_keys_spec_witness :
  exists found, NoDup found /\ (forall k, k ∈ found <-> is_Some (view k stored) /\ globs (bs "k*") 0 k).
Proof.
  pose proof (cmd_keys_spec [bs "keys"; bs "k*"] (bs "k*") stored eq_refl (proj1 stored_placed) (proj2 stored_placed)) as E.
  destruct (cmd_keys _ _) as [c' r]. destruct E as (_ & found & _ & Hn & Hf & _). exists found. split; [exact Hn|exact Hf].
Defined.
End witnesses.
