(* ===== verification/Sort.v ===== *)
(** * SORT and SORT_RO ([src/command/generic.rs])

    The options, the weights, the order, the projection and the destination.
    The aggregate types are placeholders at this commit, so [sort_elements]
    finds nothing in them; what is done with elements is modelled as it is
    written, for any list of them.  [sort_unstable] is a sort by the given
    comparison: the comparisons here tell any two different elements apart
    ([sorted_unique]), so that which sort it is does not show. *)
From S2P Require Import Prelude Config Crc Strnum Glob Atod Skiplist SkiplistOrder Object Shard Errors Reply Notify Commands Dtoa Client Registry Ctx StringCmd Views Dispatch Generic.
From Stdlib Require Import Floats.SpecFloat.
Open Scope Z_scope.

Record SortOptions := { desc : bool; alpha : bool; limit : option (Z * Z); by_ : option bytes; patterns : list bytes; store : option Key }.
Definition sort_default : SortOptions := {| desc := false; alpha := false; limit := None; by_ := None; patterns := []; store := None |}.

Definition negative_offset : CmdError := err (bs "value is out of range, must be positive").

(** The loop of [parse_sort_options], on the arguments from position [i]. *)
Fixpoint parse_sort_options (toks : list bytes) (allow_store : bool) (o : SortOptions) : CmdError + SortOptions :=
  match toks with
  | [] => inr o
  | tok :: toks =>
      if eq_ignore_ascii_case tok (bs "ASC") then
        parse_sort_options toks allow_store
          {| desc := false; alpha := alpha o; limit := limit o; by_ := by_ o; patterns := patterns o; store := store o |}
      else if eq_ignore_ascii_case tok (bs "DESC") then
        parse_sort_options toks allow_store
          {| desc := true; alpha := alpha o; limit := limit o; by_ := by_ o; patterns := patterns o; store := store o |}
      else if eq_ignore_ascii_case tok (bs "ALPHA") then
        parse_sort_options toks allow_store
          {| desc := desc o; alpha := true; limit := limit o; by_ := by_ o; patterns := patterns o; store := store o |}
      else if eq_ignore_ascii_case tok (bs "LIMIT") then
        match i64_at toks 0 with
        | inl e => inl e
        | inr offset =>
            match i64_at toks 1 with
            | inl e => inl e
            | inr count =>
                if bool_decide (offset < 0) then inl negative_offset
                else
                  match toks with
                  | _ :: _ :: toks =>
                      parse_sort_options toks allow_store
                        {| desc := desc o; alpha := alpha o; limit := Some (offset, count); by_ := by_ o; patterns := patterns o; store := store o |}
                  | _ => inr o
                  end
            end
        end
      else if eq_ignore_ascii_case tok (bs "BY") then
        match toks with
        | p :: toks =>
            parse_sort_options toks allow_store
              {| desc := desc o; alpha := alpha o; limit := limit o; by_ := Some p; patterns := patterns o; store := store o |}
        | [] => inl Syntax
        end
      else if eq_ignore_ascii_case tok (bs "GET") then
        match toks with
        | p :: toks =>
            parse_sort_options toks allow_store
              {| desc := desc o; alpha := alpha o; limit := limit o; by_ := by_ o; patterns := patterns o ++ [p]; store := store o |}
        | [] => inl Syntax
        end
      else if allow_store && eq_ignore_ascii_case tok (bs "STORE") then
        match toks with
        | dst :: toks =>
            parse_sort_options toks allow_store
              {| desc := desc o; alpha := alpha o; limit := limit o; by_ := by_ o; patterns := patterns o; store := Some dst |}
        | [] => inl Syntax
        end
      else inl Syntax
  end.

(** The positions of a destination: [sort_keys], from position [i]. *)
Fixpoint sort_keys_from (toks : list bytes) (i : nat) : list nat :=
  match toks with
  | [] => []
  | tok :: rest =>
      if eq_ignore_ascii_case tok (bs "STORE") && (1 <? length toks)%nat then
        match rest with _ :: rest => S i :: sort_keys_from rest (i + 2) | [] => [] end
      else if eq_ignore_ascii_case tok (bs "LIMIT") then
        match rest with _ :: _ :: rest => sort_keys_from rest (i + 3) | _ => [] end
      else if eq_ignore_ascii_case tok (bs "BY") || eq_ignore_ascii_case tok (bs "GET") then
        match rest with _ :: rest => sort_keys_from rest (i + 2) | [] => [] end
      else sort_keys_from rest (i + 1)
  end.
Definition sort_keys (args : Args) : list nat := 1%nat :: sort_keys_from (drop 2 args) 2.

(** ** Patterns *)

Definition find_byte (b : byte) (s : bytes) : option nat := fst <$> list_find (fun c => c = b) s.
(** [windows(2).position(|w| w == b"->")] *)
Fixpoint find_arrow (s : bytes) : option nat :=
  match s with
  | x :: ((y :: _) as s') => if bool_decide (x = "-"%byte /\ y = ">"%byte) then Some O else S <$> find_arrow s'
  | _ => None
  end.

(** ** The order *)

(** [partial_cmp().unwrap_or(Equal).then_with(..)] *)
Definition weight_cmp (a b : bytes * f64) : comparison :=
  match default Eq (SFcompare a.2 b.2) with Eq => cmp a.1 b.1 | o => o end.
Definition weight_le (a b : bytes * f64) : Prop := weight_cmp a b <> Datatypes.Gt.
#[export] Instance weight_le_dec : RelDecision weight_le.
Proof. intros a b. unfold weight_le. destruct (weight_cmp a b); [by left|by left|right; intros Hc; by apply Hc]. Defined.

(** [Option<Bytes>], then [Bytes]. *)
Definition option_cmp (a b : option bytes) : comparison :=
  match a, b with None, None => Eq | None, Some _ => Datatypes.Lt | Some _, None => Datatypes.Gt | Some a, Some b => cmp a b end.
Definition keyed_cmp (a b : option bytes * bytes) : comparison := match option_cmp a.1 b.1 with Eq => cmp a.2 b.2 | o => o end.
Definition keyed_le (a b : option bytes * bytes) : Prop := keyed_cmp a b <> Datatypes.Gt.
#[export] Instance keyed_le_dec : RelDecision keyed_le.
Proof. intros a b. unfold keyed_le. destruct (keyed_cmp a b); [by left|by left|right; intros Hc; by apply Hc]. Defined.
Definition member_le (a b : bytes) : Prop := bytes_le a b = true.
#[export] Instance member_le_dec : RelDecision member_le.
Proof. intros a b. unfold member_le. apply _. Defined.

Definition limited {A} (l : option (Z * Z)) (es : list A) : list A :=
  match l with
  | None => es
  | Some (offset, count) =>
      let rest := drop (Nat.min (Z.to_nat (Z.max offset 0)) (length es)) es in
      if bool_decide (0 <= count) then take (Z.to_nat count) rest else rest
  end.

Definition not_a_double : CmdError := err (bs "One or more scores can't be converted into double").

Section sort.
Context `{Memchr, Itoa, Ryu, Fastrand, HashIter}.

Definition sort_elements (key : Key) : M (option (list bytes)) :=
  o ← call (lookup_read key);
  match o with
  | None => mret None
  | Some (List _) | Some (Set_ _) | Some (ZSet _) => mret (Some [])
  | Some _ => fail WrongType
  end.

Definition lookup_by_pattern (pattern subst : bytes) : M (option bytes) :=
  match find_byte "*"%byte pattern with
  | None => mret None
  | Some star =>
      let arrow := match find_arrow pattern with Some p => if bool_decide (star < p /\ p + 2 < length pattern)%nat then Some p else None | None => None end in
      let key_pat := match arrow with Some p => take p pattern | None => pattern end in
      let key := take star key_pat ++ subst ++ drop (star + 1) key_pat in
      match arrow with
      | Some _ => mret None
      | None =>
          r ← (fun c => let '(c, r) := read_str key c in (c, inr r) : Ctx * (CmdError + (CmdError + option StrObj)));
          mret (match r with inr (Some o) => Some (to_bytes o) | _ => None end)
      end
  end.

(** The keys of an ALPHA sort by pattern, and the weights of a numeric one. *)
Fixpoint with_keys (pattern : bytes) (es : list bytes) : M (list (option bytes * bytes)) :=
  match es with
  | [] => mret []
  | e :: es => k ← lookup_by_pattern pattern e; l ← with_keys pattern es; mret ((k, e) :: l)
  end.
Fixpoint with_weights (by__ : option bytes) (es : list bytes) : M (list (bytes * f64)) :=
  match es with
  | [] => mret []
  | e :: es =>
      src ← match by__ with None => mret (Some e) | Some p => lookup_by_pattern p e end;
      w ← match src with
          | None => mret (S754_zero false)
          | Some v => match string2d v with Some w => mret w | None => fail not_a_double end
          end;
      l ← with_weights by__ es; mret ((e, w) :: l)
  end.

Definition ordered (o : SortOptions) (es : list bytes) : M (list bytes) :=
  if alpha o then
    match by_ o with
    | None => mret (merge_sort member_le es)
    | Some p => keyed ← with_keys p es; mret (snd <$> merge_sort keyed_le keyed)
    end
  else keyed ← with_weights (by_ o) es; mret (fst <$> merge_sort weight_le keyed).

(** Sorting, DESC and LIMIT. *)
Definition sorted (o : SortOptions) (dontsort : bool) (es : list bytes) : M (list bytes) :=
  es ← (if dontsort then mret es else l ← ordered o es; mret (if desc o then reverse l else l));
  mret (limited (limit o) es).

Fixpoint project_one (ps : list bytes) (e : bytes) : M (list (option bytes)) :=
  match ps with
  | [] => mret []
  | p :: ps =>
      v ← (if bool_decide (p = bs "#") then mret (Some e) else lookup_by_pattern p e);
      l ← project_one ps e; mret (v :: l)
  end.
Fixpoint project_all (ps : list bytes) (es : list bytes) : M (list (option bytes)) :=
  match es with
  | [] => mret []
  | e :: es => vs ← project_one ps e; l ← project_all ps es; mret (vs ++ l)
  end.

(** An empty result goes to the destination as its removal. *)
Definition store_nothing (dst : Key) : M unit :=
  removed ← call (remove dst);
  (if removed : bool then do_ (notify GENERIC (bs "del") dst);; do_ (ctx_propagate [bs "DEL"; dst]) else do_ propagate_none);;
  reply (int 0).

Definition write_projected (l : list (option bytes)) (w : ReplyWriter) : ReplyWriter :=
  foldl (fun w v => match v with Some b => bulk_from b w | None => null w end) (array (blen l) w) l.

Definition no_list_yet : CmdError := err (bs "SORT ... STORE needs the list type, which is not available yet").

Definition sort_generic (allow_store : bool) : CmdHandler := fun args =>
  key ← try_ (key_at args 1);
  opts ← try_ (parse_sort_options (drop 2 args) allow_store sort_default);
  els ← sort_elements key;
  match els with
  | None => match store opts with Some dst => store_nothing dst | None => reply empty_array end
  | Some elements =>
      let dontsort := match by_ opts with Some p => negb (bool_decide ("*"%byte ∈ p)) | None => false end in
      o ← call (lookup_read key);
      let is_set := match o with Some (Set_ _) => true | _ => false end in
      let forced := dontsort && is_set && bool_decide (is_Some (store opts)) in
      let opts := if forced then {| desc := desc opts; alpha := true; limit := limit opts; by_ := None; patterns := patterns opts; store := store opts |} else opts in
      es ← sorted opts (dontsort && negb forced) elements;
      projected ← match patterns opts with [] => mret (Some <$> es) | ps => project_all ps es end;
      match store opts with
      | None => reply (write_projected projected)
      | Some dst => match projected with [] => store_nothing dst | _ => fail no_list_yet end
      end
  end.

Definition cmd_sort := sort_generic true.
Definition cmd_sort_ro := sort_generic false.

Definition sort_spec : CommandSpec CmdHandler :=
  {| name := bs "sort"; arity := -2; Commands.flags := Z.lor WRITE (Z.lor DENYOOM (Z.lor MOVABLE_KEYS ALL_SHARDS)); first_key := 1; last_key := 1; key_step := 1;
     handler := cmd_sort; get_keys := Some sort_keys |}.
Definition sort_ro_spec : CommandSpec CmdHandler :=
  {| name := bs "sort_ro"; arity := -2; Commands.flags := Z.lor READONLY (Z.lor MOVABLE_KEYS ALL_SHARDS); first_key := 1; last_key := 1; key_step := 1;
     handler := cmd_sort_ro; get_keys := Some sort_keys |}.
End sort.

(** ** Facts *)

Lemma find_byte_spec b s n : find_byte b s = Some n -> (n < length s)%nat /\ s !! n = Some b.
Proof.
  unfold find_byte. destruct (list_find _ s) as [[i c]|] eqn:E; [|done]. intros [= <-]. apply list_find_Some in E as (Hi & -> & _).
  split; [by apply lookup_lt_Some in Hi|done].
Qed.

(** Only SORT takes a destination. *)
Lemma parse_no_store toks o o' : parse_sort_options toks false o = inr o' -> store o' = store o.
Proof.
  remember (length toks) as n eqn:Hn. revert toks o Hn. induction (lt_wf n) as [n _ IH]. intros [|tok toks] o -> Hp; cbn [parse_sort_options andb] in Hp; [by injection Hp as ->|].
  repeat case_match; simplify_eq/=; try done; match goal with Hx : parse_sort_options ?t _ _ = inr _ |- _ => apply (IH (length t)) in Hx; [exact Hx|simpl; lia|done] end.
Qed.

(** ** The order is the one that was asked for *)

#[export] Instance cmp_total_order : TotalOrder member_le.
Proof.
  split; [split; [split|]|].
  - intros a. unfold member_le. by rewrite bytes_le_not_lt, bytes_lt_irrefl.
  - intros a b c. unfold member_le. rewrite !bytes_le_not_lt, !negb_true_iff. intros H1 H2. destruct (bytes_lt c a) eqn:E; [|done].
    destruct (bytes_lt_total a b) as [Hl|[->|Hl]]; [|congruence..]. by rewrite (bytes_lt_trans c a b E Hl) in H2.
  - intros a b. unfold member_le. rewrite !bytes_le_not_lt, !negb_true_iff. intros H1 H2. destruct (bytes_lt_total a b) as [?|[?|?]]; congruence.
  - intros a b. unfold strict, member_le. rewrite !bytes_le_not_lt. destruct (bytes_lt_total a b) as [Hl|[->|Hl]]; [|by auto|].
    + left. rewrite Hl. destruct (bytes_lt b a) eqn:E; [|done]. pose proof (bytes_lt_trans a b a Hl E) as Hx. by rewrite bytes_lt_irrefl in Hx.
    + right. right. rewrite Hl. destruct (bytes_lt a b) eqn:E; [|done]. pose proof (bytes_lt_trans b a b Hl E) as Hx. by rewrite bytes_lt_irrefl in Hx.
Qed.

Lemma SFcompare_opp a b : SFcompare b a = CompOpp <$> SFcompare a b.
Proof.
  destruct a as [sa|sa| |sa ma ea], b as [sb|sb| |sb mb eb]; try done; try by destruct sa; try destruct sb. cbn [SFcompare].
  destruct sa, sb; try done; rewrite (Z.compare_antisym ea eb); destruct (ea ?= eb); cbn [CompOpp]; try done;
    change (Pos.compare_cont Eq ?x ?y) with (x ?= y)%positive; rewrite (Pos.compare_antisym ma mb); by destruct (ma ?= mb)%positive.
Qed.
Lemma SFcompare_total a b : not_nan a -> not_nan b -> is_Some (SFcompare a b).
Proof. unfold not_nan. destruct a as [sa|sa| |sa ma ea], b as [sb|sb| |sb mb eb]; try done; cbn [SFcompare]; destruct sa; try destruct sb; by eexists. Qed.

(** Comparing weights is comparing elements of a sorted set. *)
Lemma weight_le_iff a b : item_ok a -> item_ok b -> weight_le a b <-> item_lt b a = false.
Proof.
  intros Ha Hb. unfold weight_le, weight_cmp, item_lt, key_lt, SFltb, SFeqb, bytes_lt. rewrite (cmp_opp a.1 b.1), (SFcompare_opp a.2 b.2).
  destruct (SFcompare_total a.2 b.2 Ha Hb) as [o ->]. destruct o, (cmp a.1 b.1); cbn; split; done.
Qed.

#[export] Instance weight_le_total : Total weight_le.
Proof.
  intros a b. unfold weight_le, weight_cmp. rewrite (cmp_opp a.1 b.1), (SFcompare_opp a.2 b.2).
  destruct (SFcompare a.2 b.2) as [[]|], (cmp a.1 b.1); cbn; first [by left | by right].
Qed.

(** Between elements with a value. *)
Definition item_le (a b : bytes * f64) : Prop := item_ok a /\ item_ok b /\ item_lt b a = false.
#[export] Instance item_le_trans : Transitive item_le.
Proof.
  intros a b c (Ha & Hb & H1) (_ & Hc & H2). split; [done|]. split; [done|]. destruct (item_lt c a) eqn:E; [|done].
  destruct (item_total a b Ha Hb) as [Hl|[He|Hl]]; [|destruct (item_eq_lt a b c Ha Hb Hc He); congruence|congruence].
  by rewrite (item_lt_trans c a b Hc Ha Hb E Hl) in H2.
Qed.

Lemma Sorted_impl {A} (P : A -> Prop) (R R' : A -> A -> Prop) l :
  (forall a b, P a -> P b -> R a b -> R' a b) -> Forall P l -> Sorted R l -> Sorted R' l.
Proof.
  intros Hr Hp Hs. induction Hs as [|a l Hs IH Hd]; constructor; apply Forall_cons in Hp as [Ha Hp]; [by apply IH|].
  destruct Hd as [|b l Hd]; constructor. apply Forall_cons in Hp as [Hb _]. by apply Hr.
Qed.

Lemma weights_sorted l : Forall item_ok l -> StronglySorted item_le (merge_sort weight_le l).
Proof.
  intros Hl. apply Sorted_StronglySorted; [apply _|]. apply (Sorted_impl item_ok weight_le); [|by rewrite merge_sort_Permutation|].
  - intros a b Ha Hb Hw. split; [done|]. split; [done|]. by apply weight_le_iff.
  - apply (Sorted_merge_sort weight_le).
Qed.

(** The order of a sort without BY: by bytes, or by value and then by bytes. *)
Definition asked (alpha_ : bool) (a b : bytes) : Prop :=
  if alpha_ then member_le a b else exists x y, string2d a = Some x /\ string2d b = Some y /\ item_lt (b, y) (a, x) = false.

Lemma asked_antisym alpha_ a b : asked alpha_ a b -> asked alpha_ b a -> a = b.
Proof.
  destruct alpha_; cbn; [apply (anti_symm member_le)|]. intros (x & y & Hx & Hy & H1) (y' & x' & Hy' & Hx' & H2). simplify_eq.
  assert (Ha : item_ok (a, x)) by (by eapply string2d_not_nan). assert (Hb : item_ok (b, y)) by (by eapply string2d_not_nan).
  destruct (item_total _ _ Ha Hb) as [?|[He|?]]; [congruence| |congruence]. by apply (item_eq_iff Ha Hb) in He as [_ ?].
Qed.

(** Which sort [sort_unstable] is does not show. *)
Lemma sorted_unique alpha_ l1 l2 : StronglySorted (asked alpha_) l1 -> StronglySorted (asked alpha_) l2 -> l1 ≡ₚ l2 -> l1 = l2.
Proof. intros. apply (StronglySorted_unique_strong (asked alpha_)); [|done..]. intros x y _ _. apply asked_antisym. Qed.

Section order.
Context `{Memchr, Itoa, Ryu, Fastrand, HashIter}.

Definition weighed (es : list bytes) : option (list (bytes * f64)) := mapM (fun e => w ← string2d e; Some (e, w)) es.

Lemma with_weights_plain es c : with_weights None es c = (c, match weighed es with Some l => inr l | None => inl not_a_double end).
Proof.
  induction es as [|e es IH]; [done|]. cbn [with_weights]. rewrite run_ret. unfold weighed in *. cbn [mapM].
  destruct (string2d e) as [w|]; [|done]. rewrite run_ret. unfold mbind at 1, M_bind at 1. rewrite IH. cbn. by destruct (mapM _ es).
Qed.

Lemma weighed_spec es l : weighed es = Some l -> fst <$> l = es /\ Forall (fun p => string2d p.1 = Some p.2) l.
Proof.
  unfold weighed. intros Hl. apply mapM_Some in Hl. induction Hl as [|e p es l He Hl [IH1 IH2]]; [by split|].
  destruct (string2d e) as [w|] eqn:Ew; [|done]. injection He as <-. cbn. by rewrite IH1; auto.
Qed.
Lemma weighed_none es : weighed es = None -> exists x, x ∈ es /\ string2d x = None.
Proof.
  unfold weighed. intros Hn%mapM_None. apply Exists_exists in Hn as (x & Hx & E). exists x. split; [done|]. by destruct (string2d x).
Qed.

(** C37: SORT without BY.  On any elements, the result is the elements in the
    order asked for - by bytes under ALPHA, otherwise by the double each
    spells and then by bytes - reversed by DESC, then cut by LIMIT; it is the
    only list in that order, and a sort that is not ALPHA fails, changing
    nothing, exactly when an element spells no double. *)
Theorem sort_orders o es c : by_ o = None ->
  let '(c', r) := sorted o false es c in
  c' = c /\
  match r with
  | inl e => e = not_a_double /\ alpha o = false /\ exists x, x ∈ es /\ string2d x = None
  | inr l =>
      (alpha o = false -> Forall (fun x => is_Some (string2d x)) es) /\
      exists full, full ≡ₚ es /\ StronglySorted (asked (alpha o)) full /\
        (forall full', full' ≡ₚ es -> StronglySorted (asked (alpha o)) full' -> full' = full) /\
        l = limited (limit o) (if desc o then reverse full else full)
  end.
Proof.
  intros Hby. unfold sorted, ordered. rewrite Hby.
  assert (Huniq : forall full, full ≡ₚ es -> StronglySorted (asked (alpha o)) full ->
    forall full', full' ≡ₚ es -> StronglySorted (asked (alpha o)) full' -> full' = full).
  { intros full Hp Hs full' Hp' Hs'. apply (sorted_unique (alpha o)); [done..|]. by rewrite Hp, Hp'. }
  destruct (alpha o) eqn:Ea.
  - split; [done|]. split; [done|]. exists (merge_sort member_le es). pose proof (merge_sort_Permutation member_le es) as Hp.
    assert (Hs : StronglySorted (asked true) (merge_sort member_le es)) by apply (StronglySorted_merge_sort member_le).
    split_and!; [done|done|by apply Huniq|done].
  - unfold mbind, M_bind. rewrite with_weights_plain. destruct (weighed es) as [l|] eqn:El; cbn.
    2: { split; [done|]. split; [done|]. split; [done|]. by apply weighed_none. }
    split; [done|]. apply weighed_spec in El as [E Hv]. subst es. split.
    { intros _. apply Forall_fmap. eapply Forall_impl; [exact Hv|]. intros p E. by exists p.2. }
    exists (fst <$> merge_sort weight_le l).
    assert (Hok : Forall item_ok l) by (eapply Forall_impl; [exact Hv|]; intros p; apply string2d_not_nan).
    assert (Hp : fst <$> merge_sort weight_le l ≡ₚ fst <$> l) by (by rewrite merge_sort_Permutation).
    assert (Hs : StronglySorted (asked false) (fst <$> merge_sort weight_le l)).
    { pose proof (weights_sorted l Hok) as Hss. rewrite <-(merge_sort_Permutation weight_le) in Hv. clear -Hss Hv.
      induction Hss as [|a m Hss IH Ha]; [constructor|]. apply Forall_cons in Hv as [Hx Hv]. constructor; [by apply IH|].
      apply Forall_fmap, Forall_forall. intros b Hb. rewrite Forall_forall in Ha, Hv. destruct (Ha b Hb) as (_ & _ & Hlt).
      exists a.2, b.2. split_and!; [done|by apply Hv|]. by destruct a, b. }
    split_and!; [done|done|by apply Huniq|done].
Qed.
End order.

(** ** Witness *)

Section witnesses.
#[local] Existing Instances memchr_find itoa_model ryu_model no_draws hash_iter_model.

Definition by_value : SortOptions := {| desc := true; alpha := false; limit := Some (1, 2); by_ := None; patterns := []; store := None |}.
Definition sorting : Ctx :=
  ctx_new {| buf := []; proto := RESP2 |} (demo_client true) demo_shared {| guards := []; g_mask := 3 |} (config_handle demo_shared) 0 (shard_map_new 4 16).
Lemma sort_orders_witness : exists full,
  full ≡ₚ [bs "10"; bs "9"; bs "-1.5"; bs "1e1"] /\ StronglySorted (asked false) full /\ take 2 (drop 1 (reverse full)) = [bs "10"; bs "9"].
Proof.
  pose proof (sort_orders by_value [bs "10"; bs "9"; bs "-1.5"; bs "1e1"] sorting eq_refl) as Hs.
  assert (E : (sorted by_value false [bs "10"; bs "9"; bs "-1.5"; bs "1e1"] sorting).2 = inr [bs "10"; bs "9"]) by (vm_compute; reflexivity).
  destruct (sorted _ _ _ _) as [c' r]. cbn [snd] in E. subst r. destruct Hs as (_ & _ & full & Hp & Hss & _ & Hl).
  exists full. split; [exact Hp|]. split; [exact Hss|]. rewrite Hl. unfold limited, by_value. cbn [limit desc].
  assert (El : length (reverse full) = 4%nat) by (rewrite length_reverse; exact (Permutation_length Hp)). rewrite El. reflexivity.
Defined.
End witnesses.
