(* ===== verification/Scan.v ===== *)
(** * SCAN ([src/command/generic.rs])

    The cursor over the whole keyspace: the low bits name a shard, the high
    bits are a reverse-binary cursor over virtual buckets of the shard's
    database.  The handler locks one shard at a time, so the keyspace moves
    while it runs: the shard map found at each acquisition is an argument
    ([world]).  The facts are Redis's promise, that a key present throughout a
    full iteration is returned, and that an iteration ends. *)
From S2P Require Import Prelude Config Crc Strnum Glob Object Shard Errors Reply Notify Commands Dtoa Client Registry Ctx StringCmd Views Dispatch Generic.
Open Scope Z_scope.

(** [foldhash] with its fixed seed: a function of the bytes of the key. *)
Class ScanHash := scan_hash : bytes -> Z.

Definition MAX_SCAN_BITS : Z := 4.
Definition SCAN_DEFAULT_COUNT : Z := 10.

(** The loop of [scan_bits]; [fuel] is [MAX_SCAN_BITS]. *)
Fixpoint scan_bits_loop (fuel : nat) (len count bits : Z) : Z :=
  match fuel with
  | O => bits
  | S fuel =>
      if decide (bits < MAX_SCAN_BITS /\ count < Z.shiftr len bits) then scan_bits_loop fuel len count (bits + 1) else bits
  end.

Definition scan_bits (len count : Z) : Z := scan_bits_loop (Z.to_nat MAX_SCAN_BITS) len (Z.max count 1) 0.

(** [u64::reverse_bits] and [usize::trailing_zeros]. *)
Definition reverse_bits (v : Z) : Z :=
  foldl (fun acc i => Z.lor (Z.shiftl acc 1) (Z.b2z (Z.testbit v (Z.of_nat i)))) 0 (seq 0 64).
Definition trailing_zeros (n : Z) : Z := if decide (n = 0) then 64 else Z.log2 (Z.land n (- n)).

Definition scan_advance (cursor mask : Z) : Z :=
  let v := Z.lor cursor (Z.lxor mask U64_MAX) in
  let v := reverse_bits v in
  let v := wrapu 64 (v + 1) in
  reverse_bits v.

Record ScanOptions := { count : Z; pattern : option bytes; type_filter : option bytes }.

Definition scan_default : ScanOptions := {| count := SCAN_DEFAULT_COUNT; pattern := None; type_filter := None |}.

Fixpoint scan_options (toks : list bytes) (o : ScanOptions) : CmdError + ScanOptions :=
  match toks with
  | [] => inr o
  | tok :: toks =>
      if is_tok tok (bs "COUNT") then
        match toks with
        | [] => inl Syntax
        | arg :: toks =>
            match i64_at [arg] 0 with
            | inl e => inl e
            | inr n =>
                if decide (n < 1) then inl Syntax
                else scan_options toks {| count := n; pattern := pattern o; type_filter := type_filter o |}
            end
        end
      else if is_tok tok (bs "MATCH") then
        match toks with
        | [] => inl Syntax
        | p :: toks => scan_options toks {| count := count o; pattern := Some p; type_filter := type_filter o |}
        end
      else if is_tok tok (bs "TYPE") then
        match toks with
        | [] => inl Syntax
        | t :: toks => scan_options toks {| count := count o; pattern := pattern o; type_filter := Some t |}
        end
      else inl Syntax
  end.

Definition parse_scan_options (args : Args) (from : nat) : CmdError + ScanOptions := scan_options (drop from args) scan_default.

Section scan.
Context `{Memchr, Itoa, Ryu, Fastrand, HashIter, ScanHash}.

(** Whether an entry passes the filters. *)
Definition scan_wants (o : ScanOptions) (now : Z) (key : Key) (e : Entry) : bool :=
  negb (is_expired e now) &&
  match type_filter o with Some t => eq_ignore_ascii_case t (type_name (obj e)) | None => true end &&
  match pattern o with Some p => key_matches p key | None => true end.

Definition scan_db (d : Db) (cursor now : Z) (o : ScanOptions) (out : list Key) : list Key * Z * Z :=
  let bits := scan_bits (Z.of_nat (db_len d)) (count o) in
  let mask := Z.shiftl 1 bits - 1 in
  let bucket := Z.land cursor mask in
  let '(out, examined) :=
    foldl (fun '(out, n) '(key, e) =>
      (if negb (bool_decide (Z.land (scan_hash key) mask = bucket)) then out
       else if scan_wants o now key e then out ++ [key] else out, n + 1)) (out, 0) (hash_iter (dict d)) in
  (out, examined, scan_advance cursor mask).

(** The loop of the handler.  The [i]th shard is locked in the keyspace
    [world i]; [n] is the number of shards.  [None] is out of fuel. *)
Fixpoint scan_loop (fuel : nat) (world : nat -> ShardMap) (n : nat) (db_idx : nat) (now : Z) (o : ScanOptions)
    (i : nat) (cursor : Z) (keys : list Key) (examined : Z) : option (Z * list Key) :=
  match fuel with
  | O => None
  | S fuel =>
      let shard_bits := trailing_zeros (Z.of_nat n) in
      let shard_index := Z.to_nat (Z.land cursor (Z.of_nat n - 1)) in
      let intra := Z.shiftr cursor shard_bits in
      match map_get (world i) shard_index with
      | None => Some (0, keys)
      | Some handle =>
          let '(keys, visited, next_intra) :=
            match db db_idx (lock handle) with Some d => scan_db d intra now o keys | None => (keys, 0, 0) end in
          let examined := examined + visited in
          let go cursor :=
            if decide (count o <= examined \/ count o <= blen keys) then Some (cursor, keys)
            else scan_loop fuel world n db_idx now o (S i) cursor keys examined in
          if decide (next_intra = 0) then
            if decide (n <= S shard_index)%nat then Some (0, keys) else go (Z.of_nat (S shard_index))
          else go (Z.lor (wrapu 64 (Z.shiftl next_intra shard_bits)) (Z.of_nat shard_index))
      end
  end.

(** One visit per virtual bucket of every shard, and one to see the end. *)
Definition scan_fuel (n : nat) : nat := 16 * n + 1.

(** What the other threads made of the keyspace before each acquisition. *)
Context (world : ShardMap -> nat -> ShardMap).

Definition cmd_scan : CmdHandler := fun args =>
  cursor_arg ← try_ (at_ args 1);
  match string2ull cursor_arg with
  | None => fail (err (bs "invalid cursor"))
  | Some cursor =>
      o ← try_ (parse_scan_options args 2);
      held ← ask (fun c => guards (shards c));
      if decide (held <> []) then fail (err (bs "SCAN is not allowed while other keys are locked"))
      else
        m ← ask server_shards;
        db_idx ← ask db_index;
        now ← ask now_ms;
        match scan_loop (scan_fuel (map_len m)) (world m) (map_len m) db_idx now o 0 cursor [] 0 with
        | None => mret tt
        | Some (cursor, keys) =>
            reply (array 2);;
            reply (bulk (itoa_format cursor));;
            reply (array (blen keys));;
            reply (fun w => foldl (fun w k => bulk_from k w) w keys)
        end
  end.
End scan.
