(* ===== verification/ScanFacts.v ===== *)
(** * Facts about SCAN ([src/command/generic.rs])

    Every step of a scan covers an interval of a fixed linear order of the
    keyspace: the shards in their order, and in a shard the virtual buckets
    in reverse-binary order.  The mask used by a step only decides how long
    the interval is, so nothing is skipped when the database grows or shrinks
    between two steps. *)
From S2P Require Import Prelude Config Crc Strnum Glob Object Shard Errors Reply Notify Commands Dtoa Client Registry Ctx StringCmd Views Dispatch Generic GenericFacts Scan.
Open Scope Z_scope.

(** ** The reverse-binary cursor *)

Lemma reverse_bits_testbit v i : 0 <= i < 64 -> Z.testbit (reverse_bits v) i = Z.testbit v (63 - i).
Proof.
  intros Hi. unfold reverse_bits.
  assert (forall l acc i, 0 <= i ->
    Z.testbit (foldl (fun acc i => Z.lor (Z.shiftl acc 1) (Z.b2z (Z.testbit v (Z.of_nat i)))) acc l) i =
    if decide (i < Z.of_nat (length l)) then default false ((fun j => Z.testbit v (Z.of_nat j)) <$> l !! Z.to_nat (Z.of_nat (length l) - 1 - i))
    else Z.testbit acc (i - Z.of_nat (length l))) as Hfold.
  { clear i Hi. intros l. induction l as [|j l IH]; intros acc i Hi.
    { rewrite decide_False by (simpl; lia). f_equal. simpl. lia. }
    cbn [foldl]. rewrite IH by done. cbn [length]. rewrite !Nat2Z.inj_succ. destruct (decide (i < Z.of_nat (length l))) as [Hl|Hl].
    - rewrite decide_True by lia. replace (Z.to_nat (Z.succ (Z.of_nat (length l)) - 1 - i)) with (S (Z.to_nat (Z.of_nat (length l) - 1 - i))) by lia.
      done.
    - rewrite Z.lor_spec. destruct (decide (i = Z.of_nat (length l))) as [->|Hne].
      + rewrite decide_True by lia. replace (Z.to_nat _) with 0%nat by lia. simpl.
        rewrite Z.sub_diag, Z.shiftl_spec_low by lia. simpl. by destruct (Z.testbit v _).
      + rewrite decide_False by lia. rewrite Z.shiftl_spec by lia. replace (i - Z.of_nat (length l) - 1) with (i - Z.succ (Z.of_nat (length l))) by lia.
        rewrite (Z.bits_above_log2 (Z.b2z _)), orb_false_r; [done|by destruct (Z.testbit v _)|].
        destruct (Z.testbit v _); simpl; lia. }
  rewrite Hfold by lia. rewrite length_seq, decide_True by lia. rewrite lookup_seq_lt by lia. simpl. f_equal. lia.
Qed.

(** The position of a hash in the order the cursor follows. *)
Definition bit (v i : Z) : Z := Z.b2z (Z.testbit v i).
Definition pos (h : Z) : Z := 8 * bit h 0 + 4 * bit h 1 + 2 * bit h 2 + bit h 3.

Lemma pos_range h : 0 <= pos h < 16.
Proof. unfold pos, bit. repeat (destruct (Z.testbit _ _)); simpl; lia. Qed.

Lemma pos_low h : pos (Z.land h 15) = pos h.
Proof. unfold pos, bit. rewrite !Z.land_spec. cbn [Z.testbit Pos.testbit]. by rewrite !andb_true_r. Qed.

(** What a step with [b] bits of mask does at cursor [c], on the low bits. *)
Definition step_ok (b c : Z) : bool :=
  let m := Z.shiftl 1 b - 1 in
  let next := scan_advance c m in
  bool_decide (0 <= next < 16) && (bool_decide (next = 0) || bool_decide (pos c < pos next)) &&
  forallb (fun h =>
    let h := Z.of_nat h in
    negb (bool_decide (pos c <= pos h) && (bool_decide (next = 0) || bool_decide (pos h < pos next))) ||
    bool_decide (Z.land h m = Z.land c m)) (seq 0 16).

Lemma steps_ok : forallb (fun b => forallb (fun c => step_ok (Z.of_nat b) (Z.of_nat c)) (seq 0 16)) (seq 0 5) = true.
Proof. vm_compute. reflexivity. Qed.

Lemma scan_bits_range len n : 0 <= scan_bits len n <= 4.
Proof.
  assert (forall f b, 0 <= b <= 4 -> 0 <= scan_bits_loop f len (Z.max n 1) b <= 4) as Hl.
  { intros f. induction f as [|f IH]; intros b Hb; cbn [scan_bits_loop]; [done|]. case_decide as Hd; [|done].
    apply IH. unfold MAX_SCAN_BITS in Hd. lia. }
  apply Hl. lia.
Qed.

Lemma low_land h b : 0 <= b <= 4 -> Z.land (Z.land h 15) (Z.shiftl 1 b - 1) = Z.land h (Z.shiftl 1 b - 1).
Proof.
  intros Hb. rewrite <-Z.land_assoc. f_equal. assert (b = 0 \/ b = 1 \/ b = 2 \/ b = 3 \/ b = 4) as Hc by lia.
  by destruct Hc as [->|[->|[->|[->| ->]]]].
Qed.

(** Above the mask a cursor does not matter. *)
Lemma scan_advance_low c b : 0 <= b <= 4 -> in_unsigned 64 c -> scan_advance c (Z.shiftl 1 b - 1) = scan_advance (Z.land c 15) (Z.shiftl 1 b - 1).
Proof.
  intros Hb Hc. unfold scan_advance. replace (Z.lor c _) with (Z.lor (Z.land c 15) (Z.lxor (Z.shiftl 1 b - 1) U64_MAX)); [done|].
  assert (Z.shiftl 1 b - 1 = Z.ones b) as -> by (rewrite Z.shiftl_1_l, Z.ones_equiv; lia).
  change U64_MAX with (Z.ones 64). change 15 with (Z.ones 4). apply Z.bits_inj'. intros i Hi.
  rewrite !Z.lor_spec, Z.land_spec, Z.lxor_spec, !Z.testbit_ones_nonneg by lia.
  destruct (Z.ltb_spec i 4), (Z.ltb_spec i b), (Z.ltb_spec i 64); simpl; try lia;
    rewrite ?andb_true_r, ?andb_false_r, ?orb_true_r, ?orb_false_r; try done.
  symmetry. apply (in_unsigned_testbit 64); [done|lia].
Qed.

(** [step_ok] as a proposition. *)
Lemma step_ok_spec b c :
  step_ok b c = true ->
  let m := Z.shiftl 1 b - 1 in let next := scan_advance c m in
  0 <= next < 16 /\ (next = 0 \/ pos c < pos next) /\
  forall h, 0 <= h < 16 -> pos c <= pos h -> next = 0 \/ pos h < pos next -> Z.land h m = Z.land c m.
Proof.
  unfold step_ok. cbv zeta. generalize (scan_advance c (Z.shiftl 1 b - 1)) as next. intros next.
  rewrite !andb_true_iff, forallb_forall, orb_true_iff, !bool_decide_eq_true. intros [[Hn Hp] Hh].
  split; [exact Hn|]. split; [exact Hp|]. intros h Hr Hge Hlt. specialize (Hh (Z.to_nat h) ltac:(apply in_seq; lia)).
  rewrite Z2Nat.id in Hh by lia. rewrite orb_true_iff, negb_true_iff, bool_decide_eq_true in Hh. destruct Hh as [Hf|]; [|done].
  rewrite (bool_decide_eq_true_2 _ Hge) in Hf. destruct Hlt as [->|Hlt]; [done|].
  by rewrite (bool_decide_eq_true_2 _ Hlt), orb_true_r in Hf.
Qed.

Lemma step_ok_all b c : 0 <= b <= 4 -> 0 <= c < 16 -> step_ok b c = true.
Proof.
  intros Hb Hc. rewrite <-(Z2Nat.id b), <-(Z2Nat.id c) by lia. pose proof (proj1 (forallb_forall _ _) steps_ok) as Hs.
  specialize (Hs (Z.to_nat b) ltac:(apply in_seq; lia)). cbn beta in Hs.
  apply (proj1 (forallb_forall _ _) Hs (Z.to_nat c)). apply in_seq. lia.
Qed.

Lemma step_facts b c :
  0 <= b <= 4 -> in_unsigned 64 c ->
  let m := Z.shiftl 1 b - 1 in let next := scan_advance c m in
  0 <= next < 16 /\ (next = 0 \/ pos c < pos next) /\
  forall h, pos c <= pos h -> next = 0 \/ pos h < pos next -> Z.land h m = Z.land c m.
Proof.
  intros Hb Hc. cbv zeta. rewrite scan_advance_low by done.
  assert (forall h, 0 <= Z.land h 15 < 16) as Hlow by (intros h; change 15 with (Z.ones 4); rewrite Z.land_ones by done; by apply Z.mod_pos_bound).
  destruct (step_ok_spec b (Z.land c 15)) as (Hn & Hp & Hh); [by apply step_ok_all|].
  split; [exact Hn|]. rewrite pos_low in Hp, Hh. split; [exact Hp|]. intros h Hge Hlt.
  specialize (Hh (Z.land h 15) (Hlow h)). rewrite pos_low, !low_land in Hh by done. by apply Hh.
Qed.

(** ** One visit *)

Section facts.
Context `{Memchr, ItoaLaws, Ryu, Fastrand, HashIterLaws, ScanHash}.

(** The key [k] is in database [n], on its shard, and passes the filters. *)
Definition scannable (o : ScanOptions) (n : nat) (now : Z) (m : ShardMap) (k : Key) : Prop :=
  exists e, server_entry m n k = Some e /\ scan_wants o now k e = true.

(** The fold over the entries of a database. *)
Lemma scan_fold (hit : Key -> Entry -> bool) l out n :
  exists ks v,
    foldl (fun '(out, n) '(key, e) => (if hit key e then out ++ [key] else out, n + 1)) (out, n) l = (out ++ ks, n + v) /\ 0 <= v /\
    forall k, k ∈ ks <-> exists e : Entry, (k, e) ∈ l /\ hit k e = true.
Proof.
  revert out n. induction l as [|[k e] l IH]; intros out0 n.
  { exists [], 0. rewrite app_nil_r, Z.add_0_r. split_and!; [done..|]. intros k. split; [by intros ?%not_elem_of_nil|].
    by intros (e & ?%not_elem_of_nil & _). }
  cbn [foldl]. destruct (IH (if hit k e then out0 ++ [k] else out0) (n + 1)) as (ks & v & -> & Hv & Hks).
  exists ((if hit k e then [k] else []) ++ ks), (1 + v). split_and!; [|lia|].
  - f_equal; [|lia]. destruct (hit k e); [|done]. by rewrite <-app_assoc.
  - intros k'. rewrite elem_of_app, Hks. split.
    + intros [Hh|(e' & Hin & Hw)]; [|exists e'; split; [by right|done]].
      destruct (hit k e) eqn:Ew; [|by apply not_elem_of_nil in Hh]. apply list_elem_of_singleton in Hh as ->.
      exists e. split; [by left|done].
    + intros (e' & Hin & Hw). apply elem_of_cons in Hin as [[= -> ->]|Hin]; [left|right; by exists e'].
      rewrite Hw. by left.
Qed.

Lemma scan_db_run d c now o out :
  exists ks visited b,
    scan_db d c now o out = (out ++ ks, visited, scan_advance c (Z.shiftl 1 b - 1)) /\ 0 <= visited /\ 0 <= b <= 4 /\
    forall k, k ∈ ks <-> exists e, dict d !! k = Some e /\ scan_wants o now k e = true /\
      Z.land (scan_hash k) (Z.shiftl 1 b - 1) = Z.land c (Z.shiftl 1 b - 1).
Proof.
  unfold scan_db. set (b := scan_bits _ _). pose proof (scan_bits_range (Z.of_nat (db_len d)) (count o)) as Hb. fold b in Hb.
  set (m := Z.shiftl 1 b - 1).
  destruct (scan_fold (fun k e => bool_decide (Z.land (scan_hash k) m = Z.land c m) && scan_wants o now k e) (hash_iter (dict d)) out 0)
    as (ks & v & Hf & Hv & Hks).
  exists ks, v, b. fold m. split; [|split; [exact Hv|split; [exact Hb|]]].
  - rewrite (foldl_ext_eq _ (fun '(out, n) '(key, e) =>
      (if bool_decide (Z.land (scan_hash key) m = Z.land c m) && scan_wants o now key e then out ++ [key] else out, n + 1))).
    + by rewrite Hf.
    + intros [w n] [k e]. by destruct (bool_decide _).
  - intros k. rewrite Hks. split; [intros (e & ?%hash_iter_elem & [?%bool_decide_eq_true ?]%andb_true_iff); by exists e|].
    intros (e & ? & ? & ?). exists e. rewrite hash_iter_elem, andb_true_iff, bool_decide_eq_true. done.
Qed.

(** ** The order a cursor follows *)

(** [n] shards, [B] bits of cursor to name them; the worlds a scan meets
    agree on that. *)
Context (B : Z) (B_range : 0 <= B <= 16) (dbi : nat) (now : Z).
#[local] Abbreviation n := (Z.to_nat (2 ^ B)).

Definition scan_world (m : ShardMap) : Prop := map_len m = n /\ mask m = 2 ^ B - 1.

Definition home (k : Key) : Z := Z.land (key_hash_slot k) (2 ^ B - 1).
Definition key_rank (k : Key) : Z := 16 * home k + pos (scan_hash k).
Definition rank (c : Z) : Z := 16 * Z.land c (2 ^ B - 1) + pos (Z.shiftr c B).

Lemma pow_B : 1 <= 2 ^ B <= 65536.
Proof. split; [pose proof (Z.pow_pos_nonneg 2 B); lia|]. change 65536 with (2 ^ 16). apply Z.pow_le_mono_r; lia. Qed.

Lemma land_B x : 0 <= Z.land x (2 ^ B - 1) < 2 ^ B.
Proof.
  replace (2 ^ B - 1) with (Z.ones B) by (rewrite Z.ones_equiv; lia). rewrite Z.land_ones by lia. apply Z.mod_pos_bound.
  pose proof pow_B. lia.
Qed.

Lemma rank_range c : 0 <= rank c < 16 * 2 ^ B.
Proof. unfold rank. pose proof (land_B c). pose proof (pos_range (Z.shiftr c B)). lia. Qed.

Lemma key_rank_range k : 0 <= key_rank k < 16 * 2 ^ B.
Proof. unfold key_rank, home. pose proof (land_B (key_hash_slot k)). pose proof (pos_range (scan_hash k)). lia. Qed.

Lemma trailing_zeros_pow : trailing_zeros (2 ^ B) = B.
Proof.
  unfold trailing_zeros. pose proof pow_B. rewrite decide_False by lia.
  replace (Z.land (2 ^ B) (- 2 ^ B)) with (2 ^ B); [by apply Z.log2_pow2; lia|].
  replace (- 2 ^ B) with (Z.lnot (Z.ones B)) by (rewrite Z.ones_equiv; unfold Z.lnot; lia).
  apply Z.bits_inj'. intros i Hi. rewrite Z.land_spec, Z.lnot_spec, Z.testbit_ones_nonneg, Z.pow2_bits_eqb by lia.
  destruct (Z.eqb_spec B i), (Z.ltb_spec i B); simpl; lia || done.
Qed.

Lemma shiftr_u64 c : in_unsigned 64 c -> in_unsigned 64 (Z.shiftr c B).
Proof.
  intros Hc. destruct (shiftr_range 64 B c ltac:(lia) Hc) as [Hl Hh]. split; [done|].
  eapply Z.lt_le_trans; [exact Hh|]. apply Z.pow_le_mono_r; lia.
Qed.

(** The cursor a step leaves, put together and taken apart. *)
Lemma cursor_join next idx :
  0 <= next < 16 -> 0 <= idx < 2 ^ B ->
  let c := Z.lor (wrapu 64 (Z.shiftl next B)) idx in
  in_unsigned 64 c /\ Z.land c (2 ^ B - 1) = idx /\ Z.shiftr c B = next.
Proof.
  intros Hn Hi. cbv zeta. pose proof pow_B as Hp.
  assert (0 <= next * 2 ^ B <= 15 * 65536) as Hb by nia.
  rewrite wrapu_small; [|lia|].
  2: { rewrite Z.shiftl_mul_pow2 by lia. split; [lia|]. change (2 ^ 64) with 18446744073709551616. lia. }
  rewrite lor_shiftl_add; [|lia|exact Hi].
  replace (2 ^ B - 1) with (Z.ones B) by (rewrite Z.ones_equiv; lia). rewrite Z.land_ones, Z.shiftr_div_pow2 by lia.
  split_and!.
  - unfold in_unsigned. change (2 ^ 64) with 18446744073709551616. lia.
  - rewrite Z.add_comm, Z.mod_add by lia. by apply Z.mod_small.
  - rewrite Z.add_comm, Z.div_add by lia. rewrite Z.div_small; lia.
Qed.

(** ** The loop *)

(** A key found live in some shard, passing the filters. *)
Definition seen_in (o : ScanOptions) (m : ShardMap) (k : Key) : Prop :=
  exists h d e, h ∈ Shard.shards m /\ db dbi (lock h) = Some d /\ dict d !! k = Some e /\ scan_wants o now k e = true.

Lemma scan_visit o m c keys :
  in_unsigned 64 c -> scan_world m ->
  exists h ks visited next,
    map_get m (Z.to_nat (Z.land c (2 ^ B - 1))) = Some h /\
    match db dbi (lock h) with Some d => scan_db d (Z.shiftr c B) now o keys | None => (keys, 0, 0) end = (keys ++ ks, visited, next) /\
    0 <= visited /\ 0 <= next < 16 /\ (next = 0 \/ pos (Z.shiftr c B) < pos next) /\
    (forall k, scannable o dbi now m k -> home k = Z.land c (2 ^ B - 1) -> pos (Z.shiftr c B) <= pos (scan_hash k) ->
       next = 0 \/ pos (scan_hash k) < pos next -> k ∈ ks) /\
    (forall k, k ∈ ks -> seen_in o m k).
Proof.
  intros Hc [Hlen Hmask]. pose proof (land_B c) as Hi. pose proof pow_B as Hp.
  destruct (lookup_lt_is_Some_2 (Shard.shards m) (Z.to_nat (Z.land c (2 ^ B - 1)))) as [h Hh]; [unfold map_len in Hlen; lia|].
  exists h. unfold map_get. rewrite Hh.
  assert (forall k, scannable o dbi now m k -> home k = Z.land c (2 ^ B - 1) ->
    exists d e, db dbi (lock h) = Some d /\ dict d !! k = Some e /\ scan_wants o now k e = true) as Hsc.
  { intros k (e & He & Hw) Hk. unfold server_entry, shard_for, map_get, shard_index in He. rewrite Hmask in He.
    unfold home in Hk. rewrite Hk, Hh in He. simpl in He. destruct (db dbi (lock h)) as [d|]; [|done]. by exists d, e. }
  destruct (db dbi (lock h)) as [d|] eqn:Hd.
  - destruct (scan_db_run d (Z.shiftr c B) now o keys) as (ks & v & b & -> & Hv & Hb & Hks).
    exists ks, v, (scan_advance (Z.shiftr c B) (Z.shiftl 1 b - 1)).
    destruct (step_facts b (Z.shiftr c B)) as (Hn & Hpos & Hcov); [done|by apply shiftr_u64|].
    do 2 (split; [done|]). split; [exact Hv|]. split; [exact Hn|]. split; [exact Hpos|]. split.
    + intros k Hs Hk Hge Hlt. destruct (Hsc k Hs Hk) as (d' & e & [= <-] & He & Hw). apply Hks. exists e. split_and!; [done..|by apply Hcov].
    + intros k (e & He & Hw & _)%Hks. exists h, d, e. split_and!; [by eapply list_elem_of_lookup_2|done..].
  - exists [], 0, 0. rewrite app_nil_r. split_and!; [done|done|lia..|by left| |].
    + intros k Hs Hk. by destruct (Hsc k Hs Hk) as (d & e & ? & _).
    + by intros k ?%not_elem_of_nil.
Qed.

(** The cursor after a visit, [0] when the last shard is done. *)
Definition next_cursor (c next : Z) : Z :=
  let idx := Z.to_nat (Z.land c (2 ^ B - 1)) in
  if decide (next = 0) then if decide (n <= S idx)%nat then 0 else Z.of_nat (S idx)
  else Z.lor (wrapu 64 (Z.shiftl next B)) (Z.of_nat idx).

Lemma next_cursor_facts c next :
  0 <= next < 16 ->
  let c' := next_cursor c next in let i := Z.land c (2 ^ B - 1) in
  in_unsigned 64 c' /\ (c' = 0 -> next = 0 /\ i = 2 ^ B - 1) /\
  (c' <> 0 -> rank c' = if decide (next = 0) then 16 * (i + 1) else 16 * i + pos next).
Proof.
  intros Hn. cbv zeta. unfold next_cursor. pose proof (land_B c) as Hi. pose proof pow_B as Hp.
  generalize dependent (Z.land c (2 ^ B - 1)). intros i Hi. destruct (decide (next = 0)) as [->|Hz].
  - destruct (decide (n <= S (Z.to_nat i))%nat) as [Hl|Hl].
    + split; [by vm_compute|]. split; [intros _; lia|done].
    + destruct (cursor_join 0 (Z.of_nat (S (Z.to_nat i)))) as (Hu & Hland & Hsh); [lia|lia|].
      rewrite Z.shiftl_0_l in Hu, Hland, Hsh. change (wrapu 64 0) with 0 in *. rewrite Z.lor_0_l in Hu, Hland, Hsh.
      split; [exact Hu|]. split; [lia|]. intros _. unfold rank. rewrite Hland, Hsh. change (pos 0) with 0. lia.
  - rewrite Z2Nat.id by lia. destruct (cursor_join next i) as (Hu & Hland & Hsh); [lia|lia|].
    split; [exact Hu|]. split; [intros Hc; rewrite Hc in Hsh; by rewrite Z.shiftr_0_l in Hsh|]. intros _. unfold rank. by rewrite Hland, Hsh.
Qed.

(** One turn of the loop. *)
Lemma scan_loop_S f world o i c keys ex h keys' v next :
  map_get (world i) (Z.to_nat (Z.land c (2 ^ B - 1))) = Some h ->
  match db dbi (lock h) with Some d => scan_db d (Z.shiftr c B) now o keys | None => (keys, 0, 0) end = (keys', v, next) ->
  0 <= next < 16 ->
  scan_loop (S f) world n dbi now o i c keys ex =
  let c' := next_cursor c next in
  if decide (c' = 0) then Some (0, keys')
  else if decide (count o <= ex + v \/ count o <= blen keys') then Some (c', keys')
  else scan_loop f world n dbi now o (S i) c' keys' (ex + v).
Proof.
  intros Hh Hv Hn. cbn [scan_loop]. pose proof pow_B as Hp. rewrite Z2Nat.id, trailing_zeros_pow by lia. rewrite Hh, Hv.
  destruct (next_cursor_facts c next Hn) as (_ & Hz & _). unfold next_cursor in *. destruct (decide (next = 0)) as [->|Hne].
  - destruct (decide (n <= S _)%nat); [by rewrite decide_True|].
    by rewrite (decide_False (P := Z.of_nat _ = 0)) by lia.
  - destruct (decide (Z.lor _ _ = 0)) as [Hc|]; [|done]. by apply Hz in Hc as [? _].
Qed.

Lemma scan_loop_run o world fuel i c keys ex :
  (forall j, scan_world (world j)) -> in_unsigned 64 c -> 16 * 2 ^ B - rank c < Z.of_nat fuel ->
  exists c' ks, scan_loop fuel world n dbi now o i c keys ex = Some (c', keys ++ ks) /\ in_unsigned 64 c' /\
    (c' = 0 \/ rank c < rank c') /\
    (forall k, rank c <= key_rank k -> c' = 0 \/ key_rank k < rank c' -> (forall j, scannable o dbi now (world j) k) -> k ∈ ks) /\
    (forall k, k ∈ ks -> exists j, seen_in o (world j) k).
Proof.
  intros Hw. revert i c keys ex. induction fuel as [|fuel IH]; intros i c keys ex Hc Hf; [pose proof (rank_range c); lia|].
  destruct (scan_visit o (world i) c keys Hc (Hw i)) as (h & ks & v & next & Hh & Hv & _ & Hn & Hpos & Hcov & Hseen).
  rewrite (scan_loop_S fuel world o i c keys ex h _ _ _ Hh Hv Hn). cbv zeta.
  destruct (next_cursor_facts c next Hn) as (Hu & Hz & Hr). set (c' := next_cursor c next) in *.
  pose proof (land_B c) as Hi. pose proof (pos_range (Z.shiftr c B)) as Hpc.
  assert (c' = 0 \/ rank c < rank c') as Hlt.
  { destruct (decide (c' = 0)); [by left|]. right. rewrite Hr by done. unfold rank. case_decide; lia. }
  assert (forall k, rank c <= key_rank k -> c' = 0 \/ key_rank k < rank c' -> scannable o dbi now (world i) k -> k ∈ ks) as Hhere.
  { intros k Hge Hend Hs. pose proof (pos_range (scan_hash k)) as Hpk. pose proof (land_B (key_hash_slot k)) as Hk. fold (home k) in Hk.
    unfold rank, key_rank in *. pose proof (pos_range next) as Hpn.
    assert (home k = Z.land c (2 ^ B - 1) /\ (next = 0 \/ pos (scan_hash k) < pos next)) as [Hhome Hbelow].
    { destruct (decide (c' = 0)) as [E|E]; [destruct (Hz E) as [-> ->]; split; [lia|by left]|].
      specialize (Hr E). destruct Hend as [|Hend]; [done|]. destruct (decide (next = 0)) as [->|Hne]; (split; [lia|]); [by left|right; lia]. }
    apply Hcov; [done|done|lia|done]. }
  destruct (decide (c' = 0)) as [E|E]; [|destruct (decide (count o <= ex + v \/ count o <= blen (keys ++ ks)))].
  - exists 0, ks. split; [done|]. split; [by vm_compute|]. split; [by left|]. split; [intros k Hge _ Hs; apply Hhere; [done|by left|apply Hs]|].
    intros k Hk. exists i. by apply Hseen.
  - exists c', ks. split; [done|]. split; [exact Hu|]. split; [exact Hlt|]. split; [intros k Hge Hend Hs; by apply Hhere|].
    intros k Hk. exists i. by apply Hseen.
  - destruct Hlt as [|Hlt]; [done|]. destruct (IH (S i) c' (keys ++ ks) (ex + v)) as (c2 & ks2 & -> & Hu2 & Hp2 & Hc2 & Hs2); [done|lia|].
    exists c2, (ks ++ ks2). rewrite app_assoc. split; [done|]. split; [exact Hu2|]. split; [|split].
    + destruct Hp2; [by left|right; lia].
    + intros k Hge Hend Hs. apply elem_of_app. destruct (decide (key_rank k < rank c')) as [Hk|Hk].
      * left. apply Hhere; [done|by right|done].
      * right. apply Hc2; [lia|done|done].
    + intros k [Hk|Hk]%elem_of_app; [exists i; by apply Hseen|by apply Hs2].
Qed.
End facts.

(** ** A full iteration *)

(** One SCAN of an iteration: its options, its clock, and the keyspace found
    at each acquisition. *)
Record ScanCall := { call_opts : ScanOptions; call_now : Z; call_world : nat -> ShardMap }.

Section iterations.
Context `{Memchr, ItoaLaws, Ryu, Fastrand, HashIterLaws, ScanHash}.
Context (B : Z) (B_range : 0 <= B <= 16) (dbi : nat).
#[local] Abbreviation n := (Z.to_nat (2 ^ B)).

Definition scan_call (c : Z) (call : ScanCall) : option (Z * list Key) :=
  scan_loop (scan_fuel n) (call_world call) n dbi (call_now call) (call_opts call) 0 c [] 0.

(** The client sends back the cursor it got until it is 0. *)
Inductive iteration : Z -> list ScanCall -> list Key -> Prop :=
| iteration_last c call keys : scan_call c call = Some (0, keys) -> iteration c [call] keys
| iteration_next c call c' keys calls keys' :
    scan_call c call = Some (c', keys) -> c' <> 0 -> iteration c' calls keys' ->
    iteration c (call :: calls) (keys ++ keys').

Definition call_ok (call : ScanCall) : Prop := forall j, scan_world B (call_world call j).
(** The key is live and passes the filters all through a call. *)
Definition throughout (k : Key) (call : ScanCall) : Prop :=
  forall j, scannable (call_opts call) dbi (call_now call) (call_world call j) k.
Definition seen_by (k : Key) (call : ScanCall) : Prop :=
  exists j, seen_in dbi (call_now call) (call_opts call) (call_world call j) k.

Lemma scan_call_run c call :
  call_ok call -> in_unsigned 64 c ->
  exists c' keys, scan_call c call = Some (c', keys) /\ in_unsigned 64 c' /\ (c' = 0 \/ rank B c < rank B c') /\
    (forall k, rank B c <= key_rank B k -> c' = 0 \/ key_rank B k < rank B c' -> throughout k call -> k ∈ keys) /\
    (forall k, k ∈ keys -> seen_by k call).
Proof.
  intros Hw Hc. pose proof (rank_range B B_range c) as Hr. pose proof (pow_B B B_range) as Hp.
  exact (scan_loop_run B B_range dbi (call_now call) (call_opts call) (call_world call) (scan_fuel n) 0 c [] 0 Hw Hc
    ltac:(unfold scan_fuel; lia)).
Qed.

Lemma iteration_run (calls : nat -> ScanCall) c s :
  (forall i, call_ok (calls i)) -> in_unsigned 64 c ->
  exists len keys, iteration c (calls <$> seq s len) keys /\ Z.of_nat len <= 16 * 2 ^ B - rank B c /\
    (forall k, rank B c <= key_rank B k -> (forall i, (i < len)%nat -> throughout k (calls (s + i)%nat)) -> k ∈ keys) /\
    (forall k, k ∈ keys -> exists i, (i < len)%nat /\ seen_by k (calls (s + i)%nat)).
Proof.
  intros Hok. remember (Z.to_nat (16 * 2 ^ B - rank B c)) as f eqn:Hf. assert (Z.to_nat (16 * 2 ^ B - rank B c) <= f)%nat as Hle by lia.
  clear Hf. revert c s Hle. induction f as [|f IH]; intros c s Hle Hc; pose proof (rank_range B B_range c) as Hr; [lia|].
  destruct (scan_call_run c (calls s) (Hok s) Hc) as (c' & keys & Hcall & Hc' & Hlt & Hcov & Hseen).
  destruct (decide (c' = 0)) as [->|Hne].
  - exists 1%nat, keys. split; [by constructor|]. split; [lia|]. split.
    + intros k Hk Ht. apply Hcov; [done|by left|]. specialize (Ht 0%nat ltac:(lia)). by rewrite Nat.add_0_r in Ht.
    + intros k Hk. exists 0%nat. rewrite Nat.add_0_r. split; [lia|by apply Hseen].
  - destruct Hlt as [|Hlt]; [done|]. destruct (IH c' (S s)) as (len & keys' & Hit & Hlen & Hcov' & Hseen'); [lia|done|].
    exists (S len), (keys ++ keys'). split; [by apply (iteration_next c (calls s) c')|]. split; [lia|]. split.
    + intros k Hk Ht. apply elem_of_app. destruct (decide (key_rank B k < rank B c')) as [Hb|Hb].
      * left. apply Hcov; [done|by right|]. specialize (Ht 0%nat ltac:(lia)). by rewrite Nat.add_0_r in Ht.
      * right. apply Hcov'; [lia|]. intros i Hi. specialize (Ht (S i) ltac:(lia)). by rewrite Nat.add_succ_r in Ht.
    + intros k [Hk|Hk]%elem_of_app; [exists 0%nat; rewrite Nat.add_0_r; split; [lia|by apply Hseen]|].
      destruct (Hseen' k Hk) as (i & Hi & Hs). exists (S i). rewrite Nat.add_succ_r. split; [lia|done].
Qed.

(** C9: A client that follows the cursors from 0 is done after at most 16
    calls per shard, whatever the other clients do to the keyspace in between
    and while a call runs, and however it varies COUNT, MATCH and TYPE.  Every
    key that is there and passes the filters throughout is returned, and only
    keys found live under the filters are. *)
Theorem scan_iteration (calls : nat -> ScanCall) :
  (forall i, call_ok (calls i)) ->
  exists len keys, iteration 0 (calls <$> seq 0 len) keys /\ Z.of_nat len <= 16 * 2 ^ B /\
    (forall k, (forall i, (i < len)%nat -> throughout k (calls i)) -> k ∈ keys) /\
    (forall k, k ∈ keys -> exists i, (i < len)%nat /\ seen_by k (calls i)).
Proof.
  intros Hok. destruct (iteration_run calls 0 0 Hok ltac:(by vm_compute)) as (len & keys & Hit & Hlen & Hcov & Hseen).
  assert (rank B 0 = 0) as Hz by (unfold rank; rewrite Z.land_0_l, Z.shiftr_0_l; reflexivity). rewrite Hz in Hlen.
  exists len, keys. split; [done|]. split; [lia|]. split; [|exact Hseen]. intros k Hk. apply Hcov; [|exact Hk].
  rewrite Hz. by apply (key_rank_range B B_range k).
Qed.

(** SCAN replies the next cursor, in the spelling it reads back, and the
    keys of [scan_loop]; it always replies, and changes nothing. *)
Theorem cmd_scan_spec (world : ShardMap -> nat -> ShardMap) args cursor o c :
  args !! 1%nat = Some (decimal cursor) -> in_unsigned 64 cursor -> parse_scan_options args 2 = inr o ->
  guards (shards c) = [] -> db_index c = dbi -> map_len (server_shards c) = n ->
  (forall j, scan_world B (world (server_shards c) j)) ->
  exists cursor' keys,
    scan_call cursor {| call_opts := o; call_now := now_ms c; call_world := world (server_shards c) |} = Some (cursor', keys) /\
    in_unsigned 64 cursor' /\ string2ull (decimal cursor') = Some cursor' /\
    cmd_scan world args c =
      (set_out (fun w => foldl (fun w k => bulk k w) (array (blen keys) (bulk (decimal cursor') (array 2 w))) keys) c, inr tt).
Proof.
  intros Ha Hc Ho Hg Hdb Hlen Hw.
  destruct (scan_call_run cursor {| call_opts := o; call_now := now_ms c; call_world := world (server_shards c) |} Hw Hc)
    as (c' & keys & Hcall & Hc' & _). exists c', keys. split; [exact Hcall|]. split; [exact Hc'|].
  assert (forall v, in_unsigned 64 v -> 0 <= v <= U64_MAX) as Hu by (intros v [? ?]; unfold U64_MAX; lia).
  split; [by apply string2ull_decimal; auto|].
  unfold cmd_scan, at_. rewrite Ha, run_ok. rewrite (proj2 (string2ull_decimal _ cursor)) by auto.
  rewrite Ho, run_ok, run_ask, Hg, decide_False by (intros []; done). rewrite !run_ask, Hdb, Hlen.
  unfold scan_call in Hcall. cbn [call_opts call_now call_world] in Hcall. rewrite Hcall.
  rewrite !bind_eq, !run_reply. unfold bulk_from. rewrite itoa_decimal; [done|]. destruct (Hu c' Hc'). unfold I64_MIN. lia.
Qed.
End iterations.

(** ** Witnesses *)

Section witnesses.
#[local] Existing Instances memchr_find itoa_model itoa_model_laws ryu_model no_draws hash_iter_model hash_iter_model_laws.
#[local] Instance scan_hash_sum : ScanHash := fun k => le_val k.

(** [k] stays while [q] comes and goes. *)
Definition with_k : ShardMap := release (shards stored) (shard_map_new 4 16).
Definition with_kq : ShardMap := release (shards (insert (bs "q") (Str (Int 1)) None stored)) (shard_map_new 4 16).
Definition busy_calls (i : nat) : ScanCall :=
  {| call_opts := {| count := 1; pattern := None; type_filter := None |}; call_now := 1000;
     call_world := fun j => if Nat.even (i + j) then with_k else with_kq |}.

Lemma busy_ok i : call_ok 2 (busy_calls i).
Proof. intros j. simpl. destruct (Nat.even _); vm_compute; split; reflexivity. Qed.

Lemma busy_k i : throughout 0 (bs "k") (busy_calls i).
Proof. intros j. simpl. destruct (Nat.even _); eexists; vm_compute; split; reflexivity. Qed.

Lemma scan_iteration_witness :
  exists len keys, iteration 2 0 0 (busy_calls <$> seq 0 len) keys /\ Z.of_nat len <= 64 /\ bs "k" ∈ keys.
Proof.
  destruct (scan_iteration 2 ltac:(lia) 0 busy_calls busy_ok) as (len & keys & Hit & Hlen & Hall & _).
  exists len, keys. split; [exact Hit|split; [exact Hlen|]]. apply Hall. intros i _. apply busy_k.
Defined.

Definition scan_ctx : Ctx :=
  ctx_new {| buf := []; proto := RESP2 |} (client_new 1 [] [] 0 false) demo_shared
    {| guards := []; g_mask := 3 |} demo_config 1000 with_k.

Lemma cmd_scan_spec_witness :
  exists cursor keys, string2ull (decimal cursor) = Some cursor /\
    cmd_scan (fun m _ => m) [bs "scan"; bs "0"] scan_ctx =
      (set_out (fun w => foldl (fun w k => bulk k w) (array (blen keys) (bulk (decimal cursor) (array 2 w))) keys) scan_ctx, inr tt).
Proof.
  destruct (cmd_scan_spec 2 ltac:(lia) 0 (fun m _ => m) [bs "scan"; bs "0"] 0 scan_default scan_ctx) as (cursor & keys & _ & _ & Hr & E);
    [reflexivity|by vm_compute|reflexivity|reflexivity|reflexivity|vm_compute; reflexivity|intros j; vm_compute; split; reflexivity|].
  exists cursor, keys. split; [exact Hr|exact E].
Defined.
End witnesses.
