(* ===== verification/Dump.v ===== *)
(** * DUMP and RESTORE, and the table of generic commands ([src/command/generic.rs])

    The footer around a serialized value (RDB version and CRC64), the two
    commands, and the specifications [register] adds.  The serialization of
    the value itself is the installed [ValueCodec]. *)
From S2P Require Import Prelude Config Crc Strnum Glob Object Shard Errors Reply Notify Commands Dtoa Client Registry Ctx StringCmd Views Dispatch Generic Sort GenericFacts Scan.
Open Scope Z_scope.

(** ** The footer *)

Definition DUMP_RDB_VERSION : Z := 11.
Definition DUMP_FOOTER_LEN : nat := 10.

Definition seal_dump (body : bytes) : bytes :=
  let body := body ++ le_bytes 2 DUMP_RDB_VERSION in
  body ++ le_bytes 8 (digest body).

Definition verify_dump (buf : bytes) : option bytes :=
  if decide (length buf < DUMP_FOOTER_LEN)%nat then None
  else
    let split := (length buf - DUMP_FOOTER_LEN)%nat in
    let body := take split buf in
    let footer := drop split buf in
    let version := le_val (take 2 footer) in
    if decide (DUMP_RDB_VERSION < version) then None
    else
      let stored := le_val (take 8 (drop 2 footer)) in
      let computed := digest (take (length buf - 8) buf) in
      if decide (stored <> computed) then None else Some body.

(** ** The commands *)

Section dump.
Context `{Memchr, Itoa, Ryu, Fastrand, HashIter, ScanHash} (value_codec : option ValueCodec).

Definition no_codec : CmdError := err (bs "DUMP/RESTORE requires the RDB serializer, which is not loaded").

Definition cmd_dump : CmdHandler := fun args =>
  key ← try_ (key_at args 1);
  o ← call (lookup_read key);
  match o with
  | None => reply null
  | Some o =>
      match value_codec with
      | None => fail no_codec
      | Some codec =>
          match codec_dump codec o with
          | None => fail no_codec
          | Some body => reply (bulk (seal_dump body))
          end
      end
  end.

Record RestoreOptions := { replace : bool; absttl : bool; idletime : option Z; freq : option Z }.

Definition restore_default : RestoreOptions := {| replace := false; absttl := false; idletime := None; freq := None |}.

Fixpoint restore_options (toks : list bytes) (o : RestoreOptions) : CmdError + RestoreOptions :=
  match toks with
  | [] => inr o
  | tok :: toks =>
      if is_tok tok (bs "REPLACE") then
        restore_options toks {| replace := true; absttl := absttl o; idletime := idletime o; freq := freq o |}
      else if is_tok tok (bs "ABSTTL") then
        restore_options toks {| replace := replace o; absttl := true; idletime := idletime o; freq := freq o |}
      else if is_tok tok (bs "IDLETIME") then
        match toks with
        | [] => inl Syntax
        | arg :: toks =>
            match i64_at [arg] 0 with
            | inl e => inl e
            | inr v =>
                if decide (v < 0) then inl (err (bs "Invalid IDLETIME value, must be >= 0"))
                else restore_options toks {| replace := replace o; absttl := absttl o; idletime := Some v; freq := freq o |}
            end
        end
      else if is_tok tok (bs "FREQ") then
        match toks with
        | [] => inl Syntax
        | arg :: toks =>
            match i64_at [arg] 0 with
            | inl e => inl e
            | inr v =>
                if decide (0 <= v <= 255)
                then restore_options toks {| replace := replace o; absttl := absttl o; idletime := idletime o; freq := Some v |}
                else inl (err (bs "Invalid FREQ value, must be >= 0 and <= 255"))
            end
        end
      else inl Syntax
  end.

Definition set_lru_raw (key : Key) (value : Z) (c : Ctx) : Ctx :=
  upd_key_db key (fun d => with_dict
    (alter (fun e => {| obj := obj e; expire_at_ms := expire_at_ms e; lru := value |}) key (dict d)) (expires d) d) c.

Definition restore_deadline (ttl : Z) (absttl : bool) (now : Z) : option Z :=
  if decide (ttl = 0) then None
  else if absttl then Some (wrapu 64 ttl) else Some (wrapu 64 (saturating_add (wraps 64 now) ttl)).

(** IDLETIME and FREQ seed the clock word of the entry. *)
Definition restore_lru (o : RestoreOptions) (now : Z) : option Z :=
  match idletime o, freq o with
  | Some v, _ => Some (clock (Z.max 0 (now - Z.min U64_MAX (v * 1000))))
  | None, Some v => Some (Z.lor (Z.shiftl (lfu_clock now) 8) (Z.land (wrapu 32 v) 255))
  | None, None => None
  end.

Definition busykey : CmdError := custom (bs "BUSYKEY") (bs "Target key name already exists.").

Definition cmd_restore : CmdHandler := fun args =>
  key ← try_ (key_at args 1);
  ttl ← try_ (i64_at args 2);
  payload ← try_ (at_ args 3);
  o ← try_ (restore_options (drop 4 args) restore_default);
  if decide (ttl < 0) then fail (err (bs "Invalid TTL value, must be >= 0"))
  else
    m ← ask server_shards;
    conf ← ask cfg;
    try_ (check_oom m conf);;
    ex ← call (exists_ key);
    if ex && negb (replace o) then fail busykey
    else
      match verify_dump payload with
      | None => fail (err (bs "DUMP payload version or checksum are wrong"))
      | Some body =>
          match value_codec with
          | None => fail no_codec
          | Some codec =>
              match codec_restore codec body with
              | None => fail (err (bs "Bad data format"))
              | Some obj =>
                  now ← ask now_ms;
                  let expire_at := restore_deadline ttl (absttl o) now in
                  do_ (insert key obj expire_at);;
                  do_ (match restore_lru o now with Some v => set_lru_raw key v | None => id end);;
                  do_ (notify GENERIC (bs "restore") key);;
                  do_ (match absttl o, expire_at with
                       | false, Some at_ =>
                           propagate_argv ([bs "RESTORE"; key; itoa_format at_; payload] ++
                             (if replace o then [bs "REPLACE"] else []) ++ [bs "ABSTTL"])
                       | _, _ => id
                       end);;
                  reply ok
              end
          end
      end.

(** ** [register] *)

Context (world : ShardMap -> nat -> ShardMap).

Definition spec1 (nm : bytes) (ar flags first last step : Z) (h : CmdHandler) : CommandSpec CmdHandler :=
  {| name := nm; arity := ar; Commands.flags := flags; first_key := first; last_key := last; key_step := step;
     handler := h; get_keys := None |}.

Definition generic_specs : list (CommandSpec CmdHandler) := [
  spec1 (bs "del") (-2) WRITE 1 (-1) 1 cmd_del;
  spec1 (bs "unlink") (-2) (Z.lor WRITE FAST) 1 (-1) 1 cmd_del;
  spec1 (bs "exists") (-2) (Z.lor READONLY FAST) 1 (-1) 1 cmd_exists;
  spec1 (bs "type") 2 (Z.lor READONLY FAST) 1 1 1 cmd_type;
  spec1 (bs "touch") (-2) (Z.lor READONLY FAST) 1 (-1) 1 cmd_touch;
  spec1 (bs "ttl") 2 (Z.lor READONLY FAST) 1 1 1 cmd_ttl;
  spec1 (bs "pttl") 2 (Z.lor READONLY FAST) 1 1 1 cmd_pttl;
  spec1 (bs "expiretime") 2 (Z.lor READONLY FAST) 1 1 1 cmd_expiretime;
  spec1 (bs "pexpiretime") 2 (Z.lor READONLY FAST) 1 1 1 cmd_pexpiretime;
  spec1 (bs "persist") 2 (Z.lor WRITE FAST) 1 1 1 cmd_persist;
  spec1 (bs "expire") (-3) (Z.lor WRITE FAST) 1 1 1 cmd_expire;
  spec1 (bs "pexpire") (-3) (Z.lor WRITE FAST) 1 1 1 cmd_pexpire;
  spec1 (bs "expireat") (-3) (Z.lor WRITE FAST) 1 1 1 cmd_expireat;
  spec1 (bs "pexpireat") (-3) (Z.lor WRITE FAST) 1 1 1 cmd_pexpireat;
  spec1 (bs "rename") 3 WRITE 1 2 1 cmd_rename;
  spec1 (bs "renamenx") 3 (Z.lor WRITE FAST) 1 2 1 cmd_renamenx;
  spec1 (bs "copy") (-3) (Z.lor WRITE DENYOOM) 1 2 1 (cmd_copy value_codec);
  spec1 (bs "move") 3 (Z.lor WRITE FAST) 1 1 1 cmd_move;
  spec1 (bs "keys") 2 (Z.lor READONLY ALL_SHARDS) 0 0 0 cmd_keys;
  spec1 (bs "randomkey") 1 (Z.lor READONLY ALL_SHARDS) 0 0 0 cmd_randomkey;
  spec1 (bs "scan") (-2) (Z.lor READONLY NO_MULTI) 0 0 0 (cmd_scan world);
  spec1 (bs "object") (-2) READONLY 2 2 1 cmd_object;
  spec1 (bs "dump") 2 READONLY 1 1 1 cmd_dump;
  spec1 (bs "restore") (-4) (Z.lor WRITE DENYOOM) 1 1 1 cmd_restore;
  sort_spec; sort_ro_spec].
End dump.
