(* ===== verification/DumpFacts.v ===== *)
(** * Facts about DUMP and RESTORE ([src/command/generic.rs])

    A payload is accepted exactly when it is a code word of the CRC64 with a
    version that is not too new, so a payload comes back from its own footer
    and no corruption confined to eight bytes goes unseen; RESTORE on every
    branch, and its replay from the log. *)
From S2P Require Import Prelude Config Crc Strnum Glob Object Shard Errors Reply Notify Commands Dtoa Client Registry Ctx StringCmd Views Dispatch Generic GenericFacts Scan Dump.
Open Scope Z_scope.

(** ** The footer *)

Lemma verify_dump_iff buf body :
  verify_dump buf = Some body <->
  exists footer, buf = body ++ footer /\ length footer = DUMP_FOOTER_LEN /\ le_val (take 2 footer) <= DUMP_RDB_VERSION /\ digest buf = 0.
Proof.
  assert (forall x w, length w = 8%nat -> digest (x ++ w) = 0 <-> le_val w = digest x) as Hres.
  { intros x w Hw. unfold digest. rewrite crc64_app. apply crc64_residue; [by apply crc64_range|done]. }
  unfold verify_dump, DUMP_FOOTER_LEN. destruct (decide (length buf < 10)%nat) as [Hl|Hl].
  { split; [done|]. intros (f & -> & Hf & _). rewrite length_app in Hl. lia. }
  set (split := (length buf - 10)%nat). cbv zeta.
  assert (buf = take split buf ++ drop split buf) as Hb by by rewrite take_drop.
  assert (length (drop split buf) = 10%nat) as Hf by (rewrite length_drop; unfold split; lia).
  assert (length (drop 2 (drop split buf)) = 8%nat) as Hd by (rewrite length_drop; lia).
  rewrite (take_ge (drop 2 _)) by lia.
  assert (take (length buf - 8) buf ++ drop 2 (drop split buf) = buf) as Hc.
  { rewrite drop_drop. replace (split + 2)%nat with (length buf - 8)%nat by (unfold split; lia). apply take_drop. }
  pose proof (Hres (take (length buf - 8) buf) _ Hd) as Hr. rewrite Hc in Hr. split.
  - destruct (decide (DUMP_RDB_VERSION < _)); [done|]. destruct (decide (_ <> _)) as [|Heq]; [done|]. intros [= <-].
    exists (drop split buf). split_and!; [exact Hb|done|lia|]. apply Hr. destruct (decide (le_val (drop 2 (drop split buf)) = digest (take (length buf - 8) buf))); tauto.
  - intros (f & E & Hfl & Hv & Hz). assert (body ++ f = take split buf ++ drop split buf) as Hs by by rewrite take_drop.
    apply app_inj_2 in Hs as [Hb1 Hb2]; [|lia]. rewrite <-Hb1, <-Hb2 in *. rewrite decide_False by lia.
    destruct (decide (_ <> _)) as [Hn|_]; [exfalso; apply Hn; by apply Hr|done].
Qed.

Lemma seal_dump_code body : digest (seal_dump body) = 0.
Proof.
  unfold seal_dump, digest. rewrite crc64_app. apply crc64_residue; [by apply crc64_range|apply le_bytes_length|].
  apply le_unsigned_le_bytes. by apply crc64_range.
Qed.

Lemma verify_seal body : verify_dump (seal_dump body) = Some body.
Proof.
  apply verify_dump_iff. exists (le_bytes 2 DUMP_RDB_VERSION ++ le_bytes 8 (digest (body ++ le_bytes 2 DUMP_RDB_VERSION))).
  split; [unfold seal_dump; by rewrite <-app_assoc|]. split; [by rewrite length_app, !le_bytes_length|].
  split; [by rewrite take_app_le|apply seal_dump_code].
Qed.

(** A sealed payload is verified and opened to exactly what was sealed,
    and damage confined to a window of at most eight bytes, in the value, in
    the version or in the checksum itself, is always refused. *)
Theorem dump_footer_guards body pre u v post :
  verify_dump (seal_dump body) = Some body /\
  (seal_dump body = pre ++ u ++ post -> length v = length u -> (length u <= 8)%nat -> v <> u ->
   verify_dump (pre ++ v ++ post) = None).
Proof.
  split; [apply verify_seal|]. intros E Hl H8 Hne. destruct (verify_dump (pre ++ v ++ post)) as [x|] eqn:Ev; [|done].
  apply verify_dump_iff in Ev as (_ & _ & _ & _ & Hz). exfalso.
  apply (crc64_burst 0 pre v u post); [by split|done|lia|done|].
  change (digest (pre ++ v ++ post) = digest (pre ++ u ++ post)). by rewrite Hz, <-E, seal_dump_code.
Qed.

(** ** The commands *)

Section facts.
Context `{Memchr, ItoaLaws, Ryu, FastrandLaws, HashIterLaws, ScanHash} (value_codec : option ValueCodec).

Lemma set_lru_raw_settled key v c : settled c (set_lru_raw key v c).
Proof.
  assert (local_to key (fun d => with_dict (alter (fun e => {| obj := obj e; expire_at_ms := expire_at_ms e; lru := v |}) key (dict d)) (expires d) d))
    as Hl by by apply upd_entry_local.
  unfold set_lru_raw, upd_key_db. split; [by apply (edit_moved (db_index c))|]. intros n k.
  unfold view_at. rewrite (edit_entry (db_index c) key _ _ c n k) by done.
  destruct (decide (n = db_index c /\ key = k)) as [[-> <-]|]; [|done]. unfold entry_at.
  destruct (db_at (db_index c) key c) as [d|]; [|done]. cbn [mbind option_bind dict with_dict]. rewrite lookup_alter_eq.
  by destruct (dict d !! key).
Qed.

(** DUMP replies the sealed serialization of the live value, null for a
    key that is not there, an error without a codec or for a value it cannot
    write; nothing changes. *)
Theorem cmd_dump_spec args key c :
  args !! 1%nat = Some key ->
  let '(c', r) := cmd_dump value_codec args c in
  dirty c' = dirty c /\ (forall n k, view_at n k c' = view_at n k c) /\
  match view key c with
  | None => r = inr tt /\ out c' = null (out c)
  | Some (o, _) =>
      match codec ← value_codec; codec_dump codec o with
      | Some body => r = inr tt /\ out c' = bulk (seal_dump body) (out c)
      | None => r = inl no_codec /\ out c' = out c
      end
  end.
Proof.
  intros Hk. unfold cmd_dump, key_at, at_. rewrite Hk. run. destruct (lookup_read_run key c) as [[Hm Hv] ->].
  pose proof (m_dirty _ _ _ Hm) as Hd. pose proof (m_out _ _ _ Hm) as Ho.
  destruct (view key c) as [[o a]|]; cbn [fmap option_fmap option_map fst].
  2: { rewrite run_reply. cbn [out dirty set_out]. rewrite Ho. split_and!; [lia|exact Hv|done|done]. }
  destruct value_codec as [codec|]; cbn [mbind option_bind]; [destruct (codec_dump codec o)|];
    rewrite ?run_reply, ?run_fail; cbn [out dirty set_out]; rewrite Ho; (split_and!; [lia|exact Hv|done|done]).
Qed.

(** What RESTORE logs: itself with the absolute deadline. *)
Definition restore_log (key payload : bytes) (o : RestoreOptions) (at_ : option Z) : option (list bytes) :=
  match absttl o, at_ with
  | false, Some at_ =>
      Some ([bs "RESTORE"; key; itoa_format at_; payload] ++ (if replace o then [bs "REPLACE"] else []) ++ [bs "ABSTTL"])
  | _, _ => None
  end.

Lemma cmd_restore_run args key ttl payload o body codec v c :
  args !! 1%nat = Some key -> i64_at args 2 = inr ttl -> args !! 3%nat = Some payload ->
  restore_options (drop 4 args) restore_default = inr o -> 0 <= ttl -> check_oom (server_shards c) (cfg c) = inr tt ->
  verify_dump payload = Some body -> value_codec = Some codec -> codec_restore codec body = Some v -> covered key c ->
  let at_ := restore_deadline ttl (absttl o) (now_ms c) in
  let '(c', r) := cmd_restore value_codec args c in
  if bool_decide (is_Some (view key c)) && negb (replace o)
  then r = inl busykey /\ settled c c'
  else r = inr tt /\ out c' = ok (out c) /\ dirty c' = dirty c + 1 /\
    match restore_log key payload o at_ with
    | Some log => prop c' = Explicit /\ prop_buf c' = prop_buf c ++ (if is_propagating (server c) then [log] else [])
    | None => prop c' = prop c /\ prop_buf c' = prop_buf c
    end /\
    forall n k, view_at n k c' = if decide (n = db_index c /\ key = k) then redated at_ (now_ms c) (Some (v, at_)) else view_at n k c.
Proof.
  intros Hk Ht Hp Ho Hpos Hoom Hver Hcodec Hv Hcov. cbv zeta. unfold cmd_restore, key_at.
  unfold at_ at 1 2. rewrite Hk, Ht, Hp, Ho. run.
  rewrite decide_False by lia. run. rewrite Hoom. run. destruct (exists_run key c) as (Hst & -> & _).
  set (c1 := (exists_ key c).1) in *. destruct (bool_decide (is_Some (view key c)) && negb (replace o)).
  { by rewrite run_fail. }
  rewrite Hver, Hcodec, Hv. run. pose proof (m_framed _ _ _ (st_moved _ _ Hst)) as Hf. rewrite (f_now _ _ Hf).
  set (at_ := restore_deadline ttl (absttl o) (now_ms c)).
  destruct (insert_run key v at_ c1) as [Hm2 Hv2].
  { rewrite (db_index_framed _ _ Hf). apply (covered_framed (db_index c) key c c1 Hf). exact Hcov. }
  set (c2 := insert key v at_ c1) in *.
  assert (settled c2 (match restore_lru o (now_ms c) with Some v => set_lru_raw key v | None => id end c2)) as Hs3.
  { destruct (restore_lru o (now_ms c)); [apply set_lru_raw_settled|done]. }
  set (c3 := match restore_lru o (now_ms c) with Some v => set_lru_raw key v | None => id end c2) in *.
  pose proof (notify_settled GENERIC (bs "restore") key c3) as Hs4. set (c4 := notify _ _ _ c3) in *.
  pose proof (transitivity Hs3 Hs4) as Hs24. destruct Hst as [Hm1 Hv1], Hs24 as [Hm24 Hv24].
  pose proof (moved_trans _ _ _ _ _ (moved_trans _ _ _ _ _ Hm1 Hm2) Hm24) as Hm.
  assert (forall n k, view_at n k c4 = if decide (n = db_index c /\ key = k) then redated at_ (now_ms c) (Some (v, at_)) else view_at n k c) as Hview.
  { intros n k. rewrite Hv24, Hv2, (db_index_framed _ _ Hf), (f_now _ _ Hf), Hv1. done. }
  rewrite run_reply. cbn [out dirty prop prop_buf set_out]. unfold restore_log.
  assert (is_propagating (server c4) = is_propagating (server c)) as Hpr by apply (m_framed _ _ _ Hm).
  destruct (absttl o) eqn:Ea, at_ as [t|] eqn:Et;
    try (unfold id; rewrite (m_out _ _ _ Hm), (m_dirty _ _ _ Hm), (m_prop _ _ _ Hm), (m_prop_buf _ _ _ Hm); split_and!; [done|done|lia|done|done|exact Hview]).
  destruct (propagate_run ([bs "RESTORE"; key; itoa_format t; payload] ++ (if replace o then [bs "REPLACE"] else []) ++ [bs "ABSTTL"]) c4)
    as (_ & Hv5 & Ho5 & Hd5 & _ & Hp5 & Hb5).
  fold (ctx_propagate ([bs "RESTORE"; key; itoa_format t; payload] ++ (if replace o then [bs "REPLACE"] else []) ++ [bs "ABSTTL"]) c4).
  rewrite Ho5, Hd5, Hp5, Hb5, Hpr, (m_out _ _ _ Hm), (m_dirty _ _ _ Hm), (m_prop_buf _ _ _ Hm).
  split_and!; [done|done|lia|done|done|]. intros n k. change (view_at n k (set_out ?f ?x)) with (view_at n k x). by rewrite Hv5, Hview.
Qed.

(** RESTORE of a valid payload: BUSYKEY and nothing changed when the key
    is live and REPLACE is not given; otherwise the value is stored with the
    deadline asked for, one modification is counted, what is logged carries
    the absolute deadline, and every other key is as it was. *)
Theorem cmd_restore_spec args key ttl payload o body codec v c :
  args !! 1%nat = Some key -> i64_at args 2 = inr ttl -> args !! 3%nat = Some payload ->
  restore_options (drop 4 args) restore_default = inr o -> 0 <= ttl -> check_oom (server_shards c) (cfg c) = inr tt ->
  verify_dump payload = Some body -> value_codec = Some codec -> codec_restore codec body = Some v -> covered key c ->
  let at_ := restore_deadline ttl (absttl o) (now_ms c) in
  let '(c', r) := cmd_restore value_codec args c in
  if bool_decide (is_Some (view key c)) && negb (replace o)
  then r = inl busykey /\ settled c c'
  else r = inr tt /\ out c' = ok (out c) /\ dirty c' = dirty c + 1 /\
    match restore_log key payload o at_ with
    | Some log => prop c' = Explicit /\ prop_buf c' = prop_buf c ++ (if is_propagating (server c) then [log] else [])
    | None => prop c' = prop c /\ prop_buf c' = prop_buf c
    end /\
    forall n k, view_at n k c' = if decide (n = db_index c /\ key = k) then redated at_ (now_ms c) (Some (v, at_)) else view_at n k c.
Proof. apply cmd_restore_run. Qed.

(** A refused RESTORE changes nothing: a damaged payload, one the codec
    cannot read, or a missing codec is answered with its error, the views,
    the reply and the count of modifications as they were. *)
Theorem cmd_restore_refused args key ttl payload o c e :
  args !! 1%nat = Some key -> i64_at args 2 = inr ttl -> args !! 3%nat = Some payload ->
  restore_options (drop 4 args) restore_default = inr o -> 0 <= ttl -> check_oom (server_shards c) (cfg c) = inr tt ->
  view key c = None \/ replace o = true ->
  e = match verify_dump payload, value_codec with
      | None, _ => err (bs "DUMP payload version or checksum are wrong")
      | Some _, None => no_codec
      | Some _, Some _ => err (bs "Bad data format")
      end ->
  (body ← verify_dump payload; codec ← value_codec; codec_restore codec body) = None ->
  let '(c', r) := cmd_restore value_codec args c in r = inl e /\ settled c c'.
Proof.
  intros Hk Ht Hp Ho Hpos Hoom Hfree -> Hnone. unfold cmd_restore, key_at.
  unfold at_ at 1 2. rewrite Hk, Ht, Hp, Ho. run. rewrite decide_False by lia. run. rewrite Hoom. run.
  destruct (exists_run key c) as (Hst & -> & _). set (c1 := (exists_ key c).1) in *.
  assert (bool_decide (is_Some (view key c)) && negb (replace o) = false) as ->.
  { destruct Hfree as [-> | ->]; [by rewrite bool_decide_false by (by intros [])|apply andb_false_r]. }
  destruct (verify_dump payload) as [body|]; [|by rewrite run_fail]. destruct value_codec as [codec|]; [|by rewrite run_fail].
  cbn [mbind option_bind] in Hnone. rewrite Hnone. by rewrite run_fail.
Qed.

Lemma restore_deadline_range ttl absolute now t :
  0 <= ttl <= I64_MAX -> 0 <= now <= I64_MAX -> restore_deadline ttl absolute now = Some t ->
  0 < t <= I64_MAX /\ t = if absolute then ttl else Z.min I64_MAX (now + ttl).
Proof.
  intros Ht Hn. unfold restore_deadline, saturating_add. case_decide; [done|].
  rewrite (wraps_small 64 now) by (done || (unfold I64_MAX in *; split; lia)).
  destruct absolute; intros [= <-]; rewrite wrapu_small by (done || (unfold in_unsigned, I64_MIN, I64_MAX in *; lia));
    unfold I64_MIN, I64_MAX in *; split; lia.
Qed.

(** What a RESTORE with a relative TTL logs replays to the same value with
    the same absolute deadline, whatever the clock of the replica. *)
Theorem restore_replay key ttl payload o body codec v now log c :
  0 < ttl <= I64_MAX -> 0 <= now <= I64_MAX ->
  restore_log key payload o (restore_deadline ttl (absttl o) now) = Some log ->
  check_oom (server_shards c) (cfg c) = inr tt -> verify_dump payload = Some body ->
  value_codec = Some codec -> codec_restore codec body = Some v -> covered key c -> view key c = None \/ replace o = true ->
  let t := Z.min I64_MAX (now + ttl) in
  let '(c', r) := cmd_restore value_codec log c in
  r = inr tt /\ prop_buf c' = prop_buf c /\
  forall n k, view_at n k c' = if decide (n = db_index c /\ key = k) then redated (Some t) (now_ms c) (Some (v, Some t)) else view_at n k c.
Proof.
  intros Ht Hn Hlog Hoom Hver Hcodec Hv Hcov Hfree. cbv zeta. unfold restore_log in Hlog. destruct (absttl o) eqn:Ea; [done|].
  destruct (restore_deadline ttl false now) as [t|] eqn:Ed; [|done].
  destruct (restore_deadline_range ttl false now t ltac:(lia) Hn Ed) as [Hr Et]. cbv iota in Et. rewrite <-Et. injection Hlog as <-.
  set (o2 := {| replace := replace o; absttl := true; idletime := None; freq := None |}).
  pose proof (cmd_restore_run ([bs "RESTORE"; key; itoa_format t; payload] ++ (if replace o then [bs "REPLACE"] else []) ++ [bs "ABSTTL"])
    key t payload o2 body codec v c) as Hrun.
  assert (i64_at ([bs "RESTORE"; key; itoa_format t; payload] ++ (if replace o then [bs "REPLACE"] else []) ++ [bs "ABSTTL"]) 2 = inr t) as Hi.
  { unfold i64_at. change (at_ _ 2) with (inr (itoa_format t) : CmdError + bytes). cbv iota. rewrite itoa_decimal by (unfold I64_MIN, U64_MAX, I64_MAX in *; lia).
    by rewrite string2ll_complete by (unfold I64_MIN; lia). }
  cbv zeta in Hrun. specialize (Hrun eq_refl Hi eq_refl ltac:(unfold o2; by destruct (replace o)) ltac:(lia) Hoom Hver Hcodec Hv Hcov).
  destruct (cmd_restore value_codec _ c) as [c' r].
  assert (bool_decide (is_Some (view key c)) && negb (replace o2) = false) as E.
  { destruct Hfree as [-> |Hre]; [by rewrite bool_decide_false by (by intros [])|]. unfold o2. cbn [replace]. rewrite Hre. apply andb_false_r. }
  rewrite E in Hrun. destruct Hrun as (-> & _ & _ & [_ Hb] & Hview).
  assert (restore_deadline t true (now_ms c) = Some t) as Edl.
  { unfold restore_deadline. rewrite decide_False by lia. by rewrite wrapu_small by (unfold in_unsigned, I64_MAX in *; lia). }
  unfold o2 in Hview. cbn [absttl] in Hview. rewrite Edl in Hview. done.
Qed.

(** C32: What DUMP replies for a key, RESTORE stores again: under the codec's
    law the value that was dumped is back, under the name and with the TTL the
    second command gives, in any context, at any later time. *)
Theorem dump_restore codec key v a c args2 key2 ttl o c2 body :
  codec_laws codec -> value_codec = Some codec -> view key c = Some (v, a) -> codec_dump codec v = Some body ->
  args2 !! 1%nat = Some key2 -> i64_at args2 2 = inr ttl -> args2 !! 3%nat = Some (seal_dump body) ->
  restore_options (drop 4 args2) restore_default = inr o -> 0 <= ttl -> check_oom (server_shards c2) (cfg c2) = inr tt ->
  covered key2 c2 -> view key2 c2 = None \/ replace o = true ->
  let at_ := restore_deadline ttl (absttl o) (now_ms c2) in
  out (cmd_dump value_codec [bs "DUMP"; key] c).1 = bulk (seal_dump body) (out c) /\
  view_at (db_index c2) key2 (cmd_restore value_codec args2 c2).1 = redated at_ (now_ms c2) (Some (v, at_)).
Proof.
  intros [Hlaw _] Hcodec Hview Hdump Hk Ht Hp Ho Hpos Hoom Hcov Hfree. cbv zeta. split.
  - unfold cmd_dump, key_at. change (at_ [bs "DUMP"; key] 1) with (inr key : CmdError + bytes). run. destruct (lookup_read_run key c) as [[Hm _] ->].
    rewrite Hview, Hcodec. cbn [fmap option_fmap option_map fst]. rewrite Hdump, run_reply. cbn [fst out set_out]. by rewrite (m_out _ _ _ Hm).
  - pose proof (cmd_restore_run args2 key2 ttl (seal_dump body) o body codec v c2 Hk Ht Hp Ho Hpos Hoom (verify_seal body) Hcodec
      (Hlaw v body Hdump) Hcov) as Hrun. cbv zeta in Hrun. destruct (cmd_restore value_codec args2 c2) as [c' r].
    assert (bool_decide (is_Some (view key2 c2)) && negb (replace o) = false) as E.
    { destruct Hfree as [-> | ->]; [by rewrite bool_decide_false by (by intros [])|apply andb_false_r]. }
    rewrite E in Hrun. destruct Hrun as (_ & _ & _ & _ & Hv). cbn [fst]. by rewrite Hv, decide_True.
Qed.
End facts.

(** ** Witnesses *)

Section witnesses.
#[local] Existing Instances memchr_find itoa_model itoa_model_laws ryu_model no_draws hash_iter_model hash_iter_model_laws.
#[local] Instance no_draws_laws : FastrandLaws.
Proof. split; [intros; simpl; lia|intros; by vm_compute]. Qed.

(** A codec for strings only: a type byte and the bytes. *)
Definition string_codec : ValueCodec :=
  {| codec_dump o := match o with Str (Str_ s true) => Some (x00 :: s) | _ => None end;
     codec_restore b := match b with x00 :: s => Some (Str (Str_ s true)) | _ => None end;
     codec_duplicate o := Some o |}.

Lemma string_codec_laws : codec_laws string_codec.
Proof. split; [intros [[|? []]| | | | |] b; cbn; [done|by intros [= <-]|done..]|by intros o o' [= ->]]. Qed.

Definition dumped : bytes := Eval vm_compute in seal_dump (x00 :: bs "v").

Lemma dump_footer_guards_witness :
  length dumped = 12%nat /\ verify_dump (take 10 dumped ++ [x01; x02]) = None.
Proof.
  split; [reflexivity|].
  pose proof (proj2 (dump_footer_guards (x00 :: bs "v") (take 10 dumped) (drop 10 dumped) [x01; x02] [])) as E.
  rewrite (app_nil_r [x01; x02]) in E. apply E; [vm_compute; reflexivity|reflexivity|vm_compute; lia|vm_compute; discriminate].
Defined.

Lemma cmd_dump_spec_witness :
  out (cmd_dump (Some string_codec) [bs "DUMP"; bs "nokey"] demo_ctx).1 = null (out demo_ctx).
Proof.
  pose proof (cmd_dump_spec (Some string_codec) [bs "DUMP"; bs "nokey"] (bs "nokey") demo_ctx eq_refl) as E.
  destruct (cmd_dump _ _ _) as [c' r]. destruct E as (_ & _ & E). exact (proj2 E).
Defined.

Definition restore_args : Args := [bs "RESTORE"; bs "k"; bs "500"; dumped; bs "REPLACE"].
Definition restore_o : RestoreOptions := {| replace := true; absttl := false; idletime := None; freq := None |}.

Lemma demo_covers : covered (bs "k") demo_ctx.
Proof. vm_compute. eauto. Qed.

Lemma cmd_restore_spec_witness :
  view_at 0 (bs "k") (cmd_restore (Some string_codec) restore_args demo_ctx).1 = Some (Str (Str_ (bs "v") true), Some 1500).
Proof.
  pose proof (cmd_restore_spec (Some string_codec) restore_args (bs "k") 500 dumped restore_o (x00 :: bs "v") string_codec
    (Str (Str_ (bs "v") true)) demo_ctx eq_refl eq_refl eq_refl eq_refl ltac:(lia) eq_refl ltac:(vm_compute; reflexivity) eq_refl eq_refl
    demo_covers) as E.
  cbv zeta in E. destruct (cmd_restore _ _ _) as [c' r]. destruct E as (_ & _ & _ & _ & Hv). cbn [fst]. rewrite Hv. vm_compute. reflexivity.
Defined.

Lemma cmd_restore_refused_witness :
  (cmd_restore (Some string_codec) [bs "RESTORE"; bs "k"; bs "0"; bs "0123456789"] demo_ctx).2 =
  inl (err (bs "DUMP payload version or checksum are wrong")).
Proof.
  pose proof (cmd_restore_refused (Some string_codec) [bs "RESTORE"; bs "k"; bs "0"; bs "0123456789"] (bs "k") 0 (bs "0123456789")
    restore_default demo_ctx _ eq_refl eq_refl eq_refl eq_refl ltac:(lia) eq_refl ltac:(left; reflexivity) eq_refl eq_refl) as E.
  destruct (cmd_restore _ _ _) as [c' r]. exact (proj1 E).
Defined.

Lemma restore_replay_witness :
  view_at 0 (bs "k") (cmd_restore (Some string_codec) [bs "RESTORE"; bs "k"; bs "1500"; dumped; bs "REPLACE"; bs "ABSTTL"] demo_ctx).1 =
  Some (Str (Str_ (bs "v") true), Some 1500).
Proof.
  assert (restore_log (bs "k") dumped restore_o (restore_deadline 500 (absttl restore_o) 1000) =
    Some [bs "RESTORE"; bs "k"; bs "1500"; dumped; bs "REPLACE"; bs "ABSTTL"]) as Hlog by (vm_compute; reflexivity).
  pose proof (restore_replay (Some string_codec) (bs "k") 500 dumped restore_o (x00 :: bs "v") string_codec
    (Str (Str_ (bs "v") true)) 1000 [bs "RESTORE"; bs "k"; bs "1500"; dumped; bs "REPLACE"; bs "ABSTTL"] demo_ctx
    ltac:(unfold I64_MAX; lia) ltac:(unfold I64_MAX; lia) Hlog eq_refl ltac:(vm_compute; reflexivity) eq_refl eq_refl demo_covers
    ltac:(by right)) as E.
  cbv zeta in E. destruct (cmd_restore _ _ _) as [c' r]. destruct E as (_ & _ & Hv). cbn [fst]. rewrite Hv. vm_compute. reflexivity.
Defined.

Definition raw_ctx : Ctx := insert (bs "k") (Str (Str_ (bs "v") true)) None demo_ctx.

Lemma dump_restore_witness :
  out (cmd_dump (Some string_codec) [bs "DUMP"; bs "k"] raw_ctx).1 = bulk dumped (out raw_ctx) /\
  view_at 0 (bs "k") (cmd_restore (Some string_codec) restore_args demo_ctx).1 = Some (Str (Str_ (bs "v") true), Some 1500).
Proof.
  assert (seal_dump (x00 :: bs "v") = dumped) as Es by (vm_compute; reflexivity).
  pose proof (dump_restore (Some string_codec) string_codec (bs "k") (Str (Str_ (bs "v") true)) None raw_ctx restore_args (bs "k") 500
    restore_o demo_ctx (x00 :: bs "v") string_codec_laws eq_refl) as E. rewrite Es in E.
  destruct E as [Hd Hv]; [vm_compute; reflexivity|reflexivity..|lia|reflexivity|exact demo_covers|by right|].
  split; [exact Hd|]. etrans; [exact Hv|]. vm_compute. reflexivity.
Defined.
End witnesses.
