(* ===== verification/ReadOnly.v ===== *)
(** * The READONLY commands ([src/command])

    The header of [generic.rs] asks that a command flagged READONLY never
    count a modification nor change what a client sees: it would abort
    watching clients and put a read into the log.  Handlers are closed under
    this by construction, so the flag is checked for the whole table. *)
From S2P Require Import Prelude Config Crc Strnum Glob Object Shard Errors Reply Notify Commands Dtoa Engine Client Registry Ctx StringCmd Views Dispatch Expire Generic Sort GenericFacts Scan Dump.
Open Scope Z_scope.

Section readonly.
Context `{Memchr, ItoaLaws, Ryu, FastrandLaws, HashIterLaws, ScanHash}.

(** ** What lazy expiry leaves in a shard *)

(** The entry that [expire_if_needed] queues for a key. *)
Definition del_entry (n : nat) (k : Key) : Propagation := {| prop_db := n; prop_argv := [bs "DEL"; k] |}.

(** The shard counted one modification for each of some keys of [P] and, when
    [on], queued a DEL for each; it did nothing else to its counter or its log. *)
Definition reaps (on : bool) (n : nat) (P : Key -> Prop) (s s' : Shard) : Prop :=
  exists ks, Forall P ks /\ Shard.dirty s' = Shard.dirty s + blen ks /\ repl_buf s' = repl_buf s ++ (if on then del_entry n <$> ks else []).

Lemma reaps_none on n P s s' : Shard.dirty s' = Shard.dirty s -> repl_buf s' = repl_buf s -> reaps on n P s s'.
Proof. intros Hd Hl. exists []. split; [constructor|]. rewrite Hd, Hl. split; [by rewrite Z.add_0_r|]. by destruct on; rewrite app_nil_r. Qed.

Lemma reaps_trans on n (P Q : Key -> Prop) x y z : (forall k, Q k -> P k) -> reaps on n P x y -> reaps on n Q y z -> reaps on n P x z.
Proof.
  intros HQ (k1 & F1 & D1 & L1) (k2 & F2 & D2 & L2). exists (k1 ++ k2). split; [apply Forall_app; eauto using Forall_impl|].
  rewrite D2, L2, D1, L1. split; [unfold blen; rewrite length_app; lia|]. rewrite <-app_assoc. destruct on; [by rewrite fmap_app|done].
Qed.

(** The locked shards reaped only keys of theirs that were past their deadline. *)
Definition reaped (c c' : Ctx) : Prop :=
  Forall2 (fun p q => q.1 = p.1 /\ reaps (is_propagating (server c)) (db_index c) (fun k => key_index (shards c) k = p.1 /\ stale k c) p.2 q.2)
    (guards (shards c)) (guards (shards c')).

(** Everything but the reply is as it was, as far as a client can tell. *)
Record calm (c c' : Ctx) : Prop := {
  calm_framed : framed c c';
  calm_dirty : dirty c' = dirty c; calm_prop : prop c' = prop c; calm_prop_buf : prop_buf c' = prop_buf c;
  calm_block : block c' = block c; calm_view n k : view_at n k c' = view_at n k c;
  calm_entry n k e : entry_at n k c' = Some e -> exists e0, entry_at n k c = Some e0 /\ expire_at_ms e0 = expire_at_ms e;
  calm_reaped : reaped c c'
}.

Lemma stale_before k c c' : calm c c' -> stale k c' -> stale k c.
Proof.
  intros Hc (e & He & Hx). change (entry_at (db_index c') k c' = Some e) in He. rewrite (db_index_framed _ _ (calm_framed _ _ Hc)) in He.
  destruct (calm_entry _ _ Hc _ _ _ He) as (e0 & He0 & E). exists e0. split; [exact He0|].
  rewrite <-Hx, (f_now _ _ (calm_framed _ _ Hc)). unfold is_expired. by rewrite E.
Qed.

Lemma same_guards_reaped c c' : guards (shards c') = guards (shards c) -> reaped c c'.
Proof. intros E. unfold reaped. rewrite E. apply Forall_Forall2_diag, Forall_forall. intros p _. split; [done|]. by apply reaps_none. Qed.

#[export] Instance calm_preorder : PreOrder calm.
Proof.
  split; [intros c; constructor; eauto using same_guards_reaped; done|]. intros x y z Hx Hy. pose proof Hx as []. pose proof Hy as [].
  constructor; try congruence; [by etrans| |].
  - intros n k e He. destruct (calm_entry _ _ Hy n k e He) as (e1 & He1 & <-). exact (calm_entry _ _ Hx n k e1 He1).
  - unfold reaped in *. eapply Forall2_trans; [|exact (calm_reaped _ _ Hx)|exact (calm_reaped _ _ Hy)].
    intros p q r [E1 H1'] [E2 H2']. split; [congruence|].
    rewrite (f_propagating _ _ (calm_framed _ _ Hx)), (db_index_framed _ _ (calm_framed _ _ Hx)) in H2'.
    eapply reaps_trans; [|exact H1'|exact H2']. intros k [Hk Hs]. split; [|by eapply stale_before].
    unfold key_index in *. rewrite (f_mask _ _ (calm_framed _ _ Hx)) in Hk. congruence.
Qed.

(** ** The reading methods of the context *)

Lemma calm_server f c : (forall s, is_propagating (f s) = is_propagating s) -> calm c (set_server f c).
Proof. intros Hf. constructor; eauto using same_guards_reaped. constructor; auto. apply Hf. Qed.

Lemma upd_reaped c k F :
  (forall s, reaps (is_propagating (server c)) (db_index c) (fun k' => k' = k /\ stale k c) s (F s)) ->
  reaped c (set_shards (upd_for_key k F) c).
Proof.
  intros HF. unfold reaped. cbn [set_shards shards upd_for_key upd_guard guards]. apply Forall2_fmap_r, Forall_Forall2_diag, Forall_forall.
  intros p _. unfold compose. case_decide as E; cbn [fst snd]; (split; [done|]); [|by apply reaps_none].
  destruct (HF p.2) as (ks & Hk & Hd & Hl). exists ks. split; [|done]. eapply Forall_impl; [exact Hk|]. intros k' [-> Hs]. by split.
Qed.

Lemma same_entries k c c' : same_but k c c' ->
  (forall e, entry k c' = Some e -> exists e0, entry k c = Some e0 /\ expire_at_ms e0 = expire_at_ms e) ->
  forall n k' e, entry_at n k' c' = Some e -> exists e0, entry_at n k' c = Some e0 /\ expire_at_ms e0 = expire_at_ms e.
Proof.
  intros Hs Hk n k' e He. destruct (decide (n = db_index c)) as [->|Hn].
  - assert (Hi : db_index c' = db_index c) by (unfold db_index; by rewrite (sb_client _ _ _ Hs)).
    change (entry_at (db_index c) k' c) with (entry k' c). rewrite <-Hi in He. change (entry k' c' = Some e) in He.
    destruct (decide (k = k')) as [<-|Hne]; [by apply Hk|]. rewrite (sb_entry _ _ _ Hs k' Hne) in He. by exists e.
  - rewrite (sb_other _ _ _ Hs n k' Hn) in He. by exists e.
Qed.

Lemma same_calm k c c' : same_but k c c' -> quiet c c' -> view k c' = view k c ->
  (forall e, entry k c' = Some e -> exists e0, entry k c = Some e0 /\ expire_at_ms e0 = expire_at_ms e) -> reaped c c' -> calm c c'.
Proof.
  intros Hs Hq Hv He Hr. destruct (same_settled _ _ _ Hs Hq Hv) as [[] Hview]. constructor; auto; [lia|by eapply same_entries].
Qed.

Lemma upd_for_key_twice k F f g : guards (upd_for_key k F (upd_for_key k f g)) = guards (upd_for_key k (F ∘ f) g).
Proof.
  cbn [upd_for_key upd_guard guards]. rewrite <-list_fmap_compose. apply list_fmap_ext. intros _ p _. unfold compose.
  change (key_index (upd_guard _ f g) k) with (key_index g k).
  destruct (decide (p.1 = key_index g k)) as [E|E]; cbn [fst snd]; by case_decide.
Qed.

Lemma expire_reaped k c : reaped c (expire_if_needed k c).1.
Proof.
  destruct (expire_if_needed_spec k c) as (_ & _ & _ & Hf & Ht). revert Hf Ht. unfold expire_if_needed.
  destruct (key_db k c) as [d|]; [|intros; by apply same_guards_reaped].
  destruct (negb _); [intros; by apply same_guards_reaped|]. intros _ Ht. assert (Hst : stale k c) by by apply Ht.
  cbn [fst]. set (f := fun d => signal_watch k (remove_entry k d).1).
  set (F s := if is_propagating (server c) then propagate (db_index c) [bs "DEL"; k] (bump_dirty s) else bump_dirty s).
  enough (Hr : reaped c (set_shards (upd_for_key k (F ∘ upd_db (db_index c) f)) c))
    by (unfold reaped in *; cbn [set_shards shards] in Hr; rewrite <-upd_for_key_twice in Hr; exact Hr).
  apply upd_reaped. intros s. exists [k]. split; [by constructor|]. unfold F, compose.
  by destruct (is_propagating (server c)); rewrite ?app_nil_r.
Qed.

Lemma expire_calm k c : calm c (expire_if_needed k c).1.
Proof.
  destruct (expire_if_needed_spec k c) as (Hs & Hq & He & _). apply (same_calm k); [done|done|apply expire_view| |apply expire_reaped].
  intros e. rewrite He. destruct (entry k c) as [e0|]; cbn; [|done]. destruct (is_expired _ _); [done|]. intros [= <-]. by exists e0.
Qed.

Lemma touch_calm k c : calm c (touch_entry k c).
Proof.
  destruct (touch_entry_spec k c) as (Hs & Hq & _ & f & He & Hf). apply (same_calm k); [done|done|apply touch_view| |].
  - intros e. rewrite He. destruct (entry k c) as [e0|]; cbn; [|done]. intros [= <-]. exists e0. split; [done|]. symmetry. apply Hf.
  - unfold touch_entry. destruct (contains _ _); [by apply same_guards_reaped|]. set (g := fun d => with_dict _ _ _).
    assert (reaped c (upd_key_db k g c)) as Hr by (apply upd_reaped; intros s; by apply reaps_none).
    by destruct (lfu _).
Qed.

Lemma lookup_read_calm k c : calm c (lookup_read k c).1.
Proof.
  rewrite lookup_read_eq. etrans; [apply (expire_calm k)|]. destruct (entry k _); cbn [fst]; [|by apply calm_server].
  etrans; [|apply touch_calm]. by apply calm_server.
Qed.
Lemma exists_calm k c : calm c (exists_ k c).1.
Proof. apply expire_calm. Qed.
Lemma expire_at_calm k c : calm c (expire_at k c).1.
Proof. apply expire_calm. Qed.
Lemma type_name_calm k c : calm c (ctx_type_name k c).1.
Proof. unfold ctx_type_name. pose proof (lookup_read_calm k c) as Hc. by destruct (lookup_read k c). Qed.
Lemma with_entry_calm {R} k (f : Entry -> R) c : calm c (with_entry k f c).1.
Proof. unfold with_entry. pose proof (exists_calm k c) as Hc. by destruct (exists_ k c) as [c' []]. Qed.

(** ** Handlers *)

(** A program that only reads. *)
Definition reader {A} (m : M A) : Prop := forall c, calm c (m c).1.

Lemma reader_bind {A B} (m : M A) (f : A -> M B) : reader m -> (forall x, reader (f x)) -> reader (m ≫= f).
Proof.
  intros Hm Hf c. unfold mbind, M_bind. pose proof (Hm c) as Hc. destruct (m c) as [c1 [e|x]]; [done|].
  etrans; [exact Hc|apply Hf].
Qed.
Lemma reader_ret {A} (x : A) : reader (mret x).
Proof. intros c. done. Qed.
Lemma reader_try {A} (r : CmdError + A) : reader (try_ r).
Proof. intros c. done. Qed.
Lemma reader_ask {A} (f : Ctx -> A) : reader (ask f).
Proof. intros c. done. Qed.
Lemma reader_out f : reader (do_ (set_out f)).
Proof. intros c. constructor; eauto using same_guards_reaped. by constructor. Qed.
Lemma reader_draw : reader (do_ (set_server draw)).
Proof. intros c. by apply calm_server. Qed.
Lemma reader_call {A} (f : Ctx -> Ctx * A) : (forall c, calm c (f c).1) -> reader (call f).
Proof. intros Hf c. unfold call. pose proof (Hf c) as Hs. by destruct (f c) as [c' x]. Qed.
Lemma reader_attempt {A} (m : M A) : reader m -> reader (fun c => let '(c, r) := m c in (c, inr r) : Ctx * (CmdError + (CmdError + A))).
Proof. intros Hm c. pose proof (Hm c) as Hc. by destruct (m c). Qed.
Lemma reader_read_str key : reader (read_str key).
Proof. intros c. unfold read_str, get_str_read, get_typed_read. pose proof (lookup_read_calm key c) as Hc. by destruct (lookup_read key c). Qed.
End readonly.

Create HintDb reader.
#[export] Hint Resolve reader_ret reader_try reader_ask reader_out reader_draw reader_read_str : reader.

(** Follows the structure of a handler. *)
Ltac reads :=
  repeat first
    [ apply reader_bind; [|intros ?]
    | solve [eauto 2 with reader]
    | apply reader_call; intros ?; first [apply exists_calm | apply expire_at_calm | apply lookup_read_calm | apply type_name_calm | apply with_entry_calm]
    | apply reader_attempt
    | progress unfold reply, fail, write_opt, object_report
    | case_match ].

Section table.
Context `{Memchr, ItoaLaws, Ryu, FastrandLaws, HashIterLaws, ScanHash} (value_codec : option ValueCodec) (world : ShardMap -> nat -> ShardMap).

Lemma exists_loop_reads keys n : reader (exists_loop keys n).
Proof. revert n. induction keys as [|k keys IH]; intros n; cbn [exists_loop]; reads. Qed.
Lemma touch_loop_reads keys n : reader (touch_loop keys n).
Proof. revert n. induction keys as [|k keys IH]; intros n; cbn [touch_loop]; reads. Qed.
Lemma mget_loop_reads keys : reader (mget_loop keys).
Proof. induction keys as [|k keys IH]; cbn [mget_loop]; reads. Qed.
Lemma randomkey_loop_reads tries dbs now total : reader (randomkey_loop tries dbs now total).
Proof. induction tries as [|tries IH]; cbn [randomkey_loop]; reads. Qed.

Lemma generic_readers args :
  reader (cmd_exists args) /\ reader (cmd_type args) /\ reader (cmd_touch args) /\
  (forall m, reader (ttl_generic m args) /\ reader (expiretime_generic m args)) /\
  reader (cmd_keys args) /\ reader (cmd_randomkey args) /\ reader (cmd_scan world args) /\ reader (cmd_object args) /\
  reader (cmd_dump value_codec args).
Proof.
  unfold cmd_exists, cmd_type, cmd_touch, ttl_generic, expiretime_generic, cmd_keys, cmd_randomkey, cmd_scan, cmd_object, cmd_dump.
  split_and!; [..|intros m; split| | | | |]; reads; auto using exists_loop_reads, touch_loop_reads, randomkey_loop_reads.
Qed.

Lemma reader_try_bind {A B} (r : CmdError + A) (f : A -> M B) : (forall x, r = inr x -> reader (f x)) -> reader (try_ r ≫= f).
Proof. intros Hf c. unfold mbind, M_bind, try_. destruct r as [e|x]; [done|by apply Hf]. Qed.

Lemma pattern_reads p e : reader (lookup_by_pattern p e).
Proof. unfold lookup_by_pattern. reads. Qed.
Lemma weights_read by__ es : reader (with_weights by__ es).
Proof. induction es as [|e es IH]; cbn [with_weights]; reads; auto using pattern_reads. Qed.
Lemma keys_read p es : reader (with_keys p es).
Proof. induction es as [|e es IH]; cbn [with_keys]; reads; auto using pattern_reads. Qed.
Lemma ordered_reads o es : reader (ordered o es).
Proof. unfold ordered. reads; auto using weights_read, keys_read. Qed.
Lemma sorted_reads o d es : reader (sorted o d es).
Proof. unfold sorted. reads; auto using ordered_reads. Qed.
Lemma project_one_reads ps e : reader (project_one ps e).
Proof. induction ps as [|p ps IH]; cbn [project_one]; reads; auto using pattern_reads. Qed.
Lemma project_reads ps es : reader (project_all ps es).
Proof. induction es as [|e es IH]; cbn [project_all]; reads; auto using project_one_reads. Qed.
Lemma sort_ro_reads args : reader (cmd_sort_ro args).
Proof.
  unfold cmd_sort_ro, sort_generic. apply reader_bind; [reads|]. intros key. apply reader_try_bind. intros opts Ho.
  apply parse_no_store in Ho. destruct opts as [de al li by__ pa st]. cbn in Ho. subst st.
  apply reader_bind; [unfold sort_elements; reads|]. intros [els|]; cbn [store]; [|reads]. cbv zeta.
  apply reader_bind; [reads|]. intros o. change (bool_decide (is_Some (@None Key))) with false. rewrite andb_false_r. cbn [store patterns].
  reads; auto using sorted_reads, ordered_reads, project_reads.
Qed.

Lemma string_readers args : reader (cmd_get args) /\ reader (cmd_strlen args) /\ reader (cmd_mget args).
Proof. unfold cmd_get, cmd_strlen, cmd_mget. split_and!; reads. apply mget_loop_reads. Qed.
End table.

(** ** Through dispatch *)

Section dispatch.
Context `{Memchr, ItoaLaws, Ryu, FastrandLaws, HashIterLaws, ScanHash} (value_codec : option ValueCodec) (world : ShardMap -> nat -> ShardMap).

Definition table_specs : list (CommandSpec CmdHandler) :=
  [set_spec; get_spec; strlen_spec; mget_spec; mset_spec] ++ generic_specs value_codec world.

(** The flags of a specification against its handler. *)
Definition flag_truthful (args : Args) (spec : CommandSpec CmdHandler) : Prop :=
  has_flag (flags spec) READONLY = true -> is_write spec = false /\ reader (handler spec args).

Lemma readonly_specs spec args : spec ∈ table_specs -> flag_truthful args spec.
Proof.
  destruct (generic_readers value_codec world args) as (Hex & Hty & Hto & Htt & Hke & Hra & Hsc & Hob & Hdu).
  pose proof (sort_ro_reads args) as Hso. destruct (string_readers args) as (Hge & Hst & Hmg). revert spec. apply Forall_forall.
  unfold table_specs, generic_specs. cbn [app]. repeat apply Forall_cons_2; [..|apply Forall_nil_2]; unfold flag_truthful, is_write;
    cbn [spec1 set_spec get_spec strlen_spec mget_spec mset_spec sort_spec sort_ro_spec handler flags]; intros Hf;
    first [vm_compute in Hf; discriminate Hf | split; [vm_compute; reflexivity|]]; clear Hf.
  all: match goal with
       | |- reader (cmd_get _) => exact Hge | |- reader (cmd_strlen _) => exact Hst | |- reader (cmd_mget _) => exact Hmg
       | |- reader (cmd_exists _) => exact Hex | |- reader (cmd_type _) => exact Hty | |- reader (cmd_touch _) => exact Hto
       | |- reader (cmd_keys _) => exact Hke | |- reader (cmd_randomkey _) => exact Hra | |- reader (cmd_scan _ _) => exact Hsc
       | |- reader (cmd_object _) => exact Hob | |- reader (cmd_dump _ _) => exact Hdu | |- reader (cmd_sort_ro _) => exact Hso
       | |- reader (cmd_ttl _) => exact (proj1 (Htt false)) | |- reader (cmd_pttl _) => exact (proj1 (Htt true))
       | |- reader (cmd_expiretime _) => exact (proj2 (Htt false)) | |- reader (cmd_pexpiretime _) => exact (proj2 (Htt true))
       end.
Qed.

(** What [run_locked] leaves on the server when the handler was calm. *)
Lemma run_locked_calm (spec : CommandSpec CmdHandler) args s client out_ :
  let g := lock_set (shard_map s) (shard_set_for spec args (shard_map s)) in
  let c0 := ctx_new {| buf := out_; proto := client_proto client |} client (shared s) g (config s) (clock_ms s) (shard_map s) in
  forall c' r, handler spec args c0 = (c', r) -> calm c0 c' -> is_write spec = false ->
  exists s' r', run_locked spec s client out_ args = (s', Ctx.client c', buf (out c'), r') /\
    shard_map s' = release (shards c') (shard_map s).
Proof.
  cbv zeta. intros c' r Hh Hc Hw. unfold run_locked. cbv zeta. rewrite Hh. do 2 eexists. split; [done|]. cbn [shard_map with_shared with_map].
  destruct r; [done|]. case_match; [|done]. unfold propagate_outcome. cbn [o_prop ctx_finish]. rewrite (calm_prop _ _ Hc), Hw. done.
Qed.

Lemma guard_related (R : nat -> Shard -> Shard -> Prop) g g' i :
  Forall2 (fun p q => q.1 = p.1 /\ R p.1 p.2 q.2) (guards g) (guards g') ->
  match guard_shard i g, guard_shard i g' with Some s, Some s' => R i s s' | None, None => True | _, _ => False end.
Proof.
  destruct g as [l w], g' as [l' w']. cbn [guards]. induction 1 as [|[j s] [j' s'] l l' [E Hr] _ IH]; [done|]. cbn [fst snd] in *. subst j'.
  rewrite !guard_shard_cons. case_decide as E; [by subst j|exact IH].
Qed.

(** The locked shards of a calm run, seen from the server. *)
Lemma calm_release (spec : CommandSpec CmdHandler) args m w client sh cfg now c' :
  let c0 := ctx_new w client sh (lock_set m (shard_set_for spec args m)) cfg now m in
  calm c0 c' ->
  (forall n k, server_view (release (shards c') m) n now k = server_view m n now k) /\
  forall i h, map_get m i = Some h -> exists h', map_get (release (shards c') m) i = Some h' /\
    reaps (is_propagating sh) (client_db client)
      (fun k => shard_index m k = i /\ exists e, server_entry m (client_db client) k = Some e /\ is_expired e now = true) (lock h) (lock h').
Proof.
  cbv zeta. set (g := lock_set m _). set (c0 := ctx_new _ _ _ _ _ _ _). intros Hc. pose proof (calm_framed _ _ Hc) as Hf.
  assert (Hl : fst <$> guards (shards c') = fst <$> guards g).
  { pose proof (f_equal (fmap fst) (f_shape _ _ Hf)) as Hs. unfold shape in Hs. rewrite <-!list_fmap_compose in Hs. exact Hs. }
  assert (Hm : g_mask (shards c') = mask m) by by rewrite (f_mask _ _ Hf). split.
  - intros n k. unfold server_view. rewrite (release_entry_at spec args m n c' (shards c') k Hm Hl) by done.
    case_decide as Hk; [|done]. pose proof (calm_view _ _ Hc n k) as Hn. unfold view_at in Hn. rewrite (f_now _ _ Hf) in Hn.
    unfold c0, g in Hn. rewrite (entry_at_locked spec args m) in Hn by exact Hk. exact Hn.
  - intros i h Hh. pose proof (release_get (shards c') m i) as Hr. rewrite Hl, Hh in Hr. specialize (Hr (guards_nodup spec args m)).
    destruct (map_get (release (shards c') m) i) as [h'|]; [|done]. cbn [fmap option_fmap option_map mbind option_bind] in Hr.
    injection Hr as Hr. exists h'. split; [done|]. rewrite Hr.
    pose proof (guard_related (fun i => reaps (is_propagating sh) (client_db client) (fun k => key_index g k = i /\ stale k c0))
      g (shards c') i (calm_reaped _ _ Hc)) as Hg.
    pose proof (lock_set_shard m _ i (lock_order_ascending spec args m)) as Hi. fold g in Hi. rewrite Hi, Hh in Hg.
    case_decide as Hk; cbn in Hg; [|destruct (guard_shard i _); [done|]; by apply reaps_none].
    destruct (guard_shard i _) as [s'|]; [|done]. destruct Hg as (ks & Hf' & Hd' & Hl'). exists ks. split; [|done].
    eapply Forall_impl; [exact Hf'|]. intros k (Ek & e & He & Hx). cbn beta in *. change (key_index g k) with (shard_index m k) in Ek.
    split; [done|]. exists e. split; [|exact Hx]. rewrite <-He. symmetry. apply (entry_locked spec args m). by rewrite Ek.
Qed.

End dispatch.

(** ** Witness *)

Section witnesses.
#[local] Existing Instances memchr_find itoa_model itoa_model_laws ryu_model no_draws hash_iter_model hash_iter_model_laws.
#[local] Instance no_draws_laws : FastrandLaws.
Proof. split; [intros; simpl; lia|intros; by vm_compute]. Qed.
#[local] Instance scan_hash_sum : ScanHash := fun k => le_val k.

(** A GET of a key past its deadline: its shard reaps it and logs the DEL. *)
Definition get_a : Args := [bs "GET"; bs "a"].
Definition stale_server : ServerShared :=
  {| shard_map := shard_map expiring_server; clock_ms := 1000; commands := demo_table; shared := shared expiring_server |}.

Lemma stale_admitted : admitted stale_server (demo_client true) get_a get_spec.
Proof.
  assert (map_len (shard_map stale_server) = 1%nat) as Hl by reflexivity.
  split; [apply demo_lookup; [split_and!; [done|vm_compute; lia|reflexivity]|right; left]|reflexivity..|done| |simpl; lia].
  split; [intros k; rewrite Hl|rewrite Hl; lia|by repeat constructor].
  unfold shard_index. cbn [mask shard_map stale_server expiring_server]. rewrite Z.land_0_r. lia.
Defined.

End witnesses.
