(* ===== verification/Server.v ===== *)
(** * Server commands ([src/command/server.rs])

    [DBSIZE], [FLUSHDB], [FLUSHALL] and [CONFIG], the handlers that lock every
    shard or none, over the configuration of [Config] and the engine of
    [Dispatch].  [CONFIG SET] stores into the handle the server shares; the
    command that runs it keeps the snapshot it started with. *)
From S2P Require Import Prelude Config Crc Strnum Glob Object Shard Errors Reply Notify Commands Engine Dtoa Client Registry Ctx StringCmd Views Dispatch Expire Generic GenericFacts Scan Dump ReadOnly.
Open Scope Z_scope.

Section server.
Context `{Memchr, Itoa, Ryu, Fastrand}.

(** [for_each_db] with a count: [n += db.len()]. *)
Definition count_dbs (c : Ctx) : Z := foldl (fun n d => n + Z.of_nat (db_len d)) 0 (locked_dbs c).

Definition cmd_dbsize : CmdHandler := fun _ => n ← ask count_dbs; reply (int (wraps 64 n)).

Definition cmd_flushdb : CmdHandler := fun _ =>
  removed ← ask count_dbs;
  do_ (for_each_db clear);;
  do_ (set_server (add_server_dirty removed));;
  reply ok.

(** The loop of [FLUSHALL] over the locked shards; [removed] runs on from one
    shard to the next. *)
Definition add_shard_dirty (n : Z) (s : Shard) : Shard :=
  {| shard_index_ := shard_index_ s; dbs := dbs s; Shard.dirty := Shard.dirty s + n; repl_buf := repl_buf s; seq_ := seq_ s |}.
Definition clear_all (s : Shard) : Shard :=
  {| shard_index_ := shard_index_ s; dbs := clear <$> dbs s; Shard.dirty := Shard.dirty s; repl_buf := repl_buf s; seq_ := seq_ s |}.
Fixpoint flushall_loop (gs : list (nat * Shard)) (removed : Z) : list (nat * Shard) * Z :=
  match gs with
  | [] => ([], removed)
  | (i, s) :: gs =>
      let removed := removed + Z.of_nat (key_count s) in
      let '(gs, total) := flushall_loop gs removed in
      ((i, add_shard_dirty removed (clear_all s)) :: gs, total)
  end.
Definition cmd_flushall : CmdHandler := fun _ =>
  removed ← ask (fun c => (flushall_loop (guards (shards c)) 0).2);
  do_ (set_shards (fun g => {| guards := (flushall_loop (guards g) 0).1; g_mask := g_mask g |}));;
  do_ (set_server (add_server_dirty removed));;
  reply ok.

(** ** [CONFIG] *)

(** [String::from_utf8_lossy] *)
Definition lossy (s : bytes) : bytes := concat (chars s).

Definition yes_no (b : bool) : bytes := if b then bs "yes" else bs "no".
Definition point_text (p : SavePoint) : bytes := decimal (seconds p) ++ bs " " ++ decimal (changes p).
Fixpoint join_spaces (l : list bytes) : bytes :=
  match l with [] => [] | [x] => x | x :: l => x ++ bs " " ++ join_spaces l end.

(** [cpus] is [num_cpus::get()] *)
Definition getters (cpus : Z) : list (bytes * (Config -> bytes)) :=
  [(bs "port", fun c => decimal (num c Port)); (bs "databases", fun c => decimal (num c Databases));
   (bs "maxmemory", fun c => decimal (maxmemory c)); (bs "maxmemory-policy", fun c => policy_as_str (maxmemory_policy c));
   (bs "appendonly", fun c => yes_no (switch c Appendonly)); (bs "appendfsync", fun c => fsync_as_str (appendfsync c));
   (bs "requirepass", fun c => default [] (requirepass c));
   (bs "timeout", fun c => decimal (num c Timeout)); (bs "tcp-keepalive", fun c => decimal (num c TcpKeepalive));
   (bs "hash-max-listpack-entries", fun c => decimal (num c HashMaxListpackEntries));
   (bs "hash-max-listpack-value", fun c => decimal (num c HashMaxListpackValue));
   (bs "list-max-listpack-size", fun c => decimal (num c ListMaxListpackSize));
   (bs "set-max-intset-entries", fun c => decimal (num c SetMaxIntsetEntries));
   (bs "set-max-listpack-entries", fun c => decimal (num c SetMaxListpackEntries));
   (bs "zset-max-listpack-entries", fun c => decimal (num c ZsetMaxListpackEntries));
   (bs "zset-max-listpack-value", fun c => decimal (num c ZsetMaxListpackValue));
   (bs "proto-max-bulk-len", fun c => decimal (num c ProtoMaxBulkLen));
   (bs "notify-keyspace-events", fun c => to_config_string (notify_keyspace_events c));
   (bs "shard-count", fun c => decimal (effective_shard_count cpus c));
   (bs "save", fun c => join_spaces (point_text <$> save c))].
Definition config_get_one (cpus : Z) (c : Config) (nm : bytes) : option bytes := (fun f => f c) <$> assoc (getters cpus) nm.

Definition write_pairs (pairs : list (bytes * bytes)) (w : ReplyWriter) : ReplyWriter :=
  foldl (fun w p => bulk p.2 (bulk p.1 w)) (map (blen pairs) w) pairs.

Fixpoint pairs_of (args : list bytes) : list (bytes * bytes) :=
  match args with k :: v :: args => (lossy k, lossy v) :: pairs_of args | _ => [] end.
(** The closure given to [update]. *)
Fixpoint apply_pairs (ds : list (bytes * bytes)) (c : Config) : Config * option ConfigError :=
  match ds with
  | [] => (c, None)
  | (k, v) :: ds => match apply k [v] c with (c, None) => apply_pairs ds c | r => r end
  end.

Definition cmd_config (cpus : Z) : CmdHandler := fun args =>
  sub ← try_ (at_ args 1);
  if eq_ignore_ascii_case sub (bs "get") then
    conf ← ask cfg;
    let pairs := omap (fun a => let nm := lower (lossy a) in v ← config_get_one cpus conf nm; Some (nm, v)) (drop 2 args) in
    reply (write_pairs pairs)
  else if eq_ignore_ascii_case sub (bs "set") then
    if (length args <? 4)%nat || negb (Nat.even (length args - 2)) then fail (WrongArity (bs "config|set"))
    else
      handle ← ask (fun c => config_handle (server c));
      match update (apply_pairs (pairs_of (drop 2 args))) handle with
      | (_, Some e) => fail (err (bs "CONFIG SET failed - " ++ config_error e))
      | (next, None) => do_ (set_server (set_handle next));; reply ok
      end
  else if eq_ignore_ascii_case sub (bs "resetstat") then reply ok
  else fail (err (bs "Unknown subcommand or wrong number of arguments for '" ++ lossy sub ++ bs "'. Try CONFIG HELP.")).

(** [register], less COMMAND and INFO. *)
Definition dbsize_spec : CommandSpec CmdHandler := spec1 (bs "dbsize") 1 (Z.lor READONLY (Z.lor FAST ALL_SHARDS)) 0 0 0 cmd_dbsize.
Definition flushdb_spec : CommandSpec CmdHandler := spec1 (bs "flushdb") (-1) (Z.lor WRITE ALL_SHARDS) 0 0 0 cmd_flushdb.
Definition flushall_spec : CommandSpec CmdHandler := spec1 (bs "flushall") (-1) (Z.lor WRITE ALL_SHARDS) 0 0 0 cmd_flushall.
Definition config_spec (cpus : Z) : CommandSpec CmdHandler :=
  spec1 (bs "config") (-2) (Z.lor ADMIN (Z.lor NOSCRIPT (Z.lor LOADING STALE))) 0 0 0 (cmd_config cpus).
Definition server_specs (cpus : Z) : list (CommandSpec CmdHandler) := [dbsize_spec; flushdb_spec; flushall_spec; config_spec cpus].
End server.

(** ** Every shard at once *)

Section all_shards.
Context `{Memchr, ItoaLaws, Ryu, Fastrand}.

Lemma omap_shift {B} (g : nat -> option B) (js : list nat) : omap g (S <$> js) = omap (g ∘ S) js.
Proof.
  induction js as [|j js IH]; [done|]. rewrite fmap_cons. cbn [omap list_omap]. change ((g ∘ S) j) with (g (S j)).
  destruct (g (S j)); [f_equal|]; exact IH.
Qed.

Lemma omap_seq {A B} (f : nat -> A -> B) (l : list A) : omap (fun i => f i <$> l !! i) (seq 0 (length l)) = imap f l.
Proof.
  revert f. induction l as [|x l IH]; intros f; [done|]. cbn [length seq omap list_omap]. simpl. f_equal.
  rewrite <-fmap_S_seq. rewrite omap_shift. exact (IH (f ∘ S)).
Qed.

(** The indices of [ShardSet::all] are [u16]: every shard, below 65536 of them. *)
Lemma lock_every_shard (spec : CommandSpec CmdHandler) args m :
  has_flag (flags spec) ALL_SHARDS = true -> Z.of_nat (map_len m) <= 65535 ->
  lock_set m (shard_set_for spec args m) = lock_all m.
Proof.
  intros Ha Hn. unfold shard_set_for. rewrite Ha. unfold lock_set, lock_all. f_equal.
  assert (finish (set_all m) = Z.of_nat <$> seq 0 (map_len m)) as ->.
  { unfold set_all. rewrite wrapu_small by (unfold in_unsigned; lia). rewrite Nat2Z.id.
    destruct (finish_sorted (Z.of_nat <$> seq 0 (map_len m))) as [Hs He].
    assert (Hs' : StronglySorted Z.lt (Z.of_nat <$> seq 0 (map_len m))).
    { clear. generalize (map_len m) as k. intros k. generalize 0%nat. induction k as [|k IH]; intros a; [constructor|]. cbn. constructor; [apply IH|].
      apply Forall_fmap, Forall_seq. intros j Hj. simpl. lia. }
    assert (Hnd : forall l, StronglySorted Z.lt l -> NoDup l).
    { clear. induction 1 as [|x l Hl IH Hx]; constructor; [|done]. intros Hin. rewrite Forall_forall in Hx. specialize (Hx x Hin). lia. }
    assert (AntiSymm (=) Z.lt) by (intros x y ??; lia).
    apply (StronglySorted_unique Z.lt); [done..|]. apply NoDup_Permutation; auto. }
  unfold set_iter, map_get, map_len. rewrite <-list_fmap_compose.
  transitivity (omap (fun i => (fun h => (i, lock h)) <$> Shard.shards m !! i) (seq 0 (length (Shard.shards m)))); [|apply (omap_seq (fun i h => (i, lock h)))].
  f_equal. rewrite <-(list_fmap_id (seq 0 _)) at 2. apply list_fmap_ext. intros i x _. simpl. apply Nat2Z.id.
Qed.

(** ... and none of them at 65536: the conversion wraps to zero. *)
Lemma lock_no_shard (spec : CommandSpec CmdHandler) args m :
  has_flag (flags spec) ALL_SHARDS = true -> Z.of_nat (map_len m) = 65536 -> guards (lock_set m (shard_set_for spec args m)) = [].
Proof. intros Ha Hn. unfold shard_set_for. rewrite Ha. unfold set_all. by rewrite Hn. Qed.
End all_shards.

(** ** What flushing does *)

(** The WATCH counter of a key, as [server_entry] finds its entry. *)
Definition server_version `{Memchr} (m : ShardMap) (n : nat) (k : Key) : option Z :=
  h ← shard_for m k; d ← db n (lock h); watch_version k d.

Section flush.
Context `{Memchr, ItoaLaws, Ryu, Fastrand}.

(** The databases that [which] selects are cleared, nothing is logged. *)
Record emptied (which : nat -> bool) (s s' : Shard) : Prop := {
  em_dbs : dbs s' = imap (fun n d => if which n then clear d else d) (dbs s);
  em_log : repl_buf s' = repl_buf s
}.
Definition emptied_guards (which : nat -> bool) : list (nat * Shard) -> list (nat * Shard) -> Prop :=
  Forall2 (fun p q => q.1 = p.1 /\ emptied which p.2 q.2).

Lemma alter_imap {A} (f : A -> A) n (l : list A) : alter f n l = imap (fun j x => if bool_decide (j = n) then f x else x) l.
Proof.
  apply list_eq. intros i. rewrite list_lookup_alter, list_lookup_imap.
  destruct (decide (n = i)) as [->|Hn]; [by rewrite bool_decide_true by done; destruct (l !! i)|].
  destruct (l !! i); [|done]. simpl. by rewrite bool_decide_false by congruence.
Qed.

Lemma flushdb_guards idx gs :
  emptied_guards (fun n => bool_decide (n = idx)) gs ((fun '(i, s) => (i, upd_db idx clear s)) <$> gs).
Proof.
  apply Forall2_fmap_r. apply Forall2_same_length_lookup. split; [done|]. intros j [i s] q Hp Hq. rewrite Hp in Hq. injection Hq as <-.
  split; [done|]. split; [apply alter_imap|done].
Qed.

Lemma flushall_guards gs r : emptied_guards (fun _ => true) gs (flushall_loop gs r).1.
Proof.
  revert r. induction gs as [|[i s] gs IH]; intros r; [constructor|]. cbn [flushall_loop].
  specialize (IH (r + Z.of_nat (key_count s))). destruct (flushall_loop gs _) as [gs' t]. cbn [fst] in *.
  constructor; [|done]. split; [done|]. split; [|done]. simpl. apply list_eq. intros j. rewrite list_lookup_fmap, list_lookup_imap. done.
Qed.

Lemma flushall_total gs r : (flushall_loop gs r).2 = r + Z.of_nat (sum_list_with (fun p => key_count p.2) gs).
Proof.
  revert r. induction gs as [|[i s] gs IH]; intros r; simpl; [lia|].
  specialize (IH (r + Z.of_nat (key_count s))). destruct (flushall_loop gs _) as [gs' t]. simpl in *. lia.
Qed.

Lemma lock_all_lookup m i : guards (lock_all m) !! i = (fun h => (i, lock h)) <$> map_get m i.
Proof. unfold lock_all, map_get. cbn [guards]. by rewrite list_lookup_imap. Qed.

Lemma lock_all_fst m : fst <$> guards (lock_all m) = seq 0 (map_len m).
Proof.
  apply list_eq. intros i. rewrite list_lookup_fmap, lock_all_lookup. unfold map_get, map_len.
  destruct (Shard.shards m !! i) as [h|] eqn:E; simpl.
  - apply lookup_lt_Some in E. by rewrite lookup_seq_lt.
  - apply lookup_ge_None in E. by rewrite lookup_seq_ge.
Qed.

(** Releasing emptied shards. *)
Lemma release_emptied which m gs w i h :
  emptied_guards which (guards (lock_all m)) gs -> map_get m i = Some h ->
  exists h', map_get (release {| guards := gs; g_mask := w |} m) i = Some h' /\ emptied which (lock h) (lock h').
Proof.
  intros Hgs Hh.
  assert (Hfst : fst <$> gs = fst <$> guards (lock_all m)).
  { clear -Hgs. induction Hgs as [|p q l l' [E _] Hl IH]; [done|]. by rewrite !fmap_cons, E, IH. }
  assert (Hnd : NoDup (fst <$> gs)) by (rewrite Hfst, lock_all_fst; apply NoDup_seq).
  pose proof (release_get {| guards := gs; g_mask := w |} m i Hnd) as Hr. rewrite Hh in Hr. simpl in Hr.
  pose proof (lock_all_lookup m i) as Hl. rewrite Hh in Hl. simpl in Hl.
  destruct (Forall2_lookup_l _ _ _ _ _ Hgs Hl) as ([j s'] & Hq & Ej & He). cbn [fst snd] in *. subst j.
  rewrite (guard_shard_in {| guards := gs; g_mask := w |} i s' Hnd) in Hr by (by eapply list_elem_of_lookup_2). revert Hr.
  destruct (map_get (release _ m) i) as [h'|]; [|done]. simpl. intros [= Hr]. exists h'. split; [done|]. by rewrite Hr.
Qed.

Lemma release_emptied_none m gs w i : map_get m i = None -> map_get (release {| guards := gs; g_mask := w |} m) i = None.
Proof.
  unfold map_get, release. cbn [Shard.shards guards]. generalize (Shard.shards m) as hs. induction gs as [|[j s] gs IH]; intros hs Hn; [done|].
  simpl. apply IH. rewrite list_lookup_alter, Hn. destruct (decide (j = i)) as [->|]; [by rewrite Hn|done].
Qed.

(** Emptied shards, seen from the server. *)
Record flushed (which : nat -> bool) (m m' : ShardMap) : Prop := {
  fl_entry n k : server_entry m' n k = if which n then None else server_entry m n k;
  fl_version n k v : server_ok m -> server_version m n k = Some v ->
    exists v', server_version m' n k = Some v' /\ if which n then v < v' else v' = v;
  fl_log i : repl_buf ∘ lock <$> map_get m' i = repl_buf ∘ lock <$> map_get m i
}.

Lemma clear_dict d : dict (clear d) = ∅.
Proof. unfold clear. by case_decide. Qed.

Lemma clear_version d k v : db_ok d -> watch_version k d = Some v -> exists v', watch_version k (clear d) = Some v' /\ v < v'.
Proof.
  unfold watch_version. intros Hd Hv. pose proof (ok_watch _ Hd k v Hv). unfold clear.
  rewrite decide_False by (intros E; by rewrite E, lookup_empty in Hv). simpl. rewrite lookup_fmap, Hv. simpl. eexists. split; [done|lia].
Qed.

Lemma released_flushed which m gs :
  emptied_guards which (guards (lock_all m)) gs -> flushed which m (release {| guards := gs; g_mask := mask m |} m).
Proof.
  intros Hgs. set (m' := release _ m).
  assert (Hget : forall k, shard_for m' k = map_get m' (shard_index m k)) by done.
  assert (Hdb : forall n s s', emptied which s s' -> db n s' = (fun d => if which n then clear d else d) <$> db n s).
  { intros n s s' [Hd _]. unfold db. by rewrite Hd, list_lookup_imap. }
  split.
  - intros n k. unfold server_entry. rewrite Hget. unfold shard_for. destruct (map_get m _) as [h|] eqn:Eh; cycle 1.
    { unfold m'. rewrite release_emptied_none by done. by destruct (which n). }
    destruct (release_emptied which m gs (mask m) _ h Hgs Eh) as (h' & Eh' & He). unfold m'. rewrite Eh'. simpl.
    rewrite (Hdb _ _ _ He). destruct (db n (lock h)); simpl; [|by destruct (which n)].
    destruct (which n); [|done]. by rewrite clear_dict, lookup_empty.
  - intros n k v Hok. unfold server_version. rewrite Hget. unfold shard_for. destruct (map_get m _) as [h|] eqn:Eh; [|done]. simpl.
    destruct (release_emptied which m gs (mask m) _ h Hgs Eh) as (h' & Eh' & He). unfold m'. rewrite Eh'. simpl. rewrite (Hdb _ _ _ He).
    destruct (db n (lock h)) as [d|] eqn:Ed; [|done]. simpl. intros Hv.
    pose proof (server_db_ok _ _ _ _ _ Hok Eh Ed) as Hd. destruct (which n); [by apply clear_version|by exists v].
  - intros i. destruct (map_get m i) as [h|] eqn:Eh.
    + destruct (release_emptied which m gs (mask m) _ h Hgs Eh) as (h' & Eh' & [_ Hl]). unfold m'. rewrite Eh'. simpl. by rewrite Hl.
    + unfold m'. by rewrite release_emptied_none.
Qed.

(** FLUSHDB and FLUSHALL: the command, the databases it empties, and how many
    keys those hold. *)
Definition flushes (s : ServerShared) (client : ClientState) : list (CommandSpec CmdHandler * (nat -> bool) * Z) :=
  [(flushdb_spec, fun n => bool_decide (n = client_db client), Z.of_nat (db_size (client_db client) (shard_map s)));
   (flushall_spec, fun _ => true, Z.of_nat (sum_list_with (key_count ∘ lock) (Shard.shards (shard_map s))))].

(** What [run_locked] leaves of a handler that flushed and replied OK. *)
Lemma flush_run s client out_ (spec : CommandSpec CmdHandler) args which removed gs :
  lock_set (shard_map s) (shard_set_for spec args (shard_map s)) = lock_all (shard_map s) ->
  let c0 := ctx_new {| buf := out_; proto := client_proto client |} client (shared s) (lock_all (shard_map s)) (config s) (clock_ms s) (shard_map s) in
  handler spec args c0 =
    (set_out ok (set_server (add_server_dirty removed) (set_shards (fun g => {| guards := gs; g_mask := g_mask g |}) c0)), inr tt) ->
  emptied_guards which (guards (lock_all (shard_map s))) gs ->
  exists s', run_locked spec s client out_ args = (s', client, out_ ++ bs "+OK" ++ CRLF, inr None) /\
    flushed which (shard_map s) (shard_map s') /\ shared s' = add_server_dirty removed (shared s).
Proof.
  intros Hl c0 Hh Hgs. unfold run_locked. rewrite Hl. fold c0. rewrite Hh. eexists. split; [reflexivity|]. split; [|done].
  unfold propagate_outcome. simpl. rewrite andb_false_r. assert (Hr := released_flushed _ _ _ Hgs).
  by case_match.
Qed.

Lemma sum_foldl (l : list Db) z : foldl (fun n d => n + Z.of_nat (db_len d)) z l = z + Z.of_nat (sum_list_with db_len l).
Proof. revert z. induction l as [|d l IH]; intros z; simpl; [lia|]. rewrite IH. lia. Qed.

Lemma count_every_db m client out_ sh cfg now :
  count_dbs (ctx_new out_ client sh (lock_all m) cfg now m) = Z.of_nat (db_size (client_db client) m).
Proof.
  unfold count_dbs. rewrite sum_foldl, Z.add_0_l. f_equal. unfold locked_dbs, db_size, lock_all. cbn [shards ctx_new guards].
  assert (Hg : forall g : nat -> ShardHandle -> nat * Shard, (forall i h, (g i h).2 = lock h) -> forall hs,
    sum_list_with db_len (omap (fun p => db (client_db client) p.2) (imap g hs)) =
    sum_list_with (fun h => match db (client_db client) (lock h) with Some d => db_len d | None => 0%nat end) hs).
  { intros g Hg hs. revert g Hg. induction hs as [|h hs IH]; intros g Hg; [done|]. specialize (IH (g ∘ S) ltac:(intros; apply Hg)).
    cbn [imap omap list_omap sum_list_with]. rewrite Hg. destruct (db _ (lock h)); simpl; f_equal; exact IH. }
  by apply (Hg (fun i h => (i, lock h))).
Qed.

Lemma count_every_key m : (flushall_loop (guards (lock_all m)) 0).2 = Z.of_nat (sum_list_with (key_count ∘ lock) (Shard.shards m)).
Proof.
  rewrite flushall_total, Z.add_0_l. f_equal. unfold lock_all. cbn [guards].
  assert (Hg : forall g : nat -> ShardHandle -> nat * Shard, (forall i h, (g i h).2 = lock h) -> forall hs,
    sum_list_with (fun p => key_count p.2) (imap g hs) = sum_list_with (key_count ∘ lock) hs).
  { intros g Hg hs. revert g Hg. induction hs as [|h hs IH]; intros g Hg; [done|]. specialize (IH (g ∘ S) ltac:(intros; apply Hg)).
    cbn [imap sum_list_with]. rewrite Hg. simpl. f_equal. exact IH. }
  by apply (Hg (fun i h => (i, lock h))).
Qed.

(** C15: FLUSHDB and FLUSHALL through dispatch, from any server with fewer than
    65536 shards: the reply is OK; no key is left in the databases flushed and
    every other database is as it was; every key a client watches in a flushed
    database has a larger version, so its EXEC aborts, and keeps its version
    elsewhere; the modification count grows by the keys removed.  Nothing is
    appended to any replication log: the command itself is never propagated. *)
Theorem flush_dispatch s client out_ args spec which removed :
  admitted s client args spec -> Z.of_nat (map_len (shard_map s)) <= 65535 -> (spec, which, removed) ∈ flushes s client ->
  exists s' client', dispatch s client out_ args = (s', client', out_ ++ bs "+OK" ++ CRLF, if should_close client then Close else Done) /\
    flushed which (shard_map s) (shard_map s') /\ total_dirty s' = wrapu 64 (total_dirty s + removed).
Proof.
  intros Had Hn Hin. rewrite (dispatch_admitted s client out_ args spec Had).
  set (s1 := with_shared (bump_stat commands_processed) s). set (client1 := with_last_command (name spec) client).
  assert (exists s', run_locked spec s1 client1 out_ args = (s', client1, out_ ++ bs "+OK" ++ CRLF, inr None) /\
    flushed which (shard_map s) (shard_map s') /\ shared s' = add_server_dirty removed (shared s1)) as (s' & -> & Hf & Hsh); cycle 1.
  { exists s', client1. split; [done|]. split; [done|]. unfold total_dirty. by rewrite Hsh. }
  unfold flushes in Hin.
  apply elem_of_cons in Hin as [[= -> -> ->]|[= -> -> ->]%list_elem_of_singleton].
  - eapply (flush_run s1 client1); [by apply lock_every_shard| |apply flushdb_guards].
    cbn [handler flushdb_spec spec1]. unfold cmd_flushdb. rewrite run_ask. rewrite count_every_db. reflexivity.
  - eapply (flush_run s1 client1); [by apply lock_every_shard| |apply (flushall_guards _ 0)].
    cbn [handler flushall_spec spec1]. unfold cmd_flushall. rewrite run_ask.
    change (shards (ctx_new _ _ _ _ _ _ _)) with (lock_all (shard_map s1)). rewrite count_every_key. reflexivity.
Qed.
End flush.

(** ** [CONFIG GET] and [CONFIG SET] *)

Section config.
Context `{Memchr, ItoaLaws, Ryu, Fastrand}.

Lemma parse_int_decimal lo hi v : lo <= v <= hi -> I64_MIN <= v <= I64_MAX -> parse_int_in lo hi (decimal v) = inr v.
Proof. intros Hr Hi. unfold parse_int_in, parse_int. rewrite rust_parse_decimal by done. by rewrite decide_True. Qed.

Lemma parse_mem_decimal v : 0 <= v <= U64_MAX -> parse_mem (decimal v) = inr v.
Proof.
  intros Hv. unfold parse_mem. rewrite <-(app_nil_r (decimal v)), (parse_memory_decimal v [] 1) by (done || by left).
  by rewrite Z.mul_1_r, decide_True by lia.
Qed.

Lemma set_num_get f v c : num (set_num f v c) f = v.
Proof. simpl. by rewrite decide_True. Qed.

(** A getter that does not look at what changed. *)
Lemma others_kept cpus nm (c c1 : Config) :
  Forall (fun p : bytes * (Config -> bytes) => p.1 <> nm -> p.2 c1 = p.2 c) (getters cpus) ->
  forall nm', nm' <> nm -> config_get_one cpus c1 nm' = config_get_one cpus c nm'.
Proof.
  intros Hf nm' Hne. unfold config_get_one. induction Hf as [|[k g] l Hg Hl IH]; [done|]. cbn [assoc fst snd] in *.
  case_decide as E; [|done]. subst k. simpl. by rewrite (Hg Hne).
Qed.

Lemma apply_arm_of nm d v c0 c1 : directive_of nm = Some d -> apply_arm d [v] c0 = (c1, None) -> apply nm [v] c0 = (c1, None).
Proof. unfold apply. by intros ->. Qed.

Lemma store_inr {A} (r : ConfigError + A) (f : A -> Config -> Config) v c : r = inr v -> store r f c = (f v c, None).
Proof. by intros ->. Qed.

(** An integer setting, written as CONFIG GET writes it. *)
Lemma set_back_int lo hi f (c c0 : Config) :
  config_ok c -> (fits f (num c f) -> lo <= num c f <= hi /\ I64_MIN <= num c f <= I64_MAX) ->
  apply_arm (PInt lo hi f) [decimal (num c f)] c0 = (set_num f (num c f) c0, None).
Proof. intros [Hf _] Hr. destruct (Hr (Hf f)). by apply store_inr, parse_int_decimal. Qed.

Lemma set_back_mem f (c c0 : Config) :
  config_ok c -> num_range f = (0, U64_MAX) -> apply_arm (PMem f) [decimal (num c f)] c0 = (set_num f (num c f) c0, None).
Proof. intros [Hf _] Hr. specialize (Hf f). unfold fits in Hf. rewrite Hr in Hf. by apply store_inr, parse_mem_decimal. Qed.

Lemma assoc_in {A} (l : list (bytes * A)) k a : assoc l k = Some a -> (k, a) ∈ l.
Proof. induction l as [|[k' b] l IH]; simpl; [done|]. case_decide; [subst; intros [= ->]; by left|]. intros Ha. right. auto. Qed.

(** What CONFIG GET shows of [nm] can be stored, and shows again, alone. *)
Definition settable cpus nm (c c0 : Config) (v : bytes) : Prop :=
  exists c1, apply nm [v] c0 = (c1, None) /\ config_get_one cpus c1 nm = Some v /\
    forall nm', nm' <> nm -> config_get_one cpus c1 nm' = config_get_one cpus c0 nm'.

Lemma settable_by cpus nm (c c0 c1 : Config) v d :
  directive_of nm = Some d -> apply_arm d [v] c0 = (c1, None) -> config_get_one cpus c1 nm = Some v ->
  Forall (fun p : bytes * (Config -> bytes) => p.1 <> nm -> p.2 c1 = p.2 c0) (getters cpus) -> settable cpus nm c c0 v.
Proof. intros Hd Ha Hg Ho. exists c1. split; [by eapply apply_arm_of|]. split; [done|by apply others_kept]. Qed.

Ltac others_same := unfold getters; repeat (apply Forall_cons_2; [intros Hne; first [reflexivity | by destruct Hne]|]); apply Forall_nil_2.

Lemma set_back cpus nm (c c0 : Config) v :
  config_ok c -> nm <> bs "save" -> nm <> bs "shard-count" -> config_get_one cpus c nm = Some v -> settable cpus nm c c0 v.
Proof.
  intros Hc Hs Hsc Hv. unfold config_get_one in Hv. destruct (assoc (getters cpus) nm) as [g|] eqn:Eg; [|done].
  simpl in Hv. injection Hv as <-. apply assoc_in in Eg. unfold getters in Eg.
  repeat (apply elem_of_cons in Eg as [Eg|Eg]; [injection Eg as -> ->|]); try (by apply elem_of_nil in Eg).
  all: try done.
  all: try (eapply settable_by; [vm_compute; reflexivity|apply set_back_int; [exact Hc|unfold fits; cbn; unfold I64_MIN, I64_MAX; lia]|reflexivity|others_same]).
  all: try (eapply settable_by; [vm_compute; reflexivity|apply set_back_mem; [exact Hc|reflexivity]|reflexivity|others_same]).
  - pose proof (proj1 Hc Databases) as Hd. unfold fits in Hd. cbn in Hd.
    eapply settable_by; [vm_compute; reflexivity| |apply (f_equal Some), (f_equal decimal), (set_num_get Databases _ c0)|others_same].
    apply store_inr. unfold parse_uint. rewrite parse_int_decimal by (unfold I64_MIN, I64_MAX, U64_MAX in *; lia). by rewrite decide_False by lia.
  - eapply settable_by; [vm_compute; reflexivity|apply (store_inr _ _ (maxmemory_policy c)); by destruct (maxmemory_policy c)|reflexivity|others_same].
  - eapply settable_by; [vm_compute; reflexivity|apply (store_inr _ _ (switch c Appendonly)); by destruct (switch c Appendonly)|reflexivity|others_same].
  - eapply settable_by; [vm_compute; reflexivity|apply (store_inr _ _ (appendfsync c)); by destruct (appendfsync c)|reflexivity|others_same].
  - eapply settable_by; [vm_compute; reflexivity|reflexivity| |others_same].
    change (Some (default [] (if decide (default [] (requirepass c) = []) then None else Some (default [] (requirepass c)))) = Some (default [] (requirepass c))).
    f_equal. case_decide as E; by rewrite ?E.
  - eapply settable_by; [vm_compute; reflexivity|apply (store_inr _ _ (notify_keyspace_events c)); by rewrite parse_rendered by apply Hc|reflexivity|others_same].
Qed.

(** C35: CONFIG SET takes back what CONFIG GET shows.  For every name CONFIG GET
    knows but [save] and [shard-count], the value shown for one well-formed
    configuration is accepted by any other, which then shows it and shows
    everything else as before.  [save] is the exception: CONFIG SET hands the
    directive one argument, and one argument is refused unless it is empty,
    so the points CONFIG GET shows cannot be set back. *)
Theorem config_get_set cpus :
  (forall nm c c0 v, config_ok c -> nm <> bs "save" -> nm <> bs "shard-count" -> config_get_one cpus c nm = Some v ->
    exists c1, apply nm [v] c0 = (c1, None) /\ config_get_one cpus c1 nm = Some v /\
      forall nm', nm' <> nm -> config_get_one cpus c1 nm' = config_get_one cpus c0 nm') /\
  (forall c v, v <> [] -> apply (bs "save") [v] c = (c, Some BadDirective)).
Proof. split; [intros nm c c0 v; apply set_back|]. intros c [|b v] Hv; done. Qed.

(** ** CONFIG SET through dispatch *)

(** A command without keys locks nothing and leaves the keyspace alone. *)
Lemma lock_nothing (spec : CommandSpec CmdHandler) args m :
  has_flag (flags spec) ALL_SHARDS = false -> has_flag (flags spec) MOVABLE_KEYS = false -> first_key spec = 0 ->
  lock_set m (shard_set_for spec args m) = {| guards := []; g_mask := mask m |}.
Proof.
  intros Ha Hm Hf. unfold shard_set_for. rewrite Ha. unfold key_positions. rewrite Hm, Hf. by rewrite decide_True by lia.
Qed.

Lemma release_nothing m w : release {| guards := []; g_mask := w |} m = m.
Proof. by destruct m. Qed.

Lemma propagate_nothing w is_write n args o :
  o_shards o = {| guards := []; g_mask := w |} -> propagate_outcome is_write n args o = {| guards := []; g_mask := w |}.
Proof. intros Ho. unfold propagate_outcome. by destruct (o_prop o); rewrite ?Ho; [case_match| |]. Qed.

(** The run of a handler that touches no shard. *)
Lemma run_unlocked (spec : CommandSpec CmdHandler) args s client out_ c' r :
  has_flag (flags spec) ALL_SHARDS = false -> has_flag (flags spec) MOVABLE_KEYS = false -> first_key spec = 0 ->
  handler spec args (ctx_new {| buf := out_; proto := client_proto client |} client (shared s) {| guards := []; g_mask := mask (shard_map s) |}
    (config s) (clock_ms s) (shard_map s)) = (c', r) ->
  shards c' = {| guards := []; g_mask := mask (shard_map s) |} ->
  run_locked spec s client out_ args =
    (with_shared (fun _ => server c') s, Ctx.client c', buf (out c'), match r with inl e => inl e | inr _ => inr (block c') end).
Proof.
  intros Ha Hm Hf Hh Hs. unfold run_locked. rewrite lock_nothing by done. rewrite Hh. unfold ctx_finish. cbn [o_shards o_block].
  assert (with_map (release {| guards := []; g_mask := mask (shard_map s) |}) s = s) as Hw by (unfold with_map; rewrite release_nothing; by destruct s).
  destruct r as [e|[]]; rewrite Hs, ?Hw; [done|].
  case_match; rewrite ?(propagate_nothing (mask (shard_map s))) by done; rewrite Hw; done.
Qed.

Definition set_request (args : Args) : Prop :=
  (exists sub, args !! 1%nat = Some sub /\ eq_ignore_ascii_case sub (bs "get") = false /\ eq_ignore_ascii_case sub (bs "set") = true) /\
  (4 <= length args)%nat /\ Nat.even (length args - 2) = true.

Lemma cmd_config_set_run cpus args c :
  set_request args ->
  cmd_config cpus args c =
    match update (apply_pairs (pairs_of (drop 2 args))) (config_handle (server c)) with
    | (_, Some e) => (c, inl (err (bs "CONFIG SET failed - " ++ config_error e)))
    | (next, None) => (set_out ok (set_server (set_handle next) c), inr tt)
    end.
Proof.
  intros ((sub & Hsub & Hget & Hset) & Hlen & Hev). unfold cmd_config, at_. rewrite Hsub, run_ok, Hget, Hset.
  assert ((length args <? 4)%nat = false) as -> by (by apply Nat.ltb_ge). rewrite Hev. cbn [orb negb]. rewrite run_ask.
  destruct (update _ _) as [next [e|]]; reflexivity.
Qed.

(** C16: CONFIG SET through dispatch is all or nothing.  The directives apply in
    order to a copy; if one is refused, or the result is not valid, the reply
    is the error and the server keeps the configuration it had, whatever had
    been applied before; else the reply is OK and the next command reads the
    new configuration.  Keys, clock and command table are untouched. *)
Theorem config_set_dispatch cpus s client out_ args :
  admitted s client args (config_spec cpus) -> set_request args ->
  let '(s', _, out', _) := dispatch s client out_ args in
  shard_map s' = shard_map s /\ clock_ms s' = clock_ms s /\ commands s' = commands s /\
  match apply_pairs (pairs_of (drop 2 args)) (config s) with
  | (_, Some e) => config s' = config s /\ out' = buf (error (err (bs "CONFIG SET failed - " ++ config_error e)) {| buf := out_; proto := client_proto client |})
  | (next, None) =>
      match validate next with
      | Some e => config s' = config s /\ out' = buf (error (err (bs "CONFIG SET failed - " ++ config_error e)) {| buf := out_; proto := client_proto client |})
      | None => config s' = next /\ out' = out_ ++ bs "+OK" ++ CRLF
      end
  end.
Proof.
  intros Had Hreq. rewrite (dispatch_admitted s client out_ args _ Had).
  set (s1 := with_shared (bump_stat commands_processed) s). set (client1 := with_last_command _ client).
  set (c0 := ctx_new {| buf := out_; proto := client_proto client1 |} client1 (shared s1) {| guards := []; g_mask := mask (shard_map s1) |}
    (config s1) (clock_ms s1) (shard_map s1)).
  pose proof (cmd_config_set_run cpus args c0 Hreq) as Hh. change (config_handle (server c0)) with (config s) in Hh. unfold update in Hh.
  assert (Hrun : forall c' r, cmd_config cpus args c0 = (c', r) -> shards c' = shards c0 -> run_locked (config_spec cpus) s1 client1 out_ args =
    (with_shared (fun _ => server c') s1, Ctx.client c', buf (out c'), match r with inl e => inl e | inr _ => inr (block c') end))
    by (intros c' r Hc Hs; by apply (run_unlocked (config_spec cpus) args s1 client1 out_ c' r)).
  destruct (apply_pairs _ (config s)) as [next [e|]].
  - rewrite (Hrun _ _ Hh eq_refl). simpl. rewrite decide_False by lia. done.
  - destruct (validate next) as [e|].
    + rewrite (Hrun _ _ Hh eq_refl). simpl. rewrite decide_False by lia. done.
    + rewrite (Hrun _ _ Hh eq_refl). done.
Qed.
End config.

(** ** Witnesses *)

Section witnesses.
#[local] Existing Instances memchr_find itoa_model itoa_model_laws ryu_model no_draws.

Definition server_table : CommandTable := default table_new (add_all (server_specs 4) table_new).

(** Two shards; [k] is stored and watched in both databases of both. *)
Definition stocked_db : Db -> Db := run_ops [OpSet (bs "k") (entry_new (Str (Int 1)) None 0 false); OpWatch (bs "k")].
Definition stocked_handle (i : nat) : ShardHandle :=
  {| lock := {| shard_index_ := i; dbs := stocked_db <$> [db_new 0; db_new 1]; Shard.dirty := 0; repl_buf := []; seq_ := 0 |};
     h_dirty := 0; h_keys := 2; h_expires := 0; h_mem := 0 |}.
Definition stocked : ServerShared :=
  {| shard_map := {| Shard.shards := stocked_handle <$> [0%nat; 1%nat]; mask := 1; databases := 2 |};
     clock_ms := 1000; commands := server_table; shared := demo_shared |}.

Lemma stocked_map_ok : map_ok (shard_map stocked).
Proof.
  split; [|by vm_compute|by repeat constructor]. intros key. unfold shard_index, map_len.
  change (Z.to_nat (Z.land (key_hash_slot key) 1) < 2)%nat. change 1 with (Z.ones 1). rewrite Z.land_ones by done.
  pose proof (Z.mod_pos_bound (key_hash_slot key) (2 ^ 1) ltac:(done)). lia.
Qed.

Lemma server_lookup nm spec :
  nm <> [] /\ (length nm <= MAX_CMD_NAME)%nat /\ name spec = to_ascii_lowercase <$> nm -> spec ∈ server_specs 4 ->
  Commands.lookup nm server_table = Some spec.
Proof.
  intros Hn Hin. unfold server_table.
  assert ((if add_all (server_specs 4) table_new then true else false) = true) as Hok by (vm_compute; reflexivity).
  destruct (add_all (server_specs 4) table_new) as [t|] eqn:Ht; [clear Hok|done]. simpl. by apply (lookup_iff _ t nm spec Ht).
Qed.

Lemma stocked_admits args spec :
  arg_name args <> [] /\ (length (arg_name args) <= MAX_CMD_NAME)%nat /\ name spec = to_ascii_lowercase <$> arg_name args ->
  spec ∈ server_specs 4 -> arity_ok spec (length args) = true -> has_flag (flags spec) DENYOOM = false ->
  admitted stocked (demo_client true) args spec.
Proof.
  intros Hn Hin Ha Hd. split; [by apply server_lookup|done|done|by rewrite Hd|apply stocked_map_ok|simpl; lia].
Qed.

Lemma flush_dispatch_witness :
  is_Some (server_entry (shard_map stocked) 0 (bs "k")) /\
  exists s' client', dispatch stocked (demo_client true) [] [bs "FLUSHALL"] = (s', client', bs "+OK" ++ CRLF, Done) /\
    flushed (fun _ => true) (shard_map stocked) (shard_map s') /\ total_dirty s' = wrapu 64 (0 + 4).
Proof.
  split; [eexists; by vm_compute|].
  apply (flush_dispatch stocked (demo_client true) [] [bs "FLUSHALL"] flushall_spec (fun _ => true) 4).
  - apply stocked_admits; [split_and!; [done|vm_compute; lia|reflexivity]|right; right; left|reflexivity..].
  - vm_compute. discriminate.
  - right. left.
Defined.

Lemma config_get_set_witness :
  config_get_one 4 config_default (bs "maxmemory-policy") = Some (bs "noeviction") /\
  exists c1, apply (bs "maxmemory-policy") [bs "noeviction"] (set_policy AllkeysLfu config_default) = (c1, None) /\
    config_get_one 4 c1 (bs "maxmemory-policy") = Some (bs "noeviction").
Proof.
  split; [reflexivity|].
  destruct (proj1 (config_get_set 4) (bs "maxmemory-policy") config_default (set_policy AllkeysLfu config_default) (bs "noeviction"))
    as (c1 & Ha & Hg & _); [apply config_default_ok|done|done|done|]. by exists c1.
Defined.

Lemma config_set_dispatch_witness :
  let '(s', _, out', _) := dispatch stocked (demo_client true) []
    [bs "config"; bs "set"; bs "maxmemory"; bs "1mb"; bs "port"; bs "x"] in
  config s' = config stocked /\ out' = bs "-ERR CONFIG SET failed - argument couldn't be parsed into an integer" ++ CRLF.
Proof.
  set (args := [bs "config"; bs "set"; bs "maxmemory"; bs "1mb"; bs "port"; bs "x"]).
  assert (Had : admitted stocked (demo_client true) args (config_spec 4)).
  { apply stocked_admits; [split_and!; [done|vm_compute; lia|reflexivity]|right; right; right; left|reflexivity..]. }
  assert (Hreq : set_request args) by (split; [by exists (bs "set")|split; [vm_compute; lia|done]]).
  pose proof (config_set_dispatch 4 stocked (demo_client true) [] args Had Hreq) as Hd.
  destruct (dispatch _ _ _ _) as [[[s' client'] out'] o]. destruct Hd as (_ & _ & _ & Hc).
  assert (E : (apply_pairs (pairs_of (drop 2 args)) (config stocked)).2 = Some Config.NotAnInteger) by (vm_compute; reflexivity).
  destruct (apply_pairs _ _) as [c e]. cbn [snd] in E. subst e. exact Hc.
Defined.
End witnesses.
