(* ===== verification/Connection.v ===== *)
(** * Connection commands ([src/command/connection.rs])

    [PING], [ECHO], [SELECT], [QUIT], [AUTH], [HELLO], [RESET] and the
    [CLIENT] container: the handlers that change the client's own state and,
    for [CLIENT KILL], other connections through the registry. *)
From S2P Require Import Prelude Config Crc Strnum Object Shard Errors Reply Notify Commands Engine Dtoa Client Registry Ctx StringCmd Views Dispatch Expire Generic GenericFacts Scan Dump ReadOnly Server.
Open Scope Z_scope.

Definition REDIS_VERSION : bytes := bs "7.4.0".
Definition HELLO_FIELDS : Z := 7.

(** ** The client's fields *)

Definition set_client (f : ClientState -> ClientState) (c : Ctx) : Ctx :=
  {| out := out c; client := f (client c); server := server c; shards := shards c; now_ms := now_ms c; cfg := cfg c; dirty := dirty c;
     prop := prop c; prop_buf := prop_buf c; block := block c; lfu := lfu c; server_shards := server_shards c |}.
Definition with_db (n : nat) (c : ClientState) : ClientState :=
  {| client_id := client_id c; client_name := client_name c; client_db := n; client_proto := client_proto c;
     client_flags := client_flags c; authenticated := authenticated c; addr := addr c; laddr := laddr c; fd := fd c;
     created_ms := created_ms c; last_interaction_ms := last_interaction_ms c; lib_name := lib_name c;
     lib_ver := lib_ver c; last_command := last_command c; multi := multi c |}.
Definition with_auth (b : bool) (c : ClientState) : ClientState :=
  {| client_id := client_id c; client_name := client_name c; client_db := client_db c; client_proto := client_proto c;
     client_flags := client_flags c; authenticated := b; addr := addr c; laddr := laddr c; fd := fd c;
     created_ms := created_ms c; last_interaction_ms := last_interaction_ms c; lib_name := lib_name c;
     lib_ver := lib_ver c; last_command := last_command c; multi := multi c |}.
Definition with_name (n : bytes) (c : ClientState) : ClientState :=
  {| client_id := client_id c; client_name := n; client_db := client_db c; client_proto := client_proto c;
     client_flags := client_flags c; authenticated := authenticated c; addr := addr c; laddr := laddr c; fd := fd c;
     created_ms := created_ms c; last_interaction_ms := last_interaction_ms c; lib_name := lib_name c;
     lib_ver := lib_ver c; last_command := last_command c; multi := multi c |}.
Definition with_proto (p : Z) (c : ClientState) : ClientState :=
  {| client_id := client_id c; client_name := client_name c; client_db := client_db c; client_proto := p;
     client_flags := client_flags c; authenticated := authenticated c; addr := addr c; laddr := laddr c; fd := fd c;
     created_ms := created_ms c; last_interaction_ms := last_interaction_ms c; lib_name := lib_name c;
     lib_ver := lib_ver c; last_command := last_command c; multi := multi c |}.
Definition with_lib (n v : bytes) (c : ClientState) : ClientState :=
  {| client_id := client_id c; client_name := client_name c; client_db := client_db c; client_proto := client_proto c;
     client_flags := client_flags c; authenticated := authenticated c; addr := addr c; laddr := laddr c; fd := fd c;
     created_ms := created_ms c; last_interaction_ms := last_interaction_ms c; lib_name := n;
     lib_ver := v; last_command := last_command c; multi := multi c |}.
Definition with_multi (m : MultiState) (c : ClientState) : ClientState :=
  {| client_id := client_id c; client_name := client_name c; client_db := client_db c; client_proto := client_proto c;
     client_flags := client_flags c; authenticated := authenticated c; addr := addr c; laddr := laddr c; fd := fd c;
     created_ms := created_ms c; last_interaction_ms := last_interaction_ms c; lib_name := lib_name c;
     lib_ver := lib_ver c; last_command := last_command c; multi := m |}.
Definition insert_flags (f : ClientFlags) (c : ClientState) : ClientState := with_flags (Z.lor (client_flags c) f) c.
Definition remove_flags (f : ClientFlags) (c : ClientState) : ClientState := with_flags (Z.ldiff (client_flags c) f) c.

(** [ctx.out.proto = p] *)
Definition set_proto (p : Z) (w : ReplyWriter) : ReplyWriter := {| buf := buf w; proto := p |}.
Definition set_registry (f : Registry -> Registry) (s : Shared) : Shared :=
  {| stats := stats s; server_dirty := server_dirty s; propagation_enabled := propagation_enabled s;
     sink_installed := sink_installed s; published := published s; draws := draws s; config_handle := config_handle s; registry := f (registry s) |}.

Section connection.
Context `{Memchr, Itoa, Ryu, Fastrand}.

Definition cmd_ping : CmdHandler := fun args =>
  sub2 ← ask (fun c => in_subscribe_mode (client c) && bool_decide (proto (out c) = RESP2));
  match args with
  | [_] => if sub2 : bool then reply (fun w => bulk [] (bulk (bs "pong") (array 2 w))) else reply (simple (bs "PONG"))
  | [_; msg] => if sub2 : bool then reply (fun w => bulk_from msg (bulk (bs "pong") (array 2 w))) else reply (bulk_from msg)
  | _ => fail (WrongArity (bs "ping"))
  end.

Definition cmd_echo : CmdHandler := fun args => msg ← try_ (at_ args 1); reply (bulk_from msg).

Definition cmd_select : CmdHandler := fun args =>
  raw ← try_ (at_ args 1);
  match string2ll raw with
  | None => fail NotAnInteger
  | Some n =>
      dbs ← ask (fun c => Z.of_nat (databases (server_shards c)));
      if bool_decide (n < 0) || bool_decide (dbs <= n) then fail (err (bs "DB index is out of range"))
      else do_ (set_client (with_db (Z.to_nat n)));; reply ok
  end.

Definition cmd_quit : CmdHandler := fun _ => do_ (set_client close_after_reply);; reply ok.

(** ** Authentication *)

Definition wrongpass : CmdError := custom (bs "WRONGPASS") (bs "invalid username-password pair or user is disabled.").
Definition no_password_set : CmdError :=
  err (bs "Client sent AUTH, but no password is set. Did you mean AUTH <username> <password>?").

Definition constant_time_eq (a b : bytes) : bool :=
  if decide (length a <> length b) then false
  else bool_decide (foldl (fun diff '(x, y) => Z.lor diff (Z.lxor (b2z x) (b2z y))) 0 (zip a b) = 0).

Definition check_auth (conf : Config) (user : option bytes) (pass : bytes) : CmdError + unit :=
  match requirepass conf with
  | None => inl no_password_set
  | Some expected =>
      if match user with Some u => negb (eq_ignore_ascii_case u (bs "default")) | None => false end then inl wrongpass
      else if constant_time_eq pass expected then inr tt else inl wrongpass
  end.

Definition cmd_auth : CmdHandler := fun args =>
  match args with
  | [_; pass] => conf ← ask cfg; do_auth ← try_ (check_auth conf None pass); do_ (set_client (with_auth true));; reply ok
  | [_; user; pass] => conf ← ask cfg; do_auth ← try_ (check_auth conf (Some user) pass); do_ (set_client (with_auth true));; reply ok
  | _ => fail (WrongArity (bs "auth"))
  end.

Definition name_error : CmdError := err (bs "Client names cannot contain spaces, newlines or special characters.").
Definition printable (c : byte) : bool := bool_decide (33 <= b2z c <= 126).
Definition validate_client_name (n : bytes) : CmdError + unit := if forallb printable n then inr tt else inl name_error.

(** The options of [HELLO]; each takes effect as it is read. *)
Fixpoint hello_options (args : list bytes) : M unit :=
  match args with
  | [] => mret tt
  | k :: rest =>
      let unknown : M unit := fail (err (bs "unknown argument '" ++ lossy k ++ bs "' to HELLO")) in
      if eq_ignore_ascii_case k (bs "AUTH") then
        match rest with
        | user :: pass :: rest =>
            conf ← ask cfg;
            checked ← try_ (check_auth conf (Some user) pass);
            do_ (set_client (with_auth true));;
            hello_options rest
        | _ => unknown
        end
      else if eq_ignore_ascii_case k (bs "SETNAME") then
        match rest with
        | n :: rest =>
            checked ← try_ (validate_client_name n);
            do_ (set_client (with_name n));;
            hello_options rest
        | [] => unknown
        end
      else unknown
  end.

Definition hello_noauth : CmdError :=
  custom (bs "NOAUTH") (bs "HELLO must be called with the client already authenticated, otherwise the HELLO <proto> AUTH <user> <pass> option can be used to authenticate the client and select the RESP protocol version at the same time").

Definition hello_reply (proto_ id_ : Z) (w : ReplyWriter) : ReplyWriter :=
  let field (k : bytes) (f : ReplyWriter -> ReplyWriter) (w : ReplyWriter) := f (bulk k w) in
  field (bs "modules") (array 0)
    (field (bs "role") (bulk (bs "master"))
      (field (bs "mode") (bulk (bs "standalone"))
        (field (bs "id") (int (wraps 64 id_))
          (field (bs "proto") (int proto_)
            (field (bs "version") (bulk REDIS_VERSION)
              (field (bs "server") (bulk (bs "redis")) (map HELLO_FIELDS w))))))).

Definition cmd_hello : CmdHandler := fun args =>
  p0 ← ask (fun c => client_proto (client c));
  p ← match drop 1 args with
      | [] => mret p0
      | raw :: opts =>
          match string2ll raw with
          | None => fail (err (bs "Protocol version is not an integer or out of range"))
          | Some v => if bool_decide (2 <= v <= 3) then hello_options opts;; mret v else fail NoProto
          end
      end;
  auth ← ask (fun c => authenticated (client c));
  if negb auth then fail hello_noauth
  else
    do_ (set_client (with_proto p));;
    do_ (set_out (set_proto p));;
    i ← ask (fun c => client_id (client c));
    reply (hello_reply p i).

Definition RESET_FLAGS : ClientFlags :=
  foldl Z.lor 0 [MULTI; DIRTY_CAS; DIRTY_EXEC; MONITOR; REPLY_OFF; REPLY_SKIP; REPLY_SKIP_NEXT].
Definition cmd_reset : CmdHandler := fun _ =>
  do_ (set_client (fun c => with_proto RESP2 (with_db 0 c)));;
  do_ (set_out (set_proto RESP2));;
  do_ (set_client (fun c => remove_flags RESET_FLAGS (with_multi (multi_reset (multi c)) (with_name [] c))));;
  conf ← ask cfg;
  do_ (set_client (fun c => if requirepass conf then with_auth false c else c));;
  reply (simple (bs "RESET")).

(** ** [CLIENT] *)

Definition uppercase (s : bytes) : bytes := (fun c => if bool_decide (97 <= b2z c <= 122) then z2b (b2z c - 32) else c) <$> s.
Definition unknown_subcommand (container sub_ : bytes) : CmdError :=
  err (bs "Unknown subcommand or wrong number of arguments for '" ++ lossy sub_ ++ bs "'. Try " ++ uppercase container ++ bs " HELP.").
Definition sub_arity (args : Args) (exact : nat) (nm : bytes) : CmdError + unit := if decide (length args = exact) then inr tt else inl (WrongArity nm).

Definition set_flag (args : Args) (flag : ClientFlags) : M unit :=
  if kw_at args 2 (bs "on") then do_ (set_client (insert_flags flag))
  else if kw_at args 2 (bs "off") then do_ (set_client (remove_flags flag))
  else fail Syntax.

Definition client_reply : CmdHandler := fun args =>
  if kw_at args 2 (bs "on") then
    do_ (set_client (remove_flags (Z.lor REPLY_OFF (Z.lor REPLY_SKIP REPLY_SKIP_NEXT))));; reply ok
  else if kw_at args 2 (bs "off") then do_ (set_client (insert_flags REPLY_OFF))
  else if kw_at args 2 (bs "skip") then
    do_ (set_client (fun c => if contains (client_flags c) REPLY_OFF then c else insert_flags REPLY_SKIP_NEXT c))
  else fail Syntax.

Definition client_help_lines : list bytes := [
  bs "CLIENT <subcommand> [<arg> [value] [opt] ...]. Subcommands are:";
  bs "GETNAME";
  bs "    Return the name of the current connection.";
  bs "ID";
  bs "    Return the ID of the current connection.";
  bs "INFO";
  bs "    Return information about the current client connection.";
  bs "KILL <ip:port>";
  bs "    Kill connection made from <ip:port>.";
  bs "KILL <option> <value> [<option> <value> [...]]";
  bs "    Kill connections. Options are:";
  bs "    * ADDR (<ip:port>|<unixsocket>:0)";
  bs "      Kill connections made from the specified address";
  bs "    * LADDR (<ip:port>|<unixsocket>:0)";
  bs "      Kill connections made to specified local address";
  bs "    * TYPE (NORMAL|MASTER|REPLICA|PUBSUB)";
  bs "      Kill connections by type.";
  bs "    * ID <client-id>";
  bs "      Kill connections by client id.";
  bs "    * MAXAGE <maxage>";
  bs "      Kill connections older than the specified age.";
  bs "    * SKIPME (YES|NO)";
  bs "      Skip killing current client (default: yes).";
  bs "LIST [options ...]";
  bs "    Return information about client connections. Options:";
  bs "    * TYPE (NORMAL|MASTER|REPLICA|PUBSUB)";
  bs "      Return clients of specified type.";
  bs "    * ID <id> [<id>...]";
  bs "      Return clients with the specified IDs.";
  bs "NO-EVICT (ON|OFF)";
  bs "    Protect current client connection from eviction.";
  bs "NO-TOUCH (ON|OFF)";
  bs "    Will not touch LRU/LFU stats when this mode is on.";
  bs "REPLY (ON|OFF|SKIP)";
  bs "    Control the replies sent to the current connection.";
  bs "SETINFO <option> <value>";
  bs "    Set client meta attr. Options are:";
  bs "    * LIB-NAME: the client lib name.";
  bs "    * LIB-VER: the client lib version.";
  bs "SETNAME <name>";
  bs "    Assign the name <name> to the current connection.";
  bs "UNPAUSE";
  bs "    Stop the current client pause, resuming traffic.";
  bs "HELP";
  bs "    Print this help."].
Definition client_help : M unit :=
  reply (fun w => foldl (fun w s => simple s w) (array (blen client_help_lines) w) client_help_lines).

(** ** Rows *)

(** The caller's own row, from live state. *)
Definition self_snapshot (c : Ctx) : ConnSnapshot :=
  let cl := client c in
  let s := match get_conn (client_id cl) (registry (server c)) with Some e => snap e | None => snapshot_new cl (fd cl) end in
  let s := refresh_from cl s in
  {| s_id := s_id s; s_addr := s_addr s; s_laddr := s_laddr s; s_fd := s_fd s; s_name := s_name s; s_created_ms := s_created_ms s;
     s_last_interaction_ms := s_last_interaction_ms s; s_db := client_db cl; s_resp := s_resp s; s_flags := s_flags s; s_sub := s_sub s;
     s_psub := s_psub s; s_ssub := s_ssub s;
     s_multi := if contains (client_flags cl) MULTI then blen (queue (multi cl)) else -1; s_watch := blen (watched (multi cl));
     qbuf := qbuf s; qbuf_free := qbuf_free s; argv_mem := argv_mem s; multi_mem := multi_mem s; s_net_in := s_net_in s;
     s_net_out := s_net_out s; rbs := rbs s; rbp := rbp s; obl := obl s; oll := oll s; omem := omem s; tot_mem := tot_mem s;
     s_last_command := s_last_command s; s_lib_name := s_lib_name s; s_lib_ver := s_lib_ver s |}.

(** [saturating_sub] and the division. *)
Definition age_secs (now since : Z) : Z := Z.max 0 (now - since) / 1000.
Definition info_fields (now : Z) (s : ConnSnapshot) : list (bytes * bytes) :=
  [(bs "id", decimal (s_id s)); (bs "addr", s_addr s); (bs "laddr", s_laddr s); (bs "fd", decimal (s_fd s)); (bs "name", lossy (s_name s));
   (bs "age", decimal (age_secs now (s_created_ms s))); (bs "idle", decimal (age_secs now (s_last_interaction_ms s)));
   (bs "flags", flag_string s); (bs "db", decimal (Z.of_nat (s_db s))); (bs "sub", decimal (s_sub s)); (bs "psub", decimal (s_psub s));
   (bs "ssub", decimal (s_ssub s)); (bs "multi", decimal (s_multi s)); (bs "watch", decimal (s_watch s)); (bs "qbuf", decimal (qbuf s));
   (bs "qbuf-free", decimal (qbuf_free s)); (bs "argv-mem", decimal (argv_mem s)); (bs "multi-mem", decimal (multi_mem s));
   (bs "tot-net-in", decimal (s_net_in s)); (bs "tot-net-out", decimal (s_net_out s)); (bs "rbs", decimal (rbs s)); (bs "rbp", decimal (rbp s));
   (bs "obl", decimal (obl s)); (bs "oll", decimal (oll s)); (bs "omem", decimal (omem s)); (bs "tot-mem", decimal (tot_mem s));
   (bs "events", events s); (bs "cmd", if decide (s_last_command s = []) then bs "NULL" else s_last_command s); (bs "user", bs "default");
   (bs "redir", bs "-1"); (bs "resp", decimal (s_resp s)); (bs "lib-name", lossy (s_lib_name s)); (bs "lib-ver", lossy (s_lib_ver s))].
Definition write_info_line (now : Z) (s : ConnSnapshot) : bytes := join_spaces ((fun p => p.1 ++ bs "=" ++ p.2) <$> info_fields now s).

Inductive ClientType := TNormal | TMaster | TReplica | TPubSub.
#[export] Instance client_type_eq_dec : EqDecision ClientType.
Proof. solve_decision. Defined.
Definition type_parse (raw : bytes) : option ClientType :=
  if eq_ignore_ascii_case raw (bs "normal") then Some TNormal
  else if eq_ignore_ascii_case raw (bs "master") then Some TMaster
  else if eq_ignore_ascii_case raw (bs "replica") || eq_ignore_ascii_case raw (bs "slave") then Some TReplica
  else if eq_ignore_ascii_case raw (bs "pubsub") then Some TPubSub
  else None.
Definition type_of (s : ConnSnapshot) : ClientType := if bool_decide (0 < s_sub s + s_psub s) then TPubSub else TNormal.
Definition unknown_type (raw : bytes) : CmdError := err (bs "Unknown client type '" ++ lossy raw ++ bs "'").
Definition invalid_id : CmdError := err (bs "Invalid client ID").

(** The ids after [ID], to the end. *)
Fixpoint id_options (args : list bytes) : CmdError + list Z :=
  match args with
  | [] => inr []
  | a :: args =>
      match string2ll a with
      | Some v => if bool_decide (v < 0) then inl invalid_id else match id_options args with inr l => inr (v :: l) | inl e => inl e end
      | None => inl invalid_id
      end
  end.
Fixpoint list_options (args : list bytes) (want_type : option ClientType) (want_ids : list Z) : CmdError + (option ClientType * list Z) :=
  match args with
  | [] => inr (want_type, want_ids)
  | k :: rest =>
      if eq_ignore_ascii_case k (bs "type") then
        match rest with
        | [] => inl Syntax
        | raw :: rest => match type_parse raw with Some t => list_options rest (Some t) want_ids | None => inl (unknown_type raw) end
        end
      else if eq_ignore_ascii_case k (bs "id") then
        match rest with
        | [] => inl Syntax
        | _ => match id_options rest with inr l => inr (want_type, want_ids ++ l) | inl e => inl e end
        end
      else inl Syntax
  end.

Definition row_wanted (want_type : option ClientType) (want_ids : list Z) (s : ConnSnapshot) : bool :=
  match want_type with Some t => bool_decide (t = type_of s) | None => true end &&
  (bool_decide (want_ids = []) || bool_decide (s_id s ∈ want_ids)).
(** The rows of [CLIENT LIST]: the caller's is live. *)
Definition list_rows (want_type : option ClientType) (want_ids : list Z) (c : Ctx) : list ConnSnapshot :=
  let me := self_snapshot c in
  filter (fun s => row_wanted want_type want_ids s)
    ((fun e => if decide (entry_id e = s_id me) then me else snap e) <$> snapshot_conns (registry (server c))).
Definition client_list : CmdHandler := fun args =>
  o ← try_ (list_options (drop 2 args) None []);
  rows ← ask (list_rows o.1 o.2);
  now ← ask now_ms;
  reply (bulk (rows ≫= (fun s => write_info_line now s ++ [x0a]))).

(** ** [CLIENT KILL] *)

Record KillFilter := { f_id : option Z; f_addr : option bytes; f_laddr : option bytes; f_class : option ClientType; maxage_secs : option Z; skipme : bool }.
Definition filter_default : KillFilter := {| f_id := None; f_addr := None; f_laddr := None; f_class := None; maxage_secs := None; skipme := true |}.
Definition filter_matches (f : KillFilter) (s : ConnSnapshot) (now : Z) : bool :=
  if match f_id f with Some i => negb (bool_decide (s_id s = i)) | None => false end then false
  else if match f_addr f with Some a => negb (bool_decide (a = s_addr s)) | None => false end then false
  else if match f_laddr f with Some a => negb (bool_decide (a = s_laddr s)) | None => false end then false
  else if match f_class f with Some c => negb (bool_decide (c = type_of s)) | None => false end then false
  else match maxage_secs f with Some m => negb (bool_decide (age_secs now (s_created_ms s) < m)) | None => true end.

Definition bad_id : CmdError := err (bs "client-id should be greater than 0").
Fixpoint kill_options (args : list bytes) (f : KillFilter) : CmdError + KillFilter :=
  match args with
  | [] => inr f
  | [_] => inl Syntax
  | k :: v :: rest =>
      if eq_ignore_ascii_case k (bs "id") then
        match string2ll v with
        | Some n =>
            if bool_decide (n < 1) then inl bad_id
            else kill_options rest {| f_id := Some n; f_addr := f_addr f; f_laddr := f_laddr f; f_class := f_class f; maxage_secs := maxage_secs f; skipme := skipme f |}
        | None => inl bad_id
        end
      else if eq_ignore_ascii_case k (bs "addr") then
        kill_options rest {| f_id := f_id f; f_addr := Some v; f_laddr := f_laddr f; f_class := f_class f; maxage_secs := maxage_secs f; skipme := skipme f |}
      else if eq_ignore_ascii_case k (bs "laddr") then
        kill_options rest {| f_id := f_id f; f_addr := f_addr f; f_laddr := Some v; f_class := f_class f; maxage_secs := maxage_secs f; skipme := skipme f |}
      else if eq_ignore_ascii_case k (bs "type") then
        match type_parse v with
        | Some t => kill_options rest {| f_id := f_id f; f_addr := f_addr f; f_laddr := f_laddr f; f_class := Some t; maxage_secs := maxage_secs f; skipme := skipme f |}
        | None => inl (unknown_type v)
        end
      else if eq_ignore_ascii_case k (bs "user") then
        if eq_ignore_ascii_case v (bs "default") then kill_options rest f else inl (err (bs "No such user '" ++ lossy v ++ bs "'"))
      else if eq_ignore_ascii_case k (bs "skipme") then
        if eq_ignore_ascii_case v (bs "yes") then
          kill_options rest {| f_id := f_id f; f_addr := f_addr f; f_laddr := f_laddr f; f_class := f_class f; maxage_secs := maxage_secs f; skipme := true |}
        else if eq_ignore_ascii_case v (bs "no") then
          kill_options rest {| f_id := f_id f; f_addr := f_addr f; f_laddr := f_laddr f; f_class := f_class f; maxage_secs := maxage_secs f; skipme := false |}
        else inl Syntax
      else if eq_ignore_ascii_case k (bs "maxage") then
        match string2ll v with
        | Some n =>
            if bool_decide (n < 0) then inl NotAnInteger
            else kill_options rest {| f_id := f_id f; f_addr := f_addr f; f_laddr := f_laddr f; f_class := f_class f; maxage_secs := Some n; skipme := skipme f |}
        | None => inl NotAnInteger
        end
      else inl Syntax
  end.

(** The loop over the registry: the table after it, how many were killed, and
    whether the caller is to go. *)
Fixpoint kill_loop (f : KillFilter) (me now : Z) (es : list ConnEntry) (r : Registry) (killed : Z) (kill_self : bool) : Registry * Z * bool :=
  match es with
  | [] => (r, killed, kill_self)
  | e :: es =>
      if negb (filter_matches f (snap e) now) then kill_loop f me now es r killed kill_self
      else if skipme f && bool_decide (s_id (snap e) = me) then kill_loop f me now es r killed kill_self
      else if bool_decide (s_id (snap e) = me) then kill_loop f me now es r (killed + 1) true
      else
        let '(e', sent) := kill e in
        kill_loop f me now es (register_conn e' r) (if sent then killed + 1 else killed) kill_self
  end.

Definition client_kill : CmdHandler := fun args =>
  if (length args <? 3)%nat then fail (WrongArity (bs "client|kill"))
  else
    let old_form := bool_decide (length args = 3%nat) in
    f ← try_ (if old_form : bool then
                match at_ args 2 with
                | inr a => inr {| f_id := None; f_addr := Some a; f_laddr := None; f_class := None; maxage_secs := None; skipme := false |}
                | inl e => inl e
                end
              else kill_options (drop 2 args) filter_default);
    o ← ask (fun c => kill_loop f (client_id (client c)) (now_ms c) (snapshot_conns (registry (server c))) (registry (server c)) 0 false);
    let '(r, killed, kill_self) := o in
    do_ (set_server (set_registry (fun _ => r)));;
    (if old_form : bool then
       if bool_decide (killed = 0) then fail (err (bs "No such client address in client list")) else reply ok
     else reply (int (wraps 64 killed)));;
    do_ (set_client (fun c => if kill_self : bool then close_after_reply c else c)).

(** ** The container *)

Definition named (nm : bytes) : M unit := do_ (set_client (with_last_command nm)).
Definition cmd_client : CmdHandler := fun args =>
  sub_ ← try_ (at_ args 1);
  if eq_ignore_ascii_case sub_ (bs "id") then
    named (bs "client|id");; checked ← try_ (sub_arity args 2 (bs "client|id"));
    i ← ask (fun c => client_id (client c)); reply (int (wraps 64 i))
  else if eq_ignore_ascii_case sub_ (bs "getname") then
    named (bs "client|getname");; checked ← try_ (sub_arity args 2 (bs "client|getname"));
    n ← ask (fun c => client_name (client c)); reply (if decide (n = []) then null else bulk_from n)
  else if eq_ignore_ascii_case sub_ (bs "setname") then
    named (bs "client|setname");; checked ← try_ (sub_arity args 3 (bs "client|setname"));
    n ← try_ (at_ args 2); checked ← try_ (validate_client_name n);
    do_ (set_client (with_name n));; reply ok
  else if eq_ignore_ascii_case sub_ (bs "setinfo") then
    named (bs "client|setinfo");; checked ← try_ (sub_arity args 4 (bs "client|setinfo"));
    attr ← try_ (at_ args 2); value ← try_ (at_ args 3); checked ← try_ (validate_client_name value);
    if eq_ignore_ascii_case attr (bs "lib-name") then do_ (set_client (fun c => with_lib value (lib_ver c) c));; reply ok
    else if eq_ignore_ascii_case attr (bs "lib-ver") then do_ (set_client (fun c => with_lib (lib_name c) value c));; reply ok
    else fail (err (bs "Unrecognized option '" ++ lossy attr ++ bs "'"))
  else if eq_ignore_ascii_case sub_ (bs "info") then
    named (bs "client|info");; checked ← try_ (sub_arity args 2 (bs "client|info"));
    me ← ask self_snapshot; now ← ask now_ms; reply (bulk (write_info_line now me))
  else if eq_ignore_ascii_case sub_ (bs "list") then named (bs "client|list");; client_list args
  else if eq_ignore_ascii_case sub_ (bs "kill") then named (bs "client|kill");; client_kill args
  else if eq_ignore_ascii_case sub_ (bs "no-evict") then
    named (bs "client|no-evict");; checked ← try_ (sub_arity args 3 (bs "client|no-evict")); set_flag args NO_EVICT;; reply ok
  else if eq_ignore_ascii_case sub_ (bs "no-touch") then
    named (bs "client|no-touch");; checked ← try_ (sub_arity args 3 (bs "client|no-touch")); set_flag args NO_TOUCH;; reply ok
  else if eq_ignore_ascii_case sub_ (bs "unpause") then
    named (bs "client|unpause");; checked ← try_ (sub_arity args 2 (bs "client|unpause")); reply ok
  else if eq_ignore_ascii_case sub_ (bs "reply") then
    named (bs "client|reply");; checked ← try_ (sub_arity args 3 (bs "client|reply")); client_reply args
  else if eq_ignore_ascii_case sub_ (bs "help") then named (bs "client|help");; client_help
  else fail (unknown_subcommand (bs "client") sub_).

(** ** [register] *)

Definition PLAIN_CONN : Z := Z.lor FAST (Z.lor LOADING STALE).
Definition CONN_NO_SHARDS : Z := Z.lor PLAIN_CONN (Z.lor NOSCRIPT NO_SHARDS).
Definition ping_spec : CommandSpec CmdHandler := spec1 (bs "ping") (-1) PLAIN_CONN 0 0 0 cmd_ping.
Definition echo_spec : CommandSpec CmdHandler := spec1 (bs "echo") 2 PLAIN_CONN 0 0 0 cmd_echo.
Definition select_spec : CommandSpec CmdHandler := spec1 (bs "select") 2 PLAIN_CONN 0 0 0 cmd_select.
Definition quit_spec : CommandSpec CmdHandler := spec1 (bs "quit") (-1) CONN_NO_SHARDS 0 0 0 cmd_quit.
Definition auth_spec : CommandSpec CmdHandler := spec1 (bs "auth") (-2) CONN_NO_SHARDS 0 0 0 cmd_auth.
Definition hello_spec : CommandSpec CmdHandler := spec1 (bs "hello") (-1) CONN_NO_SHARDS 0 0 0 cmd_hello.
Definition reset_spec : CommandSpec CmdHandler := spec1 (bs "reset") 1 CONN_NO_SHARDS 0 0 0 cmd_reset.
Definition client_spec : CommandSpec CmdHandler := spec1 (bs "client") (-2) (Z.lor ADMIN (Z.lor NOSCRIPT (Z.lor LOADING STALE))) 0 0 0 cmd_client.
Definition connection_specs : list (CommandSpec CmdHandler) :=
  [ping_spec; echo_spec; select_spec; quit_spec; auth_spec; hello_spec; reset_spec; client_spec].
End connection.
