(* ===== verification/Framing.v ===== *)
(** * A handler only appends its reply

    What [dispatch] does to the output buffer does not depend on what is
    already in it: run behind any prefix, a handler makes the same decisions,
    leaves the same server and writes the same bytes after the prefix.  This
    is what lets the connection loop collect the replies of a whole pipeline
    in one buffer, cut the buffer back to a mark, and flush it wherever it
    likes.  The property is closed under the handlers' monad, so each handler
    is checked by following its structure. *)
From S2P Require Import Prelude Config Crc Strnum Glob Object Shard Errors Reply Notify Commands Engine Dtoa Client Registry Ctx StringCmd Views Dispatch Expire Generic Sort GenericFacts Scan Dump ReadOnly Server Connection.
Open Scope Z_scope.

(** The writer, and the context, with [p] in front of its buffer. *)
Definition behind (p : bytes) (w : ReplyWriter) : ReplyWriter := {| buf := p ++ buf w; proto := proto w |}.
Definition shift (p : bytes) (c : Ctx) : Ctx := set_out (behind p) c.

Section framing.
Context `{Memchr, Itoa, Ryu, Fastrand, HashIter}.

Definition writes (f : ReplyWriter -> ReplyWriter) : Prop := forall p w, f (behind p w) = behind p (f w).
Definition appends {A} (m : M A) : Prop := forall p c, m (shift p c) = (shift p (m c).1, (m c).2).
(** A method of the context that does not touch the reply. *)
Definition aside {A} (f : Ctx -> Ctx * A) : Prop := forall p c, f (shift p c) = (shift p (f c).1, (f c).2).
Definition aside_do (f : Ctx -> Ctx) : Prop := forall p c, f (shift p c) = shift p (f c).
Definition blind {A} (f : Ctx -> A) : Prop := forall p c, f (shift p c) = f c.

(** ** The writer *)

Lemma writes_extend s : writes (extend_from_slice s).
Proof. intros p w. unfold extend_from_slice, behind. cbn. by rewrite app_assoc. Qed.
Lemma writes_comp f g : writes f -> writes g -> writes (fun w => f (g w)).
Proof. intros Hf Hg p w. by rewrite Hg, Hf. Qed.
Lemma writes_if (b : ReplyWriter -> bool) f g : (forall p w, b (behind p w) = b w) -> writes f -> writes g -> writes (fun w => if b w then f w else g w).
Proof. intros Hb Hf Hg p w. rewrite Hb. destruct (b w); [apply Hf|apply Hg]. Qed.
Lemma writes_foldl {A} (f : A -> ReplyWriter -> ReplyWriter) l : (forall x, writes (f x)) -> writes (fun w => foldl (fun w x => f x w) w l).
Proof. intros Hf. induction l as [|x l IH]; intros p w; simpl; [done|]. by rewrite Hf, IH. Qed.
End framing.

Create HintDb framing.
#[export] Hint Resolve writes_extend : framing.

(** Follows the calls of a writer's method. *)
Ltac writes_down :=
  intros ?p ?w; repeat first [ done | progress unfold put_u8, put_i64, put_usize, is_resp3 in * | rewrite !writes_extend | progress cbn [behind proto] | case_match ].

Section writer.
Context `{Memchr, Itoa, Ryu, Fastrand, HashIter}.

Lemma writes_ok : writes ok. Proof. apply writes_extend. Qed.
Lemma writes_simple s : writes (simple s). Proof. unfold simple. writes_down. Qed.
Lemma writes_error e : writes (error e). Proof. unfold error. writes_down. Qed.
Lemma writes_error_str m : writes (error_str m). Proof. unfold error_str. writes_down. Qed.
Lemma writes_int v : writes (int v). Proof. unfold int. writes_down. Qed.
Lemma writes_bulk b : writes (bulk b). Proof. unfold bulk. writes_down. Qed.
Lemma writes_bulk_i64 v : writes (bulk_i64 v). Proof. apply writes_bulk. Qed.
Lemma writes_null : writes null. Proof. unfold null. writes_down. Qed.
Lemma writes_null_array : writes null_array. Proof. unfold null_array. writes_down. Qed.
Lemma writes_array n : writes (array n). Proof. unfold array. writes_down. Qed.
Lemma writes_map n : writes (map n). Proof. unfold map, array. writes_down. Qed.
End writer.

(** ** The context's methods *)

Section methods.
Context `{Memchr, Itoa, Ryu, Fastrand, HashIter}.

Lemma aside_expire key : aside (expire_if_needed key).
Proof.
  intros p c. unfold expire_if_needed. change (key_db key (shift p c)) with (key_db key c). change (now_ms (shift p c)) with (now_ms c).
  destruct (key_db key c) as [d|]; [|done]. by destruct (negb _).
Qed.

Lemma aside_touch key : aside_do (touch_entry key).
Proof.
  intros p c. unfold touch_entry. change (client (shift p c)) with (client c). case_match; [done|]. cbv zeta.
  change (lfu (upd_key_db key ?f (shift p c))) with (lfu c). change (lfu (upd_key_db key ?f c)) with (lfu c).
  change (lfu (shift p c)) with (lfu c). by destruct (lfu c).
Qed.

Lemma aside_lookup_read key : aside (lookup_read key).
Proof.
  intros p c. unfold lookup_read. cbv zeta. rewrite !aside_expire. cbn [fst].
  set (c1 := (expire_if_needed key c).1). change (key_db key (shift p c1)) with (key_db key c1).
  destruct (_ ≫= _); [|done]. cbn [fst snd]. by rewrite <-aside_touch.
Qed.

Lemma aside_exists key : aside (exists_ key).
Proof. intros p c. unfold exists_. cbv zeta. by rewrite !aside_expire. Qed.

Lemma aside_type_name key : aside (ctx_type_name key).
Proof. intros p c. unfold ctx_type_name. rewrite aside_lookup_read. by destruct (lookup_read key c). Qed.

Lemma aside_expire_at key : aside (expire_at key).
Proof. intros p c. unfold expire_at. cbv zeta. by rewrite !aside_expire. Qed.

Lemma aside_set_expire key a : aside (ctx_set_expire key a).
Proof.
  intros p c. unfold ctx_set_expire. cbv zeta. rewrite !aside_expire. cbn [fst]. set (c1 := (expire_if_needed key c).1).
  change (key_db key (shift p c1)) with (key_db key c1). cbn [fst snd]. by case_match.
Qed.

Lemma aside_remove key : aside (remove key).
Proof.
  intros p c. unfold remove. cbv zeta. rewrite !aside_expire. cbn [fst]. set (c1 := (expire_if_needed key c).1).
  change (key_db key (shift p c1)) with (key_db key c1). by case_match.
Qed.

Lemma aside_get_typed_read {T} (proj : Robj -> option T) key p c :
  get_typed_read proj key (shift p c) = (shift p (get_typed_read proj key c).1, (get_typed_read proj key c).2).
Proof. unfold get_typed_read. rewrite aside_lookup_read. by destruct (lookup_read key c). Qed.

Lemma aside_notify class event key : aside_do (notify class event key).
Proof. intros p c. unfold notify. change (cfg (shift p c)) with (cfg c). by case_match. Qed.

Lemma aside_propagate argv : aside_do (propagate_argv argv).
Proof. intros p c. unfold propagate_argv. change (server (shift p c)) with (server c). by case_match. Qed.

Lemma aside_with_entry {R} key (f : Entry -> R) : aside (with_entry key f).
Proof. intros p c. unfold with_entry. rewrite aside_exists. destruct (exists_ key c) as [c1 []]; done. Qed.

Lemma aside_take_entry key n : aside (take_entry key n).
Proof. intros p c. unfold take_entry. change (db_at n key (shift p c)) with (db_at n key c). by destruct (_ ≫= _). Qed.
End methods.

(** ** The monad *)

Section monad.
Context `{Memchr, Itoa, Ryu, Fastrand, HashIter}.

Lemma appends_bind {A B} (m : M A) (f : A -> M B) : appends m -> (forall x, appends (f x)) -> appends (m ≫= f).
Proof.
  intros Hm Hf p c. unfold mbind, M_bind. rewrite Hm. destruct (m c) as [c1 [e|x]]; [done|]. apply Hf.
Qed.
Lemma appends_ret {A} (x : A) : appends (mret x). Proof. done. Qed.
Lemma appends_try {A} (r : CmdError + A) : appends (try_ r). Proof. done. Qed.
Lemma appends_fail {A} e : appends (fail e : M A). Proof. done. Qed.
Lemma appends_ask {A} (f : Ctx -> A) : blind f -> appends (ask f).
Proof. intros Hf p c. unfold ask. by rewrite Hf. Qed.
Lemma appends_call {A} (f : Ctx -> Ctx * A) : aside f -> appends (call f).
Proof. intros Hf p c. unfold call. rewrite Hf. by destruct (f c). Qed.
Lemma appends_do f : aside_do f -> appends (do_ f).
Proof. intros Hf p c. unfold do_. by rewrite Hf. Qed.
Lemma appends_reply f : writes f -> appends (do_ (set_out f)).
Proof. intros Hf p c. unfold do_, shift, set_out. cbn. by rewrite Hf. Qed.
Lemma appends_attempt {A} (m : M A) :
  appends m -> appends (fun c => let '(c, r) := m c in (c, inr r) : Ctx * (CmdError + (CmdError + A))).
Proof. intros Hm p c. rewrite Hm. by destruct (m c). Qed.
Lemma appends_read_str key : appends (read_str key).
Proof. intros p c. apply aside_get_typed_read. Qed.
Lemma writes_value v : writes (write_value v).
Proof. destruct v as [[]|]; [apply writes_bulk|apply writes_bulk_i64|apply writes_null]. Qed.
Lemma writes_bulks l : writes (fun w => foldl (fun w k => bulk_from k w) w l).
Proof. apply (writes_foldl bulk_from). intros k. apply writes_bulk. Qed.
Lemma writes_lines l : writes (fun w => foldl (fun w s => simple s w) w l).
Proof. apply (writes_foldl simple), writes_simple. Qed.
Lemma writes_pairs l : writes (write_pairs l).
Proof.
  unfold write_pairs. apply (writes_comp (fun w => foldl (fun w q => bulk q.2 (bulk q.1 w)) w l)); [|apply writes_map].
  apply (writes_foldl (fun q w => bulk q.2 (bulk q.1 w))). intros q. apply writes_comp; apply writes_bulk.
Qed.
End monad.

#[export] Hint Resolve appends_ret appends_try appends_fail appends_read_str aside_exists aside_expire_at aside_lookup_read
  aside_type_name aside_set_expire aside_remove aside_with_entry aside_take_entry aside_notify aside_propagate writes_ok writes_simple
  writes_int writes_bulk writes_bulk_i64 writes_null writes_null_array writes_array writes_map writes_value writes_bulks writes_lines
  writes_pairs : framing.

(** Follows the structure of a handler. *)
Ltac follow :=
  repeat first
    [ apply appends_bind; [|intros ?]
    | solve [eauto 2 with framing]
    | apply appends_reply; solve [eauto 2 with framing | case_match; eauto 2 with framing]
    | apply appends_call; solve [eauto 2 with framing]
    | apply appends_do; solve [eauto 2 with framing | intros ??; reflexivity]
    | apply appends_ask; solve [intros ??; reflexivity]
    | apply appends_attempt
    | progress unfold reply, write_opt, object_report, ctx_propagate
    | case_match ].

Section handlers.
Context `{Memchr, Itoa, Ryu, Fastrand, HashIter, ScanHash} (value_codec : option ValueCodec) (world : ShardMap -> nat -> ShardMap) (cpus : Z).

Lemma appends_del keys n : appends (del_loop keys n).
Proof. revert n. induction keys as [|k keys IH]; intros n; cbn [del_loop]; follow. Qed.
Lemma appends_exists keys n : appends (exists_loop keys n).
Proof. revert n. induction keys as [|k keys IH]; intros n; cbn [exists_loop]; follow. Qed.
Lemma appends_touch keys n : appends (touch_loop keys n).
Proof. revert n. induction keys as [|k keys IH]; intros n; cbn [touch_loop]; follow. Qed.
Lemma appends_mget keys : appends (mget_loop keys).
Proof. induction keys as [|k keys IH]; cbn [mget_loop]; follow. Qed.
Lemma appends_mset kvs : appends (mset_loop kvs).
Proof.
  remember (length kvs) as n eqn:Hn. revert kvs Hn. induction (lt_wf n) as [n _ IH]. intros [|k [|v kvs]] Hn; [apply appends_ret..|].
  cbn [mset_loop]. follow. apply (IH (length kvs)); [simpl in Hn; lia|done].
Qed.
Lemma appends_randomkey tries dbs now total : appends (randomkey_loop tries dbs now total).
Proof. induction tries as [|tries IH]; cbn [randomkey_loop]; follow. Qed.

Lemma writes_set_proto n : writes (set_proto n). Proof. done. Qed.
Lemma writes_pong f : writes f -> writes (fun w => f (bulk (bs "pong") (array 2 w))).
Proof. intros Hf. apply (writes_comp f); [done|]. apply (writes_comp (bulk (bs "pong"))); [apply writes_bulk|apply writes_array]. Qed.
Lemma writes_field k f g : writes f -> writes g -> writes (fun w => f (bulk k (g w))).
Proof. intros Hf Hg. apply (writes_comp f); [done|]. apply (writes_comp (bulk k)); [apply writes_bulk|done]. Qed.
Lemma writes_hello a b : writes (hello_reply a b).
Proof.
  unfold hello_reply. cbv zeta beta.
  apply (writes_field _ (array 0)); [apply writes_array|]. apply (writes_field _ (bulk _)); [apply writes_bulk|].
  apply (writes_field _ (bulk _)); [apply writes_bulk|]. apply (writes_field _ (int _)); [apply writes_int|].
  apply (writes_field _ (int _)); [apply writes_int|]. apply (writes_field _ (bulk _)); [apply writes_bulk|].
  apply (writes_field _ (bulk _)); [apply writes_bulk|]. apply writes_map.
Qed.
Lemma writes_client_help : writes (fun w => foldl (fun w s => simple s w) (array (blen client_help_lines) w) client_help_lines).
Proof. apply (writes_comp (fun w => foldl (fun w s => simple s w) w client_help_lines)); [apply writes_lines|apply writes_array]. Qed.
Lemma appends_hello args : appends (hello_options args).
Proof.
  remember (length args) as n eqn:Hn. revert args Hn. induction (lt_wf n) as [n _ IH]. intros [|k rest] ->; [apply appends_ret|]. cbn [hello_options]. cbv zeta.
  destruct (eq_ignore_ascii_case k _).
  - destruct rest as [|u [|q rest]]; [apply appends_fail..|]. follow. apply (IH (length rest)); [simpl; lia|done].
  - destruct (eq_ignore_ascii_case k _); [|apply appends_fail]. destruct rest as [|m rest]; [apply appends_fail|]. follow. apply (IH (length rest)); [simpl; lia|done].
Qed.
Lemma appends_pattern p e : appends (lookup_by_pattern p e).
Proof. unfold lookup_by_pattern. follow. Qed.
Lemma appends_weights by__ es : appends (with_weights by__ es).
Proof. pose proof appends_pattern. induction es as [|e es IH]; cbn [with_weights]; follow. Qed.
Lemma appends_keys p es : appends (with_keys p es).
Proof. pose proof appends_pattern. induction es as [|e es IH]; cbn [with_keys]; follow. Qed.
Lemma appends_ordered o es : appends (ordered o es).
Proof. pose proof appends_weights. pose proof appends_keys. unfold ordered. follow. Qed.
Lemma appends_sorted o d es : appends (sorted o d es).
Proof. pose proof appends_ordered. unfold sorted. follow. Qed.
Lemma appends_project_one ps e : appends (project_one ps e).
Proof. pose proof appends_pattern. induction ps as [|p ps IH]; cbn [project_one]; follow. Qed.
Lemma appends_project ps es : appends (project_all ps es).
Proof. pose proof appends_project_one. induction es as [|e es IH]; cbn [project_all]; follow. Qed.
Lemma appends_store_nothing dst : appends (store_nothing dst).
Proof. unfold store_nothing. follow. Qed.
Lemma writes_empty_array : writes empty_array. Proof. apply writes_extend. Qed.
Lemma writes_projected l : writes (write_projected l).
Proof.
  unfold write_projected. apply (writes_comp (fun w => foldl (fun w v => match v with Some b => bulk_from b w | None => null w end) w l)); [|apply writes_array].
  apply (writes_foldl (fun v w => match v with Some b => bulk_from b w | None => null w end)). intros [b|]; [apply writes_bulk|apply writes_null].
Qed.
Lemma appends_sort allow args : appends (sort_generic allow args).
Proof.
  pose proof appends_sorted. pose proof appends_ordered. pose proof appends_project. pose proof appends_store_nothing. pose proof writes_projected. pose proof writes_empty_array.
  unfold sort_generic, sort_elements. cbv zeta.
  apply appends_bind; [apply appends_try|]. intros key. apply appends_bind; [apply appends_try|]. intros opts.
  apply appends_bind; [follow|]. intros [els|]; [|follow].
  apply appends_bind; [follow|]. intros o. set (forced := _ && _ && _). set (opts' := if forced then _ else _). clearbody opts'. clearbody forced.
  apply appends_bind; [auto|]. intros es. apply appends_bind; [follow|]. intros pr. follow.
Qed.
Lemma appends_named nm : appends (named nm). Proof. done. Qed.
Lemma appends_set_flag args f : appends (set_flag args f). Proof. unfold set_flag. follow. Qed.
Lemma appends_client args : appends (cmd_client args).
Proof.
  unfold cmd_client. pose proof appends_set_flag. pose proof appends_named. pose proof writes_client_help. pose proof writes_bulk.
  unfold client_reply, client_help, client_kill, client_list, bulk_from.
  follow.
Qed.
End handlers.

#[export] Hint Resolve appends_del appends_exists appends_touch appends_mget appends_mset appends_randomkey : framing.

Section table.
Context `{Memchr, Itoa, Ryu, Fastrand, HashIter, ScanHash} (value_codec : option ValueCodec) (world : ShardMap -> nat -> ShardMap) (cpus : Z).

(** What [build_table] registers, less COMMAND and INFO. *)
Definition full_table : list (CommandSpec CmdHandler) := table_specs value_codec world ++ server_specs cpus ++ connection_specs.

Lemma aside_put key e n : aside_do (put_entry key e n). Proof. done. Qed.
Lemma aside_set_lru key v : aside_do (set_lru_raw key v). Proof. done. Qed.

Lemma connection_appends : Forall (fun spec => forall args, appends (handler spec args)) connection_specs.
Proof.
  repeat apply Forall_cons_2; [..|apply Forall_nil_2]; intros args;
    cbn [spec1 ping_spec echo_spec select_spec quit_spec auth_spec hello_spec reset_spec client_spec handler].
  - unfold cmd_ping. follow.
    all: try (apply appends_reply; [apply writes_pong, writes_bulk || apply writes_bulk]).
  - unfold cmd_echo, bulk_from. follow.
  - unfold cmd_select. follow.
  - unfold cmd_quit. follow.
  - unfold cmd_auth. follow.
  - unfold cmd_hello. pose proof appends_hello. pose proof writes_hello. pose proof writes_set_proto. follow.
  - unfold cmd_reset. pose proof writes_set_proto. follow.
  - apply appends_client.
Qed.

Lemma table_appends spec args : spec ∈ full_table -> appends (handler spec args).
Proof.
  intros Hin. revert args. revert spec Hin. apply (proj1 (Forall_forall (fun spec => forall args, appends (handler spec args)) full_table)). unfold full_table. rewrite app_assoc. apply Forall_app. split; [|apply connection_appends].
  unfold table_specs, generic_specs, server_specs. cbn [app].
  repeat apply Forall_cons_2; [..|apply Forall_nil_2]; intros args;
    cbn [spec1 set_spec get_spec strlen_spec mget_spec mset_spec sort_spec sort_ro_spec dbsize_spec flushdb_spec flushall_spec config_spec handler].
  all: try apply appends_sort.
  all: try (unfold cmd_set, cmd_get, cmd_strlen, cmd_mget, cmd_mset, cmd_del, cmd_exists, cmd_type, cmd_touch, cmd_ttl, cmd_pttl,
    ttl_generic, cmd_expiretime, cmd_pexpiretime, expiretime_generic, cmd_persist, cmd_expire, cmd_pexpire, cmd_expireat, cmd_pexpireat,
    expire_generic, cmd_rename, cmd_renamenx, rename_generic, cmd_copy, cmd_move, cmd_keys, cmd_randomkey, cmd_scan, cmd_object,
    cmd_dump, cmd_restore, cmd_dbsize, cmd_flushdb, cmd_flushall, cmd_config; follow).
Qed.
End table.

(** ** Through dispatch *)

(** Every command the server knows appends its reply. *)
Definition table_framed `{Memchr, Itoa, Ryu, Fastrand} (s : ServerShared) : Prop :=
  forall nm spec, Commands.lookup nm (commands s) = Some spec -> forall args, appends (handler spec args).

Section dispatch.
Context `{Memchr, Itoa, Ryu, Fastrand}.

Definition prefixed {A B C} (p : bytes) (r : A * B * bytes * C) : A * B * bytes * C := let '(a, b, out, o) := r in (a, b, p ++ out, o).

Lemma reply_error_shift p out_ pr e s : reply_error (p ++ out_) pr e s = ((reply_error out_ pr e s).1, p ++ (reply_error out_ pr e s).2).
Proof. unfold reply_error. cbn [fst snd]. f_equal. exact (f_equal buf (writes_error e p {| buf := out_; proto := pr |})). Qed.

Lemma run_locked_shift p (spec : CommandSpec CmdHandler) s client out_ args :
  appends (handler spec args) -> run_locked spec s client (p ++ out_) args = prefixed p (run_locked spec s client out_ args).
Proof.
  intros Ha. unfold run_locked.
  set (g := lock_set _ _). set (c0 := ctx_new {| buf := out_; proto := client_proto client |} client (shared s) g (config s) (clock_ms s) (shard_map s)).
  change (ctx_new {| buf := p ++ out_; proto := client_proto client |} client (shared s) g (config s) (clock_ms s) (shard_map s)) with (shift p c0).
  rewrite Ha. destruct (handler spec args c0) as [c' r]. reflexivity.
Qed.

Lemma dispatch_shift p s client out_ args :
  table_framed s -> dispatch s client (p ++ out_) args = prefixed p (dispatch s client out_ args).
Proof.
  intros Ht. unfold dispatch. case_decide; [done|]. cbv zeta. change (commands (with_shared _ s)) with (commands s).
  destruct (Commands.lookup (arg_name args) (commands s)) as [spec|] eqn:El; [|rewrite reply_error_shift; by destruct (reply_error _ _ _ _)].
  destruct (negb (arity_ok _ _)); [rewrite reply_error_shift; by destruct (reply_error _ _ _ _)|].
  destruct (_ && _); [rewrite reply_error_shift; by destruct (reply_error _ _ _ _)|]. cbn [intercept].
  destruct (if has_flag _ _ then _ else _); [rewrite reply_error_shift; by destruct (reply_error _ _ _ _)|].
  rewrite run_locked_shift by (by eapply Ht).
  destruct (run_locked spec _ _ out_ args) as [[[s' c'] out'] [e|[req|]]]; cbn [prefixed]; [|done..].
  rewrite !length_app.
  assert (E : (if decide (length p + length out_ < length p + length out')%nat then take (length p + length out_) (p ++ out') else p ++ out') =
    p ++ (if decide (length out_ < length out')%nat then take (length out_) out' else out')).
  { destruct (decide (length out_ < length out')%nat); [rewrite decide_True by lia|by rewrite decide_False by lia]. by rewrite take_app_add. }
  rewrite E, reply_error_shift. by destruct (reply_error _ _ _ _).
Qed.

(** The reply comes after what was there, and depends on none of it. *)
Lemma dispatch_appends s client out_ args :
  table_framed s -> dispatch s client out_ args = prefixed out_ (dispatch s client [] args).
Proof. intros Ht. rewrite <-(app_nil_r out_) at 1. by apply dispatch_shift. Qed.

Lemma dispatch_commands s client out_ args : commands (dispatch s client out_ args).1.1.1 = commands s.
Proof.
  unfold dispatch, reply_error. case_decide; [done|]. cbv zeta. change (commands (with_shared _ s)) with (commands s).
  destruct (Commands.lookup _ _) as [spec|]; [|done]. destruct (negb _); [done|]. destruct (_ && _); [done|]. cbn [intercept].
  destruct (if has_flag _ _ then _ else _); [done|]. unfold run_locked. cbv zeta.
  destruct (handler spec args _) as [c' [e|[]]]; [done|]. cbn [ctx_finish o_block]. by destruct (block c').
Qed.

Lemma framed_same_table s s' : commands s' = commands s -> table_framed s -> table_framed s'.
Proof. intros E Ht nm spec. rewrite E. apply Ht. Qed.
End dispatch.

(** C24: Any command of the tables, dispatched behind whatever the output buffer
    already holds, makes the same decisions, leaves the same server and client
    and writes the same bytes, which come after the buffer's contents: one
    reply never looks at, nor touches, another. *)
Theorem reply_isolated `{Memchr, Itoa, Ryu, Fastrand, HashIter, ScanHash} (value_codec : option ValueCodec) (world : ShardMap -> nat -> ShardMap)
    cpus t s client out_ args :
  add_all (full_table value_codec world cpus) table_new = Some t -> commands s = t ->
  let '(s1, client1, reply, o) := dispatch s client [] args in dispatch s client out_ args = (s1, client1, out_ ++ reply, o).
Proof.
  intros Ht Hc. rewrite (dispatch_appends s client out_ args); [by destruct (dispatch s client [] args) as [[[??]?]?]|].
  intros nm spec Hl args'. rewrite Hc in Hl. apply (lookup_iff _ t nm spec Ht) in Hl as [Hin _]. by apply (table_appends value_codec world cpus).
Qed.
