(* ===== verification/Conn.v ===== *)
(** * The connection loop ([src/net/conn.rs])

    One iteration reads what the socket has, executes every complete command
    the read buffer holds into the staging buffer, and flushes once.  The
    socket, what wakes the loop and the clock are the environment: an [Event]
    is what the [select!] of one iteration came back with.  Buffer capacities
    are the allocator's, a parameter of what [publish] shows of them. *)
From S2P Require Import Prelude Config Crc Strnum Parser Glob Object Shard Errors Reply Notify Output Commands Engine Dtoa Client Registry Ctx StringCmd Views Dispatch Expire Generic GenericFacts Scan Dump ReadOnly Server Connection Framing.
Open Scope Z_scope.

Definition CONFIG_RECHECK_BATCHES : Z := 256.
Definition MAX_CLIENTS_ERROR : bytes := bs "-ERR max number of clients reached" ++ CRLF.

(** ** Protocol errors ([ProtoError] of [src/resp/parser.rs]) *)

(** [char::from(u8)], as UTF-8. *)
Definition char_of (c : byte) : bytes :=
  let z := b2z c in if decide (z < 128) then [c] else [z2b (192 + Z.shiftr z 6); z2b (128 + Z.land z 63)].
Definition proto_message (e : ProtoError) : bytes :=
  match e with
  | InvalidMultibulkLength => bs "Protocol error: invalid multibulk length"
  | InvalidBulkLength => bs "Protocol error: invalid bulk length"
  | ExpectedDollar c => bs "Protocol error: expected '$', got '" ++ char_of c ++ bs "'"
  | TooBigInline => bs "Protocol error: too big inline request"
  | UnbalancedQuotes => bs "Protocol error: unbalanced quotes in request"
  | TooBigMbulkCount => bs "Protocol error: too big mbulk count string"
  | TooBigBulkCount => bs "Protocol error: too big bulk count string"
  end.
Definition wire_message (e : ProtoError) : bytes := bs "ERR " ++ proto_message e.

Section conn.
Context `{Memchr, Itoa, Ryu, Fastrand}.

(** ** One command *)

(** The reply a blocking command gets while nothing can block. *)
Definition unblocked_reply (req : BlockRequest) : ReplyWriter -> ReplyWriter :=
  if timeout_is_null_array (kind req) then null_array else int 0.

(** The arm [Parsed::Command] of [execute_batch]; the boolean is [return true]. *)
Definition run_command (s : ServerShared) (client : ClientState) (staging : bytes) (args : Args) :
    ServerShared * ClientState * bytes * bool :=
  let mark := length staging in
  match dispatch s client staging args with
  | (s, client, staging, Close) => (s, post_command client, staging, true)
  | (s, client, staging, outcome) =>
      let staging :=
        match outcome with
        | Blocked req => buf (unblocked_reply req {| buf := staging; proto := client_proto client |})
        | _ => staging
        end in
      let staging := if reply_suppressed client then take mark staging else staging in
      (s, post_command client, staging, false)
  end.

(** ** One batch *)

(** The loop of [execute_batch].  [None] is out of fuel. *)
Fixpoint batch_loop (fuel : nat) (s : ServerShared) (client : ClientState) (p : RequestParser) (b staging : bytes) :
    option (ServerShared * ClientState * RequestParser * bytes * bytes * bool) :=
  match fuel with
  | O => None
  | S fuel =>
      match Parser.parse p b with
      | None => None
      | Some (p, b, inr Incomplete) => Some (s, client, p, b, staging, false)
      | Some (p, b, inr Empty) => batch_loop fuel s client p b staging
      | Some (p, b, inr (Command args)) =>
          match run_command s client staging args with
          | (s, client, staging, true) => Some (s, client, p, b, staging, true)
          | (s, client, staging, false) => batch_loop fuel s client p b staging
          end
      | Some (p, b, inl e) =>
          Some (with_shared (bump_stat total_error_replies) s, client, p, b,
                buf (error_str (wire_message e) {| buf := staging; proto := client_proto client |}), true)
      end
  end.
(** Every round but the last takes bytes out of the buffer. *)
Definition batch (s : ServerShared) (client : ClientState) (p : RequestParser) (b staging : bytes) :=
  batch_loop (S (length b)) s client p b staging.

(** ** The connection *)

Record Conn := {
  read_buf : bytes;
  conn_out : OutputBuffer;
  parser : RequestParser;
  limits : OutputLimits;
  batches : Z;
  tot_net_in : Z;
  tot_net_out : Z
}.
Definition conn_new (mx : Z) : Conn :=
  {| read_buf := []; conn_out := output_new; parser := parser_new mx; limits := limits_default; batches := 0; tot_net_in := 0; tot_net_out := 0 |}.

Definition set_io (b : bytes) (p : RequestParser) (o : OutputBuffer) (c : Conn) : Conn :=
  {| read_buf := b; conn_out := o; parser := p; limits := limits c; batches := batches c; tot_net_in := tot_net_in c; tot_net_out := tot_net_out c |}.
Definition set_conn_out (o : OutputBuffer) (c : Conn) : Conn := set_io (read_buf c) (parser c) o c.

Definition execute_batch (s : ServerShared) (client : ClientState) (c : Conn) : option (ServerShared * ClientState * Conn * bool) :=
  '(s, client, p, b, out, close) ← batch s client (parser c) (read_buf c) (staging (conn_out c));
  Some (s, client, set_io b p (set_staging out (conn_out c)) c, close).

Definition add_stat (k : Counter) (n : Z) (s : Shared) : Shared :=
  {| stats := stats_add k n (stats s); server_dirty := server_dirty s; propagation_enabled := propagation_enabled s;
     sink_installed := sink_installed s; published := published s; draws := draws s; config_handle := config_handle s; registry := registry s |}.
Definition refresh_clock (now : Z) (s : ServerShared) : ServerShared :=
  {| shard_map := shard_map s; clock_ms := now; commands := commands s; shared := shared s |}.
Definition with_interaction (now : Z) (c : ClientState) : ClientState :=
  {| client_id := client_id c; client_name := client_name c; client_db := client_db c; client_proto := client_proto c;
     client_flags := client_flags c; authenticated := authenticated c; addr := addr c; laddr := laddr c; fd := fd c;
     created_ms := created_ms c; last_interaction_ms := now; lib_name := lib_name c;
     lib_ver := lib_ver c; last_command := last_command c; multi := multi c |}.

Definition check_output_limit (s : ServerShared) (client : ClientState) (c : Conn) : Conn * option LimitBreach :=
  let class := if in_subscribe_mode client then PubSub else Normal in
  let '(o, v) := check_limit (for_class class (limits c)) (clock_ms s) (conn_out c) in (set_conn_out o c, v).

(** The sizes the allocator gave the buffers: the spare room of the read
    buffer, its size and peak, the memory of the connection. *)
Class BufferSizes := buffer_sizes : Conn -> Z * Z * Z * Z.

Definition publish `{BufferSizes} (client : ClientState) (c : Conn) (s : Shared) : Shared :=
  let '(free, size, peak, mem) := buffer_sizes c in
  set_registry (alter (update_entry (fun e =>
    let e := refresh_from client e in
    {| s_id := s_id e; s_addr := s_addr e; s_laddr := s_laddr e; s_fd := s_fd e; s_name := s_name e; s_created_ms := s_created_ms e;
       s_last_interaction_ms := s_last_interaction_ms e; s_db := s_db e; s_resp := s_resp e; s_flags := s_flags e; s_sub := s_sub e;
       s_psub := s_psub e; s_ssub := s_ssub e; s_multi := s_multi e; s_watch := s_watch e;
       qbuf := blen (read_buf c); qbuf_free := free; argv_mem := argv_mem e; multi_mem := multi_mem e; s_net_in := tot_net_in c;
       s_net_out := tot_net_out c; rbs := size; rbp := peak; obl := Z.of_nat (pending (conn_out c)); oll := Z.of_nat (queued_frames (conn_out c));
       omem := Z.of_nat (peak_pending (conn_out c)); tot_mem := mem;
       s_last_command := s_last_command e; s_lib_name := s_lib_name e; s_lib_ver := s_lib_ver e |})) (client_id client)) s.

Section socket.
Context {W : Type} `{AsyncWrite W, BufferSizes}.

(** The state of the task: the server, the client, the connection, the socket. *)
Record Task := { t_server : ServerShared; t_client : ClientState; t_conn : Conn; t_sock : W }.

Definition flush_conn (t : Task) : option (Task * option IoError) :=
  if is_empty (conn_out (t_conn t)) then Some (t, None)
  else
    '(w, o, r) ← flush (t_sock t) (conn_out (t_conn t));
    let c := set_conn_out o (t_conn t) in
    match r with
    | inl e => Some ({| t_server := t_server t; t_client := t_client t; t_conn := c; t_sock := w |}, Some e)
    | inr n =>
        Some ({| t_server := with_shared (fun sh => bump_stat total_writes_processed (add_stat net_output_bytes (Z.of_nat n) sh)) (t_server t);
                 t_client := t_client t;
                 t_conn := {| read_buf := read_buf c; conn_out := conn_out c; parser := parser c; limits := limits c; batches := batches c;
                              tot_net_in := tot_net_in c; tot_net_out := tot_net_out c + Z.of_nat n |};
                 t_sock := w |}, None)
    end.

(** What one iteration was woken by: a frame from another thread, a kill or
    the end of the channel, input read at a time of the clock (none of it at
    the end of the stream), a read error, the idle deadline. *)
Inductive Event := EvFrame (f : bytes) | EvUnblock | EvKill | EvRead (data : bytes) (now : Z) | EvReadError (e : IoError) | EvIdle.

(** [continue], or the result of [connection_loop]. *)
Inductive Verdict := Continue | Finished (r : option IoError).

Definition after_read (data : bytes) (now : Z) (t : Task) : Task :=
  let s := with_shared (fun sh => bump_stat total_reads_processed (add_stat net_input_bytes (blen data) sh)) (t_server t) in
  let s := refresh_clock now s in
  let c := t_conn t in
  let n := wrapu 32 (batches c + 1) in
  let client := with_interaction now (t_client t) in
  let c := {| read_buf := read_buf c ++ data; conn_out := conn_out c;
              parser := if decide (n mod CONFIG_RECHECK_BATCHES = 0) then set_proto_max_bulk_len (num (config s) ProtoMaxBulkLen) (parser c) else parser c;
              limits := limits c; batches := n; tot_net_in := tot_net_in c + blen data; tot_net_out := tot_net_out c |} in
  {| t_server := with_shared (publish client c) s; t_client := client; t_conn := c; t_sock := t_sock t |}.

Definition publish_task (t : Task) : Task :=
  {| t_server := with_shared (publish (t_client t) (t_conn t)) (t_server t); t_client := t_client t; t_conn := t_conn t; t_sock := t_sock t |}.

(** The body of the loop in [connection_loop]. *)
Definition loop_step (shutting_down : bool) (ev : Event) (t : Task) : option (Task * Verdict) :=
  if shutting_down then Some (t, Finished None)
  else
    match ev with
    | EvFrame f =>
        let c := set_conn_out (push_bytes f (conn_out (t_conn t))) (t_conn t) in
        let '(c, breach) := check_output_limit (t_server t) (t_client t) c in
        let t := {| t_server := t_server t; t_client := t_client t; t_conn := c; t_sock := t_sock t |} in
        match breach with
        | Some _ =>
            Some ({| t_server := t_server t; t_client := t_client t; t_conn := set_conn_out (discard (conn_out c)) c; t_sock := t_sock t |}, Finished None)
        | None => '(t, e) ← flush_conn t; Some (t, match e with Some e => Finished (Some e) | None => Continue end)
        end
    | EvUnblock => Some (t, Continue)
    | EvKill => '(t, _) ← flush_conn t; Some (t, Finished None)
    | EvReadError e => Some (t, Finished (Some e))
    | EvIdle => Some (t, Finished None)
    | EvRead [] _ => Some (t, Finished None)
    | EvRead data now =>
        let t := after_read data now t in
        '(s, client, c, close) ← execute_batch (t_server t) (t_client t) (t_conn t);
        '(t, e) ← flush_conn {| t_server := s; t_client := client; t_conn := c; t_sock := t_sock t |};
        match e with
        | Some e => Some (t, Finished (Some e))
        | None => Some (publish_task t, if close || should_close client then Finished None else Continue)
        end
    end.

(** The idle arm wakes only when a timeout is configured. *)
Definition may_happen (ev : Event) (s : ServerShared) : bool :=
  match ev with EvIdle => negb (bool_decide (saturating_mul (num (config s) Timeout) 1000 = 0)) | _ => true end.

(** [connection_loop] over the events of a run, up to the one it returns at. *)
Fixpoint connection_loop (evs : list Event) (t : Task) : option (Task * Verdict) :=
  match evs with
  | [] => Some (t, Continue)
  | ev :: evs =>
      '(t, v) ← loop_step false ev t;
      match v with Continue => connection_loop evs t | Finished _ => Some (t, v) end
  end.
End socket.

(** [maxclients]: what [serve_stream] does first; [connected] is the size of
    the registry. *)
Definition admission (connected : Z) (s : ServerShared) : ServerShared * option bytes :=
  if decide (num (config s) Maxclients <= connected) then (with_shared (bump_stat rejected_connections) s, Some MAX_CLIENTS_ERROR)
  else (s, None).
Definition accepted (id now : Z) (addr laddr : bytes) (fd_ : Z) (unix : bool) (s : ServerShared) : ServerShared * ClientState * Conn :=
  let c := client_new id addr laddr now (bool_decide (is_Some (requirepass (config s)))) in
  let c := {| client_id := client_id c; client_name := client_name c; client_db := client_db c; client_proto := client_proto c;
     client_flags := if unix then Z.lor (client_flags c) UNIX_SOCKET else client_flags c; authenticated := authenticated c; addr := Client.addr c; laddr := Client.laddr c; fd := fd_;
     created_ms := created_ms c; last_interaction_ms := last_interaction_ms c; lib_name := lib_name c;
     lib_ver := lib_ver c; last_command := last_command c; multi := multi c |} in
  (with_shared (set_registry (register_conn (conn_entry_new (snapshot_new c fd_)))) s, c, conn_new (num (config s) ProtoMaxBulkLen)).
(** What [serve_stream] does last. *)
Definition departed (id : Z) (s : ServerShared) : ServerShared := with_shared (set_registry (unregister_conn id)) s.
End conn.
