(* ===== verification/ConnFacts.v ===== *)
(** * The connection loop: facts

    A batch ends; it is the sequential execution of the commands the parser
    delivers; and the loop over the bytes of a connection is the loop that is
    handed whole commands, each by the read that completes it. *)
From S2P Require Import Prelude Config Crc Strnum Parser Glob Object Shard Errors Reply Notify Stream Output Commands Engine Dtoa Client Registry Ctx StringCmd Views Dispatch Expire Generic GenericFacts Scan Dump ReadOnly Server Connection Framing Conn.
Open Scope Z_scope.

Section batch.
Context `{MemchrLaws, Itoa, Ryu, Fastrand}.

(** ** One command *)

Lemma run_command_commands s client st args : commands (run_command s client st args).1.1.1 = commands s.
Proof.
  unfold run_command. pose proof (dispatch_commands s client st args) as E.
  destruct (dispatch s client st args) as [[[s' c'] st'] []]; exact E.
Qed.

Lemma run_command_shift p s client st args :
  table_framed s -> run_command s client (p ++ st) args = prefixed p (run_command s client st args).
Proof.
  intros Ht. unfold run_command. rewrite dispatch_shift by done.
  destruct (dispatch s client st args) as [[[s' c'] st'] o]. cbn [prefixed]. rewrite !length_app.
  assert (E : forall l, take (length p + length st) (p ++ l) = p ++ take (length st) l) by (intros l; by rewrite take_app_add).
  assert (Hu : forall req pr l, buf (unblocked_reply req {| buf := p ++ l; proto := pr |}) = p ++ buf (unblocked_reply req {| buf := l; proto := pr |})).
  { intros req pr l. unfold unblocked_reply.
    case_match; [exact (f_equal buf (writes_null_array p {| buf := l; proto := pr |}))|exact (f_equal buf (writes_int 0 p {| buf := l; proto := pr |}))]. }
  destruct o as [|req|]; cbn [prefixed]; [| |done]; rewrite ?Hu; destruct (reply_suppressed c'); by rewrite ?E.
Qed.

(** ** The loop *)

Lemma parse_round p b : wf p b -> exists p' b' r, Parser.parse p b = Some (p', b', r) /\
  match r with
  | inl _ => True
  | inr Incomplete => b' = b /\ wf p' b
  | inr _ => p' = parser_new (proto_max_bulk_len p) /\ (length b' < length b)%nat
  end.
Proof.
  intros Hwf. destruct (parse_loop_total (parse_fuel b) p b Hwf) as (p' & b' & r & Hp & Hr).
  { rewrite <-(app_nil_r b) at 2. apply rounds_fuel. }
  exists p', b', r. split; [exact Hp|]. destruct r as [|[| |]]; naive_solver.
Qed.

Lemma wf_fresh mx b : wf (parser_new mx) b.
Proof. by apply wf_start. Qed.

(** A batch ends, whatever the fuel past the length of the buffer. *)
Lemma batch_loop_ends fuel s client p b st :
  wf p b -> (length b < fuel)%nat -> exists r, batch_loop fuel s client p b st = Some r /\ batch s client p b st = Some r /\
    (r.2 = false -> let '(_, _, p', b', _, _) := r in wf p' b' /\ proto_max_bulk_len p' = proto_max_bulk_len p).
Proof.
  unfold batch. remember (length b) as n eqn:Hn. revert fuel s client p b st Hn.
  induction (lt_wf n) as [n _ IH]. intros [|fuel] s client p b st Hn Hwf Hf; [lia|]. cbn [batch_loop].
  destruct (parse_round p b Hwf) as (p' & b' & r & Hp & Hr). rewrite Hp.
  assert (Hpres : match r with inr Incomplete => proto_max_bulk_len p' = proto_max_bulk_len p | _ => True end).
  { destruct (parse_loop_total (parse_fuel b) p b Hwf) as (p2 & b2 & r2 & Hp2 & Hr2).
    { rewrite <-(app_nil_r b) at 2. apply rounds_fuel. }
    unfold Parser.parse in Hp. rewrite Hp in Hp2. injection Hp2 as <- <- <-. destruct r as [|[]]; naive_solver. }
  destruct r as [e|[args| |]].
  - by eexists.
  - destruct Hr as [-> Hlen]. destruct (run_command s client st args) as [[[s' c'] st'] []]; [by eexists|].
    destruct (IH (length b') ltac:(lia) fuel s' c' (parser_new (proto_max_bulk_len p)) b' st' eq_refl (wf_fresh _ _) ltac:(lia)) as (r & E1 & E2 & E3).
    destruct (IH (length b') ltac:(lia) n s' c' (parser_new (proto_max_bulk_len p)) b' st' eq_refl (wf_fresh _ _) ltac:(lia)) as (r' & E1' & E2' & _).
    exists r. rewrite E1, E1'. rewrite E2 in E2'. injection E2' as ->. done.
  - destruct Hr as [-> Hlen].
    destruct (IH (length b') ltac:(lia) fuel s client (parser_new (proto_max_bulk_len p)) b' st eq_refl (wf_fresh _ _) ltac:(lia)) as (r & E1 & E2 & E3).
    destruct (IH (length b') ltac:(lia) n s client (parser_new (proto_max_bulk_len p)) b' st eq_refl (wf_fresh _ _) ltac:(lia)) as (r' & E1' & E2' & _).
    exists r. rewrite E1, E1'. rewrite E2 in E2'. injection E2' as ->. done.
  - destruct Hr as [-> Hwf']. by eexists.
Qed.

(** One round of a batch. *)
Lemma batch_unfold s client p b st : wf p b ->
  batch s client p b st =
    match Parser.parse p b with
    | None => None
    | Some (p, b, inr Incomplete) => Some (s, client, p, b, st, false)
    | Some (p, b, inr Empty) => batch s client p b st
    | Some (p, b, inr (Command args)) =>
        match run_command s client st args with
        | (s, client, st, true) => Some (s, client, p, b, st, true)
        | (s, client, st, false) => batch s client p b st
        end
    | Some (p, b, inl e) =>
        Some (with_shared (bump_stat total_error_replies) s, client, p, b,
              buf (error_str (wire_message e) {| buf := st; proto := client_proto client |}), true)
    end.
Proof.
  intros Hwf. unfold batch at 1. cbn [batch_loop]. destruct (parse_round p b Hwf) as (p' & b' & r & Hp & Hr). rewrite Hp.
  destruct r as [e|[args| |]]; [done| | |done]; destruct Hr as [-> Hlen].
  - destruct (run_command s client st args) as [[[s' c'] st'] []]; [done|].
    by destruct (batch_loop_ends (length b) s' c' (parser_new (proto_max_bulk_len p)) b' st' (wf_fresh _ _) Hlen) as (r & -> & -> & _).
  - by destruct (batch_loop_ends (length b) s client (parser_new (proto_max_bulk_len p)) b' st (wf_fresh _ _) Hlen) as (r & -> & -> & _).
Qed.

(** Induction over the rounds of a batch. *)
Lemma batch_ind (P : ServerShared -> ClientState -> RequestParser -> bytes -> bytes -> Prop) :
  (forall s client p b st, wf p b ->
    (forall s' client' st' p' b', p' = parser_new (proto_max_bulk_len p) -> (length b' < length b)%nat -> commands s' = commands s -> P s' client' p' b' st') ->
    P s client p b st) ->
  forall s client p b st, wf p b -> P s client p b st.
Proof.
  intros Hstep s client p b. remember (length b) as n eqn:Hn. revert s client p b Hn.
  induction (lt_wf n) as [n _ IH]. intros s client p b Hn st Hwf. apply Hstep; [done|].
  intros s' client' st' p' b' -> Hlen _. apply (IH (length b')); [lia|done|apply wf_fresh].
Qed.

(** ** Staged output *)

Lemma batch_shift pre s client p b st :
  wf p b -> table_framed s ->
  batch s client p b (pre ++ st) = (fun '(s, client, p, b, out, close) => (s, client, p, b, pre ++ out, close)) <$> batch s client p b st.
Proof.
  intros Hwf. revert s client p b st Hwf. refine (batch_ind _ _). intros s client p b st Hwf IH Ht.
  rewrite !batch_unfold by done. destruct (parse_round p b Hwf) as (p' & b' & r & Hp & Hr). rewrite Hp.
  destruct r as [e|[args| |]].
  - cbn. do 3 f_equal. exact (f_equal buf (writes_error_str (wire_message e) pre {| buf := st; proto := client_proto client |})).
  - destruct Hr as [-> Hlen]. rewrite run_command_shift by done. pose proof (run_command_commands s client st args) as Hc.
    destruct (run_command s client st args) as [[[s' c'] st'] []]; cbn [prefixed]; [done|]. apply IH; [done..|]. by eapply framed_same_table.
  - destruct Hr as [-> Hlen]. by apply IH.
  - done.
Qed.

Lemma batch_after out s client p b :
  wf p b -> table_framed s ->
  batch s client p b out = (fun '(s, client, p, b, out', close) => (s, client, p, b, out ++ out', close)) <$> batch s client p b [].
Proof. intros Hwf Ht. rewrite <-(app_nil_r out) at 1. by apply batch_shift. Qed.

Lemma batch_commands s client p b st r : wf p b -> batch s client p b st = Some r -> commands r.1.1.1.1.1 = commands s.
Proof.
  intros Hwf. revert s client p b st Hwf. refine (batch_ind _ _). intros s client p b st Hwf IH Hb.
  rewrite batch_unfold in Hb by done. destruct (parse_round p b Hwf) as (p' & b' & q & Hp & Hr). rewrite Hp in Hb.
  destruct q as [e|[args| |]]; [by injection Hb as <-| | |by injection Hb as <-]; destruct Hr as [-> Hlen].
  - pose proof (run_command_commands s client st args) as Hc.
    destruct (run_command s client st args) as [[[s' c'] st'] []]; [by injection Hb as <-|]. rewrite <-Hc. by eapply IH.
  - by eapply IH.
Qed.

Lemma batch_total s client p b st : wf p b -> exists s' client' p' b' out close,
  batch s client p b st = Some (s', client', p', b', out, close) /\ (close = false -> wf p' b' /\ proto_max_bulk_len p' = proto_max_bulk_len p).
Proof.
  intros Hwf. destruct (batch_loop_ends (S (length b)) s client p b st Hwf ltac:(lia)) as (r & _ & E & Hr).
  destruct r as [[[[[s' c'] p'] b'] out] close]. exists s', c', p', b', out, close. split; [done|]. exact Hr.
Qed.

(** ** The sequential reference *)

(** Commands run one after the other, each with a buffer of its own, up to
    the one that closes the connection. *)
Fixpoint run_all (s : ServerShared) (client : ClientState) (cmds : list Args) : ServerShared * ClientState * bytes * bool :=
  match cmds with
  | [] => (s, client, [], false)
  | args :: cmds =>
      match run_command s client [] args with
      | (s, client, out, true) => (s, client, out, true)
      | (s, client, out, false) => let '(s, client, out', close) := run_all s client cmds in (s, client, out ++ out', close)
      end
  end.

(** A batch whose buffer parses to [cs] and then waits. *)
Lemma session_batch s client p b cs p' b' : table_framed s -> wf p b -> session p b cs p' b' ->
  let '(s', client', out, close) := run_all s client cs in
  exists q c, batch s client p b [] = Some (s', client', q, c, out, close) /\ (close = false -> q = p' /\ c = b').
Proof.
  intros Ht Hwf Hs. revert s client Ht. induction Hs as [p b p' Hp|p b p1 b1 cs p2 b2 Hp Hs IH|p b p1 b1 args cs p2 b2 Hp Hs IH]; intros s client Ht.
  - cbn [run_all]. exists p', b. by rewrite batch_unfold, Hp.
  - assert (Hwf1 : wf p1 b1) by (apply parse_delivers in Hp as Hq; [rewrite Hq; apply wf_fresh|done..]).
    specialize (IH Hwf1 s client Ht). destruct (run_all s client cs) as [[[s2 c2] out2] close2]. rewrite batch_unfold, Hp by done. exact IH.
  - cbn [run_all]. pose proof (run_command_commands s client [] args) as Hc.
    destruct (run_command s client [] args) as [[[s1 c1] out1] []] eqn:Er; [exists p1, b1; by rewrite batch_unfold, Hp, Er|].
    assert (Hwf1 : wf p1 b1) by (apply parse_delivers in Hp as Hq; [rewrite Hq; apply wf_fresh|done..]).
    assert (Ht1 : table_framed s1) by by eapply framed_same_table.
    specialize (IH Hwf1 s1 c1 Ht1). destruct (run_all s1 c1 cs) as [[[s2 c2] out2] close2]. destruct IH as (q & c & E & Hq).
    exists q, c. split; [|done]. rewrite batch_unfold, Hp, Er by done. by rewrite batch_after, E.
Qed.

Lemma run_all_app s client cs1 cs2 :
  run_all s client (cs1 ++ cs2) =
  let '(s1, client1, out1, close) := run_all s client cs1 in
  if close : bool then (s1, client1, out1, true)
  else let '(s2, client2, out2, close2) := run_all s1 client1 cs2 in (s2, client2, out1 ++ out2, close2).
Proof.
  revert s client. induction cs1 as [|args cs1 IH]; intros s client; cbn [app run_all].
  { by destruct (run_all s client cs2) as [[[??]?]?]. }
  destruct (run_command s client [] args) as [[[s' c'] out] []]; [done|]. rewrite IH.
  destruct (run_all s' c' cs1) as [[[s1 c1] out1] []]; [done|]. destruct (run_all s1 c1 cs2) as [[[s2 c2] out2] close2]. by rewrite app_assoc.
Qed.
End batch.

(** ** The loop around the socket *)

Section loop.
Context `{MemchrLaws, Itoa, Ryu, Fastrand} {W : Type} `{AsyncWriteLaws W, BufferSizes}.

(** Between two iterations: nothing is pending, the parser's offsets lie in
    the read buffer, the table is one whose commands append. *)
Definition task_ok (t : Task (W := W)) : Prop :=
  ok (conn_out (t_conn t)) /\ content (conn_out (t_conn t)) = [] /\ wf (parser (t_conn t)) (read_buf (t_conn t)) /\ table_framed (t_server t).
(** Everything the peer has been sent or is still owed. *)
Definition stream (t : Task (W := W)) : bytes := received (t_sock t) ++ content (conn_out (t_conn t)).

Lemma flush_conn_spec t : ok (conn_out (t_conn t)) -> exists t' e, flush_conn t = Some (t', e) /\
  ok (conn_out (t_conn t')) /\ stream t' = stream t /\ commands (t_server t') = commands (t_server t) /\
  read_buf (t_conn t') = read_buf (t_conn t) /\ parser (t_conn t') = parser (t_conn t) /\ batches (t_conn t') = batches (t_conn t) /\
  t_client t' = t_client t /\ received (t_sock t) `prefix_of` received (t_sock t') /\ (e = None -> content (conn_out (t_conn t')) = []).
Proof.
  intros Ho. unfold flush_conn, stream. destruct (is_empty (conn_out (t_conn t))) eqn:Ee.
  - exists t, None. split_and!; try done. intros _. apply bool_decide_eq_true in Ee.
    apply nil_length_inv. rewrite <-pending_content by done. lia.
  - destruct (flush_sent (t_sock t) (conn_out (t_conn t)) Ho) as (w' & o' & r & -> & H1' & H2' & Hp & H3'). cbn [mbind option_bind].
    destruct r as [e|n]; eexists _, _; (split; [done|]); cbn; split_and!; try done. intros _. apply H3'.
Qed.

(** The bytes an event makes the connection owe its peer. *)
Definition emitted (ev : Event) (t : Task (W := W)) : bytes :=
  match ev with
  | EvFrame f => f
  | EvRead (c :: d) now =>
      let t := after_read (c :: d) now t in
      match batch (t_server t) (t_client t) (parser (t_conn t)) (read_buf (t_conn t)) [] with Some (_, _, _, _, out, _) => out | None => [] end
  | _ => []
  end.

Lemma stream_settled t : task_ok t -> stream t = received (t_sock t).
Proof. intros (_ & Hc & _). unfold stream. by rewrite Hc, app_nil_r. Qed.

(** A step that added [out] to the stream and then flushed. *)
Lemma flush_settles t out : ok (conn_out (t_conn t)) -> stream t = received (t_sock t) ++ out ->
  exists t' e, flush_conn t = Some (t', e) /\ t_client t' = t_client t /\
    read_buf (t_conn t') = read_buf (t_conn t) /\ parser (t_conn t') = parser (t_conn t) /\ batches (t_conn t') = batches (t_conn t) /\
    received (t_sock t) `prefix_of` received (t_sock t') /\ received (t_sock t') `prefix_of` received (t_sock t) ++ out /\
    (e = None -> received (t_sock t') = received (t_sock t) ++ out) /\
    (e = None -> wf (parser (t_conn t)) (read_buf (t_conn t)) -> table_framed (t_server t) -> task_ok t').
Proof.
  intros Ho Hst. destruct (flush_conn_spec t Ho) as (t' & e & Ef & H1' & H2' & H3' & H4' & H5' & H5b' & H6' & H7' & H8').
  exists t', e. do 6 (split; [done|]). rewrite <-Hst, <-H2'. split; [by eexists|]. unfold stream, task_ok. split.
  - intros He. by rewrite H8', app_nil_r.
  - intros He Hwf Ht. rewrite H4', H5'. split_and!; [done|by apply H8'|done|by eapply framed_same_table].
Qed.

(** One iteration: how what was sent relates to what it made the connection owe. *)
Definition step_sends (ev : Event) (t t' : Task (W := W)) (v : Verdict) : Prop :=
  received (t_sock t) `prefix_of` received (t_sock t') /\ received (t_sock t') `prefix_of` received (t_sock t) ++ emitted ev t /\
  match v, ev with
  | Continue, _ => task_ok t' /\ received (t_sock t') = received (t_sock t) ++ emitted ev t
  | Finished None, EvRead _ _ => received (t_sock t') = received (t_sock t) ++ emitted ev t
  | _, _ => True
  end.

Lemma step_stays ev t v : task_ok t -> v <> Continue -> (match v, ev with Finished None, EvRead d _ => d = [] | _, _ => True end) -> step_sends ev t t v.
Proof.
  intros Ht Hv He. split; [done|]. split; [by apply prefix_app_r|]. destruct v as [|[]]; [done..|]. destruct ev; try done. subst. by rewrite app_nil_r.
Qed.

Lemma frame_step f t : task_ok t -> exists t' v, loop_step false (EvFrame f) t = Some (t', v) /\ step_sends (EvFrame f) t t' v.
Proof.
  intros Ht. pose proof Ht as (Ho & Hc & Hwf & Htf). cbn [loop_step]. unfold check_output_limit.
  destruct (push_bytes_spec f _ Ho) as [Hp Hpc]. rewrite Hc in Hpc. cbn [app] in Hpc.
  destruct (check_limit _ _ _) as [o v] eqn:Ec. destruct (check_keeps _ _ _ _ _ Ec) as (E1 & E2 & E3 & E4). cbn [conn_out set_conn_out set_io] in *.
  destruct v as [br|].
  - eexists _, _. split; [done|]. split; [done|]. split; [by apply prefix_app_r|done].
  - set (t1 := {| t_server := t_server t; t_client := _; t_conn := _; t_sock := _ |}).
    assert (Ho1 : ok (conn_out (t_conn t1))) by by eapply ok_same; [..|exact Hp].
    destruct (flush_settles t1 f Ho1) as (t' & e & -> & _ & _ & _ & _ & P1 & P2 & P3 & P4).
    { unfold stream, content. cbn. rewrite E1, E3, E4. unfold content in Hpc. by rewrite Hpc. }
    cbn [mbind option_bind]. eexists _, _. split; [done|]. split; [done|]. split; [done|]. destruct e; [done|]. split; [by apply P4|by apply P3].
Qed.

Lemma read_step data now t : task_ok t -> data <> [] -> exists t' v, loop_step false (EvRead data now) t = Some (t', v) /\ step_sends (EvRead data now) t t' v.
Proof.
  intros (Ho & Hc & Hwf & Ht) Hd. destruct data as [|x data]; [done|]. set (d := x :: data). cbn [loop_step]. fold d. set (t1 := after_read d now t).
  assert (Hwf1 : wf (parser (t_conn t1)) (read_buf (t_conn t1))).
  { subst t1. unfold after_read. cbn [t_conn parser read_buf]. case_decide; by apply (wf_app _ _ d) in Hwf. }
  assert (Ht1 : table_framed (t_server t1)) by by eapply framed_same_table.
  destruct (batch_total (t_server t1) (t_client t1) _ _ [] Hwf1) as (s & client & p & b & out & close & E & Hok).
  unfold execute_batch. rewrite batch_after, E by done. cbn [fmap option_fmap option_map mbind option_bind].
  set (t2 := {| t_server := s; t_client := client; t_conn := _; t_sock := _ |}).
  assert (Ho2 : ok (conn_out (t_conn t2))) by by apply (ok_same (conn_out (t_conn t))).
  destruct (flush_settles t2 out Ho2) as (t' & e & -> & _ & _ & _ & _ & P1 & P2 & P3 & P4).
  { unfold stream, content in *. cbn. apply app_eq_nil in Hc as [E1 E2]. by rewrite E1, E2. }
  assert (Em : emitted (EvRead d now) t = out).
  { change (match batch (t_server t1) (t_client t1) (parser (t_conn t1)) (read_buf (t_conn t1)) [] with Some (_, _, _, _, o, _) => o | None => [] end = out). by rewrite E. }
  cbn [mbind option_bind].
  destruct e as [e|]; (eexists _, _; split; [done|]); (split; [done|]); rewrite Em; (split; [done|]); [done|].
  destruct close; cbn [orb]; [by apply P3|]. destruct (should_close client); [by apply P3|].
  split; [|by apply P3]. destruct (Hok eq_refl) as [Hwf2 _]. apply P4; [done..|].
  apply (framed_same_table (t_server t1)); [|done]. by apply (batch_commands _ _ _ _ _ _ Hwf1) in E.
Qed.

Lemma loop_step_spec ev t : task_ok t -> exists t' v, loop_step false ev t = Some (t', v) /\ step_sends ev t t' v.
Proof.
  intros Ht. pose proof Ht as (Ho & Hc & _). destruct ev as [f| | |[|c d] now|e|].
  - by apply frame_step.
  - exists t, Continue. split; [done|]. split; [done|]. cbn [emitted]. by rewrite app_nil_r.
  - cbn [loop_step]. destruct (flush_settles t [] Ho) as (t' & e & -> & _ & _ & _ & _ & P1 & P2 & _); [by rewrite stream_settled, app_nil_r|].
    eexists _, _. by split; [done|].
  - eexists _, _. split; [done|]. by apply step_stays.
  - by apply read_step.
  - eexists _, _. split; [done|]. by apply step_stays.
  - eexists _, _. split; [done|]. by apply step_stays.
Qed.

(** What a run owes: the events up to the one that ends it. *)
Fixpoint emissions (evs : list Event) (t : Task (W := W)) : bytes :=
  match evs with
  | [] => []
  | ev :: evs => emitted ev t ++ match loop_step false ev t with Some (t, Continue) => emissions evs t | _ => [] end
  end.

Lemma connection_run evs t : task_ok t -> exists t' v, connection_loop evs t = Some (t', v) /\
  received (t_sock t) `prefix_of` received (t_sock t') /\ received (t_sock t') `prefix_of` received (t_sock t) ++ emissions evs t /\
  (v = Continue -> task_ok t' /\ received (t_sock t') = received (t_sock t) ++ emissions evs t).
Proof.
  revert t. induction evs as [|ev evs IH]; intros t Ht.
  { exists t, Continue. split; [done|]. cbn [emissions]. by rewrite app_nil_r. }
  destruct (loop_step_spec ev t Ht) as (t1 & v1 & E & P1 & P2 & P3). cbn [connection_loop emissions]. rewrite E. cbn [mbind option_bind].
  destruct v1 as [|r].
  - destruct P3 as [Ht1 Eq]. destruct (IH t1 Ht1) as (t' & v & -> & Q1 & Q2 & Q3). exists t', v. split; [done|]. rewrite app_assoc, <-Eq.
    split; [by transitivity (received (t_sock t1))|]. done.
  - exists t1, (Finished r). rewrite app_nil_r. done.
Qed.
End loop.

(** ** The loop that is handed commands

    The same loop without its bytes: a read brings whole commands. *)

Section pipeline.
Context `{MemchrLaws, ItoaLaws, Ryu, Fastrand} {W : Type} `{AsyncWriteLaws W, BufferSizes}.

(** The commands that each of some reads completes, [n] bytes having come before. *)
Fixpoint arrivals (n : nat) (cmds : list Args) (chunks : list bytes) : list (list Args) :=
  match chunks with
  | [] => []
  | d :: ds => drop (completed n cmds) (take (completed (n + length d) cmds) cmds) :: arrivals (n + length d) cmds ds
  end.

(** A read of [d] at [now] has run its commands one by one, each with an
    output buffer of its own, left [b] unread, and flushes. *)
Definition answer (p : RequestParser) (b : bytes) (t : Task (W := W)) (s : ServerShared) (client : ClientState) (out : bytes) :
    option (Task (W := W) * option IoError) :=
  flush_conn {| t_server := s; t_client := client; t_conn := set_io b p (set_staging out (conn_out (t_conn t))) (t_conn t); t_sock := t_sock t |}.

(** [served reads groups t out t' v]: from [t], each read makes its entries
    (the clock, the counters, the registry), runs the commands of its group
    and flushes what they replied; [out] is all they replied, and [t'] and
    [v] are what the loop ends with. *)
Inductive served : list (bytes * Z) -> list (list Args) -> Task (W := W) -> bytes -> Task (W := W) -> Verdict -> Prop :=
| served_all t : served [] [] t [] t Continue
| served_failed d now reads cmds groups t s client out close p b t' e :
    run_all (t_server (after_read d now t)) (t_client (after_read d now t)) cmds = (s, client, out, close) ->
    answer p b (after_read d now t) s client out = Some (t', Some e) ->
    served ((d, now) :: reads) (cmds :: groups) t out t' (Finished (Some e))
| served_closed d now reads cmds groups t s client out close p b t' :
    run_all (t_server (after_read d now t)) (t_client (after_read d now t)) cmds = (s, client, out, close) ->
    answer p b (after_read d now t) s client out = Some (t', None) -> close || should_close client = true ->
    served ((d, now) :: reads) (cmds :: groups) t out (publish_task t') (Finished None)
| served_on d now reads cmds groups t s client out p b t1 out' t' v :
    run_all (t_server (after_read d now t)) (t_client (after_read d now t)) cmds = (s, client, out, false) ->
    answer p b (after_read d now t) s client out = Some (t1, None) -> should_close client = false ->
    served reads groups (publish_task t1) out' t' v ->
    served ((d, now) :: reads) (cmds :: groups) t (out ++ out') t' v.

Lemma completed_mono cmds n m : (n <= m)%nat -> (completed n cmds <= completed m cmds)%nat.
Proof.
  revert n m. induction cmds as [|args cmds IH]; intros n m Hl; simpl; [done|]. case_decide; [|lia].
  rewrite decide_True by lia. pose proof (IH (n - length (request args))%nat (m - length (request args))%nat ltac:(lia)). lia.
Qed.

Lemma arrivals_concat cmds chunks n :
  concat (arrivals n cmds chunks) = drop (completed n cmds) (take (completed (n + length (concat chunks)) cmds) cmds).
Proof.
  revert n. induction chunks as [|d ds IH]; intros n; cbn [arrivals concat].
  { cbn [length]. rewrite Nat.add_0_r. symmetry. apply drop_ge. rewrite length_take. lia. }
  rewrite IH, length_app, Nat.add_assoc.
  pose proof (completed_mono cmds n (n + length d) ltac:(lia)) as H1'.
  pose proof (completed_mono cmds (n + length d) (n + length d + length (concat ds)) ltac:(lia)) as H2'.
  set (x := completed n cmds) in *. set (y := completed (n + length d) cmds) in *.
  rewrite <-(take_drop y (take (completed (n + length d + length (concat ds)) cmds) cmds)) at 2.
  rewrite take_take, Nat.min_l by done. pose proof (completed_bound (n + length d) cmds) as Hy. fold y in Hy.
  rewrite drop_app_le by (rewrite length_take; lia). done.
Qed.

Lemma completed_wire (cmds : list Args) : completed (length (concat (request <$> cmds))) cmds = length cmds.
Proof.
  induction cmds as [|args cmds IH]; [done|]. rewrite fmap_cons. cbn [concat completed length]. rewrite length_app.
  rewrite decide_True by lia. by rewrite Nat.add_comm, Nat.add_sub, IH.
Qed.

(** A read whose bytes, after what was left of the reads before, parse to [cmds]. *)
Lemma read_serves d now t cmds p b :
  task_ok t -> d <> [] -> (0 <= batches (t_conn t) + 1 < CONFIG_RECHECK_BATCHES)%Z -> (0 < batches (t_conn t) + 1)%Z ->
  session (parser (t_conn t)) (read_buf (t_conn t) ++ d) cmds p b ->
  let '(s, client, out, close) := run_all (t_server (after_read d now t)) (t_client (after_read d now t)) cmds in
  exists q c t' e, answer q c (after_read d now t) s client out = Some (t', e) /\
    loop_step false (EvRead d now) t = Some match e with
      | Some e => (t', Finished (Some e))
      | None => (publish_task t', if close || should_close client then Finished None else Continue)
      end /\
    received (t_sock t) `prefix_of` received (t_sock t') /\ received (t_sock t') `prefix_of` received (t_sock t) ++ out /\
    (e = None -> received (t_sock t') = received (t_sock t) ++ out) /\
    (e = None -> close = false -> task_ok (publish_task t') /\ batches (t_conn t') = (batches (t_conn t) + 1)%Z /\
      parser (t_conn t') = p /\ read_buf (t_conn t') = b).
Proof.
  intros (Ho & Hc & Hwf & Ht) Hd Hb Hb0 Hs. set (t1 := after_read d now t).
  assert (Hn : wrapu 32 (batches (t_conn t) + 1) = (batches (t_conn t) + 1)%Z).
  { unfold wrapu. rewrite Z.land_ones by lia. apply Z.mod_small. unfold CONFIG_RECHECK_BATCHES in Hb. lia. }
  assert (Hp1 : parser (t_conn t1) = parser (t_conn t)).
  { subst t1. unfold after_read. cbn [t_conn parser]. rewrite Hn, decide_False; [done|]. rewrite Z.mod_small; lia. }
  change (read_buf (t_conn t) ++ d) with (read_buf (t_conn t1)) in Hs. rewrite <-Hp1 in Hs.
  assert (Hwf1 : wf (parser (t_conn t1)) (read_buf (t_conn t1))) by (rewrite Hp1; by apply wf_app).
  assert (Ht1 : table_framed (t_server t1)) by by eapply framed_same_table.
  pose proof (session_batch (t_server t1) (t_client t1) _ _ cmds p b Ht1 Hwf1 Hs) as Hrun.
  destruct (run_all (t_server t1) (t_client t1) cmds) as [[[s client] out] close]. destruct Hrun as (q & c & E & Hq).
  pose proof (batch_commands _ _ _ _ _ _ Hwf1 E) as Hcm.
  destruct (batch_total (t_server t1) (t_client t1) _ _ [] Hwf1) as (s' & c' & p' & b' & out' & close' & E' & Hok).
  rewrite E in E'. injection E' as <- <- <- <- <- <-. cbn [fst] in Hcm.
  set (t2 := {| t_server := s; t_client := client; t_conn := set_io c q (set_staging out (conn_out (t_conn t1))) (t_conn t1); t_sock := t_sock t1 |}).
  assert (Ho2 : ok (conn_out (t_conn t2))) by by apply (ok_same (conn_out (t_conn t))).
  destruct (flush_settles t2 out Ho2) as (t' & e & Ef & Q0 & Q1 & Q2 & Q3 & P1 & P2 & P3 & P4).
  { unfold stream, content in *. cbn. apply app_eq_nil in Hc as [E1 _]. by rewrite E1. }
  exists q, c, t', e. split; [exact Ef|]. split; [|split; [done|]; split; [done|]; split; [done|]].
  - destruct d as [|x d]; [done|]. cbn [loop_step]. fold t1. unfold execute_batch. rewrite batch_after, E by done.
    cbn [fmap option_fmap option_map mbind option_bind].
    assert (Es : staging (conn_out (t_conn t1)) = []) by by apply app_eq_nil in Hc as [_ Hc].
    rewrite Es. cbn [app]. fold t2. rewrite Ef. cbn [mbind option_bind]. by destruct e.
  - intros -> ->. destruct (Hok eq_refl) as [Hwf2 _]. destruct (Hq eq_refl) as [-> ->]. split_and!.
    + apply P4; [done..|]. by apply (framed_same_table (t_server t1)).
    + rewrite Q3. exact Hn.
    + exact Q2.
    + exact Q1.
Qed.

(** The reads that are left: [u] has been read, and its commands were run. *)
Lemma reads_served mx cmds reads : Forall (request_ok mx) cmds -> (blen (concat (request <$> cmds)) <= I64_MAX)%Z ->
  Forall (fun r => r.1 <> []) reads -> forall u t,
  concat (request <$> cmds) = u ++ concat reads.*1 -> task_ok t ->
  session (parser_new mx) u (take (completed (length u) cmds) cmds) (parser (t_conn t)) (read_buf (t_conn t)) ->
  (0 <= batches (t_conn t))%Z -> (batches (t_conn t) + blen reads < CONFIG_RECHECK_BATCHES)%Z ->
  exists t' out v, connection_loop ((fun '(d, now) => EvRead d now) <$> reads) t = Some (t', v) /\
    served reads (arrivals (length u) cmds reads.*1) t out t' v /\
    received (t_sock t) `prefix_of` received (t_sock t') /\ received (t_sock t') `prefix_of` received (t_sock t) ++ out /\
    (v = Continue \/ v = Finished None -> received (t_sock t') = received (t_sock t) ++ out) /\
    (v = Continue -> parser (t_conn t') = parser_new mx /\ read_buf (t_conn t') = []).
Proof.
  intros Hok HB. induction reads as [|[d now] reads IH]; intros Hne u t E Ht Hs Hb0 Hb.
  { exists t, [], Continue. split; [done|]. split; [constructor|]. rewrite app_nil_r. do 3 (split; [done|]). intros _.
    destruct (requests_session mx cmds Hok u [] HB E) as (p & b & Hs' & Hu). destruct (Hu eq_refl) as (_ & -> & ->).
    by destruct (session_det _ _ _ _ _ Hs _ _ _ Hs') as (_ & -> & ->). }
  apply Forall_cons in Hne as [Hd Hne]. cbn [fst] in Hd. cbn [arrivals fmap list_fmap concat fst] in *.
  unfold blen in Hb. cbn [length] in Hb. rewrite app_assoc in E.
  destruct (requests_session mx cmds Hok (u ++ d) (concat reads.*1) HB E) as (p & b & Hs' & _).
  apply (session_chunks _ _ _ _ d _ (wf_fresh mx u) Hs) in Hs' as Hx. destruct Hx as (cs & Ecs & Hcs).
  assert (Hg : drop (completed (length u) cmds) (take (completed (length u + length d) cmds) cmds) = cs).
  { rewrite <-length_app, Ecs. apply drop_app_length'. rewrite length_take. pose proof (completed_bound (length u) cmds). lia. }
  rewrite Hg. pose proof (read_serves d now t cs p b Ht Hd ltac:(lia) ltac:(lia) Hcs) as Hr.
  destruct (run_all _ _ cs) as [[[s client] out] close] eqn:Er. destruct Hr as (q & c & t1 & e & Ea & El & P1 & P2 & P3 & P4).
  cbn [connection_loop]. rewrite El. cbn [mbind option_bind]. destruct e as [e|].
  { exists t1, out, (Finished (Some e)). split; [done|]. split; [by eapply served_failed|]. do 2 (split; [done|]). split; [by intros [|]|done]. }
  destruct (close || should_close client) eqn:Ec.
  { exists (publish_task t1), out, (Finished None). split; [done|]. split; [by eapply served_closed|]. do 2 (split; [done|]). split; [by intros _; apply P3|done]. }
  apply orb_false_iff in Ec as [-> Ec]. destruct (P4 eq_refl eq_refl) as (Ht1 & Q1 & Q2 & Q3).
  destruct (IH Hne (u ++ d) (publish_task t1) E Ht1) as (t' & out' & v & Eloop & Hsv & R1 & R2 & R3 & R4).
  - cbn [publish_task t_conn]. by rewrite Q2, Q3.
  - cbn [publish_task t_conn]. lia.
  - cbn [publish_task t_conn]. unfold blen. lia.
  - cbn [publish_task t_sock] in R1, R2, R3. rewrite P3 in R1, R2, R3 by done. rewrite length_app in Hsv. rewrite <-app_assoc in R2, R3.
    exists t', (out ++ out'), v. split; [done|]. split; [by eapply served_on|]. split; [|done].
    transitivity (received (t_sock t) ++ out); [by apply prefix_app_r|done].
Qed.
End pipeline.

(** * The theorems *)

(** The server knows the commands of the development's tables. *)
Definition full_server `{Memchr, Itoa, Ryu, Fastrand, HashIter, ScanHash} (value_codec : option ValueCodec) (world : ShardMap -> nat -> ShardMap) cpus s : Prop :=
  add_all (full_table value_codec world cpus) table_new = Some (commands s).

Lemma full_framed `{Memchr, Itoa, Ryu, Fastrand, HashIter, ScanHash} value_codec world cpus s : full_server value_codec world cpus s -> table_framed s.
Proof. intros Hf nm spec Hl args. apply (lookup_iff _ _ nm spec Hf) in Hl as [Hin _]. by apply (table_appends value_codec world cpus). Qed.

(** C2: Pipelining.  A client writes the bytes of some commands, one after the
    other, and they reach [connection_loop] cut into reads anywhere (fewer
    than the 256 after which the parser takes the limit of the configuration
    again), each at a time of its own.  Each read runs the commands
    whose last byte it brought, so that together the reads run every command
    once and in order; a command is run on the state the one before it left,
    with an output buffer of its own, and the only other changes of the
    server and the client are the entries a read makes (clock, counters,
    registry) and those of its flush.  The replies are sent in order, whatever
    the socket accepts of each write; the run ends early only at a command
    that closes the connection or at an error of the socket; and if it does
    not, nothing is left in the parser or its buffer. *)
Theorem pipelined_requests `{MemchrLaws, ItoaLaws, Ryu, Fastrand, HashIter, ScanHash} {W} `{AsyncWriteLaws W, BufferSizes} (value_codec : option ValueCodec)
    (world : ShardMap -> nat -> ShardMap) cpus s client mx cmds reads w :
  full_server value_codec world cpus s -> Forall (request_ok mx) cmds -> (blen (concat (request <$> cmds)) <= I64_MAX)%Z ->
  Forall (fun r => r.1 <> []) reads -> concat reads.*1 = concat (request <$> cmds) -> (blen reads < CONFIG_RECHECK_BATCHES)%Z ->
  let groups := arrivals 0 cmds reads.*1 in
  concat groups = cmds /\
  exists t out v,
    connection_loop ((fun '(d, now) => EvRead d now) <$> reads) {| t_server := s; t_client := client; t_conn := conn_new mx; t_sock := w |} = Some (t, v) /\
    served reads groups {| t_server := s; t_client := client; t_conn := conn_new mx; t_sock := w |} out t v /\
    received (t_sock t) `prefix_of` received w ++ out /\
    (v = Continue \/ v = Finished None -> received (t_sock t) = received w ++ out) /\
    (v = Continue -> parser (t_conn t) = parser_new mx /\ read_buf (t_conn t) = []).
Proof.
  intros Hf%full_framed Hok HB Hne E Hb. cbv zeta. split.
  - rewrite arrivals_concat, E. cbn [Nat.add]. rewrite completed_wire, firstn_all, (completed_none mx) by done. done.
  - set (t0 := {| t_server := s; t_client := client; t_conn := conn_new mx; t_sock := w |}).
    destruct (reads_served mx cmds reads Hok HB Hne [] t0) as (t & out & v & El & Hs & _ & P2 & P3 & P4); try done.
    + cbn [length]. rewrite (completed_none mx) by done. constructor. rewrite parse_unfold by by apply wf_start. done.
    + by exists t, out, v.
Qed.

(** C11: A connection, whatever wakes its loop and whatever its socket accepts
    of each write: every iteration ends; what the peer has received only grows
    and is a prefix of what the iterations made the connection owe, frames
    pushed from other threads and replies in one order; and as long as the
    loop goes on, nothing is owed that was not sent. *)
Theorem connection_sends `{MemchrLaws, Itoa, Ryu, Fastrand, HashIter, ScanHash} {W} `{AsyncWriteLaws W, BufferSizes} (value_codec : option ValueCodec)
    (world : ShardMap -> nat -> ShardMap) cpus s client (c : Conn) w evs :
  full_server value_codec world cpus s -> (exists mx, c = conn_new mx) ->
  exists t v, connection_loop evs {| t_server := s; t_client := client; t_conn := c; t_sock := w |} = Some (t, v) /\
    received w `prefix_of` received (t_sock t) /\
    received (t_sock t) `prefix_of` received w ++ emissions evs {| t_server := s; t_client := client; t_conn := c; t_sock := w |} /\
    (v = Continue -> received (t_sock t) = received w ++ emissions evs {| t_server := s; t_client := client; t_conn := c; t_sock := w |}).
Proof.
  intros Hf%full_framed [mx ->]. set (t0 := {| t_server := s; t_client := client; t_conn := conn_new mx; t_sock := w |}).
  destruct (connection_run evs t0) as (t & v & E & P1 & P2 & P3).
  { split; [apply ok_new|]. split; [done|]. split; [apply wf_fresh|done]. }
  exists t, v. split; [done|]. split; [done|]. split; [done|]. intros Hv. by apply P3.
Qed.

(** ** Witnesses *)

Section witnesses.
#[local] Existing Instances memchr_find memchr_find_laws itoa_model itoa_model_laws ryu_model no_draws hash_iter_model.
#[local] Instance no_sizes : BufferSizes := fun _ => (0, 0, 0, 0).
#[local] Instance scan_hash_sum : ScanHash := fun k => le_val k.

Definition wire_table : CommandTable := default table_new (add_all (full_table None (fun m _ => m) 4) table_new).
Definition wire_server : ServerShared :=
  {| shard_map := shard_map_new 4 16; clock_ms := 1000; commands := wire_table; shared := demo_shared |}.

Lemma wire_full : full_server None (fun m _ => m) 4 wire_server.
Proof.
  unfold full_server, wire_server, wire_table. cbn [commands].
  assert ((if add_all (full_table None (fun m _ => m) 4) table_new then true else false) = true) as Hok by (vm_compute; reflexivity).
  by destruct (add_all (full_table None (fun m _ => m) 4) table_new).
Qed.
Definition set_get : list Args := [[bs "SET"; bs "k"; bs "v"]; [bs "GET"; bs "k"]].
Definition set_get_wire : bytes := bs "*3" ++ CRLF ++ bs "$3" ++ CRLF ++ bs "SET" ++ CRLF ++ bs "$1" ++ CRLF ++ bs "k" ++ CRLF ++ bs "$1" ++ CRLF ++ bs "v" ++ CRLF ++
  bs "*2" ++ CRLF ++ bs "$3" ++ CRLF ++ bs "GET" ++ CRLF ++ bs "$1" ++ CRLF ++ bs "k" ++ CRLF.
Definition set_get_replies : bytes := bs "+OK" ++ CRLF ++ bs "$1" ++ CRLF ++ bs "v" ++ CRLF.

Lemma set_get_ok : Forall (request_ok PROTO_MAX_BULK_LEN) set_get.
Proof. repeat constructor; unfold blen; vm_compute; discriminate. Qed.

(** Three reads, of which the second completes SET and the third GET, over a
    socket that takes three bytes of each write. *)
Definition slow_socket : Trickle := {| got := []; chunk := 3; vectored := true |}.
Definition set_get_reads : list (bytes * Z) := [(take 7 set_get_wire, 1000); (take 30 (drop 7 set_get_wire), 1001); (drop 37 set_get_wire, 1002)].

Lemma pipelined_requests_witness : exists t,
  connection_loop ((fun '(d, now) => EvRead d now) <$> set_get_reads)
    {| t_server := wire_server; t_client := demo_client true; t_conn := conn_new PROTO_MAX_BULK_LEN; t_sock := slow_socket |} = Some (t, Continue) /\
  got (t_sock t) = set_get_replies /\ parser (t_conn t) = parser_new PROTO_MAX_BULK_LEN /\
  arrivals 0 set_get set_get_reads.*1 = [[]; [[bs "SET"; bs "k"; bs "v"]]; [[bs "GET"; bs "k"]]].
Proof.
  pose proof (pipelined_requests None (fun m _ => m) 4 wire_server (demo_client true) PROTO_MAX_BULK_LEN set_get set_get_reads slow_socket
    wire_full set_get_ok ltac:(vm_compute; discriminate) ltac:(repeat constructor; discriminate) ltac:(vm_compute; reflexivity) ltac:(reflexivity)) as Hp.
  destruct Hp as (_ & t & out & v & Hl & _ & _ & _ & Hc).
  set (t0 := {| t_server := wire_server; t_client := demo_client true; t_conn := conn_new PROTO_MAX_BULK_LEN; t_sock := slow_socket |}) in *.
  assert (Ev : (fun r => (r.2, got (t_sock r.1))) <$> connection_loop ((fun '(d, now) => EvRead d now) <$> set_get_reads) t0 = Some (Continue, set_get_replies))
    by (vm_compute; reflexivity).
  rewrite Hl in Ev. injection Ev as -> Eg. exists t. split; [exact Hl|]. split; [exact Eg|]. split; [exact (proj1 (Hc eq_refl))|vm_compute; reflexivity].
Defined.

(** A socket that takes three bytes of each write; a frame pushed between two reads. *)
Definition wire_events : list Event := [EvRead (take 40 set_get_wire) 1000; EvFrame (bs "+pushed" ++ CRLF); EvUnblock; EvRead (drop 40 set_get_wire) 1001].

Lemma connection_sends_witness : exists t,
  connection_loop wire_events {| t_server := wire_server; t_client := demo_client true; t_conn := conn_new PROTO_MAX_BULK_LEN; t_sock := slow_socket |} = Some (t, Continue) /\
  got (t_sock t) = bs "+OK" ++ CRLF ++ bs "+pushed" ++ CRLF ++ bs "$1" ++ CRLF ++ bs "v" ++ CRLF.
Proof.
  destruct (connection_sends None (fun m _ => m) 4 wire_server (demo_client true) (conn_new PROTO_MAX_BULK_LEN) slow_socket wire_events
    wire_full ltac:(by eexists)) as (t & v & Hr & _ & _ & Hc).
  assert (Ev : snd <$> connection_loop wire_events {| t_server := wire_server; t_client := demo_client true; t_conn := conn_new PROTO_MAX_BULK_LEN; t_sock := slow_socket |} = Some Continue)
    by (vm_compute; reflexivity).
  rewrite Hr in Ev. injection Ev as ->. exists t. split; [exact Hr|]. specialize (Hc eq_refl). cbn [received trickle_write] in Hc. rewrite Hc. vm_compute. reflexivity.
Defined.

(** What is in the buffer already does not show in the reply. *)
Lemma reply_isolated_witness : exists s client reply o,
  dispatch wire_server (demo_client true) [] [bs "DBSIZE"] = (s, client, reply, o) /\
  dispatch wire_server (demo_client true) (bs "+OK" ++ CRLF) [bs "DBSIZE"] = (s, client, bs "+OK" ++ CRLF ++ reply, o).
Proof.
  pose proof (reply_isolated None (fun m _ => m) 4 wire_table wire_server (demo_client true) (bs "+OK" ++ CRLF) [bs "DBSIZE"] wire_full eq_refl) as Hd.
  destruct (dispatch wire_server (demo_client true) [] [bs "DBSIZE"]) as [[[s client] reply] o]. exists s, client, reply, o. split; [reflexivity|].
  rewrite app_assoc. exact Hd.
Defined.
End witnesses.
