(* ===== verification/ConnectionFacts.v ===== *)
(** * Connection commands: facts

    Nobody gets past [requirepass] without the password, through any command
    of the table; [CLIENT KILL] reaches exactly the connections its filter
    matches. *)
From S2P Require Import Prelude Config Crc Strnum Parser Glob Object Shard Errors Reply Notify Stream Output Commands Engine Dtoa Client Registry Ctx StringCmd Views Dispatch Expire Generic GenericFacts Scan Dump ReadOnly Server Connection Framing Conn ConnFacts.
Open Scope Z_scope.

(** ** Passwords *)

Lemma xor_zero_iff (x y : byte) : Z.lxor (b2z x) (b2z y) = 0 <-> x = y.
Proof. rewrite Z.lxor_eq_0_iff. split; [apply b2z_inj|by intros ->]. Qed.

Lemma fold_diff (l : list (byte * byte)) d : 0 <= d ->
  0 <= foldl (fun diff '(x, y) => Z.lor diff (Z.lxor (b2z x) (b2z y))) d l /\
  (foldl (fun diff '(x, y) => Z.lor diff (Z.lxor (b2z x) (b2z y))) d l = 0 <-> d = 0 /\ Forall (fun p => p.1 = p.2) l).
Proof.
  revert d. induction l as [|[x y] l IH]; intros d Hd; cbn [foldl]; [split; [done|]; by rewrite Forall_nil; tauto|].
  assert (Hx : 0 <= Z.lxor (b2z x) (b2z y)) by (apply Z.lxor_nonneg; pose proof (b2z_range x); pose proof (b2z_range y); lia).
  destruct (IH (Z.lor d (Z.lxor (b2z x) (b2z y)))) as [H1 H2]; [by apply Z.lor_nonneg|]. split; [done|].
  rewrite H2, Z.lor_eq_0_iff, xor_zero_iff, Forall_cons. cbn. tauto.
Qed.

(** No early exit, but still equality. *)
Lemma constant_time_eq_spec a b : constant_time_eq a b = true <-> a = b.
Proof.
  unfold constant_time_eq. destruct (decide (length a <> length b)) as [Hl|Hl]; [split; [done|congruence]|].
  assert (Hlen : length a = length b) by (destruct (decide (length a = length b)); [done|by destruct Hl]). clear Hl.
  rewrite bool_decide_eq_true, (proj2 (fold_diff (zip a b) 0 ltac:(done))). split; [intros [_ Hf]|intros ->].
  - revert b Hlen Hf. induction a as [|x a IH]; intros [|y b] Hlen Hf; try done. cbn in Hf. apply Forall_cons in Hf as [E Hf].
    cbn in E. subst. f_equal. apply IH; [by injection Hlen|done].
  - split; [done|]. clear. induction b; constructor; done.
Qed.

Lemma check_auth_ok conf user pass : check_auth conf user pass = inr tt -> requirepass conf = Some pass.
Proof.
  unfold check_auth. destruct (requirepass conf) as [pw|]; [|done]. destruct (match user with Some u => _ | None => _ end); [done|].
  destruct (constant_time_eq pass pw) eqn:E; [|done]. by apply constant_time_eq_spec in E as ->.
Qed.

Section auth.
Context `{Memchr, Itoa, Ryu, Fastrand}.

(** A client that has not authenticated, before and after part of a handler. *)
Record outside (c c' : Ctx) : Prop := {
  out_auth : authenticated (client c') = false;
  out_shards : shards c' = shards c;
  out_server : server c' = server c;
  out_cfg : cfg c' = cfg c;
  out_block : block c' = block c
}.
Lemma outside_trans c1 c2 c3 : outside c1 c2 -> outside c2 c3 -> outside c1 c3.
Proof. intros [] []. split; congruence. Qed.
Lemma outside_client f c : authenticated (client c) = false -> authenticated (f (client c)) = false -> outside c (set_client f c).
Proof. by split. Qed.

Lemma hello_outside pw args c :
  requirepass (cfg c) = Some pw -> pw ∉ args -> authenticated (client c) = false -> outside c (hello_options args c).1.
Proof.
  intros Hp. remember (length args) as n eqn:Hn. revert args c Hp Hn. induction (lt_wf n) as [n _ IH]. intros [|k rest] c Hp -> Hin Ha; [by split|].
  cbn [hello_options]. cbv zeta. destruct (eq_ignore_ascii_case k (bs "AUTH")).
  - destruct rest as [|u [|q rest]]; [by split..|]. rewrite run_ask. destruct (check_auth (cfg c) (Some u) q) as [e|[]] eqn:E; [by split|].
    apply check_auth_ok in E. exfalso. apply Hin. rewrite Hp in E. injection E as ->. set_solver.
  - destruct (eq_ignore_ascii_case k (bs "SETNAME")); [|by split]. destruct rest as [|m rest]; [by split|].
    destruct (validate_client_name m) as [e|[]]; [by split|]. rewrite run_ok, run_do.
    apply (outside_trans _ (set_client (with_name m) c)); [by split|]. apply (IH (length rest)); [simpl; lia|done|done|set_solver|done].
Qed.

Lemma handler_outside spec pw args c :
  spec ∈ [auth_spec; hello_spec; quit_spec; reset_spec] -> requirepass (cfg c) = Some pw -> pw ∉ drop 1 args -> authenticated (client c) = false ->
  outside c (handler spec args c).1.
Proof.
  intros Hin Hp Hpw Ha. rewrite !elem_of_cons, elem_of_nil in Hin. destruct Hin as [->|[->|[->|[->|[]]]]]; cbn [auth_spec hello_spec quit_spec reset_spec spec1 handler].
  - unfold cmd_auth. destruct args as [|a0 [|p [|q [|]]]]; try by split.
    + rewrite run_ask. destruct (check_auth (cfg c) None p) as [e|[]] eqn:E; [by split|]. apply check_auth_ok in E. rewrite Hp in E. injection E as ->. cbn in Hpw. set_solver.
    + rewrite run_ask. destruct (check_auth (cfg c) (Some p) q) as [e|[]] eqn:E; [by split|]. apply check_auth_ok in E. rewrite Hp in E. injection E as ->. cbn in Hpw. set_solver.
  - unfold cmd_hello. rewrite run_ask. destruct (drop 1 args) as [|raw opts].
    { rewrite run_ret, run_ask, Ha. by split. }
    destruct (string2ll raw) as [v|]; [|by split]. destruct (bool_decide (2 <= v <= 3)); [|by split].
    pose proof (hello_outside pw opts c Hp ltac:(set_solver) Ha) as Ho.
    match goal with |- outside c (((_ ≫= _) ≫= ?k) c).1 => set (tail := k) end.
    unfold mbind, M_bind. destruct (hello_options opts c) as [c1 [e|[]]]; [done|]. cbn [fst] in Ho. unfold mret, M_ret.
    subst tail. cbv beta. rewrite run_ask, (out_auth _ _ Ho). done.
  - by split.
  - unfold cmd_reset. rewrite !run_do, run_ask, run_do. change (cfg (set_client _ _)) with (cfg c). rewrite Hp. by split.
Qed.

(** ** Through dispatch *)

(** All that happened to the server is that it counted. *)
Definition set_stats (st : Stats) (s : Shared) : Shared :=
  {| stats := st; server_dirty := server_dirty s; propagation_enabled := propagation_enabled s;
     sink_installed := sink_installed s; published := published s; draws := draws s; config_handle := config_handle s; registry := registry s |}.
Definition counted (s s' : ServerShared) : Prop := exists st, s' = with_shared (set_stats st) s.

Lemma counted_refl s : counted s s.
Proof. exists (stats (shared s)). by destruct s as [? ? ? []]. Qed.
Lemma counted_trans s1 s2 s3 : counted s1 s2 -> counted s2 s3 -> counted s1 s3.
Proof. intros [a ->] [b ->]. by exists b. Qed.
Lemma counted_bump k s : counted s (with_shared (bump_stat k) s).
Proof. by exists (bump k (stats (shared s))). Qed.
Lemma counted_config s s' : counted s s' -> config s' = config s /\ commands s' = commands s.
Proof. by intros [st ->]. Qed.
Lemma counted_error out_ pr e s : counted s (reply_error out_ pr e s).1.
Proof. apply counted_bump. Qed.
End auth.

#[export] Hint Resolve counted_refl counted_bump counted_error : counted.

Section gate.
Context `{Memchr, Itoa, Ryu, Fastrand, HashIter, ScanHash} (value_codec : option ValueCodec) (world : ShardMap -> nat -> ShardMap) (cpus : Z).

(** The commands open to everybody are the four of this file. *)
Lemma open_commands spec : spec ∈ full_table value_codec world cpus -> no_auth_command (name spec) = true -> spec ∈ [auth_spec; hello_spec; quit_spec; reset_spec].
Proof.
  intros Hin Hn.
  assert (Hall : Forall (fun spec => no_auth_command (name spec) = true -> spec ∈ [auth_spec; hello_spec; quit_spec; reset_spec]) (full_table value_codec world cpus)).
  { unfold full_table, table_specs, generic_specs, server_specs, connection_specs. cbn [app].
    repeat apply Forall_cons_2; [..|apply Forall_nil_2]; intros Hc; first [by vm_compute in Hc|set_solver]. }
  rewrite Forall_forall in Hall. by apply Hall.
Qed.

Lemma open_command_flags spec : spec ∈ [auth_spec; hello_spec; quit_spec; reset_spec] ->
  has_flag (flags spec) ALL_SHARDS = false /\ has_flag (flags spec) MOVABLE_KEYS = false /\ first_key spec = 0 /\ has_flag (flags spec) DENYOOM = false.
Proof. rewrite !elem_of_cons, elem_of_nil. by intros [->|[->|[->|[->|[]]]]]. Qed.

Lemma dispatch_outside s client out_ args pw :
  full_server value_codec world cpus s -> requirepass (config s) = Some pw -> pw ∉ drop 1 args -> authenticated client = false ->
  let '(s', client', _, _) := dispatch s client out_ args in counted s s' /\ authenticated client' = false.
Proof.
  intros Hf Hp Hin Ha. unfold dispatch. case_decide as Hargs; [eauto with counted|]. cbv zeta.
  set (s1 := with_shared (bump_stat commands_processed) s). assert (C1 : counted s s1) by apply counted_bump.
  assert (Herr : counted s (with_shared (bump_stat total_error_replies) s1)) by (eapply counted_trans; [exact C1|apply counted_bump]).
  change (commands s1) with (commands s).
  destruct (Commands.lookup (arg_name args) (commands s)) as [spec|] eqn:El; [|by split].
  destruct (negb (arity_ok spec (length args))); [by split|].
  change (authenticated (with_last_command (name spec) client)) with (authenticated client). rewrite Ha. cbn [negb andb].
  destruct (no_auth_command (name spec)) eqn:En; cbn [negb]; [|by split]. cbn [intercept].
  apply (lookup_iff _ _ _ _ Hf) in El as [Hin' _]. pose proof (open_commands spec Hin' En) as Hspec.
  destruct (open_command_flags spec Hspec) as (Hfl1 & Hfl2 & Hfl3 & Hfl4). rewrite Hfl4.
  set (client1 := with_last_command (name spec) client).
  set (c0 := ctx_new {| buf := out_; proto := client_proto client1 |} client1 (shared s1) {| guards := []; g_mask := mask (shard_map s1) |} (config s1) (clock_ms s1) (shard_map s1)).
  pose proof (handler_outside spec pw args c0 Hspec Hp Hin Ha) as Ho. destruct (handler spec args c0) as [c' r] eqn:Eh. assert (Ho1 : outside c0 (c', r).1) by (rewrite <-Eh; exact Ho).
  clear Ho. rename Ho1 into Ho. cbn [fst] in Ho.
  rewrite (run_unlocked spec args s1 client1 out_ c' r Hfl1 Hfl2 Hfl3 Eh (out_shards _ _ Ho)).
  assert (C2 : counted s (with_shared (fun _ => server c') s1)).
  { rewrite (out_server _ _ Ho). eapply counted_trans; [exact C1|]. change (server c0) with (shared s1).
    exists (stats (shared s1)). by destruct s as [? ? ? []]. }
  pose proof (out_auth _ _ Ho) as Ha'. destruct r as [e|[]].
  - split; [|done]. eapply counted_trans; [exact C2|]. apply counted_bump.
  - destruct (block c') as [req|]; exact (conj C2 Ha').
Qed.

Lemma run_outside s client out_ args pw :
  full_server value_codec world cpus s -> requirepass (config s) = Some pw -> pw ∉ drop 1 args -> authenticated client = false ->
  let '(s', client', _, _) := run_command s client out_ args in counted s s' /\ authenticated client' = false.
Proof.
  intros Hf Hp Hin Ha. pose proof (dispatch_outside s client out_ args pw Hf Hp Hin Ha) as Hd. unfold run_command.
  destruct (dispatch s client out_ args) as [[[s' c'] st'] o]. destruct Hd as [Hc Hau].
  assert (authenticated (post_command c') = false) as Hpc by (unfold post_command; by repeat case_match).
  destruct o; cbv zeta; first [exact (conj Hc Hpc)].
Qed.
End gate.

(** C38: Authentication.  On a server with [requirepass], a client that has not
    authenticated and never sends the password as an argument changes nothing
    but the counters, whatever commands it sends, in whatever order: not the
    keyspace, the configuration, the clock, the other connections or the log;
    and it stays unauthenticated. *)
Theorem password_required `{Memchr, Itoa, Ryu, Fastrand, HashIter, ScanHash} (value_codec : option ValueCodec) (world : ShardMap -> nat -> ShardMap)
    cpus s client pw cmds :
  full_server value_codec world cpus s -> requirepass (config s) = Some pw -> authenticated client = false ->
  Forall (fun args => pw ∉ drop 1 args) cmds ->
  let '(s', client', _, _) := run_all s client cmds in counted s s' /\ authenticated client' = false.
Proof.
  intros Hf Hp Ha Hc. revert s client Hf Hp Ha. induction Hc as [|args cmds Hin Hc IH]; intros s client Hf Hp Ha; cbn [run_all]; [eauto with counted|].
  pose proof (run_outside value_codec world cpus s client [] args pw Hf Hp Hin Ha) as Hr.
  destruct (run_command s client [] args) as [[[s1 c1] o1] close1]. destruct Hr as [C1 Ha1]. destruct close1; [exact (conj C1 Ha1)|].
  destruct (counted_config _ _ C1) as [E1 E2]. specialize (IH s1 c1).
  destruct (run_all s1 c1 cmds) as [[[s2 c2] o2] close2].
  destruct IH as [C2 Ha2]; [unfold full_server; rewrite E2; exact Hf|rewrite E1; exact Hp|exact Ha1|]. split; [|exact Ha2]. exact (counted_trans _ _ _ C1 C2).
Qed.

(** ** [CLIENT KILL] *)

(** The connections a filter kills for the caller [me]. *)
Definition condemned (f : KillFilter) (me now : Z) (e : ConnEntry) : bool :=
  filter_matches f (snap e) now && negb (skipme f && bool_decide (entry_id e = me)).
Definition struck (f : KillFilter) (me now : Z) (e : ConnEntry) : ConnEntry :=
  if condemned f me now e && negb (bool_decide (entry_id e = me)) then (kill e).1 else e.
Definition counts (f : KillFilter) (me now : Z) (e : ConnEntry) : bool :=
  condemned f me now e && (bool_decide (entry_id e = me) || reachable e).

Lemma kill_id e : entry_id (kill e).1 = entry_id e.
Proof. unfold kill. by destruct (reachable e). Qed.
Lemma kill_sent e : (kill e).2 = reachable e.
Proof. unfold kill. by destruct (reachable e). Qed.

Lemma length_filter_cons {A} (P : A -> bool) x l :
  Z.of_nat (length (filter (fun e => P e) (x :: l))) = (if P x then 1 else 0) + Z.of_nat (length (filter (fun e => P e) l)).
Proof. rewrite filter_cons. destruct (decide _) as [Hp|Hp]; [rewrite (Is_true_true_1 _ Hp); simpl; lia|destruct (P x); [by destruct Hp|lia]]. Qed.

Lemma kill_loop_spec f me now es r killed self : NoDup (entry_id <$> es) -> Forall (fun e => r !! entry_id e = Some e) es ->
  let '(r', killed', self') := kill_loop f me now es r killed self in
  (forall n, r' !! n = if decide (n ∈ entry_id <$> es) then struck f me now <$> r !! n else r !! n) /\
  killed' = killed + Z.of_nat (length (filter (fun e => counts f me now e) es)) /\
  self' = self || existsb (fun e => condemned f me now e && bool_decide (entry_id e = me)) es.
Proof.
  revert r killed self. induction es as [|e es IH]; intros r killed self Hnd Hr; cbn [kill_loop fmap list_fmap existsb].
  { split; [intros n; by rewrite decide_False by set_solver|]. split; [simpl; lia|by rewrite orb_false_r]. }
  apply NoDup_cons in Hnd as [Hni Hnd]. apply Forall_cons in Hr as [He Hr].
  assert (Hcase : forall r1 k1 s1, (forall n, n <> entry_id e -> r1 !! n = r !! n) -> r1 !! entry_id e = Some (struck f me now e) ->
    k1 = killed + (if counts f me now e then 1 else 0) -> s1 = self || (condemned f me now e && bool_decide (entry_id e = me)) ->
    let '(r', killed', self') := kill_loop f me now es r1 k1 s1 in
    (forall n, r' !! n = if decide (n ∈ entry_id e :: (entry_id <$> es)) then struck f me now <$> r !! n else r !! n) /\
    killed' = killed + Z.of_nat (length (filter (fun e => counts f me now e) (e :: es))) /\
    self' = self || ((condemned f me now e && bool_decide (entry_id e = me)) || existsb (fun e => condemned f me now e && bool_decide (entry_id e = me)) es)).
  { intros r1 k1 s1 Hr1 He1 -> ->. specialize (IH r1 (killed + (if counts f me now e then 1 else 0)) (self || (condemned f me now e && bool_decide (entry_id e = me)))).
    destruct (kill_loop _ _ _ _ _ _ _) as [[r' k'] s']. destruct IH as (I1 & I2 & I3); [done| |split_and!].
    - rewrite Forall_forall in *. intros x Hx. rewrite Hr1; [by apply Hr|]. intros E. apply Hni. rewrite <-E. by apply list_elem_of_fmap_2.
    - intros n. rewrite I1. destruct (decide (n = entry_id e)) as [->|Hne].
      + rewrite decide_False, decide_True by set_solver. by rewrite He1, He.
      + rewrite Hr1 by done. destruct (decide (n ∈ entry_id <$> es)); [by rewrite decide_True by set_solver|by rewrite decide_False by set_solver].
    - rewrite I2, length_filter_cons. lia.
    - by rewrite I3, orb_assoc. }
  assert (Hreg : forall e' sent, kill e = (e', sent) -> e' = (kill e).1 /\ sent = reachable e /\ entry_id e' = entry_id e).
  { intros e' sent Ek. pose proof (kill_id e) as K1. pose proof (kill_sent e) as K2. rewrite Ek in *. by rewrite <-K2. }
  change (s_id (snap e)) with (entry_id e).
  destruct (filter_matches f (snap e) now) eqn:Ef, (skipme f) eqn:Es, (bool_decide (entry_id e = me)) eqn:Em; cbn [negb andb orb]; try destruct (kill e) as [e' sent] eqn:Ek;
    apply Hcase; unfold struck, counts, condemned; rewrite ?Ef, ?Es, ?Em; cbn [negb andb orb]; rewrite ?orb_false_r, ?orb_true_r, ?Z.add_0_r; try done;
    destruct (Hreg _ _ eq_refl) as (E1 & E2 & E3); unfold register_conn, Registry in *; rewrite ?E3.
  all: try (intros n Hn; by rewrite lookup_insert_ne by done).
  all: try (by rewrite lookup_insert_eq, Ek).
  all: rewrite E2; destruct (reachable e); lia.
Qed.

(** [CLIENT KILL] tells every connection its filter matches to close, and no
    other; the caller is only marked, to be closed once the reply is out, and
    is spared under [SKIPME yes]; the reply counts the connections told that
    were still there, and the caller. *)
Theorem kill_reaches f me now r : registry_ok r ->
  let '(r', killed, kill_self) := kill_loop f me now (snapshot_conns r) r 0 false in
  r' = struck f me now <$> r /\
  killed = Z.of_nat (length (filter (fun e => counts f me now e) (snapshot_conns r))) /\
  (kill_self = true <-> exists e, r !! me = Some e /\ condemned f me now e = true).
Proof.
  unfold Registry in *. intros Hr. pose proof (snapshot_sorted r Hr) as Hs.
  assert (Hnd : NoDup (entry_id <$> snapshot_conns r)).
  { clear -Hs. induction Hs as [|x l Hs IH Hx]; constructor; [|done]. intros Hin. rewrite Forall_forall in Hx. specialize (Hx x Hin). lia. }
  assert (Hl : Forall (fun e => r !! entry_id e = Some e) (snapshot_conns r)) by (apply Forall_forall; intros e; by apply elem_of_snapshot).
  pose proof (kill_loop_spec f me now _ r 0 false Hnd Hl) as Hk. destruct (kill_loop _ _ _ _ _ _ _) as [[r' k] self]. destruct Hk as (K1 & K2 & K3).
  split_and!.
  - apply map_eq. intros n. rewrite K1, lookup_fmap. case_decide as Hin; [done|]. destruct (r !! n) as [e|] eqn:En; [|done].
    exfalso. apply Hin. apply list_elem_of_fmap. exists e. rewrite (elem_of_snapshot r e Hr). by rewrite (Hr n e En).
  - lia.
  - rewrite K3. cbn [orb]. rewrite existsb_exists. split.
    + intros (e & Hin & [Hc <-%bool_decide_eq_true_1]%andb_true_iff). exists e. split; [|done]. apply elem_of_snapshot; [done|]. by apply list_elem_of_In.
    + intros (e & He & Hc). exists e. pose proof (Hr me e He) as E. split; [|by rewrite Hc, bool_decide_eq_true_2]. apply list_elem_of_In, elem_of_snapshot; [done|]. by rewrite E.
Qed.

(** ** Witnesses *)

Section witnesses.
#[local] Existing Instances memchr_find memchr_find_laws itoa_model itoa_model_laws ryu_model no_draws hash_iter_model.
#[local] Instance scan_hash_sum : ScanHash := fun k => le_val k.

Definition guarded_server : ServerShared :=
  {| shard_map := shard_map_new 4 16; clock_ms := 1000; commands := wire_table;
     shared := set_handle (set_pass (Some (bs "secret")) (config_handle demo_shared)) demo_shared |}.
Definition guesses : list Args :=
  [[bs "SET"; bs "k"; bs "v"]; [bs "AUTH"; bs "Secret"]; [bs "AUTH"; bs "default"; bs "secret1"]; [bs "HELLO"; bs "3"; bs "AUTH"; bs "default"; []];
   [bs "CONFIG"; bs "GET"; bs "requirepass"]; [bs "RESET"]; [bs "FLUSHALL"]].

(** Guessing gets nowhere; the password does. *)
Lemma password_required_witness :
  (exists s client out_, run_all guarded_server (demo_client false) guesses = (s, client, out_, false) /\
     counted guarded_server s /\ authenticated client = false) /\
  authenticated (run_all guarded_server (demo_client false) (guesses ++ [[bs "AUTH"; bs "secret"]])).1.1.2 = true.
Proof.
  split; [|vm_compute; reflexivity].
  assert (Hp : Forall (fun args => bs "secret" ∉ drop 1 args) guesses) by (repeat constructor; apply (bool_decide_unpack _); vm_compute; exact I).
  pose proof (password_required None (fun m _ => m) 4 guarded_server (demo_client false) (bs "secret") guesses wire_full eq_refl eq_refl Hp) as Hr.
  assert (Ec : (run_all guarded_server (demo_client false) guesses).2 = false) by (vm_compute; reflexivity).
  destruct (run_all guarded_server (demo_client false) guesses) as [[[s client] out_] close]. cbn [snd] in Ec. subst close.
  exists s, client, out_. split; [reflexivity|exact Hr].
Defined.

(** Two other connections, one of them gone already. *)
Definition peer (id : Z) (there : bool) : ConnEntry :=
  {| snap := snapshot_new (client_new id (bs "10.0.0.1:50") (bs "10.0.0.2:6379") 0 false) 9; inbox := []; reachable := there |}.
Definition peers : Registry := list_to_map ((fun e => (entry_id e, e)) <$> [peer 1 true; peer 2 true; peer 3 false]).
Lemma peers_ok : registry_ok peers.
Proof.
  intros n e Hn. unfold peers in Hn. apply elem_of_list_to_map_2 in Hn. apply list_elem_of_fmap in Hn as (y & E & _). by injection E as -> ->.
Qed.

Lemma kill_reaches_witness :
  let '(r, killed, kill_self) := kill_loop filter_default 1 1000 (snapshot_conns peers) peers 0 false in
  r = struck filter_default 1 1000 <$> peers /\ inbox <$> r !! 2 = Some [Kill] /\ inbox <$> r !! 1 = Some [] /\ killed = 1 /\ kill_self = false.
Proof.
  pose proof (kill_reaches filter_default 1 1000 peers peers_ok) as Hk.
  assert (E2 : inbox <$> (kill_loop filter_default 1 1000 (snapshot_conns peers) peers 0 false).1.1 !! 2 = Some [Kill]) by (vm_compute; reflexivity).
  assert (E1 : inbox <$> (kill_loop filter_default 1 1000 (snapshot_conns peers) peers 0 false).1.1 !! 1 = Some []) by (vm_compute; reflexivity).
  assert (Es : (kill_loop filter_default 1 1000 (snapshot_conns peers) peers 0 false).2 = false) by (vm_compute; reflexivity).
  assert (En : (kill_loop filter_default 1 1000 (snapshot_conns peers) peers 0 false).1.2 = 1) by (vm_compute; reflexivity).
  destruct (kill_loop _ _ _ _ _ _ _) as [[r killed] kill_self]. cbn [fst snd] in *. destruct Hk as (Hr & _).
  split_and!; [exact Hr|exact E2|exact E1|exact En|exact Es].
Defined.
End witnesses.
